(* ===== verification/_CoqProject ===== *)
-Q . S2P
Prelude.v
Protocol.v
Ids.v
Samples.v
HostTransfer.v
Room.v
RoomInv.v
RoomThms.v
RoomLife.v
RoomTrace.v
RoomSamples.v
RoomWitness.v
NetAddr.v
AddrText.v
ClientIp.v
OwnerKey.v
Quotas.v
Logs.v
Snapshot.v
Writer.v
Persist.v
Debounce.v
Mailbox.v
Durable.v
DurableWitness.v
Threads.v
Simulation.v
World.v
Registry.v
Cleanup.v
Connection.v
Outbound.v
System.v
Wire.v
Limits.v
RegistryThms.v
ConnThms.v
ConnTrack.v
Ownership.v
CleanupThms.v
Races.v
Server.v
ServerThms.v
StateFile.v
ServerLive.v
Promises.v
PromiseThms.v
App.v
AppThms.v
AppSlots.v
Sections.v
AppLogs.v
AppLive.v
Sockets.v
ServiceWitness.v
ServerWitness.v
WorldWitness.v
AppWitness.v
