(* ===== verification/Prelude.v ===== *)
(** * A verified model of the Plezy relay server

    The relay ([src/src/*.rs]) lets media players watch together: a host
    creates a room, guests join it, and the server relays their messages,
    keeps their identities alive across reconnections, hands the host role
    over, and saves the rooms to a file so that a restart resumes them.  This
    library models the program's own code and proves what it promises to its
    clients.

    ** How the program is cut up

    Four layers, each with its own way of being modelled.

    - Pure state transformers.  [RoomState] and its operations
      ([Room], room.rs), identities and verifiers ([Ids], ids.rs), host
      transfer ([HostTransfer], host_transfer.rs), the limiters ([Quotas],
      quotas.rs), the log store ([Logs], logs.rs), client addresses ([NetAddr],
      [ClientIp], client_ip.rs), the snapshot format ([Snapshot], snapshot.rs)
      are functions from a state to a new state and a result, as in the source,
      where they are synchronous methods under a lock.  The messages are in
      [Protocol] (protocol.rs, error.rs) and their JSON objects in [Wire].
    - Tasks over shared memory.  An async function is a program of atomic
      sections ([Threads.prog]), one per lock acquisition or channel operation;
      the memory is [World]: the rooms behind their [Arc]s ([w_heap]), the room
      table and its write lock, the per-owner counters, the logs, and the
      record of everything put on channels and tokens.  [Registry]
      (registry.rs, and [Room::leave]), [Cleanup] (cleanup.rs) and [Connection]
      (connection.rs) are such programs.  [run] executes one alone; [pool_step]
      interleaves any number of them.
    - Channels.  [Outbound] is the bounded channel of one connection with its
      write task; [Mailbox] is the unbounded channel of the snapshot writer
      with the writer's loop, whose sequence numbers and waiters are in
      [Writer]; [Debounce] gives the loop's turns their
      time; [Persist] is one write to disk.
    - The whole program.  [Server] puts the world and the writer's channel into
      one state: a task of the world is lifted to it ([lift]), so that what its
      sections put on the channel reaches the channel, and where it waits it
      waits for its own answer; the writer is a task of its own
      ([writer_run]), which takes its turns on the channel and captures the
      rooms one by one between the sections of the others; [shutdown] flushes
      it.  Every section takes a moment; for the statements alone [sv_past]
      remembers the world at each, and [sv_by] the task whose section came
      after it.  [App] puts the limiters, the connection counters and the permits
      beside the server: configuration and startup (main.rs, config.rs,
      lib.rs), and the handlers of the four routes as tasks (ws.rs, logs.rs).
      [Sockets] adds the channel and the write task of each connection.

    [Simulation] relates programs over one state to programs over a part of it,
    so each layer is seen to refine the one below.  [Durable] runs one room
    against the writer.

    ** How states correspond

    A struct is a Record with the source's fields (prefixed where two structs
    share a name).  A [HashMap] is a [gmap]; the order in which it is iterated
    is the class [HashIter], of which only the laws of an enumeration are
    known.  [u64] counters are [N] with their wrap-around written ([wrap64]);
    theorems that need them not to wrap say so ([n + 3 < 2^64] steps).  [u32]
    versions and lengths are [N], [usize] counts are [nat].  Doubles are the
    IEEE doubles of the Standard Library ([Quotas]).  Times are integers in
    nanoseconds, passed in where the source reads a clock.  A [Sender] and a
    [CancellationToken] are numbers, equal for clones.  An error is the
    [ClientError] it is in the source, an [Option] an [option], a [Result] a
    [result].

    ** What the theorems show

    - Rooms: [RoomInv], [RoomThms] (every reachable room is well formed; joining
      against a four-way specification; verifiers never change), [RoomLife]
      (the two-phase [leave] and [endSession], stale connections, delivery),
      [RoomTrace] (a room followed through any events: what it announced last
      against what a transfer does, and the grace period of a guest that went).
    - The server under every interleaving: [System] (the room table and the
      heap agree, rooms stay well formed, all tasks terminate and none waits
      for ever), [Wire] (every message ever sent has the shape of its type, and
      a token goes only to a connection that presented it), [Limits] (the
      numbers of rooms stay within their bounds), [Ownership] (the place of a
      guest in a room belongs to one connection, and none is left behind when
      the connection ends).  They use the arguments of [Threads]: an
      invariant kept by every section, assertions that a task keeps and the
      others do not disturb, and a measure that every section decreases.  The
      tasks are connections, the cleanup loop, the writer's captures
      ([capture_run]), and requests that use the log store alone.
    - The program as a whole: [ServerThms] (every run of the server is a run of
      those tasks; its own invariants), [StateFile] and [PromiseThms] (a file
      the writer has written is true of the server, although the rooms are
      captured one after the other; every [left] and [ended] ever sent answers
      a request that its sender has just finished, and is a promise about the
      disk; the proof, task by task, is in [Promises]),
      [AppThms] (every run of the application is a run of the server; startup),
      [AppSlots] (admission, and that slots and permits are given back),
      [AppLogs] (the life of a log, from what [Sections] says of every section of
      the application), [ServerLive] (no task waits for the writer
      while it holds the table's lock; an idle writer has answered everybody)
      and [AppLive] (no deadlock, with the writer among the tasks).
    - The server's operations run one at a time: [RegistryThms] ([create], the
      exact quota), [ConnThms], [ConnTrack] (what a connection believes against
      what its room lists, for a message handled alone; what a race can do to it
      is in [Races]), [CleanupThms] (the sweep).
    - Durability: [Snapshot] (the file's round trip), [Writer] (the loop against
      a reference without sequence numbers), [Mailbox] (an [Ok] means what it
      says), [Debounce] (when the timer writes), [Persist] (a crash at
      any point of a write), [Durable] ([left] and [ended] for one room against
      any writer, the lemmas of which [Promises] uses).
    - Delivery: [Outbound] (one channel and its write task), [Sockets] (the
      application with all its channels: what a client reads was sent to it,
      in order, and is true).
    - The edges: [ClientIp] (the forwarded-for walk against a specification),
      [AddrText] (addresses are read back as they are printed) and [OwnerKey]
      (a chain of proxies, and the key a client's rooms are counted under),
      [Quotas], [Logs], [Ids].
    - Executions that show where the code does less than its comments say:
      [Races] (a quota released twice, a host let into a swept room or into
      another's place, a guest let into a room that is being reclaimed, each
      told stage by stage with its schedule; notifications in the wrong order),
      and single theorems in the files above.

    Theorems with hypotheses are applied to concrete rooms, files and runs of
    the server in [Samples], [RoomSamples], [RoomWitness], [ServiceWitness],
    [DurableWitness], [WorldWitness], [ServerWitness] and [AppWitness], so that
    the hypotheses are seen to hold together.

    ** Parameters

    What is not the program's own code is an argument, with its documented
    behaviour as laws: [HashIter]; [CryptoLib] with [CryptoLaws] (SHA-256,
    base64 and the constant-time comparison of [Ids]); [IpNetLib] (the ipnet
    crate); [SnapshotLib] with [SnapshotLaws] (serde_json on the snapshot, and
    the platform's earliest [Instant]); serde_json on messages in [Outbound];
    [GovernorLib] (the governor crate, [Quotas]); [BodyLimitLib] (the body limit
    of tower-http, [App]); the random draws of log ids ([Logs]); the fate of
    each file system call and socket write, and of each upgrade.

    ** Bounds

    Definitions are total: loops run over lists of inputs (frames, ticks,
    rooms, hops, header values) or by structural recursion, so there is no
    fuel.  [Logs.fresh_log_id] runs over the list of the random draws; its
    theorem tells when the loop ends.  [Debounce.timed_run] takes one outcome
    per turn of the writer, and [Server.writer_run] one [WriterFate] per turn:
    its theorems hold for lists of any length, and [AppLive.no_deadlock], which
    needs a writer with turns left, says so.  A program is a finite tree, so the
    tasks stop whatever the schedule.

    ** Not modelled

    Serialization to JSON text and from it (serde_json and derives); the choice
    of a route by method and path, the extractors and the upgrade itself
    (axum): a request comes in as the route it is for; TLS and the WebSocket
    protocol; command line parsing, the listener, tracing and signals in
    main.rs (pure I/O); tests.  What a handler answers is the result of its
    program; in the pool of all tasks the answer is not looked at.  Time in
    [Debounce] is ideal: a turn starts as soon as it can; in [Server] the timer
    may end whenever something is unsaved.  Sections are interleaved as
    sequentially consistent steps, which is what the tokio locks give; a
    task is dropped in the middle where the code allows it: the write task when
    its connection ends ([Outbound]), the handlers of the logs, which belong to
    the request's connection, where they wait ([App.abandon]).  In [World] a
    [try_send] is recorded and not bounded; what the channel does with it is
    [Outbound]'s, and in [Sockets] the two are joined; there the end of a write
    task is not tied to that of its connection.  In [World]'s programs the
    writer is an oracle ([ask]), which [Server] replaces by the writer. *)
From Stdlib Require Export ZArith NArith Lia.
From Stdlib Require Strings.Byte Strings.Ascii Strings.String.
From stdpp Require Export base option numbers gmap strings list fin_maps.

(** ** Notations *)

Declare Scope relay_scope.
Delimit Scope relay_scope with relay.
Open Scope relay_scope.

(** [==] on values with decidable equality, as the source's [PartialEq]. *)
Notation "x == y" := (bool_decide (x = y)) (at level 70, no associativity) : relay_scope.
Notation "x != y" := (negb (bool_decide (x = y))) (at level 70, no associativity) : relay_scope.

(** Times.  [SystemTime] is the signed number of nanoseconds since the Unix
    epoch, [Instant] a reading in nanoseconds of the monotonic clock, and
    [Duration] a non-negative number of nanoseconds. *)
Abbreviation SystemTime := Z (only parsing).
Abbreviation Instant := Z (only parsing).
Abbreviation Duration := Z (only parsing).

Definition from_secs (s : Z) : Duration := (s * 1000000000)%Z.
Definition from_millis (ms : Z) : Duration := (ms * 1000000)%Z.

(** [SystemTime::duration_since(..).unwrap_or_default()] and
    [Instant::saturating_duration_since]: zero when [earlier] is in the
    future of [now]. *)
Definition since (now earlier : Z) : Duration := Z.max 0 (now - earlier).

Abbreviation byte := Byte.byte.
Abbreviation ascii := Ascii.ascii.

#[export] Instance byte_eq_dec : EqDecision byte := Byte.byte_eq_dec.

(** [Result<A, E>]. *)
Inductive result (A E : Type) :=
| Ok (a : A)
| Err (e : E).
Arguments Ok {A E} a.
Arguments Err {A E} e.

Definition is_ok {A E} (r : result A E) : bool :=
  match r with Ok _ => true | Err _ => false end.

(** [u64] arithmetic in a release build wraps around. *)
Definition u64_modulus : N := (2 ^ 64)%N.
Definition wrap64 (n : N) : N := (n mod u64_modulus)%N.

(** [Option<T>::map(f) == Some(v)] on a peer table and similar tests. *)
Definition contains_key {A} (m : gmap string A) (k : string) : bool :=
  bool_decide (is_Some (m !! k)).

(** ** Iteration over a [HashMap]

    The order in which a [HashMap] is iterated is unspecified, so every
    definition that iterates takes it from this interface; the law says that
    each entry is visited exactly once, and nothing else.  Everything proved
    against [HashIter] therefore holds for any order the standard library
    may pick. *)
Class HashIter := {
  hm_iter : forall {A : Type}, gmap string A -> list (string * A);
  hm_iter_perm : forall (A : Type) (m : gmap string A), hm_iter m ≡ₚ map_to_list m;
}.

(** One concrete order, for evaluation on concrete inputs. *)
Definition canonical_order : HashIter := {|
  hm_iter := fun A m => map_to_list m;
  hm_iter_perm := fun A m => Permutation_refl (map_to_list m);
|}.

Section iteration.
Context `{HashIter} {A : Type}.
Implicit Types (m : gmap string A) (k : string) (v : A).

(** [HashMap::keys] and [HashMap::values]. *)
Definition hm_keys m : list string := (hm_iter m).*1.
Definition hm_values m : list A := (hm_iter m).*2.

Lemma elem_of_hm_iter m k v : (k, v) ∈ hm_iter m <-> m !! k = Some v.
Proof. rewrite hm_iter_perm. apply elem_of_map_to_list. Qed.

Lemma hm_keys_NoDup m : NoDup (hm_keys m).
Proof. unfold hm_keys. rewrite hm_iter_perm. apply NoDup_fst_map_to_list. Qed.

Lemma hm_iter_NoDup m : NoDup (hm_iter m).
Proof. rewrite hm_iter_perm. apply NoDup_map_to_list. Qed.

Lemma hm_iter_length m : length (hm_iter m) = size m.
Proof. rewrite hm_iter_perm. apply length_map_to_list. Qed.

Lemma elem_of_hm_keys m k : k ∈ hm_keys m <-> is_Some (m !! k).
Proof.
  unfold hm_keys. rewrite list_elem_of_fmap. split.
  - intros ([k' v] & -> & Hin). exists v. by apply elem_of_hm_iter.
  - intros [v Hv]. exists (k, v). by rewrite elem_of_hm_iter.
Qed.

Lemma elem_of_hm_values m v : v ∈ hm_values m <-> exists k, m !! k = Some v.
Proof.
  unfold hm_values. rewrite list_elem_of_fmap. split.
  - intros ([k v'] & -> & Hin). exists k. by apply elem_of_hm_iter.
  - intros [k Hk]. exists (k, v). by rewrite elem_of_hm_iter.
Qed.

Lemma list_to_map_hm_iter m : list_to_map (hm_iter m) = m.
Proof.
  rewrite <- (list_to_map_to_list m) at 2. apply list_to_map_proper; [|apply hm_iter_perm].
  apply hm_keys_NoDup.
Qed.

Lemma hm_iter_empty : hm_iter (∅ : gmap string A) = [].
Proof. apply Permutation_nil_r. by rewrite hm_iter_perm, map_to_list_empty. Qed.

Lemma hm_iter_singleton k v : hm_iter ({[k := v]} : gmap string A) = [(k, v)].
Proof.
  apply Permutation_singleton_r. by rewrite hm_iter_perm, map_to_list_singleton.
Qed.
End iteration.

Lemma contains_key_true {A} (m : gmap string A) k :
  contains_key m k = true <-> is_Some (m !! k).
Proof. apply bool_decide_eq_true. Qed.

Lemma contains_key_false {A} (m : gmap string A) k :
  contains_key m k = false <-> m !! k = None.
Proof. unfold contains_key. rewrite bool_decide_eq_false. by rewrite eq_None_not_Some. Qed.

(** ** Generic lemmas *)

Lemma since_nonneg now t : (0 <= since now t)%Z.
Proof. unfold since. lia. Qed.

Lemma since_mono now now' t : (now <= now')%Z -> (since now t <= since now' t)%Z.
Proof. unfold since. lia. Qed.

Lemma since_lt now t d : (0 < d)%Z -> (since now t < d)%Z <-> (now < t + d)%Z.
Proof. unfold since. lia. Qed.

Lemma wrap64_small n : (n < u64_modulus)%N -> wrap64 n = n.
Proof. intros. by apply N.mod_small. Qed.

Lemma string_length_list (s : string) :
  String.length s = length (String.list_ascii_of_string s).
Proof. induction s as [|c s IH]; simpl; [done|]. by rewrite IH. Qed.

Lemma size_dom_le {A B} (m1 : gmap string A) (m2 : gmap string B) :
  dom m1 ⊆ dom m2 -> size m1 <= size m2.
Proof. intros Hsub. rewrite <- !size_dom. by apply subseteq_size. Qed.

Lemma map_size_alter {A} (f : A -> A) k (m : gmap string A) : size (alter f k m) = size m.
Proof. by rewrite <- !size_dom, dom_alter_L. Qed.

Lemma forallb_Forall {A} (f : A -> bool) l :
  forallb f l = true <-> Forall (fun x => f x = true) l.
Proof.
  induction l as [|x l IH]; simpl; [by split|].
  by rewrite andb_true_iff, IH, Forall_cons.
Qed.

(** ** Automation *)

Create HintDb relay.
Create Rewrite HintDb relay.
#[export] Hint Resolve hm_keys_NoDup hm_iter_NoDup since_nonneg : relay.
#[export] Hint Rewrite @contains_key_true @contains_key_false : relay.

(** Splits every [match] and [if] of the goal or of a hypothesis, closing the
    impossible branches. *)
Ltac case_all :=
  repeat (first [ progress simplify_map_eq
                | case_bool_decide
                | case_match ]; simpl in *; try done).

(** Splits the outermost [if] of the goal. *)
Tactic Notation "if_case" ident(H) :=
  match goal with |- context [if ?b then _ else _] => destruct b eqn:H end.

(** Turns the boolean tests of the code into propositions. *)
Ltac to_prop :=
  repeat match goal with
  | H : negb _ = true |- _ => apply negb_true_iff in H
  | H : negb _ = false |- _ => apply negb_false_iff in H
  | H : _ && _ = true |- _ => apply andb_true_iff in H as [? ?]
  | H : _ || _ = false |- _ => apply orb_false_iff in H as [? ?]
  | H : bool_decide _ = true |- _ => apply bool_decide_eq_true in H
  | H : bool_decide _ = false |- _ => apply bool_decide_eq_false in H
  | H : contains_key _ _ = true |- _ => apply contains_key_true in H
  | H : contains_key _ _ = false |- _ => apply contains_key_false in H
  | H : (_ <=? _) = true |- _ => apply Nat.leb_le in H
  | H : (_ <=? _) = false |- _ => apply Nat.leb_gt in H
  end.
