(* ===== verification/Protocol.v ===== *)
(** * Wire protocol: [protocol.rs] and [error.rs]

    The constants, the two message records and the protocol-level errors.
    The JSON encoding of the records is derived by serde and stays outside the
    model; a payload is the verbatim JSON text the source keeps in a
    [RawValue]. *)
From S2P Require Import Prelude.

Definition RELAY_PROTOCOL_VERSION : N := 2.
Definition MAX_ROOM_SIZE : nat := 8.
Definition MAX_MESSAGE_SIZE : N := 65536.
Definition MAX_SESSION_ID_LENGTH : nat := 64.
Definition MAX_PEER_ID_LENGTH : nat := 128.
Definition RECONNECT_TOKEN_BYTES : nat := 32.

Module client_type.
Definition CREATE : string := "create".
Definition JOIN : string := "join".
Definition RESUME : string := "resume".
Definition BROADCAST : string := "broadcast".
Definition SEND_TO : string := "sendTo".
Definition PING : string := "ping".
Definition LEAVE : string := "leave".
Definition END_SESSION : string := "endSession".
Definition TRANSFER_HOST : string := "transferHost".
End client_type.

Module server_type.
Definition CREATED : string := "created".
Definition JOINED : string := "joined".
Definition RESUMED : string := "resumed".
Definition PEER_JOINED : string := "peerJoined".
Definition PEER_LEFT : string := "peerLeft".
Definition MESSAGE : string := "message".
Definition ERROR : string := "error".
Definition PONG : string := "pong".
Definition LEFT : string := "left".
Definition ENDED : string := "ended".
Definition HOST_CHANGED : string := "hostChanged".
Definition HOST_TRANSFER_ELIGIBILITY : string := "hostTransferEligibility".
End server_type.

Module error_code.
Definition RATE_LIMITED : string := "rate_limited".
Definition INVALID_MESSAGE : string := "invalid_message".
Definition ROOM_EXISTS : string := "room_exists".
Definition ROOM_NOT_FOUND : string := "room_not_found".
Definition ROOM_FULL : string := "room_full".
Definition NOT_IN_ROOM : string := "not_in_room".
Definition ALREADY_IN_ROOM : string := "already_in_room".
Definition PEER_ID_UNAVAILABLE : string := "peer_id_unavailable".
Definition PROTOCOL_MISMATCH : string := "protocol_mismatch".
Definition NOT_HOST : string := "not_host".
Definition PEER_NOT_FOUND : string := "peer_not_found".
Definition HOST_TRANSFER_UNAVAILABLE : string := "host_transfer_unavailable".
End error_code.

Module feature.
Definition ATOMIC_HOST_TRANSFER : string := "atomicHostTransfer".
Definition AUTHENTICATED_RESUME : string := "authenticatedResume".
End feature.

Module capability.
Definition HOST_TRANSFER : string := "hostTransfer".
End capability.

Definition RELAY_FEATURES : list string :=
  [feature.ATOMIC_HOST_TRANSFER; feature.AUTHENTICATED_RESUME].
Definition relay_features : list string := RELAY_FEATURES.

(** A [Box<RawValue>]: the JSON text, verbatim. *)
Abbreviation RawValue := string (only parsing).

(** [ClientMessage]: one flat record for every message type. *)
Record ClientMessage := {
  cm_msg_type : string;
  cm_session_id : string;
  cm_peer_id : string;
  cm_reconnect_token : string;
  cm_protocol_version : N;
  cm_sync_protocol_version : Z;
  cm_capabilities : list string;
  cm_to : string;
  cm_payload : option RawValue;
}.

(** [ServerMessage]. *)
Record ServerMessage := {
  sm_msg_type : string;
  sm_session_id : option string;
  sm_peer_id : option string;
  sm_host_peer_id : option string;
  sm_reconnect_token : option string;
  sm_protocol_version : N;
  sm_from : option string;
  sm_peers : option (list string);
  sm_features : option (list string);
  sm_host_transfer_targets : option (list string);
  sm_code : option string;
  sm_message : option string;
  sm_payload : option RawValue;
}.

#[export] Instance ServerMessage_eq_dec : EqDecision ServerMessage.
Proof. solve_decision. Defined.

(** [ServerMessage::error]; every field not listed is [Default::default()]. *)
Definition server_error (code message : string) : ServerMessage := {|
  sm_msg_type := server_type.ERROR;
  sm_session_id := None;
  sm_peer_id := None;
  sm_host_peer_id := None;
  sm_reconnect_token := None;
  sm_protocol_version := 0;
  sm_from := None;
  sm_peers := None;
  sm_features := None;
  sm_host_transfer_targets := None;
  sm_code := Some code;
  sm_message := Some message;
  sm_payload := None;
|}.

Definition supported_protocol_version (version : N) : bool :=
  (version =? RELAY_PROTOCOL_VERSION)%N.

(** [error.rs]: the protocol-level errors and their wire codes. *)
Inductive ClientError :=
| RateLimited | InvalidMessage | RoomExists | RoomNotFound | RoomFull | NotInRoom
| AlreadyInRoom | PeerIdUnavailable | ProtocolMismatch | NotHost | PeerNotFound
| HostTransferUnavailable.

#[export] Instance ClientError_eq_dec : EqDecision ClientError.
Proof. solve_decision. Defined.

Definition code (e : ClientError) : string :=
  match e with
  | RateLimited => error_code.RATE_LIMITED
  | InvalidMessage => error_code.INVALID_MESSAGE
  | RoomExists => error_code.ROOM_EXISTS
  | RoomNotFound => error_code.ROOM_NOT_FOUND
  | RoomFull => error_code.ROOM_FULL
  | NotInRoom => error_code.NOT_IN_ROOM
  | AlreadyInRoom => error_code.ALREADY_IN_ROOM
  | PeerIdUnavailable => error_code.PEER_ID_UNAVAILABLE
  | ProtocolMismatch => error_code.PROTOCOL_MISMATCH
  | NotHost => error_code.NOT_HOST
  | PeerNotFound => error_code.PEER_NOT_FOUND
  | HostTransferUnavailable => error_code.HOST_TRANSFER_UNAVAILABLE
  end.

Definition into_message (e : ClientError) (text : string) : ServerMessage :=
  server_error (code e) text.

(** Distinct errors have distinct wire codes, so a client can tell them
    apart. *)
#[export] Instance code_inj : Inj (=) (=) code.
Proof. intros [] []; vm_compute; congruence. Qed.

(** The [SnapshotError] of a failed write, with its text. *)
Inductive SnapshotError := mk_SnapshotError (text : string).
