(* ===== verification/Ids.v ===== *)
(** * Identifiers and reconnect tokens: [ids.rs]

    [valid_id] and the [Verifier] of a reconnect token.  SHA-256, base64 and
    the constant-time comparison are crates: they are the operations of the
    class [CryptoLib], and what the code relies on is [CryptoLaws]. *)
From Stdlib Require Import Strings.Ascii.
From S2P Require Import Prelude.
From S2P Require Import Protocol.

(** The crates' operations: [Sha256::digest], [URL_SAFE_NO_PAD.encode] and
    [.decode] (whose failure is [None]), and [<[u8] as ConstantTimeEq>::ct_eq]. *)
Class CryptoLib := {
  sha256_digest : list byte -> list byte;
  b64_encode : list byte -> string;
  b64_decode : string -> option (list byte);
  ct_eq : list byte -> list byte -> bool;
}.

(** Their documented behaviour: a digest has 32 bytes, decoding inverts
    encoding, [n] bytes take [ceil (4n / 3)] characters, and the comparison
    decides equality. *)
Class CryptoLaws (L : CryptoLib) : Prop := {
  sha256_digest_length : forall raw, length (sha256_digest raw) = 32;
  b64_decode_encode : forall raw, b64_decode (b64_encode raw) = Some raw;
  b64_encode_length : forall raw,
    String.length (b64_encode raw) = (length raw * 4 + 2) / 3;
  ct_eq_spec : forall a b, ct_eq a b = true <-> a = b;
}.

Definition RECONNECT_TOKEN_ENCODED_LEN : nat := (RECONNECT_TOKEN_BYTES * 4 + 2) / 3.

(** [Verifier([u8; 32])]. *)
Inductive Verifier := mk_Verifier (bytes : list byte).

#[export] Instance Verifier_eq_dec : EqDecision Verifier.
Proof. solve_decision. Defined.

Definition verifier_bytes (v : Verifier) : list byte := let 'mk_Verifier b := v in b.

(** The array length of the source's type. *)
Definition verifier_wf (v : Verifier) : Prop := length (verifier_bytes v) = 32.

Section verifier.
Context `{CryptoLib}.

Definition from_raw_bytes (raw : list byte) : Verifier := mk_Verifier (sha256_digest raw).

Definition from_token (token : string) : option Verifier :=
  if negb (String.length token =? RECONNECT_TOKEN_ENCODED_LEN) then None
  else match b64_decode token with
       | None => None
       | Some raw =>
         if negb (length raw =? RECONNECT_TOKEN_BYTES) then None
         else Some (from_raw_bytes raw)
       end.

Definition matches (self other : Verifier) : bool :=
  ct_eq (verifier_bytes self) (verifier_bytes other).

Definition encode (self : Verifier) : string := b64_encode (verifier_bytes self).

Definition from_encoded (encoded : string) : option Verifier :=
  match b64_decode encoded with
  | None => None
  | Some raw => if negb (length raw =? 32) then None else Some (mk_Verifier raw)
  end.

(** [presented.map(|v| self.matches(&v)).unwrap_or(false)], the test every
    authorization in [room.rs] makes. *)
Definition matches_presented (self : Verifier) (presented : option Verifier) : bool :=
  match presented with Some v => matches self v | None => false end.
End verifier.

(** [u8::is_ascii_alphanumeric]. *)
Definition is_ascii_alphanumeric (b : ascii) : bool :=
  let n := Ascii.N_of_ascii b in
  ((48 <=? n)%N && (n <=? 57)%N) || ((65 <=? n)%N && (n <=? 90)%N)
  || ((97 <=? n)%N && (n <=? 122)%N).

Definition id_byte (b : ascii) : bool :=
  is_ascii_alphanumeric b || (b == "_"%char) || (b == "-"%char).

Definition valid_id (value : string) (max_length : nat) : bool :=
  if (String.length value =? 0) || (max_length <? String.length value) then false
  else forallb id_byte (String.list_ascii_of_string value).

(** [room.rs]'s [valid_session_and_peer_id]. *)
Definition valid_session_and_peer_id (session_id peer_id : string) : bool :=
  valid_id session_id MAX_SESSION_ID_LENGTH && valid_id peer_id MAX_PEER_ID_LENGTH.

(** ** The id pattern *)

(** The characters of [relay_protocol.json]'s [idPattern], written out. *)
Definition id_alphabet : list ascii :=
  String.list_ascii_of_string "ABCDEFGHIJKLMNOPQRSTUVWXYZabcdefghijklmnopqrstuvwxyz0123456789_-".

Lemma valid_id_length value max_length :
  valid_id value max_length = true -> String.length value <= max_length.
Proof.
  unfold valid_id. destruct (_ || _) eqn:Hlen; [done|].
  apply orb_false_iff in Hlen as [_ Hlen]. by apply Nat.ltb_ge in Hlen.
Qed.

Lemma id_byte_alphabet b : id_byte b = true <-> b ∈ id_alphabet.
Proof.
  enough (id_byte b = bool_decide (b ∈ id_alphabet)) as ->
    by apply bool_decide_eq_true.
  destruct b as [[] [] [] [] [] [] [] []]; vm_compute; reflexivity.
Qed.

(** [valid_id] accepts exactly the strings over [id_alphabet] of at least
    one and at most [max_length] bytes. *)
Theorem valid_id_spec value max_length :
  valid_id value max_length = true <->
  value ≠ EmptyString /\ String.length value <= max_length
  /\ Forall (fun b => b ∈ id_alphabet) (String.list_ascii_of_string value).
Proof.
  unfold valid_id. rewrite <- (Forall_iff _ _ _ id_byte_alphabet).
  destruct value as [|b rest]; [by split; [|intros [? _]]|].
  destruct (_ <? _) eqn:Hlen; cbn [orb Nat.eqb String.length] in *.
  - apply Nat.ltb_lt in Hlen. split; [done | intros (_ & ? & _); lia].
  - apply Nat.ltb_ge in Hlen. rewrite forallb_Forall. naive_solver.
Qed.

(** ** Verifiers *)

Section verifier_facts.
Context `{CryptoLib} `{!CryptoLaws _}.

(** The comparison behind every authorization decides equality of the
    stored digests. *)
Lemma matches_eq v w : matches v w = true <-> v = w.
Proof.
  unfold matches. rewrite ct_eq_spec. destruct v, w; simpl. naive_solver.
Qed.

Lemma matches_refl v : matches v v = true.
Proof. by apply matches_eq. Qed.

Lemma matches_presented_true v presented :
  matches_presented v presented = true <-> presented = Some v.
Proof.
  unfold matches_presented. destruct presented as [w|]; [|done].
  rewrite matches_eq. naive_solver.
Qed.

Lemma from_token_Some token v :
  from_token token = Some v <->
  String.length token = RECONNECT_TOKEN_ENCODED_LEN /\
  exists raw, b64_decode token = Some raw /\ length raw = RECONNECT_TOKEN_BYTES
              /\ v = from_raw_bytes raw.
Proof.
  unfold from_token. destruct (String.length token =? _) eqn:Hlen; simpl.
  - apply Nat.eqb_eq in Hlen. destruct (b64_decode token) as [raw|]; [|naive_solver].
    destruct (length raw =? _) eqn:Hraw; simpl;
      [apply Nat.eqb_eq in Hraw | apply Nat.eqb_neq in Hraw]; naive_solver.
  - apply Nat.eqb_neq in Hlen. naive_solver.
Qed.

(** Every verifier made from a token has the source's array length. *)
Lemma from_token_wf token v : from_token token = Some v -> verifier_wf v.
Proof.
  intros (_ & raw & _ & _ & ->)%from_token_Some. apply sha256_digest_length.
Qed.

(** A token is accepted as soon as it encodes 32 bytes, and never
    otherwise: the length check before decoding loses nothing. *)
Lemma from_token_encoded raw :
  from_token (b64_encode raw) =
  if length raw =? RECONNECT_TOKEN_BYTES then Some (from_raw_bytes raw) else None.
Proof.
  unfold from_token. rewrite b64_encode_length, b64_decode_encode.
  destruct (Nat.eqb_spec (length raw) RECONNECT_TOKEN_BYTES) as [->|_]; [done|].
  by destruct (_ =? RECONNECT_TOKEN_ENCODED_LEN).
Qed.

Lemma from_encoded_encode v : verifier_wf v -> from_encoded (encode v) = Some v.
Proof.
  intros Hwf. unfold from_encoded, encode. rewrite b64_decode_encode.
  destruct v as [b]; unfold verifier_wf in Hwf; simpl in *. by rewrite Hwf.
Qed.

Lemma from_encoded_wf s v : from_encoded s = Some v -> verifier_wf v.
Proof.
  unfold from_encoded. destruct (b64_decode s) as [raw|]; [|done].
  destruct (length raw =? 32) eqn:Hraw; [|done].
  intros [= <-]. by apply Nat.eqb_eq in Hraw.
Qed.
End verifier_facts.

Section verifier_theorems.
Context `{CryptoLib} `{!CryptoLaws _}.

(** Tokens and verifiers.  A token is accepted exactly when it encodes
    32 bytes: the length test before decoding rejects nothing decodable.  The
    verifier it yields survives the round trip through its persisted form,
    and matches exactly itself. *)
Theorem verifier_roundtrip raw token v :
  (from_token (b64_encode raw) = Some (from_raw_bytes raw)
     <-> length raw = RECONNECT_TOKEN_BYTES)
  /\ (from_token token = Some v ->
       from_encoded (encode v) = Some v /\ forall w, matches v w = true <-> v = w).
Proof.
  split.
  - rewrite from_token_encoded. destruct (Nat.eqb_spec (length raw) RECONNECT_TOKEN_BYTES);
      [done|]. by split.
  - intros Htok. split; [|apply matches_eq].
    apply from_encoded_encode. by eapply from_token_wf.
Qed.
End verifier_theorems.

#[export] Hint Resolve matches_refl from_token_wf from_encoded_wf : relay.
