(* ===== verification/Samples.v ===== *)
(** * Concrete parameters for evaluation

    One instance of [CryptoLib] on which the development can be evaluated: the
    real unpadded URL-safe base64, and a stand-in digest that pads or cuts to
    32 bytes.  It satisfies [CryptoLaws], so the hypotheses of the theorems can
    hold; nothing is proved from it except the witnesses. *)
From Stdlib Require Import Strings.Ascii.
From S2P Require Import Prelude.
From S2P Require Import Protocol.
From S2P Require Import Ids.

(** ** Base64 on 6-bit groups *)

Definition url_safe_alphabet : string :=
  "ABCDEFGHIJKLMNOPQRSTUVWXYZabcdefghijklmnopqrstuvwxyz0123456789-_".

Definition sextet_char (n : N) : ascii :=
  match String.get (N.to_nat n) url_safe_alphabet with Some c => c | None => "A"%char end.

Definition char_sextet (c : ascii) : option N :=
  let n := N_of_ascii c in
  if (65 <=? n)%N && (n <=? 90)%N then Some (n - 65)%N
  else if (97 <=? n)%N && (n <=? 122)%N then Some (n - 71)%N
  else if (48 <=? n)%N && (n <=? 57)%N then Some (n + 4)%N
  else if (n =? 45)%N then Some 62%N
  else if (n =? 95)%N then Some 63%N
  else None.

Fixpoint to_sextets (l : list N) : list N :=
  match l with
  | a :: b :: c :: rest =>
    (a / 4 :: (a mod 4) * 16 + b / 16 :: (b mod 16) * 4 + c / 64 :: c mod 64
       :: to_sextets rest)%N
  | [a; b] => [a / 4; (a mod 4) * 16 + b / 16; (b mod 16) * 4]%N
  | [a] => [a / 4; (a mod 4) * 16]%N
  | [] => []
  end.

Fixpoint of_sextets (l : list N) : option (list N) :=
  match l with
  | p :: q :: r :: s :: rest =>
    match of_sextets rest with
    | Some t => Some ((p * 4 + q / 16) :: ((q mod 16) * 16 + r / 4)
                        :: ((r mod 4) * 64 + s) :: t)%N
    | None => None
    end
  | [p; q; r] =>
    if (r mod 4 =? 0)%N then Some [p * 4 + q / 16; (q mod 16) * 16 + r / 4]%N else None
  | [p; q] => if (q mod 16 =? 0)%N then Some [p * 4 + q / 16]%N else None
  | [_] => None
  | [] => Some []
  end.

Definition byte_N (b : byte) : N := Byte.to_N b.
Definition N_byte (n : N) : byte :=
  match Byte.of_N n with Some b => b | None => Byte.x00 end.

Definition base64_encode (raw : list byte) : string :=
  String.string_of_list_ascii (sextet_char <$> to_sextets (byte_N <$> raw)).

Definition base64_decode (s : string) : option (list byte) :=
  match mapM (M := option) char_sextet (String.list_ascii_of_string s) with
  | Some l => option_map (map N_byte) (of_sextets l)
  | None => None
  end.

Definition sample_digest (raw : list byte) : list byte :=
  take 32 (raw ++ replicate 32 Byte.x00).

Definition sample_crypto : CryptoLib := {|
  sha256_digest := sample_digest;
  b64_encode := base64_encode;
  b64_decode := base64_decode;
  ct_eq := fun a b => bool_decide (a = b);
|}.

(** The token of 32 equal bytes the repository's tests use. *)
Definition sample_token (b : byte) : string := base64_encode (replicate 32 b).

(** ** The laws *)

Lemma triple_ind {A} (P : list A -> Prop) :
  P [] -> (forall a, P [a]) -> (forall a b, P [a; b]) ->
  (forall a b c l, P l -> P (a :: b :: c :: l)) -> forall l, P l.
Proof.
  intros H0 H1 H2 H3. fix IH 1. intros [|a [|b [|c l]]]; [done..|]. apply H3, IH.
Qed.

Ltac Zify.zify_post_hook ::= Z.to_euclidean_division_equations.

Lemma of_to_sextets l : Forall (fun n => n < 256)%N l -> of_sextets (to_sextets l) = Some l.
Proof.
  induction l as [|a|a b|a b c l IH] using triple_ind; intros Hl; simpl; [done|..].
  - apply Forall_cons in Hl as [Ha _].
    replace ((a mod 4 * 16) mod 16 =? 0)%N with true by (symmetry; apply N.eqb_eq; lia).
    repeat f_equal. lia.
  - apply Forall_cons in Hl as [Ha [Hb _]%Forall_cons].
    replace ((b mod 16 * 4) mod 4 =? 0)%N with true by (symmetry; apply N.eqb_eq; lia).
    repeat f_equal; lia.
  - apply Forall_cons in Hl as [Ha [Hb [Hc Hl]%Forall_cons]%Forall_cons].
    rewrite IH by done. repeat f_equal; lia.
Qed.

Lemma to_sextets_bound l :
  Forall (fun n => n < 256)%N l -> Forall (fun n => n < 64)%N (to_sextets l).
Proof.
  induction l as [|a|a b|a b c l IH] using triple_ind; intros Hl; simpl; [done|..];
    repeat match goal with H : Forall _ (_ :: _) |- _ => apply Forall_cons in H as [? ?] end;
    repeat apply Forall_cons_2; auto; lia.
Qed.

Lemma to_sextets_length l : length (to_sextets l) = (length l * 4 + 2) / 3.
Proof.
  induction l as [|a|a b|a b c l IH] using triple_ind; simpl length in *; [done..|].
  rewrite IH. replace (S (S (S (length l))) * 4 + 2) with (length l * 4 + 2 + 4 * 3) by lia.
  rewrite Nat.div_add by done. lia.
Qed.

Lemma char_sextet_table :
  forallb (fun n => char_sextet (sextet_char n) == Some n) (N.of_nat <$> seq 0 64) = true.
Proof. vm_compute. reflexivity. Qed.

Lemma char_sextet_char n : (n < 64)%N -> char_sextet (sextet_char n) = Some n.
Proof.
  intros Hn. pose proof char_sextet_table as Htable. rewrite forallb_forall in Htable.
  apply (bool_decide_eq_true_1 (char_sextet (sextet_char n) = Some n)), Htable.
  apply list_elem_of_In, list_elem_of_fmap. exists (N.to_nat n). split; [lia|].
  apply elem_of_seq. lia.
Qed.

Lemma mapM_char_sextet l :
  Forall (fun n => n < 64)%N l -> mapM char_sextet (sextet_char <$> l) = Some l.
Proof.
  induction 1 as [|n l Hn _ IH]; [done|]. rewrite fmap_cons. cbn [mapM].
  by rewrite char_sextet_char, IH by done.
Qed.

Lemma byte_N_bound (raw : list byte) : Forall (fun n => n < 256)%N (byte_N <$> raw).
Proof.
  apply Forall_fmap, Forall_true. intros b. pose proof (Byte.to_N_bounded b).
  unfold byte_N; simpl. lia.
Qed.

Lemma N_byte_N (raw : list byte) : map N_byte (byte_N <$> raw) = raw.
Proof.
  induction raw as [|b raw IH]; [done|]. rewrite fmap_cons. cbn [map]. rewrite IH. f_equal.
  unfold N_byte, byte_N. by rewrite Byte.of_to_N.
Qed.

#[export] Instance sample_crypto_laws : CryptoLaws sample_crypto.
Proof.
  split; cbn [sha256_digest b64_encode b64_decode ct_eq sample_crypto].
  - intros raw. unfold sample_digest.
    rewrite length_take, length_app, length_replicate. lia.
  - intros raw. unfold base64_decode, base64_encode.
    rewrite String.list_ascii_of_string_of_list_ascii.
    rewrite mapM_char_sextet by apply to_sextets_bound, byte_N_bound.
    rewrite of_to_sextets by apply byte_N_bound. cbn [option_map]. by rewrite N_byte_N.
  - intros raw. unfold base64_encode.
    rewrite <- (length_fmap byte_N raw), <- to_sextets_length, <- (length_fmap sextet_char).
    generalize (sextet_char <$> to_sextets (byte_N <$> raw)).
    intros l. induction l; simpl; congruence.
  - intros a b. apply bool_decide_eq_true.
Qed.

Lemma verifier_roundtrip_witness :
  @from_token sample_crypto (sample_token Byte.x07)
  = Some (@from_raw_bytes sample_crypto (replicate 32 Byte.x07)).
Proof.
  apply (@verifier_roundtrip sample_crypto sample_crypto_laws (replicate 32 Byte.x07)
           EmptyString (mk_Verifier [])).
  vm_compute. reflexivity.
Defined.
