(* ===== verification/HostTransfer.v ===== *)
(** * Host-transfer eligibility: [host_transfer.rs]

    The all-or-nothing gate of a host transfer, its legal targets and the
    [hostTransferEligibility] payload, as functions of the list of connected
    peers.  The theorems give each function its declarative meaning and show
    that none depends on the order of that list. *)
From S2P Require Import Prelude.

Record PeerInfo := {
  pi_peer_id : string;
  pi_sync_protocol_version : Z;
  pi_host_transfer_capable : bool;
}.

#[export] Instance PeerInfo_eq_dec : EqDecision PeerInfo.
Proof. solve_decision. Defined.

(** [peers.iter().find(|p| p.peer_id == id)]. *)
Definition find_peer (id : string) (peers : list PeerInfo) : option PeerInfo :=
  List.find (fun p => pi_peer_id p == id) peers.

Definition eligible_host (host_peer_id : string) (peers : list PeerInfo) : bool :=
  match find_peer host_peer_id peers with
  | None => false
  | Some host =>
    if (pi_sync_protocol_version host <=? 0)%Z || negb (pi_host_transfer_capable host)
    then false
    else forallb (fun p =>
           (0 <? pi_sync_protocol_version p)%Z
           && negb ((pi_sync_protocol_version p =? pi_sync_protocol_version host)%Z
                    && negb (pi_host_transfer_capable p))) peers
  end.

Definition is_valid_target (host_peer_id : string) (peers : list PeerInfo)
    (is_reserved : string -> bool) (target_peer_id : string) : bool :=
  if target_peer_id == host_peer_id then false
  else if negb (eligible_host host_peer_id peers) then false
  else match find_peer host_peer_id peers with
       | None => false
       | Some host =>
         match find_peer target_peer_id peers with
         | None => false
         | Some target =>
           is_reserved target_peer_id
           && pi_host_transfer_capable target
           && (pi_sync_protocol_version target =? pi_sync_protocol_version host)%Z
         end
       end.

Definition compute_eligibility (host_peer_id : string) (peers : list PeerInfo)
    (is_reserved : string -> bool) : option (list string * list string) :=
  let recipients :=
    pi_peer_id <$> List.filter pi_host_transfer_capable peers in
  if bool_decide (recipients = []) then None
  else
    let targets :=
      pi_peer_id <$> List.filter
        (fun p => is_valid_target host_peer_id peers is_reserved (pi_peer_id p)) peers in
    Some (recipients, targets).

(** ** Declarative reading *)

(** A roster in which transfers are on offer: the host is connected, declares
    the capability, every connected peer has a positive sync version, and
    nobody at the host's version lacks the capability. *)
Definition transferable_roster (host : PeerInfo) (peers : list PeerInfo) : Prop :=
  pi_host_transfer_capable host = true
  /\ (forall p, p ∈ peers -> (0 < pi_sync_protocol_version p)%Z)
  /\ (forall p, p ∈ peers -> pi_sync_protocol_version p = pi_sync_protocol_version host ->
        pi_host_transfer_capable p = true).

(** The lists the code builds come from a map: one entry per peer id. *)
Definition unique_ids (peers : list PeerInfo) : Prop := NoDup (pi_peer_id <$> peers).

(** ** Lemmas *)

Lemma find_peer_Some id peers p :
  find_peer id peers = Some p -> p ∈ peers /\ pi_peer_id p = id.
Proof.
  intros [Hin Heq%bool_decide_eq_true]%List.find_some. by rewrite list_elem_of_In.
Qed.

Lemma unique_ids_eq peers p q :
  unique_ids peers -> p ∈ peers -> q ∈ peers -> pi_peer_id p = pi_peer_id q -> p = q.
Proof.
  unfold unique_ids. induction peers as [|x peers IH]; [by intros _ ?%not_elem_of_nil|].
  rewrite fmap_cons, NoDup_cons. intros [Hx Hnd] Hp Hq Heq.
  apply elem_of_cons in Hp as [->|Hp], Hq as [->|Hq]; [done|..].
  - destruct Hx. rewrite Heq. by apply list_elem_of_fmap_2.
  - destruct Hx. rewrite <- Heq. by apply list_elem_of_fmap_2.
  - by apply IH.
Qed.

Lemma find_peer_iff id peers p :
  unique_ids peers -> find_peer id peers = Some p <-> p ∈ peers /\ pi_peer_id p = id.
Proof.
  intros Hnd. split; [apply find_peer_Some|]. intros [Hin <-].
  destruct (find_peer (pi_peer_id p) peers) as [q|] eqn:Hfind.
  - apply find_peer_Some in Hfind as [Hq Heq]. f_equal. by eapply unique_ids_eq.
  - exfalso. eapply List.find_none in Hfind; [|by apply list_elem_of_In].
    by apply bool_decide_eq_false in Hfind.
Qed.

#[export] Instance unique_ids_perm : Proper ((≡ₚ) ==> iff) unique_ids.
Proof. intros l k Hperm. unfold unique_ids. by rewrite Hperm. Qed.

Lemma eligible_host_roster host_peer_id peers :
  eligible_host host_peer_id peers = true <->
  exists host, find_peer host_peer_id peers = Some host /\ transferable_roster host peers.
Proof.
  unfold eligible_host, transferable_roster.
  destruct (find_peer host_peer_id peers) as [host|] eqn:Hfind; [|naive_solver].
  apply find_peer_Some in Hfind as [Hin _].
  destruct (_ || _) eqn:Hgate.
  - split; [done|]. intros (? & [= <-] & Hcap & Hpos & _).
    specialize (Hpos _ Hin). rewrite Hcap in Hgate. simpl in Hgate.
    rewrite orb_false_r in Hgate. lia.
  - apply orb_false_iff in Hgate as [_ Hcap%negb_false_iff].
    rewrite forallb_Forall, Forall_forall. split.
    + intros Hall. exists host. split_and!; [done..| |].
      * intros p Hp. specialize (Hall p Hp). simpl in Hall. lia.
      * intros p Hp Hver. specialize (Hall p Hp). simpl in Hall.
        destruct (pi_host_transfer_capable p); [done|]. lia.
    + intros (? & [= <-] & _ & Hpos & Hcap') p Hp.
      specialize (Hpos p Hp). specialize (Hcap' p Hp).
      destruct (pi_host_transfer_capable p); simpl; [lia|].
      destruct (_ =? _)%Z eqn:?; [|lia]. exfalso. assert (false = true); [|done].
      apply Hcap'. lia.
Qed.

(** A legal target, as the module comment of [host_transfer.rs] states it. *)
Definition legal_target (host_peer_id : string) (peers : list PeerInfo)
    (is_reserved : string -> bool) (target : string) : Prop :=
  exists host t,
    host ∈ peers /\ pi_peer_id host = host_peer_id
    /\ t ∈ peers /\ pi_peer_id t = target
    /\ target ≠ host_peer_id
    /\ transferable_roster host peers
    /\ is_reserved target = true
    /\ pi_host_transfer_capable t = true
    /\ pi_sync_protocol_version t = pi_sync_protocol_version host.

Lemma is_valid_target_legal host_peer_id peers is_reserved target :
  unique_ids peers ->
  is_valid_target host_peer_id peers is_reserved target = true <->
  legal_target host_peer_id peers is_reserved target.
Proof.
  intros Hnd. unfold is_valid_target, legal_target.
  case_bool_decide as Heq; [naive_solver|].
  destruct (eligible_host _ _) eqn:Helig; simpl.
  - apply eligible_host_roster in Helig as (host & Hhost & Hroster). rewrite Hhost.
    apply find_peer_iff in Hhost as [Hin Hid]; [|done].
    destruct (find_peer target peers) as [t|] eqn:Ht.
    + apply find_peer_iff in Ht as [Htin Htid]; [|done].
      rewrite !andb_true_iff, Z.eqb_eq.
      split; [intros [[? ?] ?]; exists host, t; by split_and!|].
      intros (h & t' & Hh & Hhid & Ht' & Ht'id & _ & _ & ? & ? & ?).
      assert (h = host) as -> by (eapply unique_ids_eq; eauto; congruence).
      assert (t' = t) as -> by (eapply unique_ids_eq; eauto; congruence). done.
    + split; [done|]. intros (h & t' & _ & _ & Ht' & Ht'id & _).
      assert (find_peer target peers = Some t') by by apply find_peer_iff. congruence.
  - split; [done|]. intros (h & t & Hh & Hhid & _ & _ & _ & Hroster & _).
    assert (eligible_host host_peer_id peers = true); [|congruence].
    apply eligible_host_roster. exists h. split; [by apply find_peer_iff | done].
Qed.

Lemma transferable_roster_perm host l k :
  l ≡ₚ k -> transferable_roster host l -> transferable_roster host k.
Proof.
  intros Hperm (Hcap & Hpos & Hver).
  split_and!; [done | intros p; rewrite <- Hperm; auto ..].
Qed.

Lemma legal_target_perm host_peer_id l k is_reserved target :
  l ≡ₚ k -> legal_target host_peer_id l is_reserved target ->
  legal_target host_peer_id k is_reserved target.
Proof.
  intros Hperm (h & t & Hh & ? & Ht & ? & ? & Hroster & ? & ? & ?).
  rewrite Hperm in Hh, Ht. apply (transferable_roster_perm _ _ _ Hperm) in Hroster.
  exists h, t. by split_and!.
Qed.

#[export] Instance legal_target_proper host_peer_id :
  Proper ((≡ₚ) ==> (=) ==> (=) ==> iff) (legal_target host_peer_id).
Proof. by intros l k Hperm ? r -> ? t ->; split; apply legal_target_perm. Qed.

Lemma is_valid_target_perm host_peer_id peers peers' is_reserved target :
  unique_ids peers -> peers ≡ₚ peers' ->
  is_valid_target host_peer_id peers is_reserved target =
  is_valid_target host_peer_id peers' is_reserved target.
Proof.
  intros Hnd Hperm. apply eq_true_iff_eq.
  rewrite !is_valid_target_legal; [by rewrite Hperm | by rewrite <- Hperm | done].
Qed.

Lemma elem_of_ids_filter (f : PeerInfo -> bool) peers id :
  id ∈ pi_peer_id <$> List.filter f peers <->
  exists p, p ∈ peers /\ f p = true /\ pi_peer_id p = id.
Proof.
  rewrite list_elem_of_fmap.
  setoid_rewrite list_elem_of_In. setoid_rewrite List.filter_In. naive_solver.
Qed.

Lemma elem_of_targets host_peer_id peers is_reserved id :
  unique_ids peers ->
  id ∈ pi_peer_id <$> List.filter
        (fun p => is_valid_target host_peer_id peers is_reserved (pi_peer_id p)) peers <->
  legal_target host_peer_id peers is_reserved id.
Proof.
  intros Hnd. rewrite elem_of_ids_filter. split.
  - intros (p & Hp & Hvalid & <-). by apply is_valid_target_legal in Hvalid.
  - intros Hlegal. pose proof Hlegal as (_ & t & _ & _ & Ht & <- & _).
    exists t. split_and!; [done| |done]. by apply is_valid_target_legal.
Qed.

Lemma filter_ids_NoDup (f : PeerInfo -> bool) peers :
  unique_ids peers -> NoDup (pi_peer_id <$> List.filter f peers).
Proof.
  unfold unique_ids. induction peers as [|p peers IH]; [done|].
  rewrite fmap_cons, NoDup_cons. intros [Hp Hnd]. simpl.
  destruct (f p); [|by apply IH]. rewrite fmap_cons, NoDup_cons. split; [|by apply IH].
  rewrite elem_of_ids_filter. intros (q & Hq & _ & Heq). apply Hp.
  rewrite <- Heq. by apply list_elem_of_fmap_2.
Qed.

(** The announced targets are the legal ones, and the announcement is made
    whenever there is one. *)
Lemma compute_eligibility_targets host_peer_id peers is_reserved target :
  unique_ids peers ->
  (exists recipients targets,
     compute_eligibility host_peer_id peers is_reserved = Some (recipients, targets)
     /\ target ∈ targets) <->
  legal_target host_peer_id peers is_reserved target.
Proof.
  intros Hnd. unfold compute_eligibility. case_bool_decide as Hnil.
  - split; [naive_solver|]. intros (_ & t & _ & _ & Ht & _ & _ & _ & _ & Hcap & _).
    exfalso. assert (pi_peer_id t ∈ @nil string) as []%not_elem_of_nil.
    rewrite <- Hnil. apply elem_of_ids_filter. eauto.
  - rewrite <- elem_of_targets by done. naive_solver.
Qed.

(** What [compute_eligibility] announces.  No message exactly when no
    connected peer declares the capability; otherwise the recipients are
    exactly the declaring peers, the targets are exactly the legal targets,
    each named once, and every target is itself among the recipients. *)
Theorem compute_eligibility_spec host_peer_id peers is_reserved :
  unique_ids peers ->
  match compute_eligibility host_peer_id peers is_reserved with
  | None => forall p, p ∈ peers -> pi_host_transfer_capable p = false
  | Some (recipients, targets) =>
    (exists p, p ∈ peers /\ pi_host_transfer_capable p = true)
    /\ (forall id, id ∈ recipients <->
          exists p, p ∈ peers /\ pi_host_transfer_capable p = true /\ pi_peer_id p = id)
    /\ (forall id, id ∈ targets <-> legal_target host_peer_id peers is_reserved id)
    /\ NoDup recipients /\ NoDup targets /\ targets ⊆ recipients
  end.
Proof.
  intros Hnd. unfold compute_eligibility. case_bool_decide as Hnil.
  - intros p Hp. destruct (pi_host_transfer_capable p) eqn:Hcap; [|done].
    exfalso. assert (pi_peer_id p ∈ @nil string) as []%not_elem_of_nil.
    rewrite <- Hnil. apply elem_of_ids_filter. eauto.
  - split_and!; auto using filter_ids_NoDup, elem_of_ids_filter, elem_of_targets.
    + destruct (pi_peer_id <$> _) as [|id l] eqn:Hids; [done|].
      assert (id ∈ id :: l) as Hid by apply list_elem_of_here.
      rewrite <- Hids in Hid. apply elem_of_ids_filter in Hid. naive_solver.
    + intros id (_ & t & _ & _ & Ht & <- & _ & _ & _ & Hcap & _)%elem_of_targets; [|done].
      apply elem_of_ids_filter. eauto.
Qed.
