(* ===== verification/Room.v ===== *)
(** * The room state machine: [room.rs]

    [RoomState] and every operation of it, as functions from a state to a
    state and the [Effects] the operation decided on.  A sender is the
    identity of the channel it writes to, a cancellation token its own
    identity; a call that creates a token takes the fresh one as an argument.
    Readings of the clocks are arguments too: [now] is the [SystemTime]
    reading, [inow] the [Instant] reading. *)
From S2P Require Import Prelude.
From S2P Require Import Protocol.
From S2P Require Import Ids.
From S2P Require Import HostTransfer.

(** ** Data *)

Definition PEER_RESERVATION_GRACE : Duration := from_secs (5 * 60).
Definition EMPTY_ROOM_MAX_AGE : Duration := from_secs (5 * 60).
Definition ROOM_MAX_AGE : Duration := from_secs (24 * 60 * 60).

(** The identity of an [mpsc::Sender<ServerMessage>]'s channel and of a
    [CancellationToken]: clones share it. *)
Abbreviation Sender := nat (only parsing).
Abbreviation CancellationToken := nat (only parsing).

Record ConnectedPeer := {
  cp_tx : Sender;
  cp_sync_protocol_version : Z;
  cp_host_transfer_capable : bool;
  cp_conn_id : N;
  cp_cancel : CancellationToken;
}.

Record PeerReservation := {
  pr_verifier : Verifier;
  pr_absent_since : option Instant;
  pr_release_pending : bool;
}.

Record RoomState := {
  session_id : string;
  host_peer_id : string;
  host_verifier : Verifier;
  peers : gmap string ConnectedPeer;
  reservations : gmap string PeerReservation;
  owner_ip_key : string;
  created_at : SystemTime;
  last_activity_at : SystemTime;
  closing : bool;
  next_conn_id : N;
}.

Record Outbound := { ob_tx : Sender; ob_msg : ServerMessage }.
Record Eviction := { ev_cancel : CancellationToken }.

Record Effects := {
  eff_reply : option ServerMessage;
  eff_broadcast : list Outbound;
  eff_evict : list Eviction;
  eff_dirty : bool;
  eff_assigned_conn_id : option N;
  eff_assigned_cancel : option CancellationToken;
}.

Record Admission := {
  adm_peer_id : string;
  adm_tx : Sender;
  adm_sync_protocol_version : Z;
  adm_host_transfer_capable : bool;
}.

(** Assignments to one field. *)
Definition set_peers (st : RoomState) (p : gmap string ConnectedPeer) : RoomState :=
  {| session_id := session_id st; host_peer_id := host_peer_id st;
     host_verifier := host_verifier st; peers := p; reservations := reservations st;
     owner_ip_key := owner_ip_key st; created_at := created_at st;
     last_activity_at := last_activity_at st; closing := closing st;
     next_conn_id := next_conn_id st |}.

Definition set_reservations (st : RoomState) (r : gmap string PeerReservation) : RoomState :=
  {| session_id := session_id st; host_peer_id := host_peer_id st;
     host_verifier := host_verifier st; peers := peers st; reservations := r;
     owner_ip_key := owner_ip_key st; created_at := created_at st;
     last_activity_at := last_activity_at st; closing := closing st;
     next_conn_id := next_conn_id st |}.

Definition set_host (st : RoomState) (peer_id : string) (v : Verifier) : RoomState :=
  {| session_id := session_id st; host_peer_id := peer_id;
     host_verifier := v; peers := peers st; reservations := reservations st;
     owner_ip_key := owner_ip_key st; created_at := created_at st;
     last_activity_at := last_activity_at st; closing := closing st;
     next_conn_id := next_conn_id st |}.

Definition set_last_activity_at (st : RoomState) (t : SystemTime) : RoomState :=
  {| session_id := session_id st; host_peer_id := host_peer_id st;
     host_verifier := host_verifier st; peers := peers st; reservations := reservations st;
     owner_ip_key := owner_ip_key st; created_at := created_at st;
     last_activity_at := t; closing := closing st;
     next_conn_id := next_conn_id st |}.

Definition set_closing (st : RoomState) (c : bool) : RoomState :=
  {| session_id := session_id st; host_peer_id := host_peer_id st;
     host_verifier := host_verifier st; peers := peers st; reservations := reservations st;
     owner_ip_key := owner_ip_key st; created_at := created_at st;
     last_activity_at := last_activity_at st; closing := c;
     next_conn_id := next_conn_id st |}.

Definition set_next_conn_id (st : RoomState) (n : N) : RoomState :=
  {| session_id := session_id st; host_peer_id := host_peer_id st;
     host_verifier := host_verifier st; peers := peers st; reservations := reservations st;
     owner_ip_key := owner_ip_key st; created_at := created_at st;
     last_activity_at := last_activity_at st; closing := closing st;
     next_conn_id := n |}.

Definition set_release_pending (r : PeerReservation) (b : bool) : PeerReservation :=
  {| pr_verifier := pr_verifier r; pr_absent_since := pr_absent_since r;
     pr_release_pending := b |}.

Definition set_absent_since (r : PeerReservation) (t : option Instant) : PeerReservation :=
  {| pr_verifier := pr_verifier r; pr_absent_since := t;
     pr_release_pending := pr_release_pending r |}.

(** [Effects::default()] and [Effects::error]. *)
Definition default_effects : Effects :=
  {| eff_reply := None; eff_broadcast := []; eff_evict := []; eff_dirty := false;
     eff_assigned_conn_id := None; eff_assigned_cancel := None |}.

Definition effects_error (err : ClientError) (text : string) : Effects :=
  {| eff_reply := Some (into_message err text); eff_broadcast := []; eff_evict := [];
     eff_dirty := false; eff_assigned_conn_id := None; eff_assigned_cancel := None |}.

(** [effects.broadcast.extend(..)], which the source writes as pushes. *)
Definition push_broadcast (e : Effects) (obs : list Outbound) : Effects :=
  {| eff_reply := eff_reply e; eff_broadcast := eff_broadcast e ++ obs;
     eff_evict := eff_evict e; eff_dirty := eff_dirty e;
     eff_assigned_conn_id := eff_assigned_conn_id e;
     eff_assigned_cancel := eff_assigned_cancel e |}.

(** ** Messages *)

Definition peer_joined (peer_id : string) : ServerMessage :=
  {| sm_msg_type := server_type.PEER_JOINED; sm_session_id := None;
     sm_peer_id := Some peer_id; sm_host_peer_id := None; sm_reconnect_token := None;
     sm_protocol_version := 0; sm_from := None; sm_peers := None; sm_features := None;
     sm_host_transfer_targets := None; sm_code := None; sm_message := None;
     sm_payload := None |}.

Definition peer_left (peer_id : string) : ServerMessage :=
  {| sm_msg_type := server_type.PEER_LEFT; sm_session_id := None;
     sm_peer_id := Some peer_id; sm_host_peer_id := None; sm_reconnect_token := None;
     sm_protocol_version := 0; sm_from := None; sm_peers := None; sm_features := None;
     sm_host_transfer_targets := None; sm_code := None; sm_message := None;
     sm_payload := None |}.

(** The admission reply shared by [created], [joined] and [resumed]. *)
Definition admitted_reply (msg_type sid host token : string)
    (roster : option (list string)) : ServerMessage :=
  {| sm_msg_type := msg_type; sm_session_id := Some sid; sm_peer_id := None;
     sm_host_peer_id := Some host; sm_reconnect_token := Some token;
     sm_protocol_version := RELAY_PROTOCOL_VERSION; sm_from := None; sm_peers := roster;
     sm_features := Some relay_features; sm_host_transfer_targets := None;
     sm_code := None; sm_message := None; sm_payload := None |}.

Definition left_reply (sid peer_id : string) : ServerMessage :=
  {| sm_msg_type := server_type.LEFT; sm_session_id := Some sid;
     sm_peer_id := Some peer_id; sm_host_peer_id := None; sm_reconnect_token := None;
     sm_protocol_version := RELAY_PROTOCOL_VERSION; sm_from := None; sm_peers := None;
     sm_features := None; sm_host_transfer_targets := None; sm_code := None;
     sm_message := None; sm_payload := None |}.

Definition ended_message (sid : string) : ServerMessage :=
  {| sm_msg_type := server_type.ENDED; sm_session_id := Some sid;
     sm_peer_id := None; sm_host_peer_id := None; sm_reconnect_token := None;
     sm_protocol_version := RELAY_PROTOCOL_VERSION; sm_from := None; sm_peers := None;
     sm_features := None; sm_host_transfer_targets := None; sm_code := None;
     sm_message := None; sm_payload := None |}.

Definition host_changed_message (sid new_host old_host : string) : ServerMessage :=
  {| sm_msg_type := server_type.HOST_CHANGED; sm_session_id := Some sid;
     sm_peer_id := None; sm_host_peer_id := Some new_host; sm_reconnect_token := None;
     sm_protocol_version := 0; sm_from := Some old_host; sm_peers := None;
     sm_features := None; sm_host_transfer_targets := None; sm_code := None;
     sm_message := None; sm_payload := None |}.

Definition relayed_message (sender_id : string) (payload : option RawValue) : ServerMessage :=
  {| sm_msg_type := server_type.MESSAGE; sm_session_id := None;
     sm_peer_id := None; sm_host_peer_id := None; sm_reconnect_token := None;
     sm_protocol_version := 0; sm_from := Some sender_id; sm_peers := None;
     sm_features := None; sm_host_transfer_targets := None; sm_code := None;
     sm_message := None; sm_payload := payload |}.

Definition eligibility_message (sid host : string) (targets : list string) : ServerMessage :=
  {| sm_msg_type := server_type.HOST_TRANSFER_ELIGIBILITY; sm_session_id := Some sid;
     sm_peer_id := None; sm_host_peer_id := Some host; sm_reconnect_token := None;
     sm_protocol_version := 0; sm_from := None; sm_peers := None; sm_features := None;
     sm_host_transfer_targets := Some targets; sm_code := None; sm_message := None;
     sm_payload := None |}.

(** ** Operations *)

Section operations.
Context `{HashIter} `{CryptoLib}.

(** [self.peers.get(id).map(|p| p.conn_id) == Some(conn_id)]: is this
    connection still the occupant of the identity? *)
Definition is_current (st : RoomState) (peer_id : string) (conn_id : N) : bool :=
  (cp_conn_id <$> peers st !! peer_id) == Some conn_id.

(** [reservations.get(id).map_or(false, |r| !r.release_pending)] *)
Definition is_reserved (st : RoomState) (peer_id : string) : bool :=
  match reservations st !! peer_id with
  | Some r => negb (pr_release_pending r)
  | None => false
  end.

Definition broadcast_except (st : RoomState) (exclude : string) (msg : ServerMessage)
    (e : Effects) : Effects :=
  push_broadcast e
    ((fun kp => {| ob_tx := cp_tx kp.2; ob_msg := msg |})
       <$> List.filter (fun kp => kp.1 != exclude) (hm_iter (peers st))).

Definition broadcast_all (st : RoomState) (msg : ServerMessage) (e : Effects) : Effects :=
  push_broadcast e
    ((fun p => {| ob_tx := cp_tx p; ob_msg := msg |}) <$> hm_values (peers st)).

Definition peer_infos (st : RoomState) : list PeerInfo :=
  (fun kp => {| pi_peer_id := kp.1;
                pi_sync_protocol_version := cp_sync_protocol_version kp.2;
                pi_host_transfer_capable := cp_host_transfer_capable kp.2 |})
    <$> hm_iter (peers st).

Definition can_transfer_host_to (st : RoomState) (target_peer_id : string) : bool :=
  is_valid_target (host_peer_id st) (peer_infos st) (is_reserved st) target_peer_id.

Definition append_host_transfer_eligibility (st : RoomState) (e : Effects) : Effects :=
  match compute_eligibility (host_peer_id st) (peer_infos st) (is_reserved st) with
  | None => e
  | Some (recipients, targets) =>
    let msg := eligibility_message (session_id st) (host_peer_id st) targets in
    push_broadcast e
      (omap (fun recipient =>
               (fun p => {| ob_tx := cp_tx p; ob_msg := msg |})
                 <$> peers st !! recipient) recipients)
  end.

Definition new_room (sid host : string) (hv : Verifier) (reconnect_token : string)
    (owner : string) (adm : Admission) (now : SystemTime) (cancel : CancellationToken)
    : RoomState * Effects :=
  let conn_id := 1%N in
  let st := {|
    session_id := sid;
    host_peer_id := host;
    host_verifier := hv;
    peers := {[ host := {| cp_tx := adm_tx adm;
                           cp_sync_protocol_version := adm_sync_protocol_version adm;
                           cp_host_transfer_capable := adm_host_transfer_capable adm;
                           cp_conn_id := conn_id;
                           cp_cancel := cancel |} ]};
    reservations := ∅;
    owner_ip_key := owner;
    created_at := now;
    last_activity_at := now;
    closing := false;
    next_conn_id := wrap64 (conn_id + 1) |} in
  let e := {|
    eff_reply := Some (admitted_reply server_type.CREATED sid host reconnect_token None);
    eff_broadcast := [];
    eff_evict := [];
    eff_dirty := true;
    eff_assigned_conn_id := Some conn_id;
    eff_assigned_cancel := Some cancel |} in
  (st, append_host_transfer_eligibility st e).

(** [RoomState::restore]; the reservations come as the pairs
    [(verifier, absent_since)] of a [RestoredReservation]. *)
Definition restore (sid host : string) (hv : Verifier) (owner : string)
    (restored : gmap string (Verifier * option Instant))
    (created last_at : SystemTime) : RoomState :=
  {| session_id := sid;
     host_peer_id := host;
     host_verifier := hv;
     peers := ∅;
     reservations := (fun r => {| pr_verifier := r.1; pr_absent_since := r.2;
                                  pr_release_pending := false |}) <$> restored;
     owner_ip_key := owner;
     created_at := created;
     last_activity_at := last_at;
     closing := false;
     next_conn_id := 1 |}.

(** [admit_peer]: the new state, the connection id and the replaced occupant. *)
Definition admit_peer (st : RoomState) (peer_id : string) (adm : Admission)
    (cancel : CancellationToken) : RoomState * (N * option ConnectedPeer) :=
  let conn_id := next_conn_id st in
  let old := peers st !! peer_id in
  let st := set_next_conn_id st (wrap64 (conn_id + 1)) in
  let st := set_peers st
    (<[peer_id := {| cp_tx := adm_tx adm;
                     cp_sync_protocol_version := adm_sync_protocol_version adm;
                     cp_host_transfer_capable := adm_host_transfer_capable adm;
                     cp_conn_id := conn_id;
                     cp_cancel := cancel |}]> (peers st)) in
  (st, (conn_id, old)).

Definition evict_old (old : option ConnectedPeer) : list Eviction :=
  match old with Some p => [{| ev_cancel := cp_cancel p |}] | None => [] end.

Definition reconnect_host (st : RoomState) (host : Admission) (reconnect_token : string)
    (_now : SystemTime) (cancel : CancellationToken) : RoomState * Effects :=
  let was_absent := negb (contains_key (peers st) (host_peer_id st)) in
  let '(st, (conn_id, old)) := admit_peer st (host_peer_id st) host cancel in
  let existing_peers :=
    List.filter (fun id => id != host_peer_id st) (hm_keys (peers st)) in
  let e := {|
    eff_reply := Some (admitted_reply server_type.CREATED (session_id st)
                         (host_peer_id st) reconnect_token (Some existing_peers));
    eff_broadcast := [];
    eff_evict := evict_old old;
    eff_dirty := true;
    eff_assigned_conn_id := Some conn_id;
    eff_assigned_cancel := Some cancel |} in
  let e := if was_absent
           then broadcast_except st (host_peer_id st) (peer_joined (host_peer_id st)) e
           else e in
  (st, append_host_transfer_eligibility st e).

Definition is_reclaimable (st : RoomState) : bool :=
  negb (closing st) && (peers st == ∅).

(** The predicate of [retain]: keep the reservation? *)
Definition keep_reservation (st : RoomState) (inow : Instant) (peer_id : string)
    (res : PeerReservation) : bool :=
  if pr_release_pending res || contains_key (peers st) peer_id then true
  else match pr_absent_since res with
       | None => true
       | Some absent_since => (since inow absent_since <? PEER_RESERVATION_GRACE)%Z
       end.

Definition prune_expired_reservations (st : RoomState) (inow : Instant) : RoomState * bool :=
  let before := size (reservations st) in
  let kept := filter (fun kr => keep_reservation st inow kr.1 kr.2 = true)
                (reservations st) in
  (set_reservations st kept, negb (before =? size kept)).

(** The authorization of a join or resume, branch by branch. *)
Definition join_authorized (st : RoomState) (peer_id : string)
    (presented : option Verifier) (occupied resume_only : bool) : bool :=
  if peer_id == host_peer_id st then matches_presented (host_verifier st) presented
  else match reservations st !! peer_id with
       | Some res =>
         negb (pr_release_pending res) && matches_presented (pr_verifier res) presented
       | None =>
         if occupied then false
         else negb resume_only && bool_decide (is_Some presented)
       end.

Definition join_or_resume (st : RoomState) (msg : ClientMessage) (adm : Admission)
    (resume_only : bool) (now : SystemTime) (inow : Instant)
    (cancel : CancellationToken) : RoomState * Effects :=
  if closing st then (st, effects_error RoomNotFound "Room does not exist")
  else
  let st := (prune_expired_reservations st inow).1 in
  let peer_id := adm_peer_id adm in
  let presented := from_token (cm_reconnect_token msg) in
  let occupied := contains_key (peers st) peer_id in
  let reservation := reservations st !! peer_id in
  if negb (join_authorized st peer_id presented occupied resume_only)
  then (st, effects_error PeerIdUnavailable "Peer ID is unavailable")
  else
  let is_new_identity := (peer_id != host_peer_id st) && bool_decide (reservation = None) in
  if negb occupied && is_new_identity && (MAX_ROOM_SIZE - 1 <=? size (reservations st))
  then (st, effects_error RoomFull "Room is full")
  else
  let verifier := match presented with
                  | Some v => v
                  | None => match reservation with
                            | Some r => pr_verifier r
                            | None => host_verifier st
                            end
                  end in
  let '(st, (conn_id, old)) := admit_peer st peer_id adm cancel in
  let st := if peer_id != host_peer_id st
            then set_reservations st
                   (<[peer_id := {| pr_verifier := verifier; pr_absent_since := None;
                                    pr_release_pending := false |}]> (reservations st))
            else st in
  let st := set_last_activity_at st now in
  let existing_peers := List.filter (fun id => id != peer_id) (hm_keys (peers st)) in
  let response_type := if resume_only then server_type.RESUMED else server_type.JOINED in
  let e := {|
    eff_reply := Some (admitted_reply response_type (session_id st) (host_peer_id st)
                         (cm_reconnect_token msg) (Some existing_peers));
    eff_broadcast := [];
    eff_evict := evict_old old;
    eff_dirty := true;
    eff_assigned_conn_id := Some conn_id;
    eff_assigned_cancel := Some cancel |} in
  let e := broadcast_except st peer_id (peer_joined peer_id) e in
  (st, append_host_transfer_eligibility st e).

(** Phase 1 of [leave]. *)
Definition begin_leave (st : RoomState) (peer_id : string) (conn_id : N) (token : string)
    (protocol_version : N) : RoomState * result unit Effects :=
  let is_guest := peer_id != host_peer_id st in
  if closing st || negb (is_current st peer_id conn_id) || negb is_guest
     || negb (protocol_version == RELAY_PROTOCOL_VERSION)
  then (st, Err (effects_error PeerIdUnavailable "Unable to release peer identity"))
  else
  let presented := from_token token in
  let authorized := match reservations st !! peer_id with
                    | Some res => negb (pr_release_pending res)
                                  && matches_presented (pr_verifier res) presented
                    | None => false
                    end in
  if negb authorized
  then (st, Err (effects_error PeerIdUnavailable "Unable to release peer identity"))
  else (set_reservations st
          (alter (fun res => set_release_pending res true) peer_id (reservations st)), Ok tt).

(** Phase 2 of [leave]. *)
Definition finish_leave (st : RoomState) (peer_id : string) (conn_id : N)
    (persisted : bool) (now : SystemTime) : RoomState * Effects :=
  let still_owns := is_current st peer_id conn_id
                    && match reservations st !! peer_id with
                       | Some r => pr_release_pending r
                       | None => false
                       end in
  if negb still_owns then (st, default_effects)
  else if negb persisted
  then (set_reservations st
          (alter (fun res => set_release_pending res false) peer_id (reservations st)),
        effects_error InvalidMessage "Unable to persist released peer identity")
  else
  let st := set_peers st (delete peer_id (peers st)) in
  let st := set_reservations st (delete peer_id (reservations st)) in
  let st := set_last_activity_at st now in
  let e := {| eff_reply := Some (left_reply (session_id st) peer_id);
              eff_broadcast := []; eff_evict := []; eff_dirty := true;
              eff_assigned_conn_id := None; eff_assigned_cancel := None |} in
  let e := broadcast_except st peer_id (peer_left peer_id) e in
  (st, append_host_transfer_eligibility st e).

(** Phase 1 of [endSession]: the owner key and the guests' senders. *)
Definition begin_end_session (st : RoomState) (peer_id : string) (conn_id : N)
    (token : string) (protocol_version : N)
    : RoomState * result (string * list Sender) Effects :=
  let is_current_host := (peer_id == host_peer_id st) && is_current st peer_id conn_id in
  if closing st || negb is_current_host || negb (protocol_version == RELAY_PROTOCOL_VERSION)
  then (st, Err (effects_error PeerIdUnavailable "Unable to end room"))
  else if negb (matches_presented (host_verifier st) (from_token token))
  then (st, Err (effects_error PeerIdUnavailable "Unable to end room"))
  else
  let st := set_closing st true in
  let guests := (fun kp => cp_tx kp.2)
                  <$> List.filter (fun kp => kp.1 != peer_id) (hm_iter (peers st)) in
  (st, Ok (owner_ip_key st, guests)).

(** Phase 2 of [endSession]. *)
Definition finish_end_session (st : RoomState) (guests : list Sender) (persisted : bool)
    : RoomState * Effects :=
  let evict := (fun p => {| ev_cancel := cp_cancel p |}) <$> hm_values (peers st) in
  let st := set_peers st ∅ in
  let st := set_reservations st ∅ in
  if negb persisted
  then (st, {| eff_reply := Some (into_message InvalidMessage "Unable to persist ended room");
               eff_broadcast := []; eff_evict := evict; eff_dirty := false;
               eff_assigned_conn_id := None; eff_assigned_cancel := None |})
  else
  let ended := ended_message (session_id st) in
  (st, {| eff_reply := Some ended;
          eff_broadcast := (fun tx => {| ob_tx := tx; ob_msg := ended |}) <$> guests;
          eff_evict := evict; eff_dirty := false;
          eff_assigned_conn_id := None; eff_assigned_cancel := None |}).

Definition transfer_host (st : RoomState) (peer_id : string) (conn_id : N)
    (protocol_version : N) (target_peer_id : string) : RoomState * Effects :=
  if closing st || negb (is_current st peer_id conn_id)
     || negb (protocol_version == RELAY_PROTOCOL_VERSION)
  then (st, effects_error PeerIdUnavailable "Unable to transfer host authority")
  else if peer_id != host_peer_id st
  then (st, effects_error NotHost "Only the host can transfer host authority")
  else if negb (valid_id target_peer_id MAX_PEER_ID_LENGTH) || (target_peer_id == peer_id)
          || negb (contains_key (peers st) target_peer_id)
  then (st, effects_error PeerNotFound "Target peer not found")
  else if negb (is_reserved st target_peer_id)
  then (st, effects_error PeerNotFound "Target peer not found")
  else if negb (can_transfer_host_to st target_peer_id)
  then (st, effects_error HostTransferUnavailable
              "The current room roster cannot follow a host transfer")
  else
  match reservations st !! target_peer_id with
  | None => (st, default_effects) (* [expect("checked above")]: see [is_reserved] *)
  | Some target_reservation =>
    let old_host := host_peer_id st in
    let st := set_reservations st
      (<[old_host := {| pr_verifier := host_verifier st; pr_absent_since := None;
                        pr_release_pending := false |}]>
         (delete target_peer_id (reservations st))) in
    let st := set_host st target_peer_id (pr_verifier target_reservation) in
    let host_changed := host_changed_message (session_id st) target_peer_id old_host in
    let e := {| eff_reply := None; eff_broadcast := []; eff_evict := []; eff_dirty := true;
                eff_assigned_conn_id := None; eff_assigned_cancel := None |} in
    let e := broadcast_all st host_changed e in
    (st, append_host_transfer_eligibility st e)
  end.

Definition broadcast (st : RoomState) (sender_id : string) (conn_id : N)
    (payload : option RawValue) (now : SystemTime) : RoomState * Effects :=
  if negb (is_current st sender_id conn_id) then (st, default_effects)
  else if closing st then (st, default_effects)
  else
  let st := set_last_activity_at st now in
  (st, broadcast_except st sender_id (relayed_message sender_id payload) default_effects).

Definition send_to (st : RoomState) (sender_id : string) (conn_id : N) (target_id : string)
    (payload : option RawValue) (now : SystemTime) : RoomState * Effects :=
  if negb (is_current st sender_id conn_id) then (st, default_effects)
  else if closing st then (st, default_effects)
  else match peers st !! target_id with
       | None => (st, effects_error NotInRoom "Target peer not found")
       | Some target =>
         (set_last_activity_at st now,
          push_broadcast default_effects
            [{| ob_tx := cp_tx target; ob_msg := relayed_message sender_id payload |}])
       end.

Definition handle_disconnect (st : RoomState) (peer_id : string) (conn_id : N)
    (now : SystemTime) (inow : Instant) : RoomState * Effects :=
  if closing st || negb (is_current st peer_id conn_id) then (st, default_effects)
  else
  let st := set_peers st (delete peer_id (peers st)) in
  let st := if peer_id != host_peer_id st
            then set_reservations st
                   (alter (fun res => set_absent_since res (Some inow)) peer_id
                      (reservations st))
            else st in
  let st := set_last_activity_at st now in
  let e := {| eff_reply := None; eff_broadcast := []; eff_evict := []; eff_dirty := true;
              eff_assigned_conn_id := None; eff_assigned_cancel := None |} in
  let e := broadcast_except st peer_id (peer_left peer_id) e in
  (st, append_host_transfer_eligibility st e).

Definition connected_peer_count (st : RoomState) : nat := size (peers st).
Definition idle_for (st : RoomState) (now : SystemTime) : Duration :=
  since now (last_activity_at st).
Definition age (st : RoomState) (now : SystemTime) : Duration := since now (created_at st).
End operations.

(** Reduces the projections of updated states and effects, and nothing else. *)
Ltac room_cbn :=
  cbn [set_peers set_reservations set_host set_last_activity_at set_closing set_next_conn_id
       session_id host_peer_id host_verifier peers reservations owner_ip_key created_at
       last_activity_at closing next_conn_id
       default_effects effects_error push_broadcast
       eff_reply eff_broadcast eff_evict eff_dirty eff_assigned_conn_id eff_assigned_cancel
       pr_verifier pr_absent_since pr_release_pending set_release_pending set_absent_since
       cp_tx cp_sync_protocol_version cp_host_transfer_capable cp_conn_id cp_cancel
       negb andb orb fst snd app] in *.
