(* ===== verification/RoomInv.v ===== *)
(** * Well-formed rooms

    The invariant that ties the tables of a [RoomState] together, and its
    preservation by every operation of [Room.v].  An operation is one event of
    a room; [room_step] adds what the rest of the program guarantees about the
    order of events: a connection whose [leave] is waiting for the snapshot
    issues nothing else until [finish_leave]. *)
From S2P Require Import Prelude.
From S2P Require Import Protocol.
From S2P Require Import Ids.
From S2P Require Import HostTransfer.
From S2P Require Import Room.

#[local] Arguments Nat.leb : simpl never.
#[local] Arguments Nat.sub : simpl never.

(** ** The roster invariant *)

(** Over the host id, the connected peers, the guest reservations and the next
    connection id. *)
Record roster_wf (h : string) (ps : gmap string ConnectedPeer)
    (rs : gmap string PeerReservation) (n : N) : Prop := {
  (** the host holds no guest reservation *)
  wf_host_unreserved : rs !! h = None;
  (** at most [MAX_ROOM_SIZE - 1] guest identities *)
  wf_capacity : size rs <= MAX_ROOM_SIZE - 1;
  (** a connected guest is reserved, and its grace clock is not running *)
  wf_connected : forall id p, ps !! id = Some p ->
    id = h \/ exists r, rs !! id = Some r /\ pr_absent_since r = None;
  (** connection ids are below the next one, and name one occupant *)
  wf_conn_lt : forall id p, ps !! id = Some p -> (cp_conn_id p < n)%N;
  wf_conn_inj : forall id1 id2 p1 p2, ps !! id1 = Some p1 -> ps !! id2 = Some p2 ->
    cp_conn_id p1 = cp_conn_id p2 -> id1 = id2;
}.

Definition room_wf (st : RoomState) : Prop :=
  roster_wf (host_peer_id st) (peers st) (reservations st) (next_conn_id st).

(** ** Events of a room *)

Inductive room_event :=
| EvReconnect (host : Admission) (token : string) (now : SystemTime) (cancel : CancellationToken)
| EvJoin (msg : ClientMessage) (adm : Admission) (resume_only : bool)
         (now : SystemTime) (inow : Instant) (cancel : CancellationToken)
| EvBeginLeave (peer_id : string) (conn_id : N) (token : string) (version : N)
| EvFinishLeave (peer_id : string) (conn_id : N) (persisted : bool) (now : SystemTime)
| EvBeginEnd (peer_id : string) (conn_id : N) (token : string) (version : N)
| EvFinishEnd (guests : list Sender) (persisted : bool)
| EvTransfer (peer_id : string) (conn_id : N) (version : N) (target : string)
| EvBroadcast (peer_id : string) (conn_id : N) (payload : option RawValue) (now : SystemTime)
| EvSendTo (peer_id : string) (conn_id : N) (target : string)
           (payload : option RawValue) (now : SystemTime)
| EvDisconnect (peer_id : string) (conn_id : N) (now : SystemTime) (inow : Instant)
| EvPrune (inow : Instant)
| EvClose (drop_peers : bool).

(** A room together with the [leave]s that are between their two phases. *)
Record RoomRun := {
  rr_state : RoomState;
  rr_leaving : gset (string * N);
}.

Section events.
Context `{HashIter} `{CryptoLib}.

(** The connection on whose behalf the event runs, when it must be idle. *)
Definition event_conn (ev : room_event) : option (string * N) :=
  match ev with
  | EvBeginLeave id c _ _ | EvBeginEnd id c _ _ | EvTransfer id c _ _
  | EvBroadcast id c _ _ | EvSendTo id c _ _ _ | EvDisconnect id c _ _ => Some (id, c)
  | _ => None
  end.

(** The state after an event.  [EvClose] is what a reclaiming [create] and
    the cleanup sweep do to a room they discard. *)
Definition room_apply (st : RoomState) (ev : room_event) : RoomState :=
  match ev with
  | EvReconnect host token now cancel => (reconnect_host st host token now cancel).1
  | EvJoin msg adm resume now inow cancel => (join_or_resume st msg adm resume now inow cancel).1
  | EvBeginLeave id c token v => (begin_leave st id c token v).1
  | EvFinishLeave id c persisted now => (finish_leave st id c persisted now).1
  | EvBeginEnd id c token v => (begin_end_session st id c token v).1
  | EvFinishEnd guests persisted => (finish_end_session st guests persisted).1
  | EvTransfer id c v target => (transfer_host st id c v target).1
  | EvBroadcast id c payload now => (broadcast st id c payload now).1
  | EvSendTo id c target payload now => (send_to st id c target payload now).1
  | EvDisconnect id c now inow => (handle_disconnect st id c now inow).1
  | EvPrune inow => (prune_expired_reservations st inow).1
  | EvClose drop => let st := set_closing st true in
                    if drop then set_peers st ∅ else st
  end.

Definition leaving_after (run : RoomRun) (ev : room_event) : gset (string * N) :=
  match ev with
  | EvBeginLeave id c token v =>
    match (begin_leave (rr_state run) id c token v).2 with
    | Ok _ => {[ (id, c) ]} ∪ rr_leaving run
    | Err _ => rr_leaving run
    end
  | EvFinishLeave id c _ _ => rr_leaving run ∖ {[ (id, c) ]}
  | _ => rr_leaving run
  end.

(** Which events may happen next: a connection waiting for its [leave] is
    silent, a [leave] finishes only after it began, and an [endSession]
    finishes only on the closing room it began on. *)
Definition event_allowed (run : RoomRun) (ev : room_event) : Prop :=
  match ev with
  | EvFinishLeave id c _ _ => (id, c) ∈ rr_leaving run
  | EvFinishEnd _ _ => closing (rr_state run) = true
  | _ => match event_conn ev with
         | Some conn => conn ∉ rr_leaving run
         | None => True
         end
  end.

Inductive room_step (run : RoomRun) (ev : room_event) : RoomRun -> Prop :=
| room_step_intro :
    event_allowed run ev ->
    room_step run ev {| rr_state := room_apply (rr_state run) ev;
                        rr_leaving := leaving_after run ev |}.

(** Rooms that can arise: created by [new_room] or restored from a snapshot
    entry that names at most [MAX_ROOM_SIZE - 1] guests and not the host,
    then any [n] events. *)
Inductive room_reachable : N -> RoomRun -> Prop :=
| reach_new sid host hv token owner adm now cancel :
    room_reachable 0
      {| rr_state := (new_room sid host hv token owner adm now cancel).1;
         rr_leaving := ∅ |}
| reach_restored sid host hv owner restored created last_at :
    restored !! host = None ->
    size restored <= MAX_ROOM_SIZE - 1 ->
    room_reachable 0
      {| rr_state := restore sid host hv owner restored created last_at; rr_leaving := ∅ |}
| reach_step n run ev run' :
    room_reachable n run -> room_step run ev run' -> room_reachable (n + 1) run'.
End events.

(** ** Preservation by the elementary updates *)

Section roster.
Implicit Types (h id : string) (ps : gmap string ConnectedPeer)
  (rs : gmap string PeerReservation) (n : N).

Lemma roster_wf_insert_peer h ps rs n id p :
  roster_wf h ps rs n -> (n + 1 < u64_modulus)%N ->
  (id = h \/ exists r, rs !! id = Some r /\ pr_absent_since r = None) ->
  cp_conn_id p = n ->
  roster_wf h (<[id := p]> ps) rs (wrap64 (n + 1)).
Proof.
  intros [Hh Hcap Hconn Hlt Hinj] Hn Hid Hp. rewrite wrap64_small by done. split; auto.
  - intros id' p' [[<- <-]|[? ?]]%lookup_insert_Some; eauto.
  - intros id' p' [[<- <-]|[? Hp']]%lookup_insert_Some; [lia|].
    specialize (Hlt _ _ Hp'). lia.
  - intros id1 id2 p1 p2 [[<- <-]|[? Hp1]]%lookup_insert_Some
      [[<- <-]|[? Hp2]]%lookup_insert_Some Heq; eauto.
    + specialize (Hlt _ _ Hp2). lia.
    + specialize (Hlt _ _ Hp1). lia.
Qed.

Lemma roster_wf_insert_reservation h ps rs n id r :
  roster_wf h ps rs n -> id ≠ h -> pr_absent_since r = None ->
  (is_Some (rs !! id) \/ size rs < MAX_ROOM_SIZE - 1) ->
  roster_wf h ps (<[id := r]> rs) n.
Proof.
  intros [Hh Hcap Hconn Hlt Hinj] Hid Hr Hsize. split; auto.
  - by rewrite lookup_insert_ne.
  - destruct (rs !! id) eqn:Hlook.
    + rewrite map_size_insert_Some by eauto. done.
    + rewrite map_size_insert_None by done. destruct Hsize as [[? ?]|?]; [done | lia].
  - intros id' p Hp. destruct (Hconn _ _ Hp) as [->|(r' & Hr' & Habs)]; [by left|right].
    destruct (decide (id = id')) as [->|]; [exists r | exists r']; simplify_map_eq; eauto.
Qed.

Lemma roster_wf_delete_peer h ps rs n id :
  roster_wf h ps rs n -> roster_wf h (delete id ps) rs n.
Proof.
  intros [Hh Hcap Hconn Hlt Hinj].
  split; auto; repeat intros ?;
    repeat match goal with H : delete _ _ !! _ = Some _ |- _ =>
      apply lookup_delete_Some in H as [? ?] end; eauto.
Qed.

Lemma roster_wf_no_peers h ps rs n : roster_wf h ps rs n -> roster_wf h ∅ rs n.
Proof. intros [Hh Hcap _ _ _]. by split. Qed.

(** Dropping reservations of unconnected identities. *)
Lemma roster_wf_drop_reservations h ps rs rs' n :
  roster_wf h ps rs n -> rs' ⊆ rs ->
  (forall id, is_Some (ps !! id) -> rs' !! id = rs !! id) ->
  roster_wf h ps rs' n.
Proof.
  intros [Hh Hcap Hconn Hlt Hinj] Hsub Hkeep. split; auto.
  - by eapply lookup_weaken_None.
  - etransitivity; [by apply map_subseteq_size | done].
  - intros id p Hp. destruct (Hconn _ _ Hp) as [->|(r & Hr & ?)]; [by left|right].
    exists r. by rewrite Hkeep by eauto.
Qed.

(** Rewriting one reservation in place. *)
Lemma roster_wf_alter_reservation h ps rs n id f :
  roster_wf h ps rs n ->
  (ps !! id = None \/ forall r, pr_absent_since (f r) = pr_absent_since r) ->
  roster_wf h ps (alter f id rs) n.
Proof.
  intros [Hh Hcap Hconn Hlt Hinj] Hf. split; auto.
  - by apply lookup_alter_None.
  - by rewrite map_size_alter.
  - intros id' p Hp. destruct (Hconn _ _ Hp) as [->|(r & Hr & Habs)]; [by left|right].
    destruct (decide (id = id')) as [->|Hne].
    + exists (f r). rewrite lookup_alter_eq, Hr. split; [done|].
      destruct Hf as [?|Hf]; [congruence | by rewrite Hf].
    + exists r. by rewrite lookup_alter_ne.
Qed.

(** The host and a connected guest swap roles. *)
Lemma roster_wf_swap_host h ps rs n id r :
  roster_wf h ps rs n -> id ≠ h -> is_Some (rs !! id) -> pr_absent_since r = None ->
  roster_wf id ps (<[h := r]> (delete id rs)) n.
Proof.
  intros [Hh Hcap Hconn Hlt Hinj] Hid Hres Hr. split; auto.
  - by rewrite lookup_insert_ne, lookup_delete_eq.
  - rewrite map_size_insert_None by (by rewrite lookup_delete_ne).
    rewrite map_size_delete_Some by done. destruct Hres as [? Hres].
    assert (size rs ≠ 0) by (apply map_size_ne_0_lookup; eauto). lia.
  - intros id' p Hp.
    destruct (decide (id' = id)) as [->|]; [by left|right].
    destruct (decide (id' = h)) as [->|].
    + exists r. by rewrite lookup_insert_eq.
    + rewrite lookup_insert_ne, lookup_delete_ne by done.
      by destruct (Hconn _ _ Hp) as [->|].
Qed.
End roster.

(** ** Preservation by the operations *)

#[export] Hint Resolve roster_wf_delete_peer roster_wf_no_peers : relay.

Section preservation.
Context `{HashIter} `{CryptoLib} `{!CryptoLaws _}.
Implicit Types (st : RoomState) (ev : room_event).

Lemma new_room_wf sid host hv token owner adm now cancel :
  room_wf (new_room sid host hv token owner adm now cancel).1.
Proof.
  split; simpl; [done | by rewrite map_size_empty; unfold MAX_ROOM_SIZE; lia |..].
  - intros id p [<- _]%lookup_singleton_Some. by left.
  - intros id p [_ <-]%lookup_singleton_Some. done.
  - by intros id1 id2 p1 p2 [<- _]%lookup_singleton_Some [<- _]%lookup_singleton_Some.
Qed.

Lemma restore_wf sid host hv owner restored created last_at :
  restored !! host = None -> size restored <= MAX_ROOM_SIZE - 1 ->
  room_wf (restore sid host hv owner restored created last_at).
Proof.
  intros Hhost Hsize. split; simpl; try done.
  - by rewrite lookup_fmap, Hhost.
  - by rewrite map_size_fmap.
Qed.

Lemma prune_lookup st inow id r :
  reservations (prune_expired_reservations st inow).1 !! id = Some r <->
  reservations st !! id = Some r /\ keep_reservation st inow id r = true.
Proof. apply map_lookup_filter_Some. Qed.

Lemma prune_keeps_connected st inow id :
  is_Some (peers st !! id) ->
  reservations (prune_expired_reservations st inow).1 !! id = reservations st !! id.
Proof.
  intros Hconn. destruct (reservations st !! id) as [r|] eqn:Hr.
  - apply prune_lookup. split; [done|]. unfold keep_reservation.
    apply contains_key_true in Hconn as ->. by rewrite orb_true_r.
  - apply map_lookup_filter_None. by left.
Qed.

Lemma prune_wf st inow : room_wf st -> room_wf (prune_expired_reservations st inow).1.
Proof.
  intros Hwf. apply (roster_wf_drop_reservations _ _ (reservations st)); [exact Hwf| |].
  - apply map_filter_subseteq.
  - intros id Hid. by apply prune_keeps_connected.
Qed.

(** Admission of a peer that is the host or about to be reserved. *)
Lemma join_authorized_reserved st id presented resume :
  join_authorized st id presented (contains_key (peers st) id) resume = true ->
  reservations st !! id = None -> id ≠ host_peer_id st ->
  peers st !! id = None /\ resume = false /\ is_Some presented.
Proof.
  unfold join_authorized. intros Hauth Hres Hhost.
  rewrite bool_decide_eq_false_2, Hres in Hauth by done.
  destruct (contains_key _ _) eqn:Hocc; [done|]. by to_prop.
Qed.

Lemma join_wf st msg adm resume now inow cancel :
  room_wf st -> (next_conn_id st + 1 < u64_modulus)%N ->
  room_wf (join_or_resume st msg adm resume now inow cancel).1.
Proof.
  intros Hwf Hn. unfold join_or_resume. destruct (closing st); [done|].
  apply (prune_wf _ inow) in Hwf.
  change (next_conn_id st) with (next_conn_id (prune_expired_reservations st inow).1) in Hn.
  set (stp := (prune_expired_reservations st inow).1) in *. clearbody stp.
  destruct (join_authorized _ _ _ _ _) eqn:Hauth; [|done]. simpl.
  destruct (_ && _) eqn:Hfull; [done|]. simpl.
  set (v := match from_token _ with Some _ => _ | None => _ end). clearbody v.
  unfold room_wf. case_bool_decide as Hhost; simpl.
  - by apply roster_wf_insert_peer; [..|left|].
  - apply roster_wf_insert_peer; [|done| |done].
    + apply roster_wf_insert_reservation; [done..|].
      destruct (reservations stp !! adm_peer_id adm) eqn:Hres; [by left; eauto|right].
      apply join_authorized_reserved in Hauth as (Hocc & _); [|assumption..].
      apply contains_key_false in Hocc. rewrite Hocc in Hfull.
      rewrite bool_decide_eq_true_2 in Hfull by done. simpl in Hfull. by to_prop.
    + right. eexists. by rewrite lookup_insert_eq.
Qed.

Lemma transfer_wf st id c v target :
  room_wf st -> room_wf (transfer_host st id c v target).1.
Proof.
  intros Hwf. unfold transfer_host. repeat (case_match; [done|]). case_match; [|done].
  to_prop. simpl. eapply roster_wf_swap_host; eauto. congruence.
Qed.

Lemma room_wf_apply st ev :
  room_wf st -> (next_conn_id st + 1 < u64_modulus)%N -> room_wf (room_apply st ev).
Proof.
  intros Hwf Hn. destruct ev; cbn [room_apply]; auto using join_wf, transfer_wf, prune_wf.
  - apply roster_wf_insert_peer; auto.
  - unfold begin_leave. repeat case_match; try done.
    apply roster_wf_alter_reservation; auto.
  - unfold finish_leave. destruct (negb _); [done|]. destruct persisted; simpl.
    + eapply roster_wf_drop_reservations;
        [by apply roster_wf_delete_peer | apply delete_subseteq|].
      simpl. intros id [? [? _]%lookup_delete_Some]. by rewrite lookup_delete_ne.
    + apply roster_wf_alter_reservation; auto.
  - unfold begin_end_session. by repeat case_match.
  - unfold finish_end_session. simpl. destruct Hwf as [Hh Hcap _ _ _].
    destruct persisted; split; simpl; try done; rewrite map_size_empty; lia.
  - unfold broadcast. by repeat case_match.
  - unfold send_to. by repeat case_match.
  - unfold handle_disconnect. destruct (_ || _); [done|].
    apply (roster_wf_delete_peer _ _ _ _ peer_id) in Hwf. case_bool_decide; [done|].
    apply roster_wf_alter_reservation; [done|]. left. apply lookup_delete_eq.
  - destruct drop_peers; [|done]. by apply (roster_wf_no_peers _ _ _ _ Hwf).
Qed.

Lemma next_conn_id_apply st ev :
  (next_conn_id st + 1 < u64_modulus)%N ->
  (next_conn_id (room_apply st ev) <= next_conn_id st + 1)%N.
Proof.
  intros Hn. destruct ev; simpl;
    unfold begin_leave, finish_leave, begin_end_session, finish_end_session,
      transfer_host, broadcast, send_to, handle_disconnect, join_or_resume, admit_peer;
    repeat case_match; simplify_eq/=; rewrite ?wrap64_small; lia.
Qed.
End preservation.

(** ** Pending releases *)

Section leaving.
Context `{HashIter} `{CryptoLib} `{!CryptoLaws _}.
Implicit Types (st : RoomState) (ev : room_event) (id : string) (c : N).

(** What a pending [leave] depends on: the connection occupying the identity
    and the release flag of its reservation. *)
Definition conn_of st id : option N := cp_conn_id <$> peers st !! id.
Definition pending st id : bool :=
  match reservations st !! id with Some r => pr_release_pending r | None => false end.

(** The connections between the two phases of a [leave] are exactly the
    current occupants of the identities being released. *)
Definition leaving_ok (run : RoomRun) : Prop :=
  closing (rr_state run) = false ->
  (forall id c, (id, c) ∈ rr_leaving run <->
     conn_of (rr_state run) id = Some c /\ pending (rr_state run) id = true)
  /\ (forall id, pending (rr_state run) id = true -> is_Some (conn_of (rr_state run) id)).

(** An operation that is not a phase of [leave] touches no identity that is
    pending before or after it. *)
Definition pending_frame st st' : Prop :=
  forall id, pending st id = true \/ pending st' id = true ->
    pending st' id = pending st id /\ conn_of st' id = conn_of st id.

Lemma is_current_conn_of st id c : is_current st id c = true <-> conn_of st id = Some c.
Proof. apply bool_decide_eq_true. Qed.

Lemma pending_frame_refl st : pending_frame st st.
Proof. by intros ?. Qed.

Lemma pending_frame_trans st1 st2 st3 :
  pending_frame st1 st2 -> pending_frame st2 st3 -> pending_frame st1 st3.
Proof.
  intros H1 H2 id Hid. destruct (pending st2 id) eqn:Hp2.
  - destruct (H1 id) as [<- <-]; [by right|]. destruct (H2 id) as [-> ->]; auto.
  - destruct Hid as [Hid|Hid].
    + destruct (H1 id) as [Hp _]; [by left|]. congruence.
    + destruct (H2 id) as [Hp _]; [by right|]. congruence.
Qed.

Lemma prune_pending_frame st inow :
  pending_frame st (prune_expired_reservations st inow).1.
Proof.
  intros id Hid. split; [|done]. unfold pending in *.
  destruct (reservations st !! id) as [r|] eqn:Hr.
  - destruct (reservations (prune_expired_reservations st inow).1 !! id) as [r'|] eqn:Hr'.
    + apply prune_lookup in Hr' as [Hr' _]. congruence.
    + destruct Hid as [Hid|]; [|done]. exfalso.
      assert (reservations (prune_expired_reservations st inow).1 !! id = Some r);
        [|congruence].
      apply prune_lookup. split; [done|]. unfold keep_reservation. by rewrite Hid.
  - destruct (reservations (prune_expired_reservations st inow).1 !! id) as [r'|] eqn:Hr';
      [|done].
    apply prune_lookup in Hr' as [Hr' _]. congruence.
Qed.

Lemma host_not_pending st : room_wf st -> pending st (host_peer_id st) = false.
Proof. intros Hwf. unfold pending. by rewrite (wf_host_unreserved _ _ _ _ Hwf). Qed.

Lemma pending_not_authorized st id presented occupied resume :
  room_wf st -> pending st id = true ->
  join_authorized st id presented occupied resume = false.
Proof.
  intros Hwf Hp. unfold join_authorized. case_bool_decide as Hid.
  - rewrite Hid, host_not_pending in Hp by done. done.
  - unfold pending in Hp. destruct (reservations st !! id); [|done]. by rewrite Hp.
Qed.

Lemma admit_pending_frame st id adm cancel :
  pending st id = false -> pending_frame st (admit_peer st id adm cancel).1.
Proof.
  intros Hid id' Hp'. split; [done|]. unfold conn_of. simpl.
  rewrite lookup_insert_ne; [done|]. intros ->. unfold pending in *. simpl in Hp'.
  by destruct Hp'; rewrite Hid in *.
Qed.

(** Writing a reservation that is not pending over one that is not. *)
Lemma set_reservation_pending_frame st id r :
  pending st id = false -> pr_release_pending r = false ->
  pending_frame st (set_reservations st (<[id := r]> (reservations st))).
Proof.
  intros Hid Hr id' Hp'. split; [|done]. unfold pending in *; simpl in *.
  destruct (decide (id = id')) as [->|]; simplify_map_eq; [|done].
  by rewrite Hr, Hid in *.
Qed.

Lemma join_pending_frame st msg adm resume now inow cancel :
  room_wf st -> pending_frame st (join_or_resume st msg adm resume now inow cancel).1.
Proof.
  intros Hwf. unfold join_or_resume. destruct (closing st); [by intros ?|].
  eapply pending_frame_trans; [apply (prune_pending_frame _ inow)|].
  apply (prune_wf _ inow) in Hwf.
  set (stp := (prune_expired_reservations st inow).1) in *. clearbody stp.
  destruct (join_authorized _ _ _ _ _) eqn:Hauth; [|by intros ?]. simpl.
  destruct (_ && _); [by intros ?|]. cbn [fst snd].
  assert (pending stp (adm_peer_id adm) = false) as Hp.
  { destruct (pending _ _) eqn:Hp; [|done].
    by rewrite pending_not_authorized in Hauth. }
  eapply pending_frame_trans; [by apply (admit_pending_frame stp (adm_peer_id adm) adm cancel)|].
  case_bool_decide; [done|].
  by eapply (set_reservation_pending_frame
              (admit_peer stp (adm_peer_id adm) adm cancel).1 (adm_peer_id adm)).
Qed.

Lemma transfer_pending_frame st id c v target :
  room_wf st -> pending_frame st (transfer_host st id c v target).1.
Proof.
  intros Hwf. unfold transfer_host.
  destruct (_ || _); [done|]. destruct (id != _) eqn:Hid; [done|].
  destruct (_ || _) eqn:Htarget; [done|]. destruct (is_reserved st target) eqn:Hres; [|done].
  destruct (can_transfer_host_to _ _); [|done]. simpl.
  destruct (reservations st !! target) as [r|] eqn:Hr; [|done].
  unfold is_reserved in Hres. rewrite Hr in Hres.
  intros id' Hp'. split; [|done]. pose proof (host_not_pending _ Hwf) as Hhost.
  unfold pending in *. simpl in *.
  destruct (decide (id' = host_peer_id st)) as [->|]; simplify_map_eq.
  { by destruct (reservations st !! host_peer_id st). }
  destruct (decide (id' = target)) as [->|]; simplify_map_eq; [|done].
  to_prop. destruct Hp'; congruence.
Qed.

Lemma disconnect_pending_frame st id c now inow :
  ~ (conn_of st id = Some c /\ pending st id = true) ->
  pending_frame st (handle_disconnect st id c now inow).1.
Proof.
  intros Hidle. unfold handle_disconnect.
  destruct (_ || _) eqn:Hcur; [done|]. to_prop. apply is_current_conn_of in H2.
  assert (pending st id = false) as Hp by (destruct (pending st id); naive_solver).
  intros id' Hp'. unfold pending, conn_of in *.
  case_bool_decide; simpl in *.
  - destruct (decide (id' = id)) as [->|]; simplify_map_eq; [|done].
    destruct Hp'; congruence.
  - destruct (decide (id' = id)) as [->|]; simplify_map_eq; [|done].
    destruct (reservations st !! id); simpl in *; destruct Hp'; congruence.
Qed.
(** The operations that only look at the room, or write fields that no
    pending [leave] reads. *)
Lemma closing_apply st ev :
  closing st = true -> closing (room_apply st ev) = true.
Proof.
  intros Hc. destruct ev; cbn [room_apply]; try done;
    unfold begin_leave, finish_leave, begin_end_session, finish_end_session,
      transfer_host, broadcast, send_to, handle_disconnect, join_or_resume, reconnect_host;
    rewrite ?Hc; simpl; repeat case_match; by simplify_eq/=.
Qed.

Lemma room_apply_pending_frame st ev :
  room_wf st -> closing (room_apply st ev) = false ->
  (forall id c, event_conn ev = Some (id, c) ->
     ~ (conn_of st id = Some c /\ pending st id = true)) ->
  match ev with
  | EvBeginLeave _ _ _ _ | EvFinishLeave _ _ _ _ | EvFinishEnd _ _ => True
  | _ => closing st = false -> pending_frame st (room_apply st ev)
  end.
Proof.
  intros Hwf Hclosing Hidle. destruct ev; cbn [room_apply event_conn] in *; try done;
    intros Hopen.
  - apply admit_pending_frame with (id := host_peer_id st), host_not_pending, Hwf.
  - by apply join_pending_frame.
  - revert Hclosing. unfold begin_end_session.
    by repeat case_match; intros ?; [apply pending_frame_refl..|].
  - by apply transfer_pending_frame.
  - unfold broadcast. by repeat case_match.
  - unfold send_to. by repeat case_match.
  - apply disconnect_pending_frame. auto.
  - apply prune_pending_frame.
  - by destruct drop_peers.
Qed.

Lemma leaving_ok_frame run st' :
  leaving_ok run -> closing (rr_state run) = false ->
  pending_frame (rr_state run) st' ->
  leaving_ok {| rr_state := st'; rr_leaving := rr_leaving run |}.
Proof.
  intros Hok Hopen Hframe _. destruct (Hok Hopen) as [Hiff Hpend]. simpl. split.
  - intros id c. rewrite Hiff. split; intros [Hc Hp];
      destruct (Hframe id) as [Hp' Hc']; auto; split; congruence.
  - intros id Hp. destruct (Hframe id) as [Hp' Hc']; [by right|].
    rewrite Hc'. apply Hpend. congruence.
Qed.

(** The two phases of [leave]. *)
Lemma begin_leave_Ok st id c token v :
  (begin_leave st id c token v).2 = Ok tt ->
  closing st = false /\ conn_of st id = Some c /\ id ≠ host_peer_id st
  /\ pending st id = false
  /\ (exists r, reservations st !! id = Some r /\ pr_release_pending r = false
        /\ from_token token = Some (pr_verifier r))
  /\ (begin_leave st id c token v).1 =
     set_reservations st
       (alter (fun res => set_release_pending res true) id (reservations st)).
Proof.
  unfold begin_leave, pending.
  destruct (_ || _) eqn:Hgate; [done|].
  destruct (reservations st !! id) as [r|] eqn:Hr; [|done].
  destruct (_ && _) eqn:Hauth; [|done]. intros _. simpl.
  apply andb_true_iff in Hauth as [Hp Hv]. apply matches_presented_true in Hv. to_prop.
  split_and!; auto; [by apply is_current_conn_of | by exists r].
Qed.

Lemma begin_leave_Err st id c token v e :
  (begin_leave st id c token v).2 = Err e -> (begin_leave st id c token v).1 = st.
Proof. unfold begin_leave. by repeat case_match. Qed.
Lemma leaving_ok_begin run id c token v :
  leaving_ok run -> (begin_leave (rr_state run) id c token v).2 = Ok tt ->
  leaving_ok {| rr_state := (begin_leave (rr_state run) id c token v).1;
                rr_leaving := {[ (id, c) ]} ∪ rr_leaving run |}.
Proof.
  intros Hok (Hopen & Hc & _ & Hp & (r & Hr & _) & ->)%begin_leave_Ok _.
  destruct (Hok Hopen) as [Hiff Hpend]. cbn [rr_state rr_leaving].
  assert (forall id', pending (set_reservations (rr_state run)
            (alter (fun res => set_release_pending res true) id
               (reservations (rr_state run)))) id'
          = if decide (id' = id) then true else pending (rr_state run) id') as Hpending.
  { intros id'. unfold pending. simpl. destruct (decide (id' = id)) as [->|].
    - by rewrite lookup_alter_eq, Hr.
    - by rewrite lookup_alter_ne. }
  split.
  - intros id' c'. rewrite Hpending, elem_of_union, elem_of_singleton, Hiff.
    change (conn_of (set_reservations _ _) id') with (conn_of (rr_state run) id').
    destruct (decide (id' = id)) as [->|]; [|naive_solver]. split.
    + intros [[= ->]|[? ?]]; [done|]. congruence.
    + intros [? _]. left. congruence.
  - intros id'. rewrite Hpending.
    change (conn_of (set_reservations _ _) id') with (conn_of (rr_state run) id').
    destruct (decide (id' = id)) as [->|]; [|by apply Hpend]. by rewrite Hc.
Qed.

Lemma leaving_ok_finish run id c persisted now :
  leaving_ok run -> (id, c) ∈ rr_leaving run ->
  leaving_ok {| rr_state := (finish_leave (rr_state run) id c persisted now).1;
                rr_leaving := rr_leaving run ∖ {[ (id, c) ]} |}.
Proof.
  intros Hok Hin. destruct (closing (rr_state run)) eqn:Hopen.
  { intros Hc. pose proof (closing_apply _ (EvFinishLeave id c persisted now) Hopen) as Hc'.
    simpl in Hc'. cbn [rr_state] in Hc. congruence. }
  intros _. destruct (Hok Hopen) as [Hiff Hpend]. apply Hiff in Hin as Hcur.
  destruct Hcur as [Hc Hp]. cbn [rr_state rr_leaving].
  set (st' := (finish_leave _ _ _ _ _).1).
  assert (forall id', pending st' id' = if decide (id' = id) then false
                                        else pending (rr_state run) id') as Hpending.
  { intros id'. subst st'. unfold finish_leave.
    unfold is_current. fold (conn_of (rr_state run) id).
    rewrite Hc, bool_decide_eq_true_2 by done. unfold pending in *. rewrite Hp.
    destruct persisted; simpl; destruct (decide (id' = id)) as [->|]; simplify_map_eq; try done.
    by destruct (reservations _ !! id). }
  assert (forall id', id' ≠ id -> conn_of st' id' = conn_of (rr_state run) id') as Hconn.
  { intros id' Hne. subst st'. unfold finish_leave, conn_of.
    destruct (negb _); [done|]. destruct persisted; [|done]. simpl.
    by rewrite lookup_delete_ne. }
  split.
  - intros id' c'. rewrite Hpending, elem_of_difference, elem_of_singleton, Hiff.
    destruct (decide (id' = id)) as [->|Hne]; [|rewrite Hconn by done; naive_solver].
    split; [|naive_solver]. intros [[? _] Hne]. destruct Hne. congruence.
  - intros id'. rewrite Hpending. destruct (decide (id' = id)); [done|].
    intros. rewrite Hconn by done. by apply Hpend.
Qed.

Lemma leaving_ok_step run ev run' :
  room_wf (rr_state run) -> leaving_ok run -> room_step run ev run' -> leaving_ok run'.
Proof.
  intros Hwf Hok [Hallowed].
  destruct (closing (room_apply (rr_state run) ev)) eqn:Hclosing.
  { intros Hopen. cbn [rr_state] in Hopen. congruence. }
  assert (closing (rr_state run) = false) as Hopen.
  { destruct (closing (rr_state run)) eqn:Hc; [|done].
    by rewrite (closing_apply _ ev Hc) in Hclosing. }
  assert (forall id c, event_conn ev = Some (id, c) ->
     ~ (conn_of (rr_state run) id = Some c /\ pending (rr_state run) id = true)) as Hidle.
  { intros id c Hev Hcp. apply (proj1 (Hok Hopen)) in Hcp. revert Hallowed.
    destruct ev; simplify_eq/=; intros Hallowed; by apply Hallowed. }
  pose proof (room_apply_pending_frame _ ev Hwf Hclosing Hidle) as Hframe.
  destruct ev; try (by apply leaving_ok_frame; auto).
  - cbn [room_apply leaving_after].
    destruct (begin_leave _ _ _ _ _).2 as [[]|e] eqn:Hbegin.
    + by apply leaving_ok_begin.
    + rewrite (begin_leave_Err _ _ _ _ _ _ Hbegin). by destruct run.
  - by apply leaving_ok_finish.
  - simpl in Hallowed. congruence.
Qed.
End leaving.
