(* ===== verification/RoomThms.v ===== *)
(** * What a room guarantees

    The theorems about [Room.v]: the invariant of every reachable room, the
    decision of each handler on every branch, the life of an identity
    (admission, absence, release, transfer) and what the other peers are
    told. *)
From S2P Require Import Prelude.
From S2P Require Import Protocol.
From S2P Require Import Ids.
From S2P Require Import Samples.
From S2P Require Import HostTransfer.
From S2P Require Import Room.
From S2P Require Import RoomInv.

#[local] Arguments Nat.leb : simpl never.
#[local] Arguments Nat.sub : simpl never.

(** ** Vocabulary of the statements *)

(** The identities a room knows, with the verifier that proves each: the host
    and every reserved guest. *)
Definition identities (st : RoomState) : gmap string Verifier :=
  <[host_peer_id st := host_verifier st]> (pr_verifier <$> reservations st).

Section vocabulary.
Context `{HashIter} `{CryptoLib}.

(** Any number of events, counted. *)
Inductive room_steps : N -> RoomRun -> RoomRun -> Prop :=
| steps_refl run : room_steps 0 run run
| steps_step n run run' run'' ev :
    room_steps n run run' -> room_step run' ev run'' -> room_steps (n + 1) run run''.

(** Peers (other than [exclude]) and the message each is sent. *)
Definition sent_to_others (st : RoomState) (exclude : string) (msg : ServerMessage)
    (obs : list Outbound) : Prop :=
  exists ids, NoDup ids
    /\ (forall id, id ∈ ids <-> is_Some (peers st !! id) /\ id ≠ exclude)
    /\ Forall2 (fun id ob => ob_msg ob = msg
                 /\ exists p, peers st !! id = Some p /\ cp_tx p = ob_tx ob) ids obs.

(** The eligibility messages owed for the current roster. *)
Definition eligibility_broadcast (st : RoomState) : list Outbound :=
  eff_broadcast (append_host_transfer_eligibility st default_effects).
End vocabulary.

(** ** The invariant of reachable rooms *)

Section invariant.
Context `{HashIter} `{CryptoLib} `{!CryptoLaws _}.

Lemma reachable_invariant n run :
  room_reachable n run -> (n + 3 < u64_modulus)%N ->
  room_wf (rr_state run) /\ leaving_ok run /\ (next_conn_id (rr_state run) <= n + 2)%N.
Proof.
  intros Hreach. induction Hreach as [| |n run ev run' Hreach IH Hstep]; intros Hn.
  - split_and!; [apply new_room_wf| |done]. intros _. simpl. split.
    + intros id' c'. unfold pending; simpl. rewrite lookup_empty. set_solver.
    + intros id'. unfold pending; simpl. by rewrite lookup_empty.
  - split_and!; [by apply restore_wf| |done].
    assert (forall id, pending (restore sid host hv owner restored created last_at) id = false)
      as Hp.
    { intros id. unfold pending; simpl. rewrite lookup_fmap. by destruct (restored !! id). }
    intros _. split; intros id; cbn [rr_state rr_leaving]; rewrite Hp; set_solver.
  - destruct IH as (Hwf & Hok & Hnext); [lia|].
    split_and!; [|by eapply leaving_ok_step|]; destruct Hstep as [_]; cbn [rr_state].
    + apply room_wf_apply; [done | lia].
    + pose proof (next_conn_id_apply (rr_state run) ev ltac:(lia)). lia.
Qed.

Lemma room_wf_peers_bound st : room_wf st -> size (peers st) <= MAX_ROOM_SIZE.
Proof.
  intros [Hh Hcap Hconn _ _].
  trans (size (<[host_peer_id st := host_verifier st]> (pr_verifier <$> reservations st))).
  - apply size_dom_le. intros id [p Hp]%elem_of_dom. apply elem_of_dom.
    destruct (Hconn _ _ Hp) as [->|(r & Hr & _)]; [by rewrite lookup_insert_eq|].
    destruct (decide (id = host_peer_id st)) as [->|]; [by rewrite lookup_insert_eq|].
    rewrite lookup_insert_ne, lookup_fmap, Hr by done. eauto.
  - rewrite map_size_insert_None by (by rewrite lookup_fmap, Hh).
    rewrite map_size_fmap. unfold MAX_ROOM_SIZE in *. lia.
Qed.

(** C5: a room created by [new_room] or restored from a valid snapshot entry
    keeps its tables consistent through every sequence of operations (fewer
    than [2^64 - 3] of them, so that no connection id is reused): the host
    holds no guest reservation, at most 7 guests are reserved and at most 8
    peers are connected, a connected guest is reserved with its grace clock
    stopped, connection ids are unique and below the next one; and while the
    room is open, an identity is release-pending exactly while the
    connection occupying it is between the two phases of its [leave]. *)
Theorem room_reachable_wf n run :
  room_reachable n run -> (n + 3 < u64_modulus)%N ->
  room_wf (rr_state run)
  /\ size (peers (rr_state run)) <= MAX_ROOM_SIZE
  /\ (closing (rr_state run) = false -> forall id,
        pending (rr_state run) id = true <->
        exists c, (id, c) ∈ rr_leaving run /\ conn_of (rr_state run) id = Some c).
Proof.
  intros Hreach Hn. destruct (reachable_invariant _ _ Hreach Hn) as (Hwf & Hok & _).
  split_and!; [done | by apply room_wf_peers_bound|].
  intros Hopen id. destruct (Hok Hopen) as [Hiff Hpend]. split.
  - intros Hp. destruct (Hpend _ Hp) as [c Hc]. exists c. by rewrite Hiff.
  - intros (c & Hin & _). by apply Hiff in Hin as [_ ?].
Qed.
End invariant.

(** ** Broadcasts *)

Section broadcasts.
Context `{HashIter} `{CryptoLib}.
Implicit Types (st : RoomState) (e : Effects) (msg : ServerMessage) (id : string).

Lemma push_broadcast_nil e : push_broadcast e [] = e.
Proof. destruct e. unfold push_broadcast; simpl. by rewrite app_nil_r. Qed.

Lemma append_eligibility st e :
  append_host_transfer_eligibility st e = push_broadcast e (eligibility_broadcast st).
Proof.
  unfold eligibility_broadcast, append_host_transfer_eligibility.
  destruct (compute_eligibility _ _ _) as [[recipients targets]|]; [done|].
  by rewrite push_broadcast_nil.
Qed.

(** The messages [broadcast_except] queues. *)
Definition others_outbound st exclude msg : list Outbound :=
  (fun kp => {| ob_tx := cp_tx kp.2; ob_msg := msg |})
    <$> List.filter (fun kp => kp.1 != exclude) (hm_iter (peers st)).

Lemma broadcast_except_push st exclude msg e :
  broadcast_except st exclude msg e = push_broadcast e (others_outbound st exclude msg).
Proof. done. Qed.

Lemma others_keys st exclude id :
  id ∈ (List.filter (fun kp => kp.1 != exclude) (hm_iter (peers st))).*1 <->
  is_Some (peers st !! id) /\ id ≠ exclude.
Proof.
  rewrite list_elem_of_fmap. split.
  - intros ([k p] & -> & Hin). apply list_elem_of_In, List.filter_In in Hin as [Hin Hne].
    apply list_elem_of_In, elem_of_hm_iter in Hin. simpl in *. to_prop. eauto.
  - intros [[p Hp] Hne]. exists (id, p). split; [done|].
    apply list_elem_of_In, List.filter_In. split.
    + by apply list_elem_of_In, elem_of_hm_iter.
    + by apply negb_true_iff, bool_decide_eq_false.
Qed.

Lemma filter_keys_NoDup {A} (f : string * A -> bool) (l : list (string * A)) :
  NoDup l.*1 -> NoDup (List.filter f l).*1.
Proof.
  induction l as [|[k p] l IH]; [done|]. rewrite fmap_cons, NoDup_cons.
  intros [Hk Hnd]. simpl. destruct (f (k, p)); [|by apply IH].
  rewrite fmap_cons, NoDup_cons. split; [|by apply IH].
  intros ([k' p'] & Heq & Hin)%list_elem_of_fmap. simpl in Heq; subst k'. apply Hk.
  apply list_elem_of_In, List.filter_In in Hin as [Hin _].
  apply list_elem_of_fmap. exists (k, p'). by rewrite list_elem_of_In.
Qed.

Lemma others_outbound_sent st exclude msg :
  sent_to_others st exclude msg (others_outbound st exclude msg).
Proof.
  exists (List.filter (fun kp => kp.1 != exclude) (hm_iter (peers st))).*1. split_and!.
  - apply filter_keys_NoDup, hm_keys_NoDup.
  - apply others_keys.
  - unfold others_outbound. apply Forall2_fmap, Forall_Forall2_diag, Forall_forall.
    intros [k p] Hin. simpl. split; [done|]. exists p. split; [|done].
    apply list_elem_of_In, List.filter_In in Hin as [Hin _].
    by apply elem_of_hm_iter, list_elem_of_In.
Qed.

(** The roster an admission reply names. *)
Lemma other_keys_spec {A} (m : gmap string A) id id' :
  id' ∈ List.filter (fun k => k != id) (hm_keys m) <-> is_Some (m !! id') /\ id' ≠ id.
Proof.
  rewrite list_elem_of_In, List.filter_In, <- list_elem_of_In, elem_of_hm_keys.
  by rewrite negb_true_iff, bool_decide_eq_false.
Qed.
End broadcasts.

#[export] Hint Resolve others_outbound_sent : relay.

(** ** Joining and resuming *)

Section joining.
Context `{HashIter} `{CryptoLib} `{!CryptoLaws _}.
Implicit Types (st : RoomState) (id : string).

(** Abstract specification of admission, over the identities alone: a known
    identity is admitted on the proof of its verifier unless it is being
    released; an unknown one only by [join], with a well-formed token, and
    while a guest slot is free. *)
Inductive join_verdict := VRoomNotFound | VUnavailable | VFull | VAdmit.

Definition join_spec st id (presented : option Verifier) (resume_only : bool) : join_verdict :=
  if closing st then VRoomNotFound
  else match identities st !! id with
       | Some v => if (presented == Some v) && negb (pending st id) then VAdmit
                   else VUnavailable
       | None => if resume_only || (presented == None) then VUnavailable
                 else if MAX_ROOM_SIZE - 1 <=? size (reservations st) then VFull
                 else VAdmit
       end.

Lemma identities_host st : identities st !! host_peer_id st = Some (host_verifier st).
Proof. apply lookup_insert_eq. Qed.

Lemma identities_guest st id :
  id ≠ host_peer_id st -> identities st !! id = pr_verifier <$> reservations st !! id.
Proof. intros. unfold identities. by rewrite lookup_insert_ne, lookup_fmap. Qed.

Lemma matches_presented_bool v presented :
  matches_presented v presented = (presented == Some v).
Proof.
  apply eq_true_iff_eq. by rewrite matches_presented_true, bool_decide_eq_true.
Qed.

(** The two gates of [join_or_resume], read through [identities]. *)
Lemma join_gates st id presented resume :
  room_wf st -> closing st = false ->
  match join_spec st id presented resume with
  | VRoomNotFound => False
  | VUnavailable =>
    join_authorized st id presented (contains_key (peers st) id) resume = false
  | VFull =>
    join_authorized st id presented (contains_key (peers st) id) resume = true
    /\ negb (contains_key (peers st) id)
       && ((id != host_peer_id st) && bool_decide (reservations st !! id = None))
       && (MAX_ROOM_SIZE - 1 <=? size (reservations st)) = true
  | VAdmit =>
    join_authorized st id presented (contains_key (peers st) id) resume = true
    /\ negb (contains_key (peers st) id)
       && ((id != host_peer_id st) && bool_decide (reservations st !! id = None))
       && (MAX_ROOM_SIZE - 1 <=? size (reservations st)) = false
    /\ is_Some presented
  end.
Proof.
  intros Hwf Hopen. unfold join_spec, join_authorized. rewrite Hopen, !matches_presented_bool.
  destruct (decide (id = host_peer_id st)) as [->|Hid].
  - rewrite identities_host, host_not_pending by done.
    rewrite (bool_decide_eq_true_2 (host_peer_id st = host_peer_id st)) by done.
    rewrite andb_true_r. simpl. rewrite andb_false_r. simpl.
    case_bool_decide; subst; eauto.
  - rewrite identities_guest, (bool_decide_eq_false_2 (id = host_peer_id st)) by done.
    unfold pending. destruct (reservations st !! id) as [r|] eqn:Hr; simpl.
    + rewrite matches_presented_bool, andb_comm, andb_false_r. simpl.
      destruct (negb (pr_release_pending r)); simpl; [|done].
      case_bool_decide; subst; eauto.
    + assert (contains_key (peers st) id = false) as ->.
      { apply contains_key_false. destruct (peers st !! id) eqn:Hp; [|done].
        destruct (wf_connected _ _ _ _ Hwf _ _ Hp) as [?|(? & ? & _)]; congruence. }
      simpl. destruct resume; [done|]. destruct presented as [v|]; simpl; [|done].
      destruct (_ <=? _); simpl; eauto.
Qed.

Lemma join_spec_admit st id presented resume :
  join_spec st id presented resume = VAdmit <->
  closing st = false /\ exists v, presented = Some v
    /\ (identities st !! id = Some v /\ pending st id = false
        \/ identities st !! id = None /\ resume = false
           /\ size (reservations st) < MAX_ROOM_SIZE - 1).
Proof.
  unfold join_spec. destruct (closing st); [naive_solver|].
  destruct (identities st !! id) as [v|].
  - case_bool_decide; simpl; [|naive_solver]. destruct (pending st id); naive_solver.
  - destruct resume; simpl; [naive_solver|]. destruct presented as [v|]; simpl; [|naive_solver].
    destruct (MAX_ROOM_SIZE - 1 <=? _) eqn:Hfull; to_prop;
      (split; [|intros (_ & w & [= <-] & [[? _]|(_ & _ & ?)])]); [done|done|lia| |done|done].
    intros _. split; [done|]. exists v. split; [done|]. right. by split_and!.
Qed.

Lemma join_spec_host st id v resume :
  join_spec st id (Some v) resume = VAdmit -> id = host_peer_id st -> v = host_verifier st.
Proof.
  intros (_ & w & [= <-] & [[Hv _]|[Hnone _]])%join_spec_admit ->;
    rewrite identities_host in *; congruence.
Qed.

(** The peer and the reservation an admission installs. *)
Definition admitted_peer st (adm : Admission) (cancel : CancellationToken) : ConnectedPeer :=
  {| cp_tx := adm_tx adm;
     cp_sync_protocol_version := adm_sync_protocol_version adm;
     cp_host_transfer_capable := adm_host_transfer_capable adm;
     cp_conn_id := next_conn_id st;
     cp_cancel := cancel |}.

Definition fresh_reservation (v : Verifier) : PeerReservation :=
  {| pr_verifier := v; pr_absent_since := None; pr_release_pending := false |}.

(** What a successful admission of [id] with verifier [v] does to the state,
    and what it answers. *)
Definition admission_post st st' (e : Effects) (msg : ClientMessage) (adm : Admission)
    (resume : bool) (now : SystemTime) (cancel : CancellationToken) (v : Verifier) : Prop :=
  let id := adm_peer_id adm in
  peers st' = <[id := admitted_peer st adm cancel]> (peers st)
  /\ reservations st' = (if id == host_peer_id st then reservations st
                         else <[id := fresh_reservation v]> (reservations st))
  /\ identities st' = <[id := v]> (identities st)
  /\ host_peer_id st' = host_peer_id st /\ closing st' = false
  /\ last_activity_at st' = now
  /\ (exists roster,
        (forall id', id' ∈ roster <-> is_Some (peers st !! id') /\ id' ≠ id)
        /\ eff_reply e = Some (admitted_reply
             (if resume then server_type.RESUMED else server_type.JOINED)
             (session_id st) (host_peer_id st) (cm_reconnect_token msg) (Some roster)))
  /\ eff_assigned_conn_id e = Some (next_conn_id st)
  /\ eff_assigned_cancel e = Some cancel
  /\ eff_evict e = evict_old (peers st !! id)
  /\ (exists joined, sent_to_others st' id (peer_joined id) joined
        /\ eff_broadcast e = joined ++ eligibility_broadcast st')
  /\ eff_dirty e = true.

(** The outcome the specification asks for, verdict by verdict. *)
Definition join_outcome st pruned (out : RoomState * Effects) (msg : ClientMessage)
    (adm : Admission) (resume : bool) (now : SystemTime) (cancel : CancellationToken) : Prop :=
  match join_spec pruned (adm_peer_id adm) (from_token (cm_reconnect_token msg)) resume with
  | VRoomNotFound => out = (st, effects_error RoomNotFound "Room does not exist")
  | VUnavailable => out = (pruned, effects_error PeerIdUnavailable "Peer ID is unavailable")
  | VFull => out = (pruned, effects_error RoomFull "Room is full")
  | VAdmit => exists v, from_token (cm_reconnect_token msg) = Some v
      /\ admission_post pruned out.1 out.2 msg adm resume now cancel v
  end.

Lemma join_or_resume_post st msg adm resume now inow cancel :
  room_wf st ->
  join_outcome st (prune_expired_reservations st inow).1
    (join_or_resume st msg adm resume now inow cancel) msg adm resume now cancel.
Proof.
  intros Hwf. unfold join_outcome.
  set (presented := from_token (cm_reconnect_token msg)).
  set (pruned := (prune_expired_reservations st inow).1).
  apply (prune_wf _ inow) in Hwf. fold pruned in Hwf.
  unfold join_or_resume. fold pruned presented.
  replace (closing st) with (closing pruned) by done.
  destruct (closing pruned) eqn:Hopen.
  { unfold join_spec. by rewrite Hopen. }
  pose proof (join_gates pruned (adm_peer_id adm) presented resume Hwf Hopen) as Hgates.
  destruct (join_spec _ _ _ _) eqn:Hspec; [done|by rewrite Hgates|..].
  { destruct Hgates as [-> ->]. done. }
  destruct Hgates as (-> & -> & [v Hv]). exists v. split; [done|].
  rewrite Hv in Hspec |- *. pose proof (join_spec_host _ _ _ _ Hspec) as Hhost.
  unfold admit_peer. room_cbn. rewrite broadcast_except_push, append_eligibility.
  unfold admission_post. room_cbn.
  destruct (decide (adm_peer_id adm = host_peer_id pruned)) as [Hid|Hid].
  - rewrite !(bool_decide_eq_true_2 _ Hid). room_cbn.
    split_and!; try done.
    + rewrite (Hhost Hid). unfold identities; simpl.
      by rewrite Hid, insert_insert_eq.
    + eexists. split; [|done]. intros id'. rewrite other_keys_spec. room_cbn.
      destruct (decide (id' = adm_peer_id adm)) as [->|]; [naive_solver|].
      by rewrite lookup_insert_ne.
    + eexists. split; [|done]. apply others_outbound_sent.
  - rewrite !(bool_decide_eq_false_2 _ Hid). room_cbn.
    split_and!; try done.
    + unfold identities; simpl. rewrite fmap_insert, insert_insert_ne by done. done.
    + eexists. split; [|done]. intros id'. rewrite other_keys_spec. room_cbn.
      destruct (decide (id' = adm_peer_id adm)) as [->|]; [naive_solver|].
      by rewrite lookup_insert_ne.
    + eexists. split; [|done]. apply others_outbound_sent.
Qed.

(** C7: [join_or_resume] implements the admission specification.  After
    expired reservations are pruned, the verdict on the identities decides
    every call: a closing room answers [room_not_found] untouched; an
    unproved, pending or (on resume) unknown identity gets
    [peer_id_unavailable]; a new identity in a full room gets [room_full];
    and otherwise the connection is installed under a fresh connection id,
    the identity keeps or receives the presented verifier with its grace
    clock stopped, the replaced connection is evicted, the reply names the
    other connected peers, and each of them is told [peerJoined].  The
    caller is given a connection id exactly when it was admitted. *)
Theorem join_or_resume_spec st msg adm resume now inow cancel :
  room_wf st ->
  let pruned := (prune_expired_reservations st inow).1 in
  let out := join_or_resume st msg adm resume now inow cancel in
  join_outcome st pruned out msg adm resume now cancel
  /\ (is_Some (eff_assigned_conn_id out.2) <->
        join_spec pruned (adm_peer_id adm) (from_token (cm_reconnect_token msg)) resume = VAdmit).
Proof.
  intros Hwf pruned out.
  pose proof (join_or_resume_post st msg adm resume now inow cancel Hwf) as Hout.
  split; [exact Hout|]. revert Hout. unfold join_outcome. fold pruned out.
  destruct (join_spec _ _ _ _); try (intros ->; by split; [intros [? ?]|]).
  intros (v & _ & _ & _ & _ & _ & _ & _ & _ & -> & _). split; eauto.
Qed.
End joining.

(** ** Identities across events *)

Section identity.
Context `{HashIter} `{CryptoLib} `{!CryptoLaws _}.
Implicit Types (st : RoomState) (id : string).

Lemma identities_is_host st id :
  id = host_peer_id st -> identities st !! id = Some (host_verifier st).
Proof. intros ->. apply identities_host. Qed.

Lemma prune_identities st inow id v :
  identities (prune_expired_reservations st inow).1 !! id = Some v ->
  identities st !! id = Some v.
Proof.
  destruct (decide (id = host_peer_id st)) as [Hid|Hid].
  - by rewrite !identities_is_host.
  - rewrite !identities_guest by done.
    intros (r & [Hr _]%prune_lookup & ->)%fmap_Some. by rewrite Hr.
Qed.

(** A reservation [prune_expired_reservations] drops at [inow]: absent for
    the whole grace period, not connected, not being released. *)
Definition expired st (inow : Instant) id : Prop :=
  exists r t, reservations st !! id = Some r /\ pr_release_pending r = false
    /\ peers st !! id = None /\ pr_absent_since r = Some t
    /\ (PEER_RESERVATION_GRACE <= since inow t)%Z.

Lemma keep_reservation_false st inow id r :
  keep_reservation st inow id r = false <->
  pr_release_pending r = false /\ peers st !! id = None
  /\ exists t, pr_absent_since r = Some t /\ (PEER_RESERVATION_GRACE <= since inow t)%Z.
Proof.
  unfold keep_reservation. rewrite <- contains_key_false.
  destruct (pr_release_pending r), (contains_key _ _); simpl; [naive_solver..|].
  destruct (pr_absent_since r) as [t|]; [|naive_solver].
  rewrite Z.ltb_ge. naive_solver.
Qed.

Lemma prune_identities_None st inow id v :
  identities st !! id = Some v ->
  identities (prune_expired_reservations st inow).1 !! id = None ->
  expired st inow id.
Proof.
  destruct (decide (id = host_peer_id st)) as [Hid|Hid]; [by rewrite !identities_is_host|].
  rewrite !identities_guest by done.
  intros (r & Hr & ->)%fmap_Some Hnone%fmap_None.
  destruct (keep_reservation st inow id r) eqn:Hkeep.
  - assert (reservations (prune_expired_reservations st inow).1 !! id = Some r);
      [by apply prune_lookup | congruence].
  - apply keep_reservation_false in Hkeep as (? & ? & t & ? & ?). by exists r, t.
Qed.

(** Two states give no identity two different verifiers. *)
Definition identities_agree st st' : Prop :=
  forall id v v', identities st !! id = Some v -> identities st' !! id = Some v' -> v' = v.

Lemma agree_refl st : identities_agree st st.
Proof. intros id v v'. congruence. Qed.

Lemma agree_incl st st' :
  (forall id v, identities st' !! id = Some v -> identities st !! id = Some v) ->
  identities_agree st st'.
Proof. intros Hincl id v v' Hv Hv'%Hincl. congruence. Qed.

(** Dropping guest reservations, or rewriting them without their verifier. *)
Lemma agree_reservations st st' :
  host_peer_id st' = host_peer_id st -> host_verifier st' = host_verifier st ->
  (forall id r, reservations st' !! id = Some r -> exists r', reservations st !! id = Some r'
     /\ pr_verifier r = pr_verifier r') ->
  identities_agree st st'.
Proof.
  intros Hh Hv Hsub. apply agree_incl. intros id v.
  destruct (decide (id = host_peer_id st)) as [Hid|Hid].
  { rewrite !identities_is_host by congruence. congruence. }
  rewrite !identities_guest by congruence.
  intros (r & (r' & Hr' & ->)%Hsub & ->)%fmap_Some. by rewrite Hr'.
Qed.

Lemma alter_reservations_sub st id f :
  (forall r, pr_verifier (f r) = pr_verifier r) ->
  forall id' r, alter f id (reservations st) !! id' = Some r ->
  exists r', reservations st !! id' = Some r' /\ pr_verifier r = pr_verifier r'.
Proof.
  intros Hf id' r. rewrite lookup_alter_Some. intros [(-> & r' & Hr' & ->)|[_ Hr]]; eauto.
Qed.

Lemma join_agree st msg adm resume now inow cancel id v v' :
  room_wf st -> identities st !! id = Some v ->
  identities (join_or_resume st msg adm resume now inow cancel).1 !! id = Some v' ->
  v' = v \/ (adm_peer_id adm = id /\ expired st inow id).
Proof.
  intros Hwf Hv Hv'. pose proof (join_or_resume_post st msg adm resume now inow cancel Hwf) as Hspec.
  unfold join_outcome in Hspec. set (pruned := (prune_expired_reservations st inow).1) in *.
  destruct (join_spec _ _ _ _) eqn:Hverdict; try (rewrite Hspec in Hv'; cbn [fst] in Hv');
    [left; congruence | apply prune_identities in Hv'; left; congruence..|].
  destruct Hspec as (w & Hw & _ & _ & Hids & _). rewrite Hids in Hv'.
  apply lookup_insert_Some in Hv' as [[<- <-]|[_ Hv'%prune_identities]]; [|left; congruence].
  apply join_spec_admit in Hverdict as (_ & u & Hu & [[Hid _]|[Hid _]]).
  - left. apply prune_identities in Hid. congruence.
  - right. split; [done|]. by eapply prune_identities_None.
Qed.

(** The state a successful transfer to [target], reserved as [r], leads to:
    the old host becomes a reserved guest under its own verifier, and the
    target's reservation becomes the host authority. *)
Definition transferred st (target : string) (r : PeerReservation) : RoomState :=
  set_host
    (set_reservations st
       (<[host_peer_id st := fresh_reservation (host_verifier st)]>
          (delete target (reservations st))))
    target (pr_verifier r).

Definition transfer_effects st (old_host target : string) : Effects :=
  {| eff_reply := None;
     eff_broadcast :=
       ((fun p => {| ob_tx := cp_tx p;
                     ob_msg := host_changed_message (session_id st) target old_host |})
          <$> hm_values (peers st)) ++ eligibility_broadcast st;
     eff_evict := []; eff_dirty := true;
     eff_assigned_conn_id := None; eff_assigned_cancel := None |}.

Lemma transfer_host_inv st id c v target :
  (exists err text, transfer_host st id c v target = (st, effects_error err text)
     /\ err ∈ [PeerIdUnavailable; NotHost; PeerNotFound; HostTransferUnavailable])
  \/ (closing st = false /\ conn_of st id = Some c /\ v = RELAY_PROTOCOL_VERSION
      /\ id = host_peer_id st /\ valid_id target MAX_PEER_ID_LENGTH = true
      /\ target ≠ id /\ can_transfer_host_to st target = true
      /\ exists r, reservations st !! target = Some r /\ pr_release_pending r = false
         /\ transfer_host st id c v target =
            (transferred st target r,
             transfer_effects (transferred st target r) (host_peer_id st) target)).
Proof.
  unfold transfer_host.
  if_case Hgate; [left; do 2 eexists; split; [done|set_solver]|].
  if_case Hid; [left; do 2 eexists; split; [done|set_solver]|].
  if_case Htgt; [left; do 2 eexists; split; [done|set_solver]|].
  if_case Hres; [left; do 2 eexists; split; [done|set_solver]|].
  if_case Hcan; [left; do 2 eexists; split; [done|set_solver]|].
  right. room_cbn. unfold is_reserved in Hres.
  destruct (reservations st !! target) as [r|] eqn:Hr; [|done]. to_prop.
  split_and!; try done; [by apply is_current_conn_of|].
  exists r. split_and!; [done..|]. rewrite append_eligibility. done.
Qed.

Lemma transferred_identities st target r :
  room_wf st -> reservations st !! target = Some r ->
  identities (transferred st target r) = identities st.
Proof.
  intros Hwf Hr. assert (target ≠ host_peer_id st) as Hne.
  { intros ->. by rewrite (wf_host_unreserved _ _ _ _ Hwf) in Hr. }
  unfold identities, transferred. room_cbn. apply map_eq. intros id.
  destruct (decide (id = target)) as [->|Hid].
  - by rewrite lookup_insert_eq, lookup_insert_ne, lookup_fmap, Hr.
  - rewrite lookup_insert_ne, fmap_insert by done.
    destruct (decide (id = host_peer_id st)) as [->|]; [by rewrite !lookup_insert_eq|].
    by rewrite !lookup_insert_ne, !lookup_fmap, lookup_delete_ne.
Qed.

Lemma transfer_agree st id c v target :
  room_wf st -> identities_agree st (transfer_host st id c v target).1.
Proof.
  intros Hwf. destruct (transfer_host_inv st id c v target)
    as [(err & text & -> & _)|(_ & _ & _ & _ & _ & _ & _ & r & Hr & _ & ->)];
    [apply agree_refl|].
  apply agree_incl. cbn [fst]. by rewrite transferred_identities.
Qed.

Lemma apply_agree st ev :
  room_wf st -> match ev with EvJoin _ _ _ _ _ _ => False | _ => True end ->
  identities_agree st (room_apply st ev).
Proof.
  intros Hwf Hev. destruct ev; try done; cbn [room_apply]; try (by apply transfer_agree);
    unfold reconnect_host, begin_leave, finish_leave, begin_end_session, finish_end_session,
      broadcast, send_to, handle_disconnect, prune_expired_reservations, admit_peer;
    repeat case_match; simplify_eq/=; try apply agree_refl;
    (apply agree_reservations; [done..|]); try (by apply alter_reservations_sub);
    cbn [fst]; room_cbn; intros id r Hr; try (by exists r).
  all: first [ apply lookup_delete_Some in Hr as [_ ?] | by apply lookup_empty_Some in Hr
             | apply map_lookup_filter_Some in Hr as [? _] ]; by exists r.
Qed.

(** C13: nobody can take over an identity.  Across any operation on a room, an
    identity that stays known keeps the verifier that proves it, even when
    it moves between guest and host; the one exception is a [join] that
    re-allocates a guest identity whose grace period has run out. *)
Theorem identity_verifier_stable st ev id v v' :
  room_wf st ->
  identities st !! id = Some v ->
  identities (room_apply st ev) !! id = Some v' ->
  v' = v \/
  exists msg adm now inow cancel resume,
    ev = EvJoin msg adm resume now inow cancel /\ adm_peer_id adm = id /\ expired st inow id.
Proof.
  intros Hwf Hv Hv'. destruct ev as [|msg adm resume now inow cancel| | | | | | | | | |];
    try (by left; eapply apply_agree; eauto).
  destruct (join_agree _ _ _ _ _ _ _ _ _ _ Hwf Hv Hv') as [?|[? ?]]; [by left|right].
  by exists msg, adm, now, inow, cancel, resume.
Qed.
End identity.
