(* ===== verification/RoomLife.v ===== *)
(** * The life of a membership

    Releasing an identity ([leave]), ending the room ([endSession]), moving the
    host authority, losing the connection, and what a stale connection can
    still do (nothing). *)
From S2P Require Import Prelude.
From S2P Require Import Protocol.
From S2P Require Import Ids.
From S2P Require Import HostTransfer.
From S2P Require Import Room.
From S2P Require Import RoomInv.
From S2P Require Import RoomThms.

#[local] Arguments Nat.leb : simpl never.
#[local] Arguments Nat.sub : simpl never.

(** ** Stale connections *)

Section stale.
Context `{HashIter} `{CryptoLib} `{!CryptoLaws _}.
Implicit Types (st : RoomState) (id : string) (c : N).

Lemma not_current st id c : conn_of st id ≠ Some c -> is_current st id c = false.
Proof. intros Hne. by apply bool_decide_eq_false. Qed.

(** Nothing a connection that does not occupy its identity asks for has any
    effect: the state is unchanged, nobody else is sent anything, and no
    connection is closed. *)
Definition powerless st id c : Prop :=
  (forall token v, exists e, begin_leave st id c token v = (st, Err e)
     /\ eff_broadcast e = [] /\ eff_evict e = [])
  /\ (forall token v, exists e, begin_end_session st id c token v = (st, Err e)
     /\ eff_broadcast e = [] /\ eff_evict e = [])
  /\ (forall v target, exists e, transfer_host st id c v target = (st, e)
     /\ eff_broadcast e = [] /\ eff_evict e = [])
  /\ (forall payload now, broadcast st id c payload now = (st, default_effects))
  /\ (forall target payload now, send_to st id c target payload now = (st, default_effects))
  /\ (forall persisted now, finish_leave st id c persisted now = (st, default_effects))
  /\ (forall now inow, handle_disconnect st id c now inow = (st, default_effects)).

Lemma not_current_powerless st id c : conn_of st id ≠ Some c -> powerless st id c.
Proof.
  intros Hcur%not_current.
  split_and!; intros;
    unfold begin_leave, begin_end_session, transfer_host, broadcast, send_to, finish_leave,
      handle_disconnect;
    rewrite Hcur, ?orb_true_r, ?andb_false_r; simpl; rewrite ?orb_true_r; eauto.
Qed.

(** A connection id that is not current and already issued is never issued
    again. *)
Lemma admit_conn_of st id adm cancel id' c :
  conn_of (admit_peer st id adm cancel).1 id' = Some c ->
  c = next_conn_id st \/ conn_of st id' = Some c.
Proof.
  unfold conn_of, admit_peer. room_cbn.
  destruct (decide (id' = id)) as [->|].
  - rewrite lookup_insert_eq. simpl. intros [= <-]. by left.
  - rewrite lookup_insert_ne by done. by right.
Qed.

Lemma conn_of_apply st ev id c :
  room_wf st -> conn_of (room_apply st ev) id = Some c ->
  c = next_conn_id st \/ conn_of st id = Some c.
Proof.
  intros Hwf. destruct ev; cbn [room_apply];
    try (unfold reconnect_host; by apply admit_conn_of).
  1: { pose proof (join_or_resume_post st msg adm resume_only now inow cancel Hwf) as Hspec.
       unfold join_outcome in Hspec. destruct (join_spec _ _ _ _); try (rewrite Hspec; by right).
       destruct Hspec as (v & _ & Hpeers & _). unfold conn_of. rewrite Hpeers.
       destruct (decide (id = adm_peer_id adm)) as [->|].
       - rewrite lookup_insert_eq. intros [= <-]. by left.
       - rewrite lookup_insert_ne by done. by right. }
  all: unfold begin_leave, finish_leave, begin_end_session, finish_end_session,
         transfer_host, broadcast, send_to, handle_disconnect, conn_of;
    repeat case_match; room_cbn; auto.
  all: intros (? & Hp & Hc)%fmap_Some; right.
  all: first [ by apply lookup_empty_Some in Hp
             | apply lookup_delete_Some in Hp as [_ Hp]; by rewrite Hp; simpl; congruence ].
Qed.

Lemma next_conn_id_mono st ev :
  (next_conn_id st + 1 < u64_modulus)%N ->
  (next_conn_id st <= next_conn_id (room_apply st ev))%N.
Proof.
  intros Hn. destruct ev; simpl;
    unfold begin_leave, finish_leave, begin_end_session, finish_end_session,
      transfer_host, broadcast, send_to, handle_disconnect, join_or_resume, admit_peer;
    repeat case_match; simplify_eq/=; rewrite ?wrap64_small; lia.
Qed.

(** C14: once a connection has lost its identity (replaced by a newer
    connection, disconnected, left, or swept away), it has lost it for good:
    after any further events of a reachable room it is still not the
    occupant, and nothing it asks for changes the room or reaches anyone. *)
Theorem stale_connection_powerless k n run run' id c :
  room_reachable k run -> room_steps n run run' -> (k + n + 3 < u64_modulus)%N ->
  (c < next_conn_id (rr_state run))%N ->
  conn_of (rr_state run) id ≠ Some c ->
  conn_of (rr_state run') id ≠ Some c /\ powerless (rr_state run') id c.
Proof.
  intros Hreach Hsteps. revert k Hreach.
  enough (forall k, room_reachable k run -> (k + n + 3 < u64_modulus)%N ->
    (c < next_conn_id (rr_state run))%N -> conn_of (rr_state run) id ≠ Some c ->
    conn_of (rr_state run') id ≠ Some c /\ (c < next_conn_id (rr_state run'))%N
    /\ room_reachable (k + n) run') as Hmain.
  { intros k Hreach Hn Hc Hne. destruct (Hmain k Hreach Hn Hc Hne) as (Hne' & _).
    eauto using not_current_powerless. }
  induction Hsteps as [run|n run run' run'' ev Hsteps IH Hstep]; intros k Hreach Hn Hc Hne.
  - rewrite N.add_0_r. done.
  - destruct (IH k) as (Hne' & Hc' & Hreach'); [done|lia|done|done|].
    destruct (reachable_invariant _ _ Hreach') as (Hwf & _ & Hnext); [lia|].
    pose proof (reach_step _ _ _ _ Hreach' Hstep) as Hreach''.
    destruct Hstep as [_]; cbn [rr_state].
    assert (next_conn_id (rr_state run') + 1 < u64_modulus)%N as Hbound by lia.
    pose proof (next_conn_id_mono (rr_state run') ev Hbound). split_and!.
    + intros [?|?]%conn_of_apply; [lia|done|done].
    + lia.
    + by rewrite N.add_assoc.
Qed.
End stale.

(** ** Leaving *)

Section leaving.
Context `{HashIter} `{CryptoLib} `{!CryptoLaws _}.
Implicit Types (st : RoomState) (id : string) (c : N).

(** Who may begin to leave: the connected guest itself, in an open room, at
    the supported protocol version, on the proof of its verifier, once. *)
Definition may_leave st id c (token : string) (v : N) : Prop :=
  closing st = false /\ conn_of st id = Some c /\ id ≠ host_peer_id st
  /\ v = RELAY_PROTOCOL_VERSION /\ pending st id = false
  /\ exists w, reservations st !! id ≠ None /\ identities st !! id = Some w
     /\ from_token token = Some w.

Lemma begin_leave_decision st id c token v :
  (may_leave st id c token v /\
   begin_leave st id c token v =
     (set_reservations st (alter (fun r => set_release_pending r true) id (reservations st)),
      Ok tt))
  \/ (~ may_leave st id c token v /\
      begin_leave st id c token v =
        (st, Err (effects_error PeerIdUnavailable "Unable to release peer identity"))).
Proof.
  unfold begin_leave. if_case Hgate.
  { right. split; [|done]. intros (Hopen & Hc%is_current_conn_of & Hid & -> & _).
    rewrite Hopen, Hc, (bool_decide_eq_false_2 _ Hid) in Hgate. done. }
  to_prop. destruct (reservations st !! id) as [r|] eqn:Hr.
  - if_case Hauth.
    + right. split; [|done]. intros (_ & _ & _ & _ & Hp & w & _ & Hw & Ht).
      unfold pending in Hp. rewrite Hr in Hp. rewrite Hp, Ht in Hauth.
      rewrite identities_guest, Hr in Hw by done. injection Hw as <-.
      simpl in Hauth. by rewrite matches_refl in Hauth.
    + left. split; [|done]. to_prop.
      match goal with Hm : matches_presented _ _ = true |- _ =>
        apply matches_presented_true in Hm end.
      split_and!; try done; [by apply is_current_conn_of|unfold pending; by rewrite Hr|].
      exists (pr_verifier r). rewrite identities_guest, Hr by done. done.
  - right. split; [|done]. intros (_ & _ & _ & _ & _ & w & Hne & _). done.
Qed.

(** The decision of [begin_leave].  It accepts exactly the connected
    guest that proves its identity, in an open room, at the supported
    version and with no release already pending; the only change is the
    release flag of that reservation, and if the write then fails,
    [finish_leave] restores the state the [leave] began with, bit for bit.
    Every other caller is refused with [peer_id_unavailable] and the state
    is unchanged. *)
Theorem begin_leave_spec st id c token v now :
  (may_leave st id c token v <-> is_ok (begin_leave st id c token v).2 = true)
  /\ (is_ok (begin_leave st id c token v).2 = true ->
      finish_leave (begin_leave st id c token v).1 id c false now =
        (st, effects_error InvalidMessage "Unable to persist released peer identity"))
  /\ (is_ok (begin_leave st id c token v).2 = false ->
      begin_leave st id c token v =
        (st, Err (effects_error PeerIdUnavailable "Unable to release peer identity"))).
Proof.
  destruct (begin_leave_decision st id c token v) as [[Hmay ->]|[Hmay ->]];
    simpl; (split_and!; try done).
  intros _. destruct Hmay as (_ & Hc & _ & _ & Hp & _ & Hr & _).
  unfold finish_leave, pending in *. room_cbn. rewrite lookup_alter_eq.
  destruct (reservations st !! id) as [r|] eqn:Hlook; [|done]. simpl.
  assert (is_current (set_reservations st
    (alter (fun r => set_release_pending r true) id (reservations st))) id c = true) as ->
    by by apply is_current_conn_of.
  simpl. f_equal. destruct st; unfold set_reservations; simpl in *. f_equal.
  apply map_eq. intros id'. destruct (decide (id' = id)) as [->|].
  - rewrite !lookup_alter_eq, Hlook. simpl. f_equal. destruct r; simpl in *. by subst.
  - by rewrite !lookup_alter_ne.
Qed.

Lemma finish_leave_current st id c persisted now :
  conn_of st id = Some c -> pending st id = true ->
  finish_leave st id c persisted now =
  if persisted then
    let st' := set_last_activity_at
                 (set_reservations (set_peers st (delete id (peers st)))
                    (delete id (reservations st))) now in
    (st', {| eff_reply := Some (left_reply (session_id st) id);
             eff_broadcast := others_outbound st' id (peer_left id)
                              ++ eligibility_broadcast st';
             eff_evict := []; eff_dirty := true;
             eff_assigned_conn_id := None; eff_assigned_cancel := None |})
  else (set_reservations st (alter (fun r => set_release_pending r false) id (reservations st)),
        effects_error InvalidMessage "Unable to persist released peer identity").
Proof.
  intros Hc%is_current_conn_of Hp. unfold finish_leave, pending in *.
  rewrite Hc, Hp. destruct persisted; simpl; [|done].
  by rewrite broadcast_except_push, append_eligibility.
Qed.

(** Two states that differ in nothing but their peers, their reservations and
    the time of the last activity. *)
Definition same_but_guests st st' : Prop :=
  session_id st' = session_id st /\ host_peer_id st' = host_peer_id st
  /\ host_verifier st' = host_verifier st /\ owner_ip_key st' = owner_ip_key st
  /\ created_at st' = created_at st /\ closing st' = closing st
  /\ next_conn_id st' = next_conn_id st.

(** C21: a [leave] that is waiting for the snapshot is always able to finish.
    In any reachable open room, whatever happened since it began, its
    connection still occupies the identity.  A durable write then frees the
    identity completely (no peer, no reservation, no verifier; nothing else
    changes but the time of the last activity), answers [left], tells every
    remaining peer, and evicts nobody; a failed write gives back the
    reservation as it was, lifts its release flag, changes nothing else at all,
    and answers [invalid_message] only. *)
Theorem finish_leave_spec k run id c persisted now :
  room_reachable k run -> (k + 3 < u64_modulus)%N ->
  (id, c) ∈ rr_leaving run -> closing (rr_state run) = false ->
  let st := rr_state run in
  let '(st', e) := finish_leave st id c persisted now in
  conn_of st id = Some c /\
  if persisted : bool then
    identities st' = delete id (identities st)
    /\ peers st' = delete id (peers st)
    /\ reservations st' = delete id (reservations st)
    /\ last_activity_at st' = now
    /\ same_but_guests st st'
    /\ eff_reply e = Some (left_reply (session_id st) id)
    /\ (exists left_obs, sent_to_others st' id (peer_left id) left_obs
          /\ eff_broadcast e = left_obs ++ eligibility_broadcast st')
    /\ eff_evict e = [] /\ eff_dirty e = true
  else
    (exists r, reservations st !! id = Some r /\ pr_release_pending r = true
       /\ st' = set_reservations st (<[id := set_release_pending r false]> (reservations st)))
    /\ identities st' = identities st /\ pending st' id = false
    /\ e = effects_error InvalidMessage "Unable to persist released peer identity".
Proof.
  intros Hreach Hk Hin Hopen st. subst st.
  destruct (reachable_invariant _ _ Hreach Hk) as (Hwf & Hok & _).
  apply (proj1 (Hok Hopen)) in Hin as [Hc Hp].
  set (st := rr_state run) in *. clearbody st.
  rewrite finish_leave_current by done.
  assert (id ≠ host_peer_id st) as Hid.
  { intros ->. by rewrite host_not_pending in Hp. }
  destruct persisted; simpl; (split; [done|]); split_and!; try done.
  - unfold identities. room_cbn. by rewrite fmap_delete, delete_insert_ne.
  - eexists. split; [|done]. apply others_outbound_sent.
  - unfold pending in Hp. destruct (reservations st !! id) as [r|] eqn:Hr; [|done].
    exists r. split_and!; [done..|]. f_equal. apply map_eq. intros id'.
    destruct (decide (id' = id)) as [->|]; [by rewrite lookup_alter_eq, Hr, lookup_insert_eq|].
    by rewrite lookup_alter_ne, lookup_insert_ne.
  - unfold identities. room_cbn. f_equal. apply map_eq. intros id'.
    rewrite !lookup_fmap. destruct (decide (id' = id)) as [->|].
    + rewrite lookup_alter_eq. by destruct (reservations st !! id).
    + by rewrite lookup_alter_ne.
  - unfold pending. room_cbn. rewrite lookup_alter_eq. by destruct (reservations st !! id).
Qed.
End leaving.

(** ** Ending the session *)

Section ending.
Context `{HashIter} `{CryptoLib} `{!CryptoLaws _}.
Implicit Types (st : RoomState) (id : string) (c : N).

Definition may_end st id c (token : string) (v : N) : Prop :=
  closing st = false /\ id = host_peer_id st /\ conn_of st id = Some c
  /\ v = RELAY_PROTOCOL_VERSION /\ from_token token = Some (host_verifier st).

(** The senders [begin_end_session] hands on. *)
Definition guest_senders st : list Sender :=
  (fun kp => cp_tx kp.2)
    <$> List.filter (fun kp => kp.1 != host_peer_id st) (hm_iter (peers st)).

Lemma begin_end_decision st id c token v :
  (may_end st id c token v /\
   begin_end_session st id c token v =
     (set_closing st true, Ok (owner_ip_key st, guest_senders st)))
  \/ (~ may_end st id c token v /\
      begin_end_session st id c token v =
        (st, Err (effects_error PeerIdUnavailable "Unable to end room"))).
Proof.
  unfold begin_end_session. if_case Hgate.
  { right. split; [|done]. intros (Hopen & -> & Hc%is_current_conn_of & -> & _).
    by rewrite Hopen, Hc, !bool_decide_eq_true_2 in Hgate. }
  to_prop. subst. if_case Hauth.
  - right. split; [|done]. intros (_ & _ & _ & _ & Ht). rewrite Ht in Hauth. simpl in Hauth.
    by rewrite matches_refl in Hauth.
  - left. to_prop. apply matches_presented_true in Hauth.
    split; [split_and!; try done; by apply is_current_conn_of|]. done.
Qed.

(** [effects] closes exactly the connections of [ps]. *)
Definition evicts_all (ps : gmap string ConnectedPeer) (evs : list Eviction) : Prop :=
  forall cancel, {| ev_cancel := cancel |} ∈ evs <->
    exists id p, ps !! id = Some p /\ cp_cancel p = cancel.

Lemma evicts_all_values (ps : gmap string ConnectedPeer) :
  evicts_all ps ((fun p => {| ev_cancel := cp_cancel p |}) <$> hm_values ps).
Proof.
  intros cancel. rewrite list_elem_of_fmap. setoid_rewrite elem_of_hm_values.
  split.
  - intros (p & [= ->] & id & Hp). eauto.
  - intros (id & p & Hp & <-). eauto.
Qed.

(** C22: [endSession] in two phases.  The first accepts exactly the connected
    host proving the host verifier at the supported version, and its only
    effect is to close the room to everybody; anybody else is refused with
    the state unchanged.  The second leaves the room with no peer and no
    reservation and closes every connection, whatever became of the write:
    when it was durable the host and exactly the guests connected at the
    first phase are sent [ended]; when it failed the host is told so and
    nobody is sent anything. *)
Theorem end_session_spec st id c token v st2 persisted :
  match begin_end_session st id c token v with
  | (st1, Err e) => ~ may_end st id c token v /\ st1 = st
      /\ e = effects_error PeerIdUnavailable "Unable to end room"
  | (st1, Ok (owner, guests)) => may_end st id c token v /\ st1 = set_closing st true
      /\ owner = owner_ip_key st
      /\ (exists ids, NoDup ids
            /\ (forall i, i ∈ ids <-> is_Some (peers st !! i) /\ i ≠ host_peer_id st)
            /\ Forall2 (fun i tx => exists p, peers st !! i = Some p /\ cp_tx p = tx) ids guests)
      /\ let '(st3, e) := finish_end_session st2 guests persisted in
         peers st3 = ∅ /\ reservations st3 = ∅ /\ closing st3 = closing st2
         /\ evicts_all (peers st2) (eff_evict e)
         /\ if persisted : bool then
              let ended := ended_message (session_id st2) in
              eff_reply e = Some ended
              /\ eff_broadcast e = (fun tx => {| ob_tx := tx; ob_msg := ended |}) <$> guests
            else
              eff_reply e = Some (into_message InvalidMessage "Unable to persist ended room")
              /\ eff_broadcast e = []
  end.
Proof.
  destruct (begin_end_decision st id c token v) as [[Hmay ->]|[Hmay ->]]; [|done].
  split_and!; try done.
  - exists (List.filter (fun kp => kp.1 != host_peer_id st) (hm_iter (peers st))).*1.
    split_and!.
    + apply filter_keys_NoDup, hm_keys_NoDup.
    + apply others_keys.
    + unfold guest_senders. apply Forall2_fmap, Forall_Forall2_diag, Forall_forall.
      intros [k p] Hin. exists p. split; [|done].
      apply list_elem_of_In, List.filter_In in Hin as [Hin _].
      by apply elem_of_hm_iter, list_elem_of_In.
  - destruct persisted; simpl; split_and!; auto using evicts_all_values.
Qed.

(** A closing room stays closed and answers nobody but the operations that
    tear it down. *)
Lemma closed_is_inert st id c :
  closing st = true ->
  (forall msg adm resume now inow cancel,
     join_or_resume st msg adm resume now inow cancel =
       (st, effects_error RoomNotFound "Room does not exist"))
  /\ (forall token v, begin_leave st id c token v =
        (st, Err (effects_error PeerIdUnavailable "Unable to release peer identity")))
  /\ (forall token v, begin_end_session st id c token v =
        (st, Err (effects_error PeerIdUnavailable "Unable to end room")))
  /\ (forall v target, transfer_host st id c v target =
        (st, effects_error PeerIdUnavailable "Unable to transfer host authority"))
  /\ (forall payload now, broadcast st id c payload now = (st, default_effects))
  /\ (forall target payload now, send_to st id c target payload now = (st, default_effects))
  /\ (forall now inow, handle_disconnect st id c now inow = (st, default_effects)).
Proof.
  intros Hc. split_and!; intros;
    unfold join_or_resume, begin_leave, begin_end_session, transfer_host, broadcast, send_to,
      handle_disconnect; rewrite Hc; try done; by destruct (is_current st id c).
Qed.

(** Closing is final.  Once a room is closing, after any further events
    it is still closing, and in it every join or resume is answered
    [room_not_found], every leave, transfer or [endSession] is refused, and
    messages and disconnects do nothing. *)
Theorem closing_is_final n run run' id c :
  room_steps n run run' -> closing (rr_state run) = true ->
  closing (rr_state run') = true
  /\ (forall msg adm resume now inow cancel,
        join_or_resume (rr_state run') msg adm resume now inow cancel =
          (rr_state run', effects_error RoomNotFound "Room does not exist"))
  /\ (forall token v, exists e, begin_leave (rr_state run') id c token v = (rr_state run', Err e))
  /\ (forall token v, exists e,
        begin_end_session (rr_state run') id c token v = (rr_state run', Err e))
  /\ (forall v target, exists e, transfer_host (rr_state run') id c v target = (rr_state run', e)
        /\ eff_broadcast e = [])
  /\ (forall payload now,
        broadcast (rr_state run') id c payload now = (rr_state run', default_effects))
  /\ (forall now inow,
        handle_disconnect (rr_state run') id c now inow = (rr_state run', default_effects)).
Proof.
  intros Hsteps Hc. assert (closing (rr_state run') = true) as Hc'.
  { induction Hsteps as [|n run run' run'' ev Hsteps IH [_]]; [done|].
    apply closing_apply; auto. }
  destruct (closed_is_inert (rr_state run') id c Hc') as (Hj & Hl & He & Ht & Hb & _ & Hd).
  split_and!; try done; intros; eauto.
Qed.
End ending.

(** ** Moving the host authority *)

Section transferring.
Context `{HashIter} `{CryptoLib} `{!CryptoLaws _}.
Implicit Types (st : RoomState) (id : string) (c : N).

Lemma peer_infos_unique st : unique_ids (peer_infos st).
Proof.
  unfold unique_ids, peer_infos. rewrite <- list_fmap_compose. apply hm_keys_NoDup.
Qed.

Lemma elem_of_peer_infos st i :
  i ∈ peer_infos st <-> exists p, peers st !! pi_peer_id i = Some p
    /\ pi_sync_protocol_version i = cp_sync_protocol_version p
    /\ pi_host_transfer_capable i = cp_host_transfer_capable p.
Proof.
  unfold peer_infos. rewrite list_elem_of_fmap. split.
  - intros ([k p] & -> & Hin%elem_of_hm_iter). simpl. eauto.
  - intros (p & Hp & Hv & Hc). exists (pi_peer_id i, p). split; [|by apply elem_of_hm_iter].
    destruct i; simpl in *. by subst.
Qed.

Lemma transfer_host_accepts st c target :
  closing st = false -> conn_of st (host_peer_id st) = Some c ->
  valid_id target MAX_PEER_ID_LENGTH = true -> can_transfer_host_to st target = true ->
  exists r, reservations st !! target = Some r /\
    transfer_host st (host_peer_id st) c RELAY_PROTOCOL_VERSION target =
      (transferred st target r, transfer_effects (transferred st target r) (host_peer_id st) target).
Proof.
  intros Hopen Hc%is_current_conn_of Hvalid Hcan. pose proof Hcan as Hlegal.
  apply is_valid_target_legal in Hlegal as (h & t & _ & _ & Ht & <- & Hne & _ & Hres & _);
    [|apply peer_infos_unique].
  apply elem_of_peer_infos in Ht as (p & Hp & _).
  assert (contains_key (peers st) (pi_peer_id t) = true) as Hin
    by (apply contains_key_true; eauto).
  unfold transfer_host. rewrite Hopen, Hc, Hvalid, Hin, Hres, Hcan.
  rewrite (bool_decide_eq_true_2 (RELAY_PROTOCOL_VERSION = RELAY_PROTOCOL_VERSION)) by done.
  rewrite (bool_decide_eq_true_2 (host_peer_id st = host_peer_id st)) by done.
  rewrite (bool_decide_eq_false_2 _ Hne). room_cbn. unfold is_reserved in Hres.
  destruct (reservations st !! pi_peer_id t) as [r|] eqn:Hr; [|done].
  exists r. split; [done|]. by rewrite append_eligibility.
Qed.

End transferring.

(** ** Messages *)

Section messaging.
Context `{HashIter} `{CryptoLib}.
Implicit Types (st : RoomState) (id : string) (c : N).

(** C31: a message reaches exactly the other members.  In an open room the
    current connection's [broadcast] queues the payload, verbatim and under
    the sender's name, once for every other connected peer and for nobody
    else, and [sendTo] for exactly the one connected target; neither changes
    a table of the room or answers the sender, except that an unknown target
    is answered [not_in_room]. *)
Theorem message_delivery st id c payload now :
  closing st = false -> conn_of st id = Some c ->
  (let '(st', e) := broadcast st id c payload now in
   st' = set_last_activity_at st now /\ eff_reply e = None /\ eff_evict e = []
   /\ sent_to_others st id (relayed_message id payload) (eff_broadcast e))
  /\ (forall target,
       match peers st !! target with
       | Some p => send_to st id c target payload now =
           (set_last_activity_at st now,
            push_broadcast default_effects
              [{| ob_tx := cp_tx p; ob_msg := relayed_message id payload |}])
       | None => send_to st id c target payload now =
           (st, effects_error NotInRoom "Target peer not found")
       end).
Proof.
  intros Hopen Hc. apply (bool_decide_eq_true_2 (conn_of st id = Some c)) in Hc.
  assert (is_current st id c = true) as Hcur by exact Hc. split.
  - unfold broadcast. rewrite Hcur, Hopen. room_cbn. rewrite broadcast_except_push.
    split_and!; [done..|]. apply (others_outbound_sent st).
  - intros target. unfold send_to. rewrite Hcur, Hopen. room_cbn.
    by destruct (peers st !! target).
Qed.
End messaging.

(** ** Losing the connection and coming back *)

Section absence.
Context `{HashIter} `{CryptoLib} `{!CryptoLaws _}.
Implicit Types (st : RoomState) (id : string) (c : N).

(** An ungraceful disconnect of the current connection removes the peer
    and nothing else: every identity survives with its verifier, a guest's
    grace clock starts, the remaining peers are told [peerLeft], and nobody
    is evicted. *)
Theorem handle_disconnect_spec st id c now inow :
  room_wf st -> closing st = false -> conn_of st id = Some c ->
  let '(st', e) := handle_disconnect st id c now inow in
  peers st' = delete id (peers st)
  /\ identities st' = identities st
  /\ last_activity_at st' = now
  /\ (id ≠ host_peer_id st ->
      exists r, reservations st !! id = Some r
        /\ reservations st' !! id = Some (set_absent_since r (Some inow)))
  /\ (forall id', id' ≠ id -> reservations st' !! id' = reservations st !! id')
  /\ (exists left_obs, sent_to_others st' id (peer_left id) left_obs
        /\ eff_broadcast e = left_obs ++ eligibility_broadcast st')
  /\ eff_reply e = None /\ eff_evict e = [] /\ eff_dirty e = true.
Proof.
  intros Hwf Hopen Hc. pose proof Hc as Hcur%is_current_conn_of.
  unfold handle_disconnect. rewrite Hopen, Hcur. room_cbn.
  rewrite broadcast_except_push, append_eligibility. room_cbn.
  destruct (decide (id = host_peer_id st)) as [Hid|Hid].
  - rewrite (bool_decide_eq_true_2 _ Hid). room_cbn. split_and!; try done.
    eexists. split; [|done]. apply others_outbound_sent.
  - rewrite (bool_decide_eq_false_2 _ Hid). room_cbn. split_and!; try done.
    + unfold identities. room_cbn. f_equal. apply map_eq. intros id'. rewrite !lookup_fmap.
      destruct (decide (id' = id)) as [->|]; [|by rewrite lookup_alter_ne].
      rewrite lookup_alter_eq. by destruct (reservations st !! id).
    + intros _. unfold conn_of in Hc. destruct (peers st !! id) as [p|] eqn:Hp; [|done].
      destruct (wf_connected _ _ _ _ Hwf _ _ Hp) as [?|(r & Hr & _)]; [done|].
      exists r. by rewrite lookup_alter_eq, Hr.
    + intros id' Hne. by rewrite lookup_alter_ne.
    + eexists. split; [|done]. apply others_outbound_sent.
Qed.

(** An identity whose grace clock has been running since [t0]. *)
Definition absent_guest st id (v : Verifier) (t0 : Instant) : Prop :=
  id ≠ host_peer_id st /\ peers st !! id = None /\
  exists r, reservations st !! id = Some r /\ pr_verifier r = v
    /\ pr_absent_since r = Some t0 /\ pr_release_pending r = false.

Lemma absent_guest_keep st id v t0 inow :
  absent_guest st id v t0 ->
  reservations (prune_expired_reservations st inow).1 !! id =
    if (since inow t0 <? PEER_RESERVATION_GRACE)%Z then reservations st !! id else None.
Proof.
  intros (Hid & Hp & r & Hr & _ & Habs & Hpend).
  assert (keep_reservation st inow id r = (since inow t0 <? PEER_RESERVATION_GRACE)%Z) as Hk.
  { unfold keep_reservation. apply contains_key_false in Hp. by rewrite Hpend, Hp, Habs. }
  destruct (_ <? _)%Z.
  - rewrite Hr. by apply prune_lookup.
  - apply map_lookup_filter_None. right. intros r' Hr' Hkeep. simpl in Hkeep. congruence.
Qed.

Lemma absent_guest_identity st id v t0 inow :
  absent_guest st id v t0 ->
  identities (prune_expired_reservations st inow).1 !! id =
    if (since inow t0 <? PEER_RESERVATION_GRACE)%Z then Some v else None.
Proof.
  intros Habs. rewrite identities_guest by apply Habs.
  rewrite (absent_guest_keep _ _ _ _ inow Habs). destruct (_ <? _)%Z; [|done].
  destruct Habs as (_ & _ & r & -> & <- & _). done.
Qed.

(** A guest that was connected when the snapshot was written never
    expires after a restart.  Restoring keeps [absent_since: None], which
    pruning reads as "connected", although nobody is: the reservation is
    kept at every later moment, so a restored room with seven such guests
    turns every new guest away as [room_full] however long they stay away. *)
Theorem restored_reservation_never_expires sid host hv owner restored created last_at :
  restored !! host = None -> size restored = MAX_ROOM_SIZE - 1 ->
  (forall id r, restored !! id = Some r -> r.2 = None) ->
  let st := restore sid host hv owner restored created last_at in
  forall inow,
    peers st = ∅
    /\ reservations (prune_expired_reservations st inow).1 = reservations st
    /\ (forall msg adm now cancel,
          restored !! adm_peer_id adm = None -> adm_peer_id adm ≠ host ->
          is_Some (from_token (cm_reconnect_token msg)) ->
          (join_or_resume st msg adm false now inow cancel).2 = effects_error RoomFull "Room is full").
Proof.
  intros Hhost Hsize Hnone st inow.
  assert (reservations (prune_expired_reservations st inow).1 = reservations st) as Hkeep.
  { apply map_filter_id. intros id r Hr. simpl. unfold keep_reservation.
    destruct (_ || _); [done|]. apply lookup_fmap_Some in Hr as (q & <- & Hq).
    simpl. by rewrite (Hnone _ _ Hq). }
  split_and!; [done|done|]. intros msg adm now cancel Hnew Hne Htok.
  assert (room_wf st) as Hwf by (apply restore_wf; [done | by rewrite Hsize]).
  pose proof (join_or_resume_post st msg adm false now inow cancel Hwf) as Hspec.
  unfold join_outcome in Hspec. revert Hspec. unfold join_spec. rewrite Hkeep.
  rewrite identities_guest, Hkeep by done. simpl.
  rewrite lookup_fmap, Hnew. simpl. destruct Htok as [w ->]. simpl.
  rewrite map_size_fmap, Hsize. simpl. by intros ->.
Qed.
End absence.
