(* ===== verification/RoomTrace.v ===== *)
(** * A room over time

    What a single operation promises is in [RoomThms] and [RoomLife]; here it
    is followed through a trace of events: the room keeps its members informed
    of whom the host role can be handed to, and a guest that lost its
    connection finds its identity again. *)
From S2P Require Import Prelude.
From S2P Require Import Protocol.
From S2P Require Import Ids.
From S2P Require Import HostTransfer.
From S2P Require Import Room.
From S2P Require Import RoomInv.
From S2P Require Import RoomThms.
From S2P Require Import RoomLife.

#[local] Arguments Nat.leb : simpl never.
#[local] Arguments Nat.sub : simpl never.

(** ** Traces *)

Section traces.
Context `{HashIter} `{CryptoLib}.

(** The events of a room, oldest first. *)
Inductive room_trace (run : RoomRun) : list room_event -> RoomRun -> Prop :=
| trace_nil : room_trace run [] run
| trace_snoc evs run' ev run'' :
    room_trace run evs run' -> room_step run' ev run'' -> room_trace run (evs ++ [ev]) run''.

(** What an event has sent, as [room_apply] is what it does to the state. *)
Definition event_effects (st : RoomState) (ev : room_event) : Effects :=
  match ev with
  | EvReconnect host token now cancel => (reconnect_host st host token now cancel).2
  | EvJoin msg adm resume now inow cancel => (join_or_resume st msg adm resume now inow cancel).2
  | EvBeginLeave id c token v =>
    match (begin_leave st id c token v).2 with Ok _ => default_effects | Err e => e end
  | EvFinishLeave id c persisted now => (finish_leave st id c persisted now).2
  | EvBeginEnd id c token v =>
    match (begin_end_session st id c token v).2 with Ok _ => default_effects | Err e => e end
  | EvFinishEnd guests persisted => (finish_end_session st guests persisted).2
  | EvTransfer id c v target => (transfer_host st id c v target).2
  | EvBroadcast id c payload now => (broadcast st id c payload now).2
  | EvSendTo id c target payload now => (send_to st id c target payload now).2
  | EvDisconnect id c now inow => (handle_disconnect st id c now inow).2
  | EvPrune _ | EvClose _ => default_effects
  end.

(** All messages to members that a sequence of events has sent. *)
Fixpoint trace_sends (st : RoomState) (evs : list room_event) : list Outbound :=
  match evs with
  | [] => []
  | ev :: evs => eff_broadcast (event_effects st ev) ++ trace_sends (room_apply st ev) evs
  end.

(** A room at its beginning, with what it has sent. *)
Inductive room_birth : RoomRun -> list Outbound -> Prop :=
| born_new sid host hv token owner adm now cancel :
    room_birth
      {| rr_state := (new_room sid host hv token owner adm now cancel).1; rr_leaving := ∅ |}
      (eff_broadcast (new_room sid host hv token owner adm now cancel).2)
| born_restored sid host hv owner restored created last_at :
    restored !! host = None -> size restored <= MAX_ROOM_SIZE - 1 ->
    room_birth
      {| rr_state := restore sid host hv owner restored created last_at; rr_leaving := ∅ |} [].

Lemma trace_state run evs run' :
  room_trace run evs run' -> rr_state run' = foldl room_apply (rr_state run) evs.
Proof.
  induction 1 as [|evs run1 ev run2 _ IH [_]]; [done|]. rewrite foldl_app. cbn. by rewrite <- IH.
Qed.

Lemma trace_sends_app st evs evs' :
  trace_sends st (evs ++ evs') = trace_sends st evs ++ trace_sends (foldl room_apply st evs) evs'.
Proof.
  revert st. induction evs as [|ev evs IH]; intros st; cbn; [done|]. by rewrite IH, app_assoc.
Qed.

Lemma trace_reachable k run evs run' :
  room_reachable k run -> room_trace run evs run' ->
  room_reachable (k + N.of_nat (length evs)) run'.
Proof.
  intros Hreach. induction 1 as [|evs run1 ev run2 _ IH Hstep]; [by rewrite N.add_0_r|].
  rewrite length_app, Nat2N.inj_add, N.add_assoc. by eapply reach_step.
Qed.

Lemma birth_reachable run sent : room_birth run sent -> room_reachable 0 run.
Proof. destruct 1; [apply reach_new|by apply reach_restored]. Qed.

(** Once closing, always closing. *)
Lemma trace_open run evs run' :
  room_trace run evs run' -> closing (rr_state run') = false -> closing (rr_state run) = false.
Proof.
  induction 1 as [|evs run1 ev run2 _ IH [_]]; [done|]. cbn [rr_state]. intros Hc. apply IH.
  destruct (closing (rr_state run1)) eqn:Hc1; [|done]. by rewrite closing_apply in Hc.
Qed.
End traces.

(** ** Announcements *)

(** The target list in a message on channel [tx], if it is an announcement. *)
Definition announced_on (tx : Sender) (o : Outbound) : option (list string) :=
  if (ob_tx o =? tx) && (sm_msg_type (ob_msg o) == server_type.HOST_TRANSFER_ELIGIBILITY)
  then sm_host_transfer_targets (ob_msg o) else None.

(** The list that was announced last on [tx]. *)
Definition last_announced (tx : Sender) (sent : list Outbound) : option (list string) :=
  last (omap (announced_on tx) sent).

(** A [leave] of [id] that was taken back, because the write failed. *)
Definition rolled_back (id : string) (evs : list room_event) : Prop :=
  exists c now, EvFinishLeave id c false now ∈ evs.

Definition no_announcement (obs : list Outbound) : Prop :=
  Forall (fun o => sm_msg_type (ob_msg o) <> server_type.HOST_TRANSFER_ELIGIBILITY) obs.

Lemma last_announced_app tx l1 l2 :
  last_announced tx (l1 ++ l2)
  = match last_announced tx l2 with Some targets => Some targets | None => last_announced tx l1 end.
Proof. unfold last_announced. rewrite omap_app. apply last_app. Qed.

Lemma no_announcement_last tx obs : no_announcement obs -> last_announced tx obs = None.
Proof.
  intros Hno. unfold last_announced. enough (omap (announced_on tx) obs = []) as -> by done.
  induction Hno as [|o obs Ho _ IH]; [done|]. cbn [omap list_omap]. unfold announced_on at 1.
  by rewrite (bool_decide_eq_false_2 _ Ho), andb_false_r.
Qed.

Lemma last_all {A} (l : list A) x : (forall y, y ∈ l -> y = x) -> x ∈ l -> last l = Some x.
Proof.
  intros Hall Hx. destruct (last l) as [y|] eqn:Hl; [|apply last_None in Hl; set_solver].
  f_equal. apply Hall. by apply last_Some_elem_of.
Qed.

Section announcing.
Context `{HashIter} `{CryptoLib} `{!CryptoLaws _}.
Implicit Types (st : RoomState) (id : string) (ev : room_event).

(** [target] could be handed the role, were it not for its own [leave]. *)
Definition candidate st target : Prop :=
  legal_target (host_peer_id st) (peer_infos st) (fun _ => true) target.

Lemma candidate_connected st target :
  candidate st target -> target ≠ host_peer_id st /\ is_Some (peers st !! target).
Proof.
  intros (h & t & _ & _ & Ht & <- & Hne & _). split; [done|].
  apply elem_of_peer_infos in Ht as (p & Hp & _). by eexists.
Qed.

Lemma can_transfer_candidate st target :
  room_wf st ->
  can_transfer_host_to st target = true <-> candidate st target /\ pending st target = false.
Proof.
  intros Hwf. unfold can_transfer_host_to. rewrite is_valid_target_legal by apply peer_infos_unique.
  assert (Hres : candidate st target -> is_reserved st target = negb (pending st target)).
  { intros [Hne [p Hp]]%candidate_connected. unfold is_reserved, pending.
    destruct (wf_connected _ _ _ _ Hwf target p Hp) as [?|(r & -> & _)]; done. }
  unfold candidate, legal_target in *. split.
  - intros (h & t & ? & ? & ? & ? & ? & ? & Hr & ? & ?).
    assert (Hc : candidate st target) by (exists h, t; by split_and!).
    split; [exact Hc|]. rewrite (Hres Hc) in Hr. by apply negb_true_iff.
  - intros [Hc Hp]. pose proof (Hres Hc) as Hr. rewrite Hp in Hr.
    destruct Hc as (h & t & ? & ? & ? & ? & ? & ? & _ & ? & ?). exists h, t. by split_and!.
Qed.

(** What the announcement of a roster says, to whom. *)
Lemma eligibility_last st id p :
  peers st !! id = Some p -> cp_host_transfer_capable p = true ->
  exists targets, last_announced (cp_tx p) (eligibility_broadcast st) = Some targets
    /\ forall target, target ∈ targets <-> can_transfer_host_to st target = true.
Proof.
  intros Hp Hcap. pose proof (peer_infos_unique st) as Hnd.
  pose proof (compute_eligibility_spec (host_peer_id st) (peer_infos st) (is_reserved st) Hnd) as Hspec.
  assert (Hinfo : exists i, i ∈ peer_infos st /\ pi_host_transfer_capable i = true /\ pi_peer_id i = id).
  { exists {| pi_peer_id := id; pi_sync_protocol_version := cp_sync_protocol_version p;
              pi_host_transfer_capable := cp_host_transfer_capable p |}.
    split_and!; [apply elem_of_peer_infos; by exists p|done..]. }
  unfold eligibility_broadcast, append_host_transfer_eligibility.
  destruct (compute_eligibility _ _ _) as [[recipients targets]|].
  2: { destruct Hinfo as (i & Hi & Hc & _). by rewrite (Hspec i Hi) in Hc. }
  destruct Hspec as (_ & Hrec & Htgt & _). exists targets. split.
  - cbn [push_broadcast eff_broadcast default_effects app]. unfold last_announced. apply last_all.
    + intros l (o & (r & _ & Ho)%list_elem_of_omap & Hl)%list_elem_of_omap.
      destruct (peers st !! r); [|done]. injection Ho as <-. unfold announced_on in Hl.
      cbn in Hl. by destruct (_ && _); [injection Hl as <-|].
    + apply list_elem_of_omap. eexists. split.
      * apply list_elem_of_omap. exists id. split; [by apply Hrec|]. by rewrite Hp.
      * unfold announced_on. cbn. by rewrite Nat.eqb_refl.
  - intros target. rewrite Htgt. unfold can_transfer_host_to.
    by rewrite is_valid_target_legal.
Qed.

(** Every capable member has been told of the candidates, those aside whose
    own [leave] is, or was, under way. *)
Definition informed st (sent : list Outbound) (evs : list room_event) : Prop :=
  closing st = false -> forall id p, peers st !! id = Some p -> cp_host_transfer_capable p = true ->
  exists targets, last_announced (cp_tx p) sent = Some targets
    /\ (forall target, target ∈ targets -> candidate st target)
    /\ (forall target, candidate st target ->
          target ∈ targets \/ pending st target = true \/ rolled_back target evs).

(** An event announces the new roster, or leaves it as it was. *)
Definition announces st ev : Prop :=
  exists before, eff_broadcast (event_effects st ev)
                 = before ++ eligibility_broadcast (room_apply st ev).

Record quiet st ev : Prop := {
  qt_open : closing (room_apply st ev) = false -> closing st = false;
  qt_host : closing (room_apply st ev) = false -> host_peer_id (room_apply st ev) = host_peer_id st;
  qt_peers : closing (room_apply st ev) = false -> peers (room_apply st ev) = peers st;
  qt_sends : closing (room_apply st ev) = false -> no_announcement (eff_broadcast (event_effects st ev));
  qt_pending : forall id, closing (room_apply st ev) = false -> pending st id = true ->
    pending (room_apply st ev) id = true \/ rolled_back id [ev];
}.

Lemma rolled_back_app id evs ev : rolled_back id (evs ++ [ev]) <-> rolled_back id evs \/ rolled_back id [ev].
Proof. unfold rolled_back. setoid_rewrite elem_of_app. naive_solver. Qed.

Lemma informed_announces st ev sent evs :
  room_wf (room_apply st ev) -> announces st ev ->
  informed (room_apply st ev) (sent ++ eff_broadcast (event_effects st ev)) evs.
Proof.
  intros Hwf [before ->] Hopen id p Hp Hcap.
  destruct (eligibility_last _ _ _ Hp Hcap) as (targets & Hlast & Htargets). exists targets.
  rewrite app_assoc, last_announced_app, Hlast. split_and!; [done| |].
  - intros target Hin. apply Htargets, can_transfer_candidate in Hin; [|done]. apply Hin.
  - intros target Hc. destruct (pending (room_apply st ev) target) eqn:Hpend; [by right; left|left].
    apply Htargets. by apply can_transfer_candidate.
Qed.

Lemma informed_quiet st ev sent evs :
  quiet st ev -> informed st sent evs ->
  informed (room_apply st ev) (sent ++ eff_broadcast (event_effects st ev)) (evs ++ [ev]).
Proof.
  intros [Hop Hhost Hpeers Hsends Hpend] Hinf Hopen id p Hp Hcap. rewrite Hpeers in Hp by done.
  destruct (Hinf (Hop Hopen) id p Hp Hcap) as (targets & Hlast & Hall & Hex). exists targets.
  assert (Hsame : forall target, candidate (room_apply st ev) target <-> candidate st target).
  { intros target. unfold candidate, peer_infos. by rewrite Hhost, Hpeers. }
  rewrite last_announced_app, no_announcement_last by auto. split_and!; [done| |].
  - intros target Hin. apply Hsame. auto.
  - intros target Hc. rewrite rolled_back_app. apply Hsame in Hc.
    destruct (Hex target Hc) as [?|[Hp'|?]]; [by left| |by right; right; left].
    destruct (Hpend target Hopen Hp') as [?|?]; auto.
Qed.

(** An event that changes neither host nor peers, and announces nothing. *)
Lemma quiet_same st ev :
  (closing (room_apply st ev) = false -> closing st = false) ->
  host_peer_id (room_apply st ev) = host_peer_id st -> peers (room_apply st ev) = peers st ->
  no_announcement (eff_broadcast (event_effects st ev)) ->
  (forall id, pending st id = true -> pending (room_apply st ev) id = true \/ rolled_back id [ev]) ->
  quiet st ev.
Proof. intros. split; auto. Qed.

Lemma quiet_closing st ev : closing (room_apply st ev) = true -> quiet st ev.
Proof. intros Hc. split; intros; congruence. Qed.

Lemma quiet_unchanged st ev :
  room_apply st ev = st -> no_announcement (eff_broadcast (event_effects st ev)) -> quiet st ev.
Proof. intros Heq Hno. apply quiet_same; rewrite ?Heq; auto. Qed.

Lemma no_announcement_error err text : no_announcement (eff_broadcast (effects_error err text)).
Proof. constructor. Qed.

Lemma no_announcement_relayed st id payload :
  no_announcement (others_outbound st id (relayed_message id payload)).
Proof. apply Forall_fmap, Forall_true. by intros kp. Qed.

Lemma join_announces st msg adm resume now inow cancel :
  room_wf st -> let ev := EvJoin msg adm resume now inow cancel in announces st ev \/ quiet st ev.
Proof.
  intros Hwf ev. pose proof (join_or_resume_post st msg adm resume now inow cancel Hwf) as Hspec.
  assert (Hpruned : forall err text,
    join_or_resume st msg adm resume now inow cancel
      = ((prune_expired_reservations st inow).1, effects_error err text) -> quiet st ev).
  { intros err text Heq. apply quiet_same; unfold ev; cbn [room_apply event_effects]; rewrite Heq;
      [done..|apply no_announcement_error|]. intros id Hp. left. cbn [fst].
    by rewrite (proj1 (prune_pending_frame st inow id (or_introl Hp))). }
  unfold join_outcome in Hspec. destruct (join_spec _ _ _ _); [|by right; eapply Hpruned..|].
  - right. apply quiet_unchanged; unfold ev; cbn [room_apply event_effects]; rewrite Hspec; [done|].
    apply no_announcement_error.
  - left. destruct Hspec as (v & _ & Hpost). unfold admission_post in Hpost.
    destruct Hpost as (_ & _ & _ & _ & _ & _ & _ & _ & _ & _ & (joined & _ & Hb) & _).
    by exists joined.
Qed.

Lemma begin_leave_quiet st id c token v : quiet st (EvBeginLeave id c token v).
Proof.
  apply quiet_same; cbn [room_apply event_effects]; unfold begin_leave, pending;
    repeat case_match; simplify_eq/=; try done; try apply no_announcement_error.
  all: try (by constructor). all: intros id'; left.
  all: destruct (decide (id' = id)) as [->|]; simplify_map_eq; done.
Qed.

Lemma finish_leave_announces st id c persisted now :
  let ev := EvFinishLeave id c persisted now in announces st ev \/ quiet st ev.
Proof.
  intros ev. unfold announces. destruct (decide (conn_of st id = Some c /\ pending st id = true)) as [[Hc Hp]|Hno].
  - unfold ev; cbn [event_effects room_apply]. rewrite finish_leave_current by done.
    destruct persisted; [left; by eexists|right]. apply quiet_same; cbn [room_apply event_effects];
      rewrite finish_leave_current by done; [done..|apply no_announcement_error|].
    intros id' Hp'. destruct (decide (id' = id)) as [->|Hne]; [right; exists c, now; by left|left].
    unfold pending in *. room_cbn. by rewrite lookup_alter_ne.
  - right. assert (Heq : finish_leave st id c persisted now = (st, default_effects)).
    { unfold finish_leave. destruct (is_current st id c) eqn:Hcur; [|done].
      apply is_current_conn_of in Hcur. unfold pending in Hno.
      destruct (reservations st !! id) as [r|]; [|done]. destruct (pr_release_pending r); [|done].
      by destruct Hno. }
    apply quiet_unchanged; unfold ev; cbn [room_apply event_effects]; rewrite Heq; [done|constructor].
Qed.

Lemma transfer_announces st id c v target :
  let ev := EvTransfer id c v target in announces st ev \/ quiet st ev.
Proof.
  intros ev. destruct (transfer_host_inv st id c v target)
    as [(err & text & Heq & _)|(_ & _ & _ & _ & _ & _ & _ & r & _ & _ & Heq)].
  - right. apply quiet_unchanged; unfold ev; cbn [room_apply event_effects]; rewrite Heq;
      [done|apply no_announcement_error].
  - left. unfold announces, ev; cbn [room_apply event_effects]. rewrite Heq. by eexists.
Qed.

Lemma disconnect_announces st id c now inow :
  let ev := EvDisconnect id c now inow in announces st ev \/ quiet st ev.
Proof.
  intros ev. unfold announces, ev; cbn [room_apply event_effects]. unfold handle_disconnect.
  destruct (_ || _) eqn:Hgate.
  - right. apply quiet_unchanged; cbn [room_apply event_effects]; unfold handle_disconnect;
      rewrite Hgate; [done|constructor].
  - left. rewrite broadcast_except_push, append_eligibility. by eexists.
Qed.

Lemma messages_quiet st ev :
  match ev with EvBroadcast _ _ _ _ | EvSendTo _ _ _ _ _ => True | _ => False end -> quiet st ev.
Proof.
  assert (Hone : forall tx id payload,
    no_announcement [{| ob_tx := tx; ob_msg := relayed_message id payload |}])
    by (intros; by apply Forall_singleton).
  intros Hev. destruct ev as [| | | | | | |id c pl now|id c target pl now| | |]; try done;
    apply quiet_same; cbn [room_apply event_effects]; unfold broadcast, send_to;
    repeat case_match; simplify_eq/=; rewrite ?broadcast_except_push; auto; try congruence;
    try apply no_announcement_relayed; apply Hone || constructor.
Qed.

Lemma event_announces run ev :
  room_wf (rr_state run) -> event_allowed run ev ->
  announces (rr_state run) ev \/ quiet (rr_state run) ev.
Proof.
  intros Hwf Hallowed. destruct ev as [host token now cancel| | | |id c token v|gs persisted| | | | |inow|drop].
  - left. unfold announces. cbn [event_effects room_apply]. unfold reconnect_host, admit_peer. cbn [fst snd].
    rewrite append_eligibility. destruct (negb _); rewrite ?broadcast_except_push; by eexists.
  - by apply join_announces.
  - right. apply begin_leave_quiet.
  - apply finish_leave_announces.
  - right. destruct (closing (room_apply (rr_state run) (EvBeginEnd id c token v))) eqn:Hc;
      [by apply quiet_closing|]. revert Hc. cbn [room_apply]. unfold begin_end_session.
    destruct (_ || _) eqn:Hg; [|destruct (negb (matches_presented _ _)) eqn:Ha; [|intros Hc; discriminate Hc]]; intros _;
      (apply quiet_unchanged; cbn [room_apply event_effects]; unfold begin_end_session; rewrite Hg, ?Ha;
       [done|apply no_announcement_error]).
  - right. apply quiet_closing. by apply closing_apply.
  - apply transfer_announces.
  - right. by apply messages_quiet.
  - right. by apply messages_quiet.
  - apply disconnect_announces.
  - right. apply quiet_same; cbn [room_apply event_effects]; [done..|constructor|].
    intros id Hp. left. by rewrite (proj1 (prune_pending_frame _ inow id (or_introl Hp))).
  - right. apply quiet_closing. by destruct drop.
Qed.

Lemma trace_informed run0 sent0 evs run :
  room_birth run0 sent0 -> room_trace run0 evs run -> (N.of_nat (length evs) + 3 < u64_modulus)%N ->
  informed (rr_state run) (sent0 ++ trace_sends (rr_state run0) evs) evs.
Proof.
  intros Hbirth Htrace. pose proof (birth_reachable _ _ Hbirth) as Hreach0.
  induction Htrace as [|evs run1 ev run2 Htrace IH Hstep]; intros Hn.
  - rewrite app_nil_r. destruct Hbirth as [sid host hv token owner adm now cancel|].
    + intros _ id p Hp Hcap. unfold new_room in *. rewrite append_eligibility in *. cbn [fst snd rr_state] in *.
      destruct (eligibility_last _ _ _ Hp Hcap) as (targets & Hlast & Htargets).
      exists targets. split_and!; [exact Hlast| |].
      * intros target Hin. apply Htargets, can_transfer_candidate in Hin; [apply Hin|].
        apply (new_room_wf sid host hv token owner adm now cancel).
      * intros target Hc. left. apply Htargets, can_transfer_candidate; [|split; [exact Hc|done]].
        apply (new_room_wf sid host hv token owner adm now cancel).
    + intros _ id p Hp. cbn in Hp. by rewrite lookup_empty in Hp.
  - rewrite length_app in Hn. cbn in Hn. specialize (IH ltac:(lia)).
    pose proof (trace_reachable _ _ _ _ Hreach0 Htrace) as Hreach.
    destruct (reachable_invariant _ _ Hreach ltac:(lia)) as (Hwf & _ & Hnext).
    rewrite trace_sends_app, app_assoc, <- (trace_state _ _ _ Htrace).
    destruct Hstep as [Hallowed]. cbn [rr_state trace_sends]. rewrite app_nil_r.
    destruct (event_announces run1 ev Hwf Hallowed) as [Ha|Hq].
    + apply informed_announces; [|done]. apply room_wf_apply; [done|lia].
    + by apply informed_quiet.
Qed.

(** The host role moves to [target], and everybody is told. *)
Definition role_moved st target (out : RoomState * Effects) : Prop :=
  let '(st', e) := out in
  host_peer_id st' = target /\ identities st' = identities st /\ peers st' = peers st
  /\ reservations st' !! host_peer_id st = Some (fresh_reservation (host_verifier st))
  /\ (forall id p, peers st !! id = Some p ->
        {| ob_tx := cp_tx p;
           ob_msg := host_changed_message (session_id st) target (host_peer_id st) |}
          ∈ eff_broadcast e)
  /\ eff_dirty e = true.

Definition role_refused st (out : RoomState * Effects) : Prop :=
  exists err text, out = (st, effects_error err text)
    /\ err ∈ [PeerIdUnavailable; NotHost; PeerNotFound; HostTransferUnavailable].

Lemma transfer_outcome st c target :
  room_wf st -> closing st = false -> conn_of st (host_peer_id st) = Some c ->
  valid_id target MAX_PEER_ID_LENGTH = true ->
  let out := transfer_host st (host_peer_id st) c RELAY_PROTOCOL_VERSION target in
  if can_transfer_host_to st target then role_moved st target out else role_refused st out.
Proof.
  intros Hwf Hopen Hc Hvalid out. destruct (can_transfer_host_to st target) eqn:Hcan.
  - destruct (transfer_host_accepts st c target) as (r & Hr & Heq); [done..|]. unfold out. rewrite Heq.
    unfold role_moved. split_and!; try done.
    + by apply transferred_identities.
    + unfold transferred. room_cbn. apply lookup_insert_eq.
    + intros id p Hp. unfold transfer_effects. room_cbn. apply elem_of_app. left.
      apply list_elem_of_fmap. exists p. split; [done|]. apply elem_of_hm_values. by exists id.
  - destruct (transfer_host_inv st (host_peer_id st) c RELAY_PROTOCOL_VERSION target)
      as [(err & text & Heq & Herr)|(_ & _ & _ & _ & _ & _ & Hcan' & _)]; [|congruence].
    by exists err, text.
Qed.

(** C30: the room's announcements can be relied on.  Take a room from its
    creation, or its restoration, through any events to a state in which it is
    open and its host connected.  Messages are taken in the order in which the
    room decides them.  If the host declared the capability, it has been told
    of targets, and when it asks for a transfer at the supported
    version: a target on the list it was told last becomes the host, unless a
    [leave] of the target is under way; then the old host becomes a reserved
    guest, every identity keeps its verifier, no connection changes, and
    everybody is told [hostChanged].  A target that is not on the list, or
    whose [leave] is under way, is refused, and nothing changes; only one whose
    [leave] was taken back since can be accepted without being on it, for the
    room does not announce that.  A host that did not declare the capability is
    refused every target. *)
Theorem transfer_host_iff_announced run0 sent0 evs run p target
    (Hbirth : room_birth run0 sent0) (Htrace : room_trace run0 evs run)
    (Hlength : (N.of_nat (length evs) + 3 < u64_modulus)%N)
    (Hopen : closing (rr_state run) = false)
    (Hhost : peers (rr_state run) !! host_peer_id (rr_state run) = Some p)
    (Hvalid : valid_id target MAX_PEER_ID_LENGTH = true) :
  let st := rr_state run in
  let sent := sent0 ++ trace_sends (rr_state run0) evs in
  let out := transfer_host st (host_peer_id st) (cp_conn_id p) RELAY_PROTOCOL_VERSION target in
  if cp_host_transfer_capable p then
    exists targets, last_announced (cp_tx p) sent = Some targets
      /\ (target ∈ targets -> pending st target = false -> role_moved st target out)
      /\ (target ∉ targets \/ pending st target = true ->
            role_refused st out
            \/ (role_moved st target out /\ pending st target = false /\ rolled_back target evs))
  else role_refused st out.
Proof.
  intros st sent out.
  destruct (reachable_invariant (0 + N.of_nat (length evs)) run) as (Hwf & _);
    [by eapply trace_reachable; [eapply birth_reachable|]|lia|].
  assert (Hc : conn_of st (host_peer_id st) = Some (cp_conn_id p)) by (unfold conn_of, st; by rewrite Hhost).
  pose proof (transfer_outcome st (cp_conn_id p) target Hwf Hopen Hc Hvalid) as Hout. fold out in Hout.
  pose proof (can_transfer_candidate st target Hwf) as Hcan.
  destruct (cp_host_transfer_capable p) eqn:Hcap.
  - destruct (trace_informed _ _ _ _ Hbirth Htrace Hlength Hopen _ p Hhost Hcap)
      as (targets & Hlast & Hall & Hex). fold st in Hall, Hex. exists targets.
    split_and!; [exact Hlast| |].
    + intros Hin Hp. assert (can_transfer_host_to st target = true) as Ht by (apply Hcan; auto).
      by rewrite Ht in Hout.
    + intros Hnot. destruct (can_transfer_host_to st target) eqn:Ht; [right|by left].
      destruct (proj1 Hcan eq_refl) as [Hcand Hp]. split_and!; [done|done|].
      destruct (Hex target Hcand) as [?|[?|?]], Hnot; try done; congruence.
  - destruct (can_transfer_host_to st target) eqn:Ht; [|done]. exfalso.
    destruct (proj1 Hcan eq_refl) as [(h & t & Hh & Hid & _ & _ & _ & (Hcap' & _) & _) _].
    apply elem_of_peer_infos in Hh as (q & Hq & _ & Hq'). rewrite Hid in Hq. unfold st in Hq. rewrite Hhost in Hq. simplify_eq. congruence.
Qed.
End announcing.

(** ** Coming back *)

(** The clock reading at which an event prunes reservations. *)
Definition prunes_at (ev : room_event) : option Instant :=
  match ev with
  | EvJoin _ _ _ _ inow _ | EvPrune inow => Some inow
  | _ => None
  end.

(** The readings of all prunes in a trace. *)
Definition prunes (evs : list room_event) : list Instant := omap prunes_at evs.

(** [id] itself does not come back. *)
Definition stays_away (id : string) (ev : room_event) : Prop :=
  match ev with EvJoin _ adm _ _ _ _ => adm_peer_id adm ≠ id | _ => True end.

Definition grace_over (t0 t : Instant) : Prop := (PEER_RESERVATION_GRACE <= since t t0)%Z.

Section returning.
Context `{HashIter} `{CryptoLib} `{!CryptoLaws _}.
Implicit Types (st : RoomState) (id : string) (ev : room_event).

(** An identity nobody has. *)
Definition gone st id : Prop :=
  id ≠ host_peer_id st /\ peers st !! id = None /\ reservations st !! id = None.

(** What became of a guest lost at [t0], after prunes at these readings. *)
Definition kept_or_gone st id (v : Verifier) (t0 : Instant) (ts : list Instant) : Prop :=
  (absent_guest st id v t0 /\ Forall (fun t => ~ grace_over t0 t) ts)
  \/ (gone st id /\ Exists (grace_over t0) ts).

(** Only the guest's own tables matter. *)
Lemma kept_or_gone_frame st st' id v t0 ts :
  id ≠ host_peer_id st' -> peers st' !! id = peers st !! id ->
  reservations st' !! id = reservations st !! id ->
  kept_or_gone st id v t0 ts -> kept_or_gone st' id v t0 ts.
Proof.
  unfold kept_or_gone, absent_guest, gone. intros ? -> ->. naive_solver.
Qed.

Lemma kept_or_gone_absent st id v t0 ts :
  kept_or_gone st id v t0 ts -> id ≠ host_peer_id st /\ peers st !! id = None.
Proof. unfold kept_or_gone, absent_guest, gone. naive_solver. Qed.

Lemma kept_or_gone_prune st id v t0 ts inow :
  kept_or_gone st id v t0 ts ->
  kept_or_gone (prune_expired_reservations st inow).1 id v t0 (ts ++ [inow]).
Proof.
  unfold kept_or_gone. rewrite Forall_app, Forall_singleton, Exists_app, Exists_cons, Exists_nil.
  intros [[Habs Hts]|[(Hid & Hp & Hr) Hts]].
  - pose proof (absent_guest_keep st id v t0 inow Habs) as Hkeep. unfold grace_over.
    destruct (_ <? _)%Z eqn:Hlt.
    + left. split; [|split; [done|lia]].
      destruct Habs as (? & ? & r & Hr & ?). split_and!; [done..|]. exists r. by rewrite Hkeep.
    + right. split; [|right; left; lia]. by destruct Habs as (? & ? & _).
  - right. split; [|by left]. split_and!; [done|done|]. apply eq_None_not_Some. intros [r Hr'].
    apply prune_lookup in Hr' as [Hr' _]. congruence.
Qed.

Lemma join_other st msg adm resume now inow cancel id :
  room_wf st -> closing st = false -> adm_peer_id adm ≠ id -> id ≠ host_peer_id st ->
  let st' := (join_or_resume st msg adm resume now inow cancel).1 in
  let pruned := (prune_expired_reservations st inow).1 in
  host_peer_id st' = host_peer_id st /\ peers st' !! id = peers pruned !! id
  /\ reservations st' !! id = reservations pruned !! id.
Proof.
  intros Hwf Hopen Hne Hid st' pruned.
  pose proof (join_or_resume_post st msg adm resume now inow cancel Hwf) as Hspec.
  unfold join_outcome in Hspec. fold pruned in Hspec.
  destruct (join_spec _ _ _ _) eqn:Hv; try (unfold st'; by rewrite Hspec).
  - exfalso. revert Hv. unfold join_spec. change (closing pruned) with (closing st). rewrite Hopen.
    by repeat case_match.
  - destruct Hspec as (w & _ & Hpeers & Hres & _ & Hhost & _). fold st' in Hpeers, Hres, Hhost.
    rewrite Hpeers, Hres, Hhost, lookup_insert_ne by done. split_and!; [done..|].
    case_bool_decide; [done|]. by rewrite lookup_insert_ne.
Qed.

Lemma transfer_other st id' c v target id :
  id ≠ host_peer_id st -> peers st !! id = None ->
  let st' := (transfer_host st id' c v target).1 in
  id ≠ host_peer_id st' /\ peers st' = peers st /\ reservations st' !! id = reservations st !! id.
Proof.
  intros Hid Hp st'. destruct (transfer_host_inv st id' c v target)
    as [(err & text & Heq & _)|(_ & _ & _ & _ & _ & _ & Hcan & r & _ & _ & Heq)];
    unfold st'; rewrite Heq; [done|].
  apply is_valid_target_legal in Hcan as (h & t & _ & _ & Ht & Htid & _); [|apply peer_infos_unique].
  apply elem_of_peer_infos in Ht as (p & Hpt & _). rewrite Htid in Hpt.
  assert (id ≠ target) by congruence. unfold transferred. room_cbn.
  by rewrite lookup_insert_ne, lookup_delete_ne.
Qed.

(** An event that is not its own return leaves an absent guest alone, or
    prunes. *)
Lemma event_other run ev id :
  room_wf (rr_state run) -> event_allowed run ev -> stays_away id ev ->
  id ≠ host_peer_id (rr_state run) -> peers (rr_state run) !! id = None ->
  let st := rr_state run in let st' := room_apply st ev in
  closing st' = false ->
  let base := match prunes_at ev with Some t => (prune_expired_reservations st t).1 | None => st end in
  id ≠ host_peer_id st' /\ peers st' !! id = peers base !! id
  /\ reservations st' !! id = reservations base !! id.
Proof.
  intros Hwf Hallowed Haway Hid Hp st st' Hopen base.
  assert (Hcur : forall c, is_current st id c = false).
  { intros c. apply not_current. unfold conn_of, st. by rewrite Hp. }
  assert (Hopen0 : closing st = false).
  { destruct (closing st) eqn:Hc; [|done]. unfold st' in Hopen. by rewrite closing_apply in Hopen. }
  unfold st', base in *. clear st' base.
  destruct ev as [host token now cancel|msg adm resume now inow cancel|id' c token v|id' c persisted now
    |id' c token v|gs persisted|id' c v target|id' c pl now|id' c target pl now|id' c now inow|inow|drop];
    cbn [room_apply prunes_at stays_away] in *.
  - unfold reconnect_host, admit_peer. cbn [fst]. room_cbn. rewrite lookup_insert_ne by done. done.
  - destruct (join_other st msg adm resume now inow cancel id) as (Hh & ? & ?); [done..|]. by rewrite Hh.
  - destruct (decide (id' = id)) as [->|Hne].
    + unfold begin_leave. by rewrite Hcur, orb_true_r.
    + unfold begin_leave. repeat case_match; cbn [fst]; room_cbn; rewrite ?lookup_alter_ne by done; done.
  - destruct (decide (id' = id)) as [->|Hne].
    + unfold finish_leave. by rewrite Hcur.
    + unfold finish_leave. repeat case_match; cbn [fst]; room_cbn;
        rewrite ?lookup_alter_ne, ?lookup_delete_ne by done; done.
  - unfold begin_end_session in *. by repeat case_match.
  - cbn [event_allowed] in Hallowed. unfold st in Hopen0. congruence.
  - destruct (transfer_other st id' c v target id) as (? & -> & ?); done.
  - unfold broadcast. by repeat case_match.
  - unfold send_to. by repeat case_match.
  - destruct (decide (id' = id)) as [->|Hne].
    + unfold handle_disconnect. by rewrite Hcur, orb_true_r.
    + unfold handle_disconnect. repeat case_match; cbn [fst]; room_cbn;
        rewrite ?lookup_alter_ne, ?lookup_delete_ne by done; done.
  - done.
  - by destruct drop.
Qed.

Lemma trace_kept_or_gone k run0 evs run id v t0 :
  room_reachable k run0 -> room_trace run0 evs run -> (k + N.of_nat (length evs) + 3 < u64_modulus)%N ->
  Forall (stays_away id) evs -> closing (rr_state run) = false ->
  absent_guest (rr_state run0) id v t0 ->
  kept_or_gone (rr_state run) id v t0 (prunes evs).
Proof.
  intros Hreach0 Htrace Hn Haway Hopen Habs.
  induction Htrace as [|evs run1 ev run2 Htrace IH Hstep]; [by left|].
  rewrite length_app in Hn. cbn in Hn. apply Forall_app in Haway as [Haway Hev].
  apply Forall_cons in Hev as [Hev _]. destruct Hstep as [Hallowed]. cbn [rr_state] in Hopen |- *.
  assert (Hopen1 : closing (rr_state run1) = false).
  { destruct (closing (rr_state run1)) eqn:Hc; [|done]. by rewrite closing_apply in Hopen. }
  specialize (IH ltac:(lia) Haway Hopen1).
  destruct (reachable_invariant _ _ (trace_reachable _ _ _ _ Hreach0 Htrace) ltac:(lia)) as (Hwf & _).
  destruct (kept_or_gone_absent _ _ _ _ _ IH) as [Hid Hp].
  destruct (event_other run1 ev id Hwf Hallowed Hev Hid Hp Hopen) as (Hid' & Hp' & Hr').
  unfold prunes. rewrite omap_app. cbn [omap list_omap]. destruct (prunes_at ev) as [t|].
  - eapply kept_or_gone_frame; [exact Hid'|exact Hp'|exact Hr'|]. by apply kept_or_gone_prune.
  - rewrite app_nil_r. by eapply kept_or_gone_frame.
Qed.

(** What the next call finds once it has pruned. *)
Lemma returning_identity st id v t0 ts inow :
  kept_or_gone st id v t0 ts -> Forall (fun t => (t <= inow)%Z) ts ->
  let pruned := (prune_expired_reservations st inow).1 in
  if (since inow t0 <? PEER_RESERVATION_GRACE)%Z
  then identities pruned !! id = Some v /\ pending pruned id = false
  else identities pruned !! id = None.
Proof.
  intros [[Habs _]|[(Hid & Hp & Hr) Hover]] Hclock pruned.
  - pose proof (absent_guest_identity st id v t0 inow Habs) as Hident. fold pruned in Hident.
    pose proof (absent_guest_keep st id v t0 inow Habs) as Hkeep. fold pruned in Hkeep.
    destruct (_ <? _)%Z; [|done]. split; [done|]. unfold pending. rewrite Hkeep.
    by destruct Habs as (_ & _ & r & -> & _ & _ & ?).
  - apply Exists_exists in Hover as (t & Ht & Hover). rewrite Forall_forall in Hclock.
    specialize (Hclock t Ht). unfold grace_over, since in *. destruct (_ <? _)%Z eqn:Hlt; [lia|].
    rewrite identities_guest by done. apply fmap_None, eq_None_not_Some. intros [r Hr'].
    apply prune_lookup in Hr' as [Hr' _]. congruence.
Qed.

(** A disconnect starts the grace clock. *)
Lemma disconnect_absent k run0 id c v now0 t0 run1 :
  room_reachable k run0 -> (k + 3 < u64_modulus)%N -> closing (rr_state run0) = false ->
  id ≠ host_peer_id (rr_state run0) -> conn_of (rr_state run0) id = Some c ->
  identities (rr_state run0) !! id = Some v -> room_step run0 (EvDisconnect id c now0 t0) run1 ->
  absent_guest (rr_state run1) id v t0.
Proof.
  intros Hreach Hk Hopen Hid Hc Hv [Hallowed]. cbn [rr_state room_apply event_allowed event_conn] in *.
  destruct (room_reachable_wf _ _ Hreach Hk) as (Hwf & _ & Hpending).
  pose proof (handle_disconnect_spec _ id c now0 t0 Hwf Hopen Hc) as Hspec.
  assert (Hp : pending (rr_state run0) id = false).
  { apply not_true_iff_false. intros (c' & Hin & Hc')%(Hpending Hopen). congruence. }
  assert (Hh : host_peer_id (handle_disconnect (rr_state run0) id c now0 t0).1 = host_peer_id (rr_state run0)).
  { unfold handle_disconnect. by repeat case_match. }
  destruct (handle_disconnect _ _ _ _ _) as [st' e]. cbn [fst] in *.
  destruct Hspec as (Hpeers & _ & _ & Hres & _). destruct (Hres Hid) as (r & Hr & Hr').
  rewrite identities_guest, Hr in Hv by done. unfold pending in Hp. rewrite Hr in Hp.
  injection Hv as Hv. split_and!; [by rewrite Hh|by rewrite Hpeers, lookup_delete_eq|].
  exists (set_absent_since r (Some t0)). by split_and!.
Qed.

(** C33: the grace period.  A guest of a reachable room loses its connection at
    [t0].  Then anything may happen in the room, to anybody, as long as the room
    stays open and the guest itself does not come back: its identity is kept
    under its verifier until the first prune, by a sweep or by somebody's join,
    at five minutes or later, and that prune frees it.  When the guest comes
    back before five minutes are over, by [join] or by [resume], the proof of
    its identity is all it needs: it is admitted under a fresh connection id;
    without the proof it is refused and the identity is still kept.  From five
    minutes on [resume] is refused, and [join] treats it as a newcomer. *)
Theorem reservation_grace k run0 id c v now0 t0 run1 evs run
    (Hreach : room_reachable k run0) (Hlength : (k + N.of_nat (length evs) + 4 < u64_modulus)%N)
    (Hguest : id ≠ host_peer_id (rr_state run0)) (Hconn : conn_of (rr_state run0) id = Some c)
    (Hv : identities (rr_state run0) !! id = Some v)
    (Hlost : room_step run0 (EvDisconnect id c now0 t0) run1)
    (Htrace : room_trace run1 evs run) (Haway : Forall (stays_away id) evs)
    (Hopen : closing (rr_state run) = false) :
  let st := rr_state run in
  (Forall (fun t => ~ grace_over t0 t) (prunes evs) -> identities st !! id = Some v)
  /\ (Exists (grace_over t0) (prunes evs) -> identities st !! id = None)
  /\ forall msg adm resume now inow cancel, adm_peer_id adm = id ->
      Forall (fun t => (t <= inow)%Z) (prunes evs) ->
      let presented := from_token (cm_reconnect_token msg) in
      let '(st', e) := join_or_resume st msg adm resume now inow cancel in
      let admitted w := eff_assigned_conn_id e = Some (next_conn_id st)
        /\ conn_of st' id = Some (next_conn_id st) /\ identities st' !! id = Some w in
      let refused := e = effects_error PeerIdUnavailable "Peer ID is unavailable"
        /\ peers st' = peers st in
      if (since inow t0 <? PEER_RESERVATION_GRACE)%Z then
        if presented == Some v then admitted v else refused /\ identities st' !! id = Some v
      else if resume then refused /\ identities st' !! id = None
      else match presented with
           | None => refused
           | Some w =>
             if MAX_ROOM_SIZE - 1 <=? size (reservations (prune_expired_reservations st inow).1)
             then e = effects_error RoomFull "Room is full" /\ peers st' = peers st
             else admitted w
           end.
Proof.
  intros st. pose proof (trace_open _ _ _ Htrace Hopen) as Hopen1.
  assert (Hopen0 : closing (rr_state run0) = false).
  { destruct (closing (rr_state run0)) eqn:Hc; [|done]. destruct Hlost as [_]. cbn [rr_state] in Hopen1.
    by rewrite closing_apply in Hopen1. }
  pose proof (disconnect_absent _ _ _ _ _ _ _ _ Hreach ltac:(lia) Hopen0 Hguest Hconn Hv Hlost) as Habs.
  pose proof (reach_step _ _ _ _ Hreach Hlost) as Hreach1.
  pose proof (trace_kept_or_gone _ _ _ _ _ _ _ Hreach1 Htrace ltac:(lia) Haway Hopen Habs) as Hkept.
  destruct (reachable_invariant _ _ (trace_reachable _ _ _ _ Hreach1 Htrace) ltac:(lia)) as (Hwf & _).
  fold st in Hkept, Hwf, Hopen. split_and!.
  - intros Hnot. destruct Hkept as [[(Hid & _ & r & Hr & <- & _) _]|[_ Hover]].
    + by rewrite identities_guest, Hr.
    + rewrite Forall_forall in Hnot. apply Exists_exists in Hover as (t & Ht & Hover). by destruct (Hnot t Ht).
  - intros Hover. destruct Hkept as [[_ Hnot]|[(Hid & _ & Hr) _]].
    + rewrite Forall_forall in Hnot. apply Exists_exists in Hover as (t & Ht & Hover). by destruct (Hnot t Ht).
    + by rewrite identities_guest, Hr.
  - intros msg adm resume now inow cancel Hadm Hclock presented.
    pose proof (returning_identity _ _ _ _ _ inow Hkept Hclock) as Hident. cbv zeta in Hident.
    pose proof (join_or_resume_post st msg adm resume now inow cancel Hwf) as Hspec.
    unfold join_outcome in Hspec. fold presented in Hspec. rewrite Hadm in Hspec.
    revert Hspec. destruct (join_or_resume st msg adm resume now inow cancel) as [st' e].
    set (pruned := (prune_expired_reservations st inow).1) in *.
    change (next_conn_id st) with (next_conn_id pruned). change (peers st) with (peers pruned).
    assert (Hadmit : forall w, presented = Some w -> admission_post pruned st' e msg adm resume now cancel w ->
      eff_assigned_conn_id e = Some (next_conn_id pruned) /\ conn_of st' id = Some (next_conn_id pruned)
      /\ identities st' !! id = Some w).
    { intros w _ (Hpeers & _ & Hids & _ & _ & _ & _ & -> & _). rewrite Hadm in Hpeers, Hids.
      unfold conn_of. by rewrite Hpeers, Hids, !lookup_insert_eq. }
    unfold join_spec. change (closing pruned) with (closing st). rewrite Hopen.
    destruct (_ <? PEER_RESERVATION_GRACE)%Z.
    + destruct Hident as [Hids ->]. rewrite Hids, andb_true_r. case_bool_decide as Htok.
      * intros (w & Hw & Hpost). replace v with w by congruence. by apply Hadmit.
      * intros [= -> ->]. by split_and!.
    + rewrite Hident. destruct resume; [intros [= -> ->]; by split_and!|].
      destruct presented as [w|]; [|intros [= -> ->]; by split]. cbn [bool_decide].
      destruct (_ <=? _); [intros [= -> ->]; by split|].
      intros (w' & [= <-] & Hpost). by apply Hadmit.
Qed.
End returning.
