(* ===== verification/RoomSamples.v ===== *)
(** * Concrete rooms

    A small cast of rooms, built by the operations themselves on the sample
    parameters, at which the theorems about rooms are applied. *)
From S2P Require Import Prelude.
From S2P Require Import Protocol.
From S2P Require Import Ids.
From S2P Require Import Samples.
From S2P Require Import HostTransfer.
From S2P Require Import Room.
From S2P Require Import RoomInv.
From S2P Require Import RoomThms.
From S2P Require Import RoomLife.

#[local] Existing Instance canonical_order.
#[local] Existing Instance sample_crypto.

Definition host_token : string := Eval vm_compute in sample_token Byte.x01.
Definition guest_token : string := Eval vm_compute in sample_token Byte.x02.
Definition token_verifier (b : byte) : Verifier := from_raw_bytes (replicate 32 b).

Definition sample_admission (id : string) (tx : nat) : Admission :=
  {| adm_peer_id := id; adm_tx := tx; adm_sync_protocol_version := 5;
     adm_host_transfer_capable := true |}.

Definition sample_msg (msg_type id token : string) : ClientMessage :=
  {| cm_msg_type := msg_type; cm_session_id := "room1"; cm_peer_id := id;
     cm_reconnect_token := token; cm_protocol_version := 2; cm_sync_protocol_version := 5;
     cm_capabilities := ["hostTransfer"]; cm_to := ""; cm_payload := None |}.

Definition secs (s : Z) : Z := from_secs s.

(** The host alone, then with the guest [g1] on connection 2. *)
Definition room_host : RoomState :=
  (new_room "room1" "host1" (token_verifier Byte.x01) host_token "10.0.0.1"
     (sample_admission "host1" 1) (secs 1000) 11).1.
Definition run_host : RoomRun := {| rr_state := room_host; rr_leaving := ∅ |}.

Definition ev_join : room_event :=
  EvJoin (sample_msg "join" "g1" guest_token) (sample_admission "g1" 2) false
    (secs 1001) (secs 1) 12.
Definition run_pair : RoomRun :=
  {| rr_state := room_apply room_host ev_join; rr_leaving := leaving_after run_host ev_join |}.

(** The guest asked to leave. *)
Definition ev_begin_leave : room_event := EvBeginLeave "g1" 2 guest_token 2.
Definition run_leaving : RoomRun :=
  {| rr_state := room_apply (rr_state run_pair) ev_begin_leave;
     rr_leaving := leaving_after run_pair ev_begin_leave |}.

(** The host reconnected: connection 1 is stale. *)
Definition ev_reconnect : room_event :=
  EvReconnect (sample_admission "host1" 3) host_token (secs 1002) 13.
Definition run_replaced : RoomRun :=
  {| rr_state := room_apply room_host ev_reconnect;
     rr_leaving := leaving_after run_host ev_reconnect |}.
Definition run_replaced' : RoomRun :=
  {| rr_state := room_apply (rr_state run_replaced) (EvPrune (secs 2));
     rr_leaving := leaving_after run_replaced (EvPrune (secs 2)) |}.

(** The host ended the session. *)
Definition ev_end : room_event := EvBeginEnd "host1" 1 host_token 2.
Definition run_ending : RoomRun :=
  {| rr_state := room_apply (rr_state run_pair) ev_end;
     rr_leaving := leaving_after run_pair ev_end |}.
Definition run_ended : RoomRun :=
  {| rr_state := room_apply (rr_state run_ending) (EvFinishEnd [2] true);
     rr_leaving := leaving_after run_ending (EvFinishEnd [2] true) |}.

(** The guest lost its connection at second 10. *)
Definition room_absent : RoomState :=
  (handle_disconnect (rr_state run_pair) "g1" 2 (secs 1010) (secs 10)).1.

Definition run_after (run : RoomRun) (ev : room_event) : RoomRun :=
  {| rr_state := room_apply (rr_state run) ev; rr_leaving := leaving_after run ev |}.
Definition run_absent : RoomRun :=
  run_after run_pair (EvDisconnect "g1" 2 (secs 1010) (secs 10)).
Definition ev_message : room_event := EvBroadcast "host1" 1 (Some "{}") (secs 1020).

(** Seven guests restored as connected. *)
Definition restored_seven : gmap string (Verifier * option Instant) :=
  list_to_map ((fun id => (id, (token_verifier Byte.x02, None)))
                 <$> ["a"; "b"; "c"; "d"; "e"; "f"; "g"]).

Lemma run_host_reachable : room_reachable 0 run_host.
Proof. apply reach_new. Qed.

Lemma run_pair_reachable : room_reachable 1 run_pair.
Proof.
  apply (reach_step 0 run_host ev_join); [apply run_host_reachable|].
  by constructor.
Qed.

Lemma run_leaving_reachable : room_reachable 2 run_leaving.
Proof.
  apply (reach_step 1 run_pair ev_begin_leave); [apply run_pair_reachable|].
  constructor. vm_compute. done.
Qed.

Lemma run_replaced_reachable : room_reachable 1 run_replaced.
Proof.
  apply (reach_step 0 run_host ev_reconnect); [apply run_host_reachable|].
  by constructor.
Qed.

Lemma room_host_wf : room_wf room_host.
Proof. apply new_room_wf. Qed.

Lemma room_pair_wf : room_wf (rr_state run_pair).
Proof.
  eapply room_wf_apply; [apply room_host_wf | by vm_compute].
Qed.

Lemma room_absent_wf : room_wf room_absent.
Proof.
  change room_absent with
    (room_apply (rr_state run_pair) (EvDisconnect "g1" 2 (secs 1010) (secs 10))).
  apply room_wf_apply; [apply room_pair_wf | by vm_compute].
Qed.
