(* ===== verification/RoomWitness.v ===== *)
(** * The room theorems at concrete rooms

    Each theorem about rooms and host transfer, applied to the rooms of
    [RoomSamples]: its hypotheses hold there. *)
From S2P Require Import Prelude.
From S2P Require Import Protocol.
From S2P Require Import Ids.
From S2P Require Import Samples.
From S2P Require Import HostTransfer.
From S2P Require Import Room.
From S2P Require Import RoomInv.
From S2P Require Import RoomThms.
From S2P Require Import RoomLife.
From S2P Require Import RoomTrace.
From S2P Require Import RoomSamples.

#[local] Existing Instance canonical_order.
#[local] Existing Instance sample_crypto.

Lemma compute_eligibility_spec_witness :
  exists recipients targets,
    compute_eligibility "host1" (peer_infos (rr_state run_pair)) (is_reserved (rr_state run_pair))
      = Some (recipients, targets) /\ NoDup targets.
Proof.
  pose proof (compute_eligibility_spec "host1" (peer_infos (rr_state run_pair))
    (is_reserved (rr_state run_pair)) (peer_infos_unique (rr_state run_pair))) as Hspec.
  destruct (compute_eligibility _ _ _) as [[recipients targets]|] eqn:Heq.
  - exists recipients, targets. destruct Hspec as (_ & _ & _ & _ & Hnd & _). by split.
  - vm_compute in Heq. discriminate Heq.
Defined.

Lemma room_reachable_wf_witness :
  room_wf (rr_state run_pair) /\ size (peers (rr_state run_pair)) <= MAX_ROOM_SIZE.
Proof.
  destruct (room_reachable_wf 1 run_pair run_pair_reachable ltac:(by vm_compute))
    as (Hwf & Hsize & _).
  exact (conj Hwf Hsize).
Defined.

Lemma join_or_resume_spec_witness :
  is_Some (eff_assigned_conn_id
    (join_or_resume room_host (sample_msg "join" "g1" guest_token) (sample_admission "g1" 2)
       false (secs 1001) (secs 1) 12).2).
Proof.
  apply (join_or_resume_spec room_host (sample_msg "join" "g1" guest_token)
    (sample_admission "g1" 2) false (secs 1001) (secs 1) 12 room_host_wf).
  vm_compute. reflexivity.
Defined.

Lemma identity_verifier_stable_witness :
  identities (room_apply room_host ev_join) !! "host1" = Some (token_verifier Byte.x01).
Proof.
  destruct (identities (room_apply room_host ev_join) !! "host1") as [v'|] eqn:Hv'.
  - destruct (identity_verifier_stable room_host ev_join "host1" (token_verifier Byte.x01) v'
      room_host_wf (identities_host room_host) Hv')
      as [->|(msg & adm & now & inow & cancel & resume & Hev & Hadm & _)]; [reflexivity|].
    injection Hev as <- <- _ _ _ _. discriminate Hadm.
  - vm_compute in Hv'. discriminate Hv'.
Defined.

Lemma stale_connection_powerless_witness : powerless (rr_state run_replaced') "host1" 1.
Proof.
  apply (stale_connection_powerless 1 1 run_replaced run_replaced' "host1" 1
    run_replaced_reachable); [|by vm_compute|by vm_compute|].
  - apply (steps_step 0 run_replaced run_replaced run_replaced' (EvPrune (secs 2)));
      [apply steps_refl | by constructor].
  - vm_compute. discriminate.
Defined.

Lemma begin_leave_spec_witness :
  may_leave (rr_state run_pair) "g1" 2 guest_token 2.
Proof.
  apply (begin_leave_spec (rr_state run_pair) "g1" 2 guest_token 2 (secs 1003)).
  vm_compute. reflexivity.
Defined.

Lemma finish_leave_spec_witness :
  identities (finish_leave (rr_state run_leaving) "g1" 2 true (secs 1004)).1
  = delete "g1" (identities (rr_state run_leaving)).
Proof.
  pose proof (finish_leave_spec 2 run_leaving "g1" 2 true (secs 1004) run_leaving_reachable
    ltac:(by vm_compute) ltac:(vm_compute; set_solver) ltac:(by vm_compute)) as Hspec.
  cbv zeta in Hspec. destruct (finish_leave _ _ _ _ _) as [st' e].
  destruct Hspec as (_ & Hids & _). exact Hids.
Defined.

Lemma end_session_spec_witness :
  may_end (rr_state run_pair) "host1" 1 host_token 2.
Proof.
  pose proof (end_session_spec (rr_state run_pair) "host1" 1 host_token 2
    (rr_state run_ending) true) as Hspec.
  destruct (begin_end_session (rr_state run_pair) "host1" 1 host_token 2)
    as [st1 [[owner guests]|e]] eqn:Hout.
  - destruct Hspec as (Hmay & _). exact Hmay.
  - vm_compute in Hout. discriminate Hout.
Defined.

Lemma closing_is_final_witness : closing (rr_state run_ended) = true.
Proof.
  apply (closing_is_final 1 run_ending run_ended "host1" 1).
  - apply (steps_step 0 run_ending run_ending run_ended (EvFinishEnd [2] true));
      [apply steps_refl|]. constructor. vm_compute. reflexivity.
  - vm_compute. reflexivity.
Defined.

Lemma transfer_host_iff_announced_witness :
  host_peer_id (transfer_host (rr_state run_pair) "host1" 1 2 "g1").1 = "g1"
  /\ role_refused (rr_state run_leaving) (transfer_host (rr_state run_leaving) "host1" 1 2 "g1").
Proof.
  assert (Hjoin : room_trace run_host [ev_join] run_pair).
  { apply (trace_snoc run_host [] run_host); [apply trace_nil|]. by constructor. }
  assert (Hleave : room_trace run_host [ev_join; ev_begin_leave] run_leaving).
  { apply (trace_snoc run_host [ev_join] run_pair); [exact Hjoin|]. constructor. vm_compute. done. }
  pose proof (born_new "room1" "host1" (token_verifier Byte.x01) host_token "10.0.0.1"
    (sample_admission "host1" 1) (secs 1000) 11) as Hborn.
  destruct (peers (rr_state run_pair) !! "host1") as [p|] eqn:Hp; [|by vm_compute in Hp].
  assert (p = {| cp_conn_id := 1; cp_tx := 1; cp_sync_protocol_version := 5;
                 cp_host_transfer_capable := true; cp_cancel := 11 |}) as ->
    by (vm_compute in Hp; by injection Hp as <-).
  split.
  - pose proof (transfer_host_iff_announced run_host _ [ev_join] run_pair _ "g1" Hborn Hjoin
      ltac:(by vm_compute) ltac:(by vm_compute) Hp ltac:(by vm_compute)) as Hspec.
    cbv zeta in Hspec. cbn [cp_host_transfer_capable] in Hspec.
    destruct Hspec as (targets & Hlast & Hmoved & _).
    vm_compute in Hlast. injection Hlast as <-.
    pose proof (Hmoved ltac:(by left) ltac:(by vm_compute)) as Hrole. unfold role_moved in Hrole.
    change (host_peer_id (rr_state run_pair)) with "host1" in Hrole.
    change RELAY_PROTOCOL_VERSION with 2%N in Hrole. cbn [cp_conn_id] in Hrole.
    destruct (transfer_host _ _ _ _ _) as [st' e]. apply Hrole.
  - pose proof (transfer_host_iff_announced run_host _ [ev_join; ev_begin_leave] run_leaving _ "g1"
      Hborn Hleave ltac:(by vm_compute) ltac:(by vm_compute) Hp ltac:(by vm_compute)) as Hspec.
    cbv zeta in Hspec. cbn [cp_host_transfer_capable] in Hspec.
    destruct Hspec as (targets & _ & _ & Hnot).
    destruct (Hnot (or_intror eq_refl)) as [Hrefused|(_ & Hpend & _)]; [exact Hrefused|].
    vm_compute in Hpend. discriminate Hpend.
Defined.

Lemma message_delivery_witness :
  sent_to_others (rr_state run_pair) "g1" (relayed_message "g1" (Some "{}"))
    (eff_broadcast (broadcast (rr_state run_pair) "g1" 2 (Some "{}") (secs 1005)).2).
Proof.
  destruct (message_delivery (rr_state run_pair) "g1" 2 (Some "{}") (secs 1005)
    ltac:(by vm_compute) ltac:(by vm_compute)) as [Hspec _].
  destruct (broadcast _ _ _ _ _) as [st' e]. apply Hspec.
Defined.

Lemma handle_disconnect_spec_witness :
  identities room_absent = identities (rr_state run_pair).
Proof.
  pose proof (handle_disconnect_spec (rr_state run_pair) "g1" 2 (secs 1010) (secs 10)
    room_pair_wf ltac:(by vm_compute) ltac:(by vm_compute)) as Hspec.
  unfold room_absent. destruct (handle_disconnect _ _ _ _ _) as [st' e]. apply Hspec.
Defined.

Lemma reservation_grace_witness :
  let st := rr_state (run_after run_absent ev_message) in
  identities st !! "g1" = Some (token_verifier Byte.x02)
  /\ conn_of (join_or_resume st (sample_msg "resume" "g1" guest_token)
                (sample_admission "g1" 4) true (secs 1300) (secs 300) 14).1 "g1"
     = Some (next_conn_id st).
Proof.
  assert (Htrace : room_trace run_absent [ev_message] (run_after run_absent ev_message)).
  { apply (trace_snoc run_absent [] run_absent ev_message); [apply trace_nil|]. by constructor. }
  assert (Hlost : room_step run_pair (EvDisconnect "g1" 2 (secs 1010) (secs 10)) run_absent)
    by (by constructor).
  assert (Haway : Forall (stays_away "g1") [ev_message]) by (by apply Forall_singleton).
  destruct (reservation_grace 1 run_pair "g1" 2 (token_verifier Byte.x02) (secs 1010) (secs 10)
    run_absent [ev_message] (run_after run_absent ev_message) run_pair_reachable
    ltac:(by vm_compute) ltac:(by vm_compute) ltac:(by vm_compute) ltac:(by vm_compute)
    Hlost Htrace Haway ltac:(by vm_compute)) as (Hkept & _ & Hback).
  split.
  - apply Hkept. by constructor.
  - pose proof (Hback (sample_msg "resume" "g1" guest_token) (sample_admission "g1" 4) true
      (secs 1300) (secs 300) 14 eq_refl ltac:(by constructor)) as Hspec. cbv zeta in Hspec.
    replace (since (secs 300) (secs 10) <? PEER_RESERVATION_GRACE)%Z with true in Hspec
      by (by vm_compute).
    replace (from_token (cm_reconnect_token (sample_msg "resume" "g1" guest_token))
               == Some (token_verifier Byte.x02)) with true in Hspec by (by vm_compute).
    destruct (join_or_resume _ _ _ _ _ _ _) as [st' e]. apply Hspec.
Defined.

Lemma restored_reservation_never_expires_witness :
  (join_or_resume
     (restore "room1" "host1" (token_verifier Byte.x01) "" restored_seven 0 0)
     (sample_msg "join" "g1" guest_token) (sample_admission "g1" 4) false
     (secs 80000) (secs 80000) 14).2 = effects_error RoomFull "Room is full".
Proof.
  apply (restored_reservation_never_expires "room1" "host1" (token_verifier Byte.x01) ""
    restored_seven 0 0); try (by vm_compute).
  - intros id r Hr. apply elem_of_list_to_map_2 in Hr.
    apply list_elem_of_fmap in Hr as (id' & [= -> ->] & _). reflexivity.
  - vm_compute. eauto.
Defined.
