(* ===== verification/NetAddr.v ===== *)
(** * Addresses of the standard library: [std::net::IpAddr]

    An address is its big-endian number.  [parse_ip] is [IpAddr::from_str], the
    recursive-descent parser of the standard library: a parser reads from the
    front of the input and returns the rest; [read_atomically] is the option
    monad, since a parser that fails returns no rest. *)
From S2P Require Import Prelude.
From stdpp Require Import pretty.

Inductive IpAddr := V4 (v4 : N) | V6 (v6 : N).

#[export] Instance IpAddr_eq_dec : EqDecision IpAddr.
Proof. solve_decision. Defined.

#[export] Instance IpAddr_countable : Countable IpAddr.
Proof.
  refine (inj_countable'
    (fun a => match a with V4 n => inl n | V6 n => inr n end)
    (fun x => match x with inl n => V4 n | inr n => V6 n end) _).
  by intros [].
Defined.

(** [Ipv6Addr::to_ipv4_mapped]: an address in [::ffff:0:0/96]. *)
Definition to_ipv4_mapped (v6 : N) : option N :=
  if (N.shiftr v6 32 =? 65535)%N then Some (N.land v6 (N.ones 32)) else None.

(** ** Characters *)

Definition ascii_code (c : ascii) : N := Ascii.N_of_ascii c.

(** [char::to_digit(radix)] for the two radices in use. *)
Definition to_digit (radix : N) (c : ascii) : option N :=
  let n := ascii_code c in
  let d := if (48 <=? n)%N && (n <=? 57)%N then Some (n - 48)%N
           else if (97 <=? n)%N && (n <=? 102)%N then Some (n - 87)%N
           else if (65 <=? n)%N && (n <=? 70)%N then Some (n - 55)%N
           else None in
  match d with
  | Some d => if (d <? radix)%N then Some d else None
  | None => None
  end.

(** The whitespace [str::trim] removes, among the ASCII characters. *)
Definition is_whitespace (c : ascii) : bool :=
  let n := ascii_code c in (n =? 32)%N || ((9 <=? n)%N && (n <=? 13)%N).

(** ** The parser *)

Definition parser (A : Type) : Type := list ascii -> option (A * list ascii).

Definition read_given_char (c : ascii) : parser unit := fun s =>
  match s with
  | x :: s => if bool_decide (x = c) then Some (tt, s) else None
  | [] => None
  end.

(** The digits of a number, checked against the largest value [max]. *)
Fixpoint read_digits (radix max : N) (max_digits : nat) (s : list ascii)
    (acc : N) (count : nat) : option (N * nat * list ascii) :=
  match s with
  | c :: s' =>
    match to_digit radix c with
    | Some d =>
      let acc := (acc * radix + d)%N in
      if (max <? acc)%N then None
      else if max_digits <? S count then None
      else read_digits radix max max_digits s' acc (S count)
    | None => Some (acc, count, s)
    end
  | [] => Some (acc, count, [])
  end.

Definition read_number (radix max : N) (max_digits : nat) (allow_zero_prefix : bool)
    : parser N := fun s =>
  let has_leading_zero :=
    match s with c :: _ => bool_decide (to_digit 10 c = Some 0%N) | [] => false end in
  match read_digits radix max max_digits s 0 0 with
  | Some (n, count, s') =>
    if count =? 0 then None
    else if negb allow_zero_prefix && has_leading_zero && (1 <? count) then None
    else Some (n, s')
  | None => None
  end.

Definition read_separator {A} (sep : ascii) (index : nat) (p : parser A) : parser A := fun s =>
  if index =? 0 then p s
  else match read_given_char sep s with Some (_, s) => p s | None => None end.

Definition dot : ascii := Ascii.ascii_of_N 46.
Definition colon : ascii := Ascii.ascii_of_N 58.
Definition comma : ascii := Ascii.ascii_of_N 44.

Fixpoint read_octets (fuel index : nat) (acc : N) : parser N := fun s =>
  match fuel with
  | 0 => Some (acc, s)
  | S fuel =>
    match read_separator dot index (read_number 10 255 3 false) s with
    | Some (o, s) => read_octets fuel (S index) (acc * 256 + o) s
    | None => None
    end
  end.

Definition read_ipv4_addr : parser N := read_octets 4 0 0.

(** [read_groups] over the [slots] groups still to fill: the groups read, in
    order, and whether the last two came from an embedded IPv4 address. *)
Fixpoint read_groups (slots i limit : nat) (s : list ascii) : list N * bool * list ascii :=
  match slots with
  | 0 => ([], false, s)
  | S slots =>
    match (if i <? limit - 1 then read_separator colon i read_ipv4_addr s else None) with
    | Some (v4, s) => ([N.shiftr v4 16; N.land v4 65535]%N, true, s)
    | None =>
      match read_separator colon i (read_number 16 65535 4 true) s with
      | Some (g, s) =>
        let '(gs, v4, s) := read_groups slots (S i) limit s in (g :: gs, v4, s)
      | None => ([], false, s)
      end
    end
  end.

Definition groups_addr (gs : list N) : N :=
  foldl (fun acc g => acc * 65536 + g)%N 0%N gs.

Definition read_ipv6_addr : parser N := fun s =>
  let '(head, head_ipv4, s) := read_groups 8 0 8 s in
  if length head =? 8 then Some (groups_addr head, s)
  else if head_ipv4 then None
  else
  match read_given_char colon s with
  | Some (_, s) =>
    match read_given_char colon s with
    | Some (_, s) =>
      let limit := 8 - (length head + 1) in
      let '(tail, _, s) := read_groups limit 0 limit s in
      Some (groups_addr (head ++ replicate (8 - length head - length tail) 0%N ++ tail), s)
    | None => None
    end
  | None => None
  end.

(** [IpAddr::from_str]: the whole input must be read. *)
Definition parse_ip (text : string) : option IpAddr :=
  let s := String.list_ascii_of_string text in
  match read_ipv4_addr s with
  | Some (a, []) => Some (V4 a)
  | Some (_, _ :: _) => None
  | None => match read_ipv6_addr s with
            | Some (a, []) => Some (V6 a)
            | _ => None
            end
  end.

(** ** Splitting text *)

(** [str::split(c)]: one piece more than there are separators. *)
Fixpoint split_chars (c : ascii) (s : list ascii) : list (list ascii) :=
  match s with
  | [] => [[]]
  | x :: s =>
    let rest := split_chars c s in
    if bool_decide (x = c) then [] :: rest
    else match rest with
         | piece :: rest => (x :: piece) :: rest
         | [] => [[x]]
         end
  end.

Definition split (c : ascii) (s : string) : list string :=
  String.string_of_list_ascii <$> split_chars c (String.list_ascii_of_string s).

(** [str::rsplit(c)]: the same pieces from the right. *)
Definition rsplit (c : ascii) (s : string) : list string := reverse (split c s).

(** [str::matches(c).count()]. *)
Definition count_char (c : ascii) (s : string) : nat :=
  length (List.filter (fun x => bool_decide (x = c)) (String.list_ascii_of_string s)).

Fixpoint trim_start (s : list ascii) : list ascii :=
  match s with
  | c :: s' => if is_whitespace c then trim_start s' else s
  | [] => []
  end.

(** [str::trim]. *)
Definition trim (s : string) : string :=
  String.string_of_list_ascii
    (reverse (trim_start (reverse (trim_start (String.list_ascii_of_string s))))).

Lemma split_chars_length c s :
  length (split_chars c s) = S (length (List.filter (fun x => bool_decide (x = c)) s)).
Proof.
  induction s as [|x s IH]; simpl; [done|].
  case_bool_decide; simpl; [by rewrite IH|].
  destruct (split_chars c s); simpl in *; lia.
Qed.

Lemma split_length c s : length (split c s) = S (count_char c s).
Proof. unfold split. by rewrite length_fmap, split_chars_length. Qed.

Lemma rsplit_length c s : length (rsplit c s) = S (count_char c s).
Proof. unfold rsplit. by rewrite length_reverse, split_length. Qed.

(** Only [/] mapped addresses have a mapped form, and it is a 32-bit number. *)
Lemma to_ipv4_mapped_Some v6 v4 :
  to_ipv4_mapped v6 = Some v4 -> (v4 < 2 ^ 32)%N.
Proof.
  unfold to_ipv4_mapped. case_match; [|done]. intros [= <-].
  rewrite N.land_ones. by apply N.mod_lt.
Qed.

(** ** Printing

    [Display] of an address, as the standard library has it. *)

Definition hex_digit (d : N) : ascii :=
  Ascii.ascii_of_N (if (d <? 10)%N then 48 + d else 87 + d).

(** [{:x}] of a 16-bit number. *)
Definition print_hex (n : N) : string :=
  let digit i := hex_digit (N.land (N.shiftr n (4 * i)) 15) in
  String.string_of_list_ascii
    (if (n <? 16)%N then [digit 0%N]
     else if (n <? 256)%N then [digit 1; digit 0]%N
     else if (n <? 4096)%N then [digit 2; digit 1; digit 0]%N
     else [digit 3; digit 2; digit 1; digit 0]%N).

Definition octets (v4 : N) : list N := (fun i => N.land (N.shiftr v4 (8 * i)) 255) <$> [3; 2; 1; 0]%N.
Definition segments (v6 : N) : list N :=
  (fun i => N.land (N.shiftr v6 (16 * i)) 65535) <$> [7; 6; 5; 4; 3; 2; 1; 0]%N.

Definition print_ipv4 (v4 : N) : string := String.concat "." (pretty <$> octets v4).

(** The first longest run of zeros: its start and length. *)
Fixpoint longest_zeros (segs : list N) (i : nat) (current longest : nat * nat) : nat * nat :=
  match segs with
  | [] => longest
  | seg :: segs =>
    if (seg =? 0)%N then
      let current := (if current.2 =? 0 then i else current.1, S current.2) in
      longest_zeros segs (S i) current (if longest.2 <? current.2 then current else longest)
    else longest_zeros segs (S i) (0, 0) longest
  end.

Definition print_ipv6 (v6 : N) : string :=
  match to_ipv4_mapped v6 with
  | Some v4 => "::ffff:" +:+ print_ipv4 v4
  | None =>
    let segs := segments v6 in
    let '(start, len) := longest_zeros segs 0 (0, 0) (0, 0) in
    let print_slice l := String.concat ":" (print_hex <$> l) in
    if 1 <? len then print_slice (take start segs) +:+ "::" +:+ print_slice (drop (start + len) segs)
    else print_slice segs
  end.

Definition to_string (ip : IpAddr) : string :=
  match ip with V4 v4 => print_ipv4 v4 | V6 v6 => print_ipv6 v6 end.

Example to_string_v4 : to_string (V4 167772161) = "10.0.0.1".
Proof. vm_compute. reflexivity. Qed.

Example to_string_v6 :
  to_string <$> [V6 1; V6 0; V6 281470849515521; V6 42540766411282592856903984951653826561;
                 V6 42540488161977051686370534004428570625]
  = ["::1"; "::"; "::ffff:10.0.0.1"; "2001:db8::1"; "2001:0:1:0:2:0:3:1"].
Proof. vm_compute. reflexivity. Qed.
