(* ===== verification/AddrText.v ===== *)
(** * What is printed is read back: the text of an address

    [NetAddr.to_string] against [NetAddr.parse_ip].  The text of an address is
    the key under which its rooms are counted, so two addresses must not share
    one. *)
From S2P Require Import Prelude.
From S2P Require Import NetAddr.
From stdpp Require Import pretty.

(** ** Numbers in a base that is a power of two *)

(** One digit further down. *)
Lemma shiftr_digit x w k :
  (N.shiftr x (k + w) * 2 ^ w + N.land (N.shiftr x k) (N.ones w) = N.shiftr x k)%N.
Proof.
  rewrite <- N.shiftr_shiftr, N.land_ones, (N.shiftr_div_pow2 _ w).
  rewrite (N.div_mod (N.shiftr x k) (2 ^ w)) at 3 by (by apply N.pow_nonzero). lia.
Qed.

Lemma shiftr_beyond x w : (x < 2 ^ w)%N -> N.shiftr x w = 0%N.
Proof. intros Hx. rewrite N.shiftr_div_pow2. by apply N.div_small. Qed.

Lemma land_below x w : (N.land x (N.ones w) < 2 ^ w)%N.
Proof. rewrite N.land_ones. by apply N.mod_lt, N.pow_nonzero. Qed.

(** A number is what its digits make, read from the most significant one. *)
Lemma fold_digits x w n :
  (x < 2 ^ (w * N.of_nat n))%N ->
  foldl (fun acc d => acc * 2 ^ w + d)%N 0%N
    ((fun i => N.land (N.shiftr x (w * N.of_nat i)) (N.ones w)) <$> reverse (seq 0 n)) = x.
Proof.
  intros Hx. rewrite <- (shiftr_beyond x _ Hx). clear Hx.
  induction n as [|n IH]; [by rewrite N.mul_0_r, N.shiftr_0_r|].
  rewrite seq_S, reverse_snoc, fmap_cons. cbn [foldl Nat.add].
  rewrite Nat2N.inj_succ, N.mul_succ_r, shiftr_digit. exact IH.
Qed.

(** The octets and the segments of an address, most significant first. *)
Lemma octets_addr v4 : (v4 < 2 ^ 32)%N -> foldl (fun acc o => acc * 256 + o)%N 0%N (octets v4) = v4.
Proof. exact (fold_digits v4 8 4). Qed.

Lemma segments_addr v6 : (v6 < 2 ^ 128)%N -> groups_addr (segments v6) = v6.
Proof. exact (fold_digits v6 16 8). Qed.

Lemma octets_below v4 : Forall (fun o => o < 256)%N (octets v4).
Proof. apply Forall_fmap, Forall_true. intros i. exact (land_below _ 8). Qed.

Lemma segments_below v6 : Forall (fun g => g < 65536)%N (segments v6).
Proof. apply Forall_fmap, Forall_true. intros i. exact (land_below _ 16). Qed.

(** ** Reading a number *)

Definition chars (s : string) : list ascii := String.list_ascii_of_string s.

Lemma chars_app s1 s2 : chars (s1 +:+ s2) = chars s1 ++ chars s2.
Proof. induction s1 as [|c s1 IH]; [done|]. exact (f_equal (cons c) IH). Qed.

Lemma chars_ascii s : chars (String.string_of_list_ascii s) = s.
Proof. apply String.list_ascii_of_string_of_list_ascii. Qed.

(** What follows a number in its text. *)
Definition stops (radix : N) (s : list ascii) : Prop :=
  match s with c :: _ => to_digit radix c = None | [] => True end.

Lemma read_digits_stop radix max digits l rest acc count n k :
  stops radix rest -> read_digits radix max digits l acc count = Some (n, k, []) ->
  read_digits radix max digits (l ++ rest) acc count = Some (n, k, rest).
Proof.
  intros Hrest. revert acc count. induction l as [|c l IH]; intros acc count Hl; cbn [read_digits app] in *.
  - injection Hl as -> ->. destruct rest as [|c rest]; [done|]. cbn in *. by rewrite Hrest.
  - destruct (to_digit radix c); [|done]. destruct (_ <? _)%N; [done|]. destruct (_ <? _); [done|].
    by apply IH.
Qed.

Lemma read_number_stop radix max digits zero l rest n :
  stops radix rest -> read_number radix max digits zero l = Some (n, []) ->
  read_number radix max digits zero (l ++ rest) = Some (n, rest).
Proof.
  intros Hrest. unfold read_number. destruct (read_digits _ _ _ l 0 0) as [[[n' k] s']|] eqn:Hl; [|done].
  destruct l as [|c l]; [cbn in Hl; by injection Hl as <- <- <-|].
  intros Hn. assert (s' = []) as ->.
  { destruct (_ =? _); [done|]. destruct (_ && _); [done|]. by injection Hn. }
  rewrite (read_digits_stop _ _ _ _ _ _ _ _ _ Hrest Hl). cbn [app].
  destruct (_ =? _); [done|]. destruct (_ && _); [done|]. by injection Hn as ->.
Qed.

(** Neither a separator nor the end of the text is a number. *)
Lemma read_number_none radix max digits zero s :
  stops radix s -> read_number radix max digits zero s = None.
Proof. destruct s as [|c s]; [done|]. unfold read_number. cbn. by intros ->. Qed.

(** The reader takes a front part of its input. *)
Lemma read_digits_rest radix max digits s acc count n k s' :
  read_digits radix max digits s acc count = Some (n, k, s') -> exists p, s = p ++ s'.
Proof.
  revert acc count. induction s as [|c s IH]; intros acc count Hs; cbn [read_digits] in Hs.
  - injection Hs as _ _ <-. by exists [].
  - destruct (to_digit radix c); [|injection Hs as _ _ <-; by exists []].
    destruct (_ <? _)%N; [done|]. destruct (_ <? _); [done|].
    apply IH in Hs as [p ->]. by exists (c :: p).
Qed.

Lemma read_number_rest radix max digits zero s n s' :
  read_number radix max digits zero s = Some (n, s') -> exists p, s = p ++ s'.
Proof.
  unfold read_number. destruct (read_digits _ _ _ s 0 0) as [[[n' k] s'']|] eqn:Hs; [|done].
  destruct (_ =? _); [done|]. destruct (_ && _); [done|]. intros [= _ <-]. by eapply read_digits_rest.
Qed.

(** ** Decimal octets *)

Lemma table_below (P : N -> bool) k n :
  forallb P (N.of_nat <$> seq 0 k) = true -> (n < N.of_nat k)%N -> P n = true.
Proof.
  rewrite forallb_forall. intros Hall Hn. apply Hall, list_elem_of_In.
  rewrite <- (N2Nat.id n). apply list_elem_of_fmap_2, elem_of_seq. lia.
Qed.

Definition octet_read (n : N) : bool :=
  bool_decide (read_number 10 255 3 false (chars (pretty n)) = Some (n, [])).

Lemma octet_table : forallb octet_read (N.of_nat <$> seq 0 256) = true.
Proof. vm_compute. reflexivity. Qed.

Lemma octet_text n rest :
  (n < 256)%N -> stops 10 rest -> read_number 10 255 3 false (chars (pretty n) ++ rest) = Some (n, rest).
Proof.
  intros Hn Hrest. apply read_number_stop; [done|].
  exact (bool_decide_eq_true_1 _ (table_below octet_read 256 n octet_table Hn)).
Qed.

Lemma read_separator_first {A} sep (p : parser A) s : read_separator sep 0 p s = p s.
Proof. done. Qed.

Lemma read_separator_app {A} sep i (p : parser A) s : read_separator sep (S i) p (sep :: s) = p s.
Proof. unfold read_separator. cbn. by rewrite bool_decide_eq_true_2. Qed.

Lemma print_ipv4_read v4 : (v4 < 2 ^ 32)%N -> read_ipv4_addr (chars (print_ipv4 v4)) = Some (v4, []).
Proof.
  intros Hv. pose proof (octets_below v4) as Hall. pose proof (octets_addr v4 Hv) as Haddr.
  unfold print_ipv4. destruct (octets v4) as [|a [|b [|c [|d []]]]] eqn:Ho; try discriminate Ho.
  rewrite !Forall_cons in Hall. destruct Hall as (Ha & Hb & Hc & Hd & _).
  cbn [fmap list_fmap String.concat]. rewrite !chars_app. change (chars ".") with [dot]. cbn [app].
  unfold read_ipv4_addr. cbn [read_octets].
  rewrite read_separator_first, octet_text by done.
  rewrite read_separator_app, octet_text by done. rewrite read_separator_app, octet_text by done.
  rewrite read_separator_app, <- (app_nil_r (chars (pretty d))), octet_text by done.
  cbn [foldl] in Haddr. by rewrite Haddr.
Qed.

(** Without a dot there is no IPv4 address. *)
Lemma no_dot_ipv4 s : dot ∉ s -> read_ipv4_addr s = None.
Proof.
  intros Hs. unfold read_ipv4_addr. cbn [read_octets]. unfold read_separator. cbn [Nat.eqb].
  destruct (read_number _ _ _ _ s) as [[n s']|] eqn:Hn; [|done].
  apply read_number_rest in Hn as [p ->]. apply not_elem_of_app in Hs as [_ Hs].
  destruct s' as [|c s']; [done|]. cbn. rewrite bool_decide_eq_false_2; [done|].
  intros ->. apply Hs. left.
Qed.

Lemma no_dot_separated i s : dot ∉ s -> read_separator colon i read_ipv4_addr s = None.
Proof.
  intros Hs. unfold read_separator. destruct (_ =? _); [by apply no_dot_ipv4|].
  destruct s as [|c s]; [done|]. cbn [read_given_char]. case_bool_decide; [|done].
  apply no_dot_ipv4. intros ?. apply Hs. by right.
Qed.

(** ** Hexadecimal groups *)

Definition digit_read (d : N) : bool := bool_decide (to_digit 16 (hex_digit d) = Some d).

Lemma hex_digit_read d : (d < 16)%N -> to_digit 16 (hex_digit d) = Some d.
Proof. intros Hd. exact (bool_decide_eq_true_1 _ (table_below digit_read 16 d eq_refl Hd)). Qed.

Lemma fold_digits_ge l acc : (acc <= foldl (fun acc d => acc * 16 + d) acc l)%N.
Proof. revert acc. induction l as [|d l IH]; intros acc; cbn [foldl]; [done|]. etrans; [|apply IH]. lia. Qed.

Lemma read_hex_digits l acc count :
  Forall (fun d => d < 16)%N l -> count + length l <= 4 ->
  (foldl (fun acc d => acc * 16 + d) acc l < 65536)%N ->
  read_digits 16 65535 4 (hex_digit <$> l) acc count
    = Some (foldl (fun acc d => acc * 16 + d)%N acc l, count + length l, []).
Proof.
  intros Hl. revert acc count. induction Hl as [|d l Hd Hl IH]; intros acc count Hlen Hsmall;
    cbn [fmap list_fmap read_digits foldl length] in *.
  { by rewrite Nat.add_0_r. }
  rewrite hex_digit_read by done.
  pose proof (fold_digits_ge l (acc * 16 + d)) as Hge.
  rewrite (proj2 (N.ltb_ge _ _)), (proj2 (Nat.ltb_ge _ _)) by lia.
  rewrite IH by (done || lia). by rewrite Nat.add_succ_comm.
Qed.

Definition hex_digits (n : N) (k : nat) : list N :=
  (fun i => N.land (N.shiftr n (4 * N.of_nat i)) (N.ones 4)) <$> reverse (seq 0 k).

Lemma read_hex n k :
  0 < k -> k <= 4 -> (n < 2 ^ (4 * N.of_nat k))%N ->
  read_number 16 65535 4 true (hex_digit <$> hex_digits n k) = Some (n, []).
Proof.
  intros Hpos Hk Hn. pose proof (fold_digits n 4 k Hn) as Hfold.
  assert (Hlen : length (hex_digits n k) = k)
    by (unfold hex_digits; by rewrite length_fmap, length_reverse, length_seq).
  assert (Hsmall : (n < 65536)%N).
  { eapply N.lt_le_trans; [exact Hn|]. change 65536%N with (2 ^ 16)%N. apply N.pow_le_mono_r; lia. }
  unfold read_number. rewrite read_hex_digits.
  - rewrite Hlen. change (2 ^ 4)%N with 16%N in Hfold. fold (hex_digits n k) in Hfold. rewrite Hfold.
    cbn [Nat.add negb andb]. by destruct k; [lia|].
  - apply Forall_fmap, Forall_true. intros i. exact (land_below _ 4).
  - by rewrite Hlen.
  - change (2 ^ 4)%N with 16%N in Hfold. fold (hex_digits n k) in Hfold. by rewrite Hfold.
Qed.

Lemma print_hex_digits n :
  (n < 65536)%N ->
  exists k, 0 < k <= 4 /\ (n < 2 ^ (4 * N.of_nat k))%N /\ chars (print_hex n) = hex_digit <$> hex_digits n k.
Proof.
  intros Hn. unfold print_hex. rewrite chars_ascii.
  destruct (N.ltb_spec n 16); [exists 1; by split; [lia|]|].
  destruct (N.ltb_spec n 256); [exists 2; by split; [lia|]|].
  destruct (N.ltb_spec n 4096); [exists 3; by split; [lia|]|].
  exists 4. by split; [lia|].
Qed.

Lemma hex_text n rest :
  (n < 65536)%N -> stops 16 rest ->
  read_number 16 65535 4 true (chars (print_hex n) ++ rest) = Some (n, rest).
Proof.
  intros Hn Hrest. destruct (print_hex_digits n Hn) as (k & [Hpos Hk] & Hsmall & ->).
  apply read_number_stop; [done|by apply read_hex].
Qed.

Lemma print_hex_no_dot n : (n < 65536)%N -> dot ∉ chars (print_hex n).
Proof.
  intros Hn. destruct (print_hex_digits n Hn) as (k & _ & _ & ->).
  intros (d & Hdot & (i & -> & _)%list_elem_of_fmap)%list_elem_of_fmap.
  pose proof (hex_digit_read _ (land_below (N.shiftr n (4 * N.of_nat i)) 4)) as Hd.
  by rewrite <- Hdot in Hd.
Qed.

(** ** Groups *)

(** The text of groups from the [i]-th on: each but the first after a colon. *)
Fixpoint group_text (i : nat) (gs : list N) : list ascii :=
  match gs with
  | [] => []
  | g :: gs => (if i =? 0 then [] else [colon]) ++ chars (print_hex g) ++ group_text (S i) gs
  end.

Lemma concat_chars i g gs :
  chars (String.concat ":" (print_hex <$> g :: gs)) = chars (print_hex g) ++ group_text (S i) gs.
Proof.
  revert i g. induction gs as [|g' gs IH]; intros i g; [by rewrite app_nil_r|].
  change (String.concat ":" (print_hex <$> g :: g' :: gs))
    with (print_hex g +:+ ":" +:+ String.concat ":" (print_hex <$> g' :: gs)).
  rewrite !chars_app, (IH (S i)). done.
Qed.

Lemma slice_chars gs : chars (String.concat ":" (print_hex <$> gs)) = group_text 0 gs.
Proof. destruct gs as [|g gs]; [done|]. by rewrite (concat_chars 0). Qed.

Lemma group_text_no_dot i gs : Forall (fun g => g < 65536)%N gs -> dot ∉ group_text i gs.
Proof.
  intros Hgs. revert i. induction Hgs as [|g gs Hg Hgs IH]; intros i; cbn [group_text]; [by apply not_elem_of_nil|].
  rewrite !not_elem_of_app. split_and!; [|by apply print_hex_no_dot|done].
  destruct (i =? 0); [apply not_elem_of_nil|]. by intros ?%list_elem_of_singleton.
Qed.

(** What stands after a run of groups: nothing, or the two colons. *)
Definition run_ends (s : list ascii) : Prop := s = [] \/ exists s', s = colon :: colon :: s'.

Lemma group_text_stops i gs rest : run_ends rest -> stops 16 (group_text (S i) gs ++ rest).
Proof. intros Hrest. destruct gs; [|done]. by destruct Hrest as [->|[s' ->]]. Qed.

Lemma run_ends_none i rest : run_ends rest -> read_separator colon i (read_number 16 65535 4 true) rest = None.
Proof. unfold read_separator. by intros [->|[s ->]]; destruct (i =? 0). Qed.

Lemma read_groups_text gs slots i limit rest :
  Forall (fun g => g < 65536)%N gs -> length gs <= slots -> dot ∉ rest -> run_ends rest ->
  read_groups slots i limit (group_text i gs ++ rest) = (gs, false, rest).
Proof.
  intros Hgs Hslots Hdot Hends. revert slots i Hslots.
  induction Hgs as [|g gs Hg Hgs IH]; intros [|slots] i Hslots; cbn [length] in Hslots; [done| |lia|].
  - cbn [group_text app read_groups]. rewrite run_ends_none by done.
    rewrite no_dot_separated by done. by destruct (_ <? _).
  - assert (Hnone : read_separator colon i read_ipv4_addr (group_text i (g :: gs) ++ rest) = None).
    { apply no_dot_separated. rewrite not_elem_of_app. split; [|done]. apply group_text_no_dot. by constructor. }
    assert (Hread : read_separator colon i (read_number 16 65535 4 true) (group_text i (g :: gs) ++ rest)
      = Some (g, group_text (S i) gs ++ rest)).
    { cbn [group_text]. destruct i as [|i]; cbn [Nat.eqb app].
      - rewrite read_separator_first, <- app_assoc. by apply hex_text, group_text_stops.
      - rewrite read_separator_app, <- app_assoc. by apply hex_text, group_text_stops. }
    cbn [read_groups]. rewrite Hnone, Hread, IH by lia. by destruct (_ <? _).
Qed.

(** ** The run of zeros *)

(** [run] says where zeros stand in [segs]. *)
Definition zeros_at (segs : list N) (run : nat * nat) : Prop :=
  exists before after, segs = before ++ replicate run.2 0%N ++ after /\ (run.2 <> 0 -> length before = run.1).

Lemma longest_zeros_run segs seen current longest :
  (current.2 <> 0 -> exists before, seen = before ++ replicate current.2 0%N /\ length before = current.1) ->
  zeros_at (seen ++ segs) longest ->
  zeros_at (seen ++ segs) (longest_zeros segs (length seen) current longest).
Proof.
  revert seen current longest. induction segs as [|seg segs IH]; intros seen current longest Hcur Hlong;
    cbn [longest_zeros]; [done|].
  change (seg :: segs) with ([seg] ++ segs) in *. rewrite app_assoc in Hlong |- *.
  assert (Hlen : S (length seen) = length (seen ++ [seg])) by (rewrite length_app; cbn; lia).
  rewrite Hlen. destruct (N.eqb_spec seg 0) as [->|_]; [|by apply IH].
  set (current' := (if current.2 =? 0 then length seen else current.1, S current.2)).
  assert (Hcur' : exists before, seen ++ [0%N] = before ++ replicate current'.2 0%N /\ length before = current'.1).
  { unfold current'. cbn [fst snd]. destruct (Nat.eqb_spec current.2 0) as [->|Hne]; [by exists seen|].
    destruct (Hcur Hne) as (before & -> & Hb). exists before. split; [|done].
    by rewrite <- app_assoc, <- replicate_S_end. }
  apply IH; [done|]. destruct (_ <? _); [|done].
  destruct Hcur' as (before & -> & Hb). exists before, segs. by rewrite <- app_assoc.
Qed.

Lemma zeros_cut segs start len :
  zeros_at segs (start, len) -> len <> 0 ->
  segs = take start segs ++ replicate len 0%N ++ drop (start + len) segs /\ start + len <= length segs.
Proof.
  intros (before & after & -> & Hb) Hne. specialize (Hb Hne). cbn [fst snd] in *. subst start.
  rewrite take_app_length, !length_app, length_replicate. split; [|lia].
  do 2 f_equal. rewrite app_assoc. by rewrite drop_app_length' by (by rewrite length_app, length_replicate).
Qed.

(** ** IPv6 addresses *)

Lemma read_colon s : read_given_char colon (colon :: s) = Some (tt, s).
Proof. done. Qed.

Lemma read_compressed before after :
  Forall (fun g => g < 65536)%N (before ++ after) -> length before + length after <= 6 ->
  read_ipv6_addr (group_text 0 before ++ colon :: colon :: group_text 0 after)
    = Some (groups_addr (before ++ replicate (8 - length before - length after) 0%N ++ after), []).
Proof.
  intros [Hb Ha]%Forall_app Hlen. unfold read_ipv6_addr. rewrite read_groups_text; [|done|lia| |].
  - rewrite (proj2 (Nat.eqb_neq _ _)) by lia. rewrite !read_colon.
    rewrite <- (app_nil_r (group_text 0 after)), read_groups_text;
      [done|done|lia|apply not_elem_of_nil|by left].
  - rewrite !not_elem_of_cons. split_and!; [done..|by apply group_text_no_dot].
  - right. by eexists.
Qed.

Lemma read_whole gs :
  Forall (fun g => g < 65536)%N gs -> length gs = 8 ->
  read_ipv6_addr (group_text 0 gs) = Some (groups_addr gs, []).
Proof.
  intros Hgs Hlen. unfold read_ipv6_addr.
  rewrite <- (app_nil_r (group_text 0 gs)), read_groups_text;
    [|done|lia|apply not_elem_of_nil|by left]. by rewrite Hlen.
Qed.

(** [::ffff:] and an IPv4 address. *)
Lemma read_mapped s v4 :
  read_ipv4_addr s = Some (v4, []) ->
  read_ipv6_addr (chars "::ffff:" ++ s)
    = Some (groups_addr [0; 0; 0; 0; 0; 65535; N.shiftr v4 16; N.land v4 65535]%N, []).
Proof.
  intros Hs.
  assert (Htail : read_groups 7 0 7 (chars "ffff:" ++ s)
    = ([65535; N.shiftr v4 16; N.land v4 65535]%N, true, [])).
  { change (read_groups 7 0 7 (chars "ffff:" ++ s))
      with (let '(gs, v4, s) := read_groups 6 1 7 (colon :: s) in (65535%N :: gs, v4, s)).
    cbn [read_groups Nat.sub Nat.ltb Nat.leb]. by rewrite read_separator_app, Hs. }
  change (read_ipv6_addr (chars "::ffff:" ++ s))
    with (let '(tail, _, s) := read_groups 7 0 7 (chars "ffff:" ++ s) in
          Some (groups_addr ([] ++ replicate (8 - 0 - length tail) 0%N ++ tail), s)).
  by rewrite Htail.
Qed.

Lemma mapped_groups v6 v4 :
  to_ipv4_mapped v6 = Some v4 ->
  groups_addr [0; 0; 0; 0; 0; 65535; N.shiftr v4 16; N.land v4 65535]%N = v6.
Proof.
  unfold to_ipv4_mapped. destruct (N.eqb_spec (N.shiftr v6 32) 65535) as [Hhigh|]; [|done].
  intros [= <-]. set (low := N.land v6 (N.ones 32)).
  pose proof (shiftr_digit low 16 0) as Hlow. pose proof (shiftr_digit v6 32 0) as Hv.
  rewrite N.shiftr_0_r, N.add_0_l in Hlow, Hv.
  change (N.ones 16) with 65535%N in Hlow. fold low in Hv. rewrite Hhigh in Hv.
  unfold groups_addr. cbn [foldl]. change (2 ^ 16)%N with 65536%N in Hlow. lia.
Qed.

Lemma print_ipv6_read v6 :
  (v6 < 2 ^ 128)%N ->
  read_ipv4_addr (chars (print_ipv6 v6)) = None /\ read_ipv6_addr (chars (print_ipv6 v6)) = Some (v6, []).
Proof.
  intros Hv. unfold print_ipv6. destruct (to_ipv4_mapped v6) as [v4|] eqn:Hmap.
  { rewrite chars_app, (read_mapped _ v4) by (by apply print_ipv4_read, (to_ipv4_mapped_Some v6)).
    by rewrite (mapped_groups v6). }
  pose proof (segments_below v6) as Hall. pose proof (segments_addr v6 Hv) as Haddr.
  assert (Hlen : length (segments v6) = 8) by done.
  pose proof (longest_zeros_run (segments v6) [] (0, 0) (0, 0)) as Hzeros.
  destruct (longest_zeros _ _ _ _) as [start len].
  assert (Hrun : zeros_at (segments v6) (start, len)).
  { apply Hzeros; [done|]. exists [], (segments v6). done. }
  destruct (Nat.ltb_spec 1 len) as [Hlong|_].
  - destruct (zeros_cut _ _ _ Hrun) as [Hcut Hend]; [lia|]. rewrite !chars_app, !slice_chars.
    assert (Hparts : Forall (fun g => g < 65536)%N
      (take start (segments v6) ++ drop (start + len) (segments v6)))
      by (apply Forall_app; split; [by apply Forall_take|by apply Forall_drop]).
    split.
    + apply no_dot_ipv4. apply Forall_app in Hparts as [Hb Ha].
      rewrite !not_elem_of_app. split_and!; [by apply group_text_no_dot| |by apply group_text_no_dot].
      by intros [?|[?|[]%not_elem_of_nil]%elem_of_cons]%elem_of_cons.
    + change (chars "::" ++ ?s) with (colon :: colon :: s).
      rewrite read_compressed by (done || (rewrite length_take, length_drop; lia)).
      rewrite length_take, length_drop, Hlen. rewrite Hlen in Hend.
      replace (8 - start `min` 8 - (8 - (start + len))) with len by lia. by rewrite <- Hcut, Haddr.
  - rewrite slice_chars. split; [by apply no_dot_ipv4, group_text_no_dot|]. by rewrite read_whole, Haddr.
Qed.

(** ** The round trip *)

Definition in_range (ip : IpAddr) : Prop :=
  match ip with V4 v4 => v4 < 2 ^ 32 | V6 v6 => v6 < 2 ^ 128 end%N.

Lemma print_parse ip : in_range ip -> parse_ip (to_string ip) = Some ip.
Proof.
  unfold parse_ip. fold (chars (to_string ip)). destruct ip as [v4|v6]; cbn [to_string]; intros Hip.
  - by rewrite print_ipv4_read.
  - by destruct (print_ipv6_read v6 Hip) as [-> ->].
Qed.

Lemma to_string_inj a b : in_range a -> in_range b ->
  to_string a = to_string b -> a = b.
Proof.
  intros Ha Hb Heq. apply (inj Some). by rewrite <- (print_parse a), <- (print_parse b), Heq.
Qed.

(** ** What is read is in range *)

Lemma read_digits_bound radix max digits s acc count n k s' :
  (acc <= max)%N -> read_digits radix max digits s acc count = Some (n, k, s') -> (n <= max)%N.
Proof.
  revert acc count. induction s as [|c s IH]; intros acc count Hacc; cbn [read_digits].
  - by intros [= <- _ _].
  - destruct (to_digit radix c); [|by intros [= <- _ _]].
    destruct (N.ltb_spec max (acc * radix + n0)); [done|]. destruct (_ <? _); [done|]. by apply IH.
Qed.

Lemma read_number_bound radix max digits zero s n s' :
  read_number radix max digits zero s = Some (n, s') -> (n <= max)%N.
Proof.
  unfold read_number. destruct (read_digits _ _ _ s 0 0) as [[[n' k] s'']|] eqn:Hs; [|done].
  destruct (_ =? _); [done|]. destruct (_ && _); [done|]. intros [= -> _].
  eapply read_digits_bound; [apply N.le_0_l|exact Hs].
Qed.

Lemma separated {A} sep i (p : parser A) s x : read_separator sep i p s = Some x -> exists s', p s' = Some x.
Proof. unfold read_separator. destruct (_ =? _); [by eexists|]. destruct (read_given_char _ _) as [[]|]; [by eexists|done]. Qed.

Lemma read_octets_bound fuel i acc s v4 s' k :
  (acc < 2 ^ (8 * N.of_nat k))%N -> read_octets fuel i acc s = Some (v4, s') ->
  (v4 < 2 ^ (8 * N.of_nat (fuel + k)))%N.
Proof.
  revert i acc s k. induction fuel as [|fuel IH]; intros i acc s k Hacc; cbn [read_octets].
  { by intros [= <- _]. }
  destruct (read_separator _ _ _ s) as [[o s1]|] eqn:Ho; [|done].
  apply separated in Ho as [s2 Ho%read_number_bound]. intros Hread.
  rewrite Nat.add_succ_comm. eapply IH; [|exact Hread].
  rewrite Nat2N.inj_succ, N.mul_succ_r, N.pow_add_r. change (2 ^ 8)%N with 256%N. lia.
Qed.

Lemma read_ipv4_bound s v4 s' : read_ipv4_addr s = Some (v4, s') -> (v4 < 2 ^ 32)%N.
Proof. exact (read_octets_bound 4 0 0 s v4 s' 0 eq_refl). Qed.

Lemma read_groups_bound slots i limit s gs v4 s' :
  limit <= slots + i -> read_groups slots i limit s = (gs, v4, s') ->
  length gs <= slots /\ Forall (fun g => g < 65536)%N gs.
Proof.
  revert i s gs v4 s'. induction slots as [|slots IH]; intros i s gs v4 s' Hlim; cbn [read_groups].
  { intros [= <- _ _]. by split. }
  destruct (if i <? limit - 1 then _ else _) as [[a s1]|] eqn:Ha.
  { revert Ha. destruct (Nat.ltb_spec i (limit - 1)); [|done]. intros Ha. apply separated in Ha as [s2 Ha%read_ipv4_bound].
    intros [= <- _ _]. cbn [length]. split; [lia|]. repeat constructor; [|exact (land_below a 16)].
    rewrite N.shiftr_div_pow2. by apply N.Div0.div_lt_upper_bound. }
  destruct (read_separator colon i (read_number 16 65535 4 true) s) as [[g s1]|] eqn:Hg; [|by intros [= <- _ _]; split; [cbn; lia|]].
  apply separated in Hg as [s2 Hg%read_number_bound].
  destruct (read_groups slots _ _ _) as [[gs' v'] s3] eqn:Hrec. intros [= <- _ _].
  destruct (IH (S i) _ _ _ _ ltac:(lia) Hrec) as [Hlen Hall]. cbn [length]. split; [lia|]. constructor; [lia|done].
Qed.

Lemma groups_bound gs acc k :
  (acc < 2 ^ (16 * N.of_nat k))%N -> Forall (fun g => g < 65536)%N gs ->
  (foldl (fun acc g => acc * 65536 + g) acc gs < 2 ^ (16 * N.of_nat (length gs + k)))%N.
Proof.
  intros Hacc Hgs. revert acc k Hacc. induction Hgs as [|g gs Hg _ IH]; intros acc k Hacc; cbn [foldl length]; [done|].
  rewrite Nat.add_succ_comm. apply IH. rewrite Nat2N.inj_succ, N.mul_succ_r, N.pow_add_r.
  change (2 ^ 16)%N with 65536%N. lia.
Qed.

Lemma groups_addr_bound gs :
  length gs = 8 -> Forall (fun g => g < 65536)%N gs -> (groups_addr gs < 2 ^ 128)%N.
Proof. intros Hlen Hgs. pose proof (groups_bound gs 0 0 eq_refl Hgs) as Hb. by rewrite Hlen in Hb. Qed.

Lemma read_ipv6_bound s v6 s' : read_ipv6_addr s = Some (v6, s') -> (v6 < 2 ^ 128)%N.
Proof.
  unfold read_ipv6_addr. destruct (read_groups 8 0 8 s) as [[head v4] s1] eqn:Hhead.
  destruct (read_groups_bound 8 0 8 _ _ _ _ (le_n 8) Hhead) as [Hlen Hall].
  destruct (Nat.eqb_spec (length head) 8) as [H8|H8]; [intros [= <- _]; by apply groups_addr_bound|].
  destruct v4; [done|]. destruct (read_given_char colon s1) as [[_ s2]|]; [|done].
  destruct (read_given_char colon s2) as [[_ s3]|]; [|done]. cbv zeta.
  destruct (read_groups _ 0 _ s3) as [[tail v] s4] eqn:Htail. intros [= <- _].
  destruct (read_groups_bound _ 0 _ _ _ _ _ (Nat.eq_le_incl _ _ (eq_sym (Nat.add_0_r _))) Htail) as [Hlen' Hall'].
  apply groups_addr_bound; [rewrite !length_app, length_replicate; lia|].
  rewrite !Forall_app. split_and!; [done|by apply Forall_replicate|done].
Qed.

Lemma parse_in_range text ip : parse_ip text = Some ip -> in_range ip.
Proof.
  unfold parse_ip. destruct (read_ipv4_addr _) as [[v4 [|c s]]|] eqn:H4; [|done|].
  - intros [= <-]. by eapply read_ipv4_bound.
  - destruct (read_ipv6_addr _) as [[v6 [|c s]]|] eqn:H6; [|done..]. intros [= <-]. by eapply read_ipv6_bound.
Qed.
