(* ===== verification/ClientIp.v ===== *)
(** * Client addresses: [client_ip.rs]

    The right-to-left walk over [X-Forwarded-For].  The CIDR type is the
    [ipnet] crate's, so it is a parameter: a type of networks, the membership
    test and the parser of one network. *)
From S2P Require Import Prelude.
From S2P Require Import NetAddr.

Definition MAX_FORWARDED_FOR_BYTES : nat := 4 * 1024.
Definition MAX_FORWARDED_FOR_HOPS : nat := 32.

Class IpNetLib := {
  IpNet : Type;
  net_contains : IpNet -> IpAddr -> bool;
  parse_net : string -> option IpNet;
}.

Inductive ClientIpError := mk_ClientIpError.

Definition unmap (addr : IpAddr) : IpAddr :=
  match addr with
  | V6 v6 => match to_ipv4_mapped v6 with Some v4 => V4 v4 | None => V6 v6 end
  | V4 v4 => V4 v4
  end.

(** The first eight of the sixteen octets are kept, the others are zero. *)
Definition normalize (addr : IpAddr) : IpAddr :=
  match addr with
  | V4 v4 => V4 v4
  | V6 v6 => V6 (N.shiftl (N.shiftr v6 64) 64)
  end.

Section resolver.
Context `{IpNetLib}.

Record ClientIpResolver := { trusted_proxies : list IpNet }.

Definition parse_trusted_proxy_cidrs (value : string) : result (list IpNet) ClientIpError :=
  let trimmed := trim value in
  if trimmed == "" then Ok []
  else match mapM (fun part => parse_net (trim part)) (split comma trimmed) with
       | Some nets => Ok nets
       | None => Err mk_ClientIpError
       end.

Definition trusted (self : ClientIpResolver) (addr : IpAddr) : bool :=
  existsb (fun net => net_contains net (unmap addr)) (trusted_proxies self).

(** The pass over the header values that bounds their total size. *)
Fixpoint header_bounds (total_bytes hop_count : nat) (values : list string) : bool :=
  match values with
  | [] => true
  | value :: values =>
    let total_bytes := total_bytes + String.length value in
    if MAX_FORWARDED_FOR_BYTES <? total_bytes then false
    else
    let hop_count := hop_count + (count_char comma value + 1) in
    if MAX_FORWARDED_FOR_HOPS <? hop_count then false
    else header_bounds total_bytes hop_count values
  end.

(** The body of the inner loop on one element. *)
Definition walk_element (self : ClientIpResolver) (element : string)
    (walk : IpAddr * bool) : option (IpAddr * bool) :=
  let element := trim element in
  if element == "" then None
  else
  match parse_ip element with
  | None => None
  | Some addr =>
    let '(selected, use_forwarded_hop) := walk in
    if use_forwarded_hop
    then if trusted self selected then Some (unmap addr, true) else Some (selected, false)
    else Some walk
  end.

Fixpoint walk_elements (self : ClientIpResolver) (elements : list string)
    (walk : IpAddr * bool) : option (IpAddr * bool) :=
  match elements with
  | [] => Some walk
  | element :: elements =>
    match walk_element self element walk with
    | Some walk => walk_elements self elements walk
    | None => None
    end
  end.

(** The outer loop, over the values from the last to the first. *)
Fixpoint walk_values (self : ClientIpResolver) (values : list string)
    (walk : IpAddr * bool) : option (IpAddr * bool) :=
  match values with
  | [] => Some walk
  | value :: values =>
    match walk_elements self (rsplit comma value) walk with
    | Some walk => walk_values self values walk
    | None => None
    end
  end.

Definition resolve (self : ClientIpResolver) (peer_addr : IpAddr)
    (forwarded_for : list string) : result IpAddr ClientIpError :=
  let peer := unmap peer_addr in
  if negb (trusted self peer) then Ok (normalize peer)
  else if forwarded_for == [] then Ok (normalize peer)
  else if negb (header_bounds 0 0 forwarded_for) then Err mk_ClientIpError
  else match walk_values self (reverse forwarded_for) (peer, true) with
       | Some (selected, _) => Ok (normalize selected)
       | None => Err mk_ClientIpError
       end.

(** ** What the walk computes *)

(** The addresses a request passed through, nearest first. *)
Definition hop_texts (forwarded_for : list string) : list string :=
  trim <$> concat (rsplit comma <$> reverse forwarded_for).

Definition hops (forwarded_for : list string) : option (list IpAddr) :=
  mapM (fun text => if text == "" then None else unmap <$> parse_ip text)
    (hop_texts forwarded_for).

(** The nearest address that is not a trusted proxy, or the farthest one. *)
Fixpoint nearest_untrusted (self : ClientIpResolver) (near : IpAddr) (far : list IpAddr)
    : IpAddr :=
  match far with
  | next :: far => if trusted self near then nearest_untrusted self next far else near
  | [] => near
  end.

Lemma walk_elements_app self es1 es2 walk :
  walk_elements self (es1 ++ es2) walk =
  match walk_elements self es1 walk with
  | Some walk => walk_elements self es2 walk
  | None => None
  end.
Proof. revert walk. induction es1 as [|e es1 IH]; intros; simpl; [done|]. by case_match. Qed.

Lemma walk_values_concat self values walk :
  walk_values self values walk = walk_elements self (concat (rsplit comma <$> values)) walk.
Proof.
  revert walk. induction values as [|v vs IH]; intros walk; [done|].
  cbn [walk_values fmap list_fmap concat]. rewrite walk_elements_app.
  by case_match.
Qed.

Lemma header_bounds_spec total_bytes hop_count values :
  total_bytes <= MAX_FORWARDED_FOR_BYTES -> hop_count <= MAX_FORWARDED_FOR_HOPS ->
  header_bounds total_bytes hop_count values =
  (total_bytes + sum_list (String.length <$> values) <=? MAX_FORWARDED_FOR_BYTES)
  && (hop_count + sum_list (length ∘ rsplit comma <$> values) <=? MAX_FORWARDED_FOR_HOPS).
Proof.
  revert total_bytes hop_count. induction values as [|v vs IH]; intros b h Hb Hh;
    cbn [header_bounds fmap list_fmap sum_list_with sum_list compose].
  - by rewrite !Nat.add_0_r, (proj2 (Nat.leb_le _ _) Hb), (proj2 (Nat.leb_le _ _) Hh).
  - rewrite rsplit_length.
    destruct (Nat.ltb_spec MAX_FORWARDED_FOR_BYTES (b + String.length v)).
    { symmetry. apply andb_false_iff. left. apply Nat.leb_gt. simpl. lia. }
    destruct (Nat.ltb_spec MAX_FORWARDED_FOR_HOPS (h + (count_char comma v + 1))).
    { symmetry. apply andb_false_iff. right. apply Nat.leb_gt. simpl. lia. }
    rewrite IH by done. f_equal; f_equal; simpl; lia.
Qed.

Lemma hop_texts_length forwarded_for :
  length (hop_texts forwarded_for) = sum_list (length ∘ rsplit comma <$> forwarded_for).
Proof.
  unfold hop_texts. rewrite length_fmap.
  induction forwarded_for as [|v vs IH]; [done|].
  rewrite reverse_cons, fmap_app, concat_app, length_app, IH. simpl.
  rewrite app_nil_r. apply Nat.add_comm.
Qed.

(** Elements past the first untrusted address are still parsed. *)
Lemma walk_elements_spec self elements near use :
  fst <$> walk_elements self elements (near, use) =
  (fun far => if use then nearest_untrusted self near far else near) <$>
  mapM (fun text => if text == "" then None else unmap <$> parse_ip text) (trim <$> elements).
Proof.
  revert near use. induction elements as [|e es IH]; intros near use; [by destruct use|].
  cbn [walk_elements fmap list_fmap mapM]. unfold walk_element.
  destruct (trim e == ""); [done|].
  destruct (parse_ip (trim e)) as [addr|]; cbn; [|done].
  destruct use; [destruct (trusted self near) eqn:Htr|]; rewrite IH;
    match goal with |- context [mapM ?f ?l] => destruct (mapM f l) end; simpl;
    rewrite ?Htr; done.
Qed.

Lemma resolve_result self peer_addr forwarded_for :
  let peer := unmap peer_addr in
  resolve self peer_addr forwarded_for =
  if trusted self peer && (forwarded_for != [])
  then if (sum_list (String.length <$> forwarded_for) <=? MAX_FORWARDED_FOR_BYTES)
          && (length (hop_texts forwarded_for) <=? MAX_FORWARDED_FOR_HOPS)
       then match hops forwarded_for with
            | Some far => Ok (normalize (nearest_untrusted self peer far))
            | None => Err mk_ClientIpError
            end
       else Err mk_ClientIpError
  else Ok (normalize peer).
Proof.
  cbv zeta. unfold resolve. destruct (trusted self (unmap peer_addr)) eqn:Htr; [|done].
  cbn [negb andb]. case_bool_decide; cbn [negb]; [done|].
  rewrite header_bounds_spec, hop_texts_length by (unfold MAX_FORWARDED_FOR_BYTES; lia).
  cbn [Nat.add]. destruct (_ && _); cbn [negb]; [|done].
  pose proof (walk_elements_spec self (concat (rsplit comma <$> reverse forwarded_for))
                (unmap peer_addr) true) as Hwalk.
  rewrite walk_values_concat. unfold hops, hop_texts.
  destruct (walk_elements _ _ _) as [[selected use]|]; destruct (mapM _ _);
    simpl in Hwalk; by simplify_eq.
Qed.

(** The zeroed low half of an IPv6 key rules out the mapped range. *)
Lemma not_mapped v6 : to_ipv4_mapped (N.shiftl (N.shiftr v6 64) 64) = None.
Proof.
  unfold to_ipv4_mapped. rewrite N.shiftr_shiftl_l by lia. case_match eqn:E; [|done].
  apply N.eqb_eq, (f_equal (fun n => N.land n (N.ones 32))) in E.
  rewrite !N.land_ones, N.shiftl_mul_pow2, N.Div0.mod_mul in E. discriminate.
Qed.

(** C23: the address a request is accounted to.  A request whose TCP peer is
    not a trusted proxy, or that carries no header, is accounted to the peer,
    whatever the header says.  Otherwise the header is refused when it is over
    4096 bytes or 32 hops or when any of its hops is empty or not an address,
    and else the request is accounted to the nearest address, starting with
    the peer and going right to left, that is not a trusted proxy, or to the
    farthest if all are.  IPv4-mapped addresses count as IPv4, and an IPv6
    address is accounted by its /64. *)
Theorem resolve_spec self peer_addr forwarded_for :
  let peer := unmap peer_addr in
  resolve self peer_addr forwarded_for =
  if trusted self peer && (forwarded_for != [])
  then if (sum_list (String.length <$> forwarded_for) <=? MAX_FORWARDED_FOR_BYTES)
          && (length (hop_texts forwarded_for) <=? MAX_FORWARDED_FOR_HOPS)
       then match hops forwarded_for with
            | Some far => Ok (normalize (nearest_untrusted self peer far))
            | None => Err mk_ClientIpError
            end
       else Err mk_ClientIpError
  else Ok (normalize peer).
Proof. apply resolve_result. Qed.

Lemma nearest_untrusted_app self near l far :
  existsb (fun a => negb (trusted self a)) (near :: l) = true ->
  nearest_untrusted self near (l ++ far) = nearest_untrusted self near l.
Proof.
  revert near. induction l as [|x l IH]; intros near; simpl.
  - rewrite orb_false_r. intros Hn. to_prop. destruct far; [done|]. simpl. by rewrite Hn.
  - destruct (trusted self near); simpl; [|done]. apply IH.
Qed.

(** A client cannot choose the address it is accounted to.  Once the hops
    nearest to the relay, the TCP peer and [near], contain an address that is
    not a trusted proxy, whatever stands further left in the header does not
    change the outcome of a request that is accepted. *)
Theorem untrusted_hops_irrelevant self peer_addr header1 header2 near far1 far2 addr1 addr2
    (Hhops1 : hops header1 = Some (near ++ far1))
    (Hhops2 : hops header2 = Some (near ++ far2))
    (Huntrusted : existsb (fun a => negb (trusted self a)) (unmap peer_addr :: near) = true)
    (Hok1 : resolve self peer_addr header1 = Ok addr1)
    (Hok2 : resolve self peer_addr header2 = Ok addr2) :
  addr1 = addr2
  /\ addr1 = normalize (nearest_untrusted self (unmap peer_addr) near).
Proof.
  assert (Hone : forall header far addr, hops header = Some (near ++ far) ->
    resolve self peer_addr header = Ok addr ->
    addr = normalize (nearest_untrusted self (unmap peer_addr) near)).
  { intros header far addr Hhops. rewrite resolve_result, Hhops.
    rewrite nearest_untrusted_app by done.
    destruct (trusted self (unmap peer_addr)) eqn:Htr; cbn [andb].
    - case_bool_decide as Hh; cbn [negb].
      + subst header. unfold hops in Hhops. simpl in Hhops.
        symmetry in Hhops. apply (inj Some), app_nil in Hhops as [-> _]. by intros [= <-].
      + case_match; [|done]. by intros [= <-].
    - destruct near; simpl; [|rewrite Htr]; by intros [= <-]. }
  split; [|by apply (Hone header1 far1)].
  by rewrite (Hone _ _ _ Hhops1 Hok1), (Hone _ _ _ Hhops2 Hok2).
Qed.
End resolver.

(** Two addresses share a quota bucket exactly when they are the same
    IPv4 address, written as such or IPv4-mapped, or IPv6 addresses of the
    same /64; and a bucket's key is its own bucket. *)
Theorem account_key_spec a b :
  (normalize (unmap a) = normalize (unmap b) <->
   match unmap a, unmap b with
   | V4 x, V4 y => x = y
   | V6 x, V6 y => N.shiftr x 64 = N.shiftr y 64
   | _, _ => False
   end)
  /\ normalize (unmap (normalize (unmap a))) = normalize (unmap a).
Proof.
  split.
  - destruct (unmap a) as [x|x], (unmap b) as [y|y]; simpl; split; try done;
      try congruence.
    intros [= Heq%(f_equal (fun n => N.shiftr n 64))].
    by rewrite !N.shiftr_shiftl_l, !N.sub_diag, !N.shiftl_0_r in Heq by lia.
  - destruct (unmap a) as [x|x]; [done|]. cbn [normalize unmap].
    rewrite not_mapped. cbn [normalize].
    by rewrite N.shiftr_shiftl_l, N.sub_diag, N.shiftl_0_r by lia.
Qed.
