(* ===== verification/OwnerKey.v ===== *)
(** * The key a client's rooms are counted under

    A client behind proxies, each of which adds the address it was called from
    to [X-Forwarded-For], and the text of the address the walk ends on. *)
From S2P Require Import Prelude.
From S2P Require Import NetAddr.
From S2P Require Import AddrText.
From S2P Require Import ClientIp.
From stdpp Require Import pretty.

(** ** Short texts without commas and blanks *)

(** No comma and no blank. *)
Definition plain (c : ascii) : bool := bool_decide (c <> comma) && negb (is_whitespace c).

(** A text of at most [k] characters. *)
Definition short (k : nat) (s : list ascii) : Prop := Forall (fun c => plain c = true) s /\ length s <= k.

Lemma short_app k1 k2 s1 s2 : short k1 s1 -> short k2 s2 -> short (k1 + k2) (s1 ++ s2).
Proof. intros [H1 ?] [H2 ?]. split; [by apply Forall_app|rewrite length_app; lia]. Qed.

Lemma short_cons k c s : plain c = true -> short k s -> short (S k) (c :: s).
Proof. intros Hc [Hs ?]. split; [by constructor|cbn; lia]. Qed.

Lemma short_le k1 k2 s : short k1 s -> k1 <= k2 -> short k2 s.
Proof. intros [? ?] ?. split; [done|lia]. Qed.

Definition octet_plain (n : N) : bool :=
  forallb plain (chars (pretty n)) && (length (chars (pretty n)) <=? 3).

Lemma octet_short n : (n < 256)%N -> short 3 (chars (pretty n)).
Proof.
  intros Hn. pose proof (table_below octet_plain 256 n ltac:(vm_compute; reflexivity) Hn) as Ho.
  apply andb_true_iff in Ho as [Hall Hlen]. split; [by apply forallb_Forall|by apply Nat.leb_le].
Qed.

Lemma hex_short n : (n < 65536)%N -> short 4 (chars (print_hex n)).
Proof.
  intros Hn. destruct (print_hex_digits n Hn) as (k & [_ Hk] & _ & ->). split.
  - apply Forall_fmap, Forall_fmap, Forall_true. intros i.
    exact (table_below (fun d => plain (hex_digit d)) 16 _ eq_refl (land_below _ 4)).
  - unfold hex_digits. by rewrite !length_fmap, length_reverse, length_seq.
Qed.

Lemma groups_short i gs : Forall (fun g => g < 65536)%N gs -> short (5 * length gs) (group_text i gs).
Proof.
  intros Hgs. revert i. induction Hgs as [|g gs Hg _ IH]; intros i; cbn [group_text length].
  { by split; [constructor|]. }
  replace (5 * S (length gs)) with (1 + (4 + 5 * length gs)) by lia.
  apply short_app; [|by apply short_app; [apply hex_short|]].
  destruct (i =? 0); split; try constructor; cbn; by auto.
Qed.

Lemma ipv4_short v4 : short 15 (chars (print_ipv4 v4)).
Proof.
  pose proof (octets_below v4) as Hall. unfold print_ipv4.
  destruct (octets v4) as [|a [|b [|c [|d []]]]] eqn:Ho; try discriminate Ho.
  rewrite !Forall_cons in Hall. destruct Hall as (Ha & Hb & Hc & Hd & _).
  cbn [fmap list_fmap String.concat]. rewrite !chars_app. change (chars ".") with [dot]. cbn [app].
  apply (short_app 3 12); [by apply octet_short|]. apply short_cons; [done|].
  apply (short_app 3 8); [by apply octet_short|]. apply short_cons; [done|].
  apply (short_app 3 4); [by apply octet_short|]. apply short_cons; [done|by apply octet_short].
Qed.

Lemma address_short ip : short 42 (chars (to_string ip)).
Proof.
  destruct ip as [v4|v6]; cbn [to_string]; [by eapply short_le; [apply ipv4_short|lia]|].
  unfold print_ipv6. destruct (to_ipv4_mapped v6) as [v4|].
  { rewrite chars_app. apply (short_app 27 15); [|apply ipv4_short]. by repeat constructor. }
  pose proof (segments_below v6) as Hall. destruct (longest_zeros _ _ _ _) as [start len].
  assert (Hlen : length (segments v6) = 8) by done.
  destruct (1 <? len); rewrite ?chars_app, !slice_chars.
  2: { eapply short_le; [by apply groups_short|]. rewrite Hlen. lia. }
  change (chars "::" ++ ?s) with (colon :: colon :: s).
  eapply short_le; [eapply short_app|]; [by apply groups_short, Forall_take| |].
  { do 2 (apply short_cons; [done|]). by apply groups_short, Forall_drop. }
  rewrite length_take, length_drop, Hlen. lia.
Qed.

(** ** Taking the header apart *)

Definition space : ascii := Ascii.ascii_of_N 32.

Lemma split_chars_one c s : c ∉ s -> split_chars c s = [s].
Proof.
  induction s as [|x s IH]; intros Hs; cbn [split_chars]; [done|].
  apply not_elem_of_cons in Hs as [Hne Hs]. rewrite bool_decide_eq_false_2 by done. by rewrite IH.
Qed.

Lemma split_chars_cut c s1 s2 : c ∉ s1 -> split_chars c (s1 ++ c :: s2) = s1 :: split_chars c s2.
Proof.
  induction s1 as [|x s1 IH]; intros Hs; cbn [split_chars app].
  { by rewrite bool_decide_eq_true_2. }
  apply not_elem_of_cons in Hs as [Hne Hs]. rewrite bool_decide_eq_false_2 by done. by rewrite IH.
Qed.

Lemma short_no_comma k s : short k s -> comma ∉ s.
Proof. intros [Hs _] Hin. rewrite Forall_forall in Hs. by specialize (Hs _ Hin). Qed.

Lemma trim_start_plain k s : short k s -> trim_start s = s.
Proof.
  intros [Hs _]. destruct Hs as [|c s Hc Hs]; [done|]. apply andb_true_iff in Hc as [_ Hc].
  cbn [trim_start]. by destruct (is_whitespace c).
Qed.

Lemma trim_plain k s :
  short k s -> trim (String.string_of_list_ascii s) = String.string_of_list_ascii s
  /\ trim (String.string_of_list_ascii (space :: s)) = String.string_of_list_ascii s.
Proof.
  intros Hs. assert (Hr : short k (reverse s)).
  { destruct Hs as [Hs Hlen]. split; [by apply Forall_reverse|by rewrite length_reverse]. }
  unfold trim. rewrite !String.list_ascii_of_string_of_list_ascii.
  change (trim_start (space :: s)) with (trim_start s).
  by rewrite (trim_start_plain k s Hs), (trim_start_plain k _ Hr), reverse_involutive.
Qed.

(** What the proxies write: each address after a comma and a space, the one
    nearest to the relay last. *)
Definition forwarded (chain : list IpAddr) : list string :=
  if bool_decide (chain = []) then [] else [String.concat ", " (reverse (to_string <$> chain))].

Lemma split_joined texts t :
  Forall (fun t => comma ∉ chars t) (t :: texts) ->
  split_chars comma (chars (String.concat ", " (t :: texts)))
    = chars t :: ((fun t => space :: chars t) <$> texts).
Proof.
  revert t. induction texts as [|t' texts IH]; intros t [Ht Hall]%Forall_cons; [by apply split_chars_one|].
  change (String.concat ", " (t :: t' :: texts)) with (t +:+ ", " +:+ String.concat ", " (t' :: texts)).
  rewrite !chars_app. change (chars ", " ++ ?s) with (comma :: space :: s).
  rewrite split_chars_cut by done. cbn [split_chars]. rewrite bool_decide_eq_false_2 by done.
  by rewrite IH.
Qed.

Lemma string_chars s : String.string_of_list_ascii (chars s) = s.
Proof. apply String.string_of_list_ascii_of_string. Qed.

Lemma trim_text k t : short k (chars t) -> trim t = t
  /\ trim (String.string_of_list_ascii (space :: chars t)) = t.
Proof. intros Ht. pose proof (trim_plain k _ Ht) as Hs. by rewrite string_chars in Hs. Qed.

Lemma trim_split k texts :
  Forall (fun t => short k (chars t)) texts -> texts <> [] ->
  trim <$> NetAddr.split comma (String.concat ", " texts) = texts.
Proof.
  intros Hall Hne. destruct texts as [|t texts]; [done|]. unfold NetAddr.split. fold (chars (String.concat ", " (t :: texts))).
  rewrite split_joined by (by eapply Forall_impl; [exact Hall|intros ?; apply (short_no_comma k)]).
  apply Forall_cons in Hall as [Ht Hall]. cbn [fmap list_fmap]. rewrite string_chars.
  f_equal; [by apply (trim_text k)|]. clear Hne Ht.
  induction Hall as [|t' texts Ht' _ IH]; [done|]. cbn [fmap list_fmap]. f_equal; [by apply (trim_text k)|exact IH].
Qed.

Lemma forwarded_texts chain : chain <> [] -> hop_texts (forwarded chain) = to_string <$> chain.
Proof.
  intros Hne. unfold forwarded. rewrite bool_decide_eq_false_2 by done. unfold hop_texts.
  change (reverse [?h]) with [h]. cbn [fmap list_fmap concat]. rewrite app_nil_r. unfold rsplit.
  rewrite fmap_reverse, (trim_split 42), reverse_involutive; [done| |].
  - apply Forall_reverse, Forall_fmap, Forall_true, address_short.
  - intros Hnil. apply Hne, (fmap_nil_inv to_string). by rewrite <- (reverse_involutive (to_string <$> chain)), Hnil.
Qed.

Lemma joined_length k texts :
  Forall (fun t => short k (chars t)) texts ->
  String.length (String.concat ", " texts) <= (k + 2) * length texts.
Proof.
  rewrite string_length_list. fold (chars (String.concat ", " texts)).
  induction 1 as [|t texts [_ Ht] Hall IH]; [cbn; lia|].
  destruct texts as [|t' texts]; [cbn [String.concat length]; lia|].
  change (String.concat ", " (t :: t' :: texts)) with (t +:+ ", " +:+ String.concat ", " (t' :: texts)).
  rewrite !chars_app, !length_app. change (length (chars ", ")) with 2. cbn [length] in *. lia.
Qed.

Lemma forwarded_length chain :
  sum_list (String.length <$> forwarded chain) <= 44 * length chain.
Proof.
  unfold forwarded. case_bool_decide; [cbn; lia|]. cbn [fmap list_fmap]. change (sum_list [?n]) with (n + 0).
  rewrite Nat.add_0_r, <- (length_fmap to_string chain), <- length_reverse. apply (joined_length 42).
  apply Forall_reverse, Forall_fmap, Forall_true, address_short.
Qed.

Lemma printed_hops chain :
  Forall in_range chain ->
  mapM (fun text => if text == "" then None else unmap <$> parse_ip text) (to_string <$> chain)
    = Some (unmap <$> chain).
Proof.
  induction 1 as [|ip chain Hip _ IH]; [done|]. cbn [fmap list_fmap mapM]. rewrite print_parse by done.
  case_bool_decide as Hempty; [|cbn; by rewrite IH].
  pose proof (print_parse ip Hip) as Hp. by rewrite Hempty in Hp.
Qed.

(** ** Ranges *)

Lemma unmap_in_range ip : in_range ip -> in_range (unmap ip).
Proof.
  destruct ip as [v4|v6]; [done|]. cbn [unmap]. destruct (to_ipv4_mapped v6) as [v4|] eqn:Hmap; [|done].
  intros _. by eapply to_ipv4_mapped_Some.
Qed.

Lemma normalize_in_range ip : in_range ip -> in_range (normalize ip).
Proof.
  destruct ip as [v4|v6]; [done|]. cbn [normalize in_range]. intros Hv. eapply N.le_lt_trans; [|exact Hv].
  pose proof (shiftr_digit v6 64 0) as Hd. rewrite N.shiftr_0_r, N.add_0_l in Hd. rewrite N.shiftl_mul_pow2. lia.
Qed.

Section keys.
Context `{IpNetLib}.

Lemma nearest_in_range self near far :
  in_range near -> Forall in_range far -> in_range (nearest_untrusted self near far).
Proof.
  intros Hnear Hfar. revert near Hnear. induction Hfar as [|a far Ha _ IH]; intros near Hnear; [done|].
  cbn [nearest_untrusted]. destruct (trusted self near); [by apply IH|done].
Qed.

Lemma hops_in_range header far : hops header = Some far -> Forall in_range far.
Proof.
  unfold hops. intros Hfar%mapM_Some_1. induction Hfar as [|text ip texts far Ht _ IH]; [done|].
  constructor; [|done]. case_bool_decide; [done|]. apply fmap_Some in Ht as (a & Ha & ->).
  by eapply unmap_in_range, parse_in_range.
Qed.

Lemma resolve_in_range self peer header ip :
  in_range peer -> resolve self peer header = Ok ip -> in_range ip.
Proof.
  intros Hpeer%unmap_in_range. rewrite resolve_result.
  destruct (_ && _); [|intros [= <-]; by apply normalize_in_range]. destruct (_ && _); [|done].
  destruct (hops header) as [far|] eqn:Hfar; [|done]. intros [= <-].
  apply normalize_in_range, nearest_in_range; [done|by eapply hops_in_range].
Qed.

(** C24: who a request is, told by proxies and written in a key.  A request
    that comes through a chain of at most 32 addresses, each of which added
    the one before it to the header, is accounted to the nearest of them that
    is not a trusted proxy.  The text of an account, under which the owner's
    rooms are counted, is read back as the account: two requests, whatever
    their headers, have the same key exactly when they have the same account. *)
Theorem owner_key_exact self peer chain
    (Hpeer : in_range peer) (Hchain : Forall in_range chain)
    (Hshort : length chain <= MAX_FORWARDED_FOR_HOPS) :
  exists ip, resolve self peer (forwarded chain) = Ok ip
    /\ ip = normalize (nearest_untrusted self (unmap peer) (unmap <$> chain))
    /\ parse_ip (to_string ip) = Some ip
    /\ forall peer' header ip', in_range peer' -> resolve self peer' header = Ok ip' ->
         (to_string ip' = to_string ip <-> ip' = ip).
Proof.
  assert (Hres : resolve self peer (forwarded chain)
    = Ok (normalize (nearest_untrusted self (unmap peer) (unmap <$> chain)))).
  { destruct (decide (chain = [])) as [->|Hne].
    { unfold resolve. by destruct (trusted _ _). }
    rewrite resolve_result. destruct (trusted self (unmap peer)) eqn:Htr; cbn [andb].
    - pose proof (forwarded_length chain) as Hlen. unfold MAX_FORWARDED_FOR_HOPS in Hshort.
      rewrite (bool_decide_eq_false_2 (forwarded chain = []))
        by (unfold forwarded; by rewrite bool_decide_eq_false_2).
      cbn [negb]. rewrite forwarded_texts, length_fmap by done.
      rewrite !(proj2 (Nat.leb_le _ _)) by (unfold MAX_FORWARDED_FOR_HOPS, MAX_FORWARDED_FOR_BYTES; lia).
      unfold hops. by rewrite forwarded_texts, printed_hops.
    - destruct chain; [done|]. cbn [fmap list_fmap nearest_untrusted]. by rewrite Htr. }
  pose proof (resolve_in_range _ _ _ _ Hpeer Hres) as Hip.
  eexists. split_and!; [exact Hres|done|by apply print_parse|].
  intros peer' header ip' Hpeer' Hok'. split; [|by intros ->].
  apply to_string_inj; [by eapply resolve_in_range|done].
Qed.
End keys.
