(* ===== verification/Quotas.v ===== *)
(** * Quotas and limiters: [quotas.rs]

    The connection counters, the one-per-interval upload gate, the limiter by
    address around the [governor] crate, which is a parameter, and the
    per-connection token bucket.  A call that reads the monotonic clock takes
    the reading as its argument [now]. *)
From Stdlib Require Floats.SpecFloat.
From Stdlib Require Import Sorting.Sorted.
From S2P Require Import Prelude.
From S2P Require Import NetAddr.

Definition CONNECT_ATTEMPT_BURST : N := 5.
Definition CONNECT_ATTEMPT_SUSTAINED : N := 1.
Definition FAILED_LOG_LOOKUP_BURST : N := 10.
Definition FAILED_LOG_LOOKUP_SUSTAINED : N := 1.
Definition LOG_UPLOAD_INTERVAL : Duration := from_secs 60.
Definition MAX_GLOBAL_CONNS : nat := 100.
Definition MAX_CONNS_PER_IP : nat := 5.

(** ** The connection quota *)

Record ConnectionQuota := { cq_global : nat; cq_per_ip : gmap IpAddr nat }.

Definition default_quota : ConnectionQuota := {| cq_global := 0; cq_per_ip := ∅ |}.

Definition try_connect (q : ConnectionQuota) (ip : IpAddr) : ConnectionQuota * bool :=
  if MAX_GLOBAL_CONNS <=? cq_global q then (q, false)
  else
  let count := default 0 (cq_per_ip q !! ip) in
  let per_ip := <[ip := count]> (cq_per_ip q) in (* [entry(ip).or_insert(0)] *)
  if MAX_CONNS_PER_IP <=? count
  then ({| cq_global := cq_global q; cq_per_ip := per_ip |}, false)
  else ({| cq_global := cq_global q + 1; cq_per_ip := <[ip := count + 1]> per_ip |}, true).

Definition disconnect (q : ConnectionQuota) (ip : IpAddr) : ConnectionQuota :=
  match cq_per_ip q !! ip with
  | None => q
  | Some count =>
    let decremented := 0 <? count in
    let count := if decremented then count - 1 else count in
    let per_ip := <[ip := count]> (cq_per_ip q) in
    {| cq_global := if decremented then cq_global q - 1 else cq_global q;
       cq_per_ip := if count =? 0 then delete ip per_ip else per_ip |}
  end.

(** *** What it promises

    The reference keeps the list of the connections that are open. *)
Inductive conn_op := OpConnect (ip : IpAddr) | OpDisconnect (ip : IpAddr).

Definition conns_of (ip : IpAddr) (live : list IpAddr) : nat :=
  length (List.filter (fun a => a == ip) live).

Fixpoint remove_one (ip : IpAddr) (live : list IpAddr) : list IpAddr :=
  match live with
  | [] => []
  | a :: live => if a == ip then live else a :: remove_one ip live
  end.

Definition quota_step (q : ConnectionQuota) (op : conn_op) : ConnectionQuota * option bool :=
  match op with
  | OpConnect ip => let '(q, ok) := try_connect q ip in (q, Some ok)
  | OpDisconnect ip => (disconnect q ip, None)
  end.

Definition spec_quota_step (live : list IpAddr) (op : conn_op) : list IpAddr * option bool :=
  match op with
  | OpConnect ip =>
    if (length live <? MAX_GLOBAL_CONNS) && (conns_of ip live <? MAX_CONNS_PER_IP)
    then (ip :: live, Some true) else (live, Some false)
  | OpDisconnect ip => (remove_one ip live, None)
  end.

(** Runs of either machine, with the answers given. *)
Fixpoint run_ops {S Op R} (step : S -> Op -> S * R) (s : S) (ops : list Op) : S * list R :=
  match ops with
  | [] => (s, [])
  | op :: ops => let '(s, r) := step s op in
                 let '(s, rs) := run_ops step s ops in (s, r :: rs)
  end.

(** The counters count the open connections, and hold no zero. *)
Definition counts (q : ConnectionQuota) (live : list IpAddr) : Prop :=
  cq_global q = length live
  /\ forall ip, cq_per_ip q !! ip =
       if conns_of ip live =? 0 then None else Some (conns_of ip live).

Definition within_caps (live : list IpAddr) : Prop :=
  length live <= MAX_GLOBAL_CONNS /\ forall ip, conns_of ip live <= MAX_CONNS_PER_IP.

Lemma conns_of_cons ip a live :
  conns_of ip (a :: live) = (if a == ip then 1 else 0) + conns_of ip live.
Proof. unfold conns_of. simpl. by case_bool_decide. Qed.

Lemma conns_of_length ip live : conns_of ip live <= length live.
Proof. apply filter_length_le. Qed.

Lemma remove_one_absent ip live : conns_of ip live = 0 -> remove_one ip live = live.
Proof.
  induction live as [|a live IH]; [done|]. rewrite conns_of_cons. simpl.
  case_bool_decide; [lia|]. intros. by rewrite IH.
Qed.

Lemma conns_of_remove_one ip ip' live :
  conns_of ip' (remove_one ip live) = conns_of ip' live - (if ip == ip' then 1 else 0).
Proof.
  induction live as [|a live IH]; [done|]. simpl. rewrite conns_of_cons.
  destruct (a == ip) eqn:Ha; to_prop.
  - subst. destruct (ip == ip'); lia.
  - rewrite conns_of_cons, IH. destruct (a == ip') eqn:Ha'; to_prop; subst.
    + rewrite bool_decide_eq_false_2 by done. lia.
    + lia.
Qed.

Lemma remove_one_length ip live :
  length (remove_one ip live) = length live - (if conns_of ip live =? 0 then 0 else 1).
Proof.
  induction live as [|a live IH]; [done|]. simpl. rewrite conns_of_cons.
  case_bool_decide as Ha; simpl; [lia|]. rewrite IH.
  pose proof (conns_of_length ip live). destruct (Nat.eqb_spec (conns_of ip live) 0); lia.
Qed.

Lemma try_connect_counts q live ip :
  counts q live -> conns_of ip live <= MAX_CONNS_PER_IP ->
  let '(q', ok) := try_connect q ip in
  let '(live', ok') := spec_quota_step live (OpConnect ip) in
  ok' = Some ok /\ counts q' live'.
Proof.
  intros [Hg Hip] Hcap. unfold try_connect. cbn [spec_quota_step]. rewrite Hg.
  destruct (Nat.leb_spec MAX_GLOBAL_CONNS (length live)) as [Hfull|Hfull].
  { rewrite (proj2 (Nat.ltb_ge _ _) Hfull). by split. }
  rewrite (proj2 (Nat.ltb_lt _ _) Hfull). cbn [andb].
  assert (Hcount : default 0 (cq_per_ip q !! ip) = conns_of ip live).
  { rewrite Hip. by destruct (conns_of ip live). }
  rewrite Hcount.
  destruct (Nat.leb_spec MAX_CONNS_PER_IP (conns_of ip live)) as [Hmax|Hmax].
  - rewrite (proj2 (Nat.ltb_ge _ _) Hmax). split; [done|]. split; [done|].
    intros ip'. cbn [cq_per_ip]. destruct (decide (ip' = ip)) as [->|].
    + rewrite lookup_insert_eq. destruct (conns_of ip live) eqn:E; [|done].
      unfold MAX_CONNS_PER_IP in Hmax. lia.
    + by rewrite lookup_insert_ne.
  - rewrite (proj2 (Nat.ltb_lt _ _) Hmax). split; [done|]. split; [simpl; lia|].
    intros ip'. cbn [cq_per_ip]. rewrite conns_of_cons, insert_insert_eq.
    destruct (decide (ip' = ip)) as [->|].
    + rewrite lookup_insert_eq, bool_decide_eq_true_2 by done. simpl. f_equal. lia.
    + rewrite lookup_insert_ne, bool_decide_eq_false_2 by done. apply Hip.
Qed.

Lemma disconnect_counts q live ip :
  counts q live -> counts (disconnect q ip) (remove_one ip live).
Proof.
  intros [Hg Hip]. unfold disconnect. rewrite Hip.
  destruct (conns_of ip live) as [|n] eqn:Hn; simpl.
  { rewrite remove_one_absent by done. by split. }
  rewrite Nat.sub_0_r. split.
  - rewrite remove_one_length, Hn. simpl. lia.
  - intros ip'. rewrite conns_of_remove_one. cbn [cq_per_ip].
    destruct (decide (ip' = ip)) as [->|].
    + rewrite bool_decide_eq_true_2, Hn by done. simpl. rewrite Nat.sub_0_r.
      destruct n; simpl; [by rewrite lookup_delete_eq | by rewrite lookup_insert_eq].
    + rewrite bool_decide_eq_false_2, Nat.sub_0_r by done.
      destruct (n =? 0); rewrite ?lookup_delete_ne, lookup_insert_ne by done; apply Hip.
Qed.

Lemma quota_step_counts q live op :
  counts q live -> within_caps live ->
  let '(q', r) := quota_step q op in
  let '(live', r') := spec_quota_step live op in
  r = r' /\ counts q' live' /\ within_caps live'.
Proof.
  intros Hc [Hlen Hcaps]. destruct op as [ip|ip]; cbn [quota_step].
  - pose proof (try_connect_counts q live ip Hc (Hcaps ip)) as Hstep.
    destruct (try_connect q ip). cbn [spec_quota_step] in *.
    destruct (_ && _) eqn:Hroom; destruct Hstep as [<- ?]; (split_and!; [done..|]); [|by split].
    apply andb_true_iff in Hroom as [?%Nat.ltb_lt ?%Nat.ltb_lt].
    split; [simpl; lia|]. intros ip'. rewrite conns_of_cons.
    specialize (Hcaps ip'). case_bool_decide; subst; lia.
  - cbn [spec_quota_step]. split_and!; [done|by apply disconnect_counts|].
    split; [rewrite remove_one_length; lia|].
    intros ip'. rewrite conns_of_remove_one. specialize (Hcaps ip'). lia.
Qed.

Lemma default_quota_counts : counts default_quota [] /\ within_caps [].
Proof. split; [by split|]. split; simpl; [lia|]. intros. unfold conns_of. simpl. lia. Qed.

(** ** The upload gate *)

Record LastTimestampLimiter := {
  ltl_interval : Duration;
  ltl_last : gmap IpAddr Instant;
}.

Definition new_limiter (interval : Duration) : LastTimestampLimiter :=
  {| ltl_interval := interval; ltl_last := ∅ |}.

Definition allow (self : LastTimestampLimiter) (ip : IpAddr) (now : Instant)
    : LastTimestampLimiter * bool :=
  let recent := match ltl_last self !! ip with
                | Some last_at => (since now last_at <? ltl_interval self)%Z
                | None => false
                end in
  if recent then (self, false)
  else ({| ltl_interval := ltl_interval self; ltl_last := <[ip := now]> (ltl_last self) |}, true).

Definition limiter_cleanup (self : LastTimestampLimiter) (now : Instant)
    : LastTimestampLimiter :=
  {| ltl_interval := ltl_interval self;
     ltl_last := filter (fun kv => (since now kv.2 <? ltl_interval self)%Z = true)
                   (ltl_last self) |}.

(** *** What it promises

    The reference remembers every upload that was allowed. *)
Inductive limiter_op := OpAllow (ip : IpAddr) (now : Instant) | OpCleanup (now : Instant).

Definition op_time (op : limiter_op) : Instant :=
  match op with OpAllow _ now | OpCleanup now => now end.

Definition limiter_step (self : LastTimestampLimiter) (op : limiter_op)
    : LastTimestampLimiter * option bool :=
  match op with
  | OpAllow ip now => let '(self, ok) := allow self ip now in (self, Some ok)
  | OpCleanup now => (limiter_cleanup self now, None)
  end.

Definition recent_upload (interval : Duration) (accepted : list (IpAddr * Instant))
    (ip : IpAddr) (now : Instant) : bool :=
  existsb (fun u => (u.1 == ip) && (since now u.2 <? interval)%Z) accepted.

Definition spec_limiter_step (interval : Duration) (accepted : list (IpAddr * Instant))
    (op : limiter_op) : list (IpAddr * Instant) * option bool :=
  match op with
  | OpAllow ip now =>
    if recent_upload interval accepted ip now then (accepted, Some false)
    else ((ip, now) :: accepted, Some true)
  | OpCleanup _ => (accepted, None)
  end.

(** From the time [t] on, the map decides as the full history does. *)
Definition remembers (self : LastTimestampLimiter) (accepted : list (IpAddr * Instant))
    (t : Instant) : Prop :=
  forall ip now, (t <= now)%Z ->
    recent_upload (ltl_interval self) accepted ip now =
    match ltl_last self !! ip with
    | Some last_at => (since now last_at <? ltl_interval self)%Z
    | None => false
    end.

Lemma recent_upload_later interval accepted ip now now' :
  (now <= now')%Z -> recent_upload interval accepted ip now = false ->
  recent_upload interval accepted ip now' = false.
Proof.
  intros Hle. unfold recent_upload. induction accepted as [|[a t] l IH]; simpl; [done|].
  intros [Hhd Htl]%orb_false_iff. rewrite IH, orb_false_r by done.
  destruct (a == ip); [|done]. simpl in *. pose proof (since_mono now now' t Hle).
  apply Z.ltb_ge in Hhd. apply Z.ltb_ge. lia.
Qed.

Lemma remembers_step self accepted t op :
  remembers self accepted t -> (t <= op_time op)%Z ->
  let '(self', r) := limiter_step self op in
  let '(accepted', r') := spec_limiter_step (ltl_interval self) accepted op in
  r = r' /\ ltl_interval self' = ltl_interval self /\ remembers self' accepted' (op_time op).
Proof.
  intros Hrem Ht. destruct op as [ip now|now];
    cbn [limiter_step spec_limiter_step op_time] in *.
  - unfold allow. rewrite (Hrem ip now Ht). destruct (match _ with Some _ => _ | None => _ end) eqn:Hdec.
    + split_and!; [done..|]. intros ip' now' Hle. apply Hrem. lia.
    + split_and!; [done..|]. intros ip' now' Hle. cbn [ltl_interval ltl_last].
      unfold recent_upload. cbn [existsb fst snd].
      fold (recent_upload (ltl_interval self) accepted ip' now').
      destruct (decide (ip' = ip)) as [->|].
      * rewrite lookup_insert_eq, bool_decide_eq_true_2 by done. simpl.
        rewrite (recent_upload_later _ _ _ now), orb_false_r; [done..|].
        by rewrite (Hrem ip now Ht).
      * rewrite lookup_insert_ne, bool_decide_eq_false_2 by done. simpl. apply Hrem. lia.
  - split_and!; [done..|]. intros ip' now' Hle. cbn [limiter_cleanup ltl_interval ltl_last].
    rewrite Hrem by lia. rewrite map_lookup_filter.
    destruct (ltl_last self !! ip') as [last_at|]; simpl; [|done].
    case_guard as Hkeep; simpl; [done|]. apply not_true_iff_false, Z.ltb_ge in Hkeep.
    apply Z.ltb_ge. pose proof (since_mono now now' last_at Hle). lia.
Qed.

(** Newest first, uploads of one address are at least [interval] apart. *)
Definition spaced (interval : Duration) (accepted : list (IpAddr * Instant)) : Prop :=
  StronglySorted (fun new old => new.1 = old.1 -> (old.2 + interval <= new.2)%Z) accepted.

Lemma spaced_step interval accepted op :
  (0 < interval)%Z -> spaced interval accepted ->
  spaced interval (spec_limiter_step interval accepted op).1.
Proof.
  intros Hpos Hsp. destruct op as [ip now|now]; cbn [spec_limiter_step]; [|done].
  destruct (recent_upload _ _ _ _) eqn:Hrec; [done|]. constructor; [done|].
  apply Forall_forall. intros [a t] Hin Heq. simpl in *. subst a.
  destruct (Z.ltb_spec (since now t) interval) as [Hlt|Hge].
  - exfalso. enough (recent_upload interval accepted ip now = true) by congruence.
    apply existsb_exists. exists (ip, t). split; [by apply list_elem_of_In|]. simpl.
    rewrite bool_decide_eq_true_2 by done. by apply Z.ltb_lt.
  - unfold since in Hge. lia.
Qed.

Lemma limiter_run self accepted t ops :
  remembers self accepted t -> (0 < ltl_interval self)%Z ->
  spaced (ltl_interval self) accepted ->
  Sorted Z.le (op_time <$> ops) -> HdRel Z.le t (op_time <$> ops) ->
  let '(self', answers) := run_ops limiter_step self ops in
  let '(accepted', expected) := run_ops (spec_limiter_step (ltl_interval self)) accepted ops in
  answers = expected /\ spaced (ltl_interval self) accepted'.
Proof.
  revert self accepted t. induction ops as [|op ops IH]; intros self accepted t Hrem Hpos Hsp
    Hsort Hhd; [done|].
  cbn [run_ops fmap list_fmap] in *. apply Sorted_inv in Hsort as [Hsort Hnext].
  apply HdRel_inv in Hhd.
  pose proof (remembers_step self accepted t op Hrem Hhd) as Hstep.
  pose proof (spaced_step _ _ op Hpos Hsp) as Hsp'.
  destruct (limiter_step self op) as [self' r].
  destruct (spec_limiter_step _ accepted op) as [accepted' r'].
  destruct Hstep as (-> & Hint & Hrem'). rewrite <- Hint in *.
  specialize (IH self' accepted' (op_time op) Hrem' Hpos Hsp' Hsort Hnext).
  destruct (run_ops limiter_step self' ops), (run_ops (spec_limiter_step _) accepted' ops).
  by destruct IH as [-> ?].
Qed.

(** The upload gate.  As long as the clock does not go back, the gate
    answers as the reference that remembers every allowed upload does: an
    upload is allowed exactly when its address had none allowed within the
    last interval.  The periodic cleanup therefore never changes an answer,
    and two allowed uploads of one address are at least an interval apart. *)
Theorem upload_limiter_refines interval ops
    (Hinterval : (0 < interval)%Z)
    (Hclock : Sorted Z.le (op_time <$> ops)) :
  let '(self, answers) := run_ops limiter_step (new_limiter interval) ops in
  let '(accepted, expected) := run_ops (spec_limiter_step interval) [] ops in
  answers = expected /\ spaced interval accepted.
Proof.
  set (t := match op_time <$> ops with t :: _ => t | [] => 0%Z end).
  apply (limiter_run (new_limiter interval) [] t); [done|done|constructor|done|].
  unfold t. destruct ops; constructor. simpl. lia.
Qed.

(** ** The limiter by address

    What is used of the [governor] crate: a quota of so many actions per second
    with a burst, a limiter with a state per key, and the check of a key.  A
    [NonZeroU32] is a [positive]. *)
Class GovernorLib := {
  Quota : Type;
  RateLimiter : Type;
  per_second : positive -> Quota;
  allow_burst : Quota -> positive -> Quota;
  keyed : Quota -> RateLimiter;
  check_key : RateLimiter -> IpAddr -> Instant -> RateLimiter * bool;
}.

Definition nonzero (n : N) : option positive :=
  match n with N0 => None | Npos p => Some p end.

Section ip_limiter.
Context `{GovernorLib}.

Record IpRateLimiter := { ipl_inner : RateLimiter }.

(** [None] when one of the two [unwrap]s panics. *)
Definition ip_limiter_new (burst sustained_per_sec : N) : option IpRateLimiter :=
  match nonzero (N.max sustained_per_sec 1), nonzero (N.max burst 1) with
  | Some sustained, Some burst =>
    Some {| ipl_inner := keyed (allow_burst (per_second sustained) burst) |}
  | _, _ => None
  end.

Definition ip_limiter_allow (self : IpRateLimiter) (ip : IpAddr) (now : Instant)
    : IpRateLimiter * bool :=
  let '(inner, ok) := check_key (ipl_inner self) ip now in ({| ipl_inner := inner |}, ok).

(** It never panics. *)
Lemma ip_limiter_new_total burst sustained_per_sec :
  is_Some (ip_limiter_new burst sustained_per_sec).
Proof.
  unfold ip_limiter_new, nonzero. destruct (N.max sustained_per_sec 1) eqn:Hs; [lia|].
  destruct (N.max burst 1) eqn:Hb; [lia|]. by eexists.
Qed.
End ip_limiter.

(** ** The token bucket

    [f64] is IEEE 754 binary64, computed by the specification of floats of the
    standard library. *)
Definition f64 := SpecFloat.spec_float.
Definition f64_of_Z (n : Z) : f64 := SpecFloat.binary_normalize 53 1024 n 0 false.
Definition f64_add (x y : f64) : f64 := SpecFloat.SFadd 53 1024 x y.
Definition f64_sub (x y : f64) : f64 := SpecFloat.SFsub 53 1024 x y.
Definition f64_mul (x y : f64) : f64 := SpecFloat.SFmul 53 1024 x y.
Definition f64_div (x y : f64) : f64 := SpecFloat.SFdiv 53 1024 x y.
Definition f64_ge (x y : f64) : bool := SpecFloat.SFleb y x.
Definition is_nan (x : f64) : bool :=
  match x with SpecFloat.S754_nan => true | _ => false end.

(** [f64::min]: the other operand when one is NaN. *)
Definition f64_min (x y : f64) : f64 :=
  if SpecFloat.SFltb x y || is_nan y then x else y.

(** [Duration::as_secs_f64]. *)
Definition as_secs_f64 (d : Duration) : f64 :=
  f64_add (f64_of_Z (d / 1000000000)) (f64_div (f64_of_Z (d mod 1000000000)) (f64_of_Z 1000000000)).

Definition PER_CONNECTION_MESSAGE_BURST : f64 := f64_of_Z 30.
Definition PER_CONNECTION_MESSAGE_SUSTAINED : f64 := f64_of_Z 10.

Record TokenBucket := {
  tb_tokens : f64;
  tb_max_tokens : f64;
  tb_refill_per_sec : f64;
  tb_last : Instant;
}.

Definition new_bucket (burst sustained_per_sec : f64) (now : Instant) : TokenBucket :=
  {| tb_tokens := burst; tb_max_tokens := burst; tb_refill_per_sec := sustained_per_sec;
     tb_last := now |}.

Definition refill (self : TokenBucket) (now : Instant) : TokenBucket :=
  if (now <? tb_last self)%Z then self
  else
  let elapsed := as_secs_f64 (since now (tb_last self)) in
  {| tb_tokens := f64_min (f64_add (tb_tokens self) (f64_mul elapsed (tb_refill_per_sec self)))
                    (tb_max_tokens self);
     tb_max_tokens := tb_max_tokens self;
     tb_refill_per_sec := tb_refill_per_sec self;
     tb_last := now |}.

Definition allow_at (self : TokenBucket) (now : Instant) : TokenBucket * bool :=
  let self := refill self now in
  if f64_ge (tb_tokens self) (f64_of_Z 1)
  then ({| tb_tokens := f64_sub (tb_tokens self) (f64_of_Z 1);
           tb_max_tokens := tb_max_tokens self;
           tb_refill_per_sec := tb_refill_per_sec self;
           tb_last := tb_last self |}, true)
  else (self, false).

(** The bucket of a connection with [k] whole tokens left. *)
Definition bucket_of (k : nat) (last_at : Instant) : TokenBucket :=
  {| tb_tokens := f64_of_Z (Z.of_nat k); tb_max_tokens := PER_CONNECTION_MESSAGE_BURST;
     tb_refill_per_sec := PER_CONNECTION_MESSAGE_SUSTAINED; tb_last := last_at |}.

(** With no time elapsed a refill adds nothing, and whole tokens are counted
    exactly: 31 cases each. *)
Lemma whole_refill k :
  k <= 30 ->
  f64_min (f64_add (f64_of_Z (Z.of_nat k))
             (f64_mul (as_secs_f64 0) PER_CONNECTION_MESSAGE_SUSTAINED))
    PER_CONNECTION_MESSAGE_BURST = f64_of_Z (Z.of_nat k).
Proof. intros. do 31 (destruct k; [by vm_compute|]). lia. Qed.

Lemma whole_take k :
  k < 30 -> f64_sub (f64_of_Z (Z.of_nat (S k))) (f64_of_Z 1) = f64_of_Z (Z.of_nat k).
Proof. intros. do 30 (destruct k; [by vm_compute|]). lia. Qed.

Lemma whole_ge k : k <= 30 -> f64_ge (f64_of_Z (Z.of_nat k)) (f64_of_Z 1) = (1 <=? k).
Proof. intros. do 31 (destruct k; [by vm_compute|]). lia. Qed.

Lemma refill_whole k last_at now :
  k <= 30 -> (now <= last_at)%Z -> refill (bucket_of k last_at) now = bucket_of k last_at.
Proof.
  intros Hk Hnow. unfold refill. destruct (Z.ltb_spec now (tb_last (bucket_of k last_at)));
    [done|]. unfold bucket_of in *. cbn [tb_last tb_tokens tb_max_tokens tb_refill_per_sec] in *.
  assert (now = last_at) as -> by lia.
  replace (since last_at last_at) with 0%Z by (unfold since; lia).
  by rewrite whole_refill.
Qed.

Lemma allow_whole k last_at now :
  k <= 30 -> (now <= last_at)%Z ->
  allow_at (bucket_of k last_at) now = (bucket_of (k - 1) last_at, 1 <=? k).
Proof.
  intros Hk Hnow. unfold allow_at. rewrite refill_whole by done.
  cbn [bucket_of tb_tokens tb_max_tokens tb_refill_per_sec tb_last]. rewrite whole_ge by done.
  destruct k as [|k]; [done|]. cbn [Nat.leb]. by rewrite whole_take, Nat.sub_1_r by lia.
Qed.

(** Where the bucket stands after a refill, and whether it was capped. *)
Lemma f64_min_le x y : is_nan y = false -> f64_ge y (f64_min x y) = true.
Proof.
  intros Hy. unfold f64_ge, f64_min. rewrite Hy, orb_false_r.
  destruct (SpecFloat.SFltb x y) eqn:Hlt.
  - unfold SpecFloat.SFltb, SpecFloat.SFleb in *. by destruct (SpecFloat.SFcompare x y) as [[]|].
  - unfold SpecFloat.SFleb. destruct y as [s|s| |s m e]; try done; try (by destruct s).
    simpl. rewrite Z.compare_refl. destruct s; by rewrite Pos.compare_refl.
Qed.

(** Bursts.  A connection's bucket lets the first 30 messages through and
    no other as long as the clock has not advanced past the bucket's creation,
    in particular when it goes back; and whatever the state of a bucket and
    however long the pause, a refill never leaves more than its capacity. *)
Theorem token_bucket_burst :
  (forall t nows, Forall (fun now => (now <= t)%Z) nows ->
     (run_ops allow_at
        (new_bucket PER_CONNECTION_MESSAGE_BURST PER_CONNECTION_MESSAGE_SUSTAINED t) nows).2
     = (fun i => i <? 30) <$> seq 0 (length nows))
  /\ (forall self now, is_nan (tb_max_tokens self) = false -> (tb_last self <= now)%Z ->
       f64_ge (tb_max_tokens self) (tb_tokens (refill self now)) = true).
Proof.
  split.
  - intros t nows Hnows.
    assert (Hrun : forall k i, k <= 30 -> i = 30 - k \/ (k = 0 /\ 30 <= i) ->
      (run_ops allow_at (bucket_of k t) nows).2 = (fun i => i <? 30) <$> seq i (length nows)).
    { induction Hnows as [|now nows Hnow Hnows IH]; intros k i Hk Hi; [done|].
      cbn [run_ops]. rewrite allow_whole by done.
      specialize (IH (k - 1) (S i)).
      destruct (run_ops allow_at (bucket_of (k - 1) t) nows) as [b rs]. simpl in *.
      rewrite IH by lia. f_equal. destruct k; simpl.
      - symmetry. apply Nat.leb_gt. lia.
      - symmetry. apply Nat.leb_le. lia. }
    apply (Hrun 30 0); lia.
  - intros self now Hmax Hnow. unfold refill.
    destruct (Z.ltb_spec now (tb_last self)); [lia|]. by apply f64_min_le.
Qed.
