(* ===== verification/Logs.v ===== *)
(** * Crash logs: [logs.rs]

    The in-memory log store, and what its two endpoints do with it under its
    locks; the endpoints themselves are tasks of [App].  The random draws of
    [generate_log_id] are an argument. *)
From S2P Require Import Prelude.
From S2P Require Import NetAddr.
From S2P Require Import Quotas.

Definition MAX_LOG_SIZE : N := 1024 * 1024.
Definition MAX_LOG_ENTRIES : nat := 500.
Definition LOG_ID_LENGTH : nat := 5.
Definition LOG_MAX_AGE : Duration := from_secs (3 * 24 * 60 * 60).
Definition MAX_CONCURRENT_LOOKUPS : nat := 32.

Definition ID_ALPHABET : list ascii :=
  String.list_ascii_of_string "abcdefghijklmnopqrstuvwxyz0123456789".

(** One draw of [gen_range(0..ID_ALPHABET.len())] per character. *)
Definition generate_log_id (draw : list nat) : string :=
  String.string_of_list_ascii
    ((fun i => default Ascii.zero (ID_ALPHABET !! i)) <$> take LOG_ID_LENGTH draw).

Definition valid_draw (draw : list nat) : bool :=
  (length draw =? LOG_ID_LENGTH) && forallb (fun i => i <? length ID_ALPHABET) draw.

Definition valid_log_id (id : string) : bool :=
  (String.length id =? LOG_ID_LENGTH)
  && forallb (fun b => bool_decide (b ∈ ID_ALPHABET)) (String.list_ascii_of_string id).

Record Entry := { e_data : list byte; e_created_at : SystemTime }.

Record LogStore := {
  entries : gmap string Entry;
  upload_limiter : LastTimestampLimiter;
}.

Definition new_log_store : LogStore :=
  {| entries := ∅; upload_limiter := new_limiter LOG_UPLOAD_INTERVAL |}.

(** The predicate of both [retain]s. *)
Definition retain_entries (es : gmap string Entry) (now : SystemTime) : gmap string Entry :=
  filter (fun kv => (since now (e_created_at kv.2) <? LOG_MAX_AGE)%Z = true) es.

Definition log_cleanup (self : LogStore) (now : SystemTime) (inow : Instant) : LogStore :=
  {| entries := retain_entries (entries self) now;
     upload_limiter := limiter_cleanup (upload_limiter self) inow |}.

(** An HTTP response: a status with a text, the JSON object with the new id,
    or a log with the headers that are set on it. *)
Inductive Response :=
| RText (status : N) (body : string)
| RJsonId (id : string)
| RLog (data : list byte) (headers : list (string * string)).

Definition health : string := "ok".

Definition log_headers : list (string * string) :=
  [("content-type", "text/plain; charset=utf-8"); ("cache-control", "private, no-store")].

(** The loop that draws until the id is free; [None] when the draws run out. *)
Fixpoint fresh_log_id (es : gmap string Entry) (draws : list (list nat)) : option string :=
  match draws with
  | [] => None
  | draw :: draws =>
    let id := generate_log_id draw in
    if contains_key es id then fresh_log_id es draws else Some id
  end.

(** ** What the endpoints do *)

(** [upload_limiter.allow(ip)]. *)
Definition allow_upload (ip : IpAddr) (inow : Instant) (self : LogStore) : LogStore * bool :=
  let '(limiter, allowed) := allow (upload_limiter self) ip inow in
  ({| entries := entries self; upload_limiter := limiter |}, allowed).

(** The checks of [post_logs] on the body. *)
Definition refuse_body (body : list byte) : option Response :=
  if bool_decide (body = []) then Some (RText 400 "Empty body")
  else if (MAX_LOG_SIZE <? N.of_nat (length body))%N then Some (RText 413 "Log too large (max 1MB)")
  else None.

(** What [post_logs] does while the entries are locked; no response when the
    draws run out. *)
Definition store_log (body : list byte) (now : SystemTime) (draws : list (list nat))
    (self : LogStore) : LogStore * option Response :=
  let es := retain_entries (entries self) now in
  if MAX_LOG_ENTRIES <=? size es
  then ({| entries := es; upload_limiter := upload_limiter self |}, Some (RText 503 "Log store full"))
  else
  match fresh_log_id es draws with
  | None => ({| entries := es; upload_limiter := upload_limiter self |}, None)
  | Some id =>
    ({| entries := <[id := {| e_data := body; e_created_at := now |}]> es;
        upload_limiter := upload_limiter self |}, Some (RJsonId id))
  end.

(** The lookup of [get_logs]. *)
Definition lookup_log (id : string) (self : LogStore) : option (list byte) :=
  if valid_log_id id then e_data <$> entries self !! id else None.

(** ** Bounds and retrieval *)

Definition log_store_wf (self : LogStore) : Prop :=
  size (entries self) <= MAX_LOG_ENTRIES
  /\ forall id e, entries self !! id = Some e ->
       valid_log_id id = true /\ e_data e <> [] /\ (N.of_nat (length (e_data e)) <= MAX_LOG_SIZE)%N.

Lemma retain_entries_lookup es now id e :
  retain_entries es now !! id = Some e ->
  es !! id = Some e /\ (since now (e_created_at e) < LOG_MAX_AGE)%Z.
Proof. intros [Hl Hc]%map_lookup_filter_Some. split; [done|]. by apply Z.ltb_lt. Qed.

Lemma retain_entries_subseteq es now : retain_entries es now ⊆ es.
Proof. apply map_filter_subseteq. Qed.

Lemma retain_entries_wf es limiter now :
  log_store_wf {| entries := es; upload_limiter := limiter |} ->
  log_store_wf {| entries := retain_entries es now; upload_limiter := limiter |}.
Proof.
  intros [Hsize Hent]. simpl in *. split; simpl.
  - etrans; [|exact Hsize]. apply size_dom_le, subseteq_dom, retain_entries_subseteq.
  - intros id e [He _]%retain_entries_lookup. by apply Hent.
Qed.

Lemma generate_log_id_valid draw :
  valid_draw draw = true -> valid_log_id (generate_log_id draw) = true.
Proof.
  unfold valid_draw, valid_log_id, generate_log_id.
  intros [Hlen%Nat.eqb_eq Hall]%andb_true_iff. rewrite take_ge by lia.
  rewrite string_length_list, String.list_ascii_of_string_of_list_ascii, length_fmap, Hlen.
  cbn [Nat.eqb andb].
  apply forallb_Forall, Forall_fmap, Forall_forall. intros i Hi.
  apply forallb_Forall in Hall. rewrite Forall_forall in Hall.
  apply Hall, Nat.ltb_lt in Hi. apply lookup_lt_is_Some in Hi as [c Hc].
  simpl. rewrite Hc. apply bool_decide_eq_true. by eapply list_elem_of_lookup_2.
Qed.

Lemma fresh_log_id_Some es draws id :
  fresh_log_id es draws = Some id ->
  es !! id = None /\ exists draw, draw ∈ draws /\ id = generate_log_id draw.
Proof.
  induction draws as [|draw draws IH]; simpl; [done|].
  destruct (contains_key es (generate_log_id draw)) eqn:Hc.
  - intros (? & d & ? & ?)%IH. split; [done|]. exists d. split; [by right|done].
  - intros [= <-]. apply contains_key_false in Hc. split; [done|].
    exists draw. split; [left|done].
Qed.

Lemma fresh_log_id_total es draws :
  NoDup (generate_log_id <$> draws) -> size es < length draws ->
  is_Some (fresh_log_id es draws).
Proof.
  intros Hnd Hsize. destruct (fresh_log_id es draws) eqn:Hf; [by eexists|]. exfalso.
  assert (Hall : forall d, d ∈ draws -> generate_log_id d ∈ dom es).
  { clear Hnd Hsize. induction draws as [|d draws IH]; simpl in *.
    { intros d Hin. by apply not_elem_of_nil in Hin. }
    destruct (contains_key es (generate_log_id d)) eqn:Hc; [|done].
    intros d' [->|Hin]%elem_of_cons; [|by apply IH].
    apply elem_of_dom. by apply contains_key_true. }
  assert (Hsub : list_to_set (generate_log_id <$> draws) ⊆ dom es).
  { intros x [d [-> Hd]]%elem_of_list_to_set%list_elem_of_fmap. by apply Hall. }
  apply subseteq_size in Hsub. rewrite size_list_to_set, length_fmap, size_dom in Hsub by done.
  lia.
Qed.

(** The loop that looks for a free id ends as soon as the draws have produced
    500 different ids, since the store is below 500 when it starts. *)
Lemma store_log_answers body now draws self :
  NoDup (generate_log_id <$> draws) -> MAX_LOG_ENTRIES <= length draws ->
  is_Some (store_log body now draws self).2.
Proof.
  intros Hnd Hmany. unfold store_log.
  destruct (Nat.leb_spec MAX_LOG_ENTRIES (size (retain_entries (entries self) now))); [by eexists|].
  destruct (fresh_log_id_total (retain_entries (entries self) now) draws) as [id ->]; [done|lia|].
  by eexists.
Qed.

(** Storing keeps the store within its bounds, stores under the id it answers,
    which was free, and else changes nothing but for what it forgets. *)
Lemma store_log_spec body now draws self :
  log_store_wf self -> refuse_body body = None ->
  Forall (fun draw => valid_draw draw = true) draws ->
  let '(self', response) := store_log body now draws self in
  log_store_wf self'
  /\ match response with
     | Some (RJsonId id) =>
       valid_log_id id = true
       /\ retain_entries (entries self) now !! id = None
       /\ entries self' =
            <[id := {| e_data := body; e_created_at := now |}]> (retain_entries (entries self) now)
     | Some (RLog _ _) => False
     | Some (RText status _) => status = 503%N /\ entries self' = retain_entries (entries self) now
     | None => entries self' = retain_entries (entries self) now
     end.
Proof.
  intros Hwf Hbody Hdraws. unfold store_log.
  pose proof (retain_entries_wf (entries self) (upload_limiter self) now) as Hret.
  specialize (Hret ltac:(by destruct self)).
  destruct (Nat.leb_spec MAX_LOG_ENTRIES (size (retain_entries (entries self) now)))
    as [|Hroom]; [by auto|].
  destruct (fresh_log_id _ _) as [id|] eqn:Hfresh; [|by auto].
  apply fresh_log_id_Some in Hfresh as (Hfree & draw & Hdraw & ->).
  rewrite Forall_forall in Hdraws.
  pose proof (generate_log_id_valid draw (Hdraws _ Hdraw)) as Hid.
  split; [|by split_and!]. destruct Hret as [_ Hent]. split; cbn [entries].
  - rewrite map_size_insert_None by done. lia.
  - intros id e [[<- <-]|[_ He]]%lookup_insert_Some; [|by apply Hent].
    unfold refuse_body in Hbody. case_bool_decide; [done|].
    by destruct (N.ltb_spec MAX_LOG_SIZE (N.of_nat (length body))).
Qed.

(** A log younger than three days is not forgotten. *)
Lemma store_log_keeps body now draws self id e :
  entries self !! id = Some e -> (since now (e_created_at e) < LOG_MAX_AGE)%Z ->
  entries (store_log body now draws self).1 !! id = Some e.
Proof.
  intros He Hage.
  assert (Hret : retain_entries (entries self) now !! id = Some e)
    by (apply map_lookup_filter_Some; split; [done|]; by apply Z.ltb_lt).
  unfold store_log. destruct (_ <=? _); [done|]. destruct (fresh_log_id _ _) as [id'|] eqn:Hf; [|done].
  apply fresh_log_id_Some in Hf as [Hfree _]. cbn [fst entries].
  rewrite lookup_insert_ne; [done|]. intros ->. congruence.
Qed.

Lemma log_cleanup_keeps now inow self id e :
  entries self !! id = Some e -> (since now (e_created_at e) < LOG_MAX_AGE)%Z ->
  entries (log_cleanup self now inow) !! id = Some e.
Proof. intros He Hage. apply map_lookup_filter_Some. split; [done|]. by apply Z.ltb_lt. Qed.
