(* ===== verification/Snapshot.v ===== *)
(** * Snapshots: [snapshot.rs]

    The persisted form of a room, its capture and its validation on load, and
    the writer task.  The JSON codec is serde's and the file system the
    operating system's: the codec is a parameter, and of the file system only
    what [persist_atomic] asks of it is written down. *)
From S2P Require Import Prelude.
From S2P Require Import Protocol.
From S2P Require Import Ids.
From S2P Require Import HostTransfer.
From S2P Require Import Room.

Definition SNAPSHOT_FORMAT_VERSION : N := 1.
Definition DEBOUNCE : Duration := from_millis 100.
Definition SNAPSHOT_FLUSH_TIMEOUT : Duration := from_secs 5.

(** ** Persisted data *)

Record ReservationDto := {
  rd_verifier : string;
  rd_absent_since_millis : option N;
}.

Record RoomDto := {
  dto_session_id : string;
  dto_host_peer_id : string;
  dto_host_verifier : string;
  dto_protocol_version : N;
  dto_reservations : gmap string ReservationDto;
  dto_created_at_millis : N;
  dto_last_activity_at_millis : N;
}.

Record StateSnapshotDto := { dto_version : N; dto_rooms : list RoomDto }.

Definition new_snapshot_dto (rooms : list RoomDto) : StateSnapshotDto :=
  {| dto_version := SNAPSHOT_FORMAT_VERSION; dto_rooms := rooms |}.

#[export] Instance ReservationDto_eq_dec : EqDecision ReservationDto.
Proof. solve_decision. Defined.
#[export] Instance RoomDto_eq_dec : EqDecision RoomDto.
Proof. solve_decision. Defined.
#[export] Instance StateSnapshotDto_eq_dec : EqDecision StateSnapshotDto.
Proof. solve_decision. Defined.

(** A room as [load_snapshot] returns it; a reservation is the pair of its
    verifier and the instant its guest became absent. *)
Record RestoredRoom := {
  rst_session_id : string;
  rst_host_peer_id : string;
  rst_host_verifier : Verifier;
  rst_reservations : gmap string (Verifier * option Instant);
  rst_created_at : SystemTime;
  rst_last_activity_at : SystemTime;
}.

(** The epoch is at 0, and [as_millis() as u64] truncates. *)
Definition to_millis (t : SystemTime) : N := wrap64 (Z.to_N (since t 0 / 1000000)).
Definition time_of_millis (ms : N) : SystemTime := from_millis (Z.of_N ms).

(** serde_json on the snapshot type, and the earliest representable [Instant]
    of the platform. *)
Class SnapshotLib := {
  to_vec : StateSnapshotDto -> option (list byte);
  from_slice : list byte -> option StateSnapshotDto;
  min_instant : Instant;
}.

Section snapshot.
Context `{HashIter} `{CryptoLib} `{SnapshotLib}.

(** [Instant::checked_sub]. *)
Definition checked_sub (t : Instant) (d : Duration) : option Instant :=
  if (min_instant <=? t - d)%Z then Some (t - d)%Z else None.

(** ** Loading *)

(** The checks on a room before its id is noted as seen. *)
Definition load_header (now : SystemTime) (room : RoomDto) : option Verifier :=
  if negb (valid_session_and_peer_id (dto_session_id room) (dto_host_peer_id room)) then None
  else if (MAX_SESSION_ID_LENGTH <? String.length (dto_session_id room))
          || (MAX_PEER_ID_LENGTH <? String.length (dto_host_peer_id room)) then None
  else if negb (supported_protocol_version (dto_protocol_version room)) then None
  else
  match from_encoded (dto_host_verifier room) with
  | None => None
  | Some host_verifier =>
    let age := since now (time_of_millis (dto_created_at_millis room)) in
    let idle := since now (time_of_millis (dto_last_activity_at_millis room)) in
    if (ROOM_MAX_AGE <? age)%Z || (EMPTY_ROOM_MAX_AGE <? idle)%Z then None
    else Some host_verifier
  end.

Definition load_absent_since (now : SystemTime) (inow : Instant) (ms : option N)
    : option Instant :=
  (fun ms => let elapsed := since now (time_of_millis ms) in
             default inow (checked_sub inow elapsed)) <$> ms.

(** The loop over the reservations; [None] when one of them is invalid. *)
Fixpoint load_reservations (now : SystemTime) (inow : Instant) (room : RoomDto)
    (rs : list (string * ReservationDto)) (acc : gmap string (Verifier * option Instant))
    : option (gmap string (Verifier * option Instant)) :=
  match rs with
  | [] => Some acc
  | (peer_id, r) :: rs =>
    if negb (valid_session_and_peer_id (dto_session_id room) peer_id)
       || (peer_id == dto_host_peer_id room) then None
    else
    match from_encoded (rd_verifier r) with
    | None => None
    | Some verifier =>
      load_reservations now inow room rs
        (<[peer_id := (verifier, load_absent_since now inow (rd_absent_since_millis r))]> acc)
    end
  end.

Fixpoint load_rooms (now : SystemTime) (inow : Instant) (rooms : list RoomDto)
    (seen : gset string) : list RestoredRoom :=
  match rooms with
  | [] => []
  | room :: rooms =>
    match load_header now room with
    | None => load_rooms now inow rooms seen
    | Some host_verifier =>
      if bool_decide (dto_session_id room ∈ seen) then load_rooms now inow rooms seen
      else
      let seen := {[ dto_session_id room ]} ∪ seen in
      match load_reservations now inow room (hm_iter (dto_reservations room)) ∅ with
      | None => load_rooms now inow rooms seen
      | Some reservations =>
        {| rst_session_id := dto_session_id room;
           rst_host_peer_id := dto_host_peer_id room;
           rst_host_verifier := host_verifier;
           rst_reservations := reservations;
           rst_created_at := time_of_millis (dto_created_at_millis room);
           rst_last_activity_at := time_of_millis (dto_last_activity_at_millis room) |}
        :: load_rooms now inow rooms seen
      end
    end
  end.

(** [file] is what reading the file returned, if it could be read. *)
Definition load_snapshot (file : option (list byte)) (now : SystemTime) (inow : Instant)
    : list RestoredRoom :=
  match file with
  | None => []
  | Some bytes =>
    match from_slice bytes with
    | None => []
    | Some dto =>
      if negb (dto_version dto =? SNAPSHOT_FORMAT_VERSION)%N then []
      else load_rooms now inow (dto_rooms dto) ∅
    end
  end.

(** ** Capture *)

Definition build_reservation (now : SystemTime) (inow : Instant) (r : PeerReservation)
    : ReservationDto :=
  {| rd_verifier := encode (pr_verifier r);
     rd_absent_since_millis :=
       (fun instant => to_millis (now - since inow instant)) <$> pr_absent_since r |}.

Definition build_room_dto (st : RoomState) (now : SystemTime) (inow : Instant) : RoomDto :=
  {| dto_session_id := session_id st;
     dto_host_peer_id := host_peer_id st;
     dto_host_verifier := encode (host_verifier st);
     dto_protocol_version := RELAY_PROTOCOL_VERSION;
     dto_reservations := build_reservation now inow <$>
       filter (fun kr => negb (pr_release_pending kr.2) = true) (reservations st);
     dto_created_at_millis := to_millis (created_at st);
     dto_last_activity_at_millis := to_millis (last_activity_at st) |}.

(** ** Lemmas on the loader *)

Lemma load_header_Some now room v :
  load_header now room = Some v ->
  valid_session_and_peer_id (dto_session_id room) (dto_host_peer_id room) = true
  /\ from_encoded (dto_host_verifier room) = Some v
  /\ (since now (time_of_millis (dto_created_at_millis room)) <= ROOM_MAX_AGE)%Z
  /\ (since now (time_of_millis (dto_last_activity_at_millis room)) <= EMPTY_ROOM_MAX_AGE)%Z.
Proof.
  unfold load_header. destruct (valid_session_and_peer_id _ _); simpl; [|done].
  destruct (_ || _); [done|]. destruct (negb _); [done|].
  destruct (from_encoded _) as [v'|]; [|done].
  destruct (_ || _) eqn:Hage; [done|]. intros [= ->].
  apply orb_false_iff in Hage as [?%Z.ltb_ge ?%Z.ltb_ge]. done.
Qed.

Definition load_reservation (now : SystemTime) (inow : Instant) (r : ReservationDto)
    : option (Verifier * option Instant) :=
  (fun v => (v, load_absent_since now inow (rd_absent_since_millis r)))
    <$> from_encoded (rd_verifier r).

(** Which reservations a room may hold. *)
Definition reservation_ok (room : RoomDto) (peer_id : string) (r : ReservationDto) : Prop :=
  valid_session_and_peer_id (dto_session_id room) peer_id = true
  /\ peer_id <> dto_host_peer_id room /\ is_Some (from_encoded (rd_verifier r)).

Lemma load_reservations_list now inow room rs acc :
  NoDup rs.*1 ->
  match load_reservations now inow room rs acc with
  | Some m =>
    Forall (fun kr => reservation_ok room kr.1 kr.2) rs
    /\ forall id, m !! id = match (list_to_map rs : gmap string ReservationDto) !! id with
                            | Some r => load_reservation now inow r
                            | None => acc !! id
                            end
  | None => exists id r, (id, r) ∈ rs /\ ~ reservation_ok room id r
  end.
Proof.
  revert acc. induction rs as [|[id r] rs IH]; intros acc Hnd; cbn [load_reservations].
  { split; [done|]. intros id. simpl. by rewrite lookup_empty. }
  cbn [fmap list_fmap fst] in Hnd. apply NoDup_cons in Hnd as [Hid Hnd].
  destruct (_ || _) eqn:Hbad.
  { exists id, r. split; [left|]. intros (Hv & Hne & _).
    rewrite Hv, bool_decide_eq_false_2 in Hbad by done. done. }
  apply orb_false_iff in Hbad as [Hv Hne]. to_prop.
  destruct (from_encoded (rd_verifier r)) as [v|] eqn:Hver.
  2: { exists id, r. split; [left|]. intros (_ & _ & [? ?]). congruence. }
  specialize (IH (<[id := (v, load_absent_since now inow (rd_absent_since_millis r))]> acc) Hnd).
  destruct (load_reservations _ _ _ rs _) as [m|].
  - destruct IH as [Hall Hm]. split.
    { constructor; [|done]. split_and!; simpl; [done..|by rewrite Hver]. }
    intros id'. rewrite Hm. simpl. destruct (decide (id' = id)) as [->|].
    + rewrite (not_elem_of_list_to_map_1 rs id), !lookup_insert_eq by done.
      unfold load_reservation. by rewrite Hver.
    + by rewrite !lookup_insert_ne by done.
  - destruct IH as (id' & r' & Hin & Hbad). exists id', r'. split; [by right|done].
Qed.

Lemma load_reservations_spec now inow room :
  match load_reservations now inow room (hm_iter (dto_reservations room)) ∅ with
  | Some m =>
    (forall id r, dto_reservations room !! id = Some r -> reservation_ok room id r)
    /\ forall id, m !! id = dto_reservations room !! id ≫= load_reservation now inow
  | None =>
    exists id r, dto_reservations room !! id = Some r /\ ~ reservation_ok room id r
  end.
Proof.
  pose proof (load_reservations_list now inow room (hm_iter (dto_reservations room)) ∅
                (hm_keys_NoDup _)) as Hl.
  destruct (load_reservations _ _ _ _ _) as [m|].
  - destruct Hl as [Hall Hm]. split.
    + intros id r Hr. rewrite Forall_forall in Hall.
      apply (Hall (id, r)). by apply elem_of_hm_iter.
    + intros id. rewrite Hm, list_to_map_hm_iter, lookup_empty.
      by destruct (dto_reservations room !! id).
  - destruct Hl as (id & r & Hin & Hbad). exists id, r. split; [|done].
    by apply elem_of_hm_iter.
Qed.

(** ** What is restored *)

(** One room of a file in which no other room has its id. *)
Definition load_room (now : SystemTime) (inow : Instant) (room : RoomDto)
    : option RestoredRoom :=
  match load_header now room with
  | None => None
  | Some host_verifier =>
    (fun reservations =>
      {| rst_session_id := dto_session_id room;
         rst_host_peer_id := dto_host_peer_id room;
         rst_host_verifier := host_verifier;
         rst_reservations := reservations;
         rst_created_at := time_of_millis (dto_created_at_millis room);
         rst_last_activity_at := time_of_millis (dto_last_activity_at_millis room) |})
    <$> load_reservations now inow room (hm_iter (dto_reservations room)) ∅
  end.

Definition restored_ok (now : SystemTime) (r : RestoredRoom) : Prop :=
  valid_session_and_peer_id (rst_session_id r) (rst_host_peer_id r) = true
  /\ verifier_wf (rst_host_verifier r)
  /\ (since now (rst_created_at r) <= ROOM_MAX_AGE)%Z
  /\ (since now (rst_last_activity_at r) <= EMPTY_ROOM_MAX_AGE)%Z
  /\ rst_reservations r !! rst_host_peer_id r = None
  /\ forall id v t, rst_reservations r !! id = Some (v, t) ->
       valid_session_and_peer_id (rst_session_id r) id = true /\ verifier_wf v.

Lemma load_room_ok now inow room r :
  load_room now inow room = Some r ->
  rst_session_id r = dto_session_id room /\ restored_ok now r.
Proof.
  unfold load_room. destruct (load_header now room) as [v|] eqn:Hh; [|done].
  pose proof (load_reservations_spec now inow room) as Hl.
  destruct (load_reservations _ _ _ _ _) as [m|]; [|done]. intros [= <-].
  apply load_header_Some in Hh as (Hids & Hv & Hage & Hidle).
  destruct Hl as [Hall Hm]. split; [done|]. split_and!; simpl; [done| |done|done| |].
  - by eapply from_encoded_wf.
  - rewrite Hm. destruct (dto_reservations room !! dto_host_peer_id room) as [r|] eqn:Hr; [|done].
    by destruct (Hall _ _ Hr) as (_ & ? & _).
  - intros id v' t Hid. rewrite Hm in Hid.
    destruct (dto_reservations room !! id) as [r|] eqn:Hr; [|done]. simpl in Hid.
    destruct (Hall _ _ Hr) as (? & _ & _). unfold load_reservation in Hid.
    destruct (from_encoded (rd_verifier r)) eqn:He; [|done]. injection Hid as <- <-.
    split; [done|]. by eapply from_encoded_wf.
Qed.

(** What the loop keeps is a sublist of what each room alone would give. *)
Lemma load_rooms_sublist now inow rooms seen :
  load_rooms now inow rooms seen `sublist_of` omap (load_room now inow) rooms
  /\ NoDup (rst_session_id <$> load_rooms now inow rooms seen)
  /\ forall r, r ∈ load_rooms now inow rooms seen -> rst_session_id r ∉ seen.
Proof.
  revert seen. induction rooms as [|room rooms IH]; intros seen; cbn [load_rooms omap list_omap].
  { split_and!; [done|constructor|]. intros r Hr. by apply not_elem_of_nil in Hr. }
  unfold load_room at 1. destruct (load_header now room) as [v|]; [|apply IH].
  case_bool_decide as Hseen.
  { destruct (IH seen) as (Hsub & ? & ?). split_and!; [|done..].
    destruct (load_reservations _ _ _ _ _); simpl; [by constructor|done]. }
  destruct (IH ({[dto_session_id room]} ∪ seen)) as (Hsub & Hnd & Hfresh).
  destruct (load_reservations _ _ _ _ _) as [m|]; simpl.
  - split_and!; [by constructor| |].
    + constructor; [|done]. intros [r [Heq Hin]]%list_elem_of_fmap.
      apply Hfresh in Hin. simpl in Heq. set_solver.
    + intros r [->|Hin]%elem_of_cons; [done|]. apply Hfresh in Hin. set_solver.
  - split_and!; [done..|]. intros r Hin. apply Hfresh in Hin. set_solver.
Qed.

Lemma load_rooms_distinct now inow rooms seen :
  NoDup (dto_session_id <$> rooms) ->
  (forall room, room ∈ rooms -> dto_session_id room ∉ seen) ->
  load_rooms now inow rooms seen = omap (load_room now inow) rooms.
Proof.
  revert seen. induction rooms as [|room rooms IH]; intros seen Hnd Hseen; [done|].
  cbn [fmap list_fmap] in Hnd. apply NoDup_cons in Hnd as [Hnew Hnd].
  cbn [load_rooms omap list_omap]. unfold load_room at 1.
  assert (Hrest : forall room', room' ∈ rooms ->
            dto_session_id room' ∉ ({[dto_session_id room]} ∪ seen : gset string)).
  { intros room' Hin. pose proof (Hseen room' ltac:(by right)).
    enough (dto_session_id room' <> dto_session_id room) by set_solver.
    intros Heq. apply Hnew. rewrite <- Heq. by apply list_elem_of_fmap_2. }
  assert (Hrest' : forall room', room' ∈ rooms -> dto_session_id room' ∉ seen) by set_solver.
  destruct (load_header now room) as [v|]; [|by apply IH].
  rewrite bool_decide_eq_false_2 by (apply Hseen; left).
  destruct (load_reservations _ _ _ _ _); simpl; [f_equal|]; by apply IH.
Qed.

(** C28: what a restart restores.  Whatever the file holds, the restored rooms
    have different ids, valid host and guest ids, whole verifiers, no guest
    reservation for the host, and are neither older than 24 hours nor idle for
    more than 5 minutes.  A file that cannot be read, decoded or has another
    version restores nothing; one whose room ids are distinct restores exactly
    the rooms that pass the checks, in order. *)
Theorem load_snapshot_spec file now inow :
  let rooms := load_snapshot file now inow in
  NoDup (rst_session_id <$> rooms)
  /\ Forall (restored_ok now) rooms
  /\ match file ≫= from_slice with
     | Some dto =>
       if (dto_version dto =? SNAPSHOT_FORMAT_VERSION)%N
       then NoDup (dto_session_id <$> dto_rooms dto) ->
            rooms = omap (load_room now inow) (dto_rooms dto)
       else rooms = []
     | None => rooms = []
     end.
Proof.
  unfold load_snapshot. destruct file as [bytes|]; simpl; [|by (split_and!; constructor)].
  destruct (from_slice bytes) as [dto|]; [|by (split_and!; constructor)].
  destruct (_ =? _)%N; simpl; [|by (split_and!; constructor)].
  destruct (load_rooms_sublist now inow (dto_rooms dto) ∅) as (Hsub & Hnd & _).
  split_and!; [done| |].
  - apply Forall_forall. intros r Hr. pose proof (elem_of_sublist _ _ _ Hr Hsub) as Hin.
    apply list_elem_of_omap in Hin as (room & _ & Hroom). by apply load_room_ok in Hroom as [_ ?].
  - intros Hd. apply load_rooms_distinct; [done|]. set_solver.
Qed.

(** ** Save and restore *)

Definition representable (t : SystemTime) : Prop :=
  (0 <= t /\ t / 1000000 < Z.of_N u64_modulus)%Z.

(** The wall clock as the file keeps it: whole milliseconds. *)
Definition whole_millis (t : SystemTime) : SystemTime := (t - t mod 1000000)%Z.

Lemma time_of_to_millis t : representable t -> time_of_millis (to_millis t) = whole_millis t.
Proof.
  intros [Hpos Hlt]. unfold time_of_millis, to_millis, from_millis, whole_millis, since.
  rewrite Z.sub_0_r, Z.max_r by lia.
  assert (0 <= t / 1000000)%Z by (apply Z.div_pos; lia).
  rewrite wrap64_small by (apply N2Z.inj_lt; rewrite Z2N.id; lia).
  rewrite Z2N.id by done. pose proof (Z.div_mod t 1000000). lia.
Qed.

Lemma whole_millis_bounds t : (whole_millis t <= t < whole_millis t + from_millis 1)%Z.
Proof.
  unfold whole_millis, from_millis. pose proof (Z.mod_pos_bound t 1000000). lia.
Qed.

(** A room whose data came through the admission checks. *)
Definition savable (st : RoomState) : Prop :=
  valid_session_and_peer_id (session_id st) (host_peer_id st) = true
  /\ verifier_wf (host_verifier st)
  /\ reservations st !! host_peer_id st = None
  /\ forall id r, reservations st !! id = Some r ->
       valid_session_and_peer_id (session_id st) id = true /\ verifier_wf (pr_verifier r).

(** The capture at [(now, inow)] is still fresh at the restart, which reads
    the clocks as [(now', inow')], and the clocks can represent its times. *)
Definition fresh_at (now now' : SystemTime) (inow inow' : Instant) (st : RoomState) : Prop :=
  representable now /\ representable (created_at st) /\ representable (last_activity_at st)
  /\ (now <= now')%Z
  /\ (now' + from_millis 1 <= created_at st + ROOM_MAX_AGE)%Z
  /\ (now' + from_millis 1 <= last_activity_at st + EMPTY_ROOM_MAX_AGE)%Z
  /\ forall id r a, reservations st !! id = Some r -> pr_absent_since r = Some a ->
       (a <= inow /\ inow - a <= now
        /\ min_instant <= inow' - (now' - now) - (inow - a) - from_millis 1)%Z.

(** The grace clock of a reservation at the restart: it has run on by the time
    the restart took, up to the millisecond of the file. *)
Definition clock_kept (elapsed : Duration) (inow inow' : Instant) (before after : option Instant)
    : Prop :=
  match before, after with
  | None, None => True
  | Some a, Some a' =>
    (elapsed + (inow - a) <= inow' - a' < elapsed + (inow - a) + from_millis 1)%Z
  | _, _ => False
  end.

Definition restored_from (now now' : SystemTime) (inow inow' : Instant) (st : RoomState)
    (r : RestoredRoom) : Prop :=
  rst_session_id r = session_id st
  /\ rst_host_peer_id r = host_peer_id st
  /\ rst_host_verifier r = host_verifier st
  /\ rst_created_at r = whole_millis (created_at st)
  /\ rst_last_activity_at r = whole_millis (last_activity_at st)
  /\ forall id,
       match reservations st !! id with
       | Some res =>
         if pr_release_pending res then rst_reservations r !! id = None
         else exists t, rst_reservations r !! id = Some (pr_verifier res, t)
              /\ clock_kept (now' - now) inow inow' (pr_absent_since res) t
       | None => rst_reservations r !! id = None
       end.

Context `{!CryptoLaws _}.

Lemma load_build_reservation now now' inow inow' st id r :
  savable st -> fresh_at now now' inow inow' st -> reservations st !! id = Some r ->
  exists t, load_reservation now' inow' (build_reservation now inow r) = Some (pr_verifier r, t)
    /\ clock_kept (now' - now) inow inow' (pr_absent_since r) t.
Proof.
  intros (_ & _ & _ & Hres) (Hnow & _ & _ & Hle & _ & _ & Habs) Hr.
  destruct (Hres id r Hr) as [_ Hwf]. unfold load_reservation. cbn [build_reservation rd_verifier rd_absent_since_millis].
  rewrite from_encoded_encode by done. simpl. eexists. split; [done|].
  destruct (pr_absent_since r) as [a|] eqn:Ha; simpl; [|done].
  destruct (Habs id r a Hr Ha) as (Hale & Hage & Hmin).
  assert (Hrep : representable (now - since inow a)).
  { destruct Hnow as [? Hlt]. unfold since. split; [lia|].
    eapply Z.le_lt_trans; [|exact Hlt]. apply Z.div_le_mono; lia. }
  rewrite time_of_to_millis by done.
  pose proof (whole_millis_bounds (now - since inow a)) as Hms. unfold since in Hms |- *.
  set (m := whole_millis _) in *. clearbody m. unfold checked_sub.
  destruct (Z.leb_spec min_instant (inow' - Z.max 0 (now' - m))); simpl; lia.
Qed.

Lemma load_build_room now now' inow inow' st :
  savable st -> fresh_at now now' inow inow' st ->
  exists r, load_room now' inow' (build_room_dto st now inow) = Some r
    /\ restored_from now now' inow inow' st r.
Proof.
  intros Hsav Hfresh. pose proof Hsav as (Hids & Hwf & Hhost & Hres).
  pose proof Hfresh as (Hnow & Hcre & Hact & Hle & Hage & Hidle & Habs).
  set (dto := build_room_dto st now inow).
  assert (Hheader : load_header now' dto = Some (host_verifier st)).
  { unfold load_header, dto. cbn [build_room_dto dto_session_id dto_host_peer_id
      dto_host_verifier dto_protocol_version dto_created_at_millis dto_last_activity_at_millis].
    rewrite Hids. cbn [negb].
    unfold valid_session_and_peer_id in Hids. apply andb_true_iff in Hids as [Hs Hh].
    apply valid_id_length in Hs, Hh.
    rewrite (proj2 (Nat.ltb_ge _ _) Hs), (proj2 (Nat.ltb_ge _ _) Hh). simpl.
    rewrite from_encoded_encode, !time_of_to_millis by done.
    pose proof (whole_millis_bounds (created_at st)).
    pose proof (whole_millis_bounds (last_activity_at st)). unfold since.
    rewrite (proj2 (Z.ltb_ge _ _)), (proj2 (Z.ltb_ge _ _)); [done|..];
      unfold ROOM_MAX_AGE, EMPTY_ROOM_MAX_AGE, from_secs, from_millis in *; lia. }
  unfold load_room. rewrite Hheader.
  pose proof (load_reservations_spec now' inow' dto) as Hl.
  assert (Hlook : forall id, dto_reservations dto !! id =
    match reservations st !! id with
    | Some r => if pr_release_pending r then None else Some (build_reservation now inow r)
    | None => None
    end).
  { intros id. unfold dto. cbn [build_room_dto dto_reservations].
    rewrite lookup_fmap, map_lookup_filter.
    destruct (reservations st !! id) as [r|]; simpl; [|done].
    case_guard as Hp; simpl in Hp; destruct (pr_release_pending r); done. }
  destruct (load_reservations _ _ _ _ _) as [m|].
  - destruct Hl as [_ Hm]. eexists. split; [done|].
    split_and!; simpl; [done..|by rewrite time_of_to_millis|by rewrite time_of_to_millis|].
    intros id. rewrite Hm, Hlook. destruct (reservations st !! id) as [r|] eqn:Hr; [|done].
    destruct (pr_release_pending r); [done|]. simpl. by eapply load_build_reservation.
  - exfalso. destruct Hl as (id & r & Hr & Hbad). rewrite Hlook in Hr.
    destruct (reservations st !! id) as [res|] eqn:Hres'; [|done].
    destruct (pr_release_pending res); [done|]. injection Hr as <-.
    destruct (Hres id res Hres') as [Hid Hv]. apply Hbad. split_and!; [done| |].
    + intros ->. simpl in Hres'. congruence.
    + simpl. by rewrite from_encoded_encode.
Qed.

Lemma load_written now now' inow inow' bytes (sts : list RoomState) :
  from_slice bytes = Some (new_snapshot_dto ((fun st => build_room_dto st now inow) <$> sts)) ->
  NoDup (session_id <$> sts) -> Forall savable sts ->
  Forall (fresh_at now now' inow inow') sts ->
  Forall2 (restored_from now now' inow inow') sts (load_snapshot (Some bytes) now' inow').
Proof.
  intros Hfile Hdistinct Hsavable Hfresh.
  unfold load_snapshot. rewrite Hfile. cbn [new_snapshot_dto dto_version dto_rooms negb N.eqb].
  rewrite N.eqb_refl. cbn [negb]. rewrite load_rooms_distinct; [|by rewrite <- list_fmap_compose|set_solver].
  clear Hfile Hdistinct. induction Hsavable as [|st sts Hs _ IH]; [constructor|].
  apply Forall_cons in Hfresh as [Hf Hfresh].
  destruct (load_build_room now now' inow inow' st Hs Hf) as (r & Hr & Hfrom).
  cbn [fmap list_fmap omap list_omap]. rewrite Hr. constructor; [done|by apply IH].
Qed.

(** C15: a restart keeps the rooms.  Reading back the file written from a set
    of rooms with different ids, soon enough for them to be fresh, restores
    each of them with its host, its verifiers and its guests, except a guest
    whose release was waiting for that very write.  Times are kept to the
    millisecond: a disconnected guest's grace clock has run on by the time the
    restart took, less than a millisecond more. *)
Theorem snapshot_roundtrip now now' inow inow' bytes (sts : list RoomState)
    (Hfile : from_slice bytes =
             Some (new_snapshot_dto ((fun st => build_room_dto st now inow) <$> sts)))
    (Hdistinct : NoDup (session_id <$> sts))
    (Hsavable : Forall savable sts)
    (Hfresh : Forall (fresh_at now now' inow inow') sts) :
  Forall2 (restored_from now now' inow inow') sts (load_snapshot (Some bytes) now' inow').
Proof.
  by apply load_written.
Qed.
End snapshot.
