(* ===== verification/Writer.v ===== *)
(** * The snapshot writer: [snapshot.rs]'s [run] and [persist_atomic]

    The writer handles one event at a time: a command from its channel, the
    end of the debounce timer, or the channel's end.  An event carries the
    outcome the write would have if the event leads to one: the snapshot that
    was captured and written, or the error.  A waiter is the number of the
    oneshot channel it waits on. *)
From S2P Require Import Prelude.
From S2P Require Import Protocol.
From S2P Require Import Ids.
From S2P Require Import Room.
From S2P Require Import Snapshot.

Inductive Command :=
| CmdMutate
| CmdTerminal (reply : nat)
| CmdFlushAndStop (reply : nat).

Section writer.
(** What a write puts into the file. *)
Context {Capture : Type}.

Inductive writer_event :=
| EvRecv (cmd : Command) (outcome : result Capture SnapshotError)
| EvChannelClosed
| EvDebounce (outcome : result Capture SnapshotError).

Record Writer := {
  wr_dirty_seq : N;
  wr_durable_seq : N;
  wr_waiters : list (N * nat);
  wr_file : option Capture;
  wr_stopped : bool;
}.

Definition new_writer (file : option Capture) : Writer :=
  {| wr_dirty_seq := 0; wr_durable_seq := 0; wr_waiters := []; wr_file := file;
     wr_stopped := false |}.

Abbreviation Reply := (nat * result unit SnapshotError)%type.

(** What a caller learns of a write. *)
Definition status (outcome : result Capture SnapshotError) : result unit SnapshotError :=
  match outcome with Ok _ => Ok tt | Err e => Err e end.

Definition resolve_waiters (waiters : list (N * nat)) (durable_seq : N)
    (res : result unit SnapshotError) : list (N * nat) * list Reply :=
  let due := fun w : N * nat => (w.1 <=? durable_seq)%N || negb (is_ok res) in
  (List.filter (fun w => negb (due w)) waiters,
   (fun w : N * nat => (w.2, res)) <$> List.filter due waiters).

(** [persist], then [durable_seq = dirty_seq] and [resolve_waiters]. *)
Definition write_now (w : Writer) (outcome : result Capture SnapshotError)
    : Writer * list Reply :=
  let durable_seq := match outcome with Ok _ => wr_dirty_seq w | Err _ => wr_durable_seq w end in
  let '(waiters, replies) := resolve_waiters (wr_waiters w) durable_seq (status outcome) in
  ({| wr_dirty_seq := wr_dirty_seq w; wr_durable_seq := durable_seq; wr_waiters := waiters;
      wr_file := match outcome with Ok c => Some c | Err _ => wr_file w end;
      wr_stopped := wr_stopped w |}, replies).

Definition bump (w : Writer) : Writer :=
  {| wr_dirty_seq := wrap64 (wr_dirty_seq w + 1); wr_durable_seq := wr_durable_seq w;
     wr_waiters := wr_waiters w; wr_file := wr_file w; wr_stopped := wr_stopped w |}.

Definition push_waiter (w : Writer) (reply : nat) : Writer :=
  {| wr_dirty_seq := wr_dirty_seq w; wr_durable_seq := wr_durable_seq w;
     wr_waiters := wr_waiters w ++ [(wr_dirty_seq w, reply)]; wr_file := wr_file w;
     wr_stopped := wr_stopped w |}.

Definition stop (w : Writer) : Writer :=
  {| wr_dirty_seq := wr_dirty_seq w; wr_durable_seq := wr_durable_seq w;
     wr_waiters := wr_waiters w; wr_file := wr_file w; wr_stopped := true |}.

Definition debounce_pending (w : Writer) : bool := (wr_durable_seq w <? wr_dirty_seq w)%N.

(** One turn of the loop; the timer's branch exists only while it is pending. *)
Definition writer_step (w : Writer) (ev : writer_event) : Writer * list Reply :=
  if wr_stopped w then (w, [])
  else
  match ev with
  | EvChannelClosed => (stop w, [])
  | EvRecv CmdMutate _ => (bump w, [])
  | EvRecv (CmdTerminal reply) outcome => write_now (push_waiter (bump w) reply) outcome
  | EvRecv (CmdFlushAndStop reply) outcome =>
    if debounce_pending w then
      let '(w, replies) := write_now w outcome in
      (stop w, replies ++ [(reply, status outcome)])
    else
      let '(waiters, replies) := resolve_waiters (wr_waiters w) (wr_durable_seq w) (Ok tt) in
      (stop {| wr_dirty_seq := wr_dirty_seq w; wr_durable_seq := wr_durable_seq w;
               wr_waiters := waiters; wr_file := wr_file w; wr_stopped := wr_stopped w |},
       replies ++ [(reply, Ok tt)])
  | EvDebounce outcome =>
    if debounce_pending w then write_now w outcome else (w, [])
  end.

(** ** What it promises

    The reference knows whether a mutation is unsaved, and the file. *)
Record SpecWriter := { sw_unsaved : bool; sw_file : option Capture; sw_stopped : bool }.

Definition spec_write (s : SpecWriter) (outcome : result Capture SnapshotError) : SpecWriter :=
  match outcome with
  | Ok c => {| sw_unsaved := false; sw_file := Some c; sw_stopped := sw_stopped s |}
  | Err _ => {| sw_unsaved := true; sw_file := sw_file s; sw_stopped := sw_stopped s |}
  end.

Definition spec_stop (s : SpecWriter) : SpecWriter :=
  {| sw_unsaved := sw_unsaved s; sw_file := sw_file s; sw_stopped := true |}.

Definition spec_writer_step (s : SpecWriter) (ev : writer_event) : SpecWriter * list Reply :=
  if sw_stopped s then (s, [])
  else
  match ev with
  | EvChannelClosed => (spec_stop s, [])
  | EvRecv CmdMutate _ =>
    ({| sw_unsaved := true; sw_file := sw_file s; sw_stopped := false |}, [])
  | EvRecv (CmdTerminal reply) outcome => (spec_write s outcome, [(reply, status outcome)])
  | EvRecv (CmdFlushAndStop reply) outcome =>
    if sw_unsaved s then (spec_stop (spec_write s outcome), [(reply, status outcome)])
    else (spec_stop s, [(reply, Ok tt)])
  | EvDebounce outcome =>
    if sw_unsaved s then (spec_write s outcome, []) else (s, [])
  end.

Fixpoint run_events {S} (step : S -> writer_event -> S * list Reply) (s : S)
    (evs : list writer_event) : S * list (list Reply) :=
  match evs with
  | [] => (s, [])
  | ev :: evs => let '(s, r) := step s ev in
                 let '(s, rs) := run_events step s evs in (s, r :: rs)
  end.

(** After [n] events, nobody waits and the counters tell what is unsaved. *)
Record tracks (n : nat) (w : Writer) (s : SpecWriter) : Prop := {
  tr_waiters : wr_waiters w = [];
  tr_unsaved : sw_unsaved s = debounce_pending w;
  tr_order : (wr_durable_seq w <= wr_dirty_seq w <= N.of_nat n)%N;
  tr_file : sw_file s = wr_file w;
  tr_stopped : sw_stopped s = wr_stopped w;
}.

Lemma tracks_step n w s ev :
  tracks n w s -> (N.of_nat (S n) < u64_modulus)%N ->
  (writer_step w ev).2 = (spec_writer_step s ev).2
  /\ tracks (S n) (writer_step w ev).1 (spec_writer_step s ev).1.
Proof.
  destruct w as [dirty durable waiters file stopped], s as [unsaved file' stopped'].
  intros [Hw Hu Ho Hf Hs] Hn. simpl in *. unfold debounce_pending in Hu. simpl in Hu. subst.
  assert (Hbump : wrap64 (dirty + 1) = (dirty + 1)%N) by (apply wrap64_small; lia).
  unfold writer_step, spec_writer_step. cbn [wr_stopped sw_stopped].
  destruct stopped; [split; [done|split; simpl; [done..|lia|done|done]]|].
  unfold write_now, push_waiter, bump, stop, spec_stop, spec_write, debounce_pending.
  cbn [wr_dirty_seq wr_durable_seq wr_waiters wr_file wr_stopped sw_unsaved sw_file sw_stopped].
  rewrite ?Hbump.
  assert (Hlt : (durable <? dirty + 1)%N = true) by (apply N.ltb_lt; lia).
  assert (Hle : (dirty + 1 <=? durable)%N = false) by (apply N.leb_gt; lia).
  destruct ev as [[|reply|reply] outcome| |outcome]; simpl.
  - split; [done|]. split; simpl; [done|by unfold debounce_pending; simpl; rewrite Hlt|lia|done|done].
  - destruct outcome as [c|e]; simpl; rewrite ?N.leb_refl, ?Hle; simpl.
    + split; [done|]. split; unfold debounce_pending; simpl;
        [done|symmetry; apply N.ltb_irrefl|lia|done|done].
    + split; [done|]. split; unfold debounce_pending; simpl; [done|by rewrite Hlt|lia|done|done].
  - destruct (durable <? dirty)%N eqn:Hp; simpl; [destruct outcome; simpl|];
      (split; [done|]); split; unfold debounce_pending; simpl;
      rewrite ?N.ltb_irrefl, ?Hp; try done; lia.
  - split; [done|]. split; unfold debounce_pending; simpl; try done; lia.
  - destruct (durable <? dirty)%N eqn:Hp; simpl; [destruct outcome; simpl|];
      (split; [done|]); split; unfold debounce_pending; simpl;
      rewrite ?N.ltb_irrefl, ?Hp; try done; lia.
Qed.

(** C16: the writer.  For fewer than 2^64 events, the writer with its sequence
    numbers and its waiting list answers exactly as the reference: a terminal
    request is answered once, in the very turn that handles it, with success
    exactly when the snapshot captured in that turn reached the file; the file
    is always the last snapshot that was written; the timer and the final
    flush write exactly when a mutation is unsaved; and nobody is left
    waiting between turns or after the stop. *)
Theorem writer_refines file evs (Hcount : (N.of_nat (length evs) < u64_modulus)%N) :
  let '(w, replies) := run_events writer_step (new_writer file) evs in
  let '(s, expected) := run_events spec_writer_step
    {| sw_unsaved := false; sw_file := file; sw_stopped := false |} evs in
  replies = expected /\ wr_file w = sw_file s /\ wr_waiters w = []
  /\ sw_unsaved s = debounce_pending w.
Proof.
  assert (Hrun : forall n w s, tracks n w s -> (N.of_nat (n + length evs) < u64_modulus)%N ->
    let '(w', replies) := run_events writer_step w evs in
    let '(s', expected) := run_events spec_writer_step s evs in
    replies = expected /\ wr_file w' = sw_file s' /\ wr_waiters w' = []
    /\ sw_unsaved s' = debounce_pending w').
  { clear Hcount. induction evs as [|ev evs IH]; intros n w s Ht Hn; cbn [run_events].
    - destruct Ht. by split_and!.
    - simpl in Hn. destruct (tracks_step n w s ev Ht) as [Hr Ht']; [lia|].
      destruct (writer_step w ev) as [w' r], (spec_writer_step s ev) as [s' r'].
      simpl in *. specialize (IH (S n) w' s' Ht' ltac:(lia)).
      destruct (run_events writer_step w' evs), (run_events spec_writer_step s' evs).
      destruct IH as (-> & ? & ? & ?). subst. done. }
  apply (Hrun 0); [|done]. by split.
Qed.
End writer.

(** ** The atomic replacement of the file *)

(** The files of the directory, by path. *)
Abbreviation Files := (gmap string (list byte)).

(** How each call of [persist_atomic] turns out: a failed [write_all] may have
    written a prefix. *)
Record IoOutcome := {
  io_create_dir : bool;
  io_create : bool;
  io_write : option nat;
  io_sync : bool;
  io_rename : bool;
}.

(** The states of the directory after each call that touches it, in order, and
    whether the function succeeded.  [tmp_path] is
    [path.with_extension("tmp")]. *)
Definition persist_atomic (io : IoOutcome) (path tmp_path : string) (data : list byte)
    (fs : Files) : list Files * bool :=
  if negb (io_create_dir io) then ([fs], false)
  else if negb (io_create io) then ([fs], false)
  else
  let created := <[tmp_path := []]> fs in
  match io_write io with
  | Some n => ([fs; created; <[tmp_path := take n data]> fs], false)
  | None =>
    let written := <[tmp_path := data]> fs in
    if negb (io_sync io) then ([fs; created; written], false)
    else if negb (io_rename io) then ([fs; created; written], false)
    else ([fs; created; written; <[path := data]> (delete tmp_path written)], true)
  end.

(** The file is replaced atomically.  At every point between the calls of
    [persist_atomic], where the process may die, the state file holds either
    what it held before or the whole new snapshot; it holds the new snapshot at
    the end exactly when success is reported, and what it held before
    otherwise; no other file beside the temporary one is touched. *)
Lemma persist_atomic_states io path tmp_path data fs (Htmp : tmp_path <> path) :
  let '(states, success) := persist_atomic io path tmp_path data fs in
  Forall (fun fs' => fs' !! path = fs !! path \/ fs' !! path = Some data) states
  /\ Forall (fun fs' => forall p, p <> path -> p <> tmp_path -> fs' !! p = fs !! p) states
  /\ exists fs', last states = Some fs'
       /\ fs' !! path = if success : bool then Some data else fs !! path.
Proof.
  assert (Hkeep : forall d, <[tmp_path := d]> fs !! path = fs !! path)
    by (intros; by rewrite lookup_insert_ne).
  assert (Hothers : forall d p, p <> path -> p <> tmp_path ->
    <[tmp_path := d]> fs !! p = fs !! p) by (intros; by rewrite lookup_insert_ne).
  assert (Hnew : forall p, p <> path -> p <> tmp_path ->
    <[path := data]> (delete tmp_path (<[tmp_path := data]> fs)) !! p = fs !! p).
  { intros. rewrite lookup_insert_ne, lookup_delete_ne by done. by apply Hothers. }
  unfold persist_atomic. destruct io as [[] [] [n|] [] []]; simpl;
    rewrite ?Forall_cons, ?Forall_nil, ?Hkeep, ?lookup_insert_eq; split_and!; auto;
    eexists; (split; [done|]); by rewrite ?Hkeep, ?lookup_insert_eq.
Qed.
