(* ===== verification/Persist.v ===== *)
(** * Writing the state file and starting from it again: [snapshot.rs]'s [persist]

    The serialization of the captured rooms, the atomic replacement of the
    file, and what a restart at any point between finds. *)
From S2P Require Import Prelude.
From S2P Require Import Protocol.
From S2P Require Import Ids.
From S2P Require Import Room.
From S2P Require Import Snapshot.
From S2P Require Import Writer.

(** What serde promises of the two halves of the codec. *)
Class SnapshotLaws (L : SnapshotLib) := {
  from_slice_to_vec : forall dto bytes, to_vec dto = Some bytes -> from_slice bytes = Some dto;
}.

Section persist.
Context `{HashIter} `{CryptoLib} `{SnapshotLib}.

(** [registry.build_snapshot()] has given [rooms]; [io] is the fate of the
    calls to the file system, and the first result is the states of the
    directory between them. *)
Definition persist (io : IoOutcome) (path tmp_path : string) (rooms : list RoomDto) (fs : Files)
    : list Files * result unit SnapshotError :=
  match to_vec (new_snapshot_dto rooms) with
  | None => ([fs], Err (mk_SnapshotError "serialization failed"))
  | Some data =>
    let '(states, success) := persist_atomic io path tmp_path data fs in
    (states, if success : bool then Ok tt else Err (mk_SnapshotError "I/O error"))
  end.

Context `{!CryptoLaws _} `{!SnapshotLaws _}.

(** The rooms a server started on the file finds. *)
Abbreviation rooms_at now inow path fs := (load_snapshot ((fs : Files) !! path) now inow).

(** C20: the server can be killed at any point of a write.  Let [sts] be the
    rooms that are captured.  A restart from any state of the directory
    between two calls of [persist] finds either exactly what a restart before
    the write would have found, or every one of [sts], with its host,
    verifiers, guests and grace clocks; after the last call it finds [sts] if
    [persist] returned [Ok], and what was there before if it returned an
    error. *)
Theorem persist_restart io path tmp_path sts now inow now' inow' fs
    (Htmp : tmp_path <> path)
    (Hdistinct : NoDup (session_id <$> sts)) (Hsavable : Forall savable sts)
    (Hfresh : Forall (fresh_at now now' inow inow') sts) :
  let '(states, res) :=
    persist io path tmp_path ((fun st => build_room_dto st now inow) <$> sts) fs in
  let kept fs' := rooms_at now' inow' path fs' = rooms_at now' inow' path fs in
  let replaced fs' := Forall2 (restored_from now now' inow inow') sts
                        (rooms_at now' inow' path fs') in
  Forall (fun fs' => kept fs' \/ replaced fs') states
  /\ exists fs', last states = Some fs' /\ if is_ok res then replaced fs' else kept fs'.
Proof.
  unfold persist. destruct (to_vec _) as [data|] eqn:Hdata.
  2: { split; [constructor; [by left|constructor]|]. by exists fs. }
  apply from_slice_to_vec in Hdata.
  pose proof (persist_atomic_states io path tmp_path data fs Htmp) as Hio.
  destruct (persist_atomic io path tmp_path data fs) as [states success].
  destruct Hio as (Hall & _ & fs' & Hlast & Hpath).
  assert (Hnew : forall fs', fs' !! path = Some data ->
            Forall2 (restored_from now now' inow inow') sts (rooms_at now' inow' path fs')).
  { intros f ->. by apply load_written. }
  split.
  - eapply Forall_impl; [exact Hall|]. intros f [Hf|Hf]; [left|right; by apply Hnew].
    simpl. by rewrite Hf.
  - exists fs'. split; [done|]. destruct success; simpl; [by apply Hnew|by rewrite Hpath].
Qed.
End persist.
