(* ===== verification/Debounce.v ===== *)
(** * The writer's timer: when an announced mutation reaches the file

    [Writer] says what a turn of [snapshot.rs]'s [run] does and [Mailbox] what
    its callers may conclude; here the turns have a time.  The timer is made
    anew in each iteration of the loop, so it measures the time since the last
    turn and not since the first unsaved mutation.  Time is ideal: a turn
    starts as soon as its branch is ready, and only writes take time. *)
From S2P Require Import Prelude.
From S2P Require Import Protocol.
From S2P Require Import Snapshot.
From S2P Require Import Writer.

Section debounce.
Context {Capture : Type}.

(** What the outside decides for a turn: what a write in it would come to and
    how long it would take, and which branch [select!] takes if the timer ends
    at the very moment a command is ready. *)
Record Fate := {
  ft_outcome : result Capture SnapshotError;
  ft_took : Duration;
  ft_timer_first : bool;
}.

(** The loop between two turns: the clock, the commands to come with the
    moments they are sent, the writer's variables. *)
Record Timed := {
  td_now : Instant;
  td_queue : list (Instant * Command);
  td_writer : @Writer Capture;
}.

(** Whether [sleep(DEBOUNCE)] ends before [recv] has a command. *)
Definition timer_wins (tw : Timed) (timer_first : bool) : bool :=
  let deadline := (td_now tw + DEBOUNCE)%Z in
  debounce_pending (td_writer tw) &&
  match td_queue tw with
  | [] => true
  | (at_, _) :: _ =>
    let ready := Z.max (td_now tw) at_ in
    (deadline <? ready)%Z || ((deadline =? ready)%Z && timer_first)
  end.

(** The branch that [select!] takes, the moment, and the commands left; nothing
    when there is nothing to wait for. *)
Definition next_event (tw : Timed) (ft : Fate)
    : option (Instant * list (Instant * Command) * @writer_event Capture) :=
  if timer_wins tw (ft_timer_first ft)
  then Some ((td_now tw + DEBOUNCE)%Z, td_queue tw, EvDebounce (ft_outcome ft))
  else match td_queue tw with
       | [] => None
       | (at_, cmd) :: queue => Some (Z.max (td_now tw) at_, queue, EvRecv cmd (ft_outcome ft))
       end.

(** Whether the turn calls [persist]. *)
Definition event_writes (w : @Writer Capture) (ev : @writer_event Capture) : bool :=
  match ev with
  | EvRecv CmdMutate _ | EvChannelClosed => false
  | EvRecv (CmdTerminal _) _ => true
  | EvRecv (CmdFlushAndStop _) _ | EvDebounce _ => debounce_pending w
  end.

Definition timed_turn (tw : Timed) (ft : Fate) : Timed :=
  if wr_stopped (td_writer tw) then tw
  else
  match next_event tw ft with
  | None => tw
  | Some (now, queue, ev) =>
    {| td_now := (now + if event_writes (td_writer tw) ev then ft_took ft else 0)%Z;
       td_queue := queue; td_writer := (writer_step (td_writer tw) ev).1 |}
  end.

Definition timed_run : Timed -> list Fate -> Timed := foldl timed_turn.

(** Mutations announced at these moments never leave the timer the time to end
    before the next: the first is bound by it only if one is running. *)
Fixpoint close_together (running : bool) (now : Instant) (burst : list Instant) : bool :=
  match burst with
  | [] => true
  | at_ :: burst =>
    (now <=? at_)%Z && (negb running || (at_ <? now + DEBOUNCE)%Z)
    && close_together true at_ burst
  end.

Definition mutations (burst : list Instant) : list (Instant * Command) :=
  (fun at_ => (at_, CmdMutate)) <$> burst.

(** The time that so many failed writes take, with the timer before each. *)
Definition attempts (tries : list Fate) : Duration :=
  foldr (fun ft d => DEBOUNCE + ft_took ft + d)%Z 0%Z tries.

(** The next command comes after [t]. *)
Definition quiet_until (t : Instant) (queue : list (Instant * Command)) : Prop :=
  match queue with [] => True | (at_, _) :: _ => (t < at_)%Z end.

(** The sequence numbers make sense, and [n] more do not overflow. *)
Record running (n : nat) (w : @Writer Capture) : Prop := {
  ru_running : wr_stopped w = false;
  ru_order : (wr_durable_seq w <= wr_dirty_seq w)%N;
  ru_small : (wr_dirty_seq w + N.of_nat n < u64_modulus)%N;
}.

(** ** Turns *)

Lemma mutate_turn now at_ queue w ft n :
  running (S n) w -> (now <= at_)%Z ->
  (debounce_pending w = true -> at_ < now + DEBOUNCE)%Z ->
  timed_turn {| td_now := now; td_queue := (at_, CmdMutate) :: queue; td_writer := w |} ft
  = {| td_now := at_; td_queue := queue; td_writer := bump w |}
  /\ running n (bump w) /\ debounce_pending (bump w) = true.
Proof.
  intros [Hrun Hord Hsmall] Hat Hgap.
  assert (Hwrap : wr_dirty_seq (bump w) = (wr_dirty_seq w + 1)%N) by (apply wrap64_small; lia).
  assert (Hdur : wr_durable_seq (bump w) = wr_durable_seq w) by done.
  split_and!.
  - unfold timed_turn, next_event, timer_wins. cbn [td_now td_queue td_writer]. rewrite Hrun.
    assert (Hmax : Z.max now at_ = at_) by lia. rewrite Hmax.
    replace (debounce_pending w && _) with false.
    + simpl. unfold writer_step. rewrite Hrun, Z.add_0_r. done.
    + destruct (debounce_pending w); [|done]. specialize (Hgap eq_refl). simpl. symmetry.
      apply orb_false_intro; [apply Z.ltb_ge; lia|].
      apply andb_false_intro1, Z.eqb_neq. lia.
  - split; [done| |]; rewrite Hwrap, ?Hdur; lia.
  - unfold debounce_pending. rewrite Hwrap, Hdur. apply N.ltb_lt. lia.
Qed.

Lemma last_from {A} (a : A) l d : List.last (a :: l) d = List.last l a.
Proof. revert a d. induction l as [|b l IH]; intros a d; [done|]. transitivity (List.last l b); [|symmetry]; apply (IH b). Qed.

Lemma burst_turns burst : forall now rest w fates,
  running (length burst) w -> close_together (debounce_pending w) now burst = true ->
  length fates = length burst ->
  let tw := timed_run {| td_now := now; td_queue := mutations burst ++ rest; td_writer := w |} fates in
  td_now tw = List.last burst now /\ td_queue tw = rest /\ wr_file (td_writer tw) = wr_file w
  /\ running 0 (td_writer tw)
  /\ (debounce_pending w = true \/ burst <> [] -> debounce_pending (td_writer tw) = true).
Proof.
  induction burst as [|at_ burst IH]; intros now rest w [|ft fates] Hrun Hgaps Hlen; try done.
  { split_and!; [done..|]. intros [?|?]; done. }
  cbn [close_together] in Hgaps. apply andb_true_iff in Hgaps as [Hgaps Hrest].
  apply andb_true_iff in Hgaps as [Hnow Hgap]. apply Z.leb_le in Hnow.
  destruct (mutate_turn now at_ (mutations burst ++ rest) w ft (length burst))
    as (Hturn & Hrun' & Hpend); [done..| |].
  { intros Hp. rewrite Hp in Hgap. by apply Z.ltb_lt in Hgap. }
  assert (Hfirst : timed_run {| td_now := now; td_queue := mutations (at_ :: burst) ++ rest;
                                td_writer := w |} (ft :: fates)
    = timed_run {| td_now := at_; td_queue := mutations burst ++ rest; td_writer := bump w |} fates)
    by (rewrite <- Hturn; done).
  cbv zeta. rewrite Hfirst.
  injection Hlen as Hlen.
  rewrite <- Hpend in Hrest at 1.
  destruct (IH at_ rest (bump w) fates Hrun' Hrest Hlen) as (Hn & Hq & Hf & Hr & Hp).
  split_and!; [|done..|].
  - by rewrite last_from.
  - intros _. apply Hp. by left.
Qed.

Lemma timer_turn tw ft :
  wr_stopped (td_writer tw) = false -> debounce_pending (td_writer tw) = true ->
  quiet_until (td_now tw + DEBOUNCE) (td_queue tw) ->
  timed_turn tw ft
  = {| td_now := (td_now tw + DEBOUNCE + ft_took ft)%Z; td_queue := td_queue tw;
       td_writer := (write_now (td_writer tw) (ft_outcome ft)).1 |}.
Proof.
  intros Hrun Hp Hquiet. unfold timed_turn, next_event, timer_wins. rewrite Hrun, Hp.
  replace (match td_queue tw with [] => true | _ => _ end) with true.
  - cbn [andb event_writes]. unfold writer_step. by rewrite Hrun, Hp.
  - destruct (td_queue tw) as [|[at_ cmd] queue]; [done|]. simpl in Hquiet.
    symmetry. apply orb_true_intro. left. apply Z.ltb_lt. lia.
Qed.

(** A failed write changes nothing that matters; a successful one saves all. *)
Lemma write_failed n (w : @Writer Capture) outcome :
  is_ok outcome = false -> running n w ->
  let w' := (write_now w outcome).1 in
  running n w' /\ debounce_pending w' = debounce_pending w /\ wr_file w' = wr_file w.
Proof. intros Hout [? ? ?]. unfold write_now. by destruct outcome. Qed.

Lemma write_saved (w : @Writer Capture) c :
  let w' := (write_now w (Ok c)).1 in
  wr_file w' = Some c /\ debounce_pending w' = false /\ wr_stopped w' = wr_stopped w.
Proof.
  unfold write_now. destruct (resolve_waiters _ _ _). split_and!; [done| |done].
  apply N.ltb_irrefl.
Qed.

Lemma attempts_nonneg tries :
  Forall (fun ft => is_ok (ft_outcome ft) = false /\ 0 <= ft_took ft)%Z tries ->
  (0 <= attempts tries)%Z.
Proof.
  induction 1 as [|ft tries [_ Ht] _ IH]; simpl; [done|]. unfold DEBOUNCE, from_millis. lia.
Qed.

Lemma failed_turns tries : forall tw,
  Forall (fun ft => is_ok (ft_outcome ft) = false /\ 0 <= ft_took ft)%Z tries ->
  running 0 (td_writer tw) -> debounce_pending (td_writer tw) = true ->
  quiet_until (td_now tw + attempts tries) (td_queue tw) ->
  let tw' := timed_run tw tries in
  td_now tw' = (td_now tw + attempts tries)%Z /\ td_queue tw' = td_queue tw
  /\ running 0 (td_writer tw') /\ debounce_pending (td_writer tw') = true.
Proof.
  induction tries as [|ft tries IH]; intros tw Hfail Hrun Hp Hquiet.
  { split_and!; [simpl; lia|done..]. }
  apply Forall_cons in Hfail as [[Hout Htook] Hfail].
  pose proof (attempts_nonneg tries Hfail) as Hpos.
  cbn [attempts foldr] in *. fold (attempts tries) in *. cbv zeta.
  change (timed_run tw (ft :: tries)) with (timed_run (timed_turn tw ft) tries).
  rewrite (timer_turn tw ft (ru_running _ _ Hrun) Hp).
  2: { destruct (td_queue tw) as [|[at_ ?] ?]; [done|]. simpl in *. lia. }
  destruct (write_failed 0 (td_writer tw) (ft_outcome ft) Hout Hrun) as (Hrun' & Hp' & _).
  rewrite <- Hp' in Hp.
  match goal with |- context [timed_run ?next tries] =>
    destruct (IH next) as (Hn & Hq & ? & ?) end; [done..| |].
  - cbn [td_now td_queue]. destruct (td_queue tw) as [|[at_ ?] ?]; [done|]. simpl in *. lia.
  - split_and!; [etrans; [exact Hn|]; cbn [td_now]; lia|done..].
Qed.

(** Such mutations can go on for ever: one every 90 ms. *)
Lemma bursts_last n now running :
  exists burst, close_together running now burst = true /\ length burst = n
    /\ List.last burst now = (now + Z.of_nat n * from_millis 90)%Z.
Proof.
  revert now running. induction n as [|n IH]; intros now running; [exists []; simpl; split_and!; [done..|lia]|].
  set (next := (now + from_millis 90)%Z). destruct (IH next true) as (burst & Hc & Hl & Hlast).
  exists (next :: burst). rewrite last_from. split_and!; [|simpl; lia|].
  - cbn [close_together]. rewrite Hc. subst next. unfold DEBOUNCE, from_millis.
    rewrite (proj2 (Z.leb_le _ _)), (proj2 (Z.ltb_lt _ _)) by lia. by destruct running.
  - rewrite Hlast. subst next. unfold from_millis. lia.
Qed.

(** C18: a mutation reaches the file once the writer is left in peace, and only
    then.  Let mutations be announced at the moments of [burst], each less than
    [DEBOUNCE] after the turn before.  As long as they go on, however long that
    is, nothing is written.  [DEBOUNCE] after the last of them the writer
    writes; if that fails it tries again every [DEBOUNCE], and the first write
    that succeeds, unless another command comes before, leaves its capture in
    the file and nothing unsaved. *)
Theorem debounced_write (w : @Writer Capture) now burst rest fates tries ft c
    (Hrun : running (length burst) w)
    (Hunsaved : debounce_pending w = true \/ burst <> [])
    (Hburst : close_together (debounce_pending w) now burst = true)
    (Hfates : length fates = length burst)
    (Htries : Forall (fun ft => is_ok (ft_outcome ft) = false /\ 0 <= ft_took ft)%Z tries)
    (Hok : ft_outcome ft = Ok c)
    (Hquiet : quiet_until (List.last burst now + attempts tries + DEBOUNCE) rest) :
  let tw := {| td_now := now; td_queue := mutations burst ++ rest; td_writer := w |} in
  let during := timed_run tw fates in
  let after := timed_run during (tries ++ [ft]) in
  td_now during = List.last burst now /\ td_queue during = rest
  /\ wr_file (td_writer during) = wr_file w
  /\ td_now after = (List.last burst now + attempts tries + DEBOUNCE + ft_took ft)%Z
  /\ td_queue after = rest
  /\ wr_file (td_writer after) = Some c /\ debounce_pending (td_writer after) = false.
Proof.
  intros tw during after.
  destruct (burst_turns burst now rest w fates Hrun Hburst Hfates) as (Hn & Hq & Hf & Hr & Hp).
  fold tw during in Hn, Hq, Hf, Hr, Hp. specialize (Hp Hunsaved).
  destruct (failed_turns tries during Htries Hr Hp) as (Hn' & Hq' & Hr' & Hp').
  { rewrite Hn, Hq. destruct rest as [|[at_ ?] ?]; [done|]. simpl in *.
    unfold DEBOUNCE, from_millis in *. lia. }
  assert (Hafter : after = timed_turn (timed_run during tries) ft)
    by (unfold after, timed_run; by rewrite foldl_app).
  rewrite timer_turn in Hafter; [|apply Hr'|done|by rewrite Hq', Hq, Hn', Hn].
  rewrite Hok, Hn', Hn, Hq', Hq in Hafter.
  destruct (write_saved (td_writer (timed_run during tries)) c) as (Hfile & Hpend & _).
  rewrite Hafter. split_and!; done.
Qed.
End debounce.
