(* ===== verification/Mailbox.v ===== *)
(** * The writer and its callers: [snapshot.rs]'s [SnapshotHandle] and [run]

    The unbounded channel between the rooms and the writer, the turns of the
    writer's loop with the capture inside them, and what a caller that waits
    for an answer may conclude from it.  Moments are counted in steps; a
    capture carries the moment it was taken. *)
From S2P Require Import Prelude.
From S2P Require Import Protocol.
From S2P Require Import Snapshot.
From S2P Require Import Writer.

Section mailbox.
Context {Capture : Type}.

Abbreviation Stamped := (N * Capture)%type.
Abbreviation Answer := (result unit SnapshotError).

(** What the branch taken by [select!] works on. *)
Inductive Turn :=
| TurnCmd (at_ : N) (cmd : Command)
| TurnTimer.

(** The receiver's queue with the moment each command was sent, the turn in
    progress with what it has captured, and the answers on the oneshot
    channels.  For the statements only: the moment the last turn began, the
    moment after the last mutation sent, that moment as it was when each
    request was sent, and the moment after the last mutation whose turn is
    over. *)
Record Mailbox := {
  mb_queue : list (N * Command);
  mb_turn : option (Turn * option Stamped);
  mb_writer : @Writer Stamped;
  mb_answers : gmap nat Answer;
  mb_since : N;
  mb_last : N;
  mb_due : gmap nat N;
  mb_done : N;
}.

(** A writer that starts on the [file] found at startup. *)
Definition channel (file : option Capture) : Mailbox :=
  {| mb_queue := []; mb_turn := None; mb_writer := new_writer (pair 0%N <$> file);
     mb_answers := ∅; mb_since := 0; mb_last := 0; mb_due := ∅; mb_done := 0 |}.

Definition ticket (cmd : Command) : option nat :=
  match cmd with CmdMutate => None | CmdTerminal tk | CmdFlushAndStop tk => Some tk end.

(** The commands that announce a mutation. *)
Definition mutates (cmd : Command) : bool :=
  match cmd with CmdFlushAndStop _ => false | _ => true end.
Definition mutation_at (d now : N) (cmd : Command) : N := if mutates cmd then now + 1 else d.

(** [self.tx.send(cmd)]: false when the receiver is gone. *)
Definition send (now : N) (cmd : Command) (mb : Mailbox) : Mailbox * bool :=
  if wr_stopped (mb_writer mb) then (mb, false)
  else
    let last := mutation_at (mb_last mb) now cmd in
    ({| mb_queue := mb_queue mb ++ [(now, cmd)]; mb_turn := mb_turn mb;
        mb_writer := mb_writer mb; mb_answers := mb_answers mb; mb_since := mb_since mb; mb_last := last;
        mb_due := match ticket cmd with Some tk => <[tk := last]> (mb_due mb)
                                      | None => mb_due mb end;
        mb_done := mb_done mb |}, true).

(** [record_mutation] ignores the outcome of the send. *)
Definition record_mutation (now : N) (mb : Mailbox) : Mailbox := (send now CmdMutate mb).1.

(** What [record_terminal_mutation] returns to the caller of request [tk],
    [None] while it still waits.  When the writer has returned, a request that
    it has not answered fails: the send failed, or the queue was dropped. *)
Definition record_terminal_mutation (tk : nat) (mb : Mailbox) : option Answer :=
  match mb_answers mb !! tk with
  | Some res => Some res
  | None =>
    if negb (wr_stopped (mb_writer mb)) then None
    else if bool_decide (is_Some (mb_due mb !! tk))
    then Some (Err (mk_SnapshotError "snapshot writer dropped the request"))
    else Some (Err (mk_SnapshotError "snapshot writer is stopped"))
  end.

(** The same for [flush_and_stop], which gives up after [timeout]. *)
Definition flush_and_stop (timed_out : bool) (tk : nat) (mb : Mailbox) : option Answer :=
  match mb_answers mb !! tk with
  | Some res => Some res
  | None =>
    if wr_stopped (mb_writer mb) then Some (Ok tt)
    else if timed_out then Some (Err (mk_SnapshotError "snapshot flush timed out"))
    else None
  end.

Definition turn_event (t : Turn) (outcome : result Stamped SnapshotError) : writer_event :=
  match t with TurnCmd _ cmd => EvRecv cmd outcome | TurnTimer => EvDebounce outcome end.

(** [select!] took the branch of [t], and left [queue] in the channel. *)
Definition begin_turn (now : N) (t : Turn) (queue : list (N * Command)) (mb : Mailbox) : Mailbox :=
  {| mb_queue := queue; mb_turn := Some (t, None); mb_writer := mb_writer mb;
     mb_answers := mb_answers mb; mb_since := now; mb_last := mb_last mb; mb_due := mb_due mb;
     mb_done := mb_done mb |}.

(** The turn has captured [c].  A capture looks at one room after the other;
    it is no older than its turn. *)
Definition capture_done (t : Turn) (c : Capture) (mb : Mailbox) : Mailbox :=
  {| mb_queue := mb_queue mb; mb_turn := Some (t, Some (mb_since mb, c));
     mb_writer := mb_writer mb; mb_answers := mb_answers mb; mb_since := mb_since mb;
     mb_last := mb_last mb; mb_due := mb_due mb; mb_done := mb_done mb |}.

(** The end of a turn: the write has this outcome, if the turn writes. *)
Definition finish_turn (mb : Mailbox) (t : Turn) (outcome : result Stamped SnapshotError)
    : Mailbox :=
  let '(w, replies) := writer_step (mb_writer mb) (turn_event t outcome) in
  {| mb_queue := mb_queue mb; mb_turn := None; mb_writer := w;
     mb_answers := list_to_map replies ∪ mb_answers mb; mb_since := mb_since mb;
     mb_last := mb_last mb; mb_due := mb_due mb;
     mb_done := match t with TurnCmd at_ cmd => mutation_at (mb_done mb) at_ cmd
                           | TurnTimer => mb_done mb end |}.

(** One step of [run].  [captures] tells what a capture may find now. *)
Inductive run_step (captures : Capture -> Prop) (now : N) (mb : Mailbox) : Mailbox -> Prop :=
| run_recv at_ cmd queue :
    mb_turn mb = None -> wr_stopped (mb_writer mb) = false ->
    mb_queue mb = (at_, cmd) :: queue ->
    run_step captures now mb (begin_turn now (TurnCmd at_ cmd) queue mb)
| run_timer :
    mb_turn mb = None -> wr_stopped (mb_writer mb) = false ->
    debounce_pending (mb_writer mb) = true ->
    run_step captures now mb (begin_turn now TurnTimer (mb_queue mb) mb)
| run_capture t c :
    mb_turn mb = Some (t, None) -> captures c ->
    run_step captures now mb (capture_done t c mb)
| run_commit t c :
    mb_turn mb = Some (t, Some c) -> run_step captures now mb (finish_turn mb t (Ok c))
| run_no_write t c e :
    mb_turn mb = Some (t, c) -> run_step captures now mb (finish_turn mb t (Err e))
| run_closed :
    mb_turn mb = None -> mb_queue mb = [] ->
    run_step captures now mb
      {| mb_queue := []; mb_turn := None; mb_writer := (writer_step (mb_writer mb) EvChannelClosed).1;
         mb_answers := mb_answers mb; mb_since := mb_since mb; mb_last := mb_last mb;
         mb_due := mb_due mb; mb_done := mb_done mb |}.

(** ** The invariant *)

(** The commands not yet dealt with, the turn in progress first. *)
Definition pending_commands (mb : Mailbox) : list (N * Command) :=
  match mb_turn mb with
  | Some (TurnCmd at_ cmd, _) => (at_, cmd) :: mb_queue mb
  | _ => mb_queue mb
  end.

(** Along the queue: every command was sent before [now], a request is due the
    last mutation up to its place, and nothing is missing at the end. *)
Fixpoint dues_ok (now : N) (due : gmap nat N) (last : N) (d : N) (q : list (N * Command)) : Prop :=
  match q with
  | [] => d = last
  | (at_, cmd) :: q =>
    (at_ < now)%N
    /\ (forall tk, ticket cmd = Some tk -> due !! tk = Some (mutation_at d at_ cmd))
    /\ dues_ok now due last (mutation_at d at_ cmd) q
  end.

Definition stamp (file : option Stamped) : N := match file with Some (t, _) => t | None => 0 end.

Definition capture_of (mb : Mailbox) : option Stamped := mb_turn mb ≫= snd.

(** What the turn in progress will have dealt with when it ends. *)
Definition done_after (mb : Mailbox) : N :=
  match mb_turn mb with
  | Some (TurnCmd at_ cmd, _) => mutation_at (mb_done mb) at_ cmd
  | _ => mb_done mb
  end.

Record mailbox_ok (n : N) (mb : Mailbox) : Prop := {
  mo_running : is_Some (mb_turn mb) -> wr_stopped (mb_writer mb) = false;
  mo_tracks : exists s, tracks (N.to_nat n) (mb_writer mb) s
    /\ (sw_unsaved s = false -> (mb_done mb <= stamp (sw_file s))%N);
  mo_dues : dues_ok n (mb_due mb) (mb_last mb) (mb_done mb) (pending_commands mb);
  mo_done : (mb_done mb <= n)%N;
  mo_file : (stamp (wr_file (mb_writer mb)) <= n)%N;
  (** a turn in progress, and what it has captured *)
  mo_since : is_Some (mb_turn mb) ->
    (done_after mb <= mb_since mb <= n /\ stamp (wr_file (mb_writer mb)) <= mb_since mb)%N;
  mo_captured : forall t c, capture_of mb = Some (t, c) -> t = mb_since mb;
  (** an answered request *)
  mo_answered : forall tk due, mb_answers mb !! tk = Some (Ok tt) -> mb_due mb !! tk = Some due ->
    (due <= stamp (wr_file (mb_writer mb)))%N;
  mo_answers : forall tk, is_Some (mb_answers mb !! tk) -> is_Some (mb_due mb !! tk);
  (** a request that is not answered *)
  mo_waiting : forall tk, is_Some (mb_due mb !! tk) -> mb_answers mb !! tk = None ->
    wr_stopped (mb_writer mb) = true
    \/ exists at_ cmd, (at_, cmd) ∈ pending_commands mb /\ ticket cmd = Some tk;
}.

Lemma mo_capture n mb t c :
  mailbox_ok n mb -> capture_of mb = Some (t, c) ->
  (done_after mb <= t <= n /\ stamp (wr_file (mb_writer mb)) <= t)%N.
Proof.
  intros Hok Hc. rewrite (mo_captured _ _ Hok t c Hc). apply (mo_since _ _ Hok).
  unfold capture_of in Hc. destruct (mb_turn mb); [by eexists|done].
Qed.

Lemma dues_ok_later n n' due last d q :
  (n <= n')%N -> dues_ok n due last d q -> dues_ok n' due last d q.
Proof.
  intros Hn. revert d. induction q as [|[at_ cmd] q IH]; intros d; simpl; [done|].
  intros (? & ? & ?). split_and!; [lia|done|auto].
Qed.

(** A command joins the queue; its ticket, if any, is new. *)
Lemma dues_ok_send n due last d q cmd :
  dues_ok (n + 1) due last d q ->
  (forall tk, ticket cmd = Some tk -> due !! tk = None) ->
  let last' := mutation_at last n cmd in
  dues_ok (n + 1) (match ticket cmd with Some tk => <[tk := last']> due | None => due end)
    last' d (q ++ [(n, cmd)]).
Proof.
  intros Hq Hnew last'. revert d Hq.
  induction q as [|[at_ cmd'] q IH]; intros d; simpl.
  - intros ->. split_and!; [lia| |done]. intros tk Htk. rewrite Htk. by rewrite lookup_insert_eq.
  - intros (? & Hdue & ?). split_and!; [lia| |auto]. intros tk Htk.
    pose proof (Hdue tk Htk) as Hd. destruct (ticket cmd) as [tk'|] eqn:Hcmd; [|done].
    rewrite lookup_insert_ne; [done|]. intros ->. by rewrite (Hnew tk eq_refl) in Hd.
Qed.

(** ** Preservation *)

Definition turn_ticket (t : Turn) : option nat :=
  match t with TurnCmd _ cmd => ticket cmd | TurnTimer => None end.
Definition turn_mutates (t : Turn) : bool :=
  match t with TurnCmd _ cmd => mutates cmd | TurnTimer => false end.

(** What a turn of the reference writer does, whichever turn it is. *)
Lemma spec_turn (s : @SpecWriter Stamped) t outcome :
  sw_stopped s = false ->
  let '(s', replies) := spec_writer_step s (turn_event t outcome) in
  (sw_file s' = sw_file s \/ exists c, outcome = Ok c /\ sw_file s' = Some c)
  /\ (sw_unsaved s' = false ->
        (exists c, outcome = Ok c /\ sw_file s' = Some c)
        \/ (sw_unsaved s = false /\ sw_file s' = sw_file s /\ turn_mutates t = false))
  /\ exists r, replies = match turn_ticket t with Some tk => [(tk, r)] | None => [] end
       /\ (r = Ok tt -> sw_unsaved s' = false).
Proof.
  intros Hs. unfold spec_writer_step. rewrite Hs.
  destruct t as [at_ [|tk|tk]|], outcome as [c|e], (sw_unsaved s) eqn:Hu; simpl;
    rewrite ?Hu; (split_and!; [eauto|eauto|]);
    first [by exists (Ok tt)|by exists (Err e)|by exists (Err (mk_SnapshotError ""))].
Qed.

Lemma mailbox_ok_later n mb : mailbox_ok n mb -> mailbox_ok (n + 1) mb.
Proof.
  intros [Hr (s & Ht & Hu) Hd Hdone Hf Hs Hc Ha Has Hw]. split; [done| | |lia|lia| |done..].
  - exists s. split; [|done]. destruct Ht. split; [done..|lia|done|done].
  - by eapply dues_ok_later; [|exact Hd]; lia.
  - intros Ht'. specialize (Hs Ht'). lia.
Qed.

(** What is dealt with when turn [t] is over. *)
Definition done_by (mb : Mailbox) (t : Turn) : N :=
  match t with TurnCmd at_ cmd => mutation_at (mb_done mb) at_ cmd | TurnTimer => mb_done mb end.

Lemma done_after_turn mb t cap : mb_turn mb = Some (t, cap) -> done_after mb = done_by mb t.
Proof. intros Ht. unfold done_after. by rewrite Ht. Qed.

(** The answers after a turn that answers [ticket], if any. *)
Lemma answers_lookup (tk' : option nat) (r : Answer) answers tk :
  (list_to_map (match tk' with Some tk => [(tk, r)] | None => [] end) ∪ answers) !! tk
  = if bool_decide (tk' = Some tk) then Some r else (answers : gmap nat Answer) !! tk.
Proof.
  destruct tk' as [tk'|].
  2: { rewrite bool_decide_eq_false_2 by done. apply (f_equal (lookup tk)), (left_id_L ∅ (∪)). }
  case_bool_decide as Heq; simplify_eq.
  - apply lookup_union_Some_l. apply lookup_insert_eq.
  - apply lookup_union_r. etrans; [apply lookup_insert_ne; simpl; congruence|apply lookup_empty].
Qed.

(** The commands left behind by a turn, and what its own was due. *)
Lemma turn_dues n mb t cap :
  mailbox_ok n mb -> mb_turn mb = Some (t, cap) ->
  dues_ok n (mb_due mb) (mb_last mb) (done_by mb t) (mb_queue mb) /\ (done_by mb t <= n)%N
  /\ forall tk, turn_ticket t = Some tk -> mb_due mb !! tk = Some (done_by mb t).
Proof.
  intros Hok Hturn. pose proof (mo_dues _ _ Hok) as Hd. pose proof (mo_done _ _ Hok).
  unfold pending_commands in Hd. rewrite Hturn in Hd. unfold done_by.
  destruct t as [at_ cmd|]; [|by split_and!]. destruct Hd as (? & ? & ?).
  split_and!; [done| |done]. unfold mutation_at. destruct (mutates cmd); lia.
Qed.

(** The file only gets younger, and when nothing is unsaved it is younger than
    every mutation dealt with. *)
Lemma turn_file n mb t cap (outcome : result Stamped SnapshotError) s w' s' :
  mailbox_ok n mb -> mb_turn mb = Some (t, cap) -> (forall c, outcome = Ok c -> cap = Some c) ->
  tracks (N.to_nat n) (mb_writer mb) s -> tracks (S (N.to_nat n)) w' s' ->
  (sw_unsaved s = false -> (mb_done mb <= stamp (sw_file s))%N) ->
  (sw_file s' = sw_file s \/ exists c, outcome = Ok c /\ sw_file s' = Some c) ->
  (sw_unsaved s' = false ->
     (exists c, outcome = Ok c /\ sw_file s' = Some c)
     \/ (sw_unsaved s = false /\ sw_file s' = sw_file s /\ turn_mutates t = false)) ->
  (stamp (wr_file (mb_writer mb)) <= stamp (wr_file w') <= n)%N
  /\ (sw_unsaved s' = false -> (done_by mb t <= stamp (wr_file w'))%N).
Proof.
  intros Hok Hturn Hout Ht Ht' Hu Hfile Hsaved.
  pose proof (mo_file _ _ Hok) as Hf.
  assert (Hcap : forall t' c, outcome = Ok (t', c) ->
            (done_by mb t <= t' <= n /\ stamp (wr_file (mb_writer mb)) <= t')%N).
  { intros t' c Hoc. rewrite <- (done_after_turn mb t cap Hturn). apply (mo_capture _ _ t' c Hok).
    unfold capture_of. rewrite Hturn. simpl. by apply Hout. }
  rewrite <- (tr_file _ _ _ Ht'), <- (tr_file _ _ _ Ht) in *. split.
  - destruct Hfile as [->|([t' c] & Hoc & ->)]; [lia|]. specialize (Hcap _ _ Hoc). simpl. lia.
  - intros Hs'. destruct (Hsaved Hs') as [([t' c] & Hoc & ->)|(Hs & -> & Hm)].
    + specialize (Hcap _ _ Hoc). simpl. lia.
    + assert (done_by mb t = mb_done mb) as ->; [|by apply Hu].
      destruct t as [at_ cmd|]; [|done]. unfold done_by, mutation_at. simpl in Hm. by rewrite Hm.
Qed.

Lemma finish_turn_ok n mb t cap outcome :
  mb_turn mb = Some (t, cap) -> (forall c, outcome = Ok c -> cap = Some c) ->
  (n + 1 < u64_modulus)%N -> mailbox_ok n mb -> mailbox_ok (n + 1) (finish_turn mb t outcome).
Proof.
  intros Hturn Hout Hn Hok. pose proof (turn_dues n mb t cap Hok Hturn) as (Hqueue & Hdn & Hticket).
  pose proof (fun s w' s' => turn_file n mb t cap outcome s w' s' Hok Hturn Hout) as Hyoung.
  destruct Hok as [Hr (s & Ht & Hu) _ _ _ _ _ Ha Has Hw].
  assert (Hrun : sw_stopped s = false).
  { rewrite (tr_stopped _ _ _ Ht). apply Hr. rewrite Hturn. by eexists. }
  destruct (tracks_step _ _ _ (turn_event t outcome) Ht) as [Hreplies Ht']; [lia|].
  pose proof (spec_turn s t outcome Hrun) as Hspec.
  unfold finish_turn. fold (done_by mb t). destruct (writer_step _ _) as [w' replies].
  destruct (spec_writer_step _ _) as [s' replies']. cbn [fst snd] in Hreplies, Ht'. subst replies'.
  destruct Hspec as (Hfile & Hsaved & r & -> & Hok).
  destruct (Hyoung s w' s' Ht Ht' Hu Hfile Hsaved) as [Hstamp Hclean].
  split; cbn [mb_turn mb_writer mb_due mb_last mb_done mb_answers pending_commands capture_of].
  - by intros [? ?].
  - exists s'. split; [|intros Hs'; rewrite (tr_file _ _ _ Ht'); by apply Hclean].
    by replace (N.to_nat (n + 1)) with (S (N.to_nat n)) by lia.
  - eapply dues_ok_later; [|exact Hqueue]. lia.
  - lia.
  - lia.
  - by intros [? ?].
  - done.
  - intros tk due. rewrite answers_lookup. case_bool_decide as Htk.
    + intros [= ->] Hdue. rewrite (Hticket _ Htk) in Hdue. injection Hdue as <-. auto.
    + intros ? ?. etrans; [by eapply Ha|]. lia.
  - intros tk. rewrite answers_lookup. case_bool_decide as Htk; [|apply Has].
    intros _. rewrite (Hticket _ Htk). by eexists.
  - intros tk Hsent. rewrite answers_lookup. case_bool_decide as Htk; [done|]. intros Hnone.
    destruct (Hw tk Hsent Hnone) as [Hst|(at_ & cmd & Hin & Hcmd)].
    { rewrite Hr in Hst; [done|]. rewrite Hturn. by eexists. }
    right. exists at_, cmd. split; [|done]. unfold pending_commands in Hin. rewrite Hturn in Hin.
    destruct t as [at' cmd'|]; [|done]. apply elem_of_cons in Hin as [[= -> ->]|]; done.
Qed.

(** A turn begins with the first command of the queue, or with the timer. *)
Lemma begin_turn_ok n mb t queue :
  mb_turn mb = None -> wr_stopped (mb_writer mb) = false ->
  match t with TurnCmd at_ cmd => mb_queue mb = (at_, cmd) :: queue | TurnTimer => mb_queue mb = queue end ->
  mailbox_ok n mb -> mailbox_ok (n + 1) (begin_turn n t queue mb).
Proof.
  intros Ht Hrun Hq Hok. pose proof (mo_dues _ _ Hok) as Hdues. pose proof (mo_done _ _ Hok).
  pose proof (mo_file _ _ Hok).
  apply mailbox_ok_later in Hok as [Hr Htr Hd Hdone Hf _ _ Ha Has Hw].
  unfold pending_commands in Hd, Hw, Hdues. rewrite Ht in Hd, Hw, Hdues.
  assert (Hafter : (done_by mb t <= n)%N).
  { destruct t as [at_ cmd|]; [|done]. rewrite Hq in Hdues. destruct Hdues as (? & _).
    unfold done_by, mutation_at. destruct (mutates cmd); lia. }
  split; try done.
  - destruct t; rewrite Hq in Hd; exact Hd.
  - intros _. rewrite (done_after_turn (begin_turn n t queue mb) t None eq_refl). cbn [begin_turn mb_since mb_writer].
    change (done_by (begin_turn n t queue mb) t) with (done_by mb t). lia.
  - intros tk Hsent Hans. right.
    destruct t; rewrite Hq in Hw; destruct (Hw tk Hsent Hans) as [Hst|?]; [congruence|done|congruence|done].
Qed.

Lemma capture_done_ok n mb t c :
  mb_turn mb = Some (t, None) -> mailbox_ok n mb -> mailbox_ok (n + 1) (capture_done t c mb).
Proof.
  intros Ht Hok. apply mailbox_ok_later in Hok as [Hr Htr Hd Hdone Hf Hs _ Ha Has Hw].
  assert (Hrun : is_Some (mb_turn mb)) by (rewrite Ht; by eexists).
  unfold pending_commands in Hd, Hw. rewrite Ht in Hd, Hw.
  split; try done.
  - intros _. by apply Hr.
  - intros _. specialize (Hs Hrun). unfold done_after in *. by rewrite Ht in Hs.
  - by intros t' c' [= <- <-].
Qed.

Lemma run_step_ok captures n mb mb' :
  run_step captures n mb mb' -> (n + 1 < u64_modulus)%N ->
  mailbox_ok n mb -> mailbox_ok (n + 1) mb'.
Proof.
  intros Hstep Hn Hok. destruct Hstep as [at_ cmd queue Ht Hrun Hq|Ht Hrun Hp|t c Ht Hc|t c Ht|
    t c e Ht|Ht Hq].
  - by apply begin_turn_ok.
  - by apply begin_turn_ok.
  - by apply capture_done_ok.
  - apply (finish_turn_ok n mb t (Some c)); [done|by intros ? [= ->]|done..].
  - by apply (finish_turn_ok n mb t c).
  - apply mailbox_ok_later in Hok as [Hr (s & Htr & Hu) Hd Hdone Hf Hs Hc Ha Has Hw].
    unfold pending_commands in Hd, Hw. rewrite Ht, Hq in Hd, Hw.
    assert (Hfile : wr_file (writer_step (mb_writer mb) EvChannelClosed).1 = wr_file (mb_writer mb)).
    { unfold writer_step. by destruct (wr_stopped _). }
    split; cbn [mb_turn mb_writer mb_due mb_last mb_done mb_answers]; rewrite ?Hfile; try done.
    + exists (spec_stop s). destruct Htr. split; [|done].
      unfold writer_step. destruct (wr_stopped _) eqn:Hs'; by split.
    + intros tk Hs' Hn'. left. unfold writer_step. by destruct (wr_stopped _) eqn:?.
Qed.

(** A command is sent; several may be at the same moment. *)
Lemma send_ok n cmd mb :
  (forall tk, ticket cmd = Some tk -> mb_due mb !! tk = None) ->
  mailbox_ok (n + 1) mb -> mailbox_ok (n + 1) (send n cmd mb).1.
Proof.
  intros Hnew Hok. unfold send. destruct (wr_stopped _) eqn:Hs; [done|].
  pose proof (dues_ok_send _ _ _ _ _ cmd (mo_dues _ _ Hok) Hnew) as Hdues.
  assert (Hlook : forall tk, is_Some (mb_due mb !! tk) ->
    match ticket cmd with Some tk => <[tk := mutation_at (mb_last mb) n cmd]> (mb_due mb)
                        | None => mb_due mb end !! tk = mb_due mb !! tk).
  { intros tk [d Hd]. destruct (ticket cmd) as [tk'|] eqn:Ht; [|done].
    rewrite lookup_insert_ne; [done|]. intros ->. by rewrite (Hnew tk eq_refl) in Hd. }
  destruct Hok as [Hr Htr Hd Hdone Hf Hsi Hc Ha Has Hw].
  assert (Hpend : forall mb', mb_turn mb' = mb_turn mb ->
            mb_queue mb' = mb_queue mb ++ [(n, cmd)] ->
            pending_commands mb' = pending_commands mb ++ [(n, cmd)]).
  { intros mb' Ht Hq. unfold pending_commands. rewrite Ht, Hq.
    by destruct (mb_turn mb) as [[[] ?]|]. }
  split; cbn [fst mb_turn mb_writer mb_due mb_last mb_done mb_answers]; try done.
  - by rewrite Hpend.
  - intros tk due Hans. rewrite Hlook by (apply Has; by eexists). by apply Ha.
  - intros tk Hans. rewrite Hlook by auto. auto.
  - intros tk Hsent Hans. right. rewrite Hpend by done.
    destruct (decide (ticket cmd = Some tk)) as [Htk|Htk].
    + exists n, cmd. split; [|done]. apply elem_of_app. right. by apply list_elem_of_singleton.
    + destruct (Hw tk) as [Hst|(at_ & cmd' & Hin & ?)]; [|done|congruence|].
      * revert Hsent Htk. destruct (ticket cmd) as [tk'|]; [|done].
        intros Hsent Htk. rewrite lookup_insert_ne in Hsent; [done|congruence].
      * exists at_, cmd'. split; [|done]. apply elem_of_app. by left.
Qed.

(** ** What has been captured *)

(** [c], captured in a turn that began at [t], is in the file or about to be. *)
Definition captured (mb : Mailbox) (t : N) (c : Capture) : Prop :=
  wr_file (mb_writer mb) = Some (t, c) \/ capture_of mb = Some (t, c).

Lemma writer_step_file (w : @Writer Stamped) ev :
  wr_file (writer_step w ev).1 = wr_file w
  \/ exists c, wr_file (writer_step w ev).1 = Some c
       /\ match ev with EvRecv _ o | EvDebounce o => o = Ok c | EvChannelClosed => False end.
Proof.
  unfold writer_step, write_now. destruct (wr_stopped w); [by left|].
  destruct ev as [[|tk|tk] [c|e]| |[c|e]]; simpl; try (by left); try (right; by exists c);
    destruct (debounce_pending w); simpl; try (by left); right; by exists c.
Qed.

Lemma finish_turn_captured mb t cap outcome s c :
  mb_turn mb = Some (t, cap) -> (forall c, outcome = Ok c -> cap = Some c) ->
  captured (finish_turn mb t outcome) s c -> captured mb s c.
Proof.
  intros Hturn Hout. unfold captured, finish_turn, capture_of.
  pose proof (writer_step_file (mb_writer mb) (turn_event t outcome)) as Hfile.
  destruct (writer_step _ _) as [w replies]. cbn [fst mb_writer mb_turn] in *.
  intros [Hf|]; [|done]. destruct Hfile as [Heq|(c' & Heq & Hev)]; [left; congruence|].
  right. rewrite Hturn. simpl. destruct t; simpl in Hev; rewrite (Hout c' Hev); congruence.
Qed.

(** A capture is recorded only by taking it. *)
Lemma run_step_captured captures n mb mb' t c :
  run_step captures n mb mb' -> captured mb' t c ->
  captured mb t c \/ t = mb_since mb /\ captures c.
Proof.
  destruct 1 as [at_ cmd queue Ht Hrun Hq|Ht Hrun Hp|t' c' Ht Hc|t' c' Ht|t' c' e Ht|Ht Hq].
  - intros [?|?]; [by left; left|done].
  - intros [?|?]; [by left; left|done].
  - intros [?|[= <- <-]]; [by left; left|by right].
  - intros Hc. left. by apply (finish_turn_captured mb t' (Some c') (Ok c')); [|intros ? [= ->]|].
  - intros Hc. left. by apply (finish_turn_captured mb t' c' (Err e)).
  - intros [Hf|Hf]; [|done]. left; left. cbn [mb_writer] in Hf.
    by destruct (writer_step_file (mb_writer mb) EvChannelClosed) as [<-|(? & ? & [])].
Qed.

Lemma run_step_due captures n mb mb' :
  run_step captures n mb mb' -> mb_due mb' = mb_due mb.
Proof. destruct 1; try done; unfold finish_turn; by destruct (writer_step _ _). Qed.

(** The file only gets younger. *)
Lemma run_step_stamp captures n mb mb' :
  mailbox_ok n mb -> run_step captures n mb mb' ->
  (stamp (wr_file (mb_writer mb)) <= stamp (wr_file (mb_writer mb')))%N.
Proof.
  intros Hok Hstep.
  assert (Hend : forall t cap outcome, mb_turn mb = Some (t, cap) ->
    (forall c, outcome = Ok c -> cap = Some c) ->
    (stamp (wr_file (mb_writer mb)) <= stamp (wr_file (mb_writer (finish_turn mb t outcome))))%N).
  { intros t cap outcome Hturn Hout. unfold finish_turn.
    pose proof (writer_step_file (mb_writer mb) (turn_event t outcome)) as Hfile.
    destruct (writer_step _ _) as [w replies]. cbn [fst mb_writer] in *.
    destruct Hfile as [->|([t' c] & -> & Hev)]; [lia|].
    apply (mo_capture n mb t' c Hok). unfold capture_of. rewrite Hturn. simpl.
    apply Hout. by destruct t. }
  destruct Hstep as [| | |t c Ht|t c e Ht|Ht Hq]; cbn [begin_turn capture_done mb_writer]; try lia.
  - by apply (Hend t (Some c) (Ok c)); [|intros ? [= ->]].
  - by apply (Hend t c (Err e)).
  - by destruct (writer_step_file (mb_writer mb) EvChannelClosed) as [->|(? & ? & [])].
Qed.

Lemma send_captured n cmd mb t c : captured (send n cmd mb).1 t c <-> captured mb t c.
Proof. unfold send. by destruct (wr_stopped _). Qed.

Lemma captured_before n mb t c : mailbox_ok n mb -> captured mb t c -> (t <= n)%N.
Proof.
  intros Hok [Hf|Hc]; [pose proof (mo_file _ _ Hok) as Ht; by rewrite Hf in Ht|].
  by destruct (mo_capture _ _ t c Hok Hc) as [[_ ?] _].
Qed.

(** ** All executions *)

(** The mailbox after [n] steps: the callers send, with a new ticket for each
    request, and the writer runs. *)
Inductive mailbox_reach (file : option Capture) : N -> Mailbox -> Prop :=
| mailbox_start : mailbox_reach file 0 (channel file)
| mailbox_send n mb cmd :
    mailbox_reach file n mb ->
    (forall tk, ticket cmd = Some tk -> mb_due mb !! tk = None) ->
    mailbox_reach file (n + 1) (send n cmd mb).1
| mailbox_run n mb mb' :
    mailbox_reach file n mb -> run_step (fun _ => True) n mb mb' ->
    mailbox_reach file (n + 1) mb'.

Lemma channel_ok file : mailbox_ok 0 (channel file).
Proof.
  split; simpl; try done.
  - exists {| sw_unsaved := false; sw_file := pair 0%N <$> file; sw_stopped := false |}.
    split; [by split|]. intros _. simpl. lia.
  - by destruct file.
  - intros tk [? Hans]. by rewrite lookup_empty in Hans.
  - intros tk [? Hs]. by rewrite lookup_empty in Hs.
Qed.

Lemma mailbox_reach_ok file n mb :
  mailbox_reach file n mb -> (n < u64_modulus)%N -> mailbox_ok n mb.
Proof.
  induction 1 as [|n mb cmd _ IH Hnew|n mb mb' _ IH Hstep]; intros Hn.
  - apply channel_ok.
  - apply send_ok; [done|]. apply mailbox_ok_later, IH. lia.
  - eapply run_step_ok; [exact Hstep|done|]. apply IH. lia.
Qed.

(** C17: an answer means what it says.  Whatever is sent to the writer and
    however its turns fall, a caller that asked for a durable write and is told
    [Ok] can rely on it: the file holds a capture taken after the last mutation
    sent up to the request, the request's own included, and still does later
    on.  It is told an error only if the writer answered with that error, or
    has returned without an answer; and as long as it is told nothing, its
    request is in the queue or in the turn in progress.  The final flush differs
    in one point, as it does in the code: a flush that the writer never answered
    is [Ok] once the writer has returned, and then says nothing of the file. *)
Theorem answer_means_durable file n mb tk due
    (Hreach : mailbox_reach file n mb) (Hn : (n < u64_modulus)%N)
    (Hsent : mb_due mb !! tk = Some due) :
  let answered_ok :=
    mb_answers mb !! tk = Some (Ok tt) /\ (due <= stamp (wr_file (mb_writer mb)))%N in
  let never_answered := mb_answers mb !! tk = None /\ wr_stopped (mb_writer mb) = true in
  let waiting := wr_stopped (mb_writer mb) = false
    /\ exists at_ cmd, (at_, cmd) ∈ pending_commands mb /\ ticket cmd = Some tk in
  match record_terminal_mutation tk mb with
  | Some (Ok _) => answered_ok
  | Some (Err e) => mb_answers mb !! tk = Some (Err e) \/ never_answered
  | None => waiting
  end
  /\ match flush_and_stop false tk mb with
     | Some (Ok _) => answered_ok \/ never_answered
     | Some (Err e) => mb_answers mb !! tk = Some (Err e)
     | None => waiting
     end.
Proof.
  destruct (mailbox_reach_ok _ _ _ Hreach Hn) as [_ _ _ _ _ _ _ Ha _ Hw]. cbv zeta.
  unfold record_terminal_mutation, flush_and_stop.
  destruct (mb_answers mb !! tk) as [[[]|e]|] eqn:Hans.
  - specialize (Ha tk due Hans Hsent). auto.
  - auto.
  - destruct (wr_stopped (mb_writer mb)) eqn:Hs; cbn [negb].
    + rewrite bool_decide_eq_true_2 by (by eexists). auto.
    + destruct (Hw tk ltac:(by eexists) Hans) as [?|?]; [congruence|done].
Qed.
End mailbox.
