(* ===== verification/Durable.v ===== *)
(** * A room and the writer together: what [left] and [ended] promise

    The two-phase operations [Room::leave] and [Registry::end_session] wait
    for the writer between their phases.  Here one room, with everything that
    may happen to it meanwhile, runs beside the writer of [Mailbox], which
    captures it with [build_room_dto] at any moment of its turns. *)
From S2P Require Import Prelude.
From S2P Require Import Protocol.
From S2P Require Import Ids.
From S2P Require Import HostTransfer.
From S2P Require Import Room.
From S2P Require Import RoomInv.
From S2P Require Import RoomThms.
From S2P Require Import Snapshot.
From S2P Require Import Writer.
From S2P Require Import Mailbox.

Section durable.
Context `{HashIter} `{CryptoLib} `{!CryptoLaws _} `{!SnapshotLib}.

(** An operation between its phases, as [finish_leave] and
    [finish_end_session] need it. *)
Inductive Request :=
| RqLeave (peer_id : string) (conn_id : N)
| RqEnd (guests : list Sender).

(** The room, the writer, and the operations waiting for an answer: for each
    ticket the moment its first phase was over, and the operation. *)
Record Durability := {
  du_run : RoomRun;
  du_mail : @Mailbox (option RoomDto);
  du_waiting : gmap nat (N * Request);
}.

Abbreviation room d := (rr_state (du_run d)).

(** What the snapshot captures of the room: nothing once it closes, or when it
    is not in the room table. *)
Definition capture_room (listed : bool) (st : RoomState) (now : SystemTime) (inow : Instant)
    : option RoomDto :=
  if listed && negb (closing st) then Some (build_room_dto st now inow) else None.

(** The first phases, and what an event turns into if it is one. *)
Definition request_of (st : RoomState) (ev : room_event) : option Request :=
  match ev with
  | EvBeginLeave id c token v =>
    match (begin_leave st id c token v).2 with Ok _ => Some (RqLeave id c) | Err _ => None end
  | EvBeginEnd id c token v =>
    match (begin_end_session st id c token v).2 with
    | Ok (_, guests) => Some (RqEnd guests)
    | Err _ => None
    end
  | _ => None
  end.

Definition finishes (ev : room_event) : bool :=
  match ev with EvFinishLeave _ _ _ _ | EvFinishEnd _ _ => true | _ => false end.

(** The second phase of a request, and what it answers. *)
Definition finish_event (rq : Request) (persisted : bool) (now : SystemTime) : room_event :=
  match rq with
  | RqLeave id c => EvFinishLeave id c persisted now
  | RqEnd guests => EvFinishEnd guests persisted
  end.

Definition finish_effects (st : RoomState) (rq : Request) (persisted : bool) (now : SystemTime)
    : Effects :=
  match rq with
  | RqLeave id c => (finish_leave st id c persisted now).2
  | RqEnd guests => (finish_end_session st guests persisted).2
  end.

(** One step at moment [n], with the effects of a second phase. *)
Inductive durable_step (n : N) (d : Durability) : option Effects -> Durability -> Prop :=
| du_event ev run' :
    request_of (room d) ev = None -> finishes ev = false -> room_step (du_run d) ev run' ->
    durable_step n d None
      {| du_run := run'; du_mail := du_mail d; du_waiting := du_waiting d |}
| du_begin ev run' rq tk :
    request_of (room d) ev = Some rq -> room_step (du_run d) ev run' ->
    du_waiting d !! tk = None -> mb_due (du_mail d) !! tk = None ->
    durable_step n d None
      {| du_run := run'; du_mail := du_mail d;
         du_waiting := <[tk := (n + 1, rq)%N]> (du_waiting d) |}
| du_send tk b rq :
    du_waiting d !! tk = Some (b, rq) -> mb_due (du_mail d) !! tk = None ->
    durable_step n d None
      {| du_run := du_run d; du_mail := (send n (CmdTerminal tk) (du_mail d)).1;
         du_waiting := du_waiting d |}
| du_other cmd :
    (forall tk, ticket cmd = Some tk -> mb_due (du_mail d) !! tk = None /\ du_waiting d !! tk = None) ->
    durable_step n d None
      {| du_run := du_run d; du_mail := (send n cmd (du_mail d)).1; du_waiting := du_waiting d |}
| du_writer mail' :
    run_step (fun c => exists listed now inow, c = capture_room listed (room d) now inow)
      n (du_mail d) mail' ->
    durable_step n d None
      {| du_run := du_run d; du_mail := mail'; du_waiting := du_waiting d |}
| du_finish tk b rq res now run' :
    du_waiting d !! tk = Some (b, rq) ->
    record_terminal_mutation tk (du_mail d) = Some res ->
    room_step (du_run d) (finish_event rq (is_ok res) now) run' ->
    durable_step n d (Some (finish_effects (room d) rq (is_ok res) now))
      {| du_run := run'; du_mail := du_mail d; du_waiting := delete tk (du_waiting d) |}.

(** From a room that no operation is waiting on, and any file. *)
Inductive durable_reach : N -> Durability -> Prop :=
| du_start run file :
    room_reachable 0 run ->
    durable_reach 0 {| du_run := run; du_mail := channel file; du_waiting := ∅ |}
| du_step n d e d' : durable_reach n d -> durable_step n d e d' -> durable_reach (n + 1) d'.

(** ** What the file says *)

Definition on_file (d : Durability) : option RoomDto :=
  wr_file (mb_writer (du_mail d)) ≫= snd.

(** [id] has no place in the entry. *)
Definition unnamed_dto (id : string) (dto : RoomDto) : Prop :=
  dto_reservations dto !! id = None /\ dto_host_peer_id dto <> id.

Definition no_place (id : string) (c : option RoomDto) : Prop :=
  match c with Some dto => unnamed_dto id dto | None => True end.

(** [id] has no place in the room. *)
Definition unnamed (id : string) (st : RoomState) : Prop :=
  closing st = true \/ reservations st !! id = None /\ host_peer_id st <> id.

Lemma capture_unnamed id listed st now inow :
  unnamed id st -> no_place id (capture_room listed st now inow).
Proof.
  unfold capture_room. intros [Hc|[Hr Hh]]; [by rewrite Hc, andb_false_r|].
  destruct (_ && _); [|done]. split; [|done]. cbn [build_room_dto dto_reservations].
  rewrite lookup_fmap, map_lookup_filter. by rewrite Hr.
Qed.

Lemma capture_pending id listed st now inow :
  room_wf st -> closing st = false -> pending st id = true ->
  no_place id (capture_room listed st now inow).
Proof.
  intros Hwf Hc Hp. unfold capture_room. destruct (_ && _); [|done]. split.
  - cbn [build_room_dto dto_reservations]. rewrite lookup_fmap, map_lookup_filter.
    unfold pending in Hp. destruct (reservations st !! id) as [r|]; [|done]. simpl.
    by rewrite option_guard_False by (by rewrite Hp).
  - simpl. intros <-. by rewrite host_not_pending in Hp.
Qed.

(** The captures that a given request must be absent from. *)
Definition excludes (rq : Request) (c : option RoomDto) : Prop :=
  match rq with RqLeave id _ => no_place id c | RqEnd _ => c = None end.

(** What holds of the room while a request waits. *)
Definition held (run : RoomRun) (rq : Request) : Prop :=
  match rq with
  | RqLeave id c => (id, c) ∈ rr_leaving run
  | RqEnd _ => closing (rr_state run) = true
  end.

Lemma held_capture n run rq listed now inow :
  room_reachable n run -> (n + 3 < u64_modulus)%N -> held run rq ->
  excludes rq (capture_room listed (rr_state run) now inow).
Proof.
  intros Hreach Hn Hheld. destruct (reachable_invariant _ _ Hreach Hn) as (Hwf & Hok & _).
  destruct (closing (rr_state run)) eqn:Hc.
  { unfold capture_room. rewrite Hc, andb_false_r. by destruct rq. }
  destruct rq as [id c|guests]; simpl in *; [|congruence].
  apply (proj1 (Hok Hc)) in Hheld as [_ Hp]. by apply capture_pending.
Qed.

(** ** The invariant *)

Record durable_ok (n : N) (d : Durability) : Prop := {
  do_room : exists k, (k <= n)%N /\ room_reachable k (du_run d);
  do_mail : mailbox_ok n (du_mail d);
  do_held : forall tk b rq, du_waiting d !! tk = Some (b, rq) ->
    (0 < b <= n)%N /\ held (du_run d) rq;
  do_excluded : forall tk b rq t c, du_waiting d !! tk = Some (b, rq) ->
    captured (du_mail d) t c -> (b <= t)%N -> excludes rq c;
  do_due : forall tk b rq due, du_waiting d !! tk = Some (b, rq) ->
    mb_due (du_mail d) !! tk = Some due -> (b <= due)%N;
  do_distinct : forall tk tk' b b' id c, du_waiting d !! tk = Some (b, RqLeave id c) ->
    du_waiting d !! tk' = Some (b', RqLeave id c) -> tk = tk';
}.

(** What waits goes on waiting across the events of the room. *)
Lemma held_step run ev run' rq :
  room_step run ev run' -> held run rq ->
  (forall id c persisted now, ev = EvFinishLeave id c persisted now -> rq <> RqLeave id c) ->
  held run' rq.
Proof.
  intros [_] Hheld Hother. destruct rq as [id c|guests]; simpl in *; [|by apply closing_apply].
  destruct ev; try done; cbn [leaving_after] in *.
  - destruct (begin_leave _ _ _ _ _).2; [|done]. set_solver.
  - specialize (Hother _ _ _ _ eq_refl). apply elem_of_difference. split; [done|].
    intros Heq%elem_of_singleton. congruence.
Qed.

Lemma begin_held run ev run' rq :
  room_step run ev run' -> request_of (rr_state run) ev = Some rq -> held run' rq.
Proof.
  intros [_]. destruct ev; try done; cbn [request_of leaving_after room_apply].
  - destruct (begin_leave _ _ _ _ _).2; [|done]. intros [= <-]. simpl. set_solver.
  - unfold begin_end_session. repeat case_match; simplify_eq; intros; simplify_eq; done.
Qed.

Lemma begin_fresh run ev run' id c :
  room_step run ev run' -> request_of (rr_state run) ev = Some (RqLeave id c) ->
  ~ held run (RqLeave id c).
Proof.
  intros [Hallowed]. destruct ev; try done; cbn [request_of].
  - destruct (begin_leave _ _ _ _ _).2; [|done]. by intros [= -> ->].
  - destruct (begin_end_session _ _ _ _ _).2 as [[? ?]|?]; done.
Qed.

(** Adding and dropping a waiting operation. *)
Lemma durable_ok_start run file :
  room_reachable 0 run ->
  durable_ok 0 {| du_run := run; du_mail := channel file; du_waiting := ∅ |}.
Proof.
  intros Hreach. split; simpl; try (intros *; by rewrite lookup_empty).
  - by exists 0%N.
  - apply channel_ok.
Qed.

(** A request starts to wait with the first phase of its operation. *)
Lemma durable_ok_begin n d ev run' rq tk :
  durable_ok n d -> request_of (room d) ev = Some rq -> room_step (du_run d) ev run' ->
  mb_due (du_mail d) !! tk = None -> (n + 4 < u64_modulus)%N ->
  durable_ok (n + 1) {| du_run := run'; du_mail := du_mail d;
                        du_waiting := <[tk := (n + 1, rq)%N]> (du_waiting d) |}.
Proof.
  intros [(k & Hk & Hreach) Hmail Hheld Hexcl Hdue Hdist] Hreq Hstep Hnd Hn.
  split; cbn [du_run du_mail du_waiting].
  - exists (k + 1)%N. split; [lia|by eapply reach_step].
  - by apply mailbox_ok_later.
  - intros tk' b rq' [[<- [= <- <-]]|[_ Hw]]%lookup_insert_Some.
    + split; [lia|by eapply begin_held].
    + destruct (Hheld tk' b rq' Hw). split; [lia|]. eapply held_step; [done..|]. by intros id c p now ->.
  - intros tk' b rq' t c [[<- [= <- <-]]|[_ Hw]]%lookup_insert_Some Hc Hle; [|by eapply Hexcl].
    pose proof (captured_before n _ _ _ Hmail Hc). lia.
  - intros tk' b rq' due [[<- [= <- <-]]|[_ Hw]]%lookup_insert_Some Hd; [congruence|by eapply Hdue].
  - intros tk1 tk2 b1 b2 id c.
    intros [[<- Heq1]|[? Hw1]]%lookup_insert_Some [[<- Heq2]|[? Hw2]]%lookup_insert_Some.
    + done.
    + injection Heq1 as _ ->. destruct (begin_fresh _ _ _ _ _ Hstep Hreq). by apply (Hheld tk2 b2).
    + injection Heq2 as _ ->. destruct (begin_fresh _ _ _ _ _ Hstep Hreq). by apply (Hheld tk1 b1).
    + by eapply Hdist.
Qed.

(** A command is sent; only its own operation may be waiting on its ticket. *)
Lemma durable_ok_send n d cmd :
  durable_ok n d -> (n + 4 < u64_modulus)%N ->
  (forall tk, ticket cmd = Some tk -> mb_due (du_mail d) !! tk = None) ->
  (forall tk w, ticket cmd = Some tk -> du_waiting d !! tk = Some w -> mutates cmd = true) ->
  durable_ok (n + 1) {| du_run := du_run d; du_mail := (send n cmd (du_mail d)).1;
                        du_waiting := du_waiting d |}.
Proof.
  intros [(k & Hk & Hreach) Hmail Hheld Hexcl Hdue Hdist] Hn Hnew Hown.
  split; cbn [du_run du_mail du_waiting]; try done.
  - exists k. split; [lia|done].
  - apply send_ok; [done|by apply mailbox_ok_later].
  - intros tk b rq Hw. destruct (Hheld tk b rq Hw). split; [lia|done].
  - intros tk b rq t c Hw Hc. apply send_captured in Hc. by eapply Hexcl.
  - intros tk b rq due Hw. unfold send. destruct (wr_stopped _); [by eapply Hdue|].
    simpl. destruct (ticket cmd) as [tk'|] eqn:Htk; [|by eapply Hdue].
    intros [[-> <-]|[_ ?]]%lookup_insert_Some; [|by eapply Hdue].
    destruct (Hheld _ _ _ Hw). unfold mutation_at. rewrite (Hown tk (b, rq)) by done. lia.
Qed.

(** The second phase of an operation ends its request. *)
Lemma durable_ok_finish n d tk b rq persisted now run' :
  durable_ok n d -> du_waiting d !! tk = Some (b, rq) ->
  room_step (du_run d) (finish_event rq persisted now) run' -> (n + 4 < u64_modulus)%N ->
  durable_ok (n + 1) {| du_run := run'; du_mail := du_mail d;
                        du_waiting := delete tk (du_waiting d) |}.
Proof.
  intros [(k & Hk & Hreach) Hmail Hheld Hexcl Hdue Hdist] Hw Hstep Hn.
  split; cbn [du_run du_mail du_waiting].
  - exists (k + 1)%N. split; [lia|by eapply reach_step].
  - by apply mailbox_ok_later.
  - intros tk' b' rq' [Hne Hw']%lookup_delete_Some. destruct (Hheld tk' b' rq' Hw').
    split; [lia|]. eapply held_step; [done..|]. intros id c p now' Hev ->.
    destruct rq; simpl in Hev; simplify_eq. destruct Hne. by eapply Hdist.
  - intros tk' b' rq' t c [_ Hw']%lookup_delete_Some. by eapply Hexcl.
  - intros tk' b' rq' due [_ Hw']%lookup_delete_Some. by eapply Hdue.
  - intros tk1 tk2 b1 b2 id c [_ Hw1]%lookup_delete_Some [_ Hw2]%lookup_delete_Some.
    by eapply Hdist.
Qed.

Lemma durable_ok_step n d e d' :
  durable_ok n d -> durable_step n d e d' -> (n + 4 < u64_modulus)%N -> durable_ok (n + 1) d'.
Proof.
  intros Hok Hstep Hn.
  destruct Hstep as [ev run' Hreq Hfin Hstep|ev run' rq tk Hreq Hstep Hnew Hnd|tk b rq Hw Hnd|
    cmd Hcmd|mail' Hstep|tk b rq res now run' Hw Hres Hstep].
  - destruct Hok as [(k & Hk & Hreach) Hmail Hheld Hexcl Hdue Hdist].
    split; cbn [du_run du_mail du_waiting]; try done.
    + exists (k + 1)%N. split; [lia|by eapply reach_step].
    + by apply mailbox_ok_later.
    + intros tk b rq Hw. destruct (Hheld tk b rq Hw). split; [lia|].
      eapply held_step; [done..|]. by intros id c p now ->.
  - by eapply durable_ok_begin.
  - apply durable_ok_send; [done..|by intros ? [= <-]|done].
  - apply durable_ok_send; [done..|by intros tk [? _]%Hcmd|].
    intros tk w [_ Hnone]%Hcmd Hw. congruence.
  - destruct Hok as [(k & Hk & Hreach) Hmail Hheld Hexcl Hdue Hdist].
    split; cbn [du_run du_mail du_waiting]; try done.
    + exists k. split; [lia|done].
    + eapply run_step_ok; [exact Hstep|lia|done].
    + intros tk' b' rq' Hw'. destruct (Hheld tk' b' rq' Hw'). split; [lia|done].
    + intros tk' b' rq' t c Hw' Hc Hle.
      destruct (run_step_captured _ _ _ _ _ _ Hstep Hc) as [?|(_ & l & now & inow & ->)];
        [by eapply Hexcl|].
      apply (held_capture k); [done|lia|by apply (Hheld tk' b')].
    + intros tk' b' rq' due Hw'. rewrite (run_step_due _ _ _ _ Hstep). by eapply Hdue.
  - by eapply durable_ok_finish.
Qed.

Lemma durable_reach_ok n d :
  durable_reach n d -> (n + 3 < u64_modulus)%N -> durable_ok n d.
Proof.
  induction 1 as [run file Hr|n d e d' _ IH Hstep]; intros Hn; [by apply durable_ok_start|].
  eapply durable_ok_step; [apply IH; lia|exact Hstep|lia].
Qed.
(** ** After the answer *)

Lemma load_room_unnamed id now inow dto r :
  unnamed_dto id dto -> load_room now inow dto = Some r ->
  rst_reservations r !! id = None /\ rst_host_peer_id r <> id.
Proof.
  intros [Hr Hh]. unfold load_room. destruct (load_header now dto) as [v|]; [|done].
  pose proof (load_reservations_spec now inow dto) as Hl.
  destruct (load_reservations _ _ _ _ _) as [m|]; [|done]. intros [= <-].
  destruct Hl as [_ Hm]. simpl. by rewrite Hm, Hr.
Qed.

(** Further steps, in all of which the room satisfies [I]. *)
Inductive durable_run (I : RoomState -> Prop) (n : N) (d : Durability) : N -> Durability -> Prop :=
| run_here : durable_run I n d n d
| run_more n' d' e d'' :
    durable_run I n d n' d' -> durable_step n' d' e d'' -> I (room d'') ->
    durable_run I n d (n' + 1) d''.

(** What a server restarted now would make of the room's entry. *)
Definition restart (d : Durability) (now : SystemTime) (inow : Instant) : option RestoredRoom :=
  on_file d ≫= load_room now inow.

Definition all_captures (d : Durability) (C : option RoomDto -> Prop) : Prop :=
  forall t c, captured (du_mail d) t c -> C c.

Lemma all_captures_step (I : RoomState -> Prop) (C : option RoomDto -> Prop) n d e d' :
  (forall st listed now inow, I st -> C (capture_room listed st now inow)) ->
  durable_step n d e d' -> I (room d) -> all_captures d C -> all_captures d' C.
Proof.
  intros HI Hstep Hroom HC t c. destruct Hstep as [| | | |mail' Hstep|]; cbn [du_mail];
    rewrite ?send_captured; try apply HC.
  intros Hc. destruct (run_step_captured _ _ _ _ _ _ Hstep Hc) as [?|(_ & l & now & inow & ->)];
    [by eapply HC|by apply HI].
Qed.

Lemma all_captures_run (I : RoomState -> Prop) (C : option RoomDto -> Prop) n d n' d' :
  (forall st listed now inow, I st -> C (capture_room listed st now inow)) ->
  durable_run I n d n' d' -> I (room d) -> all_captures d C ->
  I (room d') /\ all_captures d' C.
Proof.
  intros HI Hrun Hroom HC. induction Hrun as [|n' d' e d'' _ [Hroom' HC'] Hstep Hroom'']; [done|].
  split; [done|by eapply all_captures_step].
Qed.

Lemma durable_step_closing n d e d' :
  durable_step n d e d' -> closing (room d) = true -> closing (room d') = true.
Proof.
  destruct 1 as [ev run' ? ? []|ev run' rq tk ? []| | | |tk b rq res now run' ? ? []]; try done;
    by apply closing_apply.
Qed.

Lemma durable_run_closing n d n' d' :
  durable_run (fun _ => True) n d n' d' -> closing (room d) = true ->
  durable_run (fun st => closing st = true) n d n' d'.
Proof.
  intros Hrun Hc. enough (durable_run (fun st => closing st = true) n d n' d'
    /\ closing (room d') = true) as [? _] by done.
  induction Hrun as [|n' d' e d'' _ [IH Hc'] Hstep _]; [by split; [left|]|].
  pose proof (durable_step_closing _ _ _ _ Hstep Hc'). split; [by eapply run_more|done].
Qed.

Lemma all_captures_file d C :
  C None -> all_captures d C -> C (on_file d).
Proof.
  intros Hnone HC. unfold on_file. destruct (wr_file _) as [[t c]|] eqn:Hf; [|done].
  simpl. eapply HC. left. exact Hf.
Qed.

(** Once a request has been answered [Ok], no capture shows what it undid. *)
Lemma answered_excluded n d tk b rq :
  durable_ok n d -> du_waiting d !! tk = Some (b, rq) ->
  record_terminal_mutation tk (du_mail d) = Some (Ok tt) ->
  all_captures d (excludes rq).
Proof.
  intros Hok Hw. unfold record_terminal_mutation.
  destruct (mb_answers (du_mail d) !! tk) as [ans|] eqn:Hans; [|by repeat case_match].
  intros [= ->]. pose proof (do_mail _ _ Hok) as Hm.
  destruct (mo_answers _ _ Hm tk) as [due Hdue]; [by eexists|].
  pose proof (mo_answered _ _ Hm tk due Hans Hdue) as Hstamp.
  pose proof (do_due _ _ Hok _ _ _ _ Hw Hdue).
  destruct (wr_file _) as [[t0 c0]|] eqn:Hf; simpl in Hstamp;
    [|pose proof (do_held _ _ Hok _ _ _ Hw); lia].
  intros t c Hc. apply (do_excluded _ _ Hok tk b rq t c Hw Hc).
  destruct Hc as [Hc|Hc]; [rewrite Hf in Hc; injection Hc as <- _; lia|].
  destruct (mo_capture _ _ t c Hm Hc) as [_ Hle]. rewrite Hf in Hle. simpl in Hle. lia.
Qed.

(** The second phase of [leave]. *)
Lemma finish_leave_left k run id c persisted now sid id' :
  room_reachable k run -> (k + 3 < u64_modulus)%N -> held run (RqLeave id c) ->
  eff_reply (finish_leave (rr_state run) id c persisted now).2 = Some (left_reply sid id') ->
  id' = id /\ persisted = true /\ unnamed id (finish_leave (rr_state run) id c persisted now).1.
Proof.
  intros Hreach Hk Hheld. destruct (reachable_invariant _ _ Hreach Hk) as (Hwf & Hok & _).
  unfold finish_leave. destruct (negb _) eqn:Hown; [done|]. destruct persisted; [|done]. simpl.
  rewrite append_eligibility, broadcast_except_push. simpl. intros [= _ ->].
  split_and!; [done..|]. unfold unnamed. room_cbn.
  destruct (closing (rr_state run)) eqn:Hc; [by left|right].
  split; [by rewrite lookup_delete_eq|]. intros <-.
  apply (proj1 (Hok Hc)) in Hheld as [_ Hp]. by rewrite host_not_pending in Hp.
Qed.

(** [left] and [ended] are promises about the disk.  Whatever happens to
    the room between the two phases of a [leave] or [endSession], and however
    the writer's turns, its failures and its stop fall: if the second phase
    answers [left], then from that moment on, for as long as the peer has not
    come back to the room, the state file gives it no place in the room, and
    a server restarted from it does not know it; if it answers [ended], the
    file never again has an entry for the room. *)
Theorem terminal_durability n d e d'
    (Hreach : durable_reach n d) (Hn : (n + 4 < u64_modulus)%N)
    (Hstep : durable_step n d (Some e) d') :
  (forall sid id n' d'', eff_reply e = Some (left_reply sid id) ->
     durable_run (unnamed id) (n + 1) d' n' d'' ->
     no_place id (on_file d'')
     /\ forall now inow r, restart d'' now inow = Some r ->
          rst_reservations r !! id = None /\ rst_host_peer_id r <> id)
  /\ (forall sid n' d'', eff_reply e = Some (ended_message sid) ->
     durable_run (fun _ => True) (n + 1) d' n' d'' ->
     on_file d'' = None /\ forall now inow, restart d'' now inow = None).
Proof.
  pose proof (durable_reach_ok _ _ Hreach ltac:(lia)) as Hok.
  inversion Hstep as [| | | | |tk b rq res now run' Hw Hres [Hallowed] He Hd']; subst; clear Hstep.
  destruct (do_held _ _ Hok _ _ _ Hw) as [_ Hheld]. destruct (do_room _ _ Hok) as (k & Hk & Hroom).
  destruct rq as [id c|guests]; split.
  - intros sid id' n' d'' Hleft Hrun. cbn [finish_effects] in Hleft.
    destruct (finish_leave_left _ _ _ _ _ _ _ _ Hroom ltac:(lia) Hheld Hleft) as (-> & Hp & Hun).
    destruct res as [[]|]; [|done].
    destruct (all_captures_run (unnamed id) (no_place id) _ _ _ _
                ltac:(intros; by apply capture_unnamed) Hrun)
      as [_ Hall]; [done|by apply (answered_excluded n d tk b (RqLeave id c))|].
    pose proof (all_captures_file _ _ I Hall) as Hfile. split; [done|].
    intros now' inow r. unfold restart. destruct (on_file d'') as [dto|]; [|done]. simpl.
    by apply load_room_unnamed.
  - intros sid n' d''. cbn [finish_effects]. unfold finish_leave.
    destruct (negb _); [done|]. destruct (negb _); [done|]. simpl.
    by rewrite append_eligibility, broadcast_except_push.
  - intros sid id n' d''. cbn [finish_effects]. unfold finish_end_session. by destruct (negb _).
  - intros sid n' d'' Hended Hrun. cbn [finish_effects] in Hended.
    destruct res as [[]|]; [|done].
    apply durable_run_closing in Hrun; [|by apply closing_apply].
    destruct (all_captures_run (fun st => closing st = true) (fun c => c = None) _ _ _ _
                ltac:(intros ?? ?? Hc; unfold capture_room; by rewrite Hc, andb_false_r) Hrun)
      as [_ Hall]; [by apply closing_apply|by apply (answered_excluded n d tk b (RqEnd guests))|].
    pose proof (all_captures_file _ (fun c => c = None) eq_refl Hall) as Hfile. unfold restart.
    by rewrite Hfile.
Qed.
End durable.
