(* ===== verification/DurableWitness.v ===== *)
(** * The theorems about the writer and its callers in a concrete run

    The host of [RoomSamples] is joined by a guest, which leaves; the writer
    captures the room between the two phases and the write succeeds. *)
From S2P Require Import Prelude.
From S2P Require Import Protocol.
From S2P Require Import Ids.
From S2P Require Import Samples.
From S2P Require Import HostTransfer.
From S2P Require Import Room.
From S2P Require Import RoomInv.
From S2P Require Import RoomThms.
From S2P Require Import RoomLife.
From S2P Require Import RoomSamples.
From S2P Require Import Snapshot.
From S2P Require Import Writer.
From S2P Require Import Mailbox.
From S2P Require Import Debounce.
From S2P Require Import Durable.

#[local] Existing Instance canonical_order.
#[local] Existing Instance sample_crypto.

(** ** The mailbox *)

Definition mail_sent {C} (n : N) : @Mailbox C := (send n (CmdTerminal 7) (channel None)).1.
Definition mail_turn {C} (n since : N) (cap : option C) : Mailbox :=
  {| mb_queue := []; mb_turn := Some (TurnCmd n (CmdTerminal 7), pair since <$> cap);
     mb_writer := new_writer None; mb_answers := ∅; mb_since := since; mb_last := n + 1;
     mb_due := {[ 7 := (n + 1)%N ]}; mb_done := 0 |}.
Definition mail_done {C} (n since : N) (c : C) : Mailbox :=
  finish_turn (mail_turn n since (Some c)) (TurnCmd n (CmdTerminal 7)) (Ok (since, c)).

Lemma mail_recv {C} (captures : C -> Prop) n now :
  run_step captures now (mail_sent n) (mail_turn n now None).
Proof. by apply (run_recv captures now (mail_sent n) n (CmdTerminal 7) []). Qed.

Lemma mail_capture {C} (captures : C -> Prop) n since now c :
  captures c -> run_step captures now (mail_turn n since None) (mail_turn n since (Some c)).
Proof. by apply (run_capture captures now (mail_turn n since None)). Qed.

Lemma mail_commit {C} (captures : C -> Prop) n since now c :
  run_step captures now (mail_turn n since (Some c)) (mail_done n since c).
Proof. by apply (run_commit captures now (mail_turn n since (Some c))). Qed.

Lemma answer_means_durable_witness :
  let mb := mail_done 0 1 "saved" in
  record_terminal_mutation 7 mb = Some (Ok tt) /\ (1 <= stamp (wr_file (mb_writer mb)))%N.
Proof.
  assert (Hreach : mailbox_reach (@None string) 4 (mail_done 0 1 "saved")).
  { apply (mailbox_run None 3 (mail_turn 0 1 (Some "saved"))); [|apply mail_commit].
    apply (mailbox_run None 2 (mail_turn 0 1 None)); [|by apply mail_capture].
    apply (mailbox_run None 1 (mail_sent 0)); [|apply mail_recv].
    apply (mailbox_send None 0 (channel None) (CmdTerminal 7)); [constructor|done]. }
  destruct (answer_means_durable None 4 (mail_done 0 1 "saved") 7 1 Hreach
    ltac:(by vm_compute) ltac:(by vm_compute)) as [Hdue _].
  split; [by vm_compute|]. by apply Hdue.
Defined.

(** ** The timer: three mutations, 90 ms apart, and a write that fails once *)

Definition write_fate (outcome : result string SnapshotError) : Fate :=
  {| ft_outcome := outcome; ft_took := from_millis 5; ft_timer_first := true |}.
Definition disk_full : Fate := write_fate (Err (mk_SnapshotError "disk full")).
Definition three_mutations : list Instant := [from_millis 0; from_millis 90; from_millis 180].

Lemma debounced_write_witness :
  let tw := {| td_now := 0%Z; td_queue := mutations three_mutations; td_writer := new_writer None |} in
  let during := timed_run tw [disk_full; disk_full; disk_full] in
  let after := timed_run during [disk_full; write_fate (Ok "saved")] in
  td_now during = from_millis 180 /\ wr_file (td_writer during) = None
  /\ td_now after = from_millis 390 /\ wr_file (td_writer after) = Some "saved".
Proof.
  destruct (debounced_write (new_writer None) 0%Z three_mutations []
    [disk_full; disk_full; disk_full] [disk_full] (write_fate (Ok "saved")) "saved")
    as (Hn & _ & Hf & Hn' & _ & Hf' & _).
  - split; [done|done|by vm_compute].
  - by right.
  - by vm_compute.
  - done.
  - repeat constructor. by vm_compute.
  - done.
  - done.
  - exact (conj Hn (conj Hf (conj Hn' Hf'))).
Defined.

(** ** The room and the writer *)

(** The run only reads the platform's first [Instant] of the snapshot library. *)
#[local] Instance plain_codec : SnapshotLib :=
  {| to_vec := fun _ => None; from_slice := fun _ => None; min_instant := 0%Z |}.

Abbreviation dto_leaving :=
  (capture_room true (rr_state run_leaving) (secs 1003) (secs 3)).

Definition du (run : RoomRun) (mail : Mailbox) (waiting : gmap nat (N * Request)) : Durability :=
  {| du_run := run; du_mail := mail; du_waiting := waiting |}.

Definition leave_waits : gmap nat (N * Request) := {[ 7 := (2%N, RqLeave "g1" 2) ]}.
Definition du_before : Durability := du run_leaving (mail_done 2 3 dto_leaving) leave_waits.
Definition run_left : RoomRun :=
  {| rr_state := room_apply (rr_state run_leaving) (EvFinishLeave "g1" 2 true (secs 1004));
     rr_leaving := leaving_after run_leaving (EvFinishLeave "g1" 2 true (secs 1004)) |}.
Definition du_after : Durability :=
  du run_left (mail_done 2 3 dto_leaving) (delete 7 leave_waits).

Lemma du_before_reach : durable_reach 6 du_before.
Proof.
  apply (du_step 5 (du run_leaving (mail_turn 2 3 (Some dto_leaving)) leave_waits) None).
  2: { apply (du_writer 5 (du run_leaving _ leave_waits)), mail_commit. }
  apply (du_step 4 (du run_leaving (mail_turn 2 3 None) leave_waits) None).
  2: { apply (du_writer 4 (du run_leaving _ leave_waits)), mail_capture.
       by exists true, (secs 1003), (secs 3). }
  apply (du_step 3 (du run_leaving (mail_sent 2) leave_waits) None).
  2: { apply (du_writer 3 (du run_leaving _ leave_waits)), mail_recv. }
  apply (du_step 2 (du run_leaving (channel None) leave_waits) None).
  2: { by apply (du_send 2 (du run_leaving (channel None) leave_waits) 7 2 (RqLeave "g1" 2)). }
  apply (du_step 1 (du run_pair (channel None) ∅) None).
  2: { apply (du_begin 1 (du run_pair (channel None) ∅) ev_begin_leave run_leaving
         (RqLeave "g1" 2) 7); [by vm_compute| |done..].
       constructor. vm_compute. done. }
  apply (du_step 0 (du run_host (channel None) ∅) None).
  - apply du_start, run_host_reachable.
  - apply (du_event 0 (du run_host (channel None) ∅) ev_join run_pair); [done..|].
    by constructor.
Qed.

Lemma du_finish_leaves :
  durable_step 6 du_before
    (Some (finish_effects (rr_state run_leaving) (RqLeave "g1" 2) true (secs 1004))) du_after.
Proof.
  apply (du_finish 6 du_before 7 2 (RqLeave "g1" 2) (Ok tt) (secs 1004) run_left);
    [done|by vm_compute|]. constructor. vm_compute. done.
Qed.

(** The file holds the room, without the guest that is told [left]. *)
Lemma terminal_durability_witness :
  exists dto, on_file du_after = Some dto /\ dto_session_id dto = "room1"
    /\ dto_reservations dto !! "g1" = None.
Proof.
  assert (Hn : (6 + 4 < u64_modulus)%N) by done.
  destruct (terminal_durability 6 du_before _ du_after du_before_reach Hn
    du_finish_leaves) as [Hleft _].
  destruct (Hleft "room1" "g1" 7%N du_after) as [Hplace _]; [by vm_compute|constructor|].
  destruct (on_file du_after) as [dto|] eqn:Hfile.
  - exists dto. split_and!; [done| |apply Hplace].
    vm_compute in Hfile. by injection Hfile as <-.
  - vm_compute in Hfile. discriminate Hfile.
Defined.
