(* ===== verification/Threads.v ===== *)
(** * Programs of atomic sections

    An async function of the server runs as a sequence of sections between its
    points of interference: what it does while it holds a lock, or one
    operation on a channel.  [prog W A] is such a function over the shared
    world [W]; a section that finds its lock taken is blocked ([None]).  [Ask]
    waits for an answer of another task, here the snapshot writer's verdict.

    The file gives the two ways to run programs, alone ([run]) and interleaved
    ([pool_step]), and a rely-guarantee rule to prove invariants and absence
    of deadlock of all interleavings from one proof per program. *)
From S2P Require Import Prelude.

Inductive prog (W A : Type) : Type :=
| Ret (a : A)
| Sec {B : Type} (f : W -> option (W * B)) (k : B -> prog W A)
| Ask (k : bool -> prog W A).
Arguments Ret {W A} a.
Arguments Sec {W A B} f k.
Arguments Ask {W A} k.

Fixpoint bind {W A B} (p : prog W A) (k : A -> prog W B) : prog W B :=
  match p with
  | Ret a => k a
  | Sec f k' => Sec f (fun b => bind (k' b) k)
  | Ask k' => Ask (fun b => bind (k' b) k)
  end.

(** One section, and the answer of another task. *)
Definition sec {W B} (f : W -> option (W * B)) : prog W B := Sec f Ret.
Definition ask {W} : prog W bool := Ask Ret.

Notation "'let!' x ':=' p 'in' q" := (bind p (fun x => q))
  (at level 10, x pattern, p at level 100, q at level 200) : relay_scope.
Notation "p ';!' q" := (bind p (fun _ => q))
  (at level 100, q at level 200, right associativity) : relay_scope.

(** A run without interference, with every answer equal to [answer]. *)
Fixpoint run {W A} (answer : bool) (p : prog W A) (w : W) : option (W * A) :=
  match p with
  | Ret a => Some (w, a)
  | Sec f k => match f w with Some (w, b) => run answer (k b) w | None => None end
  | Ask k => run answer (k answer) w
  end.

Lemma run_bind {W A B} answer (p : prog W A) (k : A -> prog W B) w :
  run answer (bind p k) w =
  match run answer p w with Some (w, a) => run answer (k a) w | None => None end.
Proof.
  revert w. induction p as [a|C f k' IH|k' IH]; intros w; simpl; [done| |apply IH].
  destruct (f w) as [[w' b]|]; [apply IH|done].
Qed.

(** ** Interleavings *)

Section threads.
Context {W : Type}.

Abbreviation thread := (prog W unit).
Abbreviation pool := (gmap nat thread).

(** Which programs a new thread may run, given its number. *)
Variable starts : nat -> thread -> Prop.

Inductive pool_step : W * pool -> W * pool -> Prop :=
| step_start w ps t p :
    ps !! t = None -> starts t p -> pool_step (w, ps) (w, <[t := p]> ps)
| step_section w ps t B (f : W -> option (W * B)) k w' b :
    ps !! t = Some (Sec f k) -> f w = Some (w', b) -> pool_step (w, ps) (w', <[t := k b]> ps)
| step_answer w ps t k b :
    ps !! t = Some (Ask k) -> pool_step (w, ps) (w, <[t := k b]> ps).

Inductive pool_reach (w0 : W) : W * pool -> Prop :=
| pool_reach_start : pool_reach w0 (w0, ∅)
| pool_reach_step c c' : pool_reach w0 c -> pool_step c c' -> pool_reach w0 c'.

Definition finished (p : thread) : Prop := match p with Ret _ => True | _ => False end.

(** A thread can move by itself. *)
Definition enabled (w : W) (p : thread) : Prop :=
  match p with
  | Ret _ => False
  | Sec f _ => is_Some (f w)
  | Ask _ => True
  end.

(** ** The rely-guarantee rule *)

(** The invariant of the world, what a section of thread [t] may do to it, and
    the thread that holds the one lock held across sections. *)
Variable inv : W -> Prop.
Variable guar : nat -> W -> W -> Prop.
Variable holder : W -> option nat.
Hypothesis guar_holder : forall t t' w w',
  guar t w w' -> t <> t' -> (holder w' = Some t' <-> holder w = Some t').

(** An assertion of thread [t] that the other threads keep. *)
Definition stable (t : nat) (L : W -> Prop) : Prop :=
  forall t' w w', t' <> t -> guar t' w w' -> inv w -> inv w' -> L w -> L w'.

Definition unlocked_by (t : nat) (w : W) : Prop := holder w <> Some t.

(** Thread [t] may be held up only by another thread's lock. *)
Definition waits (t : nat) (w : W) : Prop := exists t', t' <> t /\ holder w = Some t'.

(** Or it is parked: it waits for something that is not a lock. *)
Variable parked : nat -> W -> Prop.

(** Program [p] of thread [t], started under the assertion [L], keeps the
    invariant and the guarantee, blocks only on a lock or, without it, where it
    is parked, asks nothing while it holds the lock, and ends in [Q]. *)
Fixpoint ok {A} (t : nat) (L : W -> Prop) (p : prog W A) (Q : A -> W -> Prop) : Prop :=
  match p with
  | Ret a => forall w, inv w -> L w -> Q a w
  | Sec f k => forall w, inv w -> L w ->
      match f w with
      | None => waits t w \/ unlocked_by t w /\ parked t w
      | Some (w', b) =>
        inv w' /\ guar t w w'
        /\ exists L', stable t L' /\ L' w' /\ ok t L' (k b) Q
      end
  | Ask k => (forall w, inv w -> L w -> unlocked_by t w) /\ forall b, ok t L (k b) Q
  end.

Lemma ok_weaken {A} t L L' (p : prog W A) Q Q' :
  (forall w, inv w -> L' w -> L w) -> (forall a w, inv w -> Q a w -> Q' a w) ->
  ok t L p Q -> ok t L' p Q'.
Proof.
  revert L L'. induction p as [a|B f k IH|k IH]; intros L L' HL HQ Hok.
  - intros w Hw Hl. apply HQ, Hok; auto.
  - intros w Hw Hl. specialize (Hok w Hw (HL w Hw Hl)).
    destruct (f w) as [[w' b]|]; [|done]. destruct Hok as (? & ? & L2 & ? & ? & Hok).
    split_and!; [done..|]. exists L2. split_and!; [done..|]. by eapply IH.
  - destruct Hok as [Hu Hok]. split; [auto|]. intros b. by eapply IH.
Qed.

Lemma ok_bind {A B} t L (p : prog W A) (k : A -> prog W B) Q Q' :
  ok t L p Q -> (forall a, ok t (Q a) (k a) Q') -> ok t L (bind p k) Q'.
Proof.
  revert L. induction p as [a|C f k' IH|k' IH]; intros L Hok Hk; simpl.
  - by apply (ok_weaken _ (Q a) _ _ Q').
  - intros w Hw Hl. specialize (Hok w Hw Hl).
    destruct (f w) as [[w' b]|]; [|done]. destruct Hok as (? & ? & L2 & ? & ? & Hok).
    split_and!; [done..|]. exists L2. split_and!; [done..|]. by apply IH.
  - destruct Hok as [Hu Hok]. split; [done|]. intros b. by apply IH.
Qed.

(** One section, with the assertion that holds afterwards. *)
Lemma ok_sec_parked {B} t L (f : W -> option (W * B)) (Q : B -> W -> Prop) :
  (forall b, stable t (Q b)) ->
  (forall w, inv w -> L w ->
     match f w with
     | None => waits t w \/ unlocked_by t w /\ parked t w
     | Some (w', b) => inv w' /\ guar t w w' /\ Q b w'
     end) ->
  ok t L (sec f) Q.
Proof.
  intros Hst Hf w Hw Hl. specialize (Hf w Hw Hl).
  destruct (f w) as [[w' b]|]; [|done]. destruct Hf as (? & ? & ?).
  split_and!; [done..|]. exists (Q b). split_and!; [done..|]. by intros ?.
Qed.

Lemma ok_sec {B} t L (f : W -> option (W * B)) (Q : B -> W -> Prop) :
  (forall b, stable t (Q b)) ->
  (forall w, inv w -> L w ->
     match f w with
     | None => waits t w
     | Some (w', b) => inv w' /\ guar t w w' /\ Q b w'
     end) ->
  ok t L (sec f) Q.
Proof.
  intros Hst Hf. apply ok_sec_parked; [done|]. intros w Hw Hl. specialize (Hf w Hw Hl).
  destruct (f w) as [[w' b]|]; [done|by left].
Qed.

Lemma ok_sec_ext {B} t L (f f' : W -> option (W * B)) Q :
  (forall w, f w = f' w) -> ok t L (sec f) Q -> ok t L (sec f') Q.
Proof. intros Hf Hok w Hw Hl. rewrite <- Hf. by apply Hok. Qed.

Lemma unlocked_stable t : stable t (unlocked_by t).
Proof.
  intros t' w w' Hne Hg _ _ Hu Hh. apply Hu. by apply (guar_holder t' t w w').
Qed.

(** What a thread starts with. *)
Variable init : nat -> W -> Prop.
Hypothesis init_stable : forall t, stable t (init t).
Hypothesis init_unlocked : forall t w, init t w -> unlocked_by t w.
Hypothesis starts_ok : forall t p, starts t p -> ok t (init t) p (fun _ => unlocked_by t).

(** What holds of every configuration that interleaved threads reach. *)
Record pool_ok (c : W * pool) : Prop := {
  pool_inv : inv c.1;
  pool_threads : forall t p, c.2 !! t = Some p ->
    exists L, stable t L /\ L c.1 /\ ok t L p (fun _ => unlocked_by t);
  pool_others : forall t, c.2 !! t = None -> init t c.1;
}.

Lemma pool_step_ok c c' : pool_ok c -> pool_step c c' -> pool_ok c'.
Proof.
  intros [Hinv Hthr Hoth] Hstep. destruct Hstep as [w ps t p Ht Hs|w ps t B f k w' b Ht Hf|w ps t k b Ht];
    simpl in *.
  - split; simpl; [done| |].
    + intros t' p' [[<- <-]|[_ Hp']]%lookup_insert_Some; [|by apply Hthr].
      exists (init t). split_and!; [apply init_stable|by apply Hoth|by apply starts_ok].
    + intros t' [Ht' _]%lookup_insert_None. by apply Hoth.
  - destruct (Hthr t _ Ht) as (L & HL & Hlw & Hok).
    specialize (Hok w Hinv Hlw). rewrite Hf in Hok.
    destruct Hok as (Hinv' & Hg & L' & HL' & Hlw' & Hok). split; simpl; [done| |].
    + intros t' p' [[<- <-]|[Hne Hp']]%lookup_insert_Some; [by eauto|].
      destruct (Hthr t' p' Hp') as (L2 & HL2 & Hlw2 & Hok2). exists L2.
      split_and!; [done| |done]. by apply (HL2 t w w').
    + intros t' [Ht' Hne]%lookup_insert_None. by apply (init_stable t' t w w'), Hoth.
  - destruct (Hthr t _ Ht) as (L & HL & Hlw & Hok). split; simpl; [done| |].
    + intros t' p' [[<- <-]|[_ Hp']]%lookup_insert_Some; [|by apply Hthr]. exists L. split_and!; [done..|apply Hok].
    + intros t' [Ht' _]%lookup_insert_None. by apply Hoth.
Qed.

Lemma pool_reach_ok w0 c :
  inv w0 -> (forall t, init t w0) -> pool_reach w0 c -> pool_ok c.
Proof.
  intros Hinv Hinit. induction 1 as [|c c' _ IH Hstep]; [|by eapply pool_step_ok].
  split; simpl; [done| |by intros]. intros t p Hp. by rewrite lookup_empty in Hp.
Qed.

(** No deadlock: as long as a thread is unfinished and not parked, some thread
    can move. *)
Lemma pool_progress c t p :
  pool_ok c -> c.2 !! t = Some p -> ~ finished p ->
  (exists t' p', c.2 !! t' = Some p' /\ enabled c.1 p') \/ parked t c.1.
Proof.
  intros [Hinv Hthr Hoth] Ht Hunfin.
  assert (Hcase : forall t p, c.2 !! t = Some p -> ~ finished p ->
    enabled c.1 p \/ waits t c.1 \/ unlocked_by t c.1 /\ parked t c.1).
  { intros t1 p1 Ht1 Hun. destruct (Hthr t1 p1 Ht1) as (L & _ & Hl & Hok).
    destruct p1 as [a|B f k|k]; simpl in *; [by destruct Hun| |by left].
    specialize (Hok _ Hinv Hl). destruct (f c.1) as [[]|]; [by left; eexists|by right]. }
  destruct (Hcase t p Ht Hunfin) as [He|[(t' & Hne & Hh)|[_ Hpark]]]; [by eauto| |by right]. left.
  destruct (c.2 !! t') as [p'|] eqn:Ht'; [|by destruct (init_unlocked _ _ (Hoth t' Ht'))].
  exists t', p'. split; [done|].
  destruct (Hcase t' p' Ht') as [?|[(t2 & Hne2 & Hh2)|[Hu _]]]; [|done|congruence|by destruct Hu].
  intros Hfin. destruct (Hthr t' p' Ht') as (L & _ & Hl & Hok).
  destruct p' as [a| |]; [|done..]. by apply (Hok _ Hinv Hl).
Qed.

(** ** Termination

    A program is a well-founded tree, so a set of programs that are started
    once can only take finitely many steps, however they interleave. *)

(** The steps of threads that have been started. *)
Inductive advance_step : W * pool -> W * pool -> Prop :=
| advance_section w ps t B (f : W -> option (W * B)) k w' b :
    ps !! t = Some (Sec f k) -> f w = Some (w', b) -> advance_step (w, ps) (w', <[t := k b]> ps)
| advance_answer w ps t k b :
    ps !! t = Some (Ask k) -> advance_step (w, ps) (w, <[t := k b]> ps).

Lemma advance_pool_step c c' : advance_step c c' -> pool_step c c'.
Proof. destruct 1; [by eapply step_section|by apply step_answer]. Qed.

Definition child (q p : thread) : Prop :=
  match p with
  | Ret _ => False
  | Sec _ k => exists b, q = k b
  | Ask k => exists b, q = k b
  end.

Lemma child_wf : well_founded child.
Proof.
  intros p. induction p as [a|B f k IH|k IH]; constructor; intros q Hq; simpl in Hq;
    [done|destruct Hq as [b ->]; apply IH..].
Qed.

Definition pool_child (ps' ps : pool) : Prop :=
  exists t p q, ps !! t = Some p /\ child q p /\ ps' = <[t := q]> ps.

Lemma pool_child_insert t ps :
  Acc pool_child ps -> ps !! t = None -> forall p, Acc pool_child (<[t := p]> ps).
Proof.
  induction 1 as [ps _ IHps]. intros Ht p. induction (child_wf p) as [p _ IHp].
  constructor. intros ps' (t' & p' & q & Ht' & Hq & ->).
  apply lookup_insert_Some in Ht' as [[<- <-]|[Hne Ht']].
  - rewrite insert_insert_eq. by apply IHp.
  - rewrite insert_insert_ne by done. apply IHps; [by exists t', p', q|].
    by rewrite lookup_insert_ne.
Qed.

Lemma pool_child_wf : well_founded pool_child.
Proof.
  intros ps. induction ps as [|t p ps Ht IH] using map_ind.
  - constructor. intros ps' (t & p & q & Ht & _). by rewrite lookup_empty in Ht.
  - by apply pool_child_insert.
Qed.

Lemma advance_child c c' : advance_step c c' -> pool_child c'.2 c.2.
Proof.
  destruct 1 as [w ps t B f k w' b Ht _|w ps t k b Ht]; simpl;
    (do 3 eexists; split_and!; [exact Ht| |reflexivity]); by exists b.
Qed.

Lemma advance_wf : well_founded (fun c' c => advance_step c c').
Proof.
  intros [w ps]. revert w. induction (pool_child_wf ps) as [ps _ IH]. intros w.
  constructor. intros [w' ps'] Hstep. by apply IH, (advance_child (w, ps) (w', ps')).
Qed.

Lemma enabled_advance w ps t p :
  ps !! t = Some p -> enabled w p -> exists c', advance_step (w, ps) c'.
Proof.
  intros Ht He. destruct p as [a|B f k|k]; simpl in He; [done| |].
  - destruct He as [[w' b] Hf]. eexists. by eapply advance_section.
  - eexists. by eapply (advance_answer _ _ _ _ true).
Qed.

Lemma enabled_dec w p : enabled w p \/ ~ enabled w p.
Proof.
  destruct p as [a|B f k|k]; simpl; [right; by intros []| |by left].
  destruct (f w); [left; by eexists|right; by intros [? ?]].
Qed.

(** Some thread can move, or each one is finished or blocked. *)
Lemma moves_or_stuck w ps :
  (exists c, advance_step (w, ps) c) \/ forall t p, ps !! t = Some p -> ~ enabled w p.
Proof.
  assert (Hor : (exists t p, ps !! t = Some p /\ enabled w p)
                \/ forall t p, ps !! t = Some p -> ~ enabled w p).
  { induction ps as [|t p ps Ht IH] using map_ind.
    - right. intros t p Hp. by rewrite lookup_empty in Hp.
    - destruct (enabled_dec w p) as [Hp|Hp]; [left; exists t, p; by rewrite lookup_insert_eq|].
      destruct IH as [(t' & p' & Ht' & Hp')|Hall].
      + left. exists t', p'. rewrite lookup_insert_ne by congruence. done.
      + right. intros t' p' [[<- <-]|[_ Hp']]%lookup_insert_Some; [done|by eapply Hall]. }
  destruct Hor as [(t & p & Ht & Hp)|Hall]; [left; by eapply enabled_advance|by right].
Qed.

Lemma finished_dec p : finished p \/ ~ finished p.
Proof. destruct p; simpl; auto. Qed.

Definition all_finished (ps : pool) : Prop := forall t p, ps !! t = Some p -> finished p.

Lemma all_finished_or ps : all_finished ps \/ exists t p, ps !! t = Some p /\ ~ finished p.
Proof.
  induction ps as [|t p ps Ht IH] using map_ind.
  - left. intros t p Hp. by rewrite lookup_empty in Hp.
  - destruct (finished_dec p) as [Hp|Hp]; [|right; exists t, p; by rewrite lookup_insert_eq].
    destruct IH as [Hall|(t' & p' & Ht' & Hp')].
    + left. intros t' p' [[<- <-]|[_ Hp']]%lookup_insert_Some; [done|by eapply Hall].
    + right. exists t', p'. rewrite lookup_insert_ne by congruence. done.
Qed.

(** With progress, every run ends with all threads finished. *)
Lemma pool_terminates c :
  (forall t w, ~ parked t w) ->
  (forall c', rtc advance_step c c' -> pool_ok c') ->
  (exists c', rtc advance_step c c' /\ all_finished c'.2)
  /\ forall c', rtc advance_step c c' -> (forall c'', ~ advance_step c' c'') -> all_finished c'.2.
Proof.
  intros Hpark Hok.
  assert (Hstuck : forall c', rtc advance_step c c' -> (forall c'', ~ advance_step c' c'') ->
    all_finished c'.2).
  { intros [w ps] Hrtc Hstop. destruct (all_finished_or ps) as [?|(t & p & Ht & Hp)]; [done|].
    destruct (pool_progress (w, ps) t p (Hok _ Hrtc) Ht Hp) as [(t' & p' & Ht' & He)|?]; [|by destruct (Hpark t w)].
    destruct (enabled_advance w ps t' p' Ht' He) as [c'' Hc'']. by destruct (Hstop c''). }
  split; [|done]. clear Hstuck. induction (advance_wf c) as [[w ps] _ IH].
  destruct (all_finished_or ps) as [?|(t & p & Ht & Hp)]; [by exists (w, ps)|].
  destruct (pool_progress (w, ps) t p (Hok _ (rtc_refl _ _)) Ht Hp) as [(t' & p' & Ht' & He)|?];
    [|by destruct (Hpark t w)].
  destruct (enabled_advance w ps t' p' Ht' He) as [c1 Hc1].
  destruct (IH c1 Hc1) as (c' & Hrtc & Hfin).
  { intros c' Hrtc. apply Hok. by eapply rtc_l. }
  exists c'. split; [by eapply rtc_l|done].
Qed.
End threads.

Lemma pool_reach_mono {W} (S S' : nat -> prog W unit -> Prop) w0 c :
  (forall t p, S t p -> S' t p) -> pool_reach S w0 c -> pool_reach S' w0 c.
Proof.
  intros Hsub. induction 1 as [|c c' _ IH Hstep]; [constructor|].
  eapply pool_reach_step; [exact IH|].
  destruct Hstep; [apply step_start; auto|by eapply step_section|by apply step_answer].
Qed.

(** ** Assertions under a known invariant

    When the invariant of all configurations is already established, what one
    thread may rely on can be proved without looking at blocking again: a
    section is taken to find its locks free. *)
Section keeping.
Context {W : Type}.
Abbreviation thread := (prog W unit).
Variable starts : nat -> thread -> Prop.
Variable inv : W -> Prop.
Variable guar : nat -> W -> W -> Prop.
(** What each thread shows at any time. *)
Variable always : nat -> W -> Prop.

Definition assertion (t : nat) (L : W -> Prop) : Prop :=
  stable inv guar t L /\ forall w, L w -> always t w.

Fixpoint keeps {A} (t : nat) (L : W -> Prop) (p : prog W A) (Q : A -> W -> Prop) : Prop :=
  match p with
  | Ret a => forall w, inv w -> L w -> Q a w
  | Sec f k => forall w w' b, inv w -> inv w' -> L w -> f w = Some (w', b) ->
      guar t w w' /\ exists L', assertion t L' /\ L' w' /\ keeps t L' (k b) Q
  | Ask k => forall b, keeps t L (k b) Q
  end.

Lemma keeps_weaken {A} t (L L' : W -> Prop) (p : prog W A) (Q Q' : A -> W -> Prop) :
  (forall w, inv w -> L' w -> L w) -> (forall a w, inv w -> Q a w -> Q' a w) ->
  keeps t L p Q -> keeps t L' p Q'.
Proof.
  revert L L'. induction p as [a|B f k IH|k IH]; intros L L' HL HQ Hok.
  - intros w Hw Hl. apply HQ, Hok; auto.
  - intros w w' b Hw Hw' Hl Hf. destruct (Hok w w' b Hw Hw' (HL w Hw Hl) Hf) as (? & L2 & ? & ? & Hk).
    split; [done|]. exists L2. split_and!; [done..|]. by eapply IH.
  - intros b. by eapply IH.
Qed.

Lemma keeps_bind {A B} t L (p : prog W A) (k : A -> prog W B) Q Q' :
  keeps t L p Q -> (forall a, keeps t (Q a) (k a) Q') -> keeps t L (bind p k) Q'.
Proof.
  revert L. induction p as [a|C f k' IH|k' IH]; intros L Hok Hk; simpl.
  - by apply (keeps_weaken _ (Q a) _ _ Q').
  - intros w w' b Hw Hw' Hl Hf. destruct (Hok w w' b Hw Hw' Hl Hf) as (? & L2 & ? & ? & Hk').
    split; [done|]. exists L2. split_and!; [done..|]. by apply IH.
  - intros b. by apply IH.
Qed.

Lemma keeps_sec {B} t L (f : W -> option (W * B)) (Q : B -> W -> Prop) :
  (forall b, assertion t (Q b)) ->
  (forall w w' b, inv w -> inv w' -> L w -> f w = Some (w', b) -> guar t w w' /\ Q b w') ->
  keeps t L (sec f) Q.
Proof.
  intros Hst Hf w w' b Hw Hw' Hl Hfw. destruct (Hf w w' b Hw Hw' Hl Hfw) as [? ?].
  split; [done|]. exists (Q b). split_and!; [apply Hst|done|]. by intros ?.
Qed.

Lemma keeps_ext {B} t L (f f' : W -> option (W * B)) Q :
  (forall w, f w = f' w) -> keeps t L (sec f) Q -> keeps t L (sec f') Q.
Proof. intros Hf Hok w w' b Hw Hw' Hl. rewrite <- Hf. by apply Hok. Qed.

Lemma keeps_sec_inv {B} t L (f : W -> option (W * B)) Q w w' b :
  keeps t L (sec f) Q -> inv w -> inv w' -> L w -> f w = Some (w', b) -> guar t w w' /\ Q b w'.
Proof.
  intros Hk Hw Hw' Hl Hf. destruct (Hk w w' b Hw Hw' Hl Hf) as (Hg & L' & _ & Hl' & Hret).
  split; [done|]. by apply Hret.
Qed.

(** What every result of a program satisfies, whatever the world does. *)
Fixpoint returns {A} (p : prog W A) (phi : A -> Prop) : Prop :=
  match p with
  | Ret a => phi a
  | Sec _ k => forall b, returns (k b) phi
  | Ask k => forall b, returns (k b) phi
  end.

Lemma returns_bind {A B} (p : prog W A) (k : A -> prog W B) psi phi :
  returns p psi -> (forall a, psi a -> returns (k a) phi) -> returns (bind p k) phi.
Proof. intros Hp Hk. induction p; simpl in *; auto. Qed.

Lemma returns_any {A} (p : prog W A) : returns p (fun _ => True).
Proof. by induction p; simpl. Qed.

Lemma returns_then {A B} (p : prog W A) (k : A -> prog W B) phi :
  (forall a, returns (k a) phi) -> returns (bind p k) phi.
Proof. intros Hk. eapply returns_bind; [apply returns_any|auto]. Qed.

Lemma keeps_returns {A} t L (p : prog W A) Q phi :
  keeps t L p Q -> returns p phi -> keeps t L p (fun a w => Q a w /\ phi a).
Proof.
  revert L. induction p as [a|B f k IH|k IH]; intros L Hok Hret.
  - intros w Hw Hl. split; [by apply Hok|done].
  - intros w w' b Hw Hw' Hl Hf. destruct (Hok w w' b Hw Hw' Hl Hf) as (? & L' & ? & ? & Hk).
    split; [done|]. exists L'. split_and!; [done..|]. by apply IH.
  - intros b. by apply IH.
Qed.

Lemma keeps_pure {A} t L (phi : Prop) (p : prog W A) Q :
  (phi -> keeps t L p Q) -> keeps t (fun w => L w /\ phi) p Q.
Proof.
  induction p as [a|B f k _|k IH]; intros Hp.
  - intros w Hw [Hl Hphi]. by apply Hp.
  - intros w w' b Hw Hw' [Hl Hphi]. by apply Hp.
  - intros b. apply IH. intros Hphi. by apply Hp.
Qed.

(** The assertions a thread starts and ends with. *)
Variable init final : nat -> W -> Prop.
Hypothesis init_assertion : forall t, assertion t (init t).
Hypothesis starts_keeps : forall t p, starts t p -> keeps t (init t) p (fun _ => final t).

Record pool_kept (c : W * gmap nat thread) : Prop := {
  kept_threads : forall t p, c.2 !! t = Some p ->
    exists L, assertion t L /\ L c.1 /\ keeps t L p (fun _ => final t);
  kept_others : forall t, c.2 !! t = None -> init t c.1;
}.

Lemma pool_keeps w0 c :
  (forall c', pool_reach starts w0 c' -> inv c'.1) -> (forall t, init t w0) ->
  pool_reach starts w0 c -> pool_kept c.
Proof.
  intros Hinv Hinit Hreach. induction Hreach as [|c c' Hreach IH Hstep].
  { split; simpl; [|done]. intros t p Hp. by rewrite lookup_empty in Hp. }
  pose proof (Hinv _ Hreach) as Hw.
  pose proof (Hinv _ (pool_reach_step _ _ _ _ Hreach Hstep)) as Hw'.
  destruct IH as [Hthr Hoth].
  destruct Hstep as [w ps t p Ht Hs|w ps t B f k w' b Ht Hf|w ps t k b Ht]; simpl in *.
  - split; simpl.
    + intros t' p' [[<- <-]|[_ Hp']]%lookup_insert_Some; [|by apply Hthr].
      exists (init t). split_and!; [done|by apply Hoth|by apply starts_keeps].
    + intros t' [Ht' _]%lookup_insert_None. by apply Hoth.
  - destruct (Hthr t _ Ht) as (L & HL & Hlw & Hok).
    destruct (Hok w w' b Hw Hw' Hlw Hf) as (Hg & L' & HL' & Hlw' & Hk). split; simpl.
    + intros t' p' [[<- <-]|[Hne Hp']]%lookup_insert_Some; [by eauto|].
      destruct (Hthr t' p' Hp') as (L2 & HL2 & Hlw2 & Hok2). exists L2.
      split_and!; [done| |done]. by apply (proj1 HL2 t w w').
    + intros t' [Ht' Hne]%lookup_insert_None.
      by apply (proj1 (init_assertion t') t w w'), Hoth.
  - destruct (Hthr t _ Ht) as (L & HL & Hlw & Hok). split; simpl.
    + intros t' p' [[<- <-]|[_ Hp']]%lookup_insert_Some; [|by apply Hthr]. by exists L.
    + intros t' [Ht' _]%lookup_insert_None. by apply Hoth.
Qed.
End keeping.

(** Two proofs about one program. *)
Lemma keeps_both {W A} (inv inv1 inv2 : W -> Prop) (guar guar1 guar2 : nat -> W -> W -> Prop)
    (always always1 always2 : nat -> W -> Prop) t L1 L2 (p : prog W A) Q1 Q2 :
  (forall w, inv w -> inv1 w /\ inv2 w) ->
  (forall t w w', guar t w w' -> guar1 t w w' /\ guar2 t w w') ->
  (forall t w w', inv w -> inv w' -> guar1 t w w' -> guar2 t w w' -> guar t w w') ->
  (forall t w, always1 t w -> always2 t w -> always t w) ->
  keeps inv1 guar1 always1 t L1 p Q1 -> keeps inv2 guar2 always2 t L2 p Q2 ->
  keeps inv guar always t (fun w => L1 w /\ L2 w) p (fun a w => Q1 a w /\ Q2 a w).
Proof.
  intros Hinv Hsplit Hjoin Halways. revert L1 L2.
  induction p as [a|B f k IH|k IH]; intros L1 L2 H1 H2; simpl in *.
  - intros w [Hw1 Hw2]%Hinv [? ?]. auto.
  - intros w w' b Hw Hw' [Hl1 Hl2] Hf.
    destruct (Hinv _ Hw) as [Hi1 Hi2], (Hinv _ Hw') as [Hi1' Hi2'].
    destruct (H1 w w' b Hi1 Hi1' Hl1 Hf) as (Hg1 & L1' & [Hst1 Ha1] & Hl1' & Hk1).
    destruct (H2 w w' b Hi2 Hi2' Hl2 Hf) as (Hg2 & L2' & [Hst2 Ha2] & Hl2' & Hk2).
    split; [by apply Hjoin|]. exists (fun w => L1' w /\ L2' w). split_and!; [|done..|by apply IH].
    split; [|intros v [? ?]; auto]. intros t' v v' Hne Hg Hv Hv' [? ?].
    destruct (Hsplit _ _ _ Hg), (Hinv _ Hv), (Hinv _ Hv').
    split; [by eapply Hst1|by eapply Hst2].
  - intros b. apply IH; auto.
Qed.

(** ** What every section does

    A relation of all sections, whatever the results, holds along every run. *)
Section each.
Context {W : Type}.
Variable R : W -> W -> Prop.

Fixpoint each {A} (p : prog W A) : Prop :=
  match p with
  | Ret _ => True
  | Sec f k => (forall w w' b, f w = Some (w', b) -> R w w') /\ forall b, each (k b)
  | Ask k => forall b, each (k b)
  end.

Lemma each_sec {B} (f : W -> option (W * B)) :
  (forall w w' b, f w = Some (w', b) -> R w w') -> each (sec f).
Proof. by split. Qed.

Lemma each_bind {A B} (p : prog W A) (k : A -> prog W B) :
  each p -> (forall a, each (k a)) -> each (bind p k).
Proof. intros Hp Hk. induction p; simpl in *; [done| |auto]. destruct Hp. auto. Qed.

Variable starts : nat -> prog W unit -> Prop.
Hypothesis starts_each : forall t p, starts t p -> each p.

Definition each_thread (c : W * gmap nat (prog W unit)) : Prop :=
  forall t p, c.2 !! t = Some p -> each p.

Lemma step_each c c' :
  each_thread c -> pool_step starts c c' -> each_thread c' /\ (c'.1 = c.1 \/ R c.1 c'.1).
Proof.
  intros Hc Hstep.
  assert (Hinsert : forall w w' ps t p, each_thread (w, ps) -> each p -> each_thread (w', <[t := p]> ps)).
  { intros w w' ps t p Hps Hp t' p' Hp'. cbn [snd] in Hp'.
    apply lookup_insert_Some in Hp' as [[<- <-]|[_ Hp']]; [done|by apply (Hps t')]. }
  destruct Hstep as [w ps t p Ht Hs|w ps t B f k w' b Ht Hf|w ps t k b Ht]; cbn [fst].
  - split; [|by left]. eapply Hinsert; [exact Hc|by eapply starts_each].
  - destruct (Hc t _ Ht) as [HR Hk]. split; [eapply Hinsert; [exact Hc|apply Hk]|right; exact (HR _ _ _ Hf)].
  - split; [|by left]. eapply Hinsert; [exact Hc|by apply (Hc t _ Ht)].
Qed.

Lemma steps_each c c' :
  each_thread c -> rtc (pool_step starts) c c' -> each_thread c' /\ rtc R c.1 c'.1.
Proof.
  intros Hc Hsteps. induction Hsteps as [c|c1 c2 c3 Hstep _ IH]; [by split|].
  destruct (step_each _ _ Hc Hstep) as [Hc2 HR]. destruct (IH Hc2) as [Hc3 Hrtc]. split; [done|].
  destruct HR as [Heq|HR]; [by rewrite <- Heq|by eapply rtc_l].
Qed.

Lemma reach_each w0 c : pool_reach starts w0 c -> each_thread c /\ rtc R w0 c.1.
Proof.
  induction 1 as [|c c' _ [IH Hrtc] Hstep]; [by split|].
  destruct (step_each _ _ IH Hstep) as [Hc' HR]. split; [done|].
  destruct HR as [->|HR]; [done|by eapply rtc_r].
Qed.
End each.

Lemma each_mono {W} (R R' : W -> W -> Prop) {A} (p : prog W A) :
  (forall w w', R w w' -> R' w w') -> each R p -> each R' p.
Proof.
  intros HR. induction p as [a|B f k IH|k IH]; simpl; [done| |auto].
  intros [Hf Hk]. split; [|auto]. intros w w' b Hw. by eapply HR, Hf.
Qed.

(** ** Programs run alone *)

Section alone.
Context {W : Type}.

(** Started in [P], the program returns, whatever it is answered, and the
    result and the world satisfy [Q]. *)
Definition hoare {A} (P : W -> Prop) (p : prog W A) (Q : A -> W -> Prop) : Prop :=
  forall answer w, P w -> exists w' a, run answer p w = Some (w', a) /\ Q a w'.

Lemma hoare_ret {A} (P : W -> Prop) (a : A) (Q : A -> W -> Prop) :
  (forall w, P w -> Q a w) -> hoare P (Ret a) Q.
Proof. intros HQ answer w Hw. exists w, a. auto. Qed.

Lemma hoare_sec {B} (P : W -> Prop) (f : W -> option (W * B)) (Q : B -> W -> Prop) :
  (forall w, P w -> exists w' b, f w = Some (w', b) /\ Q b w') -> hoare P (sec f) Q.
Proof.
  intros Hf answer w Hw. destruct (Hf w Hw) as (w' & b & Hfw & HQ).
  exists w', b. simpl. by rewrite Hfw.
Qed.

Lemma hoare_ask (P : W -> Prop) : hoare P ask (fun _ => P).
Proof. intros answer w Hw. by exists w, answer. Qed.

Lemma hoare_bind {A B} P (p : prog W A) (k : A -> prog W B) Q Q' :
  hoare P p Q -> (forall a, hoare (Q a) (k a) Q') -> hoare P (bind p k) Q'.
Proof.
  intros Hp Hk answer w Hw. destruct (Hp answer w Hw) as (w' & a & Hrun & HQ).
  destruct (Hk a answer w' HQ) as (w'' & b & Hrun' & HQ').
  exists w'', b. by rewrite run_bind, Hrun.
Qed.

Lemma hoare_weaken {A} (P P' : W -> Prop) (p : prog W A) (Q Q' : A -> W -> Prop) :
  (forall w, P' w -> P w) -> (forall a w, Q a w -> Q' a w) ->
  hoare P p Q -> hoare P' p Q'.
Proof.
  intros HP HQ Hp answer w Hw. destruct (Hp answer w (HP w Hw)) as (w' & a & ? & ?).
  exists w', a. auto.
Qed.

(** A program proved for all interleavings also returns when run alone, from
    a world in which nobody else holds the lock. *)
Lemma ok_alone {A} inv guar holder
    (guar_holder : forall t t' (w w' : W), guar t w w' -> t <> t' ->
       (holder w' = Some t' <-> holder w = Some t'))
    t L (p : prog W A) Q :
  ok inv guar holder (fun _ _ => False) t L p Q ->
  hoare (fun w => inv w /\ L w /\ forall t', t' <> t -> holder w <> Some t') p
        (fun a w => inv w /\ Q a w /\ forall t', t' <> t -> holder w <> Some t').
Proof.
  intros Hok answer. revert L Hok. induction p as [a|B f k IH|k IH]; intros L Hok w (Hw & Hl & Hh).
  - exists w, a. split_and!; auto.
  - specialize (Hok w Hw Hl). simpl. destruct (f w) as [[w' b]|].
    + destruct Hok as (Hw' & Hg & L' & _ & Hl' & Hok). apply (IH b L' Hok). split_and!; [done..|].
      intros t' Hne Ht'. apply (Hh t' Hne). apply (guar_holder t t' w w' Hg); auto.
    + destruct Hok as [(t' & Hne & Ht')|[_ []]]. by destruct (Hh t' Hne).
  - simpl. by apply (IH answer L); [apply Hok|].
Qed.
End alone.
