(* ===== verification/Simulation.v ===== *)
(** * Programs over one state that follow programs over another

    A component of the server owns a larger state than its tasks know: the
    snapshot writer's channel around the shared world, the limiters of the
    HTTP side around both.  Here a program over the larger state follows one
    over the smaller: each of its sections is some steps of the smaller
    program, or leaves the smaller state alone.  Then every interleaving of
    programs over the larger state is, seen on the smaller, an interleaving of
    the programs they follow. *)
From S2P Require Import Prelude.
From S2P Require Import Threads.

Section simulation.
Context {S W : Type}.
Variable view : S -> W.

(** ** One task *)

(** A step of a task that runs beside others. *)
Inductive task_step {A} : W * prog W A -> W * prog W A -> Prop :=
| task_section w B (f : W -> option (W * B)) k w' b :
    f w = Some (w', b) -> task_step (w, Sec f k) (w', k b)
| task_answer w k b : task_step (w, Ask k) (w, k b).

(** Each section of [q] is matched by some steps of [p]; if [exact], [p] ends
    as [q] does. *)
Fixpoint simulates {A} (exact : bool) (q : prog S A) (p : prog W A) : Prop :=
  match q with
  | Ret a => exact = true -> p = Ret a
  | Sec f k => forall s s' b, f s = Some (s', b) ->
      exists p', rtc task_step (view s, p) (view s', p') /\ simulates exact (k b) p'
  | Ask k => forall s b,
      exists p', rtc task_step (view s, p) (view s, p') /\ simulates exact (k b) p'
  end.

Lemma task_steps_bind {A B} (k : A -> prog W B) c c' :
  rtc task_step c c' -> rtc task_step (c.1, bind c.2 k) (c'.1, bind c'.2 k).
Proof.
  induction 1 as [|c1 c2 c3 Hstep _ IH]; [done|]. eapply rtc_l; [|exact IH].
  destruct Hstep as [w C f k' w' b Hf|w k' b]; simpl.
  - by apply (task_section w C f (fun b => bind (k' b) k)).
  - apply (task_answer w (fun b => bind (k' b) k)).
Qed.

Lemma simulates_bind {A B} exact (q : prog S A) (p : prog W A)
    (kq : A -> prog S B) (kp : A -> prog W B) :
  simulates true q p -> (forall a, simulates exact (kq a) (kp a)) ->
  simulates exact (bind q kq) (bind p kp).
Proof.
  intros Hq Hk. revert p Hq. induction q as [a|C f k IH|k IH]; intros p Hq; simpl in *.
  - by rewrite (Hq eq_refl).
  - intros s s' b Hf. destruct (Hq s s' b Hf) as (p' & Hsteps & Hp').
    exists (bind p' kp). split; [|by apply IH]. by apply (task_steps_bind kp) in Hsteps.
  - intros s b. destruct (Hq s b) as (p' & Hsteps & Hp').
    exists (bind p' kp). split; [|by apply IH]. by apply (task_steps_bind kp) in Hsteps.
Qed.

(** What follows the end of [p] is not matched by anything. *)
Lemma simulates_after {A} exact (q : prog S A) (p : prog W A) (k : A -> prog S A) :
  simulates true q p -> (forall a, simulates exact (k a) (Ret a)) -> simulates exact (bind q k) p.
Proof.
  intros Hq Hk. revert p Hq. induction q as [a|C f k' IH|k' IH]; intros p Hq; simpl in *.
  - by rewrite (Hq eq_refl).
  - intros s s' b Hf. destruct (Hq s s' b Hf) as (p' & Hsteps & Hp'). exists p'. auto.
  - intros s b. destruct (Hq s b) as (p' & Hsteps & Hp'). exists p'. auto.
Qed.

(** A section that leaves the smaller state alone. *)
Lemma simulates_stutter {A B} exact (f : S -> option (S * B)) k (p : prog W A) :
  (forall s s' b, f s = Some (s', b) -> view s' = view s) ->
  (forall b, simulates exact (k b) p) -> simulates exact (Sec f k) p.
Proof. intros Hf Hk s s' b Hs. exists p. rewrite (Hf _ _ _ Hs). by split. Qed.

(** A section of the smaller program done on the larger state. *)
Lemma simulates_section {A B} exact (f : S -> option (S * B)) (g : W -> option (W * B)) k
    (k' : B -> prog W A) :
  (forall s s' b, f s = Some (s', b) -> g (view s) = Some (view s', b)) ->
  (forall b, simulates exact (k b) (k' b)) -> simulates exact (Sec f k) (Sec g k').
Proof.
  intros Hf Hk s s' b Hs. exists (k' b). split; [|apply Hk]. apply rtc_once. constructor. by apply Hf.
Qed.

(** ** A task that may not have started

    [q] leaves the smaller state alone until it starts a program that it
    follows, if it ever does. *)
Fixpoint may_follow (may : prog W unit -> Prop) (exact : bool) (q : prog S unit) : Prop :=
  (exists p, may p /\ simulates exact q p)
  \/ match q with
     | Ret _ => True
     | Sec f k => forall s s' b, f s = Some (s', b) ->
         view s' = view s /\ may_follow may exact (k b)
     | Ask k => forall b, may_follow may exact (k b)
     end.

Lemma may_follow_start may exact q p : may p -> simulates exact q p -> may_follow may exact q.
Proof. intros Hp Hq. destruct q; left; by exists p. Qed.

Lemma may_follow_stutter {B} may exact (f : S -> option (S * B)) k :
  (forall s s' b, f s = Some (s', b) -> view s' = view s) ->
  (forall b, may_follow may exact (k b)) -> may_follow may exact (Sec f k).
Proof. intros Hf Hk. right. intros s s' b Hs. split; [by eapply Hf|apply Hk]. Qed.

Lemma may_follow_ret may exact u : may_follow may exact (Ret u).
Proof. by right. Qed.

(** ** All tasks *)

Variable starts : nat -> prog S unit -> Prop.
Variable starts' : nat -> prog W unit -> Prop.
(** Whether task [t] ends as the one it follows. *)
Variable exact : nat -> bool.
Hypothesis starts_follow : forall t q, starts t q -> may_follow (starts' t) (exact t) q.

(** The two pools. *)
Record matched (ps : gmap nat (prog S unit)) (ps' : gmap nat (prog W unit)) : Prop := {
  mt_none : forall t, ps !! t = None -> ps' !! t = None;
  mt_some : forall t q, ps !! t = Some q ->
    match ps' !! t with
    | Some p => simulates (exact t) q p
    | None => may_follow (starts' t) (exact t) q
    end;
}.

Lemma task_steps_pool (ps : gmap nat (prog W unit)) t w0 c w' p' :
  ps !! t = Some c.2 -> pool_reach starts' w0 (c.1, ps) -> rtc task_step c (w', p') ->
  exists ps', pool_reach starts' w0 (w', ps') /\ ps' !! t = Some p'
    /\ (forall t', t' <> t -> ps' !! t' = ps !! t').
Proof.
  intros Ht Hreach Hsteps. remember (w', p') as c' eqn:Hc'. revert ps Ht Hreach.
  induction Hsteps as [c|c1 c2 c3 Hstep _ IH]; intros ps Ht Hreach; subst.
  { by exists ps. }
  destruct (IH eq_refl (<[t := c2.2]> ps)) as (ps2 & ? & ? & Hoth); [by rewrite lookup_insert_eq| |].
  { eapply pool_reach_step; [exact Hreach|].
    destruct Hstep; simpl in *; [by eapply step_section|by apply step_answer]. }
  exists ps2. split_and!; [done..|]. intros t' Hne. rewrite Hoth by done. by rewrite lookup_insert_ne.
Qed.

Lemma matched_insert ps ps' ps2 t q o :
  matched ps ps' -> ps2 !! t = o -> (forall t', t' <> t -> ps2 !! t' = ps' !! t') ->
  match o with
  | Some p => simulates (exact t) q p
  | None => may_follow (starts' t) (exact t) q
  end ->
  matched (<[t := q]> ps) ps2.
Proof.
  intros [Hnone Hsome] Ho Hoth Hq. split.
  - intros t2 [? ?]%lookup_insert_None. rewrite Hoth by done. auto.
  - intros t2 q2 [[<- <-]|[? Hq2]]%lookup_insert_Some; [by rewrite Ho|]. rewrite Hoth by done.
    exact (Hsome t2 q2 Hq2).
Qed.

(** Steps of the program that task [t] follows. *)
Lemma matched_steps ps ps' t q p w w' w0 :
  matched ps ps' -> pool_reach starts' w0 (w, ps') -> ps' !! t = Some p ->
  (exists p', rtc task_step (w, p) (w', p') /\ simulates (exact t) q p') ->
  exists ps2, pool_reach starts' w0 (w', ps2) /\ matched (<[t := q]> ps) ps2.
Proof.
  intros Hm Hreach Hp (p' & Hsteps & Hsim).
  destruct (task_steps_pool ps' t w0 (w, p) w' p' Hp Hreach Hsteps) as (ps2 & Hreach' & Hp' & Hoth).
  exists ps2. split; [done|]. by eapply matched_insert.
Qed.

(** One step of task [t], from [q] to [q']. *)
Lemma matched_step ps ps' t q q' s s' w0 :
  matched ps ps' -> pool_reach starts' w0 (view s, ps') -> ps !! t = Some q ->
  (forall p, simulates (exact t) q p ->
     exists p', rtc task_step (view s, p) (view s', p') /\ simulates (exact t) q' p') ->
  ((exists p, starts' t p /\ simulates (exact t) q p)
   \/ view s' = view s /\ may_follow (starts' t) (exact t) q' \/ is_Some (ps' !! t)) ->
  exists ps2, pool_reach starts' w0 (view s', ps2) /\ matched (<[t := q']> ps) ps2.
Proof.
  intros Hm Hreach Ht Hstep Hcase. pose proof (mt_some _ _ Hm t q Ht) as Hq.
  destruct (ps' !! t) as [p|] eqn:Hp; [by eapply matched_steps; eauto|].
  destruct Hcase as [(p & Hp' & Hsim)|[[Hv Hf]|[p ?]]]; [| |done].
  - assert (Hm' : matched (<[t := q]> ps) (<[t := p]> ps')).
    { eapply matched_insert; [exact Hm|apply lookup_insert_eq|by intros; rewrite lookup_insert_ne|done]. }
    destruct (matched_steps _ _ t q' p (view s) (view s') w0 Hm') as (ps2 & ? & Hm2).
    + eapply pool_reach_step; [exact Hreach|by apply step_start].
    + apply lookup_insert_eq.
    + by apply Hstep.
    + exists ps2. by rewrite insert_insert_eq in Hm2.
  - exists ps'. rewrite Hv. split; [done|]. by eapply matched_insert.
Qed.

Lemma pool_matched s0 s ps :
  pool_reach starts s0 (s, ps) ->
  exists ps', pool_reach starts' (view s0) (view s, ps') /\ matched ps ps'.
Proof.
  intros Hreach. remember (s, ps) as c eqn:Hc. revert s ps Hc.
  induction Hreach as [|c c' Hreach IH Hstep]; intros s ps Hc.
  { injection Hc as <- <-. exists ∅. split; [constructor|]. split; [done|].
    intros t q Hq. by rewrite lookup_empty in Hq. }
  destruct Hstep as [s1 ps1 t q Ht Hq|s1 ps1 t B f k s' b Ht Hf|s1 ps1 t k b Ht];
    injection Hc as <- <-; destruct (IH _ _ eq_refl) as (ps' & Hreach' & Hm).
  - exists ps'. split; [done|]. eapply matched_insert; [exact Hm|by apply Hm|done|by apply starts_follow].
  - eapply (matched_step _ _ t _ _ s1 s'); [done..| |].
    + intros p Hsim. by apply (Hsim s1 s' b).
    + pose proof (mt_some _ _ Hm t _ Ht) as Hq. destruct (ps' !! t) as [p|]; [right; right; by eexists|].
      destruct Hq as [?|Hq]; [by left|]. right. left. by apply (Hq s1 s' b).
  - eapply (matched_step _ _ t _ _ s1 s1); [done..| |].
    + intros p Hsim. by apply (Hsim s1 b).
    + pose proof (mt_some _ _ Hm t _ Ht) as Hq. destruct (ps' !! t) as [p|]; [right; right; by eexists|].
      destruct Hq as [?|Hq]; [by left|]. right. left. by split.
Qed.
End simulation.
