(* ===== verification/World.v ===== *)
(** * The shared world

    What the tasks of the server share: the rooms behind their [Arc]s, the
    room table behind its [RwLock], the per-owner quota behind its mutex, the
    log store, and the channels.  A room's [Arc] is the number under which
    [w_heap] keeps the state that its mutex protects.  [w_actions] records the
    operations on channels and cancellation tokens in the order they happen;
    [w_writer] is the thread that holds the write lock of the room table over
    several sections. *)
From S2P Require Import Prelude.
From S2P Require Import Protocol.
From S2P Require Import Room.
From S2P Require Import Logs.
From S2P Require Import Threads.

(** [try_send] on an outbound channel, [cancel] on a token, and the two
    notifications to the snapshot writer. *)
Inductive Action :=
| TrySend (tx : Sender) (msg : ServerMessage)
| Cancel (token : CancellationToken)
| Mutate
| Terminal.

Record World := {
  w_heap : gmap nat RoomState;
  w_next_ref : nat;
  w_rooms : gmap string nat;
  w_writer : option nat;
  w_rooms_per_ip : gmap string nat;
  w_logs : LogStore;
  w_actions : list Action;
  w_next_token : CancellationToken;
}.

Definition empty_world : World :=
  {| w_heap := ∅; w_next_ref := 0; w_rooms := ∅; w_writer := None; w_rooms_per_ip := ∅;
     w_logs := new_log_store; w_actions := []; w_next_token := 0 |}.

Definition set_heap (w : World) (h : gmap nat RoomState) : World :=
  {| w_heap := h; w_next_ref := w_next_ref w; w_rooms := w_rooms w; w_writer := w_writer w;
     w_rooms_per_ip := w_rooms_per_ip w; w_logs := w_logs w; w_actions := w_actions w;
     w_next_token := w_next_token w |}.
Definition set_rooms (w : World) (rs : gmap string nat) : World :=
  {| w_heap := w_heap w; w_next_ref := w_next_ref w; w_rooms := rs; w_writer := w_writer w;
     w_rooms_per_ip := w_rooms_per_ip w; w_logs := w_logs w; w_actions := w_actions w;
     w_next_token := w_next_token w |}.
Definition set_writer (w : World) (t : option nat) : World :=
  {| w_heap := w_heap w; w_next_ref := w_next_ref w; w_rooms := w_rooms w; w_writer := t;
     w_rooms_per_ip := w_rooms_per_ip w; w_logs := w_logs w; w_actions := w_actions w;
     w_next_token := w_next_token w |}.
Definition set_rooms_per_ip (w : World) (q : gmap string nat) : World :=
  {| w_heap := w_heap w; w_next_ref := w_next_ref w; w_rooms := w_rooms w;
     w_writer := w_writer w; w_rooms_per_ip := q; w_logs := w_logs w;
     w_actions := w_actions w; w_next_token := w_next_token w |}.
Definition set_logs (w : World) (l : LogStore) : World :=
  {| w_heap := w_heap w; w_next_ref := w_next_ref w; w_rooms := w_rooms w;
     w_writer := w_writer w; w_rooms_per_ip := w_rooms_per_ip w; w_logs := l;
     w_actions := w_actions w; w_next_token := w_next_token w |}.
Definition set_actions (w : World) (l : list Action) : World :=
  {| w_heap := w_heap w; w_next_ref := w_next_ref w; w_rooms := w_rooms w;
     w_writer := w_writer w; w_rooms_per_ip := w_rooms_per_ip w; w_logs := w_logs w;
     w_actions := l; w_next_token := w_next_token w |}.
Definition set_next_token (w : World) (n : CancellationToken) : World :=
  {| w_heap := w_heap w; w_next_ref := w_next_ref w; w_rooms := w_rooms w;
     w_writer := w_writer w; w_rooms_per_ip := w_rooms_per_ip w; w_logs := w_logs w;
     w_actions := w_actions w; w_next_token := n |}.
(** [Arc::new(Room::new(state))]. *)
Definition alloc (w : World) (st : RoomState) : World * nat :=
  ({| w_heap := <[w_next_ref w := st]> (w_heap w); w_next_ref := S (w_next_ref w);
      w_rooms := w_rooms w; w_writer := w_writer w; w_rooms_per_ip := w_rooms_per_ip w;
      w_logs := w_logs w; w_actions := w_actions w; w_next_token := w_next_token w |},
   w_next_ref w).

(** ** Sections *)

(** [room.state.lock().await]: what is done while the room is locked. *)
Definition with_room {B} (r : nat) (g : RoomState -> RoomState * B) (w : World)
    : option (World * B) :=
  match w_heap w !! r with
  | Some st => let '(st, b) := g st in Some (set_heap w (<[r := st]> (w_heap w)), b)
  | None => None
  end.

(** The same for an operation that may admit a peer, which creates the peer's
    cancellation token. *)
Definition with_room_token {B} (r : nat)
    (g : RoomState -> CancellationToken -> RoomState * B) (w : World) : option (World * B) :=
  with_room r (fun st => g st (w_next_token w)) (set_next_token w (S (w_next_token w))).

(** [rooms.read().await] and [rooms.write().await] for the length of one
    section. *)
Definition with_rooms {B} (g : World -> World * B) (w : World) : option (World * B) :=
  match w_writer w with None => Some (g w) | Some _ => None end.

(** [rooms.write().await] with the guard kept, and its drop. *)
Definition lock_rooms {B} (t : nat) (g : gmap string nat -> B) (w : World)
    : option (World * B) :=
  match w_writer w with
  | None => Some (set_writer w (Some t), g (w_rooms w))
  | Some _ => None
  end.
Definition unlock_rooms (w : World) : option (World * unit) := Some (set_writer w None, tt).

(** Work under a guard that is already held. *)
Definition locked {B} (g : World -> World * B) (w : World) : option (World * B) := Some (g w).

(** [rooms_per_ip.lock().await]. *)
Definition with_quota {B} (g : gmap string nat -> gmap string nat * B) (w : World)
    : option (World * B) :=
  let '(q, b) := g (w_rooms_per_ip w) in Some (set_rooms_per_ip w q, b).

(** [entries.lock().await] of the log store. *)
Definition with_logs {B} (g : LogStore -> LogStore * B) (w : World) : option (World * B) :=
  let '(l, b) := g (w_logs w) in Some (set_logs w l, b).

Definition perform (a : Action) (w : World) : option (World * unit) :=
  Some (set_actions w (w_actions w ++ [a]), tt).

(** Operations on channels happen one by one. *)
Fixpoint perform_all (l : list Action) : prog World unit :=
  match l with
  | [] => Ret tt
  | a :: l => sec (perform a) ;! perform_all l
  end.

(** ** Tasks that use the log store alone *)
Fixpoint logs_only {A} (p : prog World A) : Prop :=
  match p with
  | Ret _ => True
  | Sec f k => (forall w, exists l b, f w = Some (set_logs w l, b)) /\ forall b, logs_only (k b)
  | Ask _ => False
  end.

Lemma logs_only_bind {A B} (p : prog World A) (k : A -> prog World B) :
  logs_only p -> (forall a, logs_only (k a)) -> logs_only (bind p k).
Proof. intros Hp Hk. induction p; simpl in *; [done| |done]. destruct Hp as [? ?]. auto. Qed.

Lemma logs_only_sec {B} (g : LogStore -> LogStore * B) : logs_only (sec (with_logs g)).
Proof.
  split; [|done]. intros w. unfold with_logs. destruct (g (w_logs w)) as [l b]. by exists l, b.
Qed.
