(* ===== verification/Registry.v ===== *)
(** * The room table: [registry.rs], and [Room]'s two-phase [leave]

    Each function is the program of its critical sections, in the order and
    with the extent they have in the source: [create] keeps the write lock of
    the table from its first section to its last, and locks the room it finds
    once for each of its questions. *)
From S2P Require Import Prelude.
From S2P Require Import Protocol.
From S2P Require Import Ids.
From S2P Require Import HostTransfer.
From S2P Require Import Room.
From S2P Require Import Snapshot.
From S2P Require Import Threads.
From S2P Require Import World.

Definition MAX_ROOMS_PER_IP : nat := 3.
Definition MAX_RETAINED_ROOMS : nat := 2000.

(** ** The per-owner quota *)

Definition release_quota (quota : gmap string nat) (owner_ip_key : string) : gmap string nat :=
  match quota !! owner_ip_key with
  | None => quota
  | Some count =>
    let count := if 0 <? count then count - 1 else count in
    let quota := <[owner_ip_key := count]> quota in
    if count =? 0 then delete owner_ip_key quota else quota
  end.

Definition claim_quota (quota : gmap string nat) (owner_ip_key : string)
    : gmap string nat * bool :=
  let count := default 0 (quota !! owner_ip_key) in
  if MAX_ROOMS_PER_IP <=? count then (<[owner_ip_key := count]> quota, false)
  else (<[owner_ip_key := count + 1]> quota, true).

Definition release_room_quota (owner_ip_key : string) : prog World unit :=
  sec (with_quota (fun quota => (release_quota quota owner_ip_key, tt))).

Definition try_claim_room_quota (owner_ip_key : string) : prog World bool :=
  sec (with_quota (fun quota => claim_quota quota owner_ip_key)).

Definition record_mutation : prog World unit := sec (perform Mutate).

(** The request for a durable write, and its outcome. *)
Definition record_terminal_mutation : prog World bool := sec (perform Terminal) ;! ask.

(** [rooms.get(id) == Some(room)], then remove. *)
Definition remove_entry_if (r : nat) (w : World) : World * bool :=
  match w_heap w !! r with
  | Some st =>
    if w_rooms w !! session_id st == Some r
    then (set_rooms w (delete (session_id st) (w_rooms w)), true)
    else (w, false)
  | None => (w, false)
  end.

Section registry.
Context `{HashIter} `{CryptoLib}.

(** ** Lookups *)

Definition get (sid : string) : prog World (option nat) :=
  sec (with_rooms (fun w => (w, w_rooms w !! sid))).

Definition all_rooms : prog World (list nat) :=
  sec (with_rooms (fun w => (w, hm_values (w_rooms w)))).

Definition room_count : prog World nat :=
  sec (with_rooms (fun w => (w, size (w_rooms w)))).

(** ** Restart *)

(** The table lock and the quota lock are both held throughout, before any
    client is served. *)
Definition restore_room (w : World) (r : RestoredRoom) : World :=
  let owner_ip_key := "" in
  let '(w, ref) := alloc w
    (restore (rst_session_id r) (rst_host_peer_id r) (rst_host_verifier r) owner_ip_key
       (rst_reservations r) (rst_created_at r) (rst_last_activity_at r)) in
  let w := set_rooms w (<[rst_session_id r := ref]> (w_rooms w)) in
  set_rooms_per_ip w
    (<[owner_ip_key := default 0 (w_rooms_per_ip w !! owner_ip_key) + 1]> (w_rooms_per_ip w)).

Definition restore_rooms (restored : list RestoredRoom) (w : World) : World :=
  foldl restore_room w restored.

(** ** Removal *)

Definition remove_if_current (room : nat) : prog World bool :=
  let! removed := sec (with_rooms (remove_entry_if room)) in
  if removed then
    let! owner := sec (with_room room (fun st => (st, owner_ip_key st))) in
    release_room_quota owner ;! Ret true
  else Ret false.

(** ** Creation *)

(** What follows the decision that the session id is free. *)
Definition insert_new_room (sid host_peer_id : string) (host_verifier : Verifier)
    (presented_token owner : string) (admission : Admission) (now : SystemTime)
    (w : World) : World * (nat * Effects) :=
  let '(st, effects) := new_room sid host_peer_id host_verifier presented_token owner
                          admission now (w_next_token w) in
  let '(w, room) := alloc (set_next_token w (S (w_next_token w))) st in
  (set_rooms w (<[sid := room]> (w_rooms w)), (room, effects)).

Definition create_fresh (sid host_peer_id : string) (host_verifier : Verifier)
    (presented_token owner : string) (admission : Admission) (now : SystemTime)
    : prog World (option nat * Effects) :=
  let! retained := sec (locked (fun w => (w, size (w_rooms w)))) in
  if MAX_RETAINED_ROOMS <=? retained
  then sec unlock_rooms ;! Ret (None, effects_error RateLimited "Too many retained rooms")
  else
  let! claimed := try_claim_room_quota owner in
  if negb claimed
  then sec unlock_rooms ;! Ret (None, effects_error RateLimited "Too many rooms created")
  else
  let! (room, effects) := sec (locked (insert_new_room sid host_peer_id host_verifier
                                         presented_token owner admission now)) in
  sec unlock_rooms ;!
  record_mutation ;!
  Ret (Some room, effects).

Definition create (t : nat) (sid host presented_token owner : string)
    (admission : Admission) (now : SystemTime) : prog World (option nat * Effects) :=
  match from_token presented_token with
  | None => Ret (None, effects_error InvalidMessage "Invalid reconnect token")
  | Some verifier =>
    let! found := sec (lock_rooms t (fun rooms => rooms !! sid)) in
    match found with
    | None => create_fresh sid host verifier presented_token owner admission now
    | Some existing =>
      let! idempotent := sec (with_room existing (fun st =>
        (st, negb (closing st) && (host_peer_id st == host)
             && matches (host_verifier st) verifier))) in
      if (idempotent : bool) then
        let! effects := sec (with_room_token existing (fun st cancel =>
          reconnect_host st admission presented_token now cancel)) in
        sec unlock_rooms ;!
        record_mutation ;!
        Ret (Some existing, effects)
      else
      let! reclaimable := sec (with_room existing (fun st => (st, is_reclaimable st))) in
      if negb reclaimable
      then sec unlock_rooms ;! Ret (None, effects_error RoomExists "Room already exists")
      else
      let! old_owner := sec (with_room existing (fun st => (st, owner_ip_key st))) in
      sec (with_room existing (fun st => (set_closing st true, tt))) ;!
      sec (locked (fun w => (set_rooms w (delete sid (w_rooms w)), tt))) ;!
      release_room_quota old_owner ;!
      create_fresh sid host verifier presented_token owner admission now
    end
  end.

(** ** The two-phase operations *)

Definition end_session (room : nat) (peer_id : string) (conn_id : N) (token : string)
    (protocol_version : N) : prog World Effects :=
  let! begun := sec (with_room room (fun st =>
    begin_end_session st peer_id conn_id token protocol_version)) in
  match begun with
  | Err effects => Ret effects
  | Ok (owner, guests) =>
    sec (with_rooms (remove_entry_if room)) ;!
    release_room_quota owner ;!
    let! persisted := record_terminal_mutation in
    sec (with_room room (fun st => finish_end_session st guests persisted))
  end.

(** [Room]'s wrappers of the operations on its state, one lock each. *)
Definition room_join_or_resume (room : nat) (msg : ClientMessage) (adm : Admission)
    (resume_only : bool) (now : SystemTime) (inow : Instant) : prog World Effects :=
  sec (with_room_token room (fun st cancel => join_or_resume st msg adm resume_only now inow cancel)).

Definition room_transfer_host (room : nat) (peer_id : string) (conn_id : N) (protocol_version : N)
    (target_peer_id : string) : prog World Effects :=
  sec (with_room room (fun st => transfer_host st peer_id conn_id protocol_version target_peer_id)).

Definition room_broadcast (room : nat) (sender_id : string) (conn_id : N) (payload : option RawValue)
    (now : SystemTime) : prog World Effects :=
  sec (with_room room (fun st => broadcast st sender_id conn_id payload now)).

Definition room_send_to (room : nat) (sender_id : string) (conn_id : N) (target_id : string)
    (payload : option RawValue) (now : SystemTime) : prog World Effects :=
  sec (with_room room (fun st => send_to st sender_id conn_id target_id payload now)).

Definition room_disconnect (room : nat) (peer_id : string) (conn_id : N) (now : SystemTime)
    (inow : Instant) : prog World Effects :=
  sec (with_room room (fun st => handle_disconnect st peer_id conn_id now inow)).

(** [Room::leave]. *)
Definition leave (room : nat) (peer_id : string) (conn_id : N) (token : string)
    (protocol_version : N) (now : SystemTime) : prog World Effects :=
  let! begun := sec (with_room room (fun st =>
    begin_leave st peer_id conn_id token protocol_version)) in
  match begun with
  | Err effects => Ret effects
  | Ok _ =>
    let! persisted := record_terminal_mutation in
    sec (with_room room (fun st => finish_leave st peer_id conn_id persisted now))
  end.

(** ** The capture of a snapshot *)

(** [clock r] is the pair of readings taken when room [r] is captured.  Only
    one room is locked at a time. *)
Fixpoint capture_rooms (clock : nat -> SystemTime * Instant) (rooms : list nat)
    (dtos : list RoomDto) : prog World (list RoomDto) :=
  match rooms with
  | [] => Ret dtos
  | room :: rooms =>
    let! captured := sec (with_room room (fun st =>
      (st, if closing st then None
           else Some (build_room_dto st (clock room).1 (clock room).2)))) in
    capture_rooms clock rooms
      (match captured with Some dto => dtos ++ [dto] | None => dtos end)
  end.

Definition build_snapshot (clock : nat -> SystemTime * Instant) : prog World (list RoomDto) :=
  let! rooms := all_rooms in
  capture_rooms clock rooms [].

(** What the snapshot writer does to the shared world, turn after turn; the
    answer tells whether the turn writes. *)
Fixpoint capture_run (clocks : list (nat -> SystemTime * Instant)) : prog World unit :=
  match clocks with
  | [] => Ret tt
  | clock :: clocks =>
    let! writes := ask in
    (if writes then build_snapshot clock ;! Ret tt else Ret tt) ;!
    capture_run clocks
  end.
End registry.
