(* ===== verification/Cleanup.v ===== *)
(** * The cleanup sweep: [cleanup.rs]

    [now] is the sweep's one reading of the wall clock; [inow r] is the reading
    of the monotonic clock taken when the room [r] is pruned. *)
From S2P Require Import Prelude.
From S2P Require Import Protocol.
From S2P Require Import Ids.
From S2P Require Import HostTransfer.
From S2P Require Import Room.
From S2P Require Import Logs.
From S2P Require Import Threads.
From S2P Require Import World.
From S2P Require Import Registry.

Definition CLEANUP_INTERVAL : Duration := from_secs (5 * 60).

Section cleanup.
Context `{HashIter} `{CryptoLib}.

(** What is decided under the room's lock: whether the room goes, whether
    anything changed, and the connections to cancel. *)
Definition sweep_state (now : SystemTime) (inow : Instant) (st : RoomState)
    : RoomState * (bool * bool * list CancellationToken) :=
  let '(st, pruned) := prune_expired_reservations st inow in
  let empty := connected_peer_count st =? 0 in
  let idle := idle_for st now in
  let age := age st now in
  let expired := (ROOM_MAX_AGE <? age)%Z in
  let remove := (empty && (EMPTY_ROOM_MAX_AGE <? idle)%Z) || expired in
  let '(st, evict) :=
    if remove then
      let st := set_closing st true in
      if expired && negb empty
      then (set_peers st ∅, cp_cancel <$> hm_values (peers st))
      else (st, [])
    else (st, []) in
  (st, (remove, pruned || remove, evict)).

Definition sweep_room (now : SystemTime) (inow : nat -> Instant) (room : nat)
    : prog World unit :=
  let! (remove, changed, evict) := sec (with_room room (sweep_state now (inow room))) in
  (if remove : bool then remove_if_current room ;! Ret tt else Ret tt) ;!
  (if changed : bool then record_mutation else Ret tt) ;!
  perform_all (Cancel <$> evict).

Fixpoint sweep_rooms (now : SystemTime) (inow : nat -> Instant) (rooms : list nat)
    : prog World unit :=
  match rooms with
  | [] => Ret tt
  | room :: rooms => sweep_room now inow room ;! sweep_rooms now inow rooms
  end.

Definition sweep (now : SystemTime) (inow : nat -> Instant) (inow_logs : Instant)
    : prog World unit :=
  let! rooms := all_rooms in
  sweep_rooms now inow rooms ;!
  sec (with_logs (fun l => (log_cleanup l now inow_logs, tt))).

(** The loop of [run], over the ticks of the timer. *)
Fixpoint cleanup_run (ticks : list (SystemTime * (nat -> Instant) * Instant))
    : prog World unit :=
  match ticks with
  | [] => Ret tt
  | (now, inow, inow_logs) :: ticks => sweep now inow inow_logs ;! cleanup_run ticks
  end.
End cleanup.
