(* ===== verification/Connection.v ===== *)
(** * The connection actor: [connection.rs]

    [Conn] is the part of the read loop's local state that decides what a
    message may do.  The handlers reply with [try_send] on the connection's own
    channel [tx]; [ip_key] is the client's address as a string.  The clock
    readings a handler takes are in [Clock]. *)
From S2P Require Import Prelude.
From S2P Require Import Protocol.
From S2P Require Import Ids.
From S2P Require Import HostTransfer.
From S2P Require Import Room.
From S2P Require Import NetAddr.
From S2P Require Import ClientIp.
From S2P Require Import Quotas.
From S2P Require Import Logs.
From S2P Require Import Threads.
From S2P Require Import World.
From S2P Require Import Registry.

Definition OUTBOUND_CHANNEL_CAPACITY : nat := 64.
Definition PING_INTERVAL : Duration := from_secs 30.
Definition PONG_WAIT : Duration := from_secs 60.

Record Conn := {
  current_room : option nat;
  current_peer_id : string;
  current_conn_id : N;
  current_cancel : option CancellationToken;
}.

Definition new_conn : Conn :=
  {| current_room := None; current_peer_id := ""; current_conn_id := 0; current_cancel := None |}.

(** [current_room], [current_peer_id] and [current_cancel] reset; the connection
    id is left as it is. *)
Definition leave_room (c : Conn) : Conn :=
  {| current_room := None; current_peer_id := ""; current_conn_id := current_conn_id c;
     current_cancel := None |}.

Record Clock := { ck_now : SystemTime; ck_inow : Instant }.

Definition pong : ServerMessage :=
  {| sm_msg_type := server_type.PONG; sm_session_id := None; sm_peer_id := None;
     sm_host_peer_id := None; sm_reconnect_token := None; sm_protocol_version := 0;
     sm_from := None; sm_peers := None; sm_features := None;
     sm_host_transfer_targets := None; sm_code := None; sm_message := None;
     sm_payload := None |}.

Definition protocol_mismatch : ServerMessage :=
  {| sm_msg_type := server_type.ERROR; sm_session_id := None; sm_peer_id := None;
     sm_host_peer_id := None; sm_reconnect_token := None;
     sm_protocol_version := RELAY_PROTOCOL_VERSION;
     sm_from := None; sm_peers := None; sm_features := None;
     sm_host_transfer_targets := None; sm_code := Some (code ProtocolMismatch);
     sm_message := Some "Unsupported relay protocol version"; sm_payload := None |}.

(** The operations of [apply_effects], in order. *)
Definition effect_actions (tx : Sender) (effects : Effects) : list Action :=
  match eff_reply effects with Some reply => [TrySend tx reply] | None => [] end
  ++ ((fun o => TrySend (ob_tx o) (ob_msg o)) <$> eff_broadcast effects)
  ++ ((fun e => Cancel (ev_cancel e)) <$> eff_evict effects)
  ++ (if eff_dirty effects then [Mutate] else []).

Definition apply_effects (tx : Sender) (effects : Effects) : prog World unit :=
  perform_all (effect_actions tx effects).

Definition admission_of (tx : Sender) (msg : ClientMessage) : Admission :=
  {| adm_peer_id := cm_peer_id msg;
     adm_tx := tx;
     adm_sync_protocol_version := cm_sync_protocol_version msg;
     adm_host_transfer_capable :=
       existsb (fun c => c == capability.HOST_TRANSFER) (cm_capabilities msg) |}.

(** A reply of the handler itself; the connection stays as it is. *)
Definition refuse (tx : Sender) (c : Conn) (msg : ServerMessage) : prog World Conn :=
  sec (perform (TrySend tx msg)) ;! Ret c.

Section connection.
Context `{HashIter} `{CryptoLib}.

Definition handle_create (t : nat) (tx : Sender) (ip_key : string) (ck : Clock)
    (msg : ClientMessage) (c : Conn) : prog World Conn :=
  if negb (valid_session_and_peer_id (cm_session_id msg) (cm_peer_id msg))
  then refuse tx c (into_message InvalidMessage "Invalid sessionId or peerId")
  else if negb (supported_protocol_version (cm_protocol_version msg))
  then refuse tx c protocol_mismatch
  else
  let! (room, effects) := create t (cm_session_id msg) (cm_peer_id msg)
    (cm_reconnect_token msg) ip_key (admission_of tx msg) (ck_now ck) in
  let c := match room, eff_assigned_conn_id effects with
           | Some room, Some conn_id =>
             {| current_room := Some room; current_peer_id := cm_peer_id msg;
                current_conn_id := conn_id; current_cancel := eff_assigned_cancel effects |}
           | _, _ => c
           end in
  apply_effects tx effects ;! Ret c.

Definition handle_join (tx : Sender) (ck : Clock) (msg : ClientMessage) (c : Conn)
    : prog World Conn :=
  let resume_only := cm_msg_type msg == client_type.RESUME in
  if negb (valid_session_and_peer_id (cm_session_id msg) (cm_peer_id msg))
  then refuse tx c (into_message InvalidMessage "Invalid sessionId or peerId")
  else
  let version_ok := supported_protocol_version (cm_protocol_version msg)
    && (negb resume_only || (cm_protocol_version msg == RELAY_PROTOCOL_VERSION)) in
  if negb version_ok then refuse tx c protocol_mismatch
  else
  let! found := get (cm_session_id msg) in
  match found with
  | None => refuse tx c (into_message RoomNotFound "Room does not exist")
  | Some room =>
    let! effects := room_join_or_resume room msg (admission_of tx msg) resume_only
      (ck_now ck) (ck_inow ck) in
    let c := match eff_assigned_conn_id effects with
             | Some conn_id =>
               {| current_room := Some room; current_peer_id := cm_peer_id msg;
                  current_conn_id := conn_id; current_cancel := eff_assigned_cancel effects |}
             | None => c
             end in
    apply_effects tx effects ;! Ret c
  end.

Definition handle_leave (tx : Sender) (ck : Clock) (msg : ClientMessage) (c : Conn)
    (room : nat) : prog World Conn :=
  let! effects := leave room (current_peer_id c) (current_conn_id c)
                    (cm_reconnect_token msg) (cm_protocol_version msg) (ck_now ck) in
  let failed := match eff_reply effects with
                | Some reply => bool_decide (is_Some (sm_code reply))
                | None => false
                end in
  let c := if negb failed then leave_room c else c in
  apply_effects tx effects ;! Ret c.

Definition handle_end_session (tx : Sender) (msg : ClientMessage) (c : Conn) (room : nat)
    : prog World Conn :=
  let! effects := end_session room (current_peer_id c) (current_conn_id c)
                    (cm_reconnect_token msg) (cm_protocol_version msg) in
  let c := leave_room c in
  apply_effects tx effects ;! Ret c.

Definition handle_transfer_host (tx : Sender) (msg : ClientMessage) (c : Conn) (room : nat)
    : prog World Conn :=
  if negb (valid_id (cm_to msg) MAX_PEER_ID_LENGTH)
  then refuse tx c (into_message InvalidMessage "Invalid to field")
  else
  let! effects := room_transfer_host room (current_peer_id c) (current_conn_id c)
    (cm_protocol_version msg) (cm_to msg) in
  apply_effects tx effects ;! Ret c.

Definition handle_broadcast (tx : Sender) (ck : Clock) (msg : ClientMessage) (c : Conn)
    (room : nat) : prog World Conn :=
  let! effects := room_broadcast room (current_peer_id c) (current_conn_id c) (cm_payload msg) (ck_now ck) in
  apply_effects tx effects ;! Ret c.

Definition handle_send_to (tx : Sender) (ck : Clock) (msg : ClientMessage) (c : Conn)
    (room : nat) : prog World Conn :=
  if negb (valid_id (cm_to msg) MAX_PEER_ID_LENGTH)
  then refuse tx c (into_message InvalidMessage "Invalid to field")
  else
  let! effects := room_send_to room (current_peer_id c) (current_conn_id c) (cm_to msg)
    (cm_payload msg) (ck_now ck) in
  apply_effects tx effects ;! Ret c.

(** [let Some(room) = current_room.clone() else { .. NotInRoom .. }]. *)
Definition in_room (tx : Sender) (c : Conn) (k : nat -> prog World Conn) : prog World Conn :=
  match current_room c with
  | None => refuse tx c (into_message NotInRoom "Not in a room")
  | Some room => k room
  end.

Definition is_transition (msg_type : string) : bool :=
  (msg_type == client_type.CREATE) || (msg_type == client_type.JOIN)
  || (msg_type == client_type.RESUME).

Definition handle_message (t : nat) (tx : Sender) (ip_key : string) (ck : Clock)
    (msg : ClientMessage) (c : Conn) : prog World Conn :=
  let msg_type := cm_msg_type msg in
  if msg_type == client_type.PING then refuse tx c pong
  else if is_transition msg_type && bool_decide (is_Some (current_room c))
  then refuse tx c (into_message AlreadyInRoom
                      "Leave the current room before creating or joining another")
  else if msg_type == client_type.CREATE then handle_create t tx ip_key ck msg c
  else if (msg_type == client_type.JOIN) || (msg_type == client_type.RESUME)
  then handle_join tx ck msg c
  else if msg_type == client_type.LEAVE then in_room tx c (handle_leave tx ck msg c)
  else if msg_type == client_type.END_SESSION then in_room tx c (handle_end_session tx msg c)
  else if msg_type == client_type.TRANSFER_HOST
  then in_room tx c (handle_transfer_host tx msg c)
  else if msg_type == client_type.BROADCAST then in_room tx c (handle_broadcast tx ck msg c)
  else if msg_type == client_type.SEND_TO then in_room tx c (handle_send_to tx ck msg c)
  else refuse tx c (into_message InvalidMessage "Unknown message type").

(** What follows the read loop. *)
Definition finish_connection (tx : Sender) (ck : Clock) (c : Conn) : prog World unit :=
  match current_room c with
  | None => Ret tt
  | Some room =>
    if current_peer_id c == "" then Ret tt
    else
    let! effects := room_disconnect room (current_peer_id c) (current_conn_id c) (ck_now ck) (ck_inow ck) in
    apply_effects tx effects
  end.

(** ** The read loop

    What [stream.next()] yields, as far as the loop can tell: a text frame with
    its length, and the message it decodes to if it does; the other frames; an
    error.  An arrival is a frame, the clock readings taken when it is handled,
    and whether [select!] takes it when another branch is ready as well. *)
Inductive Frame :=
| FText (len : N) (msg : option ClientMessage)
| FPing
| FPong
| FBinary
| FClose
| FError.

Record Arrival := { ar_frame : Frame; ar_clock : Clock; ar_first : bool }.

(** [current_cancel]'s [cancelled()], which is never ready without a token. *)
Definition is_cancelled (token : option CancellationToken) (w : World) : bool :=
  match token with
  | Some token => existsb (fun a => match a with Cancel tok => tok =? token | _ => false end) (w_actions w)
  | None => false
  end.
Definition poll_cancelled (token : option CancellationToken) : prog World bool :=
  sec (fun w => Some (w, is_cancelled token w)).

(** The list ends where no frame comes any more: the stream has ended, or the
    loop waits until the deadline or a cancellation ends it. *)
Fixpoint read_loop (t : nat) (tx : Sender) (ip_key : string) (msg_limiter : TokenBucket)
    (deadline : Instant) (arrivals : list Arrival) (c : Conn) : prog World Conn :=
  match arrivals with
  | [] => Ret c
  | a :: arrivals =>
    let ck := ar_clock a in
    let! cancelled := poll_cancelled (current_cancel c) in
    if (cancelled || (deadline <=? ck_inow ck)%Z) && negb (ar_first a) then Ret c
    else
    let deadline := (ck_inow ck + PONG_WAIT)%Z in
    match ar_frame a with
    | FError | FClose => Ret c
    | FPing | FPong | FBinary => read_loop t tx ip_key msg_limiter deadline arrivals c
    | FText len msg =>
      if (MAX_MESSAGE_SIZE <? len)%N
      then read_loop t tx ip_key msg_limiter deadline arrivals c
      else
      let '(msg_limiter, allowed) := allow_at msg_limiter (ck_inow ck) in
      if negb allowed then
        let! c := refuse tx c (into_message RateLimited "Too many messages") in
        read_loop t tx ip_key msg_limiter deadline arrivals c
      else
      match msg with
      | None =>
        let! c := refuse tx c (into_message InvalidMessage "Invalid JSON") in
        read_loop t tx ip_key msg_limiter deadline arrivals c
      | Some msg =>
        let! c := handle_message t tx ip_key ck msg c in
        read_loop t tx ip_key msg_limiter deadline arrivals c
      end
    end
  end.

(** [connection::run], from its opening at [opened] to its end; the write task
    it spawns is in [Outbound]. *)
Definition connection_run (t : nat) (tx : Sender) (ip_key : string) (opened : Instant)
    (arrivals : list Arrival) (closed : Clock) : prog World unit :=
  let msg_limiter := new_bucket PER_CONNECTION_MESSAGE_BURST PER_CONNECTION_MESSAGE_SUSTAINED
                       opened in
  let! c := read_loop t tx ip_key msg_limiter (opened + PONG_WAIT)%Z arrivals new_conn in
  finish_connection tx closed c.
End connection.
