(* ===== verification/Outbound.v ===== *)
(** * The write task: [connection::run]'s outbound channel and its reader

    Everybody who has something to tell a client puts it on the client's
    bounded channel with [try_send]; one task per connection takes messages off
    the channel and writes them, and the pings, to the socket. *)
From S2P Require Import Prelude.
From S2P Require Import Protocol.
From S2P Require Import Connection.

Inductive WsFrame := WsText (json : string) | WsPing.

(** The task is in its loop, closing the socket, or gone with the receiver. *)
Inductive TaskState := TaskLoop | TaskClosing | TaskGone.

#[export] Instance TaskState_eq_dec : EqDecision TaskState.
Proof. solve_decision. Defined.

(** The channel's queue, the task, the frames written to the socket, and (for
    the statements) the messages that [try_send] has accepted. *)
Record Outbound := {
  ob_queue : list ServerMessage;
  ob_task : TaskState;
  ob_wire : list WsFrame;
  ob_accepted : list ServerMessage;
}.

Definition new_outbound : Outbound :=
  {| ob_queue := []; ob_task := TaskLoop; ob_wire := []; ob_accepted := [] |}.

(** [tx.try_send(msg)]: refused by a full channel, and once the receiver is
    dropped. *)
Definition try_send (ob : Outbound) (msg : ServerMessage) : Outbound * bool :=
  if (ob_task ob == TaskGone) || (OUTBOUND_CHANNEL_CAPACITY <=? length (ob_queue ob))
  then (ob, false)
  else ({| ob_queue := ob_queue ob ++ [msg]; ob_task := ob_task ob; ob_wire := ob_wire ob;
           ob_accepted := ob_accepted ob ++ [msg] |}, true).

Definition set_task (ob : Outbound) (s : TaskState) : Outbound :=
  {| ob_queue := ob_queue ob; ob_task := s; ob_wire := ob_wire ob;
     ob_accepted := ob_accepted ob |}.

(** [sink.send(frame).await], and [break] when it fails. *)
Definition sink_send (ob : Outbound) (frame : WsFrame) (sent : bool) : Outbound :=
  if sent
  then {| ob_queue := ob_queue ob; ob_task := ob_task ob; ob_wire := ob_wire ob ++ [frame];
          ob_accepted := ob_accepted ob |}
  else set_task ob TaskClosing.

(** What happens to a channel: a [try_send] by anybody, a branch of the task's
    [select!] with the fate of the write, the end of [sink.close()], and the
    [abort] of the connection's read loop. *)
Inductive outbound_op :=
| OpTrySend (msg : ServerMessage)
| OpRecv (sent : bool)
| OpSendersGone
| OpPing (sent : bool)
| OpClosed
| OpAbort.

Section outbound.
(** serde_json on a message. *)
Variable to_string : ServerMessage -> option string.

(** A branch that is not ready is not taken. *)
Definition outbound_step (ob : Outbound) (op : outbound_op) : Outbound :=
  match op, ob_task ob with
  | OpTrySend msg, _ => (try_send ob msg).1
  | OpRecv sent, TaskLoop =>
    match ob_queue ob with
    | [] => ob
    | m :: queue =>
      let ob := {| ob_queue := queue; ob_task := ob_task ob; ob_wire := ob_wire ob;
                   ob_accepted := ob_accepted ob |} in
      match to_string m with
      | None => ob
      | Some json => sink_send ob (WsText json) sent
      end
    end
  | OpSendersGone, TaskLoop =>
    match ob_queue ob with [] => set_task ob TaskClosing | _ => ob end
  | OpPing sent, TaskLoop => sink_send ob WsPing sent
  | OpClosed, TaskClosing => set_task ob TaskGone
  | OpAbort, _ => set_task ob TaskGone
  | _, _ => ob
  end.

Definition run_outbound (ops : list outbound_op) (ob : Outbound) : Outbound :=
  foldl outbound_step ob ops.

(** ** What the client gets *)

Definition texts (wire : list WsFrame) : list string :=
  omap (fun f => match f with WsText json => Some json | WsPing => None end) wire.

(** The messages offered to the channel. *)
Definition offered (ops : list outbound_op) : list ServerMessage :=
  omap (fun op => match op with OpTrySend m => Some m | _ => None end) ops.

Record outbound_ok (ob : Outbound) : Prop := {
  ok_bounded : length (ob_queue ob) <= OUTBOUND_CHANNEL_CAPACITY;
  ok_loop : ob_task ob = TaskLoop ->
    omap to_string (ob_accepted ob) = texts (ob_wire ob) ++ omap to_string (ob_queue ob);
  ok_prefix : exists rest, omap to_string (ob_accepted ob) = texts (ob_wire ob) ++ rest;
}.

Lemma omap_snoc {A B} (f : A -> option B) l x :
  omap f (l ++ [x]) = omap f l ++ (match f x with Some y => [y] | None => [] end).
Proof. rewrite omap_app. simpl. by destruct (f x). Qed.

Lemma sink_send_ok ob frame sent :
  length (ob_queue ob) <= OUTBOUND_CHANNEL_CAPACITY ->
  omap to_string (ob_accepted ob)
    = texts (ob_wire ob) ++ texts [frame] ++ omap to_string (ob_queue ob) ->
  outbound_ok (sink_send ob frame sent).
Proof.
  intros Hlen Hacc. unfold sink_send.
  assert (Htexts : texts (ob_wire ob ++ [frame]) = texts (ob_wire ob) ++ texts [frame])
    by apply omap_app.
  destruct sent; split; cbn [ob_queue ob_task ob_wire ob_accepted set_task]; try done;
    rewrite ?Htexts, Hacc; intros; try eexists; by rewrite <- ?app_assoc.
Qed.

Lemma set_task_ok ob s : s <> TaskLoop -> outbound_ok ob -> outbound_ok (set_task ob s).
Proof. intros Hs [Hlen Hloop [rest Hrest]]. split; [done|done|by exists rest]. Qed.

Lemma try_send_ok ob msg : outbound_ok ob -> outbound_ok (try_send ob msg).1.
Proof.
  intros [Hlen Hloop [rest Hrest]]. unfold try_send.
  destruct (_ || _) eqn:Hfull; [split; [done..|by exists rest]|].
  apply orb_false_iff in Hfull as [_ Hroom%Nat.leb_gt].
  split; cbn [fst ob_queue ob_task ob_wire ob_accepted].
  - rewrite length_app. simpl. lia.
  - intros Ht. rewrite !omap_snoc, Hloop by done. by rewrite <- app_assoc.
  - rewrite omap_snoc, Hrest. eexists. by rewrite <- app_assoc.
Qed.

Lemma outbound_step_ok ob op : outbound_ok ob -> outbound_ok (outbound_step ob op).
Proof.
  intros Hok. destruct op as [msg|sent| |sent| |]; cbn [outbound_step];
    [by apply try_send_ok|destruct (ob_task ob) eqn:Htask; try done..|by apply set_task_ok].
  - pose proof (ok_loop _ Hok Htask) as Hloop. pose proof (ok_bounded _ Hok) as Hlen.
    destruct (ob_queue ob) as [|m queue] eqn:Hq; [done|]. cbn [omap list_omap] in Hloop.
    simpl in Hlen. destruct (to_string m) as [json|].
    + apply sink_send_ok; simpl; [lia|done].
    + split; simpl; [lia|done|by eexists].
  - destruct (ob_queue ob); [by apply set_task_ok|done].
  - apply sink_send_ok; [apply Hok|]. by rewrite (ok_loop _ Hok Htask).
  - by apply set_task_ok.
Qed.

Lemma run_outbound_ok ops ob : outbound_ok ob -> outbound_ok (run_outbound ops ob).
Proof.
  revert ob. induction ops as [|op ops IH]; intros ob Hok; [done|].
  by apply IH, outbound_step_ok.
Qed.

(** What a step does to the messages accepted, and to a task that has left its
    loop. *)
Lemma outbound_step_accepted ob op :
  ob_accepted (outbound_step ob op)
  = ob_accepted ob ++ match op with
      | OpTrySend m => if (try_send ob m).2 then [m] else []
      | _ => [] end.
Proof.
  destruct op as [msg|sent| |sent| |]; cbn [outbound_step]; unfold try_send, sink_send;
    repeat (case_match; simpl); by rewrite ?app_nil_r.
Qed.

Lemma outbound_step_left ob op :
  ob_task ob <> TaskLoop ->
  ob_task (outbound_step ob op) <> TaskLoop /\ ob_wire (outbound_step ob op) = ob_wire ob.
Proof.
  intros Ht. destruct op as [msg|sent| |sent| |]; cbn [outbound_step]; unfold try_send;
    repeat (case_match; simpl); split; simpl; congruence.
Qed.

Lemma run_outbound_left ops ob :
  ob_task ob <> TaskLoop -> ob_wire (run_outbound ops ob) = ob_wire ob.
Proof.
  revert ob. induction ops as [|op ops IH]; intros ob Ht; [done|].
  destruct (outbound_step_left ob op Ht) as [Ht' <-]. by apply IH.
Qed.

Lemma run_outbound_accepted ops ob :
  exists l, ob_accepted (run_outbound ops ob) = ob_accepted ob ++ l
    /\ l `sublist_of` offered ops
    /\ ((forall before m after, ops = before ++ OpTrySend m :: after ->
          (try_send (run_outbound before ob) m).2 = true) -> l = offered ops).
Proof.
  revert ob. induction ops as [|op ops IH]; intros ob.
  { exists []. split_and!; [by rewrite app_nil_r|done|done]. }
  destruct (IH (outbound_step ob op)) as (l & Hl & Hsub & Hall).
  rewrite outbound_step_accepted, <- app_assoc in Hl.
  assert (Hrest : (forall before m after, op :: ops = before ++ OpTrySend m :: after ->
            (try_send (run_outbound before ob) m).2 = true) -> l = offered ops).
  { intros Hacc. apply Hall. intros before m after Hops.
    apply (Hacc (op :: before) m after). by rewrite Hops. }
  eexists. split; [exact Hl|]. unfold offered. destruct op; cbn [omap list_omap];
    try by split; [done|intros Hacc; by rewrite Hrest].
  destruct (try_send ob msg).2 eqn:Hs.
  - split; [by constructor|]. intros Hacc. simpl. f_equal. by apply Hrest.
  - split; [by constructor|]. intros Hacc. specialize (Hacc [] msg ops eq_refl).
    simpl in Hacc. congruence.
Qed.

(** C32: a client gets what it was sent, in order, once.  Whatever is offered to
    its channel and however the write task, its failures and its end fall: the
    channel never holds more than its 64 messages; the texts on the socket are
    an initial part of the accepted messages, in the order they were accepted,
    none missing and none twice; while the task is in its loop nothing
    accepted is lost, it is on the socket or in the queue; everything offered
    is accepted if no [try_send] meets a full channel or a task that is gone;
    and once the task has left its loop, by a failed write, by the last sender
    going or by [abort], nothing more is written, the queue included. *)
Theorem outbound_delivery ops :
  let ob := run_outbound ops new_outbound in
  length (ob_queue ob) <= OUTBOUND_CHANNEL_CAPACITY
  /\ (exists rest, omap to_string (ob_accepted ob) = texts (ob_wire ob) ++ rest
        /\ (ob_task ob = TaskLoop -> rest = omap to_string (ob_queue ob)))
  /\ ob_accepted ob `sublist_of` offered ops
  /\ ((forall before m after, ops = before ++ OpTrySend m :: after ->
          (try_send (run_outbound before new_outbound) m).2 = true) ->
        ob_accepted ob = offered ops)
  /\ (ob_task ob <> TaskLoop -> forall ops', ob_wire (run_outbound ops' ob) = ob_wire ob).
Proof.
  intros ob. destruct (run_outbound_ok ops new_outbound) as [Hlen Hloop [rest Hrest]].
  { split; [simpl; lia|done|by exists []]. }
  destruct (run_outbound_accepted ops new_outbound) as (l & Hl & Hsub & Hall).
  simpl in Hl. fold ob in Hlen, Hloop, Hrest, Hl. split_and!; [done| | | |].
  - exists rest. split; [done|]. intros Ht. rewrite Hloop in Hrest by done.
    by apply app_inv_head in Hrest.
  - by rewrite Hl.
  - by rewrite Hl.
  - intros Ht ops'. by apply run_outbound_left.
Qed.

(** The end of a connection: its read loop aborts the task without waiting for
    the queue, so what was accepted last need not arrive. *)
Lemma abort_loses_queue ob ops :
  ob_wire (run_outbound (OpAbort :: ops) ob) = ob_wire ob.
Proof. simpl. by rewrite run_outbound_left. Qed.
End outbound.
