(* ===== verification/System.v ===== *)
(** * All interleavings of the server's tasks

    The invariant of the shared world, and the proof, program by program, that
    every task keeps it whatever the others do between its sections. *)
From S2P Require Import Prelude.
From S2P Require Import Protocol.
From S2P Require Import Ids.
From S2P Require Import HostTransfer.
From S2P Require Import Room.
From S2P Require Import RoomInv.
From S2P Require Import NetAddr.
From S2P Require Import Quotas.
From S2P Require Import Logs.
From S2P Require Import Snapshot.
From S2P Require Import Threads.
From S2P Require Import World.
From S2P Require Import Registry.
From S2P Require Import Cleanup.
From S2P Require Import Connection.

#[local] Arguments Nat.leb : simpl never.
#[local] Arguments Nat.sub : simpl never.

(** ** The invariant *)

Record world_wf (w : World) : Prop := {
  (** a room that is not closing is the one registered under its id *)
  wf_open : forall r st, w_heap w !! r = Some st -> closing st = false ->
    w_rooms w !! session_id st = Some r;
  (** a registered room is a room of that id *)
  wf_table : forall sid r, w_rooms w !! sid = Some r ->
    exists st, w_heap w !! r = Some st /\ session_id st = sid;
  (** [Arc]s are allocated in order *)
  wf_refs : forall r st, w_heap w !! r = Some st -> r < w_next_ref w;
  (** rooms are well formed, as long as fewer than 2^64 - 2 peers were
      admitted *)
  wf_heap : (N.of_nat (w_next_token w) + 2 < u64_modulus)%N ->
    forall r st, w_heap w !! r = Some st ->
      room_wf st /\ (next_conn_id st <= N.of_nat (w_next_token w) + 1)%N;
}.

(** What a section of thread [t] may do: it respects another thread's write
    lock, and rooms neither disappear, nor reopen, nor change their id. *)
Record guar (t : nat) (w w' : World) : Prop := {
  g_writer : forall t', t <> t' -> w_writer w' = Some t' <-> w_writer w = Some t';
  g_rooms : forall t', t <> t' -> w_writer w = Some t' -> w_rooms w' = w_rooms w;
  g_heap : forall r st, w_heap w !! r = Some st ->
    exists st', w_heap w' !! r = Some st' /\ session_id st' = session_id st
      /\ (closing st = true -> closing st' = true);
}.

Lemma guar_holder t t' w w' :
  guar t w w' -> t <> t' -> (w_writer w' = Some t' <-> w_writer w = Some t').
Proof. intros [Hw _ _]. apply Hw. Qed.

(** What a thread knows: whether it holds the table lock, and then what the
    table has under one id; rooms it has a reference to; rooms it knows to be
    closing. *)
Record knows (t : nat) (lock : option (string * option nat)) (refs closed : list nat)
    (w : World) : Prop := {
  k_lock : match lock with
           | None => w_writer w <> Some t
           | Some (sid, found) => w_writer w = Some t /\ w_rooms w !! sid = found
           end;
  k_refs : Forall (fun r => is_Some (w_heap w !! r)) refs;
  k_closed : Forall (fun r => exists st, w_heap w !! r = Some st /\ closing st = true) closed;
}.

Lemma knows_heap_le (w w' : World) refs closed :
  (forall r st, w_heap w !! r = Some st ->
    exists st', w_heap w' !! r = Some st' /\ (closing st = true -> closing st' = true)) ->
  Forall (fun r => is_Some (w_heap w !! r)) refs ->
  Forall (fun r => exists st, w_heap w !! r = Some st /\ closing st = true) closed ->
  Forall (fun r => is_Some (w_heap w' !! r)) refs
  /\ Forall (fun r => exists st, w_heap w' !! r = Some st /\ closing st = true) closed.
Proof.
  intros Hle Hrefs Hclosed. split.
  - eapply Forall_impl; [exact Hrefs|]. intros r [st Hst].
    destruct (Hle r st Hst) as (st' & -> & _). by eexists.
  - eapply Forall_impl; [exact Hclosed|]. intros r (st & Hst & Hc).
    destruct (Hle r st Hst) as (st' & ? & Hc'). exists st'. auto.
Qed.

Lemma knows_stable t lock refs closed :
  stable world_wf guar t (knows t lock refs closed).
Proof.
  intros t' w w' Hne [Hw Hr Hh] _ _ [Hlock Hrefs Hclosed].
  edestruct (knows_heap_le w w') as [Hrefs' Hclosed']; [|done..|split; [|done..]].
  - intros r st Hst. destruct (Hh r st Hst) as (st' & ? & _ & ?). by exists st'.
  - destruct lock as [[sid found]|].
    + destruct Hlock as [Hlw Hfound]. split; [by apply Hw|]. by rewrite (Hr t).
    + intros Hlw. apply Hlock. by apply Hw.
Qed.

Lemma knows_weaken t lock refs closed refs' closed' w :
  refs' ⊆ refs -> closed' ⊆ closed ->
  knows t lock refs closed w -> knows t lock refs' closed' w.
Proof.
  intros Hr Hc [Hl Hrefs Hclosed]. split; [done| |].
  - rewrite Forall_forall in Hrefs |- *. set_solver.
  - rewrite Forall_forall in Hclosed |- *. set_solver.
Qed.

(** ** Sections that work on one room *)

(** An operation on a room under its lock; [admits] is 1 when it may hand out
    a connection id. *)
Record room_fun_ok (admits : N) {B} (g : RoomState -> RoomState * B) : Prop := {
  rf_session_id : forall st, session_id (g st).1 = session_id st;
  rf_closing : forall st, closing st = true -> closing (g st).1 = true;
  rf_wf : forall st, room_wf st -> (next_conn_id st + 1 < u64_modulus)%N -> room_wf (g st).1;
  rf_next : forall st, (next_conn_id st + 1 < u64_modulus)%N ->
    (next_conn_id (g st).1 <= next_conn_id st + admits)%N;
}.

Lemma room_update_wf (admits : N) w r st st' token :
  world_wf w -> w_heap w !! r = Some st -> w_next_token w <= token ->
  (N.of_nat (w_next_token w) + admits <= N.of_nat token)%N ->
  session_id st' = session_id st ->
  (closing st = true -> closing st' = true) ->
  (room_wf st -> (next_conn_id st + 1 < u64_modulus)%N -> room_wf st') ->
  ((next_conn_id st + 1 < u64_modulus)%N -> next_conn_id st' <= next_conn_id st + admits)%N ->
  world_wf (set_heap (set_next_token w token) (<[r := st']> (w_heap w))).
Proof.
  intros [Hopen Htable Hrefs Hheap] Hst Htok Hadm Hsid Hclose Hwf Hnext.
  split; cbn [set_heap set_next_token w_heap w_rooms w_next_ref w_next_token].
  - intros r' st2 [[<- <-]|[Hne Hst2]]%lookup_insert_Some Hc; [|by apply Hopen].
    rewrite Hsid. apply Hopen; [done|]. destruct (closing st) eqn:E; [|done].
    rewrite Hclose in Hc; done.
  - intros sid r' Hr'. destruct (Htable sid r' Hr') as (st2 & Hst2 & Hsid2).
    destruct (decide (r' = r)) as [->|].
    + exists st'. rewrite lookup_insert_eq. split; [done|]. congruence.
    + exists st2. by rewrite lookup_insert_ne.
  - intros r' st2 [[<- <-]|[Hne Hst2]]%lookup_insert_Some; by eapply Hrefs.
  - intros Hbound r' st2 Hl. assert (N.of_nat (w_next_token w) + 2 < u64_modulus)%N by lia.
    apply lookup_insert_Some in Hl as [[<- <-]|[Hne Hst2]].
    + destruct (Hheap ltac:(done) r st Hst) as [Hrw Hn].
      assert (next_conn_id st + 1 < u64_modulus)%N by lia.
      specialize (Hnext ltac:(done)). split; [by apply Hwf|lia].
    + destruct (Hheap ltac:(done) r' st2 Hst2) as [? ?]. split; [done|lia].
Qed.

Lemma room_update_guar t w r st st' token :
  w_heap w !! r = Some st -> session_id st' = session_id st ->
  (closing st = true -> closing st' = true) ->
  guar t w (set_heap (set_next_token w token) (<[r := st']> (w_heap w))).
Proof.
  intros Hst Hsid Hclose. split; cbn [set_heap set_next_token w_heap w_rooms w_writer]; [done..|].
  intros r' st2 Hst2. destruct (decide (r' = r)) as [->|].
  - exists st'. rewrite lookup_insert_eq. simplify_eq. done.
  - exists st2. by rewrite lookup_insert_ne.
Qed.

(** The rule for a section on a room; [closes] says which results mean that
    the room is closing from now on. *)
Lemma ok_room_section {B} (admits : nat) (closes : B -> bool) t lock refs closed r
    (g : nat -> RoomState -> RoomState * B) :
  r ∈ refs ->
  (forall token, room_fun_ok (N.of_nat admits) (g token)) ->
  (forall token st, closes (g token st).2 = true -> closing (g token st).1 = true) ->
  ok world_wf guar w_writer (fun _ _ => False) t (knows t lock refs closed)
    (sec (fun w => with_room r (g (w_next_token w))
                     (set_next_token w (w_next_token w + admits))))
    (fun b => knows t lock refs (if closes b then r :: closed else closed)).
Proof.
  intros Hr Hg Hcl. apply ok_sec; [intros; apply knows_stable|].
  intros w Hw [Hlock Hrefs Hclosed]. pose proof Hrefs as Hrefs2.
  rewrite Forall_forall in Hrefs2. destruct (Hrefs2 r Hr) as [st Hst].
  unfold with_room. cbn [set_next_token w_heap]. rewrite Hst.
  set (token := w_next_token w). destruct (Hg token) as [Hsid Hclose Hwf Hnext].
  specialize (Hsid st). specialize (Hclose st). specialize (Hwf st). specialize (Hnext st).
  specialize (Hcl token st). destruct (g token st) as [st' b]. simpl in *.
  split_and!.
  - eapply room_update_wf; try done; lia.
  - by eapply room_update_guar.
  - pose proof (room_update_guar t w r st st' (token + admits) Hst Hsid Hclose) as [_ _ Hh].
    edestruct (knows_heap_le w) as [Hrefs' Hclosed'];
      [|exact Hrefs|exact Hclosed|split; [exact Hlock|exact Hrefs'|]].
    + intros r' st2 Hst2. destruct (Hh r' st2 Hst2) as (st3 & ? & _ & ?). by exists st3.
    + destruct (closes b); [|exact Hclosed']. constructor; [|exact Hclosed'].
      exists st'. cbn [set_heap w_heap]. rewrite lookup_insert_eq. auto.
Qed.

(** Nobody is parked: the writer's answers are given by [step_answer]. *)
Abbreviation ok_prog t L p Q := (ok world_wf guar w_writer (fun _ _ => False) t L p Q).

Lemma ok_with_room {B} (closes : B -> bool) t lock refs closed r
    (g : RoomState -> RoomState * B) :
  r ∈ refs -> room_fun_ok 0 g ->
  (forall st, closes (g st).2 = true -> closing (g st).1 = true) ->
  ok_prog t (knows t lock refs closed) (sec (with_room r g))
    (fun b => knows t lock refs (if closes b then r :: closed else closed)).
Proof.
  intros Hr Hg Hcl.
  eapply ok_sec_ext; [|apply (ok_room_section 0 closes t lock refs closed r (fun _ => g)); auto].
  intros w. cbv beta. rewrite Nat.add_0_r. by destruct w.
Qed.

(** The same when nothing is learnt about the room. *)
Lemma ok_room {B} t lock refs closed r (g : RoomState -> RoomState * B) :
  r ∈ refs -> room_fun_ok 0 g ->
  ok_prog t (knows t lock refs closed) (sec (with_room r g)) (fun _ => knows t lock refs closed).
Proof. intros Hr Hg. by apply (ok_with_room (fun _ => false)). Qed.

Lemma ok_room_token {B} t lock refs closed r
    (g : RoomState -> CancellationToken -> RoomState * B) :
  r ∈ refs -> (forall token, room_fun_ok 1 (fun st => g st token)) ->
  ok_prog t (knows t lock refs closed) (sec (with_room_token r g))
    (fun _ => knows t lock refs closed).
Proof.
  intros Hr Hg.
  eapply ok_sec_ext; [|apply (ok_room_section 1 (fun _ => false) t lock refs closed r
                                (fun token st => g st token)); [done|exact Hg|done]].
  intros w. unfold with_room_token. by rewrite Nat.add_1_r.
Qed.

(** ** Sections that leave the rooms alone *)

Definition same_rooms (w w' : World) : Prop :=
  w_heap w' = w_heap w /\ w_next_ref w' = w_next_ref w /\ w_rooms w' = w_rooms w
  /\ w_next_token w' = w_next_token w.

Lemma same_rooms_wf w w' : same_rooms w w' -> world_wf w -> world_wf w'.
Proof.
  intros (Hh & Hn & Hr & Ht) [Hopen Htable Hrefs Hheap]. split; rewrite ?Hh, ?Hn, ?Hr, ?Ht; done.
Qed.

Lemma heap_eq_guar t w w' :
  w_heap w' = w_heap w ->
  (forall t', t <> t' -> w_writer w' = Some t' <-> w_writer w = Some t') ->
  (forall t', t <> t' -> w_writer w = Some t' -> w_rooms w' = w_rooms w) ->
  guar t w w'.
Proof.
  intros Hh Hw Hr. split; [done..|]. intros r st Hst. exists st. rewrite Hh. done.
Qed.

Lemma knows_same t lock refs closed w w' :
  w_heap w' = w_heap w -> w_rooms w' = w_rooms w -> w_writer w' = w_writer w ->
  knows t lock refs closed w -> knows t lock refs closed w'.
Proof. intros Hh Hr Hw [Hl Hrefs Hclosed]. split; by rewrite ?Hh, ?Hr, ?Hw. Qed.

Lemma ok_quiet {B} t lock refs closed (f : World -> option (World * B)) :
  (forall w, exists w' b, f w = Some (w', b) /\ same_rooms w w' /\ w_writer w' = w_writer w) ->
  ok_prog t (knows t lock refs closed) (sec f) (fun _ => knows t lock refs closed).
Proof.
  intros Hf. apply ok_sec; [intros; apply knows_stable|]. intros w Hw Hk.
  destruct (Hf w) as (w' & b & -> & Hsame & Hwr). pose proof Hsame as (Hh & _ & Hr & _).
  split_and!; [by eapply same_rooms_wf| |by eapply knows_same].
  apply heap_eq_guar; [done| |done]. intros t' _. by rewrite Hwr.
Qed.

Lemma ok_perform t lock refs closed a :
  ok_prog t (knows t lock refs closed) (sec (perform a)) (fun _ => knows t lock refs closed).
Proof. apply ok_quiet. intros w. do 2 eexists. by split_and!. Qed.

Lemma ok_perform_all t lock refs closed l :
  ok_prog t (knows t lock refs closed) (perform_all l) (fun _ => knows t lock refs closed).
Proof.
  induction l as [|a l IH]; [by intros w|]. cbn [perform_all].
  eapply ok_bind; [apply ok_perform|]. by intros ?.
Qed.

Lemma ok_quota {B} t lock refs closed (g : gmap string nat -> gmap string nat * B) :
  ok_prog t (knows t lock refs closed) (sec (with_quota g)) (fun _ => knows t lock refs closed).
Proof.
  apply ok_quiet. intros w. unfold with_quota. destruct (g (w_rooms_per_ip w)) as [q b].
  do 2 eexists. by split_and!.
Qed.

Lemma ok_locked_read {B} t lock refs closed (g : World -> B) :
  ok_prog t (knows t lock refs closed) (sec (locked (fun w => (w, g w))))
    (fun _ => knows t lock refs closed).
Proof. apply ok_quiet. intros w. do 2 eexists. by split_and!. Qed.

Lemma ok_terminal t refs closed :
  ok_prog t (knows t None refs closed) record_terminal_mutation
    (fun _ => knows t None refs closed).
Proof.
  eapply ok_bind; [apply ok_perform|]. intros ?. split; [by intros w _ []|]. by intros b w Hw Hk.
Qed.

(** ** Sections on the room table *)

(** A table section of a thread that does not hold the lock waits for the
    thread that does. *)
Lemma waits_writer t refs closed w t' :
  knows t None refs closed w -> w_writer w = Some t' -> waits w_writer t w.
Proof.
  intros [Hk _ _] Hw. exists t'. split; [|done]. intros ->. done.
Qed.

Lemma ok_rooms_read t refs closed {B} (g : gmap string nat -> B) (learn : B -> list nat) :
  (forall rooms b r, g rooms = b -> r ∈ learn b -> exists sid, rooms !! sid = Some r) ->
  ok_prog t (knows t None refs closed) (sec (with_rooms (fun w => (w, g (w_rooms w)))))
    (fun b => knows t None (learn b ++ refs) closed).
Proof.
  intros Hlearn. apply ok_sec; [intros; apply knows_stable|]. intros w Hw Hk.
  unfold with_rooms. destruct (w_writer w) as [t'|] eqn:Hwr; [by eapply waits_writer|].
  split_and!; [done|by apply heap_eq_guar|].
  destruct Hk as [Hl Hrefs Hclosed]. split; [done| |done].
  apply Forall_app. split; [|done]. apply Forall_forall. intros r Hr.
  destruct (Hlearn (w_rooms w) _ r eq_refl Hr) as [sid Hsid].
  destruct (wf_table w Hw sid r Hsid) as (st & Hst & _). by eexists.
Qed.

Lemma remove_entry_wf w r st :
  world_wf w -> w_heap w !! r = Some st -> closing st = true ->
  w_rooms w !! session_id st = Some r ->
  world_wf (set_rooms w (delete (session_id st) (w_rooms w))).
Proof.
  intros [Hopen Htable Hrefs Hheap] Hst Hc Hreg.
  split; cbn [set_rooms w_heap w_rooms w_next_ref w_next_token]; [| |done|done].
  - intros r' st' Hst' Ho. specialize (Hopen r' st' Hst' Ho).
    rewrite lookup_delete_ne; [done|]. intros Heq. rewrite Heq in Hreg. simplify_eq. congruence.
  - intros sid r' [_ Hr']%lookup_delete_Some. by apply Htable.
Qed.

(** Removing the entry of a room that is known to be closing. *)
Lemma ok_remove_entry_if t refs closed r :
  r ∈ closed ->
  ok_prog t (knows t None refs closed) (sec (with_rooms (remove_entry_if r)))
    (fun _ => knows t None refs closed).
Proof.
  intros Hr. apply ok_sec; [intros; apply knows_stable|]. intros w Hw Hk.
  unfold with_rooms. destruct (w_writer w) as [t'|] eqn:Hwr; [by eapply waits_writer|].
  pose proof Hk as [_ _ Hclosed]. rewrite Forall_forall in Hclosed.
  destruct (Hclosed r Hr) as (st & Hst & Hc). unfold remove_entry_if. rewrite Hst.
  case_bool_decide as Hreg.
  - split_and!; [by eapply remove_entry_wf| |].
    + apply heap_eq_guar; [done..|]. intros t' _ Ht'. congruence.
    + destruct Hk as [Hl Hrefs Hcl]. by split.
  - split_and!; [done|by apply heap_eq_guar|done].
Qed.

Lemma ok_lock_rooms t refs closed sid :
  ok_prog t (knows t None refs closed) (sec (lock_rooms t (fun rooms => rooms !! sid)))
    (fun found => knows t (Some (sid, found)) (option_list found ++ refs) closed).
Proof.
  apply ok_sec; [intros; apply knows_stable|]. intros w Hw Hk.
  unfold lock_rooms. destruct (w_writer w) as [t'|] eqn:Hwr; [by eapply waits_writer|].
  split_and!.
  - apply (same_rooms_wf w); [by split_and!|done].
  - apply heap_eq_guar; [done| |done]. intros t' Hne. cbn [set_writer w_writer].
    rewrite Hwr. split; congruence.
  - destruct Hk as [_ Hrefs Hclosed]. split; [done| |done]. apply Forall_app. split; [|done].
    destruct (w_rooms w !! sid) as [r|] eqn:Hr; simpl; [|done]. constructor; [|done].
    destruct (wf_table w Hw sid r Hr) as (st & Hst & _). by eexists.
Qed.

Lemma ok_unlock_rooms t entry refs closed :
  ok_prog t (knows t (Some entry) refs closed) (sec unlock_rooms)
    (fun _ => knows t None refs closed).
Proof.
  apply ok_sec; [intros; apply knows_stable|]. intros w Hw Hk. unfold unlock_rooms.
  destruct entry as [sid found]. destruct Hk as [[Hl _] Hrefs Hclosed]. split_and!.
  - apply (same_rooms_wf w); [by split_and!|done].
  - apply heap_eq_guar; [done| |done]. intros t' Hne. cbn [set_writer w_writer].
    rewrite Hl. split; congruence.
  - by split.
Qed.

(** Under the lock, the entry of a closing room is removed. *)
Lemma ok_remove_locked t sid r refs closed :
  r ∈ closed ->
  ok_prog t (knows t (Some (sid, Some r)) refs closed)
    (sec (locked (fun w => (set_rooms w (delete sid (w_rooms w)), tt))))
    (fun _ => knows t (Some (sid, None)) refs closed).
Proof.
  intros Hr. apply ok_sec; [intros; apply knows_stable|]. intros w Hw Hk. unfold locked.
  destruct Hk as [[Hl Hsid] Hrefs Hclosed]. rewrite Forall_forall in Hclosed.
  destruct (Hclosed r Hr) as (st & Hst & Hc).
  destruct (wf_table w Hw sid r Hsid) as (st' & Hst' & <-). simplify_eq. split_and!.
  - by eapply remove_entry_wf.
  - apply heap_eq_guar; [done..|]. intros t' Hne Ht'. congruence.
  - split; [|done|by rewrite Forall_forall]. split; [done|]. apply lookup_delete_eq.
Qed.

Section programs.
Context `{HashIter} `{CryptoLib} `{!CryptoLaws _} `{SnapshotLib}.

(** ** The room operations *)

(** Events that admit nobody. *)
Definition quiet_event (ev : room_event) : bool :=
  match ev with EvReconnect _ _ _ _ | EvJoin _ _ _ _ _ _ => false | _ => true end.

Lemma session_id_apply st ev : session_id (room_apply st ev) = session_id st.
Proof.
  destruct ev; simpl;
    unfold begin_leave, finish_leave, begin_end_session, finish_end_session,
      transfer_host, broadcast, send_to, handle_disconnect, join_or_resume, admit_peer;
    by repeat case_match; simplify_eq/=.
Qed.

Lemma owner_apply st ev : owner_ip_key (room_apply st ev) = owner_ip_key st.
Proof.
  destruct ev; simpl;
    unfold begin_leave, finish_leave, begin_end_session, finish_end_session,
      transfer_host, broadcast, send_to, handle_disconnect, join_or_resume, admit_peer;
    by repeat case_match; simplify_eq/=.
Qed.

Lemma next_conn_id_quiet st ev :
  quiet_event ev = true -> next_conn_id (room_apply st ev) = next_conn_id st.
Proof.
  destruct ev; intros Hq; try done; simpl;
    unfold begin_leave, finish_leave, begin_end_session, finish_end_session,
      transfer_host, broadcast, send_to, handle_disconnect;
    by repeat case_match; simplify_eq/=.
Qed.

Lemma event_fun_ok {B} ev (g : RoomState -> RoomState * B) :
  (forall st, (g st).1 = room_apply st ev) ->
  room_fun_ok (if quiet_event ev then 0 else 1) g.
Proof.
  intros Hg. split; intros st; rewrite Hg.
  - apply session_id_apply.
  - apply closing_apply.
  - apply room_wf_apply.
  - intros Hn. destruct (quiet_event ev) eqn:Hq.
    + rewrite next_conn_id_quiet by done. lia.
    + by apply next_conn_id_apply.
Qed.

Lemma read_fun_ok {B} (g : RoomState -> B) : room_fun_ok 0 (fun st => (st, g st)).
Proof. split; intros; simpl; [done..|lia]. Qed.

(** The room operations as sections. *)
Lemma ok_event {B} ev t lock refs closed r (g : RoomState -> RoomState * B) :
  r ∈ refs -> quiet_event ev = true -> (forall st, (g st).1 = room_apply st ev) ->
  ok_prog t (knows t lock refs closed) (sec (with_room r g)) (fun _ => knows t lock refs closed).
Proof.
  intros Hr Hq Hg. apply ok_room; [done|].
  pose proof (event_fun_ok ev g Hg) as Hok. by rewrite Hq in Hok.
Qed.

Lemma ok_read {B} t lock refs closed r (g : RoomState -> B) :
  r ∈ refs ->
  ok_prog t (knows t lock refs closed) (sec (with_room r (fun st => (st, g st))))
    (fun _ => knows t lock refs closed).
Proof. intros Hr. apply ok_room; [done|apply read_fun_ok]. Qed.

Lemma ok_close t lock refs closed r :
  r ∈ refs ->
  ok_prog t (knows t lock refs closed) (sec (with_room r (fun st => (set_closing st true, tt))))
    (fun _ => knows t lock refs (r :: closed)).
Proof.
  intros Hr. apply (ok_with_room (fun _ => true)); [done| |done].
  by apply (event_fun_ok (EvClose false)).
Qed.

(** ** The registry's programs *)

Lemma insert_new_room_wf t sid host v token owner adm now refs closed w :
  world_wf w -> knows t (Some (sid, None)) refs closed w ->
  let '(w', (room, _)) := insert_new_room sid host v token owner adm now w in
  world_wf w' /\ guar t w w' /\ knows t (Some (sid, Some room)) (room :: refs) closed w'.
Proof.
  intros [Hopen Htable Hrefs Hheap] [[Hl Hsid] Hkr Hkc]. unfold insert_new_room.
  pose proof (new_room_wf sid host v token owner adm now (w_next_token w)) as Hwf.
  destruct (new_room _ _ _ _ _ _ _ _) as [st e] eqn:Hnew. cbn [alloc fst] in *.
  assert (Hst : session_id st = sid /\ closing st = false /\ next_conn_id st = 2%N).
  { unfold new_room in Hnew. injection Hnew as <- _. by vm_compute. }
  destruct Hst as (Hs & Hc & Hn).
  assert (Hnone : w_heap w !! w_next_ref w = None).
  { destruct (w_heap w !! w_next_ref w) as [st'|] eqn:E; [|done]. apply Hrefs in E. lia. }
  assert (Hold : forall r st', w_heap w !! r = Some st' -> r <> w_next_ref w)
    by (intros r st' ? ->; congruence).
  split_and!.
  - split; cbn [set_rooms set_next_token w_heap w_rooms w_next_ref w_next_token].
    + intros r st' [[<- <-]|[Hne Hst']]%lookup_insert_Some Ho; [by rewrite Hs, lookup_insert_eq|].
      specialize (Hopen r st' Hst' Ho). rewrite lookup_insert_ne; [done|]. congruence.
    + intros sid' r [[<- <-]|[Hne Hr]]%lookup_insert_Some.
      * exists st. by rewrite lookup_insert_eq.
      * destruct (Htable sid' r Hr) as (st' & Hst' & Hs'). exists st'.
        rewrite lookup_insert_ne; [done|]. symmetry. by eapply Hold.
    + intros r st' [[<- <-]|[_ Hst']]%lookup_insert_Some; [lia|]. apply Hrefs in Hst'. lia.
    + intros Hb r st' [[<- <-]|[_ Hst']]%lookup_insert_Some.
      * split; [done|]. rewrite Hn. lia.
      * destruct (Hheap ltac:(lia) r st' Hst'). split; [done|lia].
  - split; cbn [set_rooms set_next_token w_heap w_rooms w_writer]; [done| |].
    + intros t' Hne Ht'. congruence.
    + intros r st' Hst'. exists st'. rewrite lookup_insert_ne; [done|]. symmetry. by eapply Hold.
  - edestruct (knows_heap_le w
      (set_rooms (alloc (set_next_token w (S (w_next_token w))) st).1
         (<[sid:=w_next_ref w]> (w_rooms w)))) as [Hkr' Hkc']; [|exact Hkr|exact Hkc|].
    + intros r st' Hst'. exists st'. cbn [alloc fst set_rooms set_next_token w_heap w_next_ref].
      rewrite lookup_insert_ne; [done|]. symmetry. by eapply Hold.
    + split; cbn [set_rooms set_next_token w_rooms w_writer w_heap]; [|constructor|].
      * by rewrite lookup_insert_eq.
      * rewrite lookup_insert_eq. by eexists.
      * exact Hkr'.
      * exact Hkc'.
Qed.

Definition result_refs (res : option nat * Effects) : list nat := option_list res.1.

Lemma ok_refuse_create t entry refs closed e :
  ok_prog t (knows t (Some entry) refs closed) (sec unlock_rooms ;! Ret (None, e))
    (fun res => knows t None (result_refs res ++ refs) closed).
Proof. eapply ok_bind; [apply ok_unlock_rooms|]. by intros ? w Hw Hk. Qed.

Lemma ok_create_fresh t sid host v token owner adm now refs closed :
  ok_prog t (knows t (Some (sid, None)) refs closed)
    (create_fresh sid host v token owner adm now)
    (fun res => knows t None (result_refs res ++ refs) closed).
Proof.
  unfold create_fresh. eapply ok_bind; [apply ok_locked_read|]. intros retained.
  destruct (MAX_RETAINED_ROOMS <=? retained); [apply ok_refuse_create|].
  eapply ok_bind; [apply ok_quota|]. intros [|]; [|apply ok_refuse_create].
  eapply ok_bind.
  - apply (ok_sec _ _ _ _ _ _ _ (fun res : nat * Effects =>
      knows t (Some (sid, Some res.1)) (res.1 :: refs) closed)); [intros; apply knows_stable|].
    intros w Hw Hk. unfold locked.
    pose proof (insert_new_room_wf t sid host v token owner adm now refs closed w Hw Hk) as Hins.
    by destruct (insert_new_room _ _ _ _ _ _ _ w) as [w' [room e]].
  - intros [room e]. eapply ok_bind; [apply ok_unlock_rooms|]. intros ?.
    eapply ok_bind; [apply ok_perform|]. by intros ? w Hw Hk.
Qed.

Lemma ok_create t sid host token owner adm now refs closed :
  ok_prog t (knows t None refs closed) (create t sid host token owner adm now)
    (fun res => knows t None (result_refs res ++ refs) closed).
Proof.
  unfold create. destruct (from_token token) as [v|]; [|by intros w Hw Hk].
  eapply ok_bind; [apply ok_lock_rooms|]. intros [existing|]; [|apply ok_create_fresh].
  cbn [option_list app]. assert (Hin : existing ∈ existing :: refs) by left.
  eapply ok_bind; [by apply ok_read|]. intros [|].
  - eapply ok_bind; [apply ok_room_token; [done|]|].
    { intros cancel. by apply (event_fun_ok (EvReconnect adm token now cancel)). }
    intros e. eapply ok_bind; [apply ok_unlock_rooms|]. intros ?.
    eapply ok_bind; [apply ok_perform|]. by intros ? w Hw Hk.
  - eapply ok_bind; [by apply ok_read|]. intros [|].
    2: { eapply ok_bind; [apply ok_unlock_rooms|]. intros ? w Hw Hk.
         eapply knows_weaken; [| |exact Hk]; simpl; set_solver. }
    eapply ok_bind; [by apply ok_read|]. intros old_owner.
    eapply ok_bind; [by apply ok_close|]. intros ?.
    eapply ok_bind; [apply ok_remove_locked; left|]. intros ?.
    eapply ok_bind; [apply ok_quota|]. intros ?.
    eapply ok_weaken; [| |apply (ok_create_fresh _ _ _ _ _ _ _ _ refs closed)]; [|done].
    intros w Hw. apply knows_weaken; set_solver.
Qed.

Lemma ok_end_session t r id c token v refs closed :
  r ∈ refs ->
  ok_prog t (knows t None refs closed) (end_session r id c token v)
    (fun _ => knows t None refs closed).
Proof.
  intros Hr. unfold end_session. eapply ok_bind.
  - apply (ok_with_room (fun b : result (string * list Sender) Effects => is_ok b)); [done| |].
    + by apply (event_fun_ok (EvBeginEnd id c token v)).
    + intros st. unfold begin_end_session. by repeat case_match.
  - intros [[owner guests]|e]; cbn [is_ok]; [|by intros w Hw Hk].
    eapply ok_bind; [apply ok_remove_entry_if; left|]. intros ?.
    eapply ok_bind; [apply ok_quota|]. intros ?.
    eapply ok_bind; [apply ok_terminal|]. intros persisted.
    eapply ok_weaken; [| |by apply (ok_event (EvFinishEnd guests persisted) t None refs closed r)];
      [|done].
    intros w Hw. apply knows_weaken; set_solver.
Qed.

Lemma ok_leave t r id c token v now refs closed :
  r ∈ refs ->
  ok_prog t (knows t None refs closed) (leave r id c token v now)
    (fun _ => knows t None refs closed).
Proof.
  intros Hr. unfold leave.
  eapply ok_bind; [by apply (ok_event (EvBeginLeave id c token v))|].
  intros [[]|e]; [|by intros w Hw Hk].
  eapply ok_bind; [apply ok_terminal|]. intros persisted.
  by apply (ok_event (EvFinishLeave id c persisted now)).
Qed.

Lemma ok_remove_if_current t r refs closed :
  r ∈ refs -> r ∈ closed ->
  ok_prog t (knows t None refs closed) (remove_if_current r) (fun _ => knows t None refs closed).
Proof.
  intros Hr Hc. unfold remove_if_current.
  eapply ok_bind; [by apply ok_remove_entry_if|]. intros [|]; [|by intros w Hw Hk].
  eapply ok_bind; [by apply ok_read|]. intros owner.
  eapply ok_bind; [apply ok_quota|]. by intros ? w Hw Hk.
Qed.

Lemma ok_all_rooms t refs closed :
  ok_prog t (knows t None refs closed) all_rooms
    (fun rooms => knows t None (rooms ++ refs) closed).
Proof.
  apply (ok_rooms_read t refs closed hm_values (fun rooms => rooms)).
  intros rooms ? r <- Hr. by apply elem_of_hm_values.
Qed.

Lemma ok_get t sid refs closed :
  ok_prog t (knows t None refs closed) (get sid)
    (fun found => knows t None (option_list found ++ refs) closed).
Proof.
  apply (ok_rooms_read t refs closed (fun rooms => rooms !! sid) option_list).
  intros rooms b r Hb Hr. exists sid. rewrite Hb. destruct b; [|by apply elem_of_nil in Hr].
  apply list_elem_of_singleton in Hr. congruence.
Qed.

(** ** The cleanup sweep *)

Lemma sweep_state_events now inow st :
  (sweep_state now inow st).1 =
  let st' := room_apply st (EvPrune inow) in
  if (sweep_state now inow st).2.1.1
  then room_apply st'
         (EvClose ((ROOM_MAX_AGE <? age st now)%Z && negb (connected_peer_count st =? 0)))
  else st'.
Proof.
  unfold sweep_state. cbn [room_apply]. unfold prune_expired_reservations.
  cbn zeta iota. cbn [fst].
  unfold connected_peer_count, idle_for, age.
  cbn [set_reservations peers last_activity_at created_at].
  destruct (_ || _); [|done]. destruct (_ && negb _); done.
Qed.

Lemma sweep_fun_ok now inow : room_fun_ok 0 (sweep_state now inow).
Proof.
  pose proof (event_fun_ok (EvPrune inow) (fun st => (room_apply st (EvPrune inow), tt))
                ltac:(done)) as [Hs1 Hc1 Hw1 Hn1].
  split; intros st; rewrite sweep_state_events; cbv zeta;
    specialize (Hs1 st); specialize (Hc1 st); specialize (Hw1 st); specialize (Hn1 st);
    simpl in Hs1, Hc1, Hw1, Hn1;
    (destruct (sweep_state now inow st).2.1.1; [|done]).
  - by rewrite !session_id_apply.
  - intros. by apply closing_apply, closing_apply.
  - intros Hwf Hn. apply room_wf_apply; [by apply Hw1|]. cbn [room_apply].
    by unfold prune_expired_reservations.
  - intros Hn. rewrite !next_conn_id_quiet by done. lia.
Qed.

Lemma sweep_closes now inow st :
  (sweep_state now inow st).2.1.1 = true -> closing (sweep_state now inow st).1 = true.
Proof.
  intros Hrm. rewrite sweep_state_events, Hrm. cbn [room_apply].
  by destruct (_ && _).
Qed.

Lemma ok_sweep_room t now inow r refs closed :
  r ∈ refs ->
  ok_prog t (knows t None refs closed) (sweep_room now inow r)
    (fun _ => knows t None refs closed).
Proof.
  intros Hr. unfold sweep_room. eapply ok_bind.
  - apply (ok_with_room (fun b : bool * bool * list CancellationToken => b.1.1)); [done| |].
    + apply sweep_fun_ok.
    + intros st. apply sweep_closes.
  - intros [[remove changed] evict]. cbn [fst].
    eapply ok_bind with (Q := fun _ => knows t None refs closed).
    + destruct remove.
      * eapply ok_bind; [eapply ok_remove_if_current; [done|left]|]. intros ? w Hw.
        apply knows_weaken; set_solver.
      * by intros w Hw Hk.
    + intros ?. eapply ok_bind with (Q := fun _ => knows t None refs closed).
      * destruct changed; [apply ok_perform|by intros w Hw Hk].
      * intros ?. apply ok_perform_all.
Qed.

Lemma ok_sweep_rooms t now inow rooms refs closed :
  rooms ⊆ refs ->
  ok_prog t (knows t None refs closed) (sweep_rooms now inow rooms)
    (fun _ => knows t None refs closed).
Proof.
  induction rooms as [|r rooms IH]; intros Hsub; [by intros w Hw Hk|]. cbn [sweep_rooms].
  eapply ok_bind; [apply ok_sweep_room; set_solver|]. intros ?. apply IH. set_solver.
Qed.

Lemma ok_sweep t now inow inow_logs :
  ok_prog t (knows t None [] []) (sweep now inow inow_logs) (fun _ => knows t None [] []).
Proof.
  unfold sweep. eapply ok_bind; [apply ok_all_rooms|]. intros rooms.
  eapply ok_bind; [apply ok_sweep_rooms; set_solver|]. intros u.
  eapply ok_weaken; [intros w Hw; apply (knows_weaken t None (rooms ++ []) [] [] []); set_solver|
                     intros ? w Hw Hk; exact Hk|].
  apply ok_quiet. intros w. do 2 eexists. by split_and!.
Qed.

Lemma ok_cleanup_run t ticks :
  ok_prog t (knows t None [] []) (cleanup_run ticks) (fun _ => knows t None [] []).
Proof.
  induction ticks as [|[[now inow] inow_logs] ticks IH]; [by intros w Hw Hk|].
  cbn [cleanup_run]. eapply ok_bind; [apply ok_sweep|]. by intros ?.
Qed.

(** ** The capture *)

Lemma ok_capture_rooms t clock rooms dtos refs closed :
  rooms ⊆ refs ->
  ok_prog t (knows t None refs closed) (capture_rooms clock rooms dtos)
    (fun _ => knows t None refs closed).
Proof.
  revert dtos. induction rooms as [|r rooms IH]; intros dtos Hsub; [by intros w Hw Hk|].
  cbn [capture_rooms]. eapply ok_bind; [apply ok_read; set_solver|]. intros captured.
  apply IH. set_solver.
Qed.

Lemma ok_build_snapshot t clock :
  ok_prog t (knows t None [] []) (build_snapshot clock) (fun _ => knows t None [] []).
Proof.
  unfold build_snapshot. eapply ok_bind; [apply ok_all_rooms|]. intros rooms.
  eapply ok_weaken; [intros w Hw Hk; exact Hk| |
                     apply (ok_capture_rooms t clock rooms [] (rooms ++ []) []); set_solver].
  intros dtos w Hw. apply knows_weaken; set_solver.
Qed.

Lemma ok_capture_run t clocks :
  ok_prog t (knows t None [] []) (capture_run clocks) (fun _ => knows t None [] []).
Proof.
  induction clocks as [|clock clocks IH]; [by intros w Hw Hk|]. cbn [capture_run].
  split; [by intros w _ []|]. intros [|]; cbn [bind]; [|exact IH].
  eapply ok_bind; [|intros u; exact IH].
  eapply ok_bind; [apply ok_build_snapshot|]. by intros ? w Hw Hk.
Qed.

(** ** The connection *)

Definition conn_refs (c : Conn) : list nat := option_list (current_room c).
Definition conn_knows (t : nat) (c : Conn) : World -> Prop := knows t None (conn_refs c) [].

Lemma ok_done t c refs :
  conn_refs c ⊆ refs -> ok_prog t (knows t None refs []) (Ret c) (fun c => conn_knows t c).
Proof. intros Hsub w Hw. apply knows_weaken; [done|set_solver]. Qed.

Lemma ok_apply_then t tx e c refs :
  conn_refs c ⊆ refs ->
  ok_prog t (knows t None refs []) (apply_effects tx e ;! Ret c) (fun c => conn_knows t c).
Proof.
  intros Hsub. eapply ok_bind; [apply ok_perform_all|]. intros ?. by apply (ok_done t c).
Qed.

Lemma ok_refuse t tx c msg :
  ok_prog t (conn_knows t c) (refuse tx c msg) (fun c => conn_knows t c).
Proof. eapply ok_bind; [apply ok_perform|]. intros ?. by apply (ok_done t c). Qed.

Lemma ok_handle_create t tx ip_key ck msg c :
  ok_prog t (conn_knows t c) (handle_create t tx ip_key ck msg c) (fun c => conn_knows t c).
Proof.
  unfold handle_create. destruct (negb _); [apply ok_refuse|].
  destruct (negb _); [apply ok_refuse|]. eapply ok_bind; [apply ok_create|].
  intros [room e]. apply ok_apply_then. unfold result_refs. cbn [fst].
  destruct room, (eff_assigned_conn_id e); set_solver.
Qed.

Lemma ok_handle_join t tx ck msg c :
  ok_prog t (conn_knows t c) (handle_join tx ck msg c) (fun c => conn_knows t c).
Proof.
  unfold handle_join. destruct (negb _); [apply ok_refuse|].
  destruct (negb _); [apply ok_refuse|]. eapply ok_bind; [apply ok_get|].
  intros [room|]; [|apply ok_refuse]. cbn [option_list app]. eapply ok_bind.
  - apply ok_room_token; [left|]. intros cancel.
    by apply (event_fun_ok (EvJoin msg (admission_of tx msg)
      (cm_msg_type msg == client_type.RESUME) (ck_now ck) (ck_inow ck) cancel)).
  - intros e. apply ok_apply_then. destruct (eff_assigned_conn_id e); set_solver.
Qed.

Lemma ok_in_room t tx c k :
  (forall room, current_room c = Some room ->
     ok_prog t (conn_knows t c) (k room) (fun c => conn_knows t c)) ->
  ok_prog t (conn_knows t c) (in_room tx c k) (fun c => conn_knows t c).
Proof.
  intros Hk. unfold in_room. destruct (current_room c) as [room|]; [by apply Hk|apply ok_refuse].
Qed.

Lemma room_in_conn c room : current_room c = Some room -> room ∈ conn_refs c.
Proof. unfold conn_refs. intros ->. left. Qed.

Lemma ok_handle_message t tx ip_key ck msg c :
  ok_prog t (conn_knows t c) (handle_message t tx ip_key ck msg c) (fun c => conn_knows t c).
Proof.
  unfold handle_message. destruct (_ == client_type.PING); [apply ok_refuse|].
  destruct (_ && _); [apply ok_refuse|].
  destruct (_ == client_type.CREATE); [apply ok_handle_create|].
  destruct (_ || _); [apply ok_handle_join|].
  repeat match goal with |- ok _ _ _ _ _ _ (if ?b then _ else _) _ => destruct b end;
    try apply ok_refuse; apply ok_in_room; intros room Hroom%room_in_conn;
    unfold handle_leave, handle_end_session, handle_transfer_host, handle_broadcast, handle_send_to;
    try (destruct (negb _); [apply ok_refuse|]).
  - eapply ok_bind; [by apply ok_leave|]. intros e. apply ok_apply_then.
    destruct (negb _); [apply list_subseteq_nil|done].
  - eapply ok_bind; [by apply ok_end_session|]. intros e.
    apply ok_apply_then, list_subseteq_nil.
  - eapply ok_bind; [|intros e; by apply ok_apply_then].
    by apply (ok_event (EvTransfer (current_peer_id c) (current_conn_id c)
                          (cm_protocol_version msg) (cm_to msg))).
  - eapply ok_bind; [|intros e; by apply ok_apply_then].
    by apply (ok_event (EvBroadcast (current_peer_id c) (current_conn_id c)
                          (cm_payload msg) (ck_now ck))).
  - eapply ok_bind; [|intros e; by apply ok_apply_then].
    by apply (ok_event (EvSendTo (current_peer_id c) (current_conn_id c) (cm_to msg)
                          (cm_payload msg) (ck_now ck))).
Qed.

Lemma ok_poll t token refs :
  ok_prog t (knows t None refs []) (poll_cancelled token) (fun _ => knows t None refs []).
Proof. apply ok_quiet. intros w. do 2 eexists. by split_and!. Qed.

Lemma ok_read_loop t tx ip_key bucket deadline arrivals c :
  ok_prog t (conn_knows t c) (read_loop t tx ip_key bucket deadline arrivals c)
    (fun c => conn_knows t c).
Proof.
  revert bucket deadline c. induction arrivals as [|a arrivals IH]; intros bucket deadline c;
    cbn [read_loop]; [by intros w Hw Hk|].
  eapply ok_bind; [apply ok_poll|]. intros cancelled.
  destruct (_ && _); [by intros w Hw Hk|].
  destruct (ar_frame a) as [len msg| | | | |]; try apply IH; try by intros w Hw Hk.
  destruct (_ <? _)%N; [apply IH|]. destruct (allow_at _ _) as [bucket' [|]]; cbn [negb].
  - destruct msg as [msg|]; eapply ok_bind;
      [apply ok_handle_message|intros c'; apply IH|apply ok_refuse|intros c'; apply IH].
  - eapply ok_bind; [apply ok_refuse|]. intros c'. apply IH.
Qed.

Lemma ok_connection_run t tx ip_key opened arrivals closed :
  ok_prog t (knows t None [] []) (connection_run t tx ip_key opened arrivals closed)
    (fun _ => knows t None [] []).
Proof.
  unfold connection_run. eapply ok_bind; [apply (ok_read_loop t tx ip_key _ _ arrivals new_conn)|].
  intros c. assert (Hend : forall w, world_wf w -> conn_knows t c w -> knows t None [] [] w).
  { intros w Hw. apply knows_weaken; set_solver. }
  unfold finish_connection. destruct (current_room c) as [room|] eqn:Hroom; [|exact Hend].
  destruct (_ == ""); [exact Hend|].
  eapply ok_bind.
  - apply (ok_event (EvDisconnect (current_peer_id c) (current_conn_id c) (ck_now closed)
             (ck_inow closed)) t None (conn_refs c) [] room); [by apply room_in_conn|done..].
  - intros e. eapply ok_weaken; [intros w Hw Hk; exact Hk| |apply ok_perform_all].
    intros ?. exact Hend.
Qed.

Lemma ok_logs_only {A} t (p : prog World A) :
  logs_only p -> ok_prog t (knows t None [] []) p (fun _ => knows t None [] []).
Proof.
  induction p as [a|B f k IH|k IH]; intros Hp; [by intros w Hw Hk| |done]. destruct Hp as [Hf Hk].
  change (Sec f k) with (bind (sec f) k). eapply ok_bind; [|intros b; by apply IH].
  apply ok_quiet. intros w. destruct (Hf w) as (l & b & ->). do 2 eexists. by split_and!.
Qed.

(** ** The server *)

(** The tasks: a connection, the cleanup loop, the captures of the snapshot
    writer, and the requests that use the log store alone ([App]). *)
Inductive starts (t : nat) : prog World unit -> Prop :=
| starts_connection tx ip_key opened arrivals closed :
    starts t (connection_run t tx ip_key opened arrivals closed)
| starts_cleanup ticks : starts t (cleanup_run ticks)
| starts_captures clocks : starts t (capture_run clocks)
| starts_logs p : logs_only p -> starts t p.

Lemma starts_ok t p :
  starts t p ->
  ok_prog t (unlocked_by w_writer t) p (fun _ => unlocked_by w_writer t).
Proof.
  intros Hs. eapply (ok_weaken _ _ _ _ _ (knows t None [] [])) with (Q := fun _ => knows t None [] []).
  - intros w Hw Hu. by split.
  - intros ? w Hw [Hl _ _]. exact Hl.
  - destruct Hs;
      [apply ok_connection_run|apply ok_cleanup_run|apply ok_capture_run|by apply ok_logs_only].
Qed.

(** The world after a restart: [main] restores the rooms that [load_snapshot]
    returned before it serves anybody. *)
Definition boot (restored : list RestoredRoom) : World := restore_rooms restored empty_world.

Definition bootable (restored : list RestoredRoom) : Prop :=
  NoDup (rst_session_id <$> restored)
  /\ Forall (fun r => rst_reservations r !! rst_host_peer_id r = None
                      /\ size (rst_reservations r) <= MAX_ROOM_SIZE - 1) restored.

Lemma restore_room_wf w r :
  world_wf w -> w_writer w = None -> w_rooms w !! rst_session_id r = None ->
  rst_reservations r !! rst_host_peer_id r = None ->
  size (rst_reservations r) <= MAX_ROOM_SIZE - 1 ->
  world_wf (restore_room w r) /\ w_writer (restore_room w r) = None
  /\ dom (w_rooms (restore_room w r)) = {[ rst_session_id r ]} ∪ dom (w_rooms w).
Proof.
  intros [Hopen Htable Hrefs Hheap] Hwr Hnew Hhost Hsize. unfold restore_room. cbn [alloc].
  set (st := restore _ _ _ _ _ _ _).
  assert (Hwf : room_wf st) by (by apply restore_wf).
  assert (Hold : forall r st', w_heap w !! r = Some st' -> w_next_ref w <> r).
  { intros r' st' Hr' <-. apply Hrefs in Hr'. lia. }
  split_and!; [|done|].
  2: { cbn [set_rooms_per_ip set_rooms w_rooms]. by rewrite dom_insert_L. }
  split; cbn [set_rooms_per_ip set_rooms w_heap w_rooms w_next_ref w_next_token].
  - intros r' st' [[<- <-]|[Hne Hst']]%lookup_insert_Some Ho; [by rewrite lookup_insert_eq|].
    specialize (Hopen r' st' Hst' Ho). rewrite lookup_insert_ne; [done|]. congruence.
  - intros sid r' [[<- <-]|[Hne Hr]]%lookup_insert_Some.
    + exists st. by rewrite lookup_insert_eq.
    + destruct (Htable sid r' Hr) as (st' & Hst' & Hs'). exists st'.
      rewrite lookup_insert_ne; [done|]. by apply (Hold r' st').
  - intros r' st' [[<- <-]|[_ Hst']]%lookup_insert_Some; [lia|]. apply Hrefs in Hst'. lia.
  - intros Hb r' st' [[<- <-]|[_ Hst']]%lookup_insert_Some; [|by apply (Hheap Hb r')].
    split; [done|]. cbn [st restore next_conn_id]. lia.
Qed.

Lemma boot_wf restored :
  bootable restored -> world_wf (boot restored) /\ w_writer (boot restored) = None.
Proof.
  intros [Hnd Hall]. unfold boot, restore_rooms.
  assert (Hgen : forall w, world_wf w -> w_writer w = None ->
    (forall r, r ∈ restored -> rst_session_id r ∉ dom (w_rooms w)) ->
    world_wf (foldl restore_room w restored) /\ w_writer (foldl restore_room w restored) = None).
  { induction restored as [|r restored IH]; intros w Hw Hwr Hnew; [done|]. cbn [foldl].
    cbn [fmap list_fmap] in Hnd. apply NoDup_cons in Hnd as [Hr Hnd].
    apply Forall_cons in Hall as [[Hhost Hsize] Hall].
    destruct (restore_room_wf w r) as (Hw' & Hwr' & Hdom); try done.
    { apply not_elem_of_dom. apply Hnew. left. }
    apply IH; [done..|]. intros r' Hr'. rewrite Hdom. intros [Heq|Hin]%elem_of_union.
    - apply elem_of_singleton in Heq. apply Hr. rewrite <- Heq. by apply list_elem_of_fmap_2.
    - by apply (Hnew r'); [right|]. }
  apply Hgen; [|done|].
  - by split.
  - intros r _. cbn [empty_world w_rooms]. rewrite dom_empty_L. set_solver.
Qed.

Lemma server_ok restored c :
  bootable restored -> pool_reach starts (boot restored) c ->
  pool_ok world_wf guar w_writer (fun _ _ => False) (unlocked_by w_writer) c.
Proof.
  intros [Hw Hwr]%boot_wf Hreach.
  eapply pool_reach_ok; [ |apply starts_ok|exact Hw| |exact Hreach].
  - intros t. apply (unlocked_stable world_wf guar w_writer guar_holder).
  - intros t. unfold unlocked_by. by rewrite Hwr.
Qed.

(** C1: no interleaving splits a room.  Whatever the connections, the cleanup
    sweep and the snapshot captures do, in whatever order their critical
    sections are run: a room that is not closing is the one registered under
    its session id, so no two open rooms share an id and a room that lost its
    entry is closing for good; every entry of the table leads to a room of
    that id; and as long as fewer than 2^64 - 2 peers were admitted every room
    keeps its roster invariant. *)
Theorem system_invariant restored w ps
    (Hboot : bootable restored)
    (Hreach : pool_reach starts (boot restored) (w, ps)) :
  world_wf w
  /\ (forall r1 r2 st1 st2, w_heap w !! r1 = Some st1 -> w_heap w !! r2 = Some st2 ->
        closing st1 = false -> closing st2 = false -> session_id st1 = session_id st2 ->
        r1 = r2)
  /\ (forall r st, w_heap w !! r = Some st -> w_rooms w !! session_id st <> Some r ->
        closing st = true).
Proof.
  destruct (server_ok restored (w, ps) Hboot Hreach) as [Hw _ _]. simpl in Hw.
  split_and!; [done| |].
  - intros r1 r2 st1 st2 Hst1 Hst2 Hc1 Hc2 Heq.
    pose proof (wf_open w Hw r1 st1 Hst1 Hc1). pose proof (wf_open w Hw r2 st2 Hst2 Hc2). congruence.
  - intros r st Hst Hun. destruct (closing st) eqn:Hc; [done|].
    by destruct Hun; apply (wf_open w Hw).
Qed.

(** The server cannot get stuck and cannot spin.  From any state it can
    reach, the tasks that have been started take only finitely many steps, in
    whatever order they are scheduled; some schedule lets all of them finish;
    and a run that cannot go on has finished them all.  So no two tasks wait
    for each other, the one lock that is held across sections, [create]'s write
    lock on the table, is always given back, and every message is handled. *)
Theorem system_terminates restored w ps
    (Hboot : bootable restored)
    (Hreach : pool_reach starts (boot restored) (w, ps)) :
  Acc (fun c' c => advance_step c c') (w, ps)
  /\ (exists w' ps', rtc advance_step (w, ps) (w', ps') /\ all_finished ps')
  /\ (forall w' ps', rtc advance_step (w, ps) (w', ps') ->
        (forall c, ~ advance_step (w', ps') c) -> all_finished ps').
Proof.
  split; [apply advance_wf|].
  destruct (pool_terminates world_wf guar w_writer (fun _ _ => False) (unlocked_by w_writer)
    ltac:(done) (w, ps)) as [[[w' ps'] Hrun] Hall].
  - by intros ? ? [].
  - intros c' Hrtc. apply (server_ok restored); [done|].
    revert Hreach. induction Hrtc as [|c1 c2 c3 Hstep _ IH]; [done|]. intros Hreach.
    apply IH. eapply pool_reach_step; [exact Hreach|]. by apply advance_pool_step.
  - split; [by exists w', ps'|]. intros w2 ps2. apply (Hall (w2, ps2)).
Qed.
End programs.
