(* ===== verification/Wire.v ===== *)
(** * What goes over the wire

    The JSON object that a [ServerMessage] is sent as, the shape each message
    type has on the wire, and the proof that, whatever the tasks of the server
    do, nothing else is ever sent. *)
From S2P Require Import Prelude.
From S2P Require Import Protocol.
From S2P Require Import Ids.
From S2P Require Import HostTransfer.
From S2P Require Import Room.
From S2P Require Import RoomInv.
From S2P Require Import Quotas.
From S2P Require Import Logs.
From S2P Require Import Snapshot.
From S2P Require Import Threads.
From S2P Require Import World.
From S2P Require Import Registry.
From S2P Require Import Cleanup.
From S2P Require Import Connection.
From S2P Require Import System.

(** ** Serialization

    The attributes of [ServerMessage]: camel case, [msg_type] as [type], an
    absent field is left out, and so is a protocol version of zero. *)
Inductive Json :=
| JString (s : string)
| JNumber (n : N)
| JStrings (l : list string)
| JRaw (text : RawValue).

Definition is_zero_version (v : N) : bool := (v =? 0)%N.

Definition optional {A} (key : string) (f : A -> Json) (v : option A) : list (string * Json) :=
  match v with Some v => [(key, f v)] | None => [] end.

Definition json_fields (m : ServerMessage) : list (string * Json) :=
  ("type", JString (sm_msg_type m))
  :: optional "sessionId" JString (sm_session_id m)
  ++ optional "peerId" JString (sm_peer_id m)
  ++ optional "hostPeerId" JString (sm_host_peer_id m)
  ++ optional "reconnectToken" JString (sm_reconnect_token m)
  ++ (if is_zero_version (sm_protocol_version m) then []
      else [("protocolVersion", JNumber (sm_protocol_version m))])
  ++ optional "from" JString (sm_from m)
  ++ optional "peers" JStrings (sm_peers m)
  ++ optional "features" JStrings (sm_features m)
  ++ optional "hostTransferTargets" JStrings (sm_host_transfer_targets m)
  ++ optional "code" JString (sm_code m)
  ++ optional "message" JString (sm_message m)
  ++ optional "payload" JRaw (sm_payload m).

(** ** The protocol

    The keys a message of each type must have, and those it may have. *)
Definition schema (msg_type : string) : option (list string * list string) :=
  if msg_type == server_type.CREATED
  then Some (["type"; "sessionId"; "hostPeerId"; "reconnectToken"; "protocolVersion"; "features"],
             ["peers"])
  else if (msg_type == server_type.JOINED) || (msg_type == server_type.RESUMED)
  then Some (["type"; "sessionId"; "hostPeerId"; "reconnectToken"; "protocolVersion"; "peers";
              "features"], [])
  else if (msg_type == server_type.PEER_JOINED) || (msg_type == server_type.PEER_LEFT)
  then Some (["type"; "peerId"], [])
  else if msg_type == server_type.MESSAGE then Some (["type"; "from"], ["payload"])
  else if msg_type == server_type.ERROR
  then Some (["type"; "code"; "message"], ["protocolVersion"])
  else if msg_type == server_type.PONG then Some (["type"], [])
  else if msg_type == server_type.LEFT
  then Some (["type"; "sessionId"; "peerId"; "protocolVersion"], [])
  else if msg_type == server_type.ENDED
  then Some (["type"; "sessionId"; "protocolVersion"], [])
  else if msg_type == server_type.HOST_CHANGED
  then Some (["type"; "sessionId"; "hostPeerId"; "from"], [])
  else if msg_type == server_type.HOST_TRANSFER_ELIGIBILITY
  then Some (["type"; "sessionId"; "hostPeerId"; "hostTransferTargets"], [])
  else None.

Definition error_codes : list string :=
  code <$> [RateLimited; InvalidMessage; RoomExists; RoomNotFound; RoomFull; NotInRoom;
            AlreadyInRoom; PeerIdUnavailable; ProtocolMismatch; NotHost; PeerNotFound;
            HostTransferUnavailable].

Definition subset (l k : list string) : bool := forallb (fun x => bool_decide (x ∈ k)) l.

Definition conforms (m : ServerMessage) : bool :=
  let keys := (json_fields m).*1 in
  match schema (sm_msg_type m) with
  | Some (required, allowed) =>
    subset required keys && subset keys (required ++ allowed)
  | None => false
  end
  && match sm_code m with Some c => bool_decide (c ∈ error_codes) | None => true end
  && ((sm_protocol_version m =? 0)%N || (sm_protocol_version m =? RELAY_PROTOCOL_VERSION)%N).

Lemma conforms_admitted ty sid host token roster :
  ty = server_type.CREATED \/ (ty = server_type.JOINED \/ ty = server_type.RESUMED) /\ is_Some roster ->
  conforms (admitted_reply ty sid host token roster) = true.
Proof. intros [->|[[-> | ->] [r ->]]]; [destruct roster|..]; reflexivity. Qed.

Lemma conforms_error e text : conforms (into_message e text) = true.
Proof. by destruct e. Qed.

Lemma conforms_relayed id payload : conforms (relayed_message id payload) = true.
Proof. by destruct payload. Qed.

(** ** Effects

    Messages that conform; the only token in them is in the reply, and is
    one of [mine]; those that tell the end of a membership satisfy [final]. *)
Definition is_terminal (m : ServerMessage) : bool :=
  (sm_msg_type m == server_type.LEFT) || (sm_msg_type m == server_type.ENDED).

Definition fits (final : ServerMessage -> Prop) (m : ServerMessage) : Prop :=
  conforms m = true /\ (is_terminal m = true -> final m).

Lemma fits_plain final m : conforms m = true -> is_terminal m = false -> fits final m.
Proof. intros Hc Ht. split; [done|]. by rewrite Ht. Qed.

Lemma fits_error final e text : fits final (into_message e text).
Proof. by apply fits_plain; [apply conforms_error|]. Qed.

Lemma fits_relayed final id payload : fits final (relayed_message id payload).
Proof. by apply fits_plain; [apply conforms_relayed|]. Qed.

Lemma fits_admitted final ty sid host token roster :
  ty = server_type.CREATED \/ (ty = server_type.JOINED \/ ty = server_type.RESUMED) /\ is_Some roster ->
  fits final (admitted_reply ty sid host token roster).
Proof. intros Hty. apply fits_plain; [by apply conforms_admitted|]. by destruct Hty as [->|[[-> | ->] _]]. Qed.

Record effects_conform (mine : string -> Prop) (final : ServerMessage -> Prop) (e : Effects)
    : Prop := {
  ec_reply : forall m, eff_reply e = Some m -> fits final m;
  ec_token : forall m token, eff_reply e = Some m -> sm_reconnect_token m = Some token -> mine token;
  ec_broadcast : Forall (fun o => fits final (ob_msg o) /\ sm_reconnect_token (ob_msg o) = None)
                   (eff_broadcast e);
}.

Section effects.
Context `{HashIter} `{CryptoLib}.
Implicit Types (mine : string -> Prop) (final : ServerMessage -> Prop) (e : Effects) (st : RoomState).

Lemma fits_mono (final final' : ServerMessage -> Prop) m :
  (forall m, final m -> final' m) -> fits final m -> fits final' m.
Proof. intros Hsub [? Hm]. split; auto. Qed.

Lemma conform_mono mine (final final' : ServerMessage -> Prop) e :
  (forall m, final m -> final' m) -> effects_conform mine final e -> effects_conform mine final' e.
Proof.
  intros Hsub [Hr Ht Hb]. split; [|done|].
  - intros m Hm. by eapply fits_mono, Hr.
  - eapply Forall_impl; [exact Hb|]. intros o [? ?]. split; [by eapply fits_mono|done].
Qed.

Lemma conform_none mine final e :
  eff_reply e = None -> eff_broadcast e = [] -> effects_conform mine final e.
Proof. intros Hr Hb. split; rewrite ?Hr, ?Hb; [done..|constructor]. Qed.

Lemma conform_reply mine final e m :
  eff_reply e = Some m -> eff_broadcast e = [] -> fits final m ->
  (forall token, sm_reconnect_token m = Some token -> mine token) -> effects_conform mine final e.
Proof.
  intros Hr Hb Hm Ht. split; rewrite ?Hr, ?Hb; [by intros ? [= <-]| |constructor].
  intros ? token [= <-]. apply Ht.
Qed.

Lemma conform_error mine final err text : effects_conform mine final (effects_error err text).
Proof. eapply conform_reply; [done|done|apply fits_error|done]. Qed.

Lemma conform_push mine final e obs :
  effects_conform mine final e ->
  Forall (fun o => fits final (ob_msg o) /\ sm_reconnect_token (ob_msg o) = None) obs ->
  effects_conform mine final (push_broadcast e obs).
Proof.
  intros [Hr Ht Hb] Hobs. split; [exact Hr|exact Ht|]. cbn [push_broadcast eff_broadcast].
  by apply Forall_app.
Qed.

Lemma conform_all final (l : list Sender) msg :
  fits final msg -> sm_reconnect_token msg = None ->
  Forall (fun o => fits final (ob_msg o) /\ sm_reconnect_token (ob_msg o) = None)
    ((fun tx => {| ob_tx := tx; ob_msg := msg |}) <$> l).
Proof. intros Hm Ht. apply Forall_fmap, Forall_true. by intros tx. Qed.

Lemma conform_except mine final st id msg e :
  fits final msg -> sm_reconnect_token msg = None -> effects_conform mine final e ->
  effects_conform mine final (broadcast_except st id msg e).
Proof.
  intros Hm Ht He. apply conform_push; [done|]. apply Forall_fmap, Forall_true. by intros kp.
Qed.

Lemma conform_eligibility mine final st e :
  effects_conform mine final e -> effects_conform mine final (append_host_transfer_eligibility st e).
Proof.
  intros He. unfold append_host_transfer_eligibility.
  destruct (compute_eligibility _ _ _) as [[recipients targets]|]; [|done].
  apply conform_push; [done|]. apply Forall_forall. intros o (r & _ & Ho)%list_elem_of_omap.
  destruct (peers st !! r); simpl in Ho; [|done]. injection Ho as <-. by split; [apply fits_plain|].
Qed.

(** ** The room operations *)

Lemma new_room_conforms final sid host v token owner adm now cancel :
  effects_conform (eq token) final (new_room sid host v token owner adm now cancel).2.
Proof.
  apply conform_eligibility. eapply conform_reply; [done..| |by intros ? [= ->]].
  apply fits_admitted. by left.
Qed.

Lemma reconnect_host_conforms final st adm token now cancel :
  effects_conform (eq token) final (reconnect_host st adm token now cancel).2.
Proof.
  unfold reconnect_host, admit_peer. cbn [fst snd].
  assert (Hreply : forall e sid host roster,
    eff_reply e = Some (admitted_reply server_type.CREATED sid host token (Some roster)) ->
    eff_broadcast e = [] -> effects_conform (eq token) final e).
  { intros e sid host roster Hr Hb. eapply conform_reply; [done|done| |by intros ? [= ->]].
    apply fits_admitted. by left. }
  apply conform_eligibility. destruct (negb _); [apply conform_except; [by apply fits_plain|done|]|];
    by eapply Hreply.
Qed.

Lemma join_conforms final st msg adm resume_only now inow cancel :
  effects_conform (eq (cm_reconnect_token msg)) final
    (join_or_resume st msg adm resume_only now inow cancel).2.
Proof.
  unfold join_or_resume. destruct (closing st); [apply conform_error|].
  destruct (negb _); [apply conform_error|]. destruct (_ && _ && _); [apply conform_error|].
  unfold admit_peer. cbn [fst snd]. apply conform_eligibility, conform_except; [by apply fits_plain|done|].
  eapply conform_reply; [done..| |by intros ? [= ->]]. apply fits_admitted. right.
  split; [destruct resume_only; auto|by eexists].
Qed.

Lemma begin_leave_conforms mine final st id c token v e :
  (begin_leave st id c token v).2 = Err e -> effects_conform mine final e.
Proof.
  unfold begin_leave. repeat case_match; simpl; try done; intros [= <-]; apply conform_error.
Qed.

Lemma finish_leave_conforms mine final st id c persisted now :
  (persisted = true -> is_current st id c = true -> final (left_reply (session_id st) id)) ->
  effects_conform mine final (finish_leave st id c persisted now).2.
Proof.
  intros Hfinal. unfold finish_leave. destruct (is_current st id c); [|by apply conform_none].
  destruct (negb _); [by apply conform_none|]. destruct persisted; [|apply conform_error].
  apply conform_eligibility, conform_except; [by apply fits_plain|done|].
  eapply conform_reply; [done|done|by split; [|intros _; apply Hfinal]|done].
Qed.

Lemma begin_end_conforms mine final st id c token v e :
  (begin_end_session st id c token v).2 = Err e -> effects_conform mine final e.
Proof.
  unfold begin_end_session. repeat case_match; simpl; try done; intros [= <-]; apply conform_error.
Qed.

Lemma finish_end_conforms mine final st guests persisted :
  (persisted = true -> final (ended_message (session_id st))) ->
  effects_conform mine final (finish_end_session st guests persisted).2.
Proof.
  intros Hfinal. unfold finish_end_session. destruct persisted; cbn [negb].
  2: { eapply conform_reply; [done|done|apply fits_error|done]. }
  - assert (Hm : fits final (ended_message (session_id st))) by by split; [|intros _; apply Hfinal].
    split; simpl; [by intros ? [= <-]|by intros ? ? [= <-]|by apply conform_all].
Qed.

Lemma transfer_conforms mine final st id c v target :
  effects_conform mine final (transfer_host st id c v target).2.
Proof.
  unfold transfer_host. do 5 (match goal with |- context [if ?b then _ else _] => destruct b end;
    [apply conform_error|]).
  destruct (reservations st !! target) as [res|]; [|by apply conform_none].
  cbn [snd]. apply conform_eligibility. unfold broadcast_all. apply conform_push; [by apply conform_none|].
  apply Forall_fmap, Forall_true. intros p. by split; [apply fits_plain|].
Qed.

Lemma broadcast_conforms mine final st id c payload now :
  effects_conform mine final (broadcast st id c payload now).2.
Proof.
  unfold broadcast. destruct (negb _); [by apply conform_none|].
  destruct (closing st); [by apply conform_none|].
  apply conform_except; [apply fits_relayed|done|by apply conform_none].
Qed.

Lemma send_to_conforms mine final st id c target payload now :
  effects_conform mine final (send_to st id c target payload now).2.
Proof.
  unfold send_to. destruct (negb _); [by apply conform_none|].
  destruct (closing st); [by apply conform_none|].
  destruct (peers st !! target); [|apply conform_error].
  apply conform_push; [by apply conform_none|]. constructor; [|constructor].
  split; [apply fits_relayed|done].
Qed.

Lemma disconnect_conforms mine final st id c now inow :
  effects_conform mine final (handle_disconnect st id c now inow).2.
Proof.
  unfold handle_disconnect. destruct (_ || _); [by apply conform_none|].
  apply conform_eligibility, conform_except; [by apply fits_plain|done|]. by apply conform_none.
Qed.
End effects.

(** ** What a program emits

    Every operation on channels that a program performs satisfies [P], and its
    result satisfies [Q], whatever the other tasks do in between. *)
Definition appends (P : Action -> Prop) (w w' : World) : Prop :=
  exists acts, w_actions w' = w_actions w ++ acts /\ Forall P acts.

Fixpoint emits {A} (P : Action -> Prop) (p : prog World A) (Q : A -> Prop) : Prop :=
  match p with
  | Ret a => Q a
  | Sec f k => forall w w' b, f w = Some (w', b) -> appends P w w' /\ emits P (k b) Q
  | Ask k => forall b, emits P (k b) Q
  end.

Section emits.
Context (P : Action -> Prop).

Lemma emits_weaken {A} (p : prog World A) (Q Q' : A -> Prop) :
  (forall a, Q a -> Q' a) -> emits P p Q -> emits P p Q'.
Proof.
  intros HQ. induction p as [a|B f k IH|k IH]; simpl; intros Hp; [by apply HQ| |].
  - intros w w' b Hf. destruct (Hp w w' b Hf). split; [done|by apply IH].
  - intros b. by apply IH.
Qed.

Lemma emits_bind {A B} (p : prog World A) (k : A -> prog World B) Q Q' :
  emits P p Q -> (forall a, Q a -> emits P (k a) Q') -> emits P (bind p k) Q'.
Proof.
  intros Hp Hk. induction p as [a|C f k' IH|k' IH]; simpl in *; [by apply Hk| |].
  - intros w w' b Hf. destruct (Hp w w' b Hf). split; [done|by apply IH].
  - intros b. by apply IH.
Qed.

Lemma emits_true {A} (p : prog World A) Q : emits P p Q -> emits P p (fun _ => True).
Proof. by apply emits_weaken. Qed.

(** A section that touches no channel. *)
Lemma emits_quiet {B} (f : World -> option (World * B)) (Q : B -> Prop) :
  (forall w w' b, f w = Some (w', b) -> w_actions w' = w_actions w /\ Q b) -> emits P (sec f) Q.
Proof.
  intros Hf w w' b Hfw. destruct (Hf w w' b Hfw) as [Ha HQ]. split; [|done].
  exists []. by rewrite app_nil_r.
Qed.

Lemma emits_room {B} r (g : RoomState -> RoomState * B) (Q : B -> Prop) :
  (forall st, Q (g st).2) -> emits P (sec (with_room r g)) Q.
Proof.
  intros Hg. apply emits_quiet. intros w w' b. unfold with_room.
  destruct (w_heap w !! r) as [st|]; [|done]. specialize (Hg st).
  destruct (g st) as [st' b']. by intros [= <- <-].
Qed.

Lemma emits_room_token {B} r (g : RoomState -> CancellationToken -> RoomState * B) (Q : B -> Prop) :
  (forall st cancel, Q (g st cancel).2) -> emits P (sec (with_room_token r g)) Q.
Proof.
  intros Hg. apply emits_quiet. intros w w' b. unfold with_room_token, with_room.
  cbn [set_next_token w_heap]. destruct (w_heap w !! r) as [st|]; [|done].
  specialize (Hg st (w_next_token w)). destruct (g st _) as [st' b']. by intros [= <- <-].
Qed.

Lemma emits_rooms {B} (g : World -> World * B) (Q : B -> Prop) :
  (forall w, w_actions (g w).1 = w_actions w /\ Q (g w).2) -> emits P (sec (with_rooms g)) Q.
Proof.
  intros Hg. apply emits_quiet. intros w w' b. unfold with_rooms. specialize (Hg w).
  destruct (w_writer w); [done|]. destruct (g w). by intros [= <- <-].
Qed.

Lemma emits_locked {B} (g : World -> World * B) (Q : B -> Prop) :
  (forall w, w_actions (g w).1 = w_actions w /\ Q (g w).2) -> emits P (sec (locked g)) Q.
Proof.
  intros Hg. apply emits_quiet. intros w w' b. unfold locked. specialize (Hg w).
  destruct (g w). by intros [= <- <-].
Qed.

Lemma emits_lock {B} t (g : gmap string nat -> B) : emits P (sec (lock_rooms t g)) (fun _ => True).
Proof.
  apply emits_quiet. intros w w' b. unfold lock_rooms. destruct (w_writer w); [done|].
  by intros [= <- <-].
Qed.

Lemma emits_unlock : emits P (sec unlock_rooms) (fun _ => True).
Proof. apply emits_quiet. by intros w w' b [= <- <-]. Qed.

Lemma emits_quota {B} (g : gmap string nat -> gmap string nat * B) :
  emits P (sec (with_quota g)) (fun _ => True).
Proof.
  apply emits_quiet. intros w w' b. unfold with_quota. destruct (g _). by intros [= <- <-].
Qed.

Lemma emits_perform a : P a -> emits P (sec (perform a)) (fun _ => True).
Proof.
  intros Ha w w' b [= <- <-]. split; [|done]. exists [a]. split; [done|by constructor].
Qed.

Lemma emits_perform_all l : Forall P l -> emits P (perform_all l) (fun _ => True).
Proof.
  induction 1 as [|a l Ha _ IH]; cbn [perform_all]; [done|].
  eapply emits_bind; [by apply emits_perform|]. by intros _ _.
Qed.

(** All threads of a pool that emit only [P]. *)
Lemma pool_emits (starts : nat -> prog World unit -> Prop) w0 w ps :
  (forall t p, starts t p -> emits P p (fun _ => True)) ->
  pool_reach starts w0 (w, ps) ->
  appends P w0 w /\ (forall t p, ps !! t = Some p -> emits P p (fun _ => True)).
Proof.
  intros Hstarts Hreach. remember (w, ps) as c eqn:Hc. revert w ps Hc.
  induction Hreach as [|c c' _ IH Hstep]; intros w ps Hc.
  { injection Hc as <- <-. split; [exists []; by rewrite app_nil_r|].
    intros t p Hp. by rewrite lookup_empty in Hp. }
  destruct Hstep as [w1 ps1 t p Ht Hs|w1 ps1 t B f k w' b Ht Hf|w1 ps1 t k b Ht];
    injection Hc as <- <-; destruct (IH _ _ eq_refl) as [(acts & Ha & Hacts) Hthr].
  - split; [by exists acts|]. intros t' p' [[<- <-]|[_ Hp']]%lookup_insert_Some; [|by eapply Hthr].
    by eapply Hstarts.
  - destruct (Hthr t _ Ht _ _ _ Hf) as [(acts' & Ha' & Hacts') Hk]. split.
    + exists (acts ++ acts'). rewrite Ha', Ha, app_assoc. split; [done|by apply Forall_app].
    + by intros t' p' [[<- <-]|[_ Hp']]%lookup_insert_Some; [|eapply Hthr].
  - split; [by exists acts|].
    intros t' p' [[<- <-]|[_ Hp']]%lookup_insert_Some; [by apply (Hthr t _ Ht)|by eapply Hthr].
Qed.
End emits.

(** ** The server's programs *)

(** What the server does for a connection on [tx]: messages conform, a
    reconnect token is only sent to a connection that presented it, and the
    messages [left] and [ended] satisfy [final]. *)
Definition allowed (presented : Sender -> string -> Prop) (final : ServerMessage -> Prop)
    (a : Action) : Prop :=
  match a with
  | TrySend tx m =>
    fits final m /\ forall token, sm_reconnect_token m = Some token -> presented tx token
  | Cancel _ | Mutate | Terminal => True
  end.

Section programs.
Context `{HashIter} `{CryptoLib} (presented : Sender -> string -> Prop) (final : ServerMessage -> Prop).
Abbreviation emits_ok p Q := (emits (allowed presented final) p Q).

Lemma quiet_release owner : emits_ok (release_room_quota owner) (fun _ => True).
Proof. apply emits_quota. Qed.

Lemma quiet_mutation : emits_ok record_mutation (fun _ => True).
Proof. by apply emits_perform. Qed.

Lemma quiet_terminal : emits_ok record_terminal_mutation (fun _ => True).
Proof. eapply emits_bind; [by apply emits_perform|]. by intros _ _ b. Qed.

Lemma remove_entry_quiet r w : w_actions (remove_entry_if r w).1 = w_actions w.
Proof. unfold remove_entry_if. by repeat case_match. Qed.

Lemma emits_remove_if_current r : emits_ok (remove_if_current r) (fun _ => True).
Proof.
  unfold remove_if_current. eapply emits_bind.
  { apply (emits_rooms _ _ (fun _ => True)). intros w. by rewrite remove_entry_quiet. }
  intros [] _; [|done]. eapply emits_bind; [by apply (emits_room _ _ _ (fun _ => True))|].
  intros owner _. eapply emits_bind; [apply quiet_release|done].
Qed.

(** A result of [create]: the effects conform. *)
Lemma emits_create_fresh sid host v token owner adm now :
  emits_ok (create_fresh sid host v token owner adm now) (fun r => effects_conform (eq token) final r.2).
Proof.
  assert (Hrefuse : forall err text, emits_ok
    (sec unlock_rooms ;! Ret (None : option nat, effects_error err text))
    (fun r => effects_conform (eq token) final r.2)).
  { intros err text. eapply emits_bind; [apply emits_unlock|]. intros _ _. apply conform_error. }
  unfold create_fresh. eapply emits_bind; [by apply (emits_locked _ _ (fun _ => True))|].
  intros retained _. destruct (_ <=? _); [apply Hrefuse|].
  eapply emits_bind; [apply emits_quota|]. intros claimed _.
  destruct (negb claimed); [apply Hrefuse|].
  eapply emits_bind.
  { apply (emits_locked _ _ (fun r => effects_conform (eq token) final r.2)). intros w.
    unfold insert_new_room.
    pose proof (new_room_conforms final sid host v token owner adm now (w_next_token w)) as Hnew.
    by destruct (new_room _ _ _ _ _ _ _ _) as [st e]. }
  intros [room e] He. eapply emits_bind; [apply emits_unlock|]. intros _ _.
  eapply emits_bind; [apply quiet_mutation|]. by intros _ _.
Qed.

Lemma emits_create t sid host token owner adm now :
  emits_ok (create t sid host token owner adm now) (fun r => effects_conform (eq token) final r.2).
Proof.
  unfold create. destruct (from_token token) as [v|]; [|apply conform_error].
  eapply emits_bind; [apply emits_lock|]. intros [r|] _; [|apply emits_create_fresh].
  eapply emits_bind; [by apply (emits_room _ _ _ (fun _ => True))|]. intros [] _.
  { eapply emits_bind.
    { apply (emits_room_token _ _ _ (effects_conform (eq token) final)).
      intros st cancel. apply reconnect_host_conforms. }
    intros e He. eapply emits_bind; [apply emits_unlock|]. intros _ _.
    eapply emits_bind; [apply quiet_mutation|]. by intros _ _. }
  eapply emits_bind; [by apply (emits_room _ _ _ (fun _ => True))|]. intros reclaimable _.
  destruct (negb reclaimable).
  { eapply emits_bind; [apply emits_unlock|]. intros _ _. apply conform_error. }
  eapply emits_bind; [by apply (emits_room _ _ _ (fun _ => True))|]. intros old_owner _.
  eapply emits_bind; [by apply (emits_room _ _ _ (fun _ => True))|]. intros _ _.
  eapply emits_bind; [by apply (emits_locked _ _ (fun _ => True))|]. intros _ _.
  eapply emits_bind; [apply quiet_release|]. intros _ _. apply emits_create_fresh.
Qed.

Lemma emits_end_session mine r id c token v :
  (forall sid, final (ended_message sid)) ->
  emits_ok (end_session r id c token v) (effects_conform mine final).
Proof.
  intros Hfinal. unfold end_session. eapply emits_bind.
  { apply (emits_room _ _ _ (fun res => forall e, res = Err e -> effects_conform mine final e)).
    intros st e. apply begin_end_conforms. }
  intros [[owner guests]|e] He; [|by apply He].
  eapply emits_bind.
  { apply (emits_rooms _ _ (fun _ => True)). intros w. by rewrite remove_entry_quiet. }
  intros _ _. eapply emits_bind; [apply quiet_release|]. intros _ _.
  eapply emits_bind; [apply quiet_terminal|]. intros persisted _.
  apply emits_room. intros st. by apply finish_end_conforms.
Qed.

Lemma emits_leave mine r id c token v now :
  (forall sid, final (left_reply sid id)) ->
  emits_ok (leave r id c token v now) (effects_conform mine final).
Proof.
  intros Hfinal. unfold leave. eapply emits_bind.
  { apply (emits_room _ _ _ (fun res => forall e, res = Err e -> effects_conform mine final e)).
    intros st e. apply begin_leave_conforms. }
  intros [[]|e] He; [|by apply He]. eapply emits_bind; [apply quiet_terminal|].
  intros persisted _. apply emits_room. intros st. by apply finish_leave_conforms.
Qed.

(** ** Connections *)

Lemma allowed_effects tx mine e :
  effects_conform mine final e -> (forall token, mine token -> presented tx token) ->
  Forall (allowed presented final) (effect_actions tx e).
Proof.
  intros [Hr Ht Hb] Hmine. unfold effect_actions. rewrite !Forall_app. split_and!.
  - destruct (eff_reply e) as [m|]; [|constructor]. constructor; [|constructor].
    split; [by apply Hr|]. intros token Htok. by eapply Hmine, Ht.
  - apply Forall_fmap. eapply Forall_impl; [exact Hb|]. intros o [Hc Hn]. split; [exact Hc|].
    simpl. by rewrite Hn.
  - apply Forall_fmap, Forall_true. by intros.
  - destruct (eff_dirty e); repeat constructor.
Qed.

Lemma emits_apply {A} tx mine e (a : A) :
  effects_conform mine final e -> (forall token, mine token -> presented tx token) ->
  emits_ok (apply_effects tx e ;! Ret a) (fun _ => True).
Proof.
  intros He Hmine. eapply emits_bind; [|done]. apply emits_perform_all.
  by eapply allowed_effects.
Qed.

Lemma emits_refuse tx c m :
  fits final m -> sm_reconnect_token m = None -> emits_ok (refuse tx c m) (fun _ => True).
Proof.
  intros Hm Ht. eapply emits_bind; [|done]. apply emits_perform. split; [done|]. by rewrite Ht.
Qed.

Lemma emits_refuse_error tx c err text :
  emits_ok (refuse tx c (into_message err text)) (fun _ => True).
Proof. apply emits_refuse; [apply fits_error|done]. Qed.

(** One section on a room, and its effects. *)
Lemma emits_room_apply {A} tx r (g : RoomState -> RoomState * Effects) (k : Effects -> A) :
  (forall st, effects_conform (fun _ => False) final (g st).2) ->
  emits_ok (let! e := sec (with_room r g) in apply_effects tx e ;! Ret (k e)) (fun _ => True).
Proof.
  intros Hg. eapply emits_bind; [by apply (emits_room _ _ _ (effects_conform (fun _ => False) final))|].
  intros e He. by eapply emits_apply.
Qed.

Lemma emits_in_room tx c k :
  (forall r, emits_ok (k r) (fun _ => True)) -> emits_ok (in_room tx c k) (fun _ => True).
Proof.
  intros Hk. unfold in_room. destruct (current_room c); [apply Hk|apply emits_refuse_error].
Qed.

Lemma emits_handle_create t tx ip_key ck msg c :
  presented tx (cm_reconnect_token msg) ->
  emits_ok (handle_create t tx ip_key ck msg c) (fun _ => True).
Proof.
  intros Htok. unfold handle_create. destruct (negb _); [apply emits_refuse_error|].
  destruct (negb _); [by apply emits_refuse; [apply fits_plain|]|].
  eapply emits_bind; [apply emits_create|]. intros [room e] He.
  eapply emits_apply; [exact He|]. by intros token <-.
Qed.

Lemma emits_handle_join tx ck msg c :
  presented tx (cm_reconnect_token msg) ->
  emits_ok (handle_join tx ck msg c) (fun _ => True).
Proof.
  intros Htok. unfold handle_join. destruct (negb _); [apply emits_refuse_error|].
  destruct (negb _); [by apply emits_refuse; [apply fits_plain|]|].
  eapply emits_bind; [by apply (emits_rooms _ _ (fun _ => True))|].
  intros [room|] _; [|apply emits_refuse_error].
  eapply emits_bind.
  { apply (emits_room_token _ _ _ (effects_conform (eq (cm_reconnect_token msg)) final)).
    intros st cancel. apply join_conforms. }
  intros e He. eapply emits_apply; [exact He|]. by intros token <-.
Qed.

Lemma emits_handle_message t tx ip_key ck msg c :
  presented tx (cm_reconnect_token msg) ->
  (cm_msg_type msg = client_type.LEAVE \/ cm_msg_type msg = client_type.END_SESSION ->
     forall m, final m) ->
  emits_ok (handle_message t tx ip_key ck msg c) (fun _ => True).
Proof.
  intros Htok Hfinal. unfold handle_message. destruct (_ == client_type.PING); [by apply emits_refuse; [apply fits_plain|]|].
  destruct (_ && _); [apply emits_refuse_error|].
  destruct (_ == client_type.CREATE); [by apply emits_handle_create|].
  destruct (_ || _); [by apply emits_handle_join|].
  destruct (_ == client_type.LEAVE) eqn:Hleave.
  { to_prop. apply emits_in_room. intros r. unfold handle_leave.
    eapply emits_bind; [apply (emits_leave (fun _ => False)); auto|]. intros e He.
    by eapply emits_apply. }
  destruct (_ == client_type.END_SESSION) eqn:Hend.
  { to_prop. apply emits_in_room. intros r. unfold handle_end_session.
    eapply emits_bind; [apply (emits_end_session (fun _ => False)); auto|]. intros e He.
    by eapply emits_apply. }
  destruct (_ == client_type.TRANSFER_HOST).
  { apply emits_in_room. intros r. unfold handle_transfer_host.
    destruct (negb _); [apply emits_refuse_error|].
    apply (emits_room_apply tx r _ (fun _ => c)). intros st. apply transfer_conforms. }
  destruct (_ == client_type.BROADCAST).
  { apply emits_in_room. intros r.
    apply (emits_room_apply tx r _ (fun _ => c)). intros st. apply broadcast_conforms. }
  destruct (_ == client_type.SEND_TO); [|apply emits_refuse_error].
  apply emits_in_room. intros r. unfold handle_send_to.
  destruct (negb _); [apply emits_refuse_error|].
  apply (emits_room_apply tx r _ (fun _ => c)). intros st. apply send_to_conforms.
Qed.

(** The tokens that the messages of a connection carry. *)
Definition frame_presents (tx : Sender) (a : Arrival) : Prop :=
  match ar_frame a with
  | FText _ (Some msg) => presented tx (cm_reconnect_token msg)
  | _ => True
  end.

Lemma emits_poll token : emits_ok (poll_cancelled token) (fun _ => True).
Proof. apply emits_quiet. by intros w w' b [= <- <-]. Qed.

Lemma emits_read_loop t tx ip_key limiter deadline arrivals c :
  (forall m, final m) -> Forall (frame_presents tx) arrivals ->
  emits_ok (read_loop t tx ip_key limiter deadline arrivals c) (fun _ => True).
Proof.
  intros Hfinal Hf. revert limiter deadline c.
  induction Hf as [|a arrivals Hf _ IH]; intros limiter deadline c; cbn [read_loop]; [done|].
  eapply emits_bind; [apply emits_poll|]. intros cancelled _. destruct (_ && _); [done|].
  unfold frame_presents in Hf.
  destruct (ar_frame a) as [len msg| | | | |]; try apply IH; try done.
  destruct (_ <? _)%N; [apply IH|].
  destruct (allow_at limiter _) as [limiter' allowed']. destruct (negb allowed').
  { eapply emits_bind; [apply emits_refuse_error|]. intros c' _. apply IH. }
  destruct msg as [msg|]; (eapply emits_bind; [|intros c' _; apply IH]);
    [by apply emits_handle_message|apply emits_refuse_error].
Qed.

Lemma emits_connection_run t tx ip_key opened arrivals closed :
  (forall m, final m) -> Forall (frame_presents tx) arrivals ->
  emits_ok (connection_run t tx ip_key opened arrivals closed) (fun _ => True).
Proof.
  intros Hfinal Hf. unfold connection_run. eapply emits_bind; [by apply emits_read_loop|].
  intros c _. unfold finish_connection. destruct (current_room c) as [r|]; [|done].
  destruct (_ == ""); [done|].
  eapply emits_bind; [apply (emits_room _ _ _ (effects_conform (fun _ => False) final))|].
  - intros st. apply disconnect_conforms.
  - intros e He. apply emits_perform_all. by eapply allowed_effects.
Qed.

(** ** The other tasks *)

Lemma emits_cleanup_run ticks : emits_ok (cleanup_run ticks) (fun _ => True).
Proof.
  induction ticks as [|[[now inow] inow_logs] ticks IH]; cbn [cleanup_run]; [done|].
  eapply (emits_bind _ _ _ (fun _ => True)); [|by intros _ _]. unfold sweep.
  eapply emits_bind; [by apply (emits_rooms _ _ (fun _ => True))|]. intros rooms _.
  eapply (emits_bind _ _ _ (fun _ => True)); [|intros _ _; apply emits_quiet; by intros w w' b [= <- _]].
  induction rooms as [|r rooms IHr]; cbn [sweep_rooms]; [done|].
  eapply (emits_bind _ _ _ (fun _ => True)); [|by intros _ _]. unfold sweep_room.
  eapply emits_bind; [by apply (emits_room _ _ _ (fun _ => True))|].
  intros [[remove changed] evict] _. eapply (emits_bind _ _ _ (fun _ => True)).
  { destruct remove; [|done]. eapply emits_bind; [apply emits_remove_if_current|done]. }
  intros _ _. eapply (emits_bind _ _ _ (fun _ => True)); [destruct changed; [apply quiet_mutation|done]|].
  intros _ _. apply emits_perform_all, Forall_fmap, Forall_true. by intros.
Qed.

Context `{SnapshotLib}.

Lemma emits_build_snapshot clock : emits_ok (build_snapshot clock) (fun _ => True).
Proof.
  unfold build_snapshot. eapply emits_bind; [by apply (emits_rooms _ _ (fun _ => True))|].
  intros rooms _. generalize (@nil RoomDto).
  induction rooms as [|r rooms IH]; intros dtos; cbn [capture_rooms]; [done|].
  eapply emits_bind; [by apply (emits_room _ _ _ (fun _ => True))|]. intros d _. apply IH.
Qed.

Lemma emits_logs_only {A} (p : prog World A) : logs_only p -> emits_ok p (fun _ => True).
Proof.
  induction p as [a|B f k IH|k IH]; intros Hp; [done| |done]. destruct Hp as [Hf Hk].
  change (Sec f k) with (bind (sec f) k). eapply (emits_bind _ _ _ (fun _ => True)); [|intros b _; by apply IH].
  apply emits_quiet. intros w w' b Hfw. destruct (Hf w) as (l & b' & Heq). by simplify_eq.
Qed.

Lemma emits_capture_run clocks : emits_ok (capture_run clocks) (fun _ => True).
Proof.
  induction clocks as [|clock clocks IH]; cbn [capture_run]; [done|].
  intros [|]; cbn [bind]; [|exact IH].
  eapply (emits_bind _ _ _ (fun _ => True)); [|intros ? ?; exact IH].
  eapply emits_bind; [apply emits_build_snapshot|done].
Qed.

(** The tasks of the server, where the connections only present tokens that
    [presented] allows them. *)
Inductive starts_presenting (t : nat) : prog World unit -> Prop :=
| presenting_connection tx ip_key opened arrivals closed :
    Forall (frame_presents tx) arrivals ->
    starts_presenting t (connection_run t tx ip_key opened arrivals closed)
| presenting_cleanup ticks : starts_presenting t (cleanup_run ticks)
| presenting_captures clocks : starts_presenting t (capture_run clocks)
| presenting_logs p : logs_only p -> starts_presenting t p.

Lemma presenting_emits t p :
  (forall m, final m) -> starts_presenting t p -> emits_ok p (fun _ => True).
Proof.
  intros Hfinal. destruct 1; [by apply emits_connection_run|apply emits_cleanup_run| |].
  - apply emits_capture_run.
  - by apply emits_logs_only.
Qed.

Lemma boot_actions restored : w_actions (boot restored) = [].
Proof.
  unfold boot, restore_rooms. assert (Hgen : forall w, w_actions w = [] ->
    w_actions (foldl restore_room w restored) = []); [|by apply Hgen].
  induction restored as [|r restored IH]; intros w Hw; simpl; [done|]. by apply IH.
Qed.
End programs.

Section wire.
Context `{HashIter} `{CryptoLib} `{SnapshotLib} (presented : Sender -> string -> Prop).

(** C6: the server keeps to its protocol, and keeps tokens to itself.  In
    every interleaving, every message that is put on a channel has, as the JSON
    object it is serialized to, exactly the keys that its type requires and
    allows, an error code of the protocol if any, and the relay's own protocol
    version if any.  A reconnect token is only ever sent on the channel of a
    connection that presented that token in a message of its own: no client
    learns another's token from the relay. *)
Theorem wire_conformance restored w ps tx m
    (Hreach : pool_reach (starts_presenting presented) (boot restored) (w, ps))
    (Hsent : TrySend tx m ∈ w_actions w) :
  conforms m = true /\ (forall token, sm_reconnect_token m = Some token -> presented tx token).
Proof.
  destruct (pool_emits (allowed presented (fun _ => True)) (starts_presenting presented)
    (boot restored) w ps ltac:(intros; by eapply presenting_emits) Hreach) as [(acts & Ha & Hacts) _].
  rewrite boot_actions in Ha. rewrite Ha in Hsent. rewrite Forall_forall in Hacts.
  destruct (Hacts _ Hsent) as [[Hc _] Ht]. by split.
Qed.
End wire.
