(* ===== verification/Limits.v ===== *)
(** * The limits under every interleaving

    [MAX_RETAINED_ROOMS] and [MAX_ROOMS_PER_IP] are checked in one critical
    section and used up in another; the table's write lock, kept in between,
    makes the first hold whatever runs beside it. *)
From S2P Require Import Prelude.
From S2P Require Import Protocol.
From S2P Require Import Ids.
From S2P Require Import HostTransfer.
From S2P Require Import Room.
From S2P Require Import RoomInv.
From S2P Require Import Quotas.
From S2P Require Import Logs.
From S2P Require Import Snapshot.
From S2P Require Import Threads.
From S2P Require Import World.
From S2P Require Import Registry.
From S2P Require Import Cleanup.
From S2P Require Import Connection.
From S2P Require Import System.

Section limits.
Context `{HashIter} `{CryptoLib}.

(** How many rooms the table and the counter of restored rooms may reach. *)
Variable retained restored_count : nat.

Definition counter_limit (key : string) : nat :=
  if key == "" then Nat.max MAX_ROOMS_PER_IP restored_count else MAX_ROOMS_PER_IP.

Record limits (w : World) : Prop := {
  li_rooms : size (w_rooms w) <= Nat.max MAX_RETAINED_ROOMS retained;
  li_counters : forall key n, w_rooms_per_ip w !! key = Some n -> n <= counter_limit key;
}.

(** A step respects another task's lock on the table, and the limits. *)
Record lim_guar (t : nat) (w w' : World) : Prop := {
  lg_lock : forall t', t' <> t -> w_writer w = Some t' ->
    w_writer w' = Some t' /\ w_rooms w' = w_rooms w;
  lg_writer : forall t', t' <> t -> w_writer w' = Some t' -> w_writer w = Some t';
  lg_limits : limits w -> limits w';
}.

(** What a task knows: whether it holds the lock, and then perhaps that there
    is room for one more. *)
Inductive LockState := Unlocked | Locked | LockedBelow.

Definition lim (s : LockState) (t : nat) (w : World) : Prop :=
  limits w /\
  match s with
  | Unlocked => w_writer w <> Some t
  | Locked => w_writer w = Some t
  | LockedBelow => w_writer w = Some t /\ size (w_rooms w) < MAX_RETAINED_ROOMS
  end.

Abbreviation always_lim := (fun (_ : nat) => limits).
Abbreviation lim_prog t L p Q := (keeps (fun _ : World => True) lim_guar always_lim t L p Q).

Lemma lim_assertion s t : assertion (fun _ => True) lim_guar always_lim t (lim s t).
Proof.
  split; [|by intros w [? _]]. intros t' w w' Hne [Hlock Hwriter Hlim] _ _ [Hl Hs].
  split; [auto|]. destruct s.
  - intros Ht. by apply Hs, Hwriter.
  - by apply Hlock.
  - destruct Hs as [Ht Hsz]. destruct (Hlock t) as [-> ->]; [auto..|]. done.
Qed.

(** ** Sections *)

(** A section that leaves the lock alone and gives the limits no reason to
    fail; it may touch the table if nobody else has it locked. *)
Definition modest (t : nat) {B} (f : World -> option (World * B)) : Prop :=
  forall w w' b, f w = Some (w', b) ->
    w_writer w' = w_writer w
    /\ (w_rooms w' = w_rooms w
        \/ (size (w_rooms w') <= size (w_rooms w)
            /\ (w_writer w = None \/ w_writer w = Some t)))
    /\ (limits w -> forall key n, w_rooms_per_ip w' !! key = Some n -> n <= counter_limit key).

Lemma lim_modest {B} s t (f : World -> option (World * B)) :
  modest t f -> lim_prog t (lim s t) (sec f) (fun _ => lim s t).
Proof.
  intros Hf. apply keeps_sec; [intros; apply lim_assertion|].
  intros w w' b _ _ [Hl Hs] Hfw. destruct (Hf w w' b Hfw) as (Hw & Hrooms & Hq).
  assert (Hsize : size (w_rooms w') <= size (w_rooms w)) by (destruct Hrooms as [->|[? _]]; done).
  assert (Hl' : limits w') by (split; [destruct Hl; lia|by apply Hq]).
  split.
  - split; [|by rewrite Hw|done]. intros t' Hne Ht'. rewrite Hw. split; [done|].
    destruct Hrooms as [|[_ [?|?]]]; congruence.
  - split; [done|]. rewrite Hw. destruct s; [done|done|]. split; [apply Hs|]. destruct Hs. lia.
Qed.

(** The table and the counters are not touched. *)
Lemma modest_quiet t {B} (f : World -> option (World * B)) :
  (forall w w' b, f w = Some (w', b) -> w_writer w' = w_writer w /\ w_rooms w' = w_rooms w
     /\ w_rooms_per_ip w' = w_rooms_per_ip w) -> modest t f.
Proof.
  intros Hf w w' b Hfw. destruct (Hf w w' b Hfw) as (? & ? & ->).
  split_and!; [done|by left|]. by intros [].
Qed.

Lemma modest_room t {B} r (g : RoomState -> RoomState * B) : modest t (with_room r g).
Proof.
  apply modest_quiet. intros w w' b. unfold with_room. destruct (w_heap w !! r); [|done].
  destruct (g r0). by intros [= <- _].
Qed.

Lemma modest_room_token t {B} r (g : RoomState -> CancellationToken -> RoomState * B) :
  modest t (with_room_token r g).
Proof.
  apply modest_quiet. intros w w' b. unfold with_room_token, with_room.
  destruct (w_heap _ !! r); [|done]. destruct (g _ _). by intros [= <- _].
Qed.

Lemma modest_perform t a : modest t (perform a).
Proof. apply modest_quiet. by intros w w' b [= <- _]. Qed.

(** A table section runs when nobody has the lock. *)
Lemma modest_rooms t {B} (g : World -> World * B) :
  (forall w, w_writer (g w).1 = w_writer w /\ size (w_rooms (g w).1) <= size (w_rooms w)
     /\ w_rooms_per_ip (g w).1 = w_rooms_per_ip w) -> modest t (with_rooms g).
Proof.
  intros Hg w w' b. unfold with_rooms. destruct (w_writer w) eqn:Hw; [done|].
  destruct (Hg w) as (Hw' & Hsize & Hq). destruct (g w) as [w1 b1]. intros [= <- <-]. simpl in *.
  split_and!; [congruence|right; auto|]. rewrite Hq. by intros [].
Qed.

Lemma modest_release t key :
  modest t (with_quota (fun quota => (release_quota quota key, tt))).
Proof.
  intros w w' b [= <- _]. split_and!; [done|by left|]. intros [_ Hc] key' n.
  cbn [set_rooms_per_ip w_rooms_per_ip]. unfold release_quota.
  destruct (w_rooms_per_ip w !! key) as [count|] eqn:Hk; [|apply Hc].
  pose proof (Hc key count Hk) as Hle.
  assert (Hin : forall n, (<[key := if 0 <? count then count - 1 else count]> (w_rooms_per_ip w)) !! key'
            = Some n -> n <= counter_limit key').
  { intros n' [[<- <-]|[_ Hn]]%lookup_insert_Some; [destruct (0 <? count); lia|by apply Hc]. }
  destruct (_ =? 0); [|apply Hin]. intros [_ Hn]%lookup_delete_Some. by apply Hin.
Qed.

Lemma modest_claim t key :
  modest t (with_quota (fun quota => claim_quota quota key)).
Proof.
  intros w w' b. unfold with_quota, claim_quota.
  destruct (MAX_ROOMS_PER_IP <=? _) eqn:Hfull; intros [= <- _];
    (split_and!; [done|by left|]); intros [_ Hc] key' n; cbn [set_rooms_per_ip w_rooms_per_ip];
    intros [[<- <-]|[_ Hn]]%lookup_insert_Some; try by apply Hc.
  - destruct (w_rooms_per_ip w !! key) as [count|] eqn:Hk; simpl; [by apply Hc|lia].
  - apply Nat.leb_gt in Hfull. unfold counter_limit. destruct (_ == _); lia.
Qed.

(** ** The programs *)

Lemma lim_ret {A} s t (a : A) : lim_prog t (lim s t) (Ret a) (fun _ => lim s t).
Proof. by intros w _ Hl. Qed.

Lemma lim_perform_all s t l : lim_prog t (lim s t) (perform_all l) (fun _ => lim s t).
Proof.
  induction l as [|a l IH]; [apply lim_ret|]. cbn [perform_all].
  eapply keeps_bind; [apply lim_modest, modest_perform|]. by intros ?.
Qed.

Lemma lim_terminal s t : lim_prog t (lim s t) record_terminal_mutation (fun _ => lim s t).
Proof. eapply keeps_bind; [apply lim_modest, modest_perform|]. by intros ? b w _. Qed.

Lemma lim_lock {B} t (g : gmap string nat -> B) :
  lim_prog t (lim Unlocked t) (sec (lock_rooms t g)) (fun _ => lim Locked t).
Proof.
  apply keeps_sec; [intros; apply lim_assertion|]. intros w w' b _ _ [Hl _]. unfold lock_rooms.
  destruct (w_writer w) eqn:Hw; [done|]. intros [= <- _]. split.
  - split; cbn [set_writer w_writer w_rooms]; [congruence|congruence|]. by intros [].
  - split; [|done]. by destruct Hl.
Qed.

Lemma lim_unlock t s :
  s <> Unlocked -> lim_prog t (lim s t) (sec unlock_rooms) (fun _ => lim Unlocked t).
Proof.
  intros Hne. apply keeps_sec; [intros; apply lim_assertion|]. intros w w' b _ _ [Hl Hs].
  assert (Hw : w_writer w = Some t) by (destruct s; [done|done|by destruct Hs]).
  intros [= <- _]. split.
  - split; cbn [set_writer w_writer w_rooms]; [congruence|done|]. by intros [].
  - split; [|done]. by destruct Hl.
Qed.

Lemma lim_insert t sid host v token key adm now :
  lim_prog t (lim LockedBelow t) (sec (locked (insert_new_room sid host v token key adm now)))
    (fun _ => lim Locked t).
Proof.
  apply keeps_sec; [intros; apply lim_assertion|]. intros w w' b _ _ [[Hr Hc] [Hw Hsz]] Hf.
  unfold locked in Hf. apply (inj Some) in Hf. unfold insert_new_room in Hf.
  destruct (new_room _ _ _ _ _ _ _ _) as [st e]. cbn [alloc] in Hf. injection Hf as <- _.
  assert (Hl' : limits (set_rooms (alloc (set_next_token w (S (w_next_token w))) st).1
            (<[sid := w_next_ref w]> (w_rooms w)))).
  { split; cbn [alloc fst set_rooms set_next_token w_rooms w_rooms_per_ip]; [|done].
    rewrite map_size_insert. destruct (w_rooms w !! sid); simpl; lia. }
  split; [|by split]. split; cbn [set_rooms set_next_token w_writer w_rooms]; [congruence|done|done].
Qed.

Lemma lim_create_fresh t sid host v token key adm now :
  lim_prog t (lim Locked t) (create_fresh sid host v token key adm now) (fun _ => lim Unlocked t).
Proof.
  unfold create_fresh. eapply keeps_bind.
  { apply (keeps_sec _ _ _ _ _ _ (fun n =>
      lim (if MAX_RETAINED_ROOMS <=? n then Locked else LockedBelow) t));
      [intros; apply lim_assertion|].
    intros w w' n _ _ [Hl Hw]. intros [= <- <-]. split; [by split|].
    destruct (_ <=? _) eqn:Hfull; [by split|]. apply Nat.leb_gt in Hfull. by split. }
  intros n. cbv beta. assert (Hrefuse : forall s err text, s <> Unlocked -> lim_prog t (lim s t)
    (sec unlock_rooms ;! Ret (None : option nat, effects_error err text)) (fun _ => lim Unlocked t)).
  { intros s' err text Hs. eapply keeps_bind; [by apply lim_unlock|]. intros ?. apply lim_ret. }
  destruct (MAX_RETAINED_ROOMS <=? n); [by apply Hrefuse|].
  eapply keeps_bind; [apply lim_modest, modest_claim|]. intros claimed.
  destruct (negb claimed); [by apply Hrefuse|].
  eapply keeps_bind; [apply lim_insert|]. intros [room e].
  eapply keeps_bind; [by apply lim_unlock|]. intros ?.
  eapply keeps_bind; [apply lim_modest, modest_perform|]. intros ?. apply lim_ret.
Qed.

Lemma lim_remove_locked t sid :
  lim_prog t (lim Locked t) (sec (locked (fun w => (set_rooms w (delete sid (w_rooms w)), tt))))
    (fun _ => lim Locked t).
Proof.
  apply keeps_sec; [intros; apply lim_assertion|]. intros w w' b _ _ [[Hr Hc] Hw] [= <- _].
  assert (Hsize : size (delete sid (w_rooms w)) <= size (w_rooms w)).
  { rewrite map_size_delete. destruct (w_rooms w !! sid); simpl; lia. }
  assert (Hl' : limits (set_rooms w (delete sid (w_rooms w)))) by (split; simpl; [lia|done]).
  split; [|by split]. split; cbn [set_rooms w_writer w_rooms]; [congruence|done|done].
Qed.

Lemma lim_create t sid host token key adm now :
  lim_prog t (lim Unlocked t) (create t sid host token key adm now) (fun _ => lim Unlocked t).
Proof.
  unfold create. destruct (from_token token) as [v|]; [|apply lim_ret].
  eapply keeps_bind; [apply lim_lock|]. intros [r|]; [|apply lim_create_fresh].
  eapply keeps_bind; [apply lim_modest, modest_room|]. intros idempotent.
  destruct (idempotent : bool).
  { eapply keeps_bind; [apply lim_modest, modest_room_token|]. intros e.
    eapply keeps_bind; [by apply lim_unlock|]. intros ?.
    eapply keeps_bind; [apply lim_modest, modest_perform|]. intros ?. apply lim_ret. }
  eapply keeps_bind; [apply lim_modest, modest_room|]. intros reclaimable.
  destruct (negb reclaimable).
  { eapply keeps_bind; [by apply lim_unlock|]. intros ?. apply lim_ret. }
  eapply keeps_bind; [apply lim_modest, modest_room|]. intros old_owner.
  eapply keeps_bind; [apply lim_modest, modest_room|]. intros ?.
  eapply keeps_bind; [apply lim_remove_locked|]. intros ?.
  eapply keeps_bind; [apply lim_modest, modest_release|]. intros ?. apply lim_create_fresh.
Qed.

Lemma modest_remove_entry t r : modest t (with_rooms (remove_entry_if r)).
Proof.
  apply modest_rooms. intros w. unfold remove_entry_if. destruct (w_heap w !! r) as [st|]; [|done].
  destruct (_ == _); [|done]. cbn [fst set_rooms w_writer w_rooms w_rooms_per_ip].
  split_and!; [done| |done]. rewrite map_size_delete. destruct (w_rooms w !! _); simpl; lia.
Qed.

Lemma lim_end_session t r id c token v :
  lim_prog t (lim Unlocked t) (end_session r id c token v) (fun _ => lim Unlocked t).
Proof.
  unfold end_session. eapply keeps_bind; [apply lim_modest, modest_room|].
  intros [[key gs]|e]; [|apply lim_ret].
  eapply keeps_bind; [apply lim_modest, modest_remove_entry|]. intros ?.
  eapply keeps_bind; [apply lim_modest, modest_release|]. intros ?.
  eapply keeps_bind; [apply lim_terminal|]. intros persisted. apply lim_modest, modest_room.
Qed.

Lemma lim_leave t r id c token v now :
  lim_prog t (lim Unlocked t) (leave r id c token v now) (fun _ => lim Unlocked t).
Proof.
  unfold leave. eapply keeps_bind; [apply lim_modest, modest_room|].
  intros [u|e]; [|apply lim_ret].
  eapply keeps_bind; [apply lim_terminal|]. intros persisted. apply lim_modest, modest_room.
Qed.

Abbreviation lim_conn t p := (lim_prog t (lim Unlocked t) p (fun _ => lim Unlocked t)).

Lemma lim_apply {A} t tx e (a : A) : lim_conn t (apply_effects tx e ;! Ret a).
Proof. eapply keeps_bind; [apply lim_perform_all|]. intros ?. apply lim_ret. Qed.

Lemma lim_refuse t tx c msg : lim_conn t (refuse tx c msg).
Proof. eapply keeps_bind; [apply lim_modest, modest_perform|]. intros ?. apply lim_ret. Qed.

Lemma lim_in_room t tx c k :
  (forall room, lim_conn t (k room)) -> lim_conn t (in_room tx c k).
Proof. intros Hk. unfold in_room. destruct (current_room c); [done|apply lim_refuse]. Qed.

Lemma lim_handle_message t tx ip_key ck msg c : lim_conn t (handle_message t tx ip_key ck msg c).
Proof.
  unfold handle_message. destruct (_ == client_type.PING); [apply lim_refuse|].
  destruct (_ && _); [apply lim_refuse|].
  destruct (_ == client_type.CREATE).
  { unfold handle_create. destruct (negb _); [apply lim_refuse|].
    destruct (negb _); [apply lim_refuse|]. eapply keeps_bind; [apply lim_create|].
    intros [room e]. apply lim_apply. }
  destruct (_ || _).
  { unfold handle_join. destruct (negb _); [apply lim_refuse|].
    destruct (negb _); [apply lim_refuse|].
    eapply keeps_bind; [by apply lim_modest, modest_rooms|]. intros [room|]; [|apply lim_refuse].
    eapply keeps_bind; [apply lim_modest, modest_room_token|]. intros e. apply lim_apply. }
  repeat match goal with |- keeps _ _ _ _ _ (if ?b then _ else _) _ => destruct b end;
    try apply lim_refuse; apply lim_in_room; intros room;
    unfold handle_leave, handle_end_session, handle_transfer_host, handle_broadcast, handle_send_to;
    try (destruct (negb (valid_id _ _)); [apply lim_refuse|]);
    (eapply keeps_bind; [first [apply lim_leave|apply lim_end_session|apply lim_modest, modest_room]|]);
    intros e; apply lim_apply.
Qed.

Lemma lim_connection_run t tx ip_key opened arrivals closed :
  lim_conn t (connection_run t tx ip_key opened arrivals closed).
Proof.
  unfold connection_run. eapply keeps_bind with (Q := fun _ => lim Unlocked t).
  - generalize (opened + PONG_WAIT)%Z, new_conn.
    generalize (new_bucket PER_CONNECTION_MESSAGE_BURST PER_CONNECTION_MESSAGE_SUSTAINED opened).
    induction arrivals as [|a arrivals IH]; intros bucket deadline c; cbn [read_loop];
      [apply lim_ret|].
    eapply keeps_bind; [apply lim_modest, modest_quiet; by intros w w' b [= <- _]|].
    intros cancelled. destruct (_ && _); [apply lim_ret|].
    destruct (ar_frame a) as [len msg| | | | |]; try apply IH; try apply lim_ret.
    destruct (_ <? _)%N; [apply IH|]. destruct (allow_at _ _) as [bucket' allowed].
    destruct (negb allowed); [eapply keeps_bind; [apply lim_refuse|intros ?; apply IH]|].
    destruct msg as [msg|]; (eapply keeps_bind;
      [first [apply lim_handle_message|apply lim_refuse]|intros ?; apply IH]).
  - intros c. unfold finish_connection. destruct (current_room c) as [r|]; [|apply lim_ret].
    destruct (_ == ""); [apply lim_ret|].
    eapply keeps_bind; [apply lim_modest, modest_room|]. intros e. apply lim_perform_all.
Qed.

Lemma lim_cleanup_run t ticks : lim_conn t (cleanup_run ticks).
Proof.
  induction ticks as [|[[now inow] inow_logs] ticks IH]; [apply lim_ret|]. cbn [cleanup_run].
  eapply keeps_bind with (Q := fun _ => lim Unlocked t); [|by intros ?]. unfold sweep.
  eapply keeps_bind; [by apply lim_modest, modest_rooms|]. intros rooms.
  eapply keeps_bind with (Q := fun _ => lim Unlocked t).
  2: { intros ?. apply lim_modest, modest_quiet. by intros w w' b [= <- _]. }
  induction rooms as [|r rooms IHr]; cbn [sweep_rooms]; [apply lim_ret|].
  eapply keeps_bind with (Q := fun _ => lim Unlocked t); [|by intros ?]. unfold sweep_room.
  eapply keeps_bind; [apply lim_modest, modest_room|]. intros [[remove changed] evict].
  eapply keeps_bind with (Q := fun _ => lim Unlocked t).
  { destruct remove; [|apply lim_ret]. unfold remove_if_current.
    eapply keeps_bind; [|intros ?; apply lim_ret].
    eapply keeps_bind; [apply lim_modest, modest_remove_entry|]. intros [|]; [|apply lim_ret].
    eapply keeps_bind; [apply lim_modest, modest_room|]. intros key.
    eapply keeps_bind; [apply lim_modest, modest_release|]. intros ?. apply lim_ret. }
  intros ?. eapply keeps_bind with (Q := fun _ => lim Unlocked t).
  { destruct changed; [apply lim_modest, modest_perform|apply lim_ret]. }
  intros ?. apply lim_perform_all.
Qed.

Lemma lim_build_snapshot t clock : lim_conn t (build_snapshot clock ;! Ret tt).
Proof.
  eapply keeps_bind with (Q := fun _ => lim Unlocked t); [|intros ?; apply lim_ret].
  unfold build_snapshot. eapply keeps_bind; [by apply lim_modest, modest_rooms|]. intros rooms.
  generalize (@nil RoomDto). induction rooms as [|r rooms IH]; intros dtos; cbn [capture_rooms];
    [apply lim_ret|].
  eapply keeps_bind; [apply lim_modest, modest_room|]. intros captured. apply IH.
Qed.

Lemma lim_capture_run t clocks : lim_conn t (capture_run clocks).
Proof.
  unfold lim_conn. induction clocks as [|clock clocks IH]; [apply lim_ret|]. cbn [capture_run].
  intros [|]; cbn [bind]; [|exact IH].
  eapply keeps_bind; [apply lim_build_snapshot|]. intros ?. exact IH.
Qed.

Lemma lim_logs_only t (p : prog World unit) : logs_only p -> lim_conn t p.
Proof.
  induction p as [a|B f k IH|k IH]; intros Hp; [by intros w _ Hl| |done]. destruct Hp as [Hf Hk].
  change (Sec f k) with (bind (sec f) k). eapply keeps_bind; [|intros b; by apply IH].
  apply lim_modest, modest_quiet. intros w w' b Hfw. destruct (Hf w) as (l & b' & Heq). by simplify_eq.
Qed.

Lemma lim_starts t p : starts t p -> lim_conn t p.
Proof.
  destruct 1; [apply lim_connection_run|apply lim_cleanup_run|apply lim_capture_run|].
  by apply lim_logs_only.
Qed.
End limits.

(** ** The server *)

Section server.
Context `{HashIter} `{CryptoLib}.

Lemma rooms_restored w r :
  w_rooms (restore_room w r) = <[rst_session_id r := w_next_ref w]> (w_rooms w).
Proof. reflexivity. Qed.

Lemma counters_restored w r :
  w_rooms_per_ip (restore_room w r)
  = <["" := default 0 (w_rooms_per_ip w !! "") + 1]> (w_rooms_per_ip w).
Proof. reflexivity. Qed.

Lemma boot_limits restored :
  limits (length restored) (length restored) (boot restored) /\ w_writer (boot restored) = None.
Proof.
  unfold boot, restore_rooms.
  assert (Hgen : forall w, w_writer w = None ->
    w_writer (foldl restore_room w restored) = None
    /\ size (w_rooms (foldl restore_room w restored)) <= size (w_rooms w) + length restored
    /\ forall key n, w_rooms_per_ip (foldl restore_room w restored) !! key = Some n ->
         w_rooms_per_ip w !! key = Some n
         \/ key = "" /\ n <= default 0 (w_rooms_per_ip w !! "") + length restored).
  { induction restored as [|r restored IH]; intros w Hw; cbn [foldl length].
    { split_and!; [done|lia|auto]. }
    destruct (IH (restore_room w r)) as (Hwr & Hsize & Hq); [done|].
    rewrite rooms_restored, map_size_insert in Hsize. rewrite counters_restored in Hq.
    rewrite lookup_insert_eq in Hq. cbn [from_option id] in Hq. split_and!; [done| |].
    - destruct (w_rooms w !! rst_session_id r); unfold id in Hsize; lia.
    - intros key n Hn. destruct (Hq key n Hn) as [Hn'|[-> ?]].
      + apply lookup_insert_Some in Hn' as [[<- <-]|[_ ?]]; [right; split; [done|lia]|by left].
      + right. split; [done|lia]. }
  destruct (Hgen empty_world eq_refl) as (Hw & Hsize & Hq). split; [|done]. split.
  - cbn [empty_world w_rooms] in Hsize. rewrite map_size_empty in Hsize. lia.
  - intros key n Hn. destruct (Hq key n Hn) as [Hn'|[-> Hle]].
    + cbn [empty_world w_rooms_per_ip] in Hn'. by rewrite lookup_empty in Hn'.
    + cbn [empty_world w_rooms_per_ip] in Hle. rewrite lookup_empty in Hle.
      change (n <= 0 + length restored) in Hle. change (n <= Nat.max MAX_ROOMS_PER_IP (length restored)).
      lia.
Qed.

(** C12: the limits hold whatever runs at once.  In every state that the server
    can reach from a restart with [restored] rooms, however its connections,
    sweeps and captures interleave, the table holds at most
    [MAX_RETAINED_ROOMS] rooms, or as many as were restored if those were more;
    and no client's counter exceeds [MAX_ROOMS_PER_IP].  (The restored rooms
    share the counter of the empty key, which may start above that.) *)
Theorem limits_hold restored w ps
    (Hreach : pool_reach starts (boot restored) (w, ps)) :
  size (w_rooms w) <= Nat.max MAX_RETAINED_ROOMS (length restored)
  /\ forall key n, w_rooms_per_ip w !! key = Some n ->
       n <= if key == "" then Nat.max MAX_ROOMS_PER_IP (length restored) else MAX_ROOMS_PER_IP.
Proof.
  set (k := length restored).
  destruct (boot_limits restored) as [Hlim Hwr].
  pose proof (pool_keeps starts (fun _ => True) (lim_guar k k) (fun _ => limits k k)
    (lim k k Unlocked) (lim k k Unlocked) (lim_assertion k k Unlocked) (lim_starts k k)
    (boot restored) (w, ps)) as [Hthr Hoth]; [done| |done|].
  { intros t. split; [done|]. by rewrite Hwr. }
  cbn [fst snd] in *. enough (limits k k w) as [Hr Hc] by done.
  destruct (ps !! 0) as [p|] eqn:Hp.
  - destruct (Hthr 0 p Hp) as (L & [_ HL] & Hl & _). by apply (HL w).
  - by destruct (Hoth 0 Hp).
Qed.
End server.
