(* ===== verification/RegistryThms.v ===== *)
(** * The registry, one operation at a time

    What the operations of the room table do when no other task interferes:
    the outcome of [create] on every branch, and the per-owner quota, which
    then counts exactly the rooms of each owner. *)
From S2P Require Import Prelude.
From S2P Require Import Protocol.
From S2P Require Import Ids.
From S2P Require Import HostTransfer.
From S2P Require Import Room.
From S2P Require Import RoomInv.
From S2P Require Import Snapshot.
From S2P Require Import Threads.
From S2P Require Import World.
From S2P Require Import Registry.
From S2P Require Import Cleanup.
From S2P Require Import Connection.
From S2P Require Import System.

#[local] Arguments Nat.leb : simpl never.
#[local] Arguments Nat.sub : simpl never.

(** ** Rooms by owner *)

Definition owner_of (w : World) (r : nat) : option string := owner_ip_key <$> w_heap w !! r.

(** How many registered rooms an owner has. *)
Definition owned (w : World) (owner : string) : nat :=
  size (filter (fun kr => owner_of w kr.2 = Some owner) (w_rooms w)).

(** The quota counts the registered rooms, and one more for [debt]: the owner
    of a room that was just removed, or is about to be inserted.  No client
    owns more than the maximum; the empty key is that of the restored rooms. *)
Record accounts (debt : option string) (w : World) : Prop := {
  ac_count : forall k, default 0 (w_rooms_per_ip w !! k) =
    owned w k + (if debt == Some k then 1 else 0);
  ac_zero : forall k, w_rooms_per_ip w !! k <> Some 0;
  ac_max : forall k, k <> "" -> default 0 (w_rooms_per_ip w !! k) <= MAX_ROOMS_PER_IP;
}.

Lemma owned_same w w' k :
  w_rooms w' = w_rooms w ->
  (forall sid r, w_rooms w !! sid = Some r -> owner_of w' r = owner_of w r) ->
  owned w' k = owned w k.
Proof.
  intros Hr Ho. unfold owned. rewrite Hr. f_equal. apply map_filter_ext.
  intros sid r Hsid. simpl. by rewrite (Ho sid r).
Qed.

Lemma accounts_same debt w w' :
  w_rooms w' = w_rooms w -> w_rooms_per_ip w' = w_rooms_per_ip w ->
  (forall sid r, w_rooms w !! sid = Some r -> owner_of w' r = owner_of w r) ->
  accounts debt w -> accounts debt w'.
Proof.
  intros Hr Hq Ho [Hc Hz Hm]. split; intros k; rewrite Hq; [|done|by apply Hm].
  by rewrite Hc, (owned_same w w').
Qed.

Lemma owned_insert w w' sid r owner k :
  w_rooms w !! sid = None -> w_rooms w' = <[sid := r]> (w_rooms w) ->
  owner_of w' r = Some owner ->
  (forall sid r, w_rooms w !! sid = Some r -> owner_of w' r = owner_of w r) ->
  owned w' k = owned w k + (if owner == k then 1 else 0).
Proof.
  intros Hnone Hr Ho Hold. unfold owned. rewrite Hr.
  assert (Hf : filter (fun kr => owner_of w' kr.2 = Some k) (w_rooms w)
             = filter (fun kr => owner_of w kr.2 = Some k) (w_rooms w)).
  { apply map_filter_ext. intros sid' r' Hsid'. simpl. by rewrite (Hold sid' r'). }
  destruct (decide (owner = k)) as [->|Hk].
  - rewrite map_filter_insert_True by done. rewrite Hf.
    rewrite map_size_insert_None, bool_decide_eq_true_2 by
      (try done; by apply map_lookup_filter_None_2; left). lia.
  - rewrite map_filter_insert_False by (simpl; congruence).
    rewrite bool_decide_eq_false_2, delete_id by done. rewrite Hf. lia.
Qed.

Lemma owned_delete w w' sid r owner k :
  w_rooms w !! sid = Some r -> w_rooms w' = delete sid (w_rooms w) ->
  owner_of w r = Some owner ->
  (forall sid r, w_rooms w !! sid = Some r -> owner_of w' r = owner_of w r) ->
  owned w k = owned w' k + (if owner == k then 1 else 0).
Proof.
  intros Hsid Hr Ho Hold. apply (owned_insert w' w sid r owner k).
  - rewrite Hr. apply lookup_delete_eq.
  - by rewrite Hr, insert_delete_eq, insert_id.
  - done.
  - intros sid' r' Hr'. rewrite Hr in Hr'. apply lookup_delete_Some in Hr' as [_ Hr'].
    symmetry. by apply (Hold sid').
Qed.

(** ** The accounts across single sections *)

Lemma accounts_release k w :
  accounts (Some k) w ->
  accounts None (set_rooms_per_ip w (release_quota (w_rooms_per_ip w) k)).
Proof.
  intros [Hc Hz Hm]. pose proof (Hc k) as Hk. rewrite bool_decide_eq_true_2 in Hk by done.
  assert (Hrel : forall k', release_quota (w_rooms_per_ip w) k !! k' =
    if k == k' then (if owned w k =? 0 then None else Some (owned w k))
    else w_rooms_per_ip w !! k').
  { intros k'. unfold release_quota. destruct (w_rooms_per_ip w !! k) as [n|]; simpl in Hk; [|lia].
    destruct (Nat.ltb_spec 0 n); [|lia]. replace (n - 1) with (owned w k) by lia.
    destruct (k == k') eqn:E; to_prop; subst.
    - destruct (owned w k' =? 0); [by rewrite lookup_delete_eq|by rewrite lookup_insert_eq].
    - destruct (owned w k =? 0); rewrite ?lookup_delete_ne, lookup_insert_ne by done; done. }
  assert (Hsame : forall k', owned (set_rooms_per_ip w (release_quota (w_rooms_per_ip w) k)) k' = owned w k')
    by (intros; by apply owned_same).
  split; intros k'; cbn [set_rooms_per_ip w_rooms_per_ip]; rewrite Hrel.
  - rewrite Hsame. specialize (Hc k'). destruct (k == k') eqn:E; to_prop; subst.
    + destruct (Nat.eqb_spec (owned w k') 0); simpl; lia.
    + rewrite Hc, !bool_decide_eq_false_2 by congruence. lia.
  - destruct (k == k') eqn:E; to_prop; subst; [|apply Hz].
    destruct (Nat.eqb_spec (owned w k') 0); congruence.
  - intros Hne. specialize (Hm k' Hne). destruct (k == k') eqn:E; to_prop; subst; [|done].
    destruct (Nat.eqb_spec (owned w k') 0); simpl; lia.
Qed.

Lemma accounts_claim k w :
  accounts None w ->
  let '(q, claimed) := claim_quota (w_rooms_per_ip w) k in
  claimed = (owned w k <? MAX_ROOMS_PER_IP)
  /\ accounts (if claimed then Some k else None) (set_rooms_per_ip w q).
Proof.
  intros [Hc Hz Hm]. unfold claim_quota. pose proof (Hc k) as Hk.
  rewrite bool_decide_eq_false_2, Nat.add_0_r in Hk by done. rewrite Hk.
  assert (Hsame : forall q k', owned (set_rooms_per_ip w q) k' = owned w k')
    by (intros; by apply owned_same).
  destruct (Nat.leb_spec MAX_ROOMS_PER_IP (owned w k)) as [Hge|Hlt].
  - split; [symmetry; by apply Nat.ltb_ge|].
    split; intros k'; cbn [set_rooms_per_ip w_rooms_per_ip];
      (destruct (decide (k' = k)) as [->|];
       [rewrite lookup_insert_eq | rewrite lookup_insert_ne by done; rewrite ?Hsame; auto]).
    + simpl. rewrite Hsame. lia.
    + unfold MAX_ROOMS_PER_IP in Hge. intros [=]. lia.
    + intros Hne. specialize (Hm k Hne). simpl. lia.
  - split; [symmetry; by apply Nat.ltb_lt|].
    split; intros k'; cbn [set_rooms_per_ip w_rooms_per_ip];
      (destruct (decide (k' = k)) as [->|];
       [rewrite lookup_insert_eq | rewrite lookup_insert_ne by done; rewrite ?Hsame; auto]).
    + simpl. rewrite Hsame, bool_decide_eq_true_2 by done. lia.
    + rewrite Hc, !bool_decide_eq_false_2 by congruence. done.
    + intros [=]. lia.
    + intros _. simpl. lia.
Qed.

Lemma accounts_removed w sid r owner :
  accounts None w -> w_rooms w !! sid = Some r -> owner_of w r = Some owner ->
  accounts (Some owner) (set_rooms w (delete sid (w_rooms w))).
Proof.
  intros [Hc Hz Hm] Hsid Ho. split; intros k; cbn [set_rooms w_rooms_per_ip]; [|done|by apply Hm].
  rewrite Hc, bool_decide_eq_false_2 by done.
  rewrite (owned_delete w (set_rooms w (delete sid (w_rooms w))) sid r owner k) by done.
  destruct (owner == k) eqn:E; to_prop; subst.
  - rewrite bool_decide_eq_true_2 by done. lia.
  - rewrite bool_decide_eq_false_2 by congruence. lia.
Qed.

Lemma accounts_inserted w w' sid r owner :
  accounts (Some owner) w -> w_rooms w !! sid = None ->
  w_rooms w' = <[sid := r]> (w_rooms w) -> w_rooms_per_ip w' = w_rooms_per_ip w ->
  owner_of w' r = Some owner ->
  (forall sid r, w_rooms w !! sid = Some r -> owner_of w' r = owner_of w r) ->
  accounts None w'.
Proof.
  intros [Hc Hz Hm] Hsid Hr Hq Ho Hold. split; intros k; rewrite Hq; [|done|by apply Hm].
  rewrite Hc, (owned_insert w w' sid r owner k) by done.
  rewrite (bool_decide_eq_false_2 (None = Some k)) by done.
  destruct (owner == k) eqn:E; to_prop; subst.
  - rewrite bool_decide_eq_true_2 by done. lia.
  - rewrite bool_decide_eq_false_2 by congruence. lia.
Qed.

Lemma accounts_room {B} debt r (g : RoomState -> RoomState * B) w w' b :
  (forall st, owner_ip_key (g st).1 = owner_ip_key st) ->
  accounts debt w -> with_room r g w = Some (w', b) -> accounts debt w'.
Proof.
  intros Hg Hac. unfold with_room. destruct (w_heap w !! r) as [st|] eqn:Hst; [|done].
  specialize (Hg st). destruct (g st) as [st' b']. intros [= <- <-].
  eapply accounts_same; [..|exact Hac]; [done..|]. intros sid r' _.
  unfold owner_of. cbn [set_heap w_heap]. destruct (decide (r' = r)) as [->|].
  - rewrite lookup_insert_eq, Hst. simpl in *. by rewrite Hg.
  - by rewrite lookup_insert_ne.
Qed.

Lemma accounts_quiet debt w w' :
  w_heap w' = w_heap w -> w_rooms w' = w_rooms w -> w_rooms_per_ip w' = w_rooms_per_ip w ->
  accounts debt w -> accounts debt w'.
Proof.
  intros Hh Hr Hq. apply accounts_same; [done..|]. intros. unfold owner_of. by rewrite Hh.
Qed.

(** ** Programs of one task at a time *)

Section serial.
Context `{HashIter} `{CryptoLib} `{!CryptoLaws _} `{SnapshotLib}.

(** Thread [t] runs alone in a well-formed world, knows [L], and moreover [E]
    holds. *)
Record serial (t : nat) (L E : World -> Prop) (w : World) : Prop := {
  se_wf : world_wf w;
  se_knows : L w;
  se_alone : forall t', t' <> t -> w_writer w <> Some t';
  se_extra : E w;
}.

Lemma seq_sec {B} t L (E : World -> Prop) (f : World -> option (World * B)) Q
    (E' : B -> World -> Prop) :
  ok_prog t L (sec f) Q ->
  (forall w w' b, world_wf w -> L w -> E w -> f w = Some (w', b) -> E' b w') ->
  hoare (serial t L E) (sec f) (fun b => serial t (Q b) (E' b)).
Proof.
  intros Hok HE answer w [Hw Hl Ha Hx].
  destruct (ok_alone world_wf guar w_writer guar_holder t L (sec f) Q Hok answer w)
    as (w' & b & Hrun & Hw' & HQ & Ha'); [by split_and!|].
  exists w', b. split; [done|]. split; [done..|].
  simpl in Hrun. destruct (f w) as [[w2 b2]|] eqn:Hf; [|done]. injection Hrun as -> ->.
  exact (HE w w' b Hw Hl Hx Hf).
Qed.

(** A section that keeps the accounts. *)
Definition keeps_accounts {B} (f : World -> option (World * B)) : Prop :=
  forall debt w w' b, f w = Some (w', b) -> accounts debt w -> accounts debt w'.

Lemma seq_keep {B} t L debt (f : World -> option (World * B)) Q :
  ok_prog t L (sec f) Q -> keeps_accounts f ->
  hoare (serial t L (accounts debt)) (sec f) (fun b => serial t (Q b) (accounts debt)).
Proof.
  intros Hok Hk. apply seq_sec; [done|]. intros w w' b _ _ Hac Hf. by apply (Hk debt w w' b).
Qed.

Lemma keeps_room {B} r (g : RoomState -> RoomState * B) :
  (forall st, owner_ip_key (g st).1 = owner_ip_key st) -> keeps_accounts (with_room r g).
Proof. intros Hg debt w w' b Hf Hac. by eapply accounts_room. Qed.

Lemma keeps_event {B} ev r (g : RoomState -> RoomState * B) :
  (forall st, (g st).1 = room_apply st ev) -> keeps_accounts (with_room r g).
Proof. intros Hg. apply keeps_room. intros st. by rewrite Hg, owner_apply. Qed.

Lemma keeps_room_token {B} r (g : RoomState -> CancellationToken -> RoomState * B) :
  (forall st cancel, owner_ip_key (g st cancel).1 = owner_ip_key st) ->
  keeps_accounts (with_room_token r g).
Proof.
  intros Hg debt w w' b Hf Hac. unfold with_room_token in Hf.
  eapply accounts_room; [|eapply accounts_quiet; [..|exact Hac]|exact Hf]; try done.
  intros st. apply Hg.
Qed.

(** A section that touches neither the rooms nor the quota. *)
Definition quiet {B} (f : World -> option (World * B)) : Prop :=
  forall w w' b, f w = Some (w', b) ->
    w_heap w' = w_heap w /\ w_rooms w' = w_rooms w /\ w_rooms_per_ip w' = w_rooms_per_ip w.

Lemma keeps_quiet {B} (f : World -> option (World * B)) : quiet f -> keeps_accounts f.
Proof.
  intros Hq debt w w' b Hf. destruct (Hq w w' b Hf) as (? & ? & ?). by apply accounts_quiet.
Qed.

Lemma keeps_perform a : keeps_accounts (perform a).
Proof. apply keeps_quiet. by intros w w' b [= <- <-]. Qed.

Lemma keeps_read {B} (g : World -> B) : keeps_accounts (with_rooms (fun w => (w, g w))).
Proof.
  apply keeps_quiet. intros w w' b. unfold with_rooms. destruct (w_writer w); [done|].
  by intros [= <- _].
Qed.

Lemma keeps_lock {B} t (g : gmap string nat -> B) : keeps_accounts (lock_rooms t g).
Proof.
  apply keeps_quiet. intros w w' b. unfold lock_rooms. destruct (w_writer w); [done|].
  by intros [= <- _].
Qed.

Lemma keeps_unlock : keeps_accounts unlock_rooms.
Proof. apply keeps_quiet. by intros w w' b [= <- _]. Qed.

Lemma seq_perform_all t L debt l :
  (forall a, ok_prog t L (sec (perform a)) (fun _ => L)) ->
  hoare (serial t L (accounts debt)) (perform_all l) (fun _ => serial t L (accounts debt)).
Proof.
  intros Hok. induction l as [|a l IH]; cbn [perform_all]; [by apply hoare_ret|].
  eapply hoare_bind; [apply (seq_keep t L debt (perform a) (fun _ => L)); auto using keeps_perform|].
  by intros ?.
Qed.

Lemma seq_terminal t refs closed debt :
  hoare (serial t (knows t None refs closed) (accounts debt)) record_terminal_mutation
    (fun _ => serial t (knows t None refs closed) (accounts debt)).
Proof.
  eapply hoare_bind; [apply seq_keep; [apply ok_perform|apply keeps_perform]|].
  intros ?. apply hoare_ask.
Qed.

Lemma seq_release t lock refs closed k :
  hoare (serial t (knows t lock refs closed) (accounts (Some k))) (release_room_quota k)
    (fun _ => serial t (knows t lock refs closed) (accounts None)).
Proof.
  eapply seq_sec; [apply ok_quota|]. intros w w' b _ _ Hac [= <- <-]. by apply accounts_release.
Qed.

Lemma seq_claim t lock refs closed k :
  hoare (serial t (knows t lock refs closed) (accounts None)) (try_claim_room_quota k)
    (fun claimed => serial t (knows t lock refs closed)
                      (accounts (if claimed then Some k else None))).
Proof.
  eapply seq_sec; [apply ok_quota|]. intros w w' b _ _ Hac. unfold with_quota.
  pose proof (accounts_claim k w Hac) as Hcl. destruct (claim_quota _ _) as [q claimed].
  intros [= <- <-]. apply Hcl.
Qed.

(** Removing the entry of a closing room leaves its slot to be released. *)
Lemma seq_remove_entry_if t refs closed r :
  r ∈ closed ->
  hoare (serial t (knows t None refs closed) (accounts None))
    (sec (with_rooms (remove_entry_if r)))
    (fun removed => serial t (knows t None refs closed)
       (fun w => if removed
                 then exists owner, owner_of w r = Some owner /\ accounts (Some owner) w
                 else accounts None w)).
Proof.
  intros Hr. eapply seq_sec; [by apply ok_remove_entry_if|].
  intros w w' b Hw Hk Hac. unfold with_rooms, remove_entry_if.
  destruct (w_writer w); [done|]. destruct (w_heap w !! r) as [st|] eqn:Hst; [|by intros [= <- <-]].
  case_bool_decide as Hreg; intros [= <- <-]; [|done].
  assert (Ho : owner_of w r = Some (owner_ip_key st)) by (unfold owner_of; by rewrite Hst).
  exists (owner_ip_key st). split; [done|]. by eapply accounts_removed.
Qed.

Lemma seq_remove_if_current t refs closed r :
  r ∈ refs -> r ∈ closed ->
  hoare (serial t (knows t None refs closed) (accounts None)) (remove_if_current r)
    (fun _ => serial t (knows t None refs closed) (accounts None)).
Proof.
  intros Hr Hc. unfold remove_if_current.
  eapply hoare_bind; [by apply seq_remove_entry_if|]. intros [|]; [|by apply hoare_ret].
  eapply hoare_bind.
  - eapply (seq_sec t _ _ _ _ (fun owner => accounts (Some owner))); [by apply ok_read|].
    intros w w' b _ _ (owner & Ho & Hac) Hf. pose proof Hf as Hf2. unfold with_room in Hf2.
    unfold owner_of in Ho. destruct (w_heap w !! r) as [st|] eqn:Hst; [|done].
    injection Ho as <-. injection Hf2 as _ <-.
    by apply (accounts_room _ r (fun st => (st, owner_ip_key st)) w w' (owner_ip_key st)).
  - intros owner. eapply hoare_bind; [apply seq_release|]. intros ?. by apply hoare_ret.
Qed.

(** The accounted state between operations, with references [refs]. *)
Abbreviation between t refs := (serial t (knows t None refs []) (accounts None)).

Lemma seq_weaken_refs t refs refs' closed E w :
  refs' ⊆ refs ->
  serial t (knows t None refs closed) E w -> serial t (knows t None refs' []) E w.
Proof. intros Hsub [Hw Hk Ha Hx]. split; [done| |done..]. eapply knows_weaken; [..|exact Hk]; set_solver. Qed.

(** The session that ends is registered and owned by the one it returns. *)
Definition ending (r : nat) (begun : result (string * list Sender) Effects) (w : World) : Prop :=
  accounts None w
  /\ match begun with
     | Ok (owner, _) => owner_of w r = Some owner
         /\ exists st, w_heap w !! r = Some st /\ w_rooms w !! session_id st = Some r
     | Err _ => True
     end.

Lemma begin_end_registered r id c token v w w' begun :
  world_wf w -> accounts None w ->
  with_room r (fun st => begin_end_session st id c token v) w = Some (w', begun) ->
  ending r begun w'.
Proof.
  intros Hw Hac Hf. split.
  - eapply (keeps_event (EvBeginEnd id c token v)); [|exact Hf|exact Hac]. done.
  - unfold with_room in Hf. destruct (w_heap w !! r) as [st|] eqn:Hst; [|done].
    destruct (begin_end_session st id c token v) as [st' b] eqn:Hb. injection Hf as <- <-.
    destruct b as [[owner guests]|]; [|done]. unfold begin_end_session in Hb.
    destruct (closing st) eqn:Hcl; [done|]. repeat case_match; simplify_eq.
    unfold owner_of. cbn [set_heap w_heap w_rooms]. rewrite lookup_insert_eq. split; [done|].
    eexists. split; [done|]. cbn [set_closing session_id]. by apply (wf_open w Hw).
Qed.

Lemma seq_end_session t r id c token v refs :
  r ∈ refs ->
  hoare (between t refs) (end_session r id c token v) (fun _ => between t refs).
Proof.
  intros Hr. unfold end_session. eapply hoare_bind.
  - eapply (seq_sec t _ _ _ _ (ending r)).
    + apply (ok_with_room (fun b : result (string * list Sender) Effects => is_ok b)); [done| |].
      * by apply (event_fun_ok (EvBeginEnd id c token v)).
      * intros st. unfold begin_end_session. by repeat case_match.
    + intros w w' b Hw _ Hac. by apply begin_end_registered.
  - intros [[owner guests]|e]; cbn [is_ok].
    2: { apply hoare_ret. intros w [Hw Hk Ha [Hac _]]. by split. }
    eapply hoare_bind with (Q := fun _ => serial t (knows t None refs [r]) (accounts (Some owner))).
    { apply (seq_sec t (knows t None refs [r]) (ending r (Ok (owner, guests)))
               (with_rooms (remove_entry_if r)) (fun _ => knows t None refs [r])
               (fun _ => accounts (Some owner))); [apply ok_remove_entry_if; left|].
      intros w w' b _ _ (Hac & Ho & st & Hst & Hreg). unfold with_rooms, remove_entry_if.
      destruct (w_writer w); [done|]. rewrite Hst, bool_decide_eq_true_2 by done.
      intros [= <- _]. by eapply accounts_removed. }
    intros ?. eapply hoare_bind; [apply seq_release|]. intros ?.
    eapply hoare_bind; [apply seq_terminal|]. intros persisted.
    eapply hoare_weaken; [intros w Hw; exact Hw| |
      apply (seq_keep t (knows t None refs [r]) None _ (fun _ => knows t None refs [r]))].
    + intros e w. by apply seq_weaken_refs.
    + by apply (ok_event (EvFinishEnd guests persisted)).
    + by apply (keeps_event (EvFinishEnd guests persisted)).
Qed.

Lemma seq_leave t r id c token v now refs :
  r ∈ refs ->
  hoare (between t refs) (leave r id c token v now) (fun _ => between t refs).
Proof.
  intros Hr. unfold leave. eapply hoare_bind.
  - apply seq_keep; [by apply (ok_event (EvBeginLeave id c token v))|].
    by apply (keeps_event (EvBeginLeave id c token v)).
  - intros [[]|e]; [|by apply hoare_ret].
    eapply hoare_bind; [apply seq_terminal|]. intros persisted.
    apply seq_keep; [by apply (ok_event (EvFinishLeave id c persisted now))|].
    by apply (keeps_event (EvFinishLeave id c persisted now)).
Qed.

(** ** Creation *)

Lemma seq_refuse_create t entry refs closed e :
  hoare (serial t (knows t (Some entry) refs closed) (accounts None))
    (sec unlock_rooms ;! Ret (None, e))
    (fun res => serial t (knows t None (result_refs res ++ refs) closed) (accounts None)).
Proof.
  eapply hoare_bind; [apply seq_keep; [apply ok_unlock_rooms|apply keeps_unlock]|].
  intros ?. by apply hoare_ret.
Qed.

Lemma seq_insert_new_room t sid host v token owner adm now refs closed :
  hoare (serial t (knows t (Some (sid, None)) refs closed) (accounts (Some owner)))
    (sec (locked (insert_new_room sid host v token owner adm now)))
    (fun res => serial t (knows t (Some (sid, Some res.1)) (res.1 :: refs) closed)
                  (accounts None)).
Proof.
  apply (seq_sec t _ _ _ (fun res : nat * Effects => knows t (Some (sid, Some res.1)) (res.1 :: refs) closed)
           (fun _ => accounts None)).
  - apply ok_sec; [intros; apply knows_stable|]. intros w Hw Hk. unfold locked.
    pose proof (insert_new_room_wf t sid host v token owner adm now refs closed w Hw Hk) as Hins.
    by destruct (insert_new_room _ _ _ _ _ _ _ w) as [w' [room e]].
  - intros w w' b Hw [[_ Hsid] _ _] Hac. unfold locked, insert_new_room.
    destruct (new_room _ _ _ _ _ _ _ _) as [st e] eqn:Hnew. cbn [alloc].
    intros [= <- _].
    assert (Ho : owner_ip_key st = owner) by (unfold new_room in Hnew; by injection Hnew as <- _).
    apply (accounts_inserted w _ sid (w_next_ref w) owner); try done.
    + unfold owner_of. cbn [set_rooms set_next_token w_heap w_next_ref].
      by rewrite lookup_insert_eq, <- Ho.
    + intros sid' r Hr. unfold owner_of. cbn [set_rooms set_next_token w_heap w_next_ref].
      destruct (wf_table w Hw sid' r Hr) as (st' & Hst' & _).
      apply (wf_refs w Hw) in Hst'. rewrite lookup_insert_ne by lia. done.
Qed.

Lemma seq_create_fresh t sid host v token owner adm now refs closed :
  hoare (serial t (knows t (Some (sid, None)) refs closed) (accounts None))
    (create_fresh sid host v token owner adm now)
    (fun res => serial t (knows t None (result_refs res ++ refs) closed) (accounts None)).
Proof.
  unfold create_fresh. eapply hoare_bind; [apply seq_keep; [apply ok_locked_read|]|].
  { apply keeps_quiet. by intros w w' b [= <- _]. }
  intros retained. destruct (MAX_RETAINED_ROOMS <=? retained); [apply seq_refuse_create|].
  eapply hoare_bind; [apply seq_claim|]. intros [|]; [|apply seq_refuse_create].
  eapply hoare_bind; [apply seq_insert_new_room|]. intros [room e]. cbn [fst].
  eapply hoare_bind; [apply seq_keep; [apply ok_unlock_rooms|apply keeps_unlock]|]. intros ?.
  eapply hoare_bind; [apply seq_keep; [apply ok_perform|apply keeps_perform]|].
  intros ?. by apply hoare_ret.
Qed.

(** A room that is reclaimed: registered under the lock, with this owner. *)
Definition reclaimed (sid : string) (r : nat) (owner : string) (w : World) : Prop :=
  accounts None w /\ owner_of w r = Some owner.

Lemma seq_reclaim t sid r refs :
  hoare (serial t (knows t (Some (sid, Some r)) (r :: refs) []) (accounts None))
    (sec (with_room r (fun st => (st, owner_ip_key st))))
    (fun owner => serial t (knows t (Some (sid, Some r)) (r :: refs) []) (reclaimed sid r owner)).
Proof.
  apply (seq_sec t _ _ _ (fun _ => knows t (Some (sid, Some r)) (r :: refs) []));
    [apply ok_read; left|].
  intros w w' b _ _ Hac Hf. split.
  - by apply (accounts_room None r (fun st => (st, owner_ip_key st)) w w' b).
  - unfold with_room in Hf. destruct (w_heap w !! r) as [st|] eqn:Hst; [|done].
    injection Hf as <- <-. unfold owner_of. cbn [set_heap w_heap]. by rewrite lookup_insert_eq.
Qed.

Lemma seq_close_reclaimed t sid r owner refs :
  hoare (serial t (knows t (Some (sid, Some r)) (r :: refs) []) (reclaimed sid r owner))
    (sec (with_room r (fun st => (set_closing st true, tt))))
    (fun _ => serial t (knows t (Some (sid, Some r)) (r :: refs) [r]) (reclaimed sid r owner)).
Proof.
  apply (seq_sec t _ _ _ (fun _ => knows t (Some (sid, Some r)) (r :: refs) [r]));
    [apply ok_close; left|].
  intros w w' b _ _ [Hac Ho] Hf. split.
  - by apply (accounts_room None r (fun st => (set_closing st true, tt)) w w' b).
  - unfold with_room in Hf. unfold owner_of in *. destruct (w_heap w !! r) as [st|] eqn:Hst; [|done].
    injection Hf as <- <-. cbn [set_heap w_heap]. rewrite lookup_insert_eq. done.
Qed.

Lemma seq_remove_reclaimed t sid r owner refs :
  hoare (serial t (knows t (Some (sid, Some r)) (r :: refs) [r]) (reclaimed sid r owner))
    (sec (locked (fun w => (set_rooms w (delete sid (w_rooms w)), tt))))
    (fun _ => serial t (knows t (Some (sid, None)) (r :: refs) [r]) (accounts (Some owner))).
Proof.
  apply (seq_sec t _ _ _ (fun _ => knows t (Some (sid, None)) (r :: refs) [r])
           (fun _ => accounts (Some owner))); [apply ok_remove_locked; left|].
  intros w w' b _ [[_ Hsid] _ _] [Hac Ho] [= <- _]. by eapply accounts_removed.
Qed.

Lemma seq_create t sid host token owner adm now refs :
  hoare (between t refs) (create t sid host token owner adm now)
    (fun res => between t (result_refs res ++ refs)).
Proof.
  unfold create. destruct (from_token token) as [v|]; [|by apply hoare_ret].
  eapply hoare_bind; [apply seq_keep; [apply ok_lock_rooms|apply keeps_lock]|].
  intros [existing|]; [|apply seq_create_fresh]. cbn [option_list app].
  eapply hoare_bind; [apply seq_keep; [apply ok_read; left|by apply keeps_room]|].
  intros [|].
  - eapply hoare_bind.
    { apply seq_keep; [apply ok_room_token; [left|]|by apply keeps_room_token].
      intros cancel. by apply (event_fun_ok (EvReconnect adm token now cancel)). }
    intros e. eapply hoare_bind; [apply seq_keep; [apply ok_unlock_rooms|apply keeps_unlock]|].
    intros ?. eapply hoare_bind; [apply seq_keep; [apply ok_perform|apply keeps_perform]|].
    intros ?. by apply hoare_ret.
  - eapply hoare_bind; [apply seq_keep; [apply ok_read; left|by apply keeps_room]|].
    intros [|].
    2: { eapply hoare_bind; [apply seq_keep; [apply ok_unlock_rooms|apply keeps_unlock]|].
         intros ?. apply hoare_ret. intros w. apply seq_weaken_refs. simpl. set_solver. }
    eapply hoare_bind; [apply seq_reclaim|]. intros old_owner.
    eapply hoare_bind; [apply seq_close_reclaimed|]. intros ?.
    eapply hoare_bind; [apply seq_remove_reclaimed|]. intros ?.
    eapply hoare_bind; [apply seq_release|]. intros ?.
    eapply hoare_weaken; [intros w Hw; exact Hw| |apply seq_create_fresh].
    intros res w. apply seq_weaken_refs. set_solver.
Qed.

(** ** Messages *)

Abbreviation between_conn t c := (between t (conn_refs c)).

Lemma seq_apply_effects t tx e refs :
  hoare (between t refs) (apply_effects tx e) (fun _ => between t refs).
Proof. apply seq_perform_all. intros a. apply ok_perform. Qed.

Lemma seq_apply_then t tx e c refs :
  conn_refs c ⊆ refs ->
  hoare (between t refs) (apply_effects tx e ;! Ret c) (fun c => between_conn t c).
Proof.
  intros Hsub. eapply hoare_bind; [apply seq_apply_effects|]. intros ?.
  apply hoare_ret. intros w. by apply seq_weaken_refs.
Qed.

Lemma seq_refuse t tx c msg :
  hoare (between_conn t c) (refuse tx c msg) (fun c => between_conn t c).
Proof.
  eapply hoare_bind; [apply seq_keep; [apply ok_perform|apply keeps_perform]|].
  intros ?. by apply hoare_ret.
Qed.

Lemma seq_handle_join t tx ck msg c :
  hoare (between_conn t c) (handle_join tx ck msg c) (fun c => between_conn t c).
Proof.
  unfold handle_join. destruct (negb _); [apply seq_refuse|].
  destruct (negb _); [apply seq_refuse|].
  eapply hoare_bind; [apply seq_keep; [apply ok_get|apply keeps_read]|].
  intros [room|]; [|apply seq_refuse]. cbn [option_list app]. eapply hoare_bind.
  - apply seq_keep; [apply ok_room_token; [left|]|apply keeps_room_token].
    + intros cancel.
      by apply (event_fun_ok (EvJoin msg (admission_of tx msg)
        (cm_msg_type msg == client_type.RESUME) (ck_now ck) (ck_inow ck) cancel)).
    + intros st cancel.
      apply (owner_apply st (EvJoin msg (admission_of tx msg)
        (cm_msg_type msg == client_type.RESUME) (ck_now ck) (ck_inow ck) cancel)).
  - intros e. apply seq_apply_then. destruct (eff_assigned_conn_id e); set_solver.
Qed.

Lemma seq_event_then {B} ev t r refs (g : RoomState -> RoomState * B) (k : B -> prog World Conn) :
  r ∈ refs -> quiet_event ev = true -> (forall st, (g st).1 = room_apply st ev) ->
  (forall b, hoare (between t refs) (k b) (fun c => between_conn t c)) ->
  hoare (between t refs) (bind (sec (with_room r g)) k) (fun c => between_conn t c).
Proof.
  intros Hr Hq Hg Hk. eapply hoare_bind; [|exact Hk].
  apply seq_keep; [by apply (ok_event ev)|by apply (keeps_event ev)].
Qed.

Lemma seq_handle_message t tx ip_key ck msg c :
  hoare (between_conn t c) (handle_message t tx ip_key ck msg c) (fun c => between_conn t c).
Proof.
  unfold handle_message. destruct (_ == client_type.PING); [apply seq_refuse|].
  destruct (_ && _); [apply seq_refuse|].
  destruct (_ == client_type.CREATE).
  { unfold handle_create. destruct (negb _); [apply seq_refuse|].
    destruct (negb _); [apply seq_refuse|]. eapply hoare_bind; [apply seq_create|].
    intros [room e]. apply seq_apply_then. unfold result_refs. cbn [fst].
    destruct room, (eff_assigned_conn_id e); set_solver. }
  destruct (_ || _); [apply seq_handle_join|]. unfold in_room.
  repeat match goal with |- hoare _ (if ?b then _ else _) _ => destruct b end;
    try apply seq_refuse;
    (destruct (current_room c) as [room|] eqn:Hroom; [|apply seq_refuse]);
    apply room_in_conn in Hroom;
    unfold handle_leave, handle_end_session, handle_transfer_host, handle_broadcast, handle_send_to;
    try (destruct (negb _); [apply seq_refuse|]).
  - eapply hoare_bind; [by apply seq_leave|]. intros e. apply seq_apply_then.
    destruct (negb _); [apply list_subseteq_nil|done].
  - eapply hoare_bind; [by apply seq_end_session|]. intros e.
    apply seq_apply_then, list_subseteq_nil.
  - apply (seq_event_then (EvTransfer (current_peer_id c) (current_conn_id c)
      (cm_protocol_version msg) (cm_to msg))); [done..|]. intros e. by apply seq_apply_then.
  - apply (seq_event_then (EvBroadcast (current_peer_id c) (current_conn_id c)
      (cm_payload msg) (ck_now ck))); [done..|]. intros e. by apply seq_apply_then.
  - apply (seq_event_then (EvSendTo (current_peer_id c) (current_conn_id c) (cm_to msg)
      (cm_payload msg) (ck_now ck))); [done..|]. intros e. by apply seq_apply_then.
Qed.

Lemma seq_finish_connection t tx ck c :
  hoare (between_conn t c) (finish_connection tx ck c) (fun _ => between t []).
Proof.
  unfold finish_connection.
  assert (Hend : forall w, between_conn t c w -> between t [] w)
    by (intros w; apply seq_weaken_refs, list_subseteq_nil).
  destruct (current_room c) as [room|] eqn:Hroom; [|by apply hoare_ret].
  destruct (_ == ""); [by apply hoare_ret|]. apply room_in_conn in Hroom.
  eapply hoare_bind.
  - apply seq_keep; [by apply (ok_event (EvDisconnect (current_peer_id c) (current_conn_id c) (ck_now ck) (ck_inow ck)))|].
    by apply (keeps_event (EvDisconnect (current_peer_id c) (current_conn_id c) (ck_now ck) (ck_inow ck))).
  - intros e. eapply hoare_weaken; [intros w Hw; exact Hw|intros ?; exact Hend|
      apply seq_apply_effects].
Qed.

(** ** The sweep *)

Lemma sweep_owner now inow st :
  owner_ip_key (sweep_state now inow st).1 = owner_ip_key st.
Proof.
  rewrite sweep_state_events. cbv zeta.
  destruct (sweep_state now inow st).2.1.1; by rewrite !owner_apply.
Qed.

Lemma seq_sweep_room t now inow r refs :
  r ∈ refs -> hoare (between t refs) (sweep_room now inow r) (fun _ => between t refs).
Proof.
  intros Hr. unfold sweep_room. eapply hoare_bind.
  - apply seq_keep.
    + apply (ok_with_room (fun b : bool * bool * list CancellationToken => b.1.1)); [done| |].
      * apply sweep_fun_ok.
      * intros st. apply sweep_closes.
    + apply keeps_room. intros st. apply sweep_owner.
  - intros [[remove changed] evict]. cbn [fst].
    eapply hoare_bind with (Q := fun _ => between t refs).
    + destruct remove; [|by apply hoare_ret].
      eapply hoare_bind; [eapply seq_remove_if_current; [done|left]|].
      intros ?. apply hoare_ret. intros w. by apply seq_weaken_refs.
    + intros ?. eapply hoare_bind with (Q := fun _ => between t refs).
      * destruct changed; [|by apply hoare_ret].
        apply seq_keep; [apply ok_perform|apply keeps_perform].
      * intros ?. apply seq_perform_all. intros act. apply ok_perform.
Qed.

Lemma seq_sweep t now inow inow_logs :
  hoare (between t []) (sweep now inow inow_logs) (fun _ => between t []).
Proof.
  unfold sweep. eapply hoare_bind; [apply seq_keep; [apply ok_all_rooms|apply keeps_read]|].
  intros rooms. eapply hoare_bind with (Q := fun _ => between t (rooms ++ [])).
  - assert (Hloop : forall l, l ⊆ rooms ++ [] ->
      hoare (between t (rooms ++ [])) (sweep_rooms now inow l) (fun _ => between t (rooms ++ []))).
    { induction l as [|r l IH]; intros Hsub; cbn [sweep_rooms]; [by apply hoare_ret|].
      eapply hoare_bind; [apply seq_sweep_room; set_solver|]. intros ?. apply IH. set_solver. }
    apply Hloop. set_solver.
  - intros ?. eapply hoare_weaken; [intros w Hw; exact Hw| |apply seq_keep].
    + intros ? w. apply seq_weaken_refs, list_subseteq_nil.
    + apply (ok_quiet t None (rooms ++ []) []). intros w. do 2 eexists. by split_and!.
    + apply keeps_quiet. by intros w w' b [= <- <-].
Qed.

(** ** The quota theorem *)

(** No operation is in progress, and the accounts are exact. *)
Definition idle_world (w : World) : Prop :=
  world_wf w /\ w_writer w = None /\ accounts None w.

Definition conn_alive (w : World) (c : Conn) : Prop :=
  Forall (fun r => is_Some (w_heap w !! r)) (conn_refs c).

Lemma serial_idle t refs w :
  between t refs w <-> idle_world w /\ Forall (fun r => is_Some (w_heap w !! r)) refs.
Proof.
  split.
  - intros [Hw [Hl Hr _] Ha Hac]. split; [|done]. split_and!; [done| |done].
    destruct (w_writer w) as [t'|] eqn:E; [|done].
    destruct (decide (t' = t)) as [->|Hne]; [done|]. by destruct (Ha t' Hne).
  - intros [(Hw & Hwr & Hac) Hr]. split; [done|split; [by rewrite Hwr|done..]| |done].
    intros t' _. by rewrite Hwr.
Qed.

Lemma boot_accounts restored : bootable restored -> accounts None (boot restored).
Proof.
  intros [Hnd Hall]. unfold boot, restore_rooms.
  assert (Hgen : forall w, world_wf w -> w_writer w = None -> accounts None w ->
    (forall r, r ∈ restored -> rst_session_id r ∉ dom (w_rooms w)) ->
    accounts None (foldl restore_room w restored)).
  { induction restored as [|r restored IH]; intros w Hw Hwr Hac Hnew; [done|]. cbn [foldl].
    cbn [fmap list_fmap] in Hnd. apply NoDup_cons in Hnd as [Hr Hnd].
    apply Forall_cons in Hall as [[Hhost Hsize] Hall].
    assert (Hnone : w_rooms w !! rst_session_id r = None) by (apply not_elem_of_dom, Hnew; left).
    destruct (restore_room_wf w r) as (Hw' & Hwr' & Hdom); try done.
    apply IH; [done..| |].
    - unfold restore_room. cbn [alloc]. set (st := restore _ _ _ _ _ _ _).
      destruct Hac as [Hc Hz Hm].
      assert (Hold : forall sid r', w_rooms w !! sid = Some r' ->
                w_heap w !! r' = <[w_next_ref w := st]> (w_heap w) !! r').
      { intros sid r' Hr'. destruct (wf_table w Hw sid r' Hr') as (st' & Hst' & _).
        apply (wf_refs w Hw) in Hst'. by rewrite lookup_insert_ne by lia. }
      split; intros k; cbn [set_rooms_per_ip set_rooms w_rooms_per_ip].
      + rewrite (owned_insert w _ (rst_session_id r) (w_next_ref w) "" k); [|done|done| |].
        * destruct (decide (k = "")) as [->|Hk].
          -- rewrite lookup_insert_eq, !Hc. simpl. lia.
          -- rewrite lookup_insert_ne, Hc by done.
             rewrite (bool_decide_eq_false_2 ("" = k)) by done. simpl. lia.
        * unfold owner_of. cbn [set_rooms_per_ip set_rooms w_heap]. by rewrite lookup_insert_eq.
        * intros sid r' Hr'. unfold owner_of. cbn [set_rooms_per_ip set_rooms w_heap].
          by rewrite <- (Hold sid r').
      + destruct (decide (k = "")) as [->|Hk]; [rewrite lookup_insert_eq; intros [=]; lia|].
        by rewrite lookup_insert_ne.
      + intros Hk. rewrite lookup_insert_ne by done. by apply Hm.
    - intros r' Hr'. rewrite Hdom. intros [Heq|Hin]%elem_of_union.
      + apply elem_of_singleton in Heq. apply Hr. rewrite <- Heq. by apply list_elem_of_fmap_2.
      + by apply (Hnew r'); [right|]. }
  apply Hgen; [by split|done| |].
  - split; intros k; cbn [empty_world w_rooms_per_ip]; rewrite lookup_empty;
      [|done|simpl; unfold MAX_ROOMS_PER_IP; lia].
    unfold owned. cbn [empty_world w_rooms]. by rewrite map_filter_empty, map_size_empty.
  - intros r _. cbn [empty_world w_rooms]. rewrite dom_empty_L. set_solver.
Qed.

(** C11: the room quota is exact.  After a restart, and then after every
    message, closed connection and cleanup sweep that runs without
    interference, the per-owner counters equal the numbers of registered rooms
    of each owner, no counter is zero, and no client owns more than three
    rooms.  Each of these operations returns, and leaves the table unlocked
    and the world well formed. *)
Theorem quota_exact_serial :
  (forall restored, bootable restored -> idle_world (boot restored))
  /\ (forall answer w t tx ip_key ck msg c, idle_world w -> conn_alive w c ->
        exists w' c', run answer (handle_message t tx ip_key ck msg c) w = Some (w', c')
          /\ idle_world w' /\ conn_alive w' c')
  /\ (forall answer w tx ck c, idle_world w -> conn_alive w c ->
        exists w', run answer (finish_connection tx ck c) w = Some (w', tt) /\ idle_world w')
  /\ (forall answer w now inow inow_logs, idle_world w ->
        exists w', run answer (sweep now inow inow_logs) w = Some (w', tt) /\ idle_world w').
Proof.
  split_and!.
  - intros restored Hboot. destruct (boot_wf restored Hboot) as [Hw Hwr].
    split_and!; [done..|by apply boot_accounts].
  - intros answer w t tx ip_key ck msg c Hidle Hc.
    destruct (seq_handle_message t tx ip_key ck msg c answer w) as (w' & c' & Hrun & Hs);
      [by apply serial_idle|]. apply serial_idle in Hs as [? ?]. by exists w', c'.
  - intros answer w tx ck c Hidle Hc.
    destruct (seq_finish_connection 0 tx ck c answer w) as (w' & [] & Hrun & Hs);
      [by apply serial_idle|]. apply serial_idle in Hs as [? _]. by exists w'.
  - intros answer w now inow inow_logs Hidle.
    destruct (seq_sweep 0 now inow inow_logs answer w) as (w' & [] & Hrun & Hs);
      [by apply serial_idle|]. apply serial_idle in Hs as [? _]. by exists w'.
Qed.

(** ** The outcomes of [create] *)

Definition refused_with (w w' : World) (room : option nat) (e : Effects)
    (err : ClientError) (text : string) : Prop :=
  w_heap w' = w_heap w /\ w_rooms w' = w_rooms w /\ w_actions w' = w_actions w
  /\ room = None /\ e = effects_error err text.

(** From a world [w] in which the id is free. *)
Definition fresh_outcome (sid host : string) (v : Verifier) (token owner : string)
    (adm : Admission) (now : SystemTime) (w w' : World) (room : option nat) (e : Effects) : Prop :=
  if MAX_RETAINED_ROOMS <=? size (w_rooms w)
  then refused_with w w' room e RateLimited "Too many retained rooms"
  else if MAX_ROOMS_PER_IP <=? owned w owner
  then refused_with w w' room e RateLimited "Too many rooms created"
  else
  let '(st, effects) := new_room sid host v token owner adm now (w_next_token w) in
  room = Some (w_next_ref w) /\ e = effects
  /\ w_heap w' = <[w_next_ref w := st]> (w_heap w)
  /\ w_rooms w' = <[sid := w_next_ref w]> (w_rooms w)
  /\ w_actions w' = w_actions w ++ [Mutate].

Lemma run_create_fresh answer sid host v token owner adm now w :
  accounts None w ->
  exists w' room e,
    run answer (create_fresh sid host v token owner adm now) w = Some (w', (room, e))
    /\ w_writer w' = None /\ fresh_outcome sid host v token owner adm now w w' room e.
Proof.
  intros Hac. unfold create_fresh, fresh_outcome. rewrite run_bind. cbn [sec run locked].
  destruct (MAX_RETAINED_ROOMS <=? size (w_rooms w)).
  { do 3 eexists. split; [reflexivity|]. by split_and!. }
  rewrite run_bind. unfold try_claim_room_quota. cbn [sec run]. unfold with_quota.
  pose proof (accounts_claim owner w Hac) as Hcl.
  destruct (claim_quota (w_rooms_per_ip w) owner) as [q claimed]. destruct Hcl as [-> _].
  rewrite Nat.ltb_antisym. destruct (MAX_ROOMS_PER_IP <=? owned w owner); cbn [negb].
  { do 3 eexists. split; [reflexivity|]. by split_and!. }
  rewrite run_bind. cbn [sec run locked]. unfold insert_new_room.
  cbn [set_rooms_per_ip w_next_token w_next_ref].
  destruct (new_room _ _ _ _ _ _ _ _) as [st effects] eqn:Hnew. cbn [alloc].
  do 3 eexists. split; [reflexivity|]. by split_and!.
Qed.

(** The world after a reclaimed room is gone. *)
Definition reclaim (w : World) (sid : string) (r : nat) (st : RoomState) : World :=
  set_rooms_per_ip
    (set_rooms (set_heap w (<[r := set_closing st true]> (w_heap w))) (delete sid (w_rooms w)))
    (release_quota (w_rooms_per_ip w) (owner_ip_key st)).

Lemma reclaim_accounts w sid r st :
  accounts None w -> w_rooms w !! sid = Some r -> w_heap w !! r = Some st ->
  accounts None (reclaim w sid r st).
Proof.
  intros Hac Hsid Hst. unfold reclaim.
  set (w1 := set_heap w (<[r := set_closing st true]> (w_heap w))).
  assert (Hac1 : accounts None w1).
  { eapply accounts_same; [..|exact Hac]; [done..|]. intros sid' r' _. unfold owner_of, w1.
    cbn [set_heap w_heap]. destruct (decide (r' = r)) as [->|].
    - by rewrite lookup_insert_eq, Hst.
    - by rewrite lookup_insert_ne. }
  apply (accounts_release (owner_ip_key st) (set_rooms w1 (delete sid (w_rooms w1)))).
  apply (accounts_removed w1 sid r); [done|done|].
  unfold owner_of, w1. cbn [set_heap w_heap]. by rewrite lookup_insert_eq.
Qed.

Lemma run_read {A B} answer r (g : RoomState -> B) (k : B -> prog World A) w st :
  w_heap w !! r = Some st ->
  run answer (bind (sec (with_room r (fun st => (st, g st)))) k) w = run answer (k (g st)) w.
Proof.
  intros Hst. rewrite run_bind. cbn [sec run]. unfold with_room. rewrite Hst.
  rewrite insert_id by done. by destruct w.
Qed.

Lemma run_room {A B} answer r (g : RoomState -> RoomState * B) (k : B -> prog World A) w st :
  w_heap w !! r = Some st ->
  run answer (bind (sec (with_room r g)) k) w =
  run answer (k (g st).2) (set_heap w (<[r := (g st).1]> (w_heap w))).
Proof.
  intros Hst. rewrite run_bind. cbn [sec run]. unfold with_room. rewrite Hst.
  by destruct (g st).
Qed.

Lemma run_sec {A B} answer (f : World -> option (World * B)) (k : B -> prog World A) w w' b :
  f w = Some (w', b) -> run answer (bind (sec f) k) w = run answer (k b) w'.
Proof. intros Hf. rewrite run_bind. cbn [sec run]. by rewrite Hf. Qed.

Lemma create_outcome answer t sid host token owner adm now w (Hidle : idle_world w) :
  exists w' room e,
    run answer (create t sid host token owner adm now) w = Some (w', (room, e))
    /\ w_writer w' = None
    /\ match from_token token with
       | None => refused_with w w' room e InvalidMessage "Invalid reconnect token"
       | Some v =>
         match w_rooms w !! sid with
         | None => fresh_outcome sid host v token owner adm now w w' room e
         | Some r =>
           exists st, w_heap w !! r = Some st /\ session_id st = sid
           /\ if negb (closing st) && (host_peer_id st == host) && matches (host_verifier st) v
              then let '(st', effects) := reconnect_host st adm token now (w_next_token w) in
                   room = Some r /\ e = effects
                   /\ w_heap w' = <[r := st']> (w_heap w) /\ w_rooms w' = w_rooms w
                   /\ w_actions w' = w_actions w ++ [Mutate]
              else if is_reclaimable st
              then fresh_outcome sid host v token owner adm now (reclaim w sid r st) w' room e
              else refused_with w w' room e RoomExists "Room already exists"
         end
       end.
Proof.
  destruct Hidle as (Hw & Hwr & Hac). unfold create.
  destruct (from_token token) as [v|].
  2: { do 3 eexists. split; [reflexivity|]. by split_and!. }
  set (wl := set_writer w (Some t)).
  erewrite run_sec by (unfold lock_rooms; by rewrite Hwr). fold wl.
  destruct (w_rooms w !! sid) as [r|] eqn:Hsid.
  2: { apply (run_create_fresh answer sid host v token owner adm now wl).
       by apply (accounts_quiet None w). }
  destruct (wf_table w Hw sid r Hsid) as (st & Hst & Hs).
  assert (Hstl : w_heap wl !! r = Some st) by done.
  rewrite (run_read _ _ _ _ _ st) by done.
  destruct (negb (closing st) && _ && _) eqn:Hidem.
  - unfold with_room_token.
    destruct (reconnect_host st adm token now (w_next_token w)) as [st' effects] eqn:Hrec.
    erewrite run_sec.
    2: { unfold with_room. cbn [set_next_token w_heap]. rewrite Hstl.
         cbn [wl set_writer w_next_token]. rewrite Hrec. reflexivity. }
    do 3 eexists. split; [reflexivity|]. split; [done|]. exists st. rewrite Hidem, Hrec.
    by split_and!.
  - rewrite (run_read _ _ _ _ _ st) by done.
    destruct (is_reclaimable st) eqn:Hrcl; cbn [negb].
    2: { do 3 eexists. split; [reflexivity|]. split; [done|]. exists st. rewrite Hidem, Hrcl.
         by split_and!. }
    rewrite (run_read _ _ _ _ _ st), (run_room _ _ _ _ _ st) by done. cbn [fst snd].
    erewrite run_sec by reflexivity. unfold release_room_quota.
    erewrite run_sec by reflexivity.
    set (wr := set_rooms_per_ip _ _).
    destruct (run_create_fresh answer sid host v token owner adm now wr)
      as (w' & room & e & Hrun & Hw' & Hout).
    { apply (accounts_quiet None (reclaim w sid r st)); [done..|]. by apply reclaim_accounts. }
    exists w', room, e. split_and!; [exact Hrun|done|]. exists st. rewrite Hidem, Hrcl.
    by split_and!.
Qed.

(** C8: [create], by cases, when nothing interferes.  A malformed token is
    refused.  A free id gives a new room, registered under it, unless 2000
    rooms are retained or the owner already has three.  An id in use by an open
    room whose host presents the host's id and token reconnects the host; by an
    open room without any connected peer, discards that room, closing it, and
    goes on as for a free id; otherwise [room_exists] and nothing changes. *)
Theorem create_spec answer t sid host token owner adm now w (Hidle : idle_world w) :
  exists w' room e,
    run answer (create t sid host token owner adm now) w = Some (w', (room, e))
    /\ w_writer w' = None
    /\ match from_token token with
       | None => refused_with w w' room e InvalidMessage "Invalid reconnect token"
       | Some v =>
         match w_rooms w !! sid with
         | None => fresh_outcome sid host v token owner adm now w w' room e
         | Some r =>
           exists st, w_heap w !! r = Some st /\ session_id st = sid
           /\ if negb (closing st) && (host_peer_id st == host) && matches (host_verifier st) v
              then let '(st', effects) := reconnect_host st adm token now (w_next_token w) in
                   room = Some r /\ e = effects
                   /\ w_heap w' = <[r := st']> (w_heap w) /\ w_rooms w' = w_rooms w
                   /\ w_actions w' = w_actions w ++ [Mutate]
              else if is_reclaimable st
              then fresh_outcome sid host v token owner adm now (reclaim w sid r st) w' room e
              else refused_with w w' room e RoomExists "Room already exists"
         end
       end.
Proof. by apply create_outcome. Qed.
End serial.
