(* ===== verification/ConnThms.v ===== *)
(** * Connections and the rooms they are in

    What a connection believes about its membership against what the rooms
    hold, the messages it refuses by itself, and the captured snapshot. *)
From S2P Require Import Prelude.
From S2P Require Import Protocol.
From S2P Require Import Ids.
From S2P Require Import HostTransfer.
From S2P Require Import Room.
From S2P Require Import RoomInv.
From S2P Require Import Snapshot.
From S2P Require Import Threads.
From S2P Require Import World.
From S2P Require Import Registry.
From S2P Require Import Cleanup.
From S2P Require Import Connection.
From S2P Require Import System.
From S2P Require Import RegistryThms.

#[local] Arguments Nat.leb : simpl never.
#[local] Arguments Nat.sub : simpl never.

(** ** Refusals *)

(** What [handle_message] answers without looking at any room. *)
Definition refusal (c : Conn) (msg : ClientMessage) : option ServerMessage :=
  let ty := cm_msg_type msg in
  let in_room := bool_decide (is_Some (current_room c)) in
  let bad_ids := negb (valid_session_and_peer_id (cm_session_id msg) (cm_peer_id msg)) in
  let bad_version := negb (cm_protocol_version msg =? RELAY_PROTOCOL_VERSION)%N in
  let bad_target := negb (valid_id (cm_to msg) MAX_PEER_ID_LENGTH) in
  if bool_decide (ty = client_type.PING) then Some pong
  else if bool_decide (ty ∈ [client_type.CREATE; client_type.JOIN; client_type.RESUME]) then
    if in_room then Some (into_message AlreadyInRoom
                            "Leave the current room before creating or joining another")
    else if bad_ids then Some (into_message InvalidMessage "Invalid sessionId or peerId")
    else if bad_version then Some protocol_mismatch
    else None
  else if bool_decide (ty ∈ [client_type.LEAVE; client_type.END_SESSION; client_type.TRANSFER_HOST;
                             client_type.BROADCAST; client_type.SEND_TO]) then
    if negb in_room then Some (into_message NotInRoom "Not in a room")
    else if bool_decide (ty ∈ [client_type.TRANSFER_HOST; client_type.SEND_TO]) && bad_target
    then Some (into_message InvalidMessage "Invalid to field")
    else None
  else Some (into_message InvalidMessage "Unknown message type").

Section connections.
Context `{HashIter} `{CryptoLib} `{!CryptoLaws _} `{SnapshotLib}.

Lemma refuse_run answer tx c reply w :
  run answer (refuse tx c reply) w = Some (set_actions w (w_actions w ++ [TrySend tx reply]), c).
Proof. done. Qed.

Lemma handle_refused answer t tx ip_key ck msg c w reply
    (Hrefused : refusal c msg = Some reply) :
  run answer (handle_message t tx ip_key ck msg c) w =
  Some (set_actions w (w_actions w ++ [TrySend tx reply]), c).
Proof.
  rewrite <- refuse_run with (answer := answer). f_equal.
  unfold refusal, handle_message, is_transition in *. cbv zeta in *.
  destruct (decide (cm_msg_type msg = client_type.PING)) as [Hty|Hping].
  { rewrite Hty in Hrefused |- *. by injection Hrefused as <-. }
  rewrite bool_decide_eq_false_2 in Hrefused by done. rewrite bool_decide_eq_false_2 by done.
  destruct (decide (cm_msg_type msg ∈ [client_type.CREATE; client_type.JOIN; client_type.RESUME]))
    as [Htr|Htr].
  - rewrite (bool_decide_eq_true_2 (_ ∈ _)) in Hrefused by done.
    assert (Hor : (cm_msg_type msg == client_type.CREATE) || (cm_msg_type msg == client_type.JOIN)
                  || (cm_msg_type msg == client_type.RESUME) = true).
    { rewrite !elem_of_cons in Htr. destruct Htr as [->|[->|[->|[]%not_elem_of_nil]]]; done. }
    rewrite Hor. cbn [andb].
    destruct (bool_decide (is_Some (current_room c))); [by injection Hrefused as <-|].
    destruct (cm_msg_type msg == client_type.CREATE) eqn:Hc.
    + unfold handle_create. destruct (negb (valid_session_and_peer_id _ _)); [by injection Hrefused as <-|].
      unfold supported_protocol_version. destruct (negb _); [by injection Hrefused as <-|done].
    + cbn [orb] in Hor. rewrite Hor. unfold handle_join.
      destruct (negb (valid_session_and_peer_id _ _)); [by injection Hrefused as <-|].
      unfold supported_protocol_version.
      destruct (N.eqb_spec (cm_protocol_version msg) RELAY_PROTOCOL_VERSION) as [Hv|Hv]; [done|].
      by injection Hrefused as <-.
  - rewrite (bool_decide_eq_false_2 (_ ∈ [_; _; _])) in Hrefused by done.
    rewrite !not_elem_of_cons in Htr. destruct Htr as (Hc & Hj & Hr & _).
    rewrite !bool_decide_eq_false_2 by done. cbn [orb andb].
    unfold in_room, handle_transfer_host, handle_send_to.
    destruct (decide (cm_msg_type msg ∈ [client_type.LEAVE; client_type.END_SESSION;
      client_type.TRANSFER_HOST; client_type.BROADCAST; client_type.SEND_TO])) as [Hty|Hty].
    + rewrite (bool_decide_eq_true_2 (_ ∈ [_; _; _; _; _])) in Hrefused by done.
      rewrite !elem_of_cons in Hty.
      destruct Hty as [Hty|[Hty|[Hty|[Hty|[Hty|[]%not_elem_of_nil]]]]];
        rewrite Hty in Hrefused |- *;
        (destruct (current_room c); [|by injection Hrefused as <-]); cbn in Hrefused |- *;
        try done; (destruct (negb _); [by injection Hrefused as <-|done]).
    + rewrite (bool_decide_eq_false_2 (_ ∈ [_; _; _; _; _])) in Hrefused by done.
      rewrite !not_elem_of_cons in Hty. destruct Hty as (? & ? & ? & ? & ? & _).
      rewrite !bool_decide_eq_false_2 by done. by injection Hrefused as <-.
Qed.

(** C34: what a connection refuses by itself.  A ping is answered; creating,
    joining or resuming while in a room, with a malformed id or another
    protocol version, acting on a room without being in one, naming a
    malformed target, and an unknown message type are each answered with one
    error on the connection's own channel, and nothing else happens: no room
    is looked at and the connection's membership stays as it is. *)
Theorem handle_message_refusals answer t tx ip_key ck msg c w reply
    (Hrefused : refusal c msg = Some reply) :
  run answer (handle_message t tx ip_key ck msg c) w =
  Some (set_actions w (w_actions w ++ [TrySend tx reply]), c).
Proof. by apply handle_refused. Qed.

(** ** The captured snapshot *)

Definition captured_room (clock : nat -> SystemTime * Instant) (w : World) (r : nat)
    : option RoomDto :=
  match w_heap w !! r with
  | Some st => if closing st then None else Some (build_room_dto st (clock r).1 (clock r).2)
  | None => None
  end.

Lemma run_capture_rooms answer clock rooms dtos w :
  Forall (fun r => is_Some (w_heap w !! r)) rooms ->
  run answer (capture_rooms clock rooms dtos) w =
  Some (w, dtos ++ omap (captured_room clock w) rooms).
Proof.
  revert dtos. induction rooms as [|r rooms IH]; intros dtos Hall; cbn [capture_rooms].
  { cbn [run omap list_omap]. by rewrite app_nil_r. }
  apply Forall_cons in Hall as [[st Hst] Hall]. rewrite (run_read _ _ _ _ _ st) by done.
  rewrite IH by done. cbn [omap list_omap]. unfold captured_room at 2. rewrite Hst.
  destruct (closing st); [done|]. by rewrite <- app_assoc.
Qed.

Lemma table_refs_NoDup w : world_wf w -> NoDup (hm_values (w_rooms w)).
Proof.
  intros Hw. unfold hm_values. apply NoDup_fmap_2_strong; [|apply hm_iter_NoDup].
  intros [sid1 r1] [sid2 r2] Hr1%elem_of_hm_iter Hr2%elem_of_hm_iter Heq. simpl in Heq. subst.
  destruct (wf_table w Hw sid1 r2 Hr1) as (st1 & Hst1 & <-).
  destruct (wf_table w Hw sid2 r2 Hr2) as (st2 & Hst2 & <-). by simplify_eq.
Qed.

(** What is persisted.  A capture that nothing interferes with contains
    exactly the open rooms, each once and under its own id, and changes
    nothing: a session that is ending, ended, reclaimed or expired is not in
    it, and neither is a guest whose release is pending. *)
Theorem build_snapshot_spec answer clock w (Hwf : world_wf w) (Hfree : w_writer w = None) :
  exists dtos, run answer (build_snapshot clock) w = Some (w, dtos)
    /\ NoDup (dto_session_id <$> dtos)
    /\ (forall dto, dto ∈ dtos <-> exists r st, w_heap w !! r = Some st /\ closing st = false
          /\ dto = build_room_dto st (clock r).1 (clock r).2)
    /\ (forall r st id res, w_heap w !! r = Some st -> reservations st !! id = Some res ->
          pr_release_pending res = true ->
          dto_reservations (build_room_dto st (clock r).1 (clock r).2) !! id = None).
Proof.
  exists (omap (captured_room clock w) (hm_values (w_rooms w))). split_and!.
  - unfold build_snapshot, all_rooms. erewrite run_sec by (unfold with_rooms; by rewrite Hfree).
    rewrite run_capture_rooms; [done|]. apply Forall_forall. intros r [sid Hsid]%elem_of_hm_values.
    destruct (wf_table w Hwf sid r Hsid) as (st & Hst & _). by eexists.
  - pose proof (table_refs_NoDup w Hwf) as Hnd.
    assert (Hall : forall r, r ∈ hm_values (w_rooms w) -> exists st, w_heap w !! r = Some st
              /\ w_rooms w !! session_id st = Some r).
    { intros r [sid Hsid]%elem_of_hm_values.
      destruct (wf_table w Hwf sid r Hsid) as (st & Hst & <-). by exists st. }
    induction (hm_values (w_rooms w)) as [|r rooms IH]; [constructor|].
    apply NoDup_cons in Hnd as [Hr Hnd].
    assert (IH' : NoDup (dto_session_id <$> omap (captured_room clock w) rooms))
      by (apply IH; [done|intros; apply Hall; by right]).
    cbn [omap list_omap]. destruct (captured_room clock w r) as [dto|] eqn:Hdto; [|done].
    cbn [fmap list_fmap]. constructor; [|done].
    intros (dto2 & Heq & (r2 & Hr2 & Hdto2)%list_elem_of_omap)%list_elem_of_fmap.
    unfold captured_room in Hdto, Hdto2.
    destruct (Hall r ltac:(left)) as (st & Hst & Hreg). rewrite Hst in Hdto.
    destruct (Hall r2 ltac:(by right)) as (st2 & Hst2 & Hreg2). rewrite Hst2 in Hdto2.
    destruct (closing st), (closing st2); simplify_eq. simpl in Heq. congruence.
  - intros dto. rewrite list_elem_of_omap. unfold captured_room. split.
    + intros (r & Hr & Hdto). destruct (w_heap w !! r) as [st|] eqn:Hst; [|done].
      destruct (closing st) eqn:Hc; [done|]. injection Hdto as <-. by exists r, st.
    + intros (r & st & Hst & Hc & ->). exists r. rewrite Hst, Hc. split; [|done].
      apply elem_of_hm_values. exists (session_id st). by apply (wf_open w Hwf).
  - intros r st id res Hst Hres Hp. cbn [build_room_dto dto_reservations].
    rewrite lookup_fmap, map_lookup_filter, Hres. simpl. by rewrite Hp.
Qed.
End connections.
