(* ===== verification/ConnTrack.v ===== *)
(** * Membership

    As long as messages are handled one at a time, a connection forgets a room
    exactly when the room has forgotten the connection, or evicted it, with one
    exception: an [endSession] that is refused. *)
From S2P Require Import Prelude.
From S2P Require Import Protocol.
From S2P Require Import Ids.
From S2P Require Import HostTransfer.
From S2P Require Import Room.
From S2P Require Import RoomInv.
From S2P Require Import RoomThms.
From S2P Require Import Snapshot.
From S2P Require Import Threads.
From S2P Require Import World.
From S2P Require Import Registry.
From S2P Require Import Cleanup.
From S2P Require Import Connection.
From S2P Require Import System.
From S2P Require Import RegistryThms.
From S2P Require Import ConnThms.

#[local] Arguments Nat.leb : simpl never.
#[local] Arguments Nat.sub : simpl never.

Section membership.
Context `{HashIter} `{CryptoLib} `{!CryptoLaws _} `{SnapshotLib}.

Abbreviation Heap := (gmap nat RoomState).

(** Room [r] lists [p] under [id]. *)
Definition occupies (h : Heap) (r : nat) (id : string) (p : ConnectedPeer) : Prop :=
  exists st, h !! r = Some st /\ peers st !! id = Some p.

(** The entry the connection believes it has. *)
Definition membership (c : Conn) : option (nat * string * N) :=
  match current_room c with
  | Some r => Some (r, current_peer_id c, current_conn_id c)
  | None => None
  end.

(** Every entry that sends to the connection is the one it believes it has. *)
Definition tracked (tx : Sender) (c : Conn) (w : World) : Prop :=
  (forall r id p, occupies (w_heap w) r id p -> cp_tx p = tx ->
     membership c = Some (r, id, cp_conn_id p))
  /\ (is_Some (current_room c) -> current_peer_id c <> "").

(** The entry the connection believes it has is there. *)
Definition present (tx : Sender) (c : Conn) (w : World) : Prop :=
  forall r id conn_id, membership c = Some (r, id, conn_id) ->
  exists p, occupies (w_heap w) r id p /\ cp_tx p = tx /\ cp_conn_id p = conn_id.

(** All entries stay. *)
Definition all_stay (h h' : Heap) : Prop :=
  forall r id p, occupies h r id p -> occupies h' r id p.

(** All entries stay but the connection's own, and those whose token is
    cancelled. *)
Definition spared (c : Conn) (h h' : Heap) (actions : list Action) : Prop :=
  forall r id p, occupies h r id p ->
    occupies h' r id p \/ membership c = Some (r, id, cp_conn_id p)
    \/ Cancel (cp_cancel p) ∈ actions.

Lemma all_stay_insert h r st st' :
  h !! r = Some st -> peers st ⊆ peers st' -> all_stay h (<[r := st']> h).
Proof.
  intros Hst Hsub r' id p (st2 & Hst2 & Hp). destruct (decide (r = r')) as [<-|Hne].
  - simplify_eq. exists st'. split; [apply lookup_insert_eq|]. by eapply lookup_weaken.
  - exists st2. by rewrite lookup_insert_ne.
Qed.

Lemma all_stay_fresh h r st : h !! r = None -> all_stay h (<[r := st]> h).
Proof.
  intros Hfree r' id p (st2 & Hst2 & Hp). exists st2. by rewrite lookup_insert_ne by congruence.
Qed.

Lemma all_stay_refl h : all_stay h h.
Proof. by intros r id p. Qed.

Lemma all_stay_trans h1 h2 h3 : all_stay h1 h2 -> all_stay h2 h3 -> all_stay h1 h3.
Proof. unfold all_stay. auto. Qed.

Lemma spared_all c h h' actions : all_stay h h' -> spared c h h' actions.
Proof. intros Hk r id p Ho. left. by apply Hk. Qed.

(** A room that loses entries. *)
Lemma spared_insert c h r st st' actions :
  h !! r = Some st ->
  (forall id p, peers st !! id = Some p -> peers st' !! id = Some p
     \/ membership c = Some (r, id, cp_conn_id p) \/ Cancel (cp_cancel p) ∈ actions) ->
  spared c h (<[r := st']> h) actions.
Proof.
  intros Hst Hall r' id p (st2 & Hst2 & Hp). destruct (decide (r = r')) as [<-|Hne].
  - simplify_eq. destruct (Hall id p Hp) as [?|?]; [left|by right].
    exists st'. split; [apply lookup_insert_eq|done].
  - left. exists st2. by rewrite lookup_insert_ne.
Qed.

(** An admission keeps everybody but the connection it evicts. *)
Lemma spared_admit c h r st st' id p actions :
  h !! r = Some st -> peers st' = <[id := p]> (peers st) ->
  (forall old, peers st !! id = Some old -> Cancel (cp_cancel old) ∈ actions) ->
  spared c h (<[r := st']> h) actions.
Proof.
  intros Hst Hpeers Hold. apply (spared_insert _ _ _ st); [done|]. intros id' p' Hp'. rewrite Hpeers.
  destruct (decide (id = id')) as [<-|Hne]; [right; right; auto|left]. by rewrite lookup_insert_ne.
Qed.

(** No entry is new, except [adm], which sends to [tx]. *)
Definition grows (tx : Sender) (adm : option (nat * string * N)) (h h' : Heap) : Prop :=
  forall r id p, occupies h' r id p ->
    occupies h r id p \/ (cp_tx p = tx /\ adm = Some (r, id, cp_conn_id p)).

Lemma grows_refl tx h : grows tx None h h.
Proof. intros r id p Ho. by left. Qed.

Lemma grows_trans tx adm h1 h2 h3 :
  grows tx None h1 h2 -> grows tx adm h2 h3 -> grows tx adm h1 h3.
Proof.
  intros H12 H23 r id p Ho. destruct (H23 r id p Ho) as [Ho2|?]; [|by right].
  by destruct (H12 r id p Ho2) as [?|[_ ?]]; [left|].
Qed.

(** A room whose table loses entries. *)
Lemma grows_shrink tx h r st st' :
  h !! r = Some st -> peers st' ⊆ peers st -> grows tx None h (<[r := st']> h).
Proof.
  intros Hst Hsub r' id p (st2 & Hst2 & Hp). left.
  apply lookup_insert_Some in Hst2 as [[<- <-]|[_ Hst2]].
  - exists st. split; [done|]. by eapply lookup_weaken.
  - by exists st2.
Qed.

(** A room that gains one. *)
Lemma grows_admit tx h r st' id p ps :
  (forall id' p', ps !! id' = Some p' -> occupies h r id' p') ->
  peers st' = <[id := p]> ps -> cp_tx p = tx ->
  grows tx (Some (r, id, cp_conn_id p)) h (<[r := st']> h).
Proof.
  intros Hps Hpeers Htx r' id' p' (st2 & Hst2 & Hp).
  apply lookup_insert_Some in Hst2 as [[<- <-]|[_ Hst2]]; [|left; by exists st2].
  rewrite Hpeers in Hp. apply lookup_insert_Some in Hp as [[<- <-]|[_ Hp]]; [by right|].
  left. by apply Hps.
Qed.

(** The connection keeps its membership, and so do the others. *)
Lemma tracked_keep tx c w w' :
  grows tx None (w_heap w) (w_heap w') -> tracked tx c w -> tracked tx c w'.
Proof.
  intros Hg [Ht Hid]. split; [|done]. intros r id p Ho Htx.
  destruct (Hg r id p Ho) as [Ho'|[_ ?]]; [by apply Ht|done].
Qed.

Lemma tracked_others tx adm tx' c w w' :
  grows tx adm (w_heap w) (w_heap w') -> tx' <> tx -> tracked tx' c w -> tracked tx' c w'.
Proof.
  intros Hg Hne [Ht Hid]. split; [|done]. intros r id p Ho Htx.
  destruct (Hg r id p Ho) as [Ho'|[? _]]; [by apply Ht|congruence].
Qed.

(** ** The room operations *)

Lemma peers_quiet st ev : quiet_event ev = true -> peers (room_apply st ev) ⊆ peers st.
Proof.
  destruct ev; intros Hq; try done; simpl;
    unfold begin_leave, finish_leave, begin_end_session, finish_end_session,
      transfer_host, broadcast, send_to, handle_disconnect;
    repeat case_match; simplify_eq/=; try done;
    first [apply delete_subseteq | apply map_empty_subseteq].
Qed.

Lemma join_peers st msg adm resume_only now inow cancel :
  let '(st', e) := join_or_resume st msg adm resume_only now inow cancel in
  match eff_assigned_conn_id e with
  | None => peers st' = peers st
  | Some conn_id => exists p, peers st' = <[adm_peer_id adm := p]> (peers st)
      /\ cp_tx p = adm_tx adm /\ cp_conn_id p = conn_id
  end.
Proof.
  unfold join_or_resume. destruct (closing st); [done|].
  unfold prune_expired_reservations. cbn [fst].
  destruct (negb _); [done|]. destruct (_ && _ && _); [done|].
  unfold admit_peer. room_cbn. rewrite append_eligibility, broadcast_except_push. room_cbn.
  destruct (bool_decide (adm_peer_id adm = host_peer_id st)); eexists;
    (split; [reflexivity|by split]).
Qed.

Lemma reconnect_peers st adm token now cancel :
  let '(st', e) := reconnect_host st adm token now cancel in
  exists p, peers st' = <[host_peer_id st := p]> (peers st)
    /\ cp_tx p = adm_tx adm /\ eff_assigned_conn_id e = Some (cp_conn_id p).
Proof.
  unfold reconnect_host, admit_peer. room_cbn. rewrite append_eligibility.
  eexists. split; [reflexivity|]. split; [reflexivity|].
  destruct (negb _); rewrite ?broadcast_except_push; by room_cbn.
Qed.

Lemma new_room_peers sid host v token owner adm now cancel :
  let '(st, e) := new_room sid host v token owner adm now cancel in
  exists p, peers st = <[host := p]> ∅
    /\ cp_tx p = adm_tx adm /\ eff_assigned_conn_id e = Some (cp_conn_id p).
Proof.
  unfold new_room. rewrite append_eligibility. room_cbn. eexists. by split_and!.
Qed.

(** Whoever is replaced is evicted. *)
Lemma join_evicts st msg adm resume_only now inow cancel :
  let '(st', e) := join_or_resume st msg adm resume_only now inow cancel in
  is_Some (eff_assigned_conn_id e) -> eff_evict e = evict_old (peers st !! adm_peer_id adm).
Proof.
  unfold join_or_resume. destruct (closing st); [by intros []|].
  unfold prune_expired_reservations. cbn [fst].
  destruct (negb _); [by intros []|]. destruct (_ && _ && _); [by intros []|].
  unfold admit_peer. room_cbn. rewrite append_eligibility, broadcast_except_push. room_cbn.
  by destruct (bool_decide (adm_peer_id adm = host_peer_id st)).
Qed.

Lemma reconnect_evicts st adm token now cancel :
  eff_evict (reconnect_host st adm token now cancel).2 = evict_old (peers st !! host_peer_id st).
Proof.
  unfold reconnect_host, admit_peer. room_cbn. rewrite append_eligibility.
  destruct (negb _); by rewrite ?broadcast_except_push.
Qed.

Lemma evicted_cancelled tx e p acts :
  {| ev_cancel := cp_cancel p |} ∈ eff_evict e ->
  Cancel (cp_cancel p) ∈ acts ++ effect_actions tx e.
Proof.
  intros Hin. unfold effect_actions. rewrite !elem_of_app. right; right; right; left.
  apply list_elem_of_fmap. exists {| ev_cancel := cp_cancel p |}. by split.
Qed.

(** ** Runs *)

Lemma run_perform_all answer l w :
  run answer (perform_all l) w = Some (set_actions w (w_actions w ++ l), tt).
Proof.
  revert w. induction l as [|a l IH]; intros w; cbn [perform_all].
  { cbn [run]. rewrite app_nil_r. by destruct w. }
  erewrite run_sec by reflexivity. rewrite IH. cbn [set_actions w_actions].
  by rewrite <- app_assoc.
Qed.

Lemma run_apply_then {A} answer tx e (a : A) w :
  run answer (apply_effects tx e ;! Ret a) w =
  Some (set_actions w (w_actions w ++ effect_actions tx e), a).
Proof. rewrite run_bind. unfold apply_effects. by rewrite run_perform_all. Qed.

(** ** Leaving *)

Lemma begin_leave_current st id c token v st' :
  begin_leave st id c token v = (st', Ok tt) ->
  is_current st' id c = true /\ pending st' id = true.
Proof.
  intros Hb. pose proof (begin_leave_Ok st id c token v) as Hok. rewrite Hb in Hok.
  destruct (Hok eq_refl) as (_ & Hconn & _ & _ & (res & Hres & _) & Hst'). cbn [fst] in Hst'.
  subst st'. split; [by apply is_current_conn_of|].
  unfold pending. cbn [set_reservations reservations]. by rewrite lookup_alter_eq, Hres.
Qed.

(** A [leave] run alone, from a room it is in. *)
Lemma run_leave answer r id c token v now w st :
  w_heap w !! r = Some st ->
  exists w' st' e, run answer (leave r id c token v now) w = Some (w', e)
    /\ w_heap w' = <[r := st']> (w_heap w)
    /\ exists reply, eff_reply e = Some reply
    /\ ((is_Some (sm_code reply) /\ peers st' = peers st)
        \/ (sm_code reply = None /\ conn_of st id = Some c /\ peers st' = delete id (peers st))).
Proof.
  intros Hst. unfold leave. rewrite (run_room _ _ _ _ _ st) by done.
  destruct (begin_leave st id c token v) as [st1 begun] eqn:Hb. cbn [fst snd] in *.
  assert (Hsame : peers st1 = peers st).
  { unfold begin_leave in Hb. repeat case_match; by simplify_eq/=. }
  destruct begun as [[]|e].
  - unfold record_terminal_mutation. rewrite run_bind. erewrite run_sec by reflexivity.
    cbn [ask run]. set (w1 := set_actions _ _).
    assert (Hst1 : w_heap w1 !! r = Some st1).
    { unfold w1. cbn [set_actions set_heap w_heap]. apply lookup_insert_eq. }
    cbn [sec run]. unfold with_room. rewrite Hst1.
    destruct (finish_leave st1 id c answer now) as [st2 e] eqn:Hf.
    exists (set_heap w1 (<[r := st2]> (w_heap w1))), st2, e. split_and!; [done| |].
    + unfold w1. cbn [set_actions set_heap w_heap]. by rewrite insert_insert_eq.
    + apply begin_leave_current in Hb as [Hcur Hpend].
      unfold finish_leave in Hf. unfold pending in Hpend. rewrite Hcur, Hpend in Hf.
      apply is_current_conn_of in Hcur. unfold conn_of in *. rewrite Hsame in Hcur.
      cbn [andb negb] in Hf.
      destruct answer; cbn [negb] in Hf; injection Hf as <- <-.
      * rewrite append_eligibility, broadcast_except_push. eexists. split; [reflexivity|].
        right. split_and!; [done..|]. room_cbn. by rewrite Hsame.
      * eexists. split; [reflexivity|]. left. split; [by eexists|done].
  - do 3 eexists. split; [reflexivity|]. split; [done|].
    unfold begin_leave in Hb. repeat case_match; simplify_eq/=;
      (eexists; split; [reflexivity|]; left; split; [by eexists|done]).
Qed.

(** ** Ending a session *)

Lemma remove_entry_if_heap r w : w_heap (remove_entry_if r w).1 = w_heap w.
Proof. unfold remove_entry_if. by repeat case_match. Qed.

(** An [endSession] run alone: the room is emptied, or it is refused and the
    room is as before. *)
Lemma run_end_session answer r id c token v w st :
  w_heap w !! r = Some st -> w_writer w = None ->
  let '(st1, begun) := begin_end_session st id c token v in
  exists w' e, run answer (end_session r id c token v) w = Some (w', e)
    /\ match begun with
       | Ok _ => (exists st', w_heap w' = <[r := st']> (w_heap w) /\ peers st' = ∅)
           /\ forall id p, peers st !! id = Some p -> {| ev_cancel := cp_cancel p |} ∈ eff_evict e
       | Err refused => w' = w /\ e = refused
       end.
Proof.
  intros Hst Hwr. unfold end_session. rewrite (run_room _ _ _ _ _ st) by done.
  destruct (begin_end_session st id c token v) as [st1 begun] eqn:Hb. cbn [fst snd].
  destruct begun as [[owner guests]|e].
  2: { assert (st1 = st) as ->
         by (unfold begin_end_session in Hb; repeat case_match; simplify_eq; done).
       do 2 eexists. split; [reflexivity|]. split; [|done].
       rewrite insert_id by done. by destruct w. }
  set (w1 := set_heap w _).
  erewrite run_sec.
  2: { unfold with_rooms. cbn [w1 set_heap w_writer]. rewrite Hwr. apply f_equal, surjective_pairing. }
  pose proof (remove_entry_if_heap r w1) as Hheap. set (w2 := (remove_entry_if r w1).1) in *.
  unfold release_room_quota. erewrite run_sec by reflexivity.
  unfold record_terminal_mutation. rewrite run_bind. erewrite run_sec by reflexivity.
  cbn [ask run]. set (w3 := set_actions _ _).
  assert (Hw3 : w_heap w3 = <[r := st1]> (w_heap w)) by (transitivity (w_heap w2); done).
  cbn [sec run]. unfold with_room. rewrite Hw3, lookup_insert_eq.
  destruct (finish_end_session st1 guests answer) as [st2 e] eqn:Hf.
  assert (Hsame : peers st1 = peers st).
  { unfold begin_end_session in Hb. repeat case_match; by simplify_eq/=. }
  do 2 eexists. split; [reflexivity|]. split.
  - exists st2. cbn [set_heap w_heap]. rewrite insert_insert_eq. split; [done|].
    unfold finish_end_session in Hf. destruct answer; simpl in Hf; by injection Hf as <- _.
  - intros id' p Hp. rewrite <- Hsame in Hp.
    assert (eff_evict e = (fun p => {| ev_cancel := cp_cancel p |}) <$> hm_values (peers st1)) as ->
      by (unfold finish_end_session in Hf; destruct answer; simpl in Hf; by injection Hf as _ <-).
    apply list_elem_of_fmap. exists p. split; [done|]. apply elem_of_hm_values. by exists id'.
Qed.

(** ** The handlers *)

(** What a handler leaves behind. *)
Definition handled (tx : Sender) (c : Conn) (w : World) (w' : World) (c' : Conn) : Prop :=
  (exists adm, grows tx adm (w_heap w) (w_heap w')) /\ tracked tx c' w'
  /\ (present tx c w -> present tx c' w') /\ spared c (w_heap w) (w_heap w') (w_actions w').

Lemma handled_keep tx c w w' :
  grows tx None (w_heap w) (w_heap w') -> all_stay (w_heap w) (w_heap w') ->
  tracked tx c w -> handled tx c w w' c.
Proof.
  intros Hg Hk Ht. split_and!; [by exists None|by eapply tracked_keep| |by apply spared_all].
  intros Hp r id cn Hc. destruct (Hp r id cn Hc) as (p & Ho & ?). exists p. split; [by apply Hk|done].
Qed.

(** A connection that was nowhere is admitted. *)
Lemma handled_admit tx c w w' r id p cancel :
  current_room c = None -> tracked tx c w -> id <> "" ->
  grows tx (Some (r, id, cp_conn_id p)) (w_heap w) (w_heap w') ->
  occupies (w_heap w') r id p -> cp_tx p = tx ->
  spared c (w_heap w) (w_heap w') (w_actions w') ->
  handled tx c w w' {| current_room := Some r; current_peer_id := id;
                       current_conn_id := cp_conn_id p; current_cancel := cancel |}.
Proof.
  intros Hnone [Ht _] Hid Hg Hp Hptx Hk. split_and!; [by eexists| | |done].
  - split; [|done]. intros r' id' p' Ho Htx. destruct (Hg r' id' p' Ho) as [Ho'|[_ Heq]]; [|exact Heq].
    specialize (Ht r' id' p' Ho' Htx). unfold membership in Ht. by rewrite Hnone in Ht.
  - intros _ r' id' cn [= <- <- <-]. by exists p.
Qed.

(** A connection whose only entry is gone forgets its room. *)
Lemma handled_leave tx c w w' r st' :
  tracked tx c w -> current_room c = Some r ->
  grows tx None (w_heap w) (w_heap w') ->
  w_heap w' !! r = Some st' -> peers st' !! current_peer_id c = None ->
  spared c (w_heap w) (w_heap w') (w_actions w') ->
  handled tx c w w' (leave_room c).
Proof.
  intros [Ht _] Hr Hg Hst' Hgone Hk. split_and!; [by eexists| |by intros _ ? ? ?|done].
  split; [|by intros []].
  intros r' id' p Ho Htx. exfalso. destruct (Hg r' id' p Ho) as [Ho'|[_ ?]]; [|done].
  specialize (Ht r' id' p Ho' Htx). unfold membership in Ht. rewrite Hr in Ht.
  injection Ht as <- <- _. destruct Ho as (st & Hst & Hp). by simplify_eq.
Qed.

Lemma fresh_ref w : world_wf w -> w_heap w !! w_next_ref w = None.
Proof.
  intros Hw. apply eq_None_not_Some. intros [st Hst]. apply (wf_refs w Hw) in Hst. lia.
Qed.

Lemma valid_peer_nonempty sid id : valid_session_and_peer_id sid id = true -> id <> "".
Proof.
  intros Hv ->. unfold valid_session_and_peer_id in Hv. by rewrite andb_false_r in Hv.
Qed.

(** The dispatch on a message that is not refused. *)
Lemma dispatch_create t tx ip_key ck msg c :
  cm_msg_type msg = client_type.CREATE -> refusal c msg = None ->
  current_room c = None /\ cm_peer_id msg <> ""
  /\ handle_message t tx ip_key ck msg c =
     let! (room, effects) := create t (cm_session_id msg) (cm_peer_id msg)
       (cm_reconnect_token msg) ip_key (admission_of tx msg) (ck_now ck) in
     apply_effects tx effects ;!
     Ret match room, eff_assigned_conn_id effects with
         | Some room, Some conn_id =>
           {| current_room := Some room; current_peer_id := cm_peer_id msg;
              current_conn_id := conn_id; current_cancel := eff_assigned_cancel effects |}
         | _, _ => c
         end.
Proof.
  intros Hty Href. unfold refusal in Href. rewrite Hty in Href. cbn in Href.
  destruct (current_room c) eqn:Hr; cbn in Href; [done|].
  destruct (valid_session_and_peer_id _ _) eqn:Hids; cbn in Href; [|done].
  destruct (_ =? _)%N eqn:Hv; cbn in Href; [|done].
  split_and!; [done|by eapply valid_peer_nonempty|].
  unfold handle_message. rewrite Hty, Hr.
  lazymatch goal with |- _ = ?x => change (handle_create t tx ip_key ck msg c = x) end.
  unfold handle_create. by rewrite Hids; unfold supported_protocol_version; rewrite Hv.
Qed.

Lemma dispatch_join t tx ip_key ck msg c :
  cm_msg_type msg = client_type.JOIN \/ cm_msg_type msg = client_type.RESUME ->
  refusal c msg = None ->
  current_room c = None /\ cm_peer_id msg <> ""
  /\ handle_message t tx ip_key ck msg c =
     let! found := get (cm_session_id msg) in
     match found with
     | None => refuse tx c (into_message RoomNotFound "Room does not exist")
     | Some room =>
       let! effects := sec (with_room_token room (fun st cancel =>
         join_or_resume st msg (admission_of tx msg) (cm_msg_type msg == client_type.RESUME)
           (ck_now ck) (ck_inow ck) cancel)) in
       apply_effects tx effects ;!
       Ret match eff_assigned_conn_id effects with
           | Some conn_id =>
             {| current_room := Some room; current_peer_id := cm_peer_id msg;
                current_conn_id := conn_id; current_cancel := eff_assigned_cancel effects |}
           | None => c
           end
     end.
Proof.
  intros Hty Href. assert (Href' : current_room c = None
    /\ valid_session_and_peer_id (cm_session_id msg) (cm_peer_id msg) = true
    /\ (cm_protocol_version msg =? RELAY_PROTOCOL_VERSION)%N = true).
  { unfold refusal in Href. destruct Hty as [Hty|Hty]; rewrite Hty in Href; cbn in Href;
      (destruct (current_room c) eqn:Hr; cbn in Href; [done|]);
      (destruct (valid_session_and_peer_id _ _) eqn:Hids; cbn in Href; [|done]);
      (destruct (_ =? _)%N eqn:Hv; cbn in Href; [|done]); done. }
  destruct Href' as (Hr & Hids & Hv).
  split_and!; [done|by eapply valid_peer_nonempty|].
  assert (Hd : handle_message t tx ip_key ck msg c = handle_join tx ck msg c).
  { unfold handle_message. rewrite Hr. by destruct Hty as [-> | ->]. }
  rewrite Hd. unfold handle_join, supported_protocol_version. rewrite Hids, Hv.
  apply N.eqb_eq in Hv. rewrite (bool_decide_eq_true_2 (cm_protocol_version msg = _)) by done.
  by rewrite orb_true_r.
Qed.

Lemma dispatch_in_room t tx ip_key ck msg c :
  cm_msg_type msg <> client_type.CREATE -> cm_msg_type msg <> client_type.JOIN ->
  cm_msg_type msg <> client_type.RESUME -> refusal c msg = None ->
  exists r, current_room c = Some r
  /\ ((cm_msg_type msg = client_type.LEAVE
         /\ handle_message t tx ip_key ck msg c = handle_leave tx ck msg c r)
      \/ (cm_msg_type msg = client_type.END_SESSION
         /\ handle_message t tx ip_key ck msg c = handle_end_session tx msg c r)
      \/ exists (g : RoomState -> RoomState * Effects) ev, quiet_event ev = true
         /\ (forall st, (g st).1 = room_apply st ev)
         /\ (forall st, peers (room_apply st ev) = peers st)
         /\ handle_message t tx ip_key ck msg c =
            let! effects := sec (with_room r g) in apply_effects tx effects ;! Ret c).
Proof.
  intros Hc Hj Hr Href. unfold refusal in Href. cbv zeta in Href.
  destruct (bool_decide (_ = client_type.PING)) eqn:Hp; [done|]. to_prop.
  rewrite (bool_decide_eq_false_2 (_ ∈ [_; _; _])) in Href
    by (rewrite !not_elem_of_cons; split_and!; auto using not_elem_of_nil).
  case_bool_decide as Hty; [|done]. destruct (current_room c) as [r|] eqn:Hroom; [|done].
  cbn in Href. exists r. split; [done|].
  assert (Hd : handle_message t tx ip_key ck msg c =
    if cm_msg_type msg == client_type.LEAVE then handle_leave tx ck msg c r
    else if cm_msg_type msg == client_type.END_SESSION then handle_end_session tx msg c r
    else if cm_msg_type msg == client_type.TRANSFER_HOST then handle_transfer_host tx msg c r
    else if cm_msg_type msg == client_type.BROADCAST then handle_broadcast tx ck msg c r
    else if cm_msg_type msg == client_type.SEND_TO then handle_send_to tx ck msg c r
    else refuse tx c (into_message InvalidMessage "Unknown message type")).
  { unfold handle_message, is_transition, in_room. rewrite Hroom.
    rewrite (bool_decide_eq_false_2 (_ = client_type.PING)), (bool_decide_eq_false_2 (_ = client_type.CREATE)),
      (bool_decide_eq_false_2 (_ = client_type.JOIN)), (bool_decide_eq_false_2 (_ = client_type.RESUME)) by done.
    done. }
  rewrite !elem_of_cons in Hty.
  destruct Hty as [Hty|[Hty|[Hty|[Hty|[Hty|[]%not_elem_of_nil]]]]]; rewrite Hty in Href, Hd.
  - left. by split.
  - right; left. by split.
  - right; right.
    change (handle_message t tx ip_key ck msg c = handle_transfer_host tx msg c r) in Hd.
    unfold handle_transfer_host in Hd. cbn in Href.
    destruct (valid_id (cm_to msg) MAX_PEER_ID_LENGTH); [|done]. cbn [negb] in Hd. eexists _, (EvTransfer _ _ _ _).
    split_and!; [done..| |exact Hd]. intros st. cbn [room_apply]. unfold transfer_host. by repeat case_match.
  - right; right. eexists _, (EvBroadcast _ _ _ _).
    split_and!; [done..| |exact Hd]. intros st. cbn [room_apply]. unfold broadcast. by repeat case_match.
  - right; right.
    change (handle_message t tx ip_key ck msg c = handle_send_to tx ck msg c r) in Hd.
    unfold handle_send_to in Hd. cbn in Href.
    destruct (valid_id (cm_to msg) MAX_PEER_ID_LENGTH); [|done]. cbn [negb] in Hd. eexists _, (EvSendTo _ _ _ _ _).
    split_and!; [done..| |exact Hd]. intros st. cbn [room_apply]. unfold send_to. by repeat case_match.
Qed.

(** ** Messages *)

Section message.
Context (answer : bool) (t : nat) (tx : Sender) (ip_key : string) (ck : Clock)
  (msg : ClientMessage) (c : Conn) (w : World).
Hypothesis Hidle : idle_world w.
Hypothesis Halive : conn_alive w c.
Hypothesis Htracked : tracked tx c w.

Abbreviation runs_handled := (exists w' c',
  run answer (handle_message t tx ip_key ck msg c) w = Some (w', c') /\ handled tx c w w' c').

(** The connection after [create] answered [room] and [e]. *)
Definition created_conn (room : option nat) (e : Effects) : Conn :=
  match room, eff_assigned_conn_id e with
  | Some room, Some conn_id =>
    {| current_room := Some room; current_peer_id := cm_peer_id msg;
       current_conn_id := conn_id; current_cancel := eff_assigned_cancel e |}
  | _, _ => c
  end.

Lemma refused_handled w0 w1 w2 room e err text :
  refused_with w0 w1 room e err text -> w_heap w1 = w_heap w2 ->
  grows tx None (w_heap w) (w_heap w0) -> all_stay (w_heap w) (w_heap w0) ->
  handled tx c w w2 (created_conn room e).
Proof.
  intros (Heq & _ & _ & -> & _) Hh Hg Hk. by apply handled_keep; [rewrite <- Hh, Heq..|].
Qed.

Lemma fresh_handled w0 w1 w2 v room e :
  fresh_outcome (cm_session_id msg) (cm_peer_id msg) v (cm_reconnect_token msg) ip_key
    (admission_of tx msg) (ck_now ck) w0 w1 room e ->
  w_heap w1 = w_heap w2 -> grows tx None (w_heap w) (w_heap w0) -> all_stay (w_heap w) (w_heap w0) ->
  w_heap w0 !! w_next_ref w0 = None ->
  current_room c = None -> cm_peer_id msg <> "" -> handled tx c w w2 (created_conn room e).
Proof.
  intros Hfo Hh Hg Hk Hfree Hnone Hid. unfold fresh_outcome in Hfo.
  case_match; [by eapply refused_handled|]. case_match; [by eapply refused_handled|].
  pose proof (new_room_peers (cm_session_id msg) (cm_peer_id msg) v (cm_reconnect_token msg)
    ip_key (admission_of tx msg) (ck_now ck) (w_next_token w0)) as Hnew.
  destruct (new_room _ _ _ _ _ _ _ _) as [st effects].
  destruct Hfo as (-> & -> & Heq & _ & _). destruct Hnew as (p & Hpeers & Htx & Has).
  unfold created_conn. rewrite Has. apply (handled_admit tx c w); rewrite <- ?Hh, ?Heq; try done.
  - eapply grows_trans; [exact Hg|]. apply (grows_admit _ _ _ _ _ _ ∅); [|done..].
    intros id' p' Hp'. by rewrite lookup_empty in Hp'.
  - exists st. rewrite Hpeers. split; apply lookup_insert_eq.
  - apply spared_all. eapply all_stay_trans; [exact Hk|]. by apply all_stay_fresh.
Qed.

Lemma create_handled :
  cm_msg_type msg = client_type.CREATE -> refusal c msg = None -> runs_handled.
Proof.
  intros Hty Href. destruct (dispatch_create t tx ip_key ck msg c Hty Href) as (Hnone & Hid & ->).
  destruct (create_outcome answer t (cm_session_id msg) (cm_peer_id msg) (cm_reconnect_token msg)
              ip_key (admission_of tx msg) (ck_now ck) w Hidle)
    as (w1 & room & e & Hrun & _ & Hout).
  rewrite run_bind, Hrun, run_apply_then. do 2 eexists. split; [reflexivity|].
  fold (created_conn room e).
  set (w2 := set_actions _ _). assert (Hh : w_heap w1 = w_heap w2) by done.
  pose proof (fresh_ref w (proj1 Hidle)) as Hfree.
  destruct (from_token _) as [v|]; [|eapply refused_handled; [exact Hout|done|apply grows_refl|apply all_stay_refl]].
  destruct (w_rooms w !! _) as [r|]; [|eapply fresh_handled; [exact Hout|done|apply grows_refl|apply all_stay_refl|done..]].
  destruct Hout as (st & Hst & _ & Hout). destruct (negb _ && _ && _) eqn:Hidem.
  - apply andb_true_iff in Hidem as [[_ Hhost]%andb_true_iff _]. to_prop.
    pose proof (reconnect_peers st (admission_of tx msg) (cm_reconnect_token msg) (ck_now ck)
      (w_next_token w)) as Hrec.
    pose proof (reconnect_evicts st (admission_of tx msg) (cm_reconnect_token msg) (ck_now ck)
      (w_next_token w)) as Hevict.
    destruct (reconnect_host _ _ _ _ _) as [st' effects]. cbn [snd] in Hevict.
    destruct Hout as (-> & -> & Heq & _ & Hacts). destruct Hrec as (p & Hpeers & Htx & Has).
    unfold created_conn. rewrite Has. apply (handled_admit tx c w); rewrite <- ?Hh, ?Heq, <- ?Hhost; try done.
    + by rewrite Hhost.
    + apply (grows_admit _ _ _ _ _ _ (peers st)); [|done..]. intros id' p' Hp'. by exists st.
    + exists st'. rewrite Hpeers. split; apply lookup_insert_eq.
    + eapply spared_admit; [done..|]. intros old Hold. unfold w2. cbn [set_actions w_actions].
      apply evicted_cancelled. rewrite Hevict, Hold. by left.
  - destruct (is_reclaimable st); [|eapply refused_handled; [exact Hout|done|apply grows_refl|apply all_stay_refl]].
    eapply fresh_handled; [exact Hout|done| | | |done..]; unfold reclaim;
      cbn [set_rooms_per_ip set_rooms set_heap w_heap w_next_ref].
    + by eapply grows_shrink.
    + by eapply all_stay_insert.
    + rewrite lookup_insert_ne; [done|]. intros ->. congruence.
Qed.

Lemma join_handled :
  cm_msg_type msg = client_type.JOIN \/ cm_msg_type msg = client_type.RESUME ->
  refusal c msg = None -> runs_handled.
Proof.
  intros Hty Href. destruct (dispatch_join t tx ip_key ck msg c Hty Href) as (Hnone & Hid & ->).
  destruct Hidle as (Hw & Hwr & _). unfold get.
  erewrite run_sec by (unfold with_rooms; by rewrite Hwr).
  destruct (w_rooms w !! cm_session_id msg) as [r|] eqn:Hsid.
  2: { rewrite refuse_run. do 2 eexists. split; [reflexivity|].
       apply handled_keep; [apply grows_refl|apply all_stay_refl|done]. }
  destruct (wf_table w Hw _ r Hsid) as (st & Hst & _).
  pose proof (join_peers st msg (admission_of tx msg) (cm_msg_type msg == client_type.RESUME)
    (ck_now ck) (ck_inow ck) (w_next_token w)) as Hjoin.
  pose proof (join_evicts st msg (admission_of tx msg) (cm_msg_type msg == client_type.RESUME)
    (ck_now ck) (ck_inow ck) (w_next_token w)) as Hevict.
  destruct (join_or_resume st msg _ _ _ _ _) as [st' e] eqn:Hj.
  erewrite run_sec.
  2: { unfold with_room_token, with_room. cbn [set_next_token w_heap]. rewrite Hst, Hj. reflexivity. }
  rewrite run_apply_then. do 2 eexists. split; [reflexivity|].
  destruct (eff_assigned_conn_id e) as [conn_id|].
  - destruct Hjoin as (p & Hpeers & Htx & <-). specialize (Hevict ltac:(by eexists)).
    apply (handled_admit tx c w); try done.
    + apply (grows_admit _ _ _ _ _ _ (peers st)); [|done..]. intros id' p' Hp'. by exists st.
    + exists st'. rewrite Hpeers. split; apply lookup_insert_eq.
    + eapply spared_admit; [done..|]. intros old Hold. apply evicted_cancelled. rewrite Hevict, Hold. by left.
  - apply handled_keep; [| |done].
    + apply (grows_shrink _ _ _ st); [done|]. by rewrite Hjoin.
    + apply (all_stay_insert _ _ st); [done|]. by rewrite Hjoin.
Qed.

Lemma in_room_handled :
  cm_msg_type msg <> client_type.CREATE -> cm_msg_type msg <> client_type.JOIN ->
  cm_msg_type msg <> client_type.RESUME -> refusal c msg = None ->
  (cm_msg_type msg = client_type.END_SESSION -> forall r st, current_room c = Some r ->
     w_heap w !! r = Some st ->
     is_ok (begin_end_session st (current_peer_id c) (current_conn_id c)
              (cm_reconnect_token msg) (cm_protocol_version msg)).2 = true) ->
  runs_handled.
Proof.
  intros Hc Hj Hr Href Hend.
  destruct (dispatch_in_room t tx ip_key ck msg c Hc Hj Hr Href) as (r & Hroom & Hcases).
  pose proof Halive as Hal. unfold conn_alive, conn_refs in Hal. rewrite Hroom in Hal.
  apply Forall_cons in Hal as [[st Hst] _]. destruct Hidle as (Hw & Hwr & _).
  destruct Hcases as [[Hty ->]|[[Hty ->]|(g & ev & Hq & Hg & Hsame & ->)]].
  - unfold handle_leave.
    destruct (run_leave answer r (current_peer_id c) (current_conn_id c) (cm_reconnect_token msg)
      (cm_protocol_version msg) (ck_now ck) w st Hst)
      as (w' & st' & e & Hrun & Hh & reply & Hreply & Hpost).
    rewrite run_bind, Hrun, run_apply_then. do 2 eexists. split; [reflexivity|]. rewrite Hreply.
    destruct Hpost as [[Hcode Hpeers]|(Hcode & Hcur & Hpeers)].
    + rewrite bool_decide_eq_true_2 by done. cbn [negb].
      apply handled_keep; [| |done]; cbn [set_actions w_heap]; rewrite Hh.
      * eapply grows_shrink; [done|]. by rewrite Hpeers.
      * eapply all_stay_insert; [done|]. by rewrite Hpeers.
    + rewrite bool_decide_eq_false_2 by (rewrite Hcode; by intros []). cbn [negb].
      apply (handled_leave tx c w _ r st'); [done|done| | | |]; cbn [set_actions w_heap]; rewrite ?Hh.
      * eapply grows_shrink; [done|]. rewrite Hpeers. apply delete_subseteq.
      * apply lookup_insert_eq.
      * rewrite Hpeers. apply lookup_delete_eq.
      * apply (spared_insert _ _ _ st); [done|]. intros id p Hp. rewrite Hpeers.
        destruct (decide (id = current_peer_id c)) as [->|Hne]; [|left; by rewrite lookup_delete_ne].
        right; left. unfold membership, conn_of in *. rewrite Hroom. rewrite Hp in Hcur. by injection Hcur as ->.
  - unfold handle_end_session. specialize (Hend Hty r st Hroom Hst).
    pose proof (run_end_session answer r (current_peer_id c) (current_conn_id c)
      (cm_reconnect_token msg) (cm_protocol_version msg) w st Hst Hwr) as Hrun.
    destruct (begin_end_session _ _ _ _ _) as [st1 [x|x]]; [|done].
    destruct Hrun as (w' & e & Hrun & (st' & Hh & Hempty) & Hevict).
    rewrite run_bind, Hrun, run_apply_then. do 2 eexists. split; [reflexivity|].
    apply (handled_leave tx c w _ r st'); [done|done| | | |].
    + cbn [set_actions w_heap]. rewrite Hh. eapply grows_shrink; [done|].
      rewrite Hempty. apply map_empty_subseteq.
    + cbn [set_actions w_heap]. rewrite Hh. apply lookup_insert_eq.
    + by rewrite Hempty, lookup_empty.
    + cbn [set_actions w_heap w_actions]. rewrite Hh. apply (spared_insert _ _ _ st); [done|].
      intros id p Hp. right; right. apply evicted_cancelled. by eapply Hevict.
  - rewrite (run_room _ _ _ _ _ st) by done. rewrite run_apply_then.
    do 2 eexists. split; [reflexivity|]. apply handled_keep; [| |done]; cbn [set_actions set_heap w_heap].
    + apply (grows_shrink _ _ _ st); [done|]. by rewrite Hg, Hsame.
    + apply (all_stay_insert _ _ st); [done|]. by rewrite Hg, Hsame.
Qed.

(** An [endSession] that the room would accept. *)
Definition end_accepted : Prop :=
  cm_msg_type msg = client_type.END_SESSION ->
  forall r st, current_room c = Some r -> w_heap w !! r = Some st ->
    is_ok (begin_end_session st (current_peer_id c) (current_conn_id c)
             (cm_reconnect_token msg) (cm_protocol_version msg)).2 = true.

Lemma message_handled : end_accepted -> runs_handled.
Proof.
  intros Hend. destruct (refusal c msg) as [reply|] eqn:Href.
  { rewrite (handle_refused _ _ _ _ _ _ _ _ _ Href). do 2 eexists. split; [reflexivity|].
    apply handled_keep; [apply grows_refl|apply all_stay_refl|done]. }
  destruct (decide (cm_msg_type msg = client_type.CREATE)); [by apply create_handled|].
  destruct (decide (cm_msg_type msg = client_type.JOIN)); [apply join_handled; auto|].
  destruct (decide (cm_msg_type msg = client_type.RESUME)); [apply join_handled; auto|].
  by apply in_room_handled.
Qed.
End message.

Lemma message_idle answer t tx ip_key ck msg c w :
  idle_world w -> conn_alive w c ->
  exists w' c', run answer (handle_message t tx ip_key ck msg c) w = Some (w', c')
    /\ idle_world w' /\ conn_alive w' c'.
Proof.
  intros Hidle Hc.
  destruct (seq_handle_message t tx ip_key ck msg c answer w) as (w' & c' & Hrun & Hs);
    [by apply serial_idle|]. apply serial_idle in Hs as [? ?]. by exists w', c'.
Qed.

(** The end of a connection that knows where it is. *)
Lemma finish_tracked answer tx ck c w :
  conn_alive w c -> tracked tx c w ->
  exists w', run answer (finish_connection tx ck c) w = Some (w', tt)
    /\ forall r st id p, w_heap w' !! r = Some st -> closing st = false ->
         peers st !! id = Some p -> cp_tx p <> tx.
Proof.
  intros Hal [Ht Hid]. unfold finish_connection, conn_alive, conn_refs in *.
  destruct (current_room c) as [r|] eqn:Hr.
  2: { eexists. split; [reflexivity|]. intros r st id p Hst _ Hp Htx.
       assert (Ho : occupies (w_heap w) r id p) by by exists st.
       specialize (Ht r id p Ho Htx). unfold membership in Ht. by rewrite Hr in Ht. }
  rewrite bool_decide_eq_false_2 by (by apply Hid).
  apply Forall_cons in Hal as [[st Hst] _].
  unfold room_disconnect. rewrite (run_room _ _ _ _ _ st) by done. unfold apply_effects. rewrite run_perform_all.
  eexists. split; [reflexivity|]. cbn [set_actions set_heap w_heap].
  intros r' st' id p Hst' Hopen Hp Htx.
  apply lookup_insert_Some in Hst' as [[<- <-]|[Hne Hst']].
  - assert (Hold : closing st = false /\ peers st !! id = Some p
        /\ (is_current st (current_peer_id c) (current_conn_id c) = true -> id <> current_peer_id c)).
    { revert Hopen Hp. unfold handle_disconnect. destruct (closing st) eqn:Hc; simpl.
      { by rewrite Hc. }
      destruct (is_current st _ _) eqn:Hcur; simpl; [|done].
      case_match; simpl; intros _ [Hne Hp']%lookup_delete_Some; by split_and!. }
    destruct Hold as (_ & Hp' & Hcur).
    assert (Ho : occupies (w_heap w) r id p) by by exists st.
    specialize (Ht r id p Ho Htx). unfold membership in Ht. rewrite Hr in Ht.
    injection Ht as Hid' Hconn. apply Hcur; [|done]. apply is_current_conn_of.
    unfold conn_of. by rewrite Hid', Hp', Hconn.
  - assert (Ho : occupies (w_heap w) r' id p) by by exists st'.
    specialize (Ht r' id p Ho Htx). unfold membership in Ht. rewrite Hr in Ht. by injection Ht.
Qed.

(** C10: a connection knows which room lists it, as long as messages are
    handled one at a time.  Say a connection's record is tracked when no entry,
    in any room, sends to the connection's channel but the one it believes it
    has, and present when that one is there.  Any message that is handled alone
    in a world at rest, except an [endSession] that the room refuses, keeps the
    sender's record tracked, and present if it was; keeps every other record
    tracked; and takes nobody's entry away but the sender's own, or one whose
    connection is evicted by cancelling its token.  When the connection then
    ends, handled alone too, no open room lists it any more. *)
Theorem membership_tracked answer t tx ip_key ck ck' msg c w
    (Hidle : idle_world w) (Halive : conn_alive w c) (Htracked : tracked tx c w)
    (Hend : end_accepted msg c w) :
  exists w' c' w'',
    run answer (handle_message t tx ip_key ck msg c) w = Some (w', c')
    /\ tracked tx c' w' /\ (present tx c w -> present tx c' w')
    /\ (forall r id p, occupies (w_heap w) r id p -> membership c <> Some (r, id, cp_conn_id p) ->
          occupies (w_heap w') r id p \/ Cancel (cp_cancel p) ∈ w_actions w')
    /\ (forall tx' c'', tx' <> tx -> tracked tx' c'' w -> tracked tx' c'' w')
    /\ run answer (finish_connection tx ck' c') w' = Some (w'', tt)
    /\ (forall r st id p, w_heap w'' !! r = Some st -> closing st = false ->
          peers st !! id = Some p -> cp_tx p <> tx).
Proof.
  destruct (message_handled answer t tx ip_key ck msg c w Hidle Halive Htracked Hend)
    as (w' & c' & Hrun & [adm Hg] & Ht & Hpresent & Hkept).
  destruct (message_idle answer t tx ip_key ck msg c w Hidle Halive) as (w2 & c2 & Hrun2 & _ & Hal').
  rewrite Hrun in Hrun2. injection Hrun2 as <- <-.
  destruct (finish_tracked answer tx ck' c' w' Hal' Ht) as (w'' & Hfin & Hgone).
  exists w', c', w''. split_and!; try done.
  - intros r id p Ho Hnot. destruct (Hkept r id p Ho) as [?|[?|?]]; auto. done.
  - intros. by eapply tracked_others.
Qed.

(** ** A refused [endSession] *)

(** C39: an [endSession] that the room refuses makes the connection forget a
    room it is still in.  The rooms, the table and the quota are untouched and
    the client is answered with the refusal; yet the connection's record is
    cleared, so that its end does nothing and the room goes on listing the
    dead connection: its place stays taken, messages are still sent to it, and
    nobody is told that it left. *)
Theorem refused_end_session_forgets_room answer t tx ip_key ck ck' msg c w r st refused
    (Hidle : idle_world w) (Hty : cm_msg_type msg = client_type.END_SESSION)
    (Hroom : current_room c = Some r) (Hst : w_heap w !! r = Some st)
    (Hrefused : (begin_end_session st (current_peer_id c) (current_conn_id c)
                   (cm_reconnect_token msg) (cm_protocol_version msg)).2 = Err refused) :
  exists w', run answer (handle_message t tx ip_key ck msg c) w = Some (w', leave_room c)
    /\ w_heap w' = w_heap w /\ w_rooms w' = w_rooms w /\ w_rooms_per_ip w' = w_rooms_per_ip w
    /\ (exists reply, eff_reply refused = Some reply /\ is_Some (sm_code reply)
          /\ w_actions w' = w_actions w ++ [TrySend tx reply])
    /\ run answer (finish_connection tx ck' (leave_room c)) w' = Some (w', tt).
Proof.
  assert (Hd : handle_message t tx ip_key ck msg c = handle_end_session tx msg c r).
  { unfold handle_message, is_transition, in_room. by rewrite Hty, Hroom. }
  rewrite Hd. unfold handle_end_session.
  pose proof (run_end_session answer r (current_peer_id c) (current_conn_id c)
    (cm_reconnect_token msg) (cm_protocol_version msg) w st Hst (proj1 (proj2 Hidle))) as Hrun.
  destruct (begin_end_session _ _ _ _ _) as [st1 [x|e']] eqn:Hb; [done|].
  cbn [snd] in Hrefused. injection Hrefused as ->. destruct Hrun as (w' & e & Hrun & -> & ->).
  rewrite run_bind, Hrun, run_apply_then. eexists. split; [reflexivity|].
  split_and!; [done..| |done].
  assert (Hcode : exists reply, refused = {| eff_reply := Some reply; eff_broadcast := [];
      eff_evict := []; eff_dirty := false; eff_assigned_conn_id := None;
      eff_assigned_cancel := None |} /\ is_Some (sm_code reply)).
  { unfold begin_end_session in Hb. repeat case_match; simplify_eq/=; eexists; by split. }
  destruct Hcode as (reply & -> & Hcode). exists reply. by split_and!.
Qed.
End membership.
