(* ===== verification/Ownership.v ===== *)
(** * Who owns an entry of a room

    The concurrent counterpart of [ConnTrack].  While any number of tasks run,
    an entry of a room that sends to one connection is only ever added by that
    connection's own task; so a guest's connection is listed in at most one
    place, and in none when it is over. *)
From S2P Require Import Prelude.
From S2P Require Import Protocol.
From S2P Require Import Ids.
From S2P Require Import HostTransfer.
From S2P Require Import Room.
From S2P Require Import RoomInv.
From S2P Require Import RoomThms.
From S2P Require Import Quotas.
From S2P Require Import Snapshot.
From S2P Require Import Threads.
From S2P Require Import World.
From S2P Require Import Registry.
From S2P Require Import Cleanup.
From S2P Require Import Connection.
From S2P Require Import System.
From S2P Require Import RegistryThms.
From S2P Require Import ConnThms.
From S2P Require Import ConnTrack.

Section ownership.
Context `{HashIter} `{CryptoLib} `{!CryptoLaws _}.

(** ** What one step may do to the others *)

(** The connection ids have not wrapped around. *)
Definition bounded (w : World) : Prop := (N.of_nat (w_next_token w) + 2 < u64_modulus)%N.

(** A step of task [t] on a room: it adds only entries that send to [t], under
    new connection ids, and unless it leaves the room closing it gives up no
    identity that is being released for another task. *)
Record room_guar (t : Sender) (st st' : RoomState) : Prop := {
  rg_session_id : session_id st' = session_id st;
  rg_closing : closing st = true -> closing st' = true;
  rg_next : (next_conn_id st <= next_conn_id st')%N;
  rg_peers : forall id p, peers st' !! id = Some p ->
    (peers st !! id = Some p
       /\ (closing st' = false -> cp_tx p <> t -> pending st id = true -> pending st' id = true))
    \/ (cp_tx p = t /\ (next_conn_id st <= cp_conn_id p)%N);
}.

Record own_guar (t : nat) (w w' : World) : Prop := {
  og_token : w_next_token w <= w_next_token w';
  og_rooms : bounded w' -> forall r st, w_heap w !! r = Some st ->
    exists st', w_heap w' !! r = Some st' /\ room_guar t st st';
  og_new : forall r st', w_heap w !! r = None -> w_heap w' !! r = Some st' ->
    forall id p, peers st' !! id = Some p -> cp_tx p = t;
}.

Lemma room_guar_refl t st : room_guar t st st.
Proof.
  split; [done..|]. by left.
Qed.

(** ** What a task knows of its place

    [m] is the place the connection believes it has.  A guest knows that it has
    no other.  While its [leave] waits, a connection knows that its identity is
    being released, for as long as the room lists it. *)
Abbreviation Place := (option (nat * string * N)) (only parsing).

Definition place_ok (t : Sender) (guest : bool) (m : Place) (leaving : bool) (r : nat)
    (st : RoomState) : Prop :=
  (guest = true -> closing st = false -> forall id p, peers st !! id = Some p -> cp_tx p = t ->
     m = Some (r, id, cp_conn_id p))
  /\ (forall id conn, m = Some (r, id, conn) -> closing st = false ->
        (conn < next_conn_id st)%N
        /\ forall id' p, peers st !! id' = Some p -> cp_conn_id p = conn ->
             cp_tx p = t
             /\ (leaving = true -> id' = id -> pending st id = true)).

Definition owns (t : nat) (guest : bool) (m : Place) (leaving : bool) (w : World) : Prop :=
  bounded w ->
  (forall r st, w_heap w !! r = Some st -> place_ok t guest m leaving r st)
  /\ (forall r id conn, m = Some (r, id, conn) -> is_Some (w_heap w !! r)).

(** At any time a guest is listed in one place at most. *)
Definition one_place (guests : nat -> bool) (t : nat) (w : World) : Prop :=
  guests t = true -> bounded w -> forall r1 r2 st1 st2 id1 id2 p1 p2,
    w_heap w !! r1 = Some st1 -> w_heap w !! r2 = Some st2 ->
    closing st1 = false -> closing st2 = false ->
    peers st1 !! id1 = Some p1 -> peers st2 !! id2 = Some p2 ->
    cp_tx p1 = t -> cp_tx p2 = t -> r1 = r2 /\ id1 = id2.

Lemma place_ok_others t t' guest m leaving r st st' :
  t' <> t -> room_guar t' st st' ->
  place_ok t guest m leaving r st -> place_ok t guest m leaving r st'.
Proof.
  intros Hne [_ Hclose Hnext Hpeers] [Honly Hmine].
  assert (Hopen : closing st' = false -> closing st = false).
  { intros Hc'. destruct (closing st); [|done]. by rewrite Hclose in Hc'. }
  split.
  - intros Hg Hc' id p Hp Htx. destruct (Hpeers id p Hp) as [[Hp' _]|[? _]]; [|congruence].
    by apply Honly; [|apply Hopen|..].
  - intros id conn Hm Hc'. destruct (Hmine id conn Hm (Hopen Hc')) as [Hlt Hall]. split; [lia|].
    intros id' p Hp Hconn. destruct (Hpeers id' p Hp) as [[Hp' Hpend]|[_ ?]]; [|lia].
    destruct (Hall id' p Hp' Hconn) as [Htx Hleave]. split; [done|].
    intros Hl ->. apply Hpend; [done|congruence|]. by apply Hleave.
Qed.

Lemma owns_stable t guest m leaving : stable world_wf own_guar t (owns t guest m leaving).
Proof.
  intros t' w w' Hne [Htok Hrooms Hnew] Hw _ Howns Hb.
  assert (Hb0 : bounded w) by (unfold bounded in *; lia).
  destruct (Howns Hb0) as [Hplace Hm]. specialize (Hrooms Hb). split.
  - intros r st' Hst'. destruct (w_heap w !! r) as [st|] eqn:Hst.
    + destruct (Hrooms r st Hst) as (st2 & Hst2 & Hguar). simplify_eq.
      eapply place_ok_others; eauto.
    + split.
      * intros _ _ id p Hp Htx. pose proof (Hnew r st' Hst Hst' id p Hp). congruence.
      * intros id conn Hm'. destruct (Hm r id conn Hm') as [? ?]. congruence.
  - intros r id conn Hm'. destruct (Hm r id conn Hm') as [st Hst].
    destruct (Hrooms r st Hst) as (st' & Hst' & _). by eexists.
Qed.

Section task.
(** The connections that are guests. *)
Variable guests : nat -> bool.

Lemma owns_assertion t m leaving :
  assertion world_wf own_guar (one_place guests) t (owns t (guests t) m leaving).
Proof.
  split; [apply owns_stable|]. intros w Howns Hg Hb r1 r2 st1 st2 id1 id2 p1 p2
    Hst1 Hst2 Hc1 Hc2 Hp1 Hp2 Htx1 Htx2.
  destruct (Howns Hb) as [Hplace _].
  pose proof (proj1 (Hplace r1 st1 Hst1) Hg Hc1 id1 p1 Hp1 Htx1).
  pose proof (proj1 (Hplace r2 st2 Hst2) Hg Hc2 id2 p2 Hp2 Htx2). by simplify_eq.
Qed.

Abbreviation keeps_prog t L p Q := (keeps world_wf own_guar (one_place guests) t L p Q).
Abbreviation owner t m leaving := (owns t (guests t) m leaving).

(** ** Sections *)

(** Sections that leave the rooms alone. *)
Lemma heap_same_guar t w w' :
  w_heap w' = w_heap w -> w_next_token w <= w_next_token w' -> own_guar t w w'.
Proof.
  intros Hh Htok. split; rewrite ?Hh; [done| |].
  - intros _ r st Hst. exists st. split; [done|apply room_guar_refl].
  - intros r st' Hn Hst'. congruence.
Qed.

Lemma own_quiet {B} t m leaving (f : World -> option (World * B)) :
  (forall w w' b, f w = Some (w', b) ->
     w_heap w' = w_heap w /\ w_next_token w' = w_next_token w) ->
  keeps_prog t (owner t m leaving) (sec f) (fun _ => owner t m leaving).
Proof.
  intros Hf. apply keeps_sec; [intros; apply owns_assertion|].
  intros w w' b Hw Hw' Howns Hfw. destruct (Hf w w' b Hfw) as [Hh Htok]. split.
  - apply heap_same_guar; [done|lia].
  - unfold owns, bounded. by rewrite Hh, Htok.
Qed.

(** All places that [m] may name are in room [r]. *)
Definition within (r : nat) (m : Place) : Prop :=
  forall r' id conn, m = Some (r', id, conn) -> r' = r.

Lemma place_ok_elsewhere t guest m m' l l' r r' st :
  within r m -> within r m' -> r' <> r ->
  place_ok t guest m l r' st -> place_ok t guest m' l' r' st.
Proof.
  intros Hm Hm' Hne [Honly _]. split.
  - intros Hg Hc id p Hp Htx. pose proof (Honly Hg Hc id p Hp Htx) as Heq.
    by destruct Hne; eapply Hm.
  - intros id conn Heq. by destruct Hne; eapply Hm'.
Qed.

(** A section on room [r], which may move the task's place within it. *)
Lemma own_room_section {B} (k : nat) t m leaving r (g : nat -> RoomState -> RoomState * B)
    (m' : B -> Place) (leaving' : B -> bool) :
  within r m -> (forall b, within r (m' b)) ->
  (forall token st, room_wf st -> (next_conn_id st + 1 < u64_modulus)%N ->
     place_ok t (guests t) m leaving r st ->
     let '(st', b) := g token st in
     room_guar t st st'
     /\ place_ok t (guests t) (m' b) (leaving' b) r st') ->
  keeps_prog t (owner t m leaving)
    (sec (fun w => with_room r (g (w_next_token w)) (set_next_token w (w_next_token w + k))))
    (fun b => owner t (m' b) (leaving' b)).
Proof.
  intros Hm Hm' Hg. apply keeps_sec; [intros; apply owns_assertion|].
  intros w w' b Hw _ Howns Hf. unfold with_room in Hf. cbn [set_next_token w_heap] in Hf.
  destruct (w_heap w !! r) as [st|] eqn:Hst; [|done].
  specialize (Hg (w_next_token w) st).
  destruct (g (w_next_token w) st) as [st' b'] eqn:Hgst. injection Hf as <- <-.
  assert (Hstep : bounded (set_heap (set_next_token w (w_next_token w + k)) (<[r:=st']> (w_heap w))) ->
    room_guar t st st'
    /\ place_ok t (guests t) (m' b') (leaving' b') r st').
  { intros Hb. assert (Hb0 : bounded w) by (unfold bounded in *; simpl in Hb; lia).
    destruct (wf_heap w Hw Hb0 r st Hst) as [Hwf Hnext]. unfold bounded in Hb0.
    apply Hg; [done|lia|]. by apply Howns. }
  split.
  - split; cbn [set_heap set_next_token w_heap w_next_token].
    + lia.
    + intros Hb r2 st2 Hst2. destruct (Hstep Hb) as [Hguar _].
      destruct (decide (r2 = r)) as [->|Hne].
      * simplify_eq. exists st'. by rewrite lookup_insert_eq.
      * exists st2. rewrite lookup_insert_ne by done. split; [done|apply room_guar_refl].
    + intros r2 st2 Hnone. destruct (decide (r2 = r)) as [->|Hne]; [congruence|].
      rewrite lookup_insert_ne by done. congruence.
  - intros Hb. destruct (Hstep Hb) as [_ Hplace].
    assert (Hb0 : bounded w) by (unfold bounded in *; simpl in Hb; lia).
    destruct (Howns Hb0) as [Hall _]. cbn [set_heap set_next_token w_heap]. split.
    + intros r2 st2 [[<- <-]|[Hne Hst2]]%lookup_insert_Some; [done|].
      eapply place_ok_elsewhere; [exact Hm|apply Hm'|done|by apply Hall].
    + intros r2 id conn Heq. rewrite (Hm' b' r2 id conn Heq), lookup_insert_eq. by eexists.
Qed.

(** The same without and with a new token. *)
Lemma own_room {B} t m leaving r (g : RoomState -> RoomState * B) (m' : B -> Place)
    (leaving' : B -> bool) :
  within r m -> (forall b, within r (m' b)) ->
  (forall st, room_wf st -> (next_conn_id st + 1 < u64_modulus)%N ->
     place_ok t (guests t) m leaving r st ->
     let '(st', b) := g st in
     room_guar t st st'
     /\ place_ok t (guests t) (m' b) (leaving' b) r st') ->
  keeps_prog t (owner t m leaving) (sec (with_room r g)) (fun b => owner t (m' b) (leaving' b)).
Proof.
  intros Hm Hm' Hg.
  eapply keeps_ext; [|by apply (own_room_section 0 t m leaving r (fun _ => g) m' leaving')].
  intros w. cbv beta. rewrite Nat.add_0_r. by destruct w.
Qed.

Lemma own_room_token {B} t m leaving r (g : RoomState -> CancellationToken -> RoomState * B)
    (m' : B -> Place) (leaving' : B -> bool) :
  within r m -> (forall b, within r (m' b)) ->
  (forall token st, room_wf st -> (next_conn_id st + 1 < u64_modulus)%N ->
     place_ok t (guests t) m leaving r st ->
     let '(st', b) := g st token in
     room_guar t st st'
     /\ place_ok t (guests t) (m' b) (leaving' b) r st') ->
  keeps_prog t (owner t m leaving) (sec (with_room_token r g))
    (fun b => owner t (m' b) (leaving' b)).
Proof.
  intros Hm Hm' Hg.
  eapply keeps_ext; [|by apply (own_room_section 1 t m leaving r (fun token st => g st token)
                                  m' leaving')].
  intros w. unfold with_room_token. by rewrite Nat.add_1_r.
Qed.

(** ** The room operations *)

Lemma quiet_place t guest m leaving r st st' :
  session_id st' = session_id st -> (closing st = true -> closing st' = true) -> next_conn_id st' = next_conn_id st ->
  peers st' ⊆ peers st ->
  (closing st' = false -> forall id p, peers st' !! id = Some p ->
     pending st id = true -> pending st' id = true) ->
  place_ok t guest m leaving r st ->
  room_guar t st st'
  /\ place_ok t guest m leaving r st'.
Proof.
  intros Hsid Hclose Hnext Hsub Hpend Hplace.
  assert (Hguar : forall t', room_guar t' st st').
  { intros t'. split; [done..|by rewrite Hnext|]. intros id p Hp. left.
    split; [by eapply lookup_weaken|]. intros Hc _. by apply (Hpend Hc id p). }
  split; [apply Hguar|]. by apply (place_ok_others t (S t) guest m leaving r st); [lia|..].
Qed.

(** Identities that are being released stay so, whatever happens to the room
    but the end of their own [leave]. *)
Lemma pending_kept st ev id p :
  room_wf st -> quiet_event ev = true ->
  (forall id' c persisted now, ev <> EvFinishLeave id' c persisted now) ->
  closing (room_apply st ev) = false -> peers (room_apply st ev) !! id = Some p ->
  pending st id = true -> pending (room_apply st ev) id = true.
Proof.
  intros Hwf Hq Hne Hc Hp Hpend.
  destruct ev as [| |id' c token v|id' c persisted now|id' c token v|gs persisted|id' c v target
    |id' c pl now|id' c tgt pl now|id' c now inow|inow|drop]; try done; cbn [room_apply] in *.
  - unfold begin_leave, pending in *. repeat case_match; simplify_eq/=; try done;
      destruct (decide (id = id')) as [->|]; simplify_map_eq; done.
  - by destruct (Hne id' c persisted now).
  - unfold begin_end_session in *. by repeat case_match; simplify_eq/=.
  - unfold finish_end_session in *. by repeat case_match; simplify_eq/=.
  - destruct (transfer_pending_frame st id' c v target Hwf id) as [-> _]; [by left|done].
  - unfold broadcast in *. by repeat case_match; simplify_eq/=.
  - unfold send_to in *. by repeat case_match; simplify_eq/=.
  - unfold handle_disconnect, pending in *. repeat case_match; simplify_eq/=; try done;
      destruct (decide (id = id')) as [->|]; simplify_map_eq; done.
  - destruct (prune_pending_frame st inow id) as [-> _]; [by left|done].
  - by destruct drop.
Qed.

Lemma quiet_event_place t guest m leaving r st ev :
  room_wf st -> quiet_event ev = true ->
  (forall id' c persisted now, ev <> EvFinishLeave id' c persisted now) ->
  place_ok t guest m leaving r st ->
  let st' := room_apply st ev in
  room_guar t st st'
  /\ place_ok t guest m leaving r st'.
Proof.
  intros Hwf Hq Hne Hplace st'. apply quiet_place; [apply session_id_apply|apply closing_apply|
    by apply next_conn_id_quiet|by apply peers_quiet| |done].
  intros Hc id p. by apply pending_kept.
Qed.

(** [g] does to the room what [ev] does. *)
Lemma own_event {B} ev t m leaving r (g : RoomState -> RoomState * B) :
  within r m -> quiet_event ev = true ->
  (forall id' c persisted now, ev <> EvFinishLeave id' c persisted now) ->
  (forall st, (g st).1 = room_apply st ev) ->
  keeps_prog t (owner t m leaving) (sec (with_room r g)) (fun _ => owner t m leaving).
Proof.
  intros Hm Hq Hne Hg.
  apply (own_room t m leaving r g (fun _ => m) (fun _ => leaving)); [done..|].
  intros st Hwf Hn Hplace. pose proof (quiet_event_place t _ _ _ r st ev Hwf Hq Hne Hplace) as Hev.
  rewrite <- Hg in Hev. by destruct (g st).
Qed.

Lemma own_read {B} t m leaving r (g : RoomState -> B) :
  within r m ->
  keeps_prog t (owner t m leaving) (sec (with_room r (fun st => (st, g st))))
    (fun _ => owner t m leaving).
Proof.
  intros Hm. apply (own_room t m leaving r _ (fun _ => m) (fun _ => leaving)); [done..|].
  intros st _ _ Hplace. split; [apply room_guar_refl|done].
Qed.

(** ** Leaving and disconnecting *)

(** What a handler takes for a refusal. *)
Definition failed (e : Effects) : bool :=
  match eff_reply e with Some reply => bool_decide (is_Some (sm_code reply)) | None => false end.

(** A guest that gives up its place has no other. *)
Lemma place_given_up t guest r id conn l st st' :
  place_ok t guest (Some (r, id, conn)) l r st ->
  (guest = true -> closing st' = false -> closing st = false
     /\ peers st' ⊆ peers st
     /\ forall p, peers st' !! id = Some p -> cp_conn_id p <> conn) ->
  place_ok t guest None false r st'.
Proof.
  intros [Honly _] Hgone. split; [|done]. intros Hg Hc' id' p Hp Htx.
  destruct (Hgone Hg Hc') as (Hc & Hsub & Hne).
  pose proof (Honly Hg Hc id' p (lookup_weaken _ _ _ _ Hp Hsub) Htx) as Heq.
  injection Heq as <- Hconn. by destruct (Hne p Hp).
Qed.

Lemma begin_leave_place t guest r id conn st token v :
  room_wf st -> place_ok t guest (Some (r, id, conn)) false r st ->
  let '(st', b) := begin_leave st id conn token v in
  room_guar t st st'
  /\ place_ok t guest (Some (r, id, conn)) (is_ok b) r st'.
Proof.
  intros Hwf Hplace.
  pose proof (quiet_event_place t guest _ false r st (EvBeginLeave id conn token v) Hwf eq_refl
    ltac:(done) Hplace) as (Hguar & Honly & Hmine).
  cbn [room_apply] in *. destruct (begin_leave st id conn token v) as [st' b] eqn:Hb.
  cbn [fst] in *. split; [done|]. split; [exact Honly|].
  intros id2 conn2 [= <- <-] Hc. destruct (Hmine id conn eq_refl Hc) as [Hlt Hall].
  split; [done|]. intros id' p Hp Hconn. destruct (Hall id' p Hp Hconn) as [Htx _].
  split; [done|]. intros Hl ->. destruct b as [[]|e]; [|done].
  by apply begin_leave_current in Hb as [_ ?].
Qed.

Lemma finish_leave_place t guest r id conn st persisted now :
  place_ok t guest (Some (r, id, conn)) true r st ->
  let '(st', e) := finish_leave st id conn persisted now in
  room_guar t st st'
  /\ place_ok t guest (if failed e then Some (r, id, conn) else None) false r st'.
Proof.
  intros Hplace. pose proof Hplace as [Honly Hmine]. unfold finish_leave.
  destruct (is_current st id conn && _) eqn:Hown; cbn [negb].
  2: { split; [apply room_guar_refl|]. apply (place_given_up _ _ _ _ _ _ _ _ Hplace).
       intros Hg Hc. split_and!; [done..|]. intros p Hp Hconn.
       destruct (Hmine id conn eq_refl Hc) as [_ Hall].
       destruct (Hall id p Hp Hconn) as [_ Hpend]. specialize (Hpend eq_refl eq_refl).
       unfold pending in Hpend. rewrite Hpend, andb_true_r in Hown.
       enough (is_current st id conn = true) by congruence.
       apply is_current_conn_of. unfold conn_of. rewrite Hp. simpl. congruence. }
  apply andb_true_iff in Hown as [Hcur _]. apply is_current_conn_of in Hcur.
  unfold conn_of in Hcur. destruct (peers st !! id) as [q|] eqn:Hq; [|done].
  injection Hcur as Hcur. destruct persisted; cbn [negb].
  - rewrite append_eligibility, broadcast_except_push. unfold failed. room_cbn.
    rewrite bool_decide_eq_false_2 by (by intros []).
    split.
    + split; room_cbn; [done..|].
      intros id' p Hp. simpl in Hp. apply lookup_delete_Some in Hp as [Hne Hp].
      left. split; [done|]. intros _ _. unfold pending. room_cbn. by rewrite lookup_delete_ne.
    + apply (place_given_up _ _ _ _ _ _ _ _ Hplace). intros _ Hc. simpl in Hc. room_cbn.
      split_and!; [done|apply delete_subseteq|]. intros p. by rewrite lookup_delete_eq.
  - unfold failed. cbn [effects_error eff_reply into_message sm_code].
    rewrite bool_decide_eq_true_2 by (by eexists).
    split.
    + split; room_cbn; [done..|].
      intros id' p Hp. simpl in Hp. left. split; [done|]. intros Hc Htx Hpend.
      destruct (decide (id' = id)) as [->|Hne].
      * destruct (Hmine id conn eq_refl Hc) as [_ Hall].
        destruct (Hall id p Hp ltac:(congruence)) as [? _]. done.
      * unfold pending in *. room_cbn. by rewrite lookup_alter_ne.
    + split; room_cbn; [exact Honly|]. intros id2 conn2 [= <- <-] Hc.
      destruct (Hmine id conn eq_refl Hc) as [Hlt Hall]. split; [done|].
      intros id' p Hp Hconn. by destruct (Hall id' p Hp Hconn).
Qed.

Lemma disconnect_place t guest r id conn st now inow :
  room_wf st -> place_ok t guest (Some (r, id, conn)) false r st ->
  let '(st', e) := handle_disconnect st id conn now inow in
  room_guar t st st'
  /\ place_ok t guest None false r st'.
Proof.
  intros Hwf Hplace.
  pose proof (quiet_event_place t guest _ false r st (EvDisconnect id conn now inow) Hwf eq_refl
    ltac:(done) Hplace) as [Hguar _].
  pose proof (peers_quiet st (EvDisconnect id conn now inow) eq_refl) as Hsub.
  cbn [room_apply] in *. destruct (handle_disconnect st id conn now inow) as [st' e] eqn:Hd.
  cbn [fst] in *. split; [done|]. apply (place_given_up _ _ _ _ _ _ _ _ Hplace).
  intros _ Hc'. split_and!.
  - pose proof (rg_closing _ _ _ Hguar) as Hclose. destruct (closing st); [|done].
    by rewrite Hclose in Hc'.
  - done.
  - intros p Hp Hconn. unfold handle_disconnect in Hd. destruct (_ || _) eqn:Hgate.
    + injection Hd as <- _. apply orb_true_iff in Hgate as [?|Hcur]; [congruence|].
      apply negb_true_iff in Hcur. enough (is_current st id conn = true) by congruence.
      apply is_current_conn_of. unfold conn_of. rewrite Hp. simpl. congruence.
    + cbn zeta in Hd. rewrite append_eligibility, broadcast_except_push in Hd.
      injection Hd as <- _. revert Hp. case_match; room_cbn; by rewrite lookup_delete_eq.
Qed.

(** ** Being admitted *)

(** One more entry, under the next connection id.  The connection takes itself
    to be at [id2], which for a guest is where it is. *)
Lemma admit_place t guest r st st' id id2 p :
  room_wf st -> (next_conn_id st + 1 < u64_modulus)%N ->
  place_ok t guest None false r st ->
  (guest = true -> id2 = id) ->
  session_id st' = session_id st -> closing st' = closing st ->
  peers st' = <[id := p]> (peers st) -> cp_tx p = t ->
  cp_conn_id p = next_conn_id st -> next_conn_id st' = wrap64 (next_conn_id st + 1) ->
  (forall id', pending st id' = true -> pending st' id' = true) ->
  room_guar t st st'
  /\ place_ok t guest (Some (r, id2, cp_conn_id p)) false r st'.
Proof.
  intros Hwf Hn [Honly _] Hid Hsid Hclose Hpeers Htx Hconn Hnext Hpend.
  rewrite wrap64_small in Hnext by done. split_and!; [|split].
  - split; [done|congruence|lia|].
    intros id' q. rewrite Hpeers. intros [[<- <-]|[_ Hq]]%lookup_insert_Some; [right; split; [done|lia]|].
    left. split; [done|]. intros _ _. apply Hpend.
  - intros Hg Hc id' q. rewrite Hpeers. intros [[<- <-]|[_ Hq]]%lookup_insert_Some Hq'.
    { by rewrite (Hid Hg). }
    rewrite Hclose in Hc. by pose proof (Honly Hg Hc id' q Hq Hq').
  - intros id3 conn [= <- <-] _. split; [lia|]. intros id' q. rewrite Hpeers.
    intros [[<- <-]|[_ Hq]]%lookup_insert_Some Hc; [by split|].
    pose proof (wf_conn_lt _ _ _ _ Hwf id' q Hq). lia.
Qed.

Definition place_at (r : nat) (id : string) (e : Effects) : Place :=
  match eff_assigned_conn_id e with Some conn => Some (r, id, conn) | None => None end.

Lemma join_place t guest r st msg adm resume_only now inow cancel :
  adm_tx adm = t -> room_wf st -> (next_conn_id st + 1 < u64_modulus)%N ->
  place_ok t guest None false r st ->
  let '(st', e) := join_or_resume st msg adm resume_only now inow cancel in
  room_guar t st st'
  /\ place_ok t guest (place_at r (adm_peer_id adm) e) false r st'.
Proof.
  intros Htx Hwf Hn Hplace.
  pose proof (join_pending_frame st msg adm resume_only now inow cancel Hwf) as Hframe.
  pose proof (join_peers st msg adm resume_only now inow cancel) as Hpeers.
  assert (Hnext : let '(st', e) := join_or_resume st msg adm resume_only now inow cancel in
    session_id st' = session_id st /\ closing st' = closing st
    /\ match eff_assigned_conn_id e with
    | None => next_conn_id st' = next_conn_id st
    | Some conn => conn = next_conn_id st /\ next_conn_id st' = wrap64 (next_conn_id st + 1)
    end).
  { clear. unfold join_or_resume. destruct (closing st) eqn:Hc; [done|].
    unfold prune_expired_reservations. cbn [fst].
    destruct (negb _); [by split_and!|]. destruct (_ && _ && _); [by split_and!|].
    unfold admit_peer. room_cbn. rewrite append_eligibility, broadcast_except_push. room_cbn.
    by destruct (bool_decide (adm_peer_id adm = host_peer_id st)). }
  unfold place_at.
  destruct (join_or_resume st msg adm resume_only now inow cancel) as [st' e]. cbn [fst] in Hframe.
  destruct Hnext as (Hsid & Hclose & Hnext).
  assert (Hpend : forall id', pending st id' = true -> pending st' id' = true).
  { intros id' Hp. destruct (Hframe id') as [-> _]; [by left|done]. }
  destruct (eff_assigned_conn_id e) as [conn|].
  - destruct Hpeers as (p & Hpeers & Hptx & <-). destruct Hnext as [Hconn Hnext].
    eapply admit_place; eauto; congruence.
  - apply quiet_place; try done; [congruence|by rewrite Hpeers|]. intros _ id p _. apply Hpend.
Qed.

Lemma reconnect_place t r st id adm token now cancel :
  adm_tx adm = t -> room_wf st -> (next_conn_id st + 1 < u64_modulus)%N ->
  place_ok t false None false r st ->
  let '(st', e) := reconnect_host st adm token now cancel in
  room_guar t st st'
  /\ place_ok t false (place_at r id e) false r st'.
Proof.
  intros Htx Hwf Hn Hplace. pose proof (reconnect_peers st adm token now cancel) as Hpeers.
  assert (Hrest : let '(st', e) := reconnect_host st adm token now cancel in
    session_id st' = session_id st /\ closing st' = closing st
    /\ reservations st' = reservations st
    /\ eff_assigned_conn_id e = Some (next_conn_id st)
    /\ next_conn_id st' = wrap64 (next_conn_id st + 1)).
  { clear. unfold reconnect_host, admit_peer. room_cbn. rewrite append_eligibility.
    by destruct (negb _); rewrite ?broadcast_except_push; room_cbn. }
  unfold place_at. destruct (reconnect_host st adm token now cancel) as [st' e].
  destruct Hrest as (Hsid & Hclose & Hres & Hconn & Hnext). destruct Hpeers as (p & Hpeers & Hptx & Ha).
  rewrite Hconn in Ha |- *. injection Ha as Ha. rewrite Ha.
  apply (admit_place t false r st st' (host_peer_id st) id p); try done; try congruence.
  intros id'. unfold pending. by rewrite Hres.
Qed.

(** A room that has just been made. *)
Lemma own_insert_new_room t (id : string) sid host v token key adm now :
  adm_tx adm = t -> guests t = false ->
  keeps_prog t (owner t None false)
    (sec (locked (insert_new_room sid host v token key adm now)))
    (fun res => owner t (place_at res.1 id res.2) false).
Proof.
  intros Htx Hguest. apply keeps_sec; [intros; apply owns_assertion|].
  intros w w' b Hw Hw' Howns Hf. unfold locked in Hf. apply (inj Some) in Hf.
  unfold insert_new_room in Hf.
  pose proof (new_room_peers sid host v token key adm now (w_next_token w)) as Hpeers.
  pose proof (new_room_wf sid host v token key adm now (w_next_token w)) as Hwf.
  destruct (new_room _ _ _ _ _ _ _ _) as [st e]. cbn [alloc fst] in *. injection Hf as <- <-.
  destruct Hpeers as (p & Hpeers & Hptx & Hconn).
  assert (Hnone : w_heap w !! w_next_ref w = None).
  { destruct (w_heap w !! w_next_ref w) as [st0|] eqn:E; [|done].
    apply (wf_refs w Hw) in E. lia. }
  assert (Hall : forall id' q, peers st !! id' = Some q -> cp_tx q = t).
  { intros id' q. rewrite Hpeers. intros [[_ <-]|[_ Hq]]%lookup_insert_Some; [congruence|].
    by rewrite lookup_empty in Hq. }
  split.
  - split; cbn [set_rooms set_next_token w_heap w_next_ref w_next_token].
    + lia.
    + intros _ r2 st2 Hst2. exists st2. rewrite lookup_insert_ne by congruence.
      split; [done|apply room_guar_refl].
    + intros r2 st2 Hr2 [[<- <-]|[_ ?]]%lookup_insert_Some; [done|congruence].
  - intros Hb. unfold place_at. cbn [fst snd]. rewrite Hconn.
    cbn [set_rooms set_next_token w_heap w_next_ref]. split.
    + intros r2 st2 Hst2. split; [congruence|]. intros id3 conn [= <- <- <-] Hc.
      apply lookup_insert_Some in Hst2 as [[_ <-]|[? _]]; [|done].
      assert (Hp : peers st !! host = Some p) by (by rewrite Hpeers, lookup_insert_eq).
      split; [by apply (wf_conn_lt _ _ _ _ Hwf host)|]. intros id' q Hq _.
      split; [by eapply Hall|congruence].
    + intros r2 id3 conn [= <- <- <-]. rewrite lookup_insert_eq. by eexists.
Qed.

(** ** The programs *)

Lemma own_ret {A} t m leaving (a : A) :
  keeps_prog t (owner t m leaving) (Ret a) (fun _ => owner t m leaving).
Proof. by intros w _ Howns. Qed.

Lemma own_perform t m leaving a :
  keeps_prog t (owner t m leaving) (sec (perform a)) (fun _ => owner t m leaving).
Proof. apply own_quiet. by intros w w' b [= <- <-]. Qed.

Lemma own_perform_all t m leaving l :
  keeps_prog t (owner t m leaving) (perform_all l) (fun _ => owner t m leaving).
Proof.
  induction l as [|a l IH]; [apply own_ret|]. cbn [perform_all].
  eapply keeps_bind; [apply own_perform|]. by intros ?.
Qed.

Lemma own_terminal t m leaving :
  keeps_prog t (owner t m leaving) record_terminal_mutation (fun _ => owner t m leaving).
Proof. eapply keeps_bind; [apply own_perform|]. by intros ? b w _. Qed.

Lemma own_quota {B} t m leaving (g : gmap string nat -> gmap string nat * B) :
  keeps_prog t (owner t m leaving) (sec (with_quota g)) (fun _ => owner t m leaving).
Proof. apply own_quiet. intros w w' b. unfold with_quota. destruct (g _). by intros [= <- _]. Qed.

Lemma own_rooms {B} t m leaving (g : World -> World * B) :
  (forall w, w_heap (g w).1 = w_heap w /\ w_next_token (g w).1 = w_next_token w) ->
  keeps_prog t (owner t m leaving) (sec (with_rooms g)) (fun _ => owner t m leaving).
Proof.
  intros Hg. apply own_quiet. intros w w' b. unfold with_rooms. specialize (Hg w).
  destruct (w_writer w); [done|]. destruct (g w). by intros [= <- _].
Qed.

Lemma own_locked {B} t m leaving (g : World -> World * B) :
  (forall w, w_heap (g w).1 = w_heap w /\ w_next_token (g w).1 = w_next_token w) ->
  keeps_prog t (owner t m leaving) (sec (locked g)) (fun _ => owner t m leaving).
Proof.
  intros Hg. apply own_quiet. intros w w' b. unfold locked. specialize (Hg w).
  destruct (g w). by intros [= <- _].
Qed.

Lemma own_unlock t m leaving :
  keeps_prog t (owner t m leaving) (sec unlock_rooms) (fun _ => owner t m leaving).
Proof. apply own_quiet. by intros w w' b [= <- _]. Qed.

Lemma remove_entry_quiet_heap r w :
  w_heap (remove_entry_if r w).1 = w_heap w
  /\ w_next_token (remove_entry_if r w).1 = w_next_token w.
Proof. unfold remove_entry_if. by repeat case_match. Qed.

Lemma within_none r : within r None.
Proof. by intros r' id conn. Qed.

Lemma within_place_at r id e : within r (place_at r id e).
Proof. unfold place_at. by intros r' id' conn; destruct (eff_assigned_conn_id e); intros [= <-]. Qed.

(** The registry's programs; [create] and [endSession] are not for guests. *)
Definition created_place (id : string) (res : option nat * Effects) : Place :=
  match res.1 with Some r => place_at r id res.2 | None => None end.

Lemma own_refuse_create t id e :
  keeps_prog t (owner t None false) (sec unlock_rooms ;! Ret (None, e))
    (fun res => owner t (created_place id res) false).
Proof. eapply keeps_bind; [apply own_unlock|]. by intros ? w _. Qed.

Lemma own_create_fresh t id sid host v token key adm now :
  adm_tx adm = t -> guests t = false ->
  keeps_prog t (owner t None false) (create_fresh sid host v token key adm now)
    (fun res => owner t (created_place id res) false).
Proof.
  intros Htx Hg. unfold create_fresh. eapply keeps_bind; [by apply own_locked|]. intros retained.
  destruct (_ <=? _); [apply own_refuse_create|].
  eapply keeps_bind; [apply own_quota|]. intros claimed.
  destruct (negb claimed); [apply own_refuse_create|].
  eapply keeps_bind; [by apply (own_insert_new_room t id)|]. intros [room e]. cbn [fst snd].
  eapply keeps_bind; [apply own_unlock|]. intros ?.
  eapply keeps_bind; [apply own_perform|]. by intros ? w _.
Qed.

Lemma own_create t id sid host token key adm now :
  adm_tx adm = t -> guests t = false ->
  keeps_prog t (owner t None false) (create t sid host token key adm now)
    (fun res => owner t (created_place id res) false).
Proof.
  intros Htx Hg. unfold create. destruct (from_token token) as [v|]; [|by intros w _].
  eapply keeps_bind.
  { apply own_quiet. intros w w' b. unfold lock_rooms. destruct (w_writer w); [done|].
    by intros [= <- _]. }
  intros [r|]; [|by apply own_create_fresh].
  eapply keeps_bind; [apply own_read, within_none|]. intros idempotent. destruct (idempotent : bool).
  { eapply keeps_bind.
    { apply (own_room_token t None false r _ (fun e => place_at r id e) (fun _ => false));
        [apply within_none|intros; apply within_place_at|].
      intros cancel st Hwf Hn Hplace. rewrite Hg in *. by apply reconnect_place. }
    intros e. eapply keeps_bind; [apply own_unlock|]. intros ?.
    eapply keeps_bind; [apply own_perform|]. by intros ? w _. }
  eapply keeps_bind; [apply own_read, within_none|]. intros reclaimable.
  destruct (negb reclaimable); [apply own_refuse_create|].
  eapply keeps_bind; [apply own_read, within_none|]. intros old_owner.
  eapply keeps_bind; [by apply (own_event (EvClose false)); [apply within_none|..]|]. intros ?.
  eapply keeps_bind; [by apply own_locked|]. intros ?.
  eapply keeps_bind; [apply own_quota|]. intros ?. by apply own_create_fresh.
Qed.

(** A task that is no guest may forget where it is. *)
Lemma own_forget {A} t m leaving (p : prog World A) Q :
  guests t = false -> keeps_prog t (owner t None false) p Q -> keeps_prog t (owner t m leaving) p Q.
Proof.
  intros Hg. apply keeps_weaken; [|done]. intros w _ Howns Hb.
  destruct (Howns Hb) as [Hall _]. rewrite Hg. split; [|done]. intros r st Hst. by split.
Qed.

Lemma own_end_session t m r id c token v :
  within r m ->
  keeps_prog t (owner t m false) (end_session r id c token v) (fun _ => owner t m false).
Proof.
  intros Hm. unfold end_session.
  eapply keeps_bind; [by apply (own_event (EvBeginEnd id c token v))|].
  intros [[key gs]|e]; [|apply own_ret].
  eapply keeps_bind; [apply own_rooms; intros; apply remove_entry_quiet_heap|]. intros ?.
  eapply keeps_bind; [apply own_quota|]. intros ?.
  eapply keeps_bind; [apply own_terminal|]. intros persisted.
  by apply (own_event (EvFinishEnd gs persisted)).
Qed.

Lemma begin_leave_failed st id c token v e :
  (begin_leave st id c token v).2 = Err e -> failed e = true.
Proof. unfold begin_leave. repeat case_match; intros [= <-]; by apply bool_decide_eq_true_2; eexists. Qed.

(** The two phases of [leave]. *)
Definition leaving_place (r : nat) (id : string) (c : N) (b : result unit Effects) : Place :=
  match b with Ok _ => Some (r, id, c) | Err e => if failed e then Some (r, id, c) else None end.

Lemma own_begin_leave t r id c token v :
  keeps_prog t (owner t (Some (r, id, c)) false)
    (sec (with_room r (fun st => begin_leave st id c token v)))
    (fun b => owner t (leaving_place r id c b) (is_ok b)).
Proof.
  apply own_room; [by intros ? ? ? [= <-]|by intros [|e] ? ? ?; simpl; [|destruct (failed e)]; intros [= <-]|].
  intros st Hwf _ Hplace. pose proof (begin_leave_place t _ r id c st token v Hwf Hplace) as Hb.
  pose proof (begin_leave_failed st id c token v) as Hfail.
  destruct (begin_leave st id c token v) as [st' [u|e]]; [done|]. simpl. by rewrite (Hfail e).
Qed.

Lemma own_finish_leave t r id c persisted now :
  keeps_prog t (owner t (Some (r, id, c)) true)
    (sec (with_room r (fun st => finish_leave st id c persisted now)))
    (fun e => owner t (if failed e then Some (r, id, c) else None) false).
Proof.
  apply (own_room t _ true r _ (fun e => if failed e then Some (r, id, c) else None)
           (fun _ => false)); [by intros ? ? ? [= <-]|by intros e ? ? ?; destruct (failed e); intros [= <-]|].
  intros st _ _ Hplace. by apply finish_leave_place.
Qed.

Lemma own_leave t r id c token v now :
  keeps_prog t (owner t (Some (r, id, c)) false) (leave r id c token v now)
    (fun e => owner t (if failed e then Some (r, id, c) else None) false).
Proof.
  unfold leave. eapply keeps_bind; [apply own_begin_leave|]. intros [u|e]; [|by intros w _].
  eapply keeps_bind; [apply own_terminal|]. intros persisted. apply own_finish_leave.
Qed.

(** ** The connection *)

Abbreviation conn_owner t c := (owner t (membership c) false).

Lemma own_done t c m :
  membership c = m -> keeps_prog t (owner t m false) (Ret c) (fun c => conn_owner t c).
Proof. by intros <- w _. Qed.

Lemma own_refuse t c msg :
  keeps_prog t (conn_owner t c) (refuse t c msg) (fun c => conn_owner t c).
Proof. eapply keeps_bind; [apply own_perform|]. intros ?. by apply own_done. Qed.

Lemma own_apply_then t e c m :
  membership c = m ->
  keeps_prog t (owner t m false) (apply_effects t e ;! Ret c) (fun c => conn_owner t c).
Proof. intros Hm. eapply keeps_bind; [apply own_perform_all|]. intros ?. by apply own_done. Qed.

Lemma membership_none c : current_room c = None -> membership c = None.
Proof. unfold membership. by intros ->. Qed.

Lemma own_handle_create t ip_key ck msg c :
  guests t = false -> current_room c = None ->
  keeps_prog t (conn_owner t c) (handle_create t t ip_key ck msg c) (fun c => conn_owner t c).
Proof.
  intros Hg Hnone. unfold handle_create. destruct (negb _); [apply own_refuse|].
  destruct (negb _); [apply own_refuse|]. rewrite (membership_none c Hnone).
  eapply keeps_bind; [by apply (own_create t (cm_peer_id msg))|]. intros [room e].
  apply own_apply_then. unfold created_place, place_at. cbn [fst snd].
  destruct room, (eff_assigned_conn_id e); by try apply membership_none.
Qed.

Lemma own_get t sid m :
  keeps_prog t (owner t m false) (get sid) (fun _ => owner t m false).
Proof. by apply own_rooms. Qed.

Lemma own_handle_join t ck msg c :
  current_room c = None ->
  keeps_prog t (conn_owner t c) (handle_join t ck msg c) (fun c => conn_owner t c).
Proof.
  intros Hnone. unfold handle_join. destruct (negb _); [apply own_refuse|].
  destruct (negb _); [apply own_refuse|].
  eapply keeps_bind; [apply own_get|]. intros [room|]; [|apply own_refuse].
  rewrite (membership_none c Hnone). eapply keeps_bind.
  { apply (own_room_token t None false room _ (fun e => place_at room (cm_peer_id msg) e)
             (fun _ => false)); [apply within_none|intros; apply within_place_at|].
    intros cancel st Hwf Hn Hplace.
    by apply (join_place t _ room st msg (admission_of t msg)). }
  intros e. apply own_apply_then. unfold place_at.
  destruct (eff_assigned_conn_id e); [done|by apply membership_none].
Qed.

Lemma own_in_room t c k :
  (forall room, current_room c = Some room ->
     keeps_prog t (conn_owner t c) (k room) (fun c => conn_owner t c)) ->
  keeps_prog t (conn_owner t c) (in_room t c k) (fun c => conn_owner t c).
Proof.
  intros Hk. unfold in_room. destruct (current_room c) as [room|]; [by apply Hk|apply own_refuse].
Qed.

Lemma within_membership c room : current_room c = Some room -> within room (membership c).
Proof. unfold membership. intros -> r id conn [= <-]. done. Qed.

(** What a guest does not say. *)
Definition guest_message (msg : ClientMessage) : Prop :=
  cm_msg_type msg <> client_type.CREATE /\ cm_msg_type msg <> client_type.END_SESSION.

Lemma own_handle_leave t ck msg c room :
  current_room c = Some room ->
  keeps_prog t (conn_owner t c) (handle_leave t ck msg c room) (fun c => conn_owner t c).
Proof.
  intros Hroom. unfold handle_leave. unfold membership at 1. rewrite Hroom.
  eapply keeps_bind; [apply own_leave|]. intros e. apply own_apply_then.
  change (match eff_reply e with Some reply => bool_decide (is_Some (sm_code reply))
                              | None => false end) with (failed e).
  destruct (failed e); cbn [negb]; [unfold membership; by rewrite Hroom|done].
Qed.

Lemma own_handle_message t ip_key ck msg c :
  (guests t = true -> guest_message msg) ->
  keeps_prog t (conn_owner t c) (handle_message t t ip_key ck msg c) (fun c => conn_owner t c).
Proof.
  intros Hguest. unfold handle_message. destruct (_ == client_type.PING); [apply own_refuse|].
  destruct (is_transition (cm_msg_type msg) && _) eqn:Htrans; [apply own_refuse|].
  assert (Hnone : is_transition (cm_msg_type msg) = true -> current_room c = None).
  { intros Ht. rewrite Ht in Htrans. simpl in Htrans. to_prop.
    destruct (current_room c); [|done]. by destruct Htrans; eexists. }
  unfold is_transition in Hnone.
  destruct (cm_msg_type msg == client_type.CREATE) eqn:Hcreate.
  { apply own_handle_create; [|by apply Hnone]. to_prop.
    destruct (guests t); [|done]. by destruct (Hguest eq_refl). }
  destruct ((cm_msg_type msg == client_type.JOIN) || _) eqn:Hjoin.
  { apply own_handle_join, Hnone. by rewrite <- orb_assoc, Hjoin. }
  destruct (_ == client_type.LEAVE).
  { apply own_in_room. intros room Hroom. by apply own_handle_leave. }
  destruct (_ == client_type.END_SESSION) eqn:Hend.
  { apply own_in_room. intros room Hroom%within_membership. unfold handle_end_session.
    assert (Hg : guests t = false).
    { to_prop. destruct (guests t); [|done]. by destruct (Hguest eq_refl). }
    apply own_forget; [done|].
    eapply keeps_bind; [apply own_end_session, within_none|]. intros e. by apply own_apply_then. }
  repeat match goal with |- keeps _ _ _ _ _ (if ?b then _ else _) _ => destruct b end;
    try apply own_refuse; apply own_in_room; intros room Hroom%within_membership;
    unfold handle_transfer_host, handle_broadcast, handle_send_to;
    try (destruct (negb _); [apply own_refuse|]).
  - eapply keeps_bind; [|intros e; by apply own_apply_then].
    by apply (own_event (EvTransfer (current_peer_id c) (current_conn_id c)
                           (cm_protocol_version msg) (cm_to msg))).
  - eapply keeps_bind; [|intros e; by apply own_apply_then].
    by apply (own_event (EvBroadcast (current_peer_id c) (current_conn_id c)
                           (cm_payload msg) (ck_now ck))).
  - eapply keeps_bind; [|intros e; by apply own_apply_then].
    by apply (own_event (EvSendTo (current_peer_id c) (current_conn_id c) (cm_to msg)
                           (cm_payload msg) (ck_now ck))).
Qed.

Definition guest_arrival (a : Arrival) : Prop :=
  match ar_frame a with FText _ (Some msg) => guest_message msg | _ => True end.

Lemma own_read_loop t ip_key bucket deadline arrivals c :
  (guests t = true -> Forall guest_arrival arrivals) ->
  keeps_prog t (conn_owner t c) (read_loop t t ip_key bucket deadline arrivals c)
    (fun c => conn_owner t c).
Proof.
  revert bucket deadline c. induction arrivals as [|a arrivals IH]; intros bucket deadline c Hg;
    cbn [read_loop]; [by apply own_done|].
  assert (Ha : guests t = true -> guest_arrival a) by (intros E; by apply Hg, Forall_cons in E as [? _]).
  assert (Hrest : forall bucket deadline c, keeps_prog t (conn_owner t c)
    (read_loop t t ip_key bucket deadline arrivals c) (fun c => conn_owner t c)).
  { intros. apply IH. intros E. by apply Hg, Forall_cons in E as [_ ?]. }
  eapply keeps_bind; [by apply own_quiet; intros w w' b [= <- _]|]. intros cancelled.
  destruct (_ && _); [by apply own_done|]. unfold guest_arrival in Ha.
  destruct (ar_frame a) as [len msg| | | | |]; try apply Hrest; try by apply own_done.
  destruct (_ <? _)%N; [apply Hrest|]. destruct (allow_at _ _) as [bucket' [|]]; cbn [negb].
  - destruct msg as [msg|]; eapply keeps_bind;
      [by apply own_handle_message|intros c'; apply Hrest|apply own_refuse|intros c'; apply Hrest].
  - eapply keeps_bind; [apply own_refuse|]. intros c'. apply Hrest.
Qed.

(** A connection that is in a room has a name there. *)
Definition named (c : Conn) : Prop := is_Some (current_room c) -> current_peer_id c <> "".

Lemma named_done tx e c : named c -> returns (apply_effects tx e ;! Ret c) named.
Proof. intros Hc. by apply returns_then. Qed.

Lemma named_refuse tx c msg : named c -> returns (refuse tx c msg) named.
Proof. intros Hc. by apply returns_then. Qed.

Lemma named_nowhere c : current_room c = None -> named c.
Proof. unfold named. intros -> [? ?]. done. Qed.

Lemma named_in_room tx c k :
  named c -> (forall room, returns (k room) named) -> returns (in_room tx c k) named.
Proof. intros Hc Hk. unfold in_room. destruct (current_room c); [done|by apply named_refuse]. Qed.

Lemma named_handle_message t tx ip_key ck msg c :
  named c -> returns (handle_message t tx ip_key ck msg c) named.
Proof.
  intros Hc. unfold handle_message. destruct (_ == client_type.PING); [by apply named_refuse|].
  destruct (_ && _); [by apply named_refuse|].
  destruct (_ == client_type.CREATE).
  { unfold handle_create. destruct (negb _) eqn:Hids; [by apply named_refuse|].
    apply negb_false_iff in Hids. destruct (negb _); [by apply named_refuse|].
    apply returns_then. intros [room e]. apply named_done.
    destruct room, (eff_assigned_conn_id e); try done. intros _. by eapply valid_peer_nonempty. }
  destruct (_ || _).
  { unfold handle_join. destruct (negb _) eqn:Hids; [by apply named_refuse|].
    apply negb_false_iff in Hids. destruct (negb _); [by apply named_refuse|].
    apply returns_then. intros [room|]; [|by apply named_refuse].
    apply returns_then. intros e. apply named_done.
    destruct (eff_assigned_conn_id e); [|done]. intros _. by eapply valid_peer_nonempty. }
  repeat match goal with |- returns (if ?b then _ else _) _ => destruct b end;
    try (by apply named_refuse); (apply named_in_room; [done|]); intros room;
    unfold handle_leave, handle_end_session, handle_transfer_host, handle_broadcast, handle_send_to;
    try (destruct (negb (valid_id _ _)); [by apply named_refuse|]);
    apply returns_then; intros e; apply named_done; try done;
    [destruct (negb _); [|done]|]; by apply named_nowhere.
Qed.

Lemma named_read_loop t tx ip_key bucket deadline arrivals c :
  named c -> returns (read_loop t tx ip_key bucket deadline arrivals c) named.
Proof.
  revert bucket deadline c. induction arrivals as [|a arrivals IH]; intros bucket deadline c Hc;
    cbn [read_loop]; [done|].
  apply returns_then. intros cancelled. destruct (_ && _); [done|].
  destruct (ar_frame a) as [len msg| | | | |]; try (by apply IH); try done.
  destruct (_ <? _)%N; [by apply IH|]. destruct (allow_at _ _) as [bucket' allowed].
  destruct (negb allowed); [eapply returns_bind; [by apply named_refuse|auto]|].
  destruct msg as [msg|];
    (eapply returns_bind; [by first [apply named_handle_message|apply named_refuse]|auto]).
Qed.

Lemma own_connection_run t ip_key opened arrivals closed :
  (guests t = true -> Forall guest_arrival arrivals) ->
  keeps_prog t (owner t None false) (connection_run t t ip_key opened arrivals closed)
    (fun _ => owner t None false).
Proof.
  intros Hg. unfold connection_run. eapply keeps_bind.
  { apply keeps_returns with (phi := named);
      [by apply (own_read_loop t ip_key _ _ arrivals new_conn)|].
    apply named_read_loop. by intros [? ?]. }
  intros c. apply keeps_pure. intros Hnamed. unfold finish_connection.
  destruct (current_room c) as [room|] eqn:Hroom.
  2: { rewrite (membership_none c Hroom). apply own_ret. }
  rewrite bool_decide_eq_false_2 by (apply Hnamed; by eexists).
  unfold membership. rewrite Hroom. eapply keeps_bind.
  { apply (own_room t _ false room _ (fun _ => None) (fun _ => false));
      [by intros ? ? ? [= <-]|intros; apply within_none|].
    intros st Hwf _ Hplace. by apply disconnect_place. }
  intros e. apply own_perform_all.
Qed.

(** ** The other tasks *)

Lemma own_remove_if_current t m r :
  within r m ->
  keeps_prog t (owner t m false) (remove_if_current r) (fun _ => owner t m false).
Proof.
  intros Hm. unfold remove_if_current.
  eapply keeps_bind; [apply own_rooms; intros; apply remove_entry_quiet_heap|].
  intros removed. destruct removed; [|apply own_ret].
  eapply keeps_bind; [by apply own_read|]. intros key.
  eapply keeps_bind; [apply own_quota|]. intros ?. apply own_ret.
Qed.

Lemma sweep_place t guest m leaving r st now inow :
  room_wf st -> place_ok t guest m leaving r st ->
  let '(st', b) := sweep_state now inow st in
  room_guar t st st'
  /\ place_ok t guest m leaving r st'.
Proof.
  intros Hwf Hplace. pose proof (sweep_state_events now inow st) as Hev.
  destruct (sweep_state now inow st) as [st' b]. cbn [fst snd] in Hev.
  pose proof (quiet_event_place t guest m leaving r st (EvPrune inow) Hwf eq_refl ltac:(done) Hplace)
    as [Hguar Hplace1].
  destruct b as [[[|] changed] evict]; cbn [fst snd] in Hev; subst st'; [|done].
  set (st1 := room_apply st (EvPrune inow)) in *.
  assert (Hc : forall drop, closing (room_apply st1 (EvClose drop)) = true) by (by intros []).
  split; [|by split; intros; rewrite Hc in *].
  destruct Hguar as [Hsid _ Hnext Hpeers]. split; intros *.
  - by rewrite session_id_apply.
  - intros _. apply Hc.
  - by rewrite next_conn_id_quiet.
  - intros Hp. pose proof (lookup_weaken _ (peers st1) _ _ Hp ltac:(by apply peers_quiet)) as Hp1.
    destruct (Hpeers _ _ Hp1) as [[? _]|?]; [left; split; [done|]|by right]. by rewrite Hc.
Qed.

Lemma own_sweep t now inow inow_logs :
  keeps_prog t (owner t None false) (sweep now inow inow_logs) (fun _ => owner t None false).
Proof.
  unfold sweep. eapply keeps_bind; [by apply own_rooms|]. intros rooms.
  eapply keeps_bind with (Q := fun _ => owner t None false); [|intros ?; apply own_quiet; by intros w w' b [= <- _]].
  induction rooms as [|r rooms IH]; cbn [sweep_rooms]; [apply own_ret|].
  eapply keeps_bind with (Q := fun _ => owner t None false); [|by intros ?]. unfold sweep_room.
  eapply keeps_bind.
  { apply (own_room t None false r (sweep_state now (inow r)) (fun _ => None) (fun _ => false));
      [apply within_none|intros; apply within_none|].
    intros st Hwf _ Hplace. by apply sweep_place. }
  intros [[remove changed] evict].
  eapply keeps_bind with (Q := fun _ => owner t None false).
  { destruct remove; [|apply own_ret].
    eapply keeps_bind; [apply own_remove_if_current, within_none|]. intros ?. apply own_ret. }
  intros ?. eapply keeps_bind with (Q := fun _ => owner t None false).
  { destruct changed; [apply own_perform|apply own_ret]. }
  intros ?. apply own_perform_all.
Qed.

Lemma own_cleanup_run t ticks :
  keeps_prog t (owner t None false) (cleanup_run ticks) (fun _ => owner t None false).
Proof.
  induction ticks as [|[[now inow] inow_logs] ticks IH]; [apply own_ret|].
  cbn [cleanup_run]. eapply keeps_bind; [apply own_sweep|]. by intros ?.
Qed.

Lemma own_build_snapshot t clock :
  keeps_prog t (owner t None false) (build_snapshot clock) (fun _ => owner t None false).
Proof.
  unfold build_snapshot. eapply keeps_bind; [by apply own_rooms|]. intros rooms.
  generalize (@nil RoomDto). induction rooms as [|r rooms IH]; intros dtos; cbn [capture_rooms].
  { apply own_ret. }
  eapply keeps_bind; [apply own_read, within_none|]. intros captured. apply IH.
Qed.

Lemma own_capture_run t clocks :
  keeps_prog t (owner t None false) (capture_run clocks) (fun _ => owner t None false).
Proof.
  induction clocks as [|clock clocks IH]; [apply own_ret|]. cbn [capture_run].
  intros [|]; cbn [bind]; [|exact IH].
  eapply keeps_bind with (Q := fun _ => owner t None false); [|intros ?; exact IH].
  eapply keeps_bind; [apply own_build_snapshot|]. intros ?. apply own_ret.
Qed.

Lemma own_logs_only {A} t (p : prog World A) :
  logs_only p -> keeps_prog t (owner t None false) p (fun _ => owner t None false).
Proof.
  induction p as [a|B f k IH|k IH]; intros Hp; [apply own_ret| |done]. destruct Hp as [Hf Hk].
  change (Sec f k) with (bind (sec f) k). eapply keeps_bind; [|intros b; by apply IH].
  apply own_quiet. intros w w' b Hfw. destruct (Hf w) as (l & b' & Heq). by simplify_eq.
Qed.

(** ** The server *)

(** The tasks, with one channel per connection, named by its task. *)
Inductive own_starts (t : nat) : prog World unit -> Prop :=
| own_starts_connection ip_key opened arrivals closed :
    (guests t = true -> Forall guest_arrival arrivals) ->
    own_starts t (connection_run t t ip_key opened arrivals closed)
| own_starts_cleanup ticks : own_starts t (cleanup_run ticks)
| own_starts_captures clocks : own_starts t (capture_run clocks)
| own_starts_logs p : logs_only p -> own_starts t p.

Lemma own_starts_keeps t p :
  own_starts t p -> keeps_prog t (owner t None false) p (fun _ => owner t None false).
Proof.
  destruct 1; [by apply own_connection_run|apply own_cleanup_run|apply own_capture_run|].
  by apply own_logs_only.
Qed.

Lemma own_starts_starts t p : own_starts t p -> starts t p.
Proof. destruct 1; by constructor. Qed.
End task.

(** Nobody is connected to a restored room. *)
Lemma boot_empty restored r st : w_heap (boot restored) !! r = Some st -> peers st = ∅.
Proof.
  unfold boot, restore_rooms. revert r st.
  assert (Hgen : forall w, (forall r st, w_heap w !! r = Some st -> peers st = ∅) ->
    forall r st, w_heap (foldl restore_room w restored) !! r = Some st -> peers st = ∅).
  2: { apply Hgen. intros r st Hst. cbn [empty_world w_heap] in Hst.
       by rewrite lookup_empty in Hst. }
  induction restored as [|rst restored IH]; intros w Hw; [done|]. cbn [foldl]. apply IH.
  intros r st Hst. unfold restore_room in Hst.
  cbn [alloc set_rooms set_rooms_per_ip w_heap] in Hst.
  apply lookup_insert_Some in Hst as [[_ <-]|[_ Hst]]; [done|by eapply Hw].
Qed.

Lemma boot_owner guests restored t : owns t (guests t) None false (boot restored).
Proof.
  intros _. split; [|done]. intros r st Hst. split; [|done].
  intros _ _ id p Hp. by rewrite (boot_empty _ _ _ Hst), lookup_empty in Hp.
Qed.

(** C4: no ghosts.  Let any number of connections, sweeps and captures run in
    any interleaving, and let task [t] be a guest's: a connection that never
    sends [create] or [endSession].  At any time, at most one open room lists
    the connection, in one place; and when the connection is over, however it
    ended, no open room lists it: whatever the others did to the room
    meanwhile, its place was taken off, given up or taken over.  The others
    may send anything. *)
Theorem guest_membership guests restored w ps t
    (Hboot : bootable restored)
    (Hreach : pool_reach (own_starts guests) (boot restored) (w, ps))
    (Hbound : bounded w) (Hguest : guests t = true) :
  (forall r1 r2 st1 st2 id1 id2 p1 p2,
     w_heap w !! r1 = Some st1 -> w_heap w !! r2 = Some st2 ->
     closing st1 = false -> closing st2 = false ->
     peers st1 !! id1 = Some p1 -> peers st2 !! id2 = Some p2 ->
     cp_tx p1 = t -> cp_tx p2 = t -> r1 = r2 /\ id1 = id2)
  /\ (ps !! t = Some (Ret tt) ->
      forall r st id p, w_heap w !! r = Some st -> closing st = false ->
        peers st !! id = Some p -> cp_tx p <> t).
Proof.
  assert (Hinv : forall c, pool_reach (own_starts guests) (boot restored) c -> world_wf c.1).
  { intros c Hc. apply (server_ok restored); [done|].
    eapply pool_reach_mono; [apply (own_starts_starts guests)|exact Hc]. }
  pose proof (pool_keeps (own_starts guests) world_wf own_guar (one_place guests)
    (fun t => owns t (guests t) None false) (fun t => owns t (guests t) None false)
    (fun t => owns_assertion guests t None false) (own_starts_keeps guests)
    (boot restored) (w, ps) Hinv (boot_owner guests restored) Hreach) as [Hthr Hoth].
  cbn [fst snd] in *. split.
  - enough (one_place guests t w) as Hone by by apply Hone.
    destruct (ps !! t) as [p|] eqn:Hp.
    + destruct (Hthr t p Hp) as (L & [_ HL] & Hl & _). by apply HL.
    + apply (owns_assertion guests t None false), Hoth, Hp.
  - intros Hp r st id q Hst Hc Hq Htx.
    destruct (Hthr t _ Hp) as (L & _ & Hl & Hk).
    destruct (Hk w (Hinv _ Hreach) Hl Hbound) as [Hplace _].
    by pose proof (proj1 (Hplace r st Hst) Hguest Hc id q Hq Htx).
Qed.
End ownership.
