(* ===== verification/CleanupThms.v ===== *)
(** * The cleanup sweep, run alone

    Which rooms a sweep removes, what it does to each, and whom it cancels. *)
From S2P Require Import Prelude.
From S2P Require Import Protocol.
From S2P Require Import Ids.
From S2P Require Import HostTransfer.
From S2P Require Import Room.
From S2P Require Import RoomInv.
From S2P Require Import Snapshot.
From S2P Require Import Logs.
From S2P Require Import Threads.
From S2P Require Import World.
From S2P Require Import Registry.
From S2P Require Import Cleanup.
From S2P Require Import Connection.
From S2P Require Import System.
From S2P Require Import RegistryThms.
From S2P Require Import ConnThms.
From S2P Require Import ConnTrack.

#[local] Arguments Nat.leb : simpl never.
#[local] Arguments Nat.sub : simpl never.

Section cleanup.
Context `{HashIter} `{CryptoLib} `{!CryptoLaws _} `{SnapshotLib}.

(** ** One room *)

(** The rooms a sweep keeps: at most a day old, and not empty for more than
    five minutes. *)
Definition fresh (now : SystemTime) (st : RoomState) : Prop :=
  (age st now <= ROOM_MAX_AGE)%Z
  /\ (peers st = ∅ -> (idle_for st now <= EMPTY_ROOM_MAX_AGE)%Z).

#[export] Instance fresh_dec now st : Decision (fresh now st).
Proof. unfold fresh. apply _. Defined.

(** The state a sweep leaves: expired reservations are gone, and a room that
    is removed is closed and empty. *)
Definition swept (now : SystemTime) (inow : Instant) (st : RoomState) : RoomState :=
  let st' := (prune_expired_reservations st inow).1 in
  if decide (fresh now st) then st' else set_peers (set_closing st' true) ∅.

(** The tokens of the members of a room that is removed. *)
Definition swept_tokens (now : SystemTime) (st : RoomState) : list CancellationToken :=
  if decide (fresh now st) then [] else cp_cancel <$> hm_values (peers st).

Definition sweep_notice (now : SystemTime) (inow : Instant) (st : RoomState) : bool :=
  (prune_expired_reservations st inow).2 || negb (bool_decide (fresh now st)).

Lemma set_peers_same st : set_peers st (peers st) = st.
Proof. by destruct st. Qed.

Lemma sweep_state_swept now inow st :
  sweep_state now inow st =
  (swept now inow st,
   (negb (bool_decide (fresh now st)), sweep_notice now inow st, swept_tokens now st)).
Proof.
  unfold sweep_state, swept, swept_tokens, sweep_notice, connected_peer_count, prune_expired_reservations.
  room_cbn. set (st' := set_reservations st _).
  change (idle_for st' now) with (idle_for st now). change (age st' now) with (age st now).
  assert (Hempty : (size (peers st) =? 0) = bool_decide (peers st = ∅)).
  { apply eq_true_iff_eq. rewrite Nat.eqb_eq, bool_decide_eq_true. apply map_size_empty_iff. }
  rewrite Hempty.
  assert (Hfresh : negb (bool_decide (fresh now st)) =
    bool_decide (peers st = ∅) && (EMPTY_ROOM_MAX_AGE <? idle_for st now)%Z
    || (ROOM_MAX_AGE <? age st now)%Z).
  { unfold fresh. repeat case_bool_decide;
      destruct (Z.ltb_spec EMPTY_ROOM_MAX_AGE (idle_for st now));
      destruct (Z.ltb_spec ROOM_MAX_AGE (age st now)); simpl; try done; exfalso; naive_solver lia. }
  rewrite Hfresh. destruct (decide (fresh now st)) as [Hf|Hf].
  - rewrite bool_decide_eq_true_2 in Hfresh by done. cbn [negb] in Hfresh. by rewrite <- Hfresh.
  - rewrite bool_decide_eq_false_2 in Hfresh by done. cbn [negb] in Hfresh. rewrite <- Hfresh.
    rewrite orb_true_r. destruct (decide (peers st = ∅)) as [He|He].
    + rewrite (bool_decide_eq_true_2 (_ = ∅)), andb_false_r by done. unfold hm_values.
      rewrite He, hm_iter_empty. rewrite <- (set_peers_same (set_closing st' true)) at 1.
      by do 2 f_equal.
    + rewrite (bool_decide_eq_false_2 (_ = ∅)) in Hfresh |- * by done. simpl in Hfresh.
      by rewrite <- Hfresh.
Qed.

Lemma swept_id now inow st : session_id (swept now inow st) = session_id st.
Proof. unfold swept. by destruct (decide _). Qed.

(** The operations on channels of one room's turn. *)
Definition sweep_actions (now : SystemTime) (inow : Instant) (st : RoomState) : list Action :=
  (if sweep_notice now inow st then [Mutate] else []) ++ (Cancel <$> swept_tokens now st).

Lemma run_sweep_room answer now inow r w st :
  w_heap w !! r = Some st -> w_writer w = None -> w_rooms w !! session_id st = Some r ->
  exists w', run answer (sweep_room now inow r) w = Some (w', tt)
    /\ w_heap w' = <[r := swept now (inow r) st]> (w_heap w)
    /\ w_rooms w' = (if decide (fresh now st) then w_rooms w
                     else delete (session_id st) (w_rooms w))
    /\ w_writer w' = None /\ w_logs w' = w_logs w
    /\ w_actions w' = w_actions w ++ sweep_actions now (inow r) st.
Proof.
  intros Hst Hwr Hreg. unfold sweep_room. rewrite (run_room _ _ _ _ _ st) by done.
  rewrite sweep_state_swept. cbn [fst snd]. set (w1 := set_heap w _).
  assert (Hremove : exists w2, run answer (if negb (bool_decide (fresh now st))
      then remove_if_current r ;! Ret tt else Ret tt) w1 = Some (w2, tt)
    /\ w_heap w2 = w_heap w1 /\ w_writer w2 = None /\ w_logs w2 = w_logs w
    /\ w_actions w2 = w_actions w
    /\ w_rooms w2 = (if decide (fresh now st) then w_rooms w
                     else delete (session_id st) (w_rooms w))).
  { destruct (decide (fresh now st)) as [Hf|Hf].
    { rewrite bool_decide_eq_true_2 by done. by exists w1. }
    rewrite bool_decide_eq_false_2 by done. cbn [negb]. unfold remove_if_current.
    rewrite run_bind.
    erewrite run_sec.
    2: { unfold with_rooms. cbn [w1 set_heap w_writer]. rewrite Hwr. unfold remove_entry_if.
         cbn [w1 set_heap w_heap w_rooms].
         rewrite lookup_insert_eq, swept_id, Hreg, bool_decide_eq_true_2 by done. reflexivity. }
    cbn [fst snd].
    erewrite run_read by (cbn [set_rooms w_heap]; apply lookup_insert_eq).
    unfold release_room_quota. erewrite run_sec by reflexivity. cbn [run].
    eexists. split; [reflexivity|]. by split_and!. }
  destruct Hremove as (w2 & Hrun & Hh & Hwr2 & Hl & Ha & Hr).
  rewrite run_bind, Hrun, run_bind.
  set (notice := run answer (if sweep_notice _ _ _ then _ else _) w2).
  assert (Hnotice : notice = Some (set_actions w2 (w_actions w2 ++
    (if sweep_notice now (inow r) st then [Mutate] else [])), tt)).
  { unfold notice. destruct (sweep_notice now (inow r) st); [done|]. simpl.
    rewrite app_nil_r. by destruct w2. }
  rewrite Hnotice, run_perform_all. eexists. split; [reflexivity|].
  cbn [set_actions w_heap w_rooms w_writer w_logs w_actions].
  rewrite Hh, Ha, Hr. split_and!; try done. unfold sweep_actions. by rewrite app_assoc.
Qed.

(** ** All rooms *)

(** What a sweep over [rooms] does to a world. *)
Definition sweep_post (now : SystemTime) (inow : nat -> Instant) (rooms : list nat)
    (w w' : World) : Prop :=
  let removed r := r ∈ rooms /\ exists st, w_heap w !! r = Some st /\ ~ fresh now st in
  (forall r, w_heap w' !! r =
     if decide (r ∈ rooms) then swept now (inow r) <$> w_heap w !! r else w_heap w !! r)
  /\ (forall sid r, w_rooms w' !! sid = Some r <-> w_rooms w !! sid = Some r /\ ~ removed r)
  /\ (exists acts, w_actions w' = w_actions w ++ acts
      /\ (forall token, Cancel token ∈ acts <-> exists r st id p, r ∈ rooms
            /\ w_heap w !! r = Some st /\ ~ fresh now st /\ peers st !! id = Some p
            /\ cp_cancel p = token)
      /\ (Mutate ∈ acts <-> exists r st, r ∈ rooms /\ w_heap w !! r = Some st
            /\ (~ fresh now st \/ (prune_expired_reservations st (inow r)).2 = true))
      /\ (forall tx msg, TrySend tx msg ∉ acts) /\ Terminal ∉ acts).

Lemma elem_of_sweep_cancels now inow st token :
  Cancel token ∈ sweep_actions now inow st <->
  exists id p, ~ fresh now st /\ peers st !! id = Some p /\ cp_cancel p = token.
Proof.
  unfold sweep_actions, swept_tokens. rewrite elem_of_app, list_elem_of_fmap.
  split.
  - intros [Hin|(y & [= <-] & Hin)]; [destruct (sweep_notice _ _ _); set_solver|].
    destruct (decide (fresh now st)); [set_solver|].
    apply list_elem_of_fmap in Hin as (p & -> & (id & Hp)%elem_of_hm_values). by exists id, p.
  - intros (id & p & Hf & Hp & <-). right. eexists. split; [reflexivity|].
    rewrite decide_False by done. apply list_elem_of_fmap_2, elem_of_hm_values. by exists id.
Qed.

Lemma elem_of_sweep_notice now inow st :
  Mutate ∈ sweep_actions now inow st <->
  ~ fresh now st \/ (prune_expired_reservations st inow).2 = true.
Proof.
  unfold sweep_actions. rewrite elem_of_app.
  assert (Hn : sweep_notice now inow st = true <->
    ~ fresh now st \/ (prune_expired_reservations st inow).2 = true).
  { unfold sweep_notice. rewrite orb_true_iff, negb_true_iff, bool_decide_eq_false. tauto. }
  rewrite <- Hn. destruct (sweep_notice now inow st).
  - split; [done|]. intros _. left. left.
  - split; [|done]. intros [Hin|Hin]; [set_solver|].
    by apply list_elem_of_fmap in Hin as (? & ? & _).
Qed.

Lemma sweep_actions_kind now inow st a :
  a ∈ sweep_actions now inow st -> a = Mutate \/ exists token, a = Cancel token.
Proof.
  unfold sweep_actions. intros [Hin|(t & -> & _)%list_elem_of_fmap]%elem_of_app; [|by right; eexists].
  left. destruct (sweep_notice _ _ _); set_solver.
Qed.

(** Every entry of the table names a room of its id. *)
Definition table_ok (w : World) : Prop :=
  forall sid r, w_rooms w !! sid = Some r -> exists st, w_heap w !! r = Some st /\ session_id st = sid.

Definition registered (w : World) (r : nat) : Prop :=
  exists st, w_heap w !! r = Some st /\ w_rooms w !! session_id st = Some r.

(** One room, then the others. *)
Section one_room.
Context (now : SystemTime) (inow : nat -> Instant) (r : nat) (rooms : list nat) (w w1 w' : World)
  (st : RoomState).
Hypothesis Hr : r ∉ rooms.
Hypothesis Htab : table_ok w.
Hypothesis Hst : w_heap w !! r = Some st.
Hypothesis Hsid : w_rooms w !! session_id st = Some r.
Hypothesis Hh1 : w_heap w1 = <[r := swept now (inow r) st]> (w_heap w).
Hypothesis Hr1 :
  w_rooms w1 = (if decide (fresh now st) then w_rooms w else delete (session_id st) (w_rooms w)).
Hypothesis Ha1 : w_actions w1 = w_actions w ++ sweep_actions now (inow r) st.
Hypothesis Hpost : sweep_post now inow rooms w1 w'.

Lemma unswept r' : r' ∈ rooms -> w_heap w1 !! r' = w_heap w !! r'.
Proof. intros Hr'. rewrite Hh1. apply lookup_insert_ne. congruence. Qed.

Lemma sweep_heap_cons r' :
  w_heap w' !! r'
  = if decide (r' ∈ r :: rooms) then swept now (inow r') <$> w_heap w !! r' else w_heap w !! r'.
Proof.
  destruct Hpost as [Hheap _]. rewrite Hheap. destruct (decide (r' ∈ rooms)) as [Hin|Hin].
  - by rewrite unswept, decide_True by (done || by right).
  - rewrite Hh1. destruct (decide (r' = r)) as [->|Hne].
    + by rewrite lookup_insert_eq, decide_True, Hst by left.
    + rewrite lookup_insert_ne, decide_False by (rewrite ?elem_of_cons; naive_solver). done.
Qed.

Lemma sweep_table_cons sid r' :
  w_rooms w' !! sid = Some r' <-> w_rooms w !! sid = Some r'
  /\ ~ (r' ∈ r :: rooms /\ exists st, w_heap w !! r' = Some st /\ ~ fresh now st).
Proof.
  destruct Hpost as (_ & Htable & _). rewrite Htable, Hr1. split.
  - intros [Hreg Hkeep].
    assert (Hreg' : w_rooms w !! sid = Some r' /\ (r' = r -> fresh now st)).
    { destruct (decide (fresh now st)) as [Hf|Hf]; [by split|].
      apply lookup_delete_Some in Hreg as [Hne Hreg]. split; [done|].
      intros ->. destruct (Htab sid r Hreg) as (st' & Hst' & <-). by simplify_eq. }
    destruct Hreg' as [Hreg' Hf]. split; [done|].
    intros ([->|Hin]%elem_of_cons & st' & Hst' & Hnf); [simplify_eq; by apply Hnf, Hf|].
    apply Hkeep. split; [done|]. exists st'. by rewrite unswept.
  - intros [Hreg Hkeep]. split.
    + destruct (decide (fresh now st)) as [Hf|Hf]; [done|].
      apply lookup_delete_Some. split; [|done]. intros <-. apply Hkeep.
      simplify_eq. split; [left|by exists st].
    + intros (Hin & st' & Hst' & Hnf). apply Hkeep. rewrite unswept in Hst' by done.
      split; [by right|by exists st'].
Qed.

(** What one of several rooms causes is caused by the first or by one of the
    others. *)
Lemma some_room_cons (Q : nat -> RoomState -> Prop) :
  (exists r' st', r' ∈ r :: rooms /\ w_heap w !! r' = Some st' /\ Q r' st')
  <-> Q r st \/ exists r' st', r' ∈ rooms /\ w_heap w1 !! r' = Some st' /\ Q r' st'.
Proof.
  split.
  - intros (r' & st' & [->|Hin]%elem_of_cons & Hst' & HQ); [left; by simplify_eq|].
    right. exists r', st'. by rewrite unswept.
  - intros [HQ|(r' & st' & Hin & Hst' & HQ)].
    + exists r, st. split_and!; [left|done..].
    + rewrite unswept in Hst' by done. exists r', st'. split_and!; [by right|done..].
Qed.

Lemma sweep_post_cons : sweep_post now inow (r :: rooms) w w'.
Proof.
  split_and!; [exact sweep_heap_cons|exact sweep_table_cons|].
  destruct Hpost as (_ & _ & acts & Ha & Hcancel & Hmut & Hsend & Hterm).
  exists (sweep_actions now (inow r) st ++ acts). rewrite Ha, Ha1, app_assoc. split; [done|].
  split_and!.
  - intros token. rewrite elem_of_app, elem_of_sweep_cancels, Hcancel.
    pose proof (some_room_cons (fun _ st' => exists id p,
      ~ fresh now st' /\ peers st' !! id = Some p /\ cp_cancel p = token)) as Hsome.
    clear -Hsome. naive_solver.
  - rewrite elem_of_app, elem_of_sweep_notice, Hmut. symmetry.
    exact (some_room_cons (fun r' st' =>
      ~ fresh now st' \/ (prune_expired_reservations st' (inow r')).2 = true)).
  - intros tx msg [Hin|Hin]%elem_of_app; [|by eapply Hsend].
    by destruct (sweep_actions_kind _ _ _ _ Hin) as [?|[? ?]].
  - intros [Hin|Hin]%elem_of_app; [|by apply Hterm].
    by destruct (sweep_actions_kind _ _ _ _ Hin) as [?|[? ?]].
Qed.
End one_room.

(** The rest of the table after one room's turn. *)
Lemma table_after now inow r rooms w st w1 :
  r ∉ rooms -> table_ok w -> Forall (registered w) rooms ->
  w_heap w !! r = Some st -> w_rooms w !! session_id st = Some r ->
  w_heap w1 = <[r := swept now inow st]> (w_heap w) ->
  w_rooms w1 = (if decide (fresh now st) then w_rooms w else delete (session_id st) (w_rooms w)) ->
  table_ok w1 /\ Forall (registered w1) rooms.
Proof.
  intros Hr Htab Hreg Hst Hsid Hh1 Hr1.
  assert (Hsub : w_rooms w1 ⊆ w_rooms w)
    by (rewrite Hr1; destruct (decide _); [done|apply delete_subseteq]).
  split.
  - intros sid r' Hreg'. apply (lookup_weaken _ (w_rooms w)) in Hreg'; [|done].
    destruct (Htab sid r' Hreg') as (st' & Hst' & <-). rewrite Hh1.
    destruct (decide (r' = r)) as [->|Hne].
    + simplify_eq. exists (swept now inow st). by rewrite lookup_insert_eq, swept_id.
    + exists st'. by rewrite lookup_insert_ne.
  - apply Forall_forall. intros r' Hin. rewrite Forall_forall in Hreg.
    destruct (Hreg r' Hin) as (st' & Hst' & Hsid'). assert (Hne : r <> r') by congruence.
    exists st'. rewrite Hh1, lookup_insert_ne by done. split; [done|].
    rewrite Hr1. destruct (decide _); [done|]. rewrite lookup_delete_ne; [done|].
    intros Heq. rewrite Heq in Hsid. congruence.
Qed.

Lemma run_sweep_rooms answer now inow rooms w :
  NoDup rooms -> w_writer w = None -> table_ok w -> Forall (registered w) rooms ->
  exists w', run answer (sweep_rooms now inow rooms) w = Some (w', tt)
    /\ w_writer w' = None /\ w_logs w' = w_logs w /\ sweep_post now inow rooms w w'.
Proof.
  revert w. induction rooms as [|r rooms IH]; intros w Hnd Hwr Htab Hreg; cbn [sweep_rooms].
  { exists w. split_and!; [done..| ]. split; [done|]. split; [set_solver|].
    exists []. rewrite app_nil_r. set_solver. }
  apply NoDup_cons in Hnd as [Hr Hnd]. apply Forall_cons in Hreg as [(st & Hst & Hsid) Hreg].
  destruct (run_sweep_room answer now inow r w st Hst Hwr Hsid)
    as (w1 & Hrun & Hh1 & Hr1 & Hwr1 & Hl1 & Ha1).
  destruct (table_after now (inow r) r rooms w st w1) as [Htab1 Hreg1]; try done.
  destruct (IH w1 Hnd Hwr1 Htab1 Hreg1) as (w' & Hrun' & Hwr' & Hl' & Hpost).
  exists w'. rewrite run_bind, Hrun. split_and!; [done|done|congruence|].
  by eapply sweep_post_cons.
Qed.

(** C26: what a sweep does.  A sweep that runs alone removes exactly the
    rooms that are more than a day old or have been empty for more than five
    minutes.  Each removed room is left closed and without members, every
    member of it is cancelled, and nobody else is; every other registered room
    only loses its expired reservations, and a room that is no longer
    registered is not touched.  The snapshot writer is told exactly when a
    room was removed or a reservation expired; no client is sent anything.
    Old log entries go as [log_cleanup] says. *)
Theorem sweep_spec answer now inow inow_logs w
    (Hwf : world_wf w) (Hfree : w_writer w = None) :
  let registered r := exists sid, w_rooms w !! sid = Some r in
  exists w', run answer (sweep now inow inow_logs) w = Some (w', tt)
    /\ (forall sid r, w_rooms w' !! sid = Some r <->
          w_rooms w !! sid = Some r
          /\ exists st, w_heap w !! r = Some st /\ (age st now <= ROOM_MAX_AGE)%Z
             /\ (peers st = ∅ -> (idle_for st now <= EMPTY_ROOM_MAX_AGE)%Z))
    /\ (forall r st, registered r -> w_heap w !! r = Some st ->
          w_heap w' !! r = Some
            (let kept := (prune_expired_reservations st (inow r)).1 in
             if decide (fresh now st) then kept else set_peers (set_closing kept true) ∅))
    /\ (forall r, ~ registered r -> w_heap w' !! r = w_heap w !! r)
    /\ (exists acts, w_actions w' = w_actions w ++ acts
        /\ (forall token, Cancel token ∈ acts <-> exists r st id p, registered r
              /\ w_heap w !! r = Some st /\ ~ fresh now st /\ peers st !! id = Some p
              /\ cp_cancel p = token)
        /\ (Mutate ∈ acts <-> exists r st, registered r /\ w_heap w !! r = Some st
              /\ (~ fresh now st \/ (prune_expired_reservations st (inow r)).2 = true))
        /\ (forall tx msg, TrySend tx msg ∉ acts) /\ Terminal ∉ acts)
    /\ w_logs w' = log_cleanup (w_logs w) now inow_logs.
Proof.
  intros reg. assert (Htab : table_ok w) by exact (wf_table w Hwf).
  assert (Hin : forall r, r ∈ hm_values (w_rooms w) <-> reg r) by (intros; apply elem_of_hm_values).
  destruct (run_sweep_rooms answer now inow (hm_values (w_rooms w)) w)
    as (w1 & Hrun & Hwr & Hl & Hheap & Htable & acts & Ha & Hcancel & Hmut & Hsend & Hterm);
    [by apply table_refs_NoDup|done|done| |].
  { apply Forall_forall. intros r [sid Hsid]%Hin. destruct (Htab sid r Hsid) as (st & Hst & <-).
    by exists st. }
  exists (set_logs w1 (log_cleanup (w_logs w1) now inow_logs)).
  cbn [set_logs w_rooms w_heap w_actions w_logs]. split_and!.
  - unfold sweep, all_rooms. erewrite run_sec by (unfold with_rooms; by rewrite Hfree).
    by rewrite run_bind, Hrun.
  - intros sid r. rewrite Htable. split; intros [Hsid Hkeep]; (split; [done|]).
    + destruct (Htab sid r Hsid) as (st & Hst & Hid). exists st. split; [done|].
      destruct (decide (fresh now st)) as [Hf|Hf]; [done|]. exfalso. apply Hkeep.
      split; [apply Hin; by exists sid|by exists st].
    + intros (_ & st & Hst & Hnf). destruct Hkeep as (st' & Hst' & Hf). by simplify_eq.
  - intros r st Hreg Hst. by rewrite Hheap, decide_True, Hst by (by apply Hin).
  - intros r Hreg. by rewrite Hheap, decide_False by (by rewrite Hin).
  - exists acts. split; [done|]. split_and!; [|  |done|done].
    + intros token. rewrite Hcancel. by setoid_rewrite Hin.
    + rewrite Hmut. by setoid_rewrite Hin.
  - by rewrite Hl.
Qed.
End cleanup.
