(* ===== verification/Races.v ===== *)
(** * Interleavings with visible consequences

    Runs of the server, each a schedule of critical sections that is executed
    on the model.  What is stated of a run is what the code does when its tasks
    are scheduled that way; where a race is the point, the run is told in
    stages, each with what it finds and what it leaves ([unfolds]). *)
From S2P Require Import Prelude.
From S2P Require Import Protocol.
From S2P Require Import Ids.
From S2P Require Import Samples.
From S2P Require Import HostTransfer.
From S2P Require Import Room.
From S2P Require Import RoomSamples.
From S2P Require Import Snapshot.
From S2P Require Import Threads.
From S2P Require Import World.
From S2P Require Import Registry.
From S2P Require Import Cleanup.
From S2P Require Import Connection.
From S2P Require Import System.
From S2P Require Import RegistryThms.

#[local] Existing Instance canonical_order.
#[local] Existing Instance sample_crypto.

(** ** Schedules *)

(** Thread [t] runs up to [n] sections; waits for the writer end with [true]. *)
Fixpoint advance {W} (n : nat) (t : nat) (w : W) (p : prog W unit) : option (W * prog W unit) :=
  match n with
  | 0 => Some (w, p)
  | S n =>
    match p with
    | Ret _ => Some (w, p)
    | Sec f k => match f w with Some (w, b) => advance n t w (k b) | None => None end
    | Ask k => advance n t w (k true)
    end
  end.

(** A schedule gives each thread its number of sections, in order. *)
Fixpoint execute {W} (schedule : list (nat * nat)) (c : W * gmap nat (prog W unit))
    : option (W * gmap nat (prog W unit)) :=
  match schedule with
  | [] => Some c
  | (t, n) :: schedule =>
    match c.2 !! t with
    | None => None
    | Some p =>
      match advance n t c.1 p with
      | Some (w, p) => execute schedule (w, <[t := p]> c.2)
      | None => None
      end
    end
  end.

Definition boot_pool {W} (threads : list (nat * prog W unit)) : gmap nat (prog W unit) :=
  foldl (fun ps tp => <[tp.1 := tp.2]> ps) ∅ threads.

Section soundness.
Context {W : Type} (starts : nat -> prog W unit -> Prop) (w0 : W).

Lemma advance_reach n t w ps p w' p' :
  pool_reach starts w0 (w, ps) -> ps !! t = Some p -> advance n t w p = Some (w', p') ->
  pool_reach starts w0 (w', <[t := p']> ps).
Proof.
  revert w ps p. induction n as [|n IH]; intros w ps p Hreach Ht Hadv; simpl in Hadv.
  { injection Hadv as <- <-. by rewrite insert_id. }
  destruct p as [a|B f k|k].
  - injection Hadv as <- <-. by rewrite insert_id.
  - destruct (f w) as [[w1 b]|] eqn:Hf; [|done].
    rewrite <- (insert_insert_eq ps t p' (k b)).
    eapply IH; [|apply lookup_insert_eq|exact Hadv].
    eapply pool_reach_step; [exact Hreach|by eapply step_section].
  - rewrite <- (insert_insert_eq ps t p' (k true)).
    eapply IH; [|apply lookup_insert_eq|exact Hadv].
    eapply pool_reach_step; [exact Hreach|by eapply step_answer].
Qed.

Lemma execute_reach schedule c c' :
  pool_reach starts w0 c -> execute schedule c = Some c' -> pool_reach starts w0 c'.
Proof.
  revert c. induction schedule as [|[t n] schedule IH]; intros [w ps] Hreach Hex; simpl in Hex.
  { by injection Hex as <-. }
  destruct (ps !! t) as [p|] eqn:Ht; [|done].
  destruct (advance n t w p) as [[w1 p1]|] eqn:Hadv; [|done].
  eapply IH; [|exact Hex]. by eapply advance_reach.
Qed.

Lemma boot_pool_reach threads :
  NoDup threads.*1 -> Forall (fun tp => starts tp.1 tp.2) threads ->
  pool_reach starts w0 (w0, boot_pool threads).
Proof.
  unfold boot_pool. intros Hnd Hall.
  assert (Hgen : forall l ps, pool_reach starts w0 (w0, ps) -> NoDup l.*1 ->
    Forall (fun tp => starts tp.1 tp.2) l -> (forall t, t ∈ l.*1 -> ps !! t = None) ->
    pool_reach starts w0 (w0, foldl (fun ps tp => <[tp.1 := tp.2]> ps) ps l)).
  { clear. induction l as [|[t p] l IH]; intros ps Hreach Hnd Hall Hfree; simpl; [done|].
    apply NoDup_cons in Hnd as [Ht Hnd]. apply Forall_cons in Hall as [Hp Hall].
    apply IH; [|done..|].
    - eapply pool_reach_step; [exact Hreach|]. constructor; [|done]. apply Hfree. left.
    - intros t' Ht'. rewrite lookup_insert_ne by (by intros ->). apply Hfree. by right. }
  apply Hgen; [constructor|done..].
Qed.

Lemma run_reach threads schedule c :
  NoDup threads.*1 -> Forall (fun tp => starts tp.1 tp.2) threads ->
  execute schedule (w0, boot_pool threads) = Some c -> pool_reach starts w0 c.
Proof. intros ? ? Hex. eapply execute_reach; [by apply boot_pool_reach|exact Hex]. Qed.
End soundness.

(** A property of the configuration a schedule ends in, decided by running it. *)
Definition ends {W} (schedule : list (nat * nat)) (threads : list (nat * prog W unit)) (w0 : W)
    (P : W -> gmap nat (prog W unit) -> bool) : bool :=
  match execute schedule (w0, boot_pool threads) with
  | Some (w, ps) => P w ps
  | None => false
  end.

Lemma ends_reach {W} (starts : nat -> prog W unit -> Prop) w0 threads schedule P :
  NoDup threads.*1 -> Forall (fun tp => starts tp.1 tp.2) threads ->
  ends schedule threads w0 P = true ->
  exists w ps, pool_reach starts w0 (w, ps) /\ P w ps = true.
Proof.
  unfold ends. intros Hnd Hall HP.
  destruct (execute schedule _) as [[w ps]|] eqn:Hex; [|done].
  exists w, ps. split; [|done]. by eapply run_reach.
Qed.

(** The same of the world alone. *)
Definition ends_in {W} (schedule : list (nat * nat)) (threads : list (nat * prog W unit))
    (w0 : W) (P : W -> bool) : bool := ends schedule threads w0 (fun w _ => P w).

Lemma ends_in_reach {W} (starts : nat -> prog W unit -> Prop) w0 threads schedule P :
  NoDup threads.*1 -> Forall (fun tp => starts tp.1 tp.2) threads ->
  ends_in schedule threads w0 P = true ->
  exists w ps, pool_reach starts w0 (w, ps) /\ P w = true.
Proof. exact (ends_reach starts w0 threads schedule (fun w _ => P w)). Qed.

(** The same with a task that has run to its end. *)
Definition over {W} (t : nat) (ps : gmap nat (prog W unit)) : bool :=
  match ps !! t with Some (Ret _) => true | _ => false end.

Definition ends_over {W} (schedule : list (nat * nat)) (threads : list (nat * prog W unit))
    (w0 : W) (t : nat) (P : W -> bool) : bool :=
  ends schedule threads w0 (fun w ps => over t ps && P w).

Lemma over_finished {W} t (ps : gmap nat (prog W unit)) : over t ps = true -> ps !! t = Some (Ret tt).
Proof. unfold over. by destruct (ps !! t) as [[[]| |]|]. Qed.

Lemma ends_over_reach {W} (starts : nat -> prog W unit -> Prop) w0 threads schedule t P :
  NoDup threads.*1 -> Forall (fun tp => starts tp.1 tp.2) threads ->
  ends_over schedule threads w0 t P = true ->
  exists w ps, pool_reach starts w0 (w, ps) /\ ps !! t = Some (Ret tt) /\ P w = true.
Proof.
  intros Hnd Hall HP. destruct (ends_reach starts _ _ _ _ Hnd Hall HP) as (w & ps & Hreach & Hend).
  apply andb_true_iff in Hend as [Ht HP']. exists w, ps. split_and!; [done|by apply over_finished|done].
Qed.

(** What was sent on a channel, oldest first. *)
Definition inbox (tx : Sender) (w : World) : list ServerMessage :=
  omap (fun a => match a with
                 | TrySend tx' msg => if decide (tx' = tx) then Some msg else None
                 | _ => None end) (w_actions w).

(** ** Clients *)

Definition request (ty sid id token : string) : ClientMessage :=
  {| cm_msg_type := ty; cm_session_id := sid; cm_peer_id := id; cm_reconnect_token := token;
     cm_protocol_version := RELAY_PROTOCOL_VERSION; cm_sync_protocol_version := 5;
     cm_capabilities := []; cm_to := ""; cm_payload := None |}.

Definition at_secs (s : Z) : Clock := {| ck_now := from_secs s; ck_inow := from_secs s |}.

Definition arrival (f : Z * Frame) : Arrival :=
  {| ar_frame := f.2; ar_clock := at_secs f.1; ar_first := false |}.
Definition say (m : Z * ClientMessage) : Z * Frame := (m.1, FText 100 (Some m.2)).

(** A client at [10.0.0.1] on connection [t], opened at its first frame. *)
Definition client (t : nat) (frames : list (Z * Frame)) (closed : Z) : nat * prog World unit :=
  (t, connection_run t t "10.0.0.1" (from_secs (hd 0%Z frames.*1)) (arrival <$> frames)
        (at_secs closed)).

(** [n] answers to the server's pings, from [start] on. *)
Definition pongs (start : Z) (n : nat) : list (Z * Frame) :=
  (fun k => ((start + 30 * Z.of_nat k)%Z, FPong)) <$> seq 0 n.

Definition sweeper (t : nat) (second : Z) : nat * prog World unit :=
  (t, cleanup_run [(from_secs second, (fun _ => from_secs second), from_secs second)]).

Definition one_day : Z := 86400.

(** ** The quota *)

(** The room of connection 1 is a day old; it ends the session while the
    sweep (3) decides about the room. *)
Definition ending_against_sweep : list (nat * prog World unit) :=
  [client 1 (say (0%Z, request client_type.CREATE "room1" "host1" host_token)
             :: pongs 30 2881
             ++ [say ((one_day + 60)%Z, request client_type.END_SESSION "room1" "host1" host_token)])
     (one_day + 100);
   client 2 [say ((one_day + 10)%Z, request client_type.CREATE "room2" "host1" host_token)] (one_day + 100);
   sweeper 3 (one_day + 60);
   client 4 [say ((one_day + 70)%Z, request client_type.CREATE "room3" "host1" host_token)] (one_day + 100);
   client 5 [say ((one_day + 70)%Z, request client_type.CREATE "room4" "host1" host_token)] (one_day + 100);
   client 6 [say ((one_day + 70)%Z, request client_type.CREATE "room5" "host1" host_token)] (one_day + 100)].

Definition open_with_one (w : World) (r : nat) : bool :=
  match w_heap w !! r with
  | Some st => negb (closing st) && (size (peers st) =? 1)
  | None => false
  end.

(** C35: the room quota is not enforced when a session ends while the cleanup
    sweep removes the same room.  [end_session] closes the room, the sweep,
    which does not look whether a room is closing, removes its entry and
    releases the owner's quota, and [end_session], which does not look whether
    it removed the entry itself, releases it again.  There is a run of the
    server from an empty state after which one address owns four registered,
    open, occupied rooms, one more than the limit, while its counter says
    three. *)
Theorem quota_double_release :
  exists w ps, pool_reach starts (boot []) (w, ps)
    /\ w_writer w = None
    /\ w_rooms_per_ip w !! "10.0.0.1" = Some MAX_ROOMS_PER_IP
    /\ owned w "10.0.0.1" = S MAX_ROOMS_PER_IP
    /\ (forall sid r, w_rooms w !! sid = Some r -> exists st, w_heap w !! r = Some st
          /\ closing st = false /\ size (peers st) = 1).
Proof.
  destruct (ends_in_reach starts (boot []) ending_against_sweep
    [(1, 2892); (2, 9); (3, 100); (1, 5); (4, 9); (5, 9); (6, 9)]
    (fun w => bool_decide (w_writer w = None)
       && bool_decide (w_rooms_per_ip w !! "10.0.0.1" = Some MAX_ROOMS_PER_IP)
       && (owned w "10.0.0.1" =? S MAX_ROOMS_PER_IP)
       && forallb (open_with_one w) (map_to_list (w_rooms w)).*2))
    as (w & ps & Hreach & Hend).
  - by vm_compute; repeat constructor; set_solver.
  - repeat constructor.
  - by vm_compute.
  - apply andb_true_iff in Hend as [[[Hwr Hq]%andb_true_iff Ho]%andb_true_iff Hopen]. to_prop.
    apply Nat.eqb_eq in Ho. exists w, ps. split_and!; try done. intros sid r Hsid.
    rewrite forallb_forall in Hopen. specialize (Hopen r). unfold open_with_one in Hopen.
    destruct (w_heap w !! r) as [st|]; [exists st; split; [done|]|];
      (rewrite <- list_elem_of_In, list_elem_of_fmap in Hopen;
       specialize (Hopen (ex_intro _ (sid, r) (conj eq_refl (proj2 (elem_of_map_to_list _ _ _) Hsid)))));
      [|done].
    apply andb_true_iff in Hopen as [? ?%Nat.eqb_eq]. by to_prop.
Qed.

(** ** Runs told in stages *)

Abbreviation Config := (World * gmap nat (prog World unit))%type.

(** The server with these tasks, before any has moved. *)
Definition opened (threads : list (nat * prog World unit)) : Config := (boot [], boot_pool threads).

(** From [c] the tasks are scheduled stage by stage; each stage ends in a
    configuration of the server that is as the stage says, given the one in
    which it began. *)
Fixpoint unfolds (c : Config) (stages : list (list (nat * nat) * (Config -> Config -> Prop))) : Prop :=
  match stages with
  | [] => True
  | (schedule, P) :: stages =>
    exists c', execute schedule c = Some c' /\ pool_reach starts (boot []) c' /\ P c c'
               /\ unfolds c' stages
  end.

Definition run_to (schedule : list (nat * nat)) (c : Config) : Config := default c (execute schedule c).
Definition runs_on (schedule : list (nat * nat)) (c : Config) : bool :=
  match execute schedule c with Some _ => true | None => false end.

Lemma unfolds_cons c schedule P stages :
  pool_reach starts (boot []) c -> runs_on schedule c = true -> P c (run_to schedule c) ->
  (pool_reach starts (boot []) (run_to schedule c) -> unfolds (run_to schedule c) stages) ->
  unfolds c ((schedule, P) :: stages).
Proof.
  unfold runs_on, run_to. intros Hreach Hruns HP Hrest.
  destruct (execute schedule c) as [c'|] eqn:Hex; [|done].
  pose proof (execute_reach _ _ _ _ _ Hreach Hex) as Hreach'. exists c'. split_and!; auto.
Qed.

(** Proves each stage by running it. *)
Ltac play_stage :=
  apply unfolds_cons; [assumption|by vm_compute|split_and!; by vm_compute|intros ?].
Ltac play :=
  match goal with |- unfolds (opened ?threads) _ =>
    assert (pool_reach starts (boot []) (opened threads))
      by (apply boot_pool_reach; [by vm_compute; repeat constructor; set_solver|by repeat constructor])
  end;
  repeat play_stage; exact I.

(** What can be seen in a configuration: a room, a member of it, and what was
    sent on a channel. *)
Definition closing_at (c : Config) (r : nat) : option bool := closing <$> w_heap c.1 !! r.
Definition size_at (c : Config) (r : nat) : option nat := (fun st => size (peers st)) <$> w_heap c.1 !! r.
Definition host_at (c : Config) (r : nat) : option (string * Verifier) :=
  (fun st => (host_peer_id st, host_verifier st)) <$> w_heap c.1 !! r.
Definition member_at (c : Config) (r : nat) (id : string) : option ConnectedPeer :=
  w_heap c.1 !! r ≫= fun st => peers st !! id.
Definition tx_at (c : Config) (r : nat) (id : string) : option Sender := cp_tx <$> member_at c r id.
Definition told (tx : Sender) (c : Config) : list string := sm_msg_type <$> inbox tx c.1.

(** The connection that was listed under [id] at [c0] has been cancelled by [c]. *)
Definition evicted (c0 : Config) (r : nat) (id : string) (c : Config) : option bool :=
  (fun p => is_cancelled (Some (cp_cancel p)) c.1) <$> member_at c0 r id.

(** ** Reconnecting to a room that is going *)

(** The host of connection 1 is gone for more than five minutes when it calls
    again on connection 2 and the sweep (3) is at work. *)
Definition reconnect_against_sweep : list (nat * prog World unit) :=
  [client 1 [say (0%Z, request client_type.CREATE "room1" "host1" host_token)] 10;
   client 2 [say (400%Z, request client_type.CREATE "room1" "host1" host_token)] 500;
   sweeper 3 400].

(** C36: a host can be let into a room that no longer exists.  [create] asks
    the room whether it is closing, and reconnects the host, in two separate
    critical sections; the sweep can condemn the room in between.  In this run
    the host's second connection has had its answer, the room being open and
    empty, and holds the lock on the table, when the sweep's one section marks
    the room closing; then the connection goes on by itself and is answered
    [created], listed in the closing room.  The sweep takes the room off the
    table.  When all three tasks are over, the connection has been told nothing
    else, was never cancelled, and is still listed in the room that is gone. *)
Theorem reconnect_into_swept_room :
  unfolds (opened reconnect_against_sweep)
    [([(1, 11); (3, 1); (2, 3)], fun _ c =>
       w_writer c.1 = Some 2 /\ told 2 c = [] /\ w_rooms c.1 !! "room1" = Some 0
       /\ closing_at c 0 = Some false /\ size_at c 0 = Some 0);
     ([(3, 1)], fun _ c =>
       w_writer c.1 = Some 2 /\ told 2 c = [] /\ w_rooms c.1 !! "room1" = Some 0
       /\ closing_at c 0 = Some true /\ size_at c 0 = Some 0);
     ([(2, 5)], fun _ c =>
       told 2 c = [server_type.CREATED] /\ closing_at c 0 = Some true
       /\ tx_at c 0 "host1" = Some 2 /\ w_writer c.1 = None);
     ([(3, 100)], fun _ c =>
       over 3 c.2 = true /\ w_rooms c.1 = ∅
       /\ tx_at c 0 "host1" = Some 2 /\ evicted c 0 "host1" c = Some false);
     ([(2, 100)], fun _ c =>
       over 1 c.2 = true /\ over 2 c.2 = true /\ told 2 c = [server_type.CREATED]
       /\ closing_at c 0 = Some true /\ tx_at c 0 "host1" = Some 2
       /\ evicted c 0 "host1" c = Some false)].
Proof. play. Qed.

(** ** Reconnecting as somebody else *)

(** The same request from a client that can be handed the host role, with a
    target. *)
Definition capable (to_ : string) (m : ClientMessage) : ClientMessage :=
  {| cm_msg_type := cm_msg_type m; cm_session_id := cm_session_id m; cm_peer_id := cm_peer_id m;
     cm_reconnect_token := cm_reconnect_token m; cm_protocol_version := cm_protocol_version m;
     cm_sync_protocol_version := cm_sync_protocol_version m;
     cm_capabilities := [capability.HOST_TRANSFER]; cm_to := to_; cm_payload := cm_payload m |}.

(** The host hands its role to [g1] on connection 1 while it reconnects on
    connection 3. *)
Definition reconnect_against_transfer : list (nat * prog World unit) :=
  [client 1 [say (0%Z, capable "" (request client_type.CREATE "room1" "host1" host_token));
             say (10%Z, capable "g1" (request client_type.TRANSFER_HOST "room1" "host1" host_token))] 60;
   client 2 [say (1%Z, capable "" (request client_type.JOIN "room1" "g1" guest_token))] 60;
   client 3 [say (10%Z, capable "" (request client_type.CREATE "room1" "host1" host_token))] 20].

(** C37: a client can be let in as another one.  [create] checks the host's id
    and token in one critical section and admits it as whoever is host in the
    next; a transfer can come between.  In this run connection 3 has proven to
    be [host1], the host, and holds the lock on the table, when [host1]'s first
    connection hands the role to [g1], whose verifier is another's.  Then
    connection 3 goes on by itself: it is answered [created] and takes [g1]'s
    place, and [g1]'s own connection is cancelled.  Connection 3 believes to be
    [host1], so that its end does not free the place: the room is left open
    under a host that is no longer there. *)
Theorem reconnect_takes_guests_place :
  from_token guest_token <> from_token host_token
  /\ unfolds (opened reconnect_against_transfer)
    [([(1, 9); (2, 8); (3, 3)], fun _ c =>
       w_writer c.1 = Some 3 /\ told 3 c = [] /\ w_rooms c.1 !! "room1" = Some 0
       /\ closing_at c 0 = Some false
       /\ host_at c 0 = pair "host1" <$> from_token host_token
       /\ tx_at c 0 "host1" = Some 1 /\ tx_at c 0 "g1" = Some 2);
     ([(1, 3)], fun _ c =>
       w_writer c.1 = Some 3 /\ told 3 c = []
       /\ host_at c 0 = pair "g1" <$> from_token guest_token
       /\ tx_at c 0 "host1" = Some 1 /\ tx_at c 0 "g1" = Some 2
       /\ evicted c 0 "g1" c = Some false);
     ([(3, 7)], fun before c =>
       told 3 c = [server_type.CREATED; server_type.HOST_TRANSFER_ELIGIBILITY]
       /\ host_at c 0 = pair "g1" <$> from_token guest_token
       /\ tx_at c 0 "g1" = Some 3 /\ evicted before 0 "g1" c = Some true);
     ([(3, 100)], fun _ c =>
       over 3 c.2 = true /\ w_rooms c.1 !! "room1" = Some 0 /\ closing_at c 0 = Some false
       /\ host_at c 0 = pair "g1" <$> from_token guest_token /\ tx_at c 0 "g1" = Some 3);
     ([(1, 100); (2, 100)], fun _ c =>
       over 1 c.2 = true /\ over 2 c.2 = true
       /\ w_rooms c.1 !! "room1" = Some 0 /\ closing_at c 0 = Some false
       /\ size_at c 0 = Some 1 /\ tx_at c 0 "g1" = Some 3)].
Proof. split; [by vm_compute|play]. Qed.

(** ** Joining a room that is being reclaimed *)

(** The host is gone; a guest (2) joins while another host (3) takes the id. *)
Definition join_against_reclaim : list (nat * prog World unit) :=
  [client 1 [say (0%Z, request client_type.CREATE "room1" "host1" host_token)] 10;
   client 2 [say (20%Z, request client_type.JOIN "room1" "g1" guest_token)] 60;
   client 3 [say (20%Z, request client_type.CREATE "room1" "host2" guest_token)] 60].

(** C38: a guest can be let into a room that is gone.  [create] asks whether an
    abandoned room is empty and closes it in separate critical sections, and a
    guest that has looked the room up before can join between them.  In this
    run another host's [create] has been told that the room can be reclaimed,
    it being open and empty, and holds the lock on the table, when the guest
    joins the open room and is answered [joined]; then the [create] goes on by
    itself, closes the room and gives its id to a new one.  When the guest's
    connection and the other are over, the guest has been told nothing else,
    was never cancelled, and is still listed in the room that is gone. *)
Theorem join_into_reclaimed_room :
  unfolds (opened join_against_reclaim)
    [([(1, 11); (2, 2); (3, 4)], fun _ c =>
       over 1 c.2 = true /\ w_writer c.1 = Some 3 /\ told 2 c = [] /\ told 3 c = []
       /\ w_rooms c.1 !! "room1" = Some 0
       /\ closing_at c 0 = Some false /\ size_at c 0 = Some 0);
     ([(2, 3)], fun _ c =>
       w_writer c.1 = Some 3 /\ told 2 c = [server_type.JOINED] /\ told 3 c = []
       /\ closing_at c 0 = Some false /\ tx_at c 0 "g1" = Some 2);
     ([(3, 11)], fun _ c =>
       told 3 c = [server_type.CREATED] /\ w_rooms c.1 !! "room1" = Some 1
       /\ closing_at c 1 = Some false /\ tx_at c 1 "host2" = Some 3
       /\ closing_at c 0 = Some true /\ tx_at c 0 "g1" = Some 2
       /\ evicted c 0 "g1" c = Some false);
     ([(2, 100); (3, 100)], fun _ c =>
       over 2 c.2 = true /\ over 3 c.2 = true /\ told 2 c = [server_type.JOINED]
       /\ closing_at c 0 = Some true /\ tx_at c 0 "g1" = Some 2
       /\ evicted c 0 "g1" c = Some false)].
Proof. play. Qed.

(** ** The order of notifications *)

(** The guest's connection 2 is lost and it resumes on connection 3. *)
Definition resume_against_disconnect : list (nat * prog World unit) :=
  [client 1 [say (0%Z, request client_type.CREATE "room1" "host1" host_token)] 100;
   client 2 [say (1%Z, request client_type.JOIN "room1" "g1" guest_token)] 10;
   client 3 [say (10%Z, request client_type.RESUME "room1" "g1" guest_token)] 100].

(** What a member is told can contradict the room.  The notifications of
    an operation are sent after the room is unlocked, so those of two
    operations can be sent in the other order.  There is a run in which a
    guest's lost connection is taken off before the guest resumes, and
    nevertheless the last thing that the host hears of the guest is that it
    left, while the room lists it as connected. *)
Theorem notifications_reordered :
  exists w ps st p, pool_reach starts (boot []) (w, ps)
    /\ w_heap w !! 0 = Some st /\ closing st = false
    /\ peers st !! "g1" = Some p /\ cp_tx p = 3
    /\ (sm_msg_type <$> inbox 1 w) =
         [server_type.CREATED; server_type.PEER_JOINED; server_type.PEER_JOINED;
          server_type.PEER_LEFT]
    /\ (sm_peer_id <$> inbox 1 w) = [None; Some "g1"; Some "g1"; Some "g1"].
Proof.
  destruct (ends_in_reach starts (boot []) resume_against_disconnect
    [(1, 9); (2, 6); (2, 1); (3, 6); (2, 100)]
    (fun w => ((sm_msg_type <$> inbox 1 w) ==
         [server_type.CREATED; server_type.PEER_JOINED; server_type.PEER_JOINED;
          server_type.PEER_LEFT])
       && ((sm_peer_id <$> inbox 1 w) == [None; Some "g1"; Some "g1"; Some "g1"])
       && match w_heap w !! 0 with
          | Some st => negb (closing st) &&
            match peers st !! "g1" with Some p => cp_tx p =? 3 | None => false end
          | None => false
          end)) as (w & ps & Hreach & Hend).
  - by vm_compute; repeat constructor; set_solver.
  - repeat constructor.
  - by vm_compute.
  - apply andb_true_iff in Hend as [[Hty Hid]%andb_true_iff Hend]. to_prop.
    destruct (w_heap w !! 0) as [st|] eqn:Hst; [|done].
    apply andb_true_iff in Hend as [Hcl Hend]. to_prop.
    destruct (peers st !! "g1") as [p|] eqn:Hp; [|done]. apply Nat.eqb_eq in Hend.
    by exists w, ps, st, p.
Qed.
