(* ===== verification/Server.v ===== *)
(** * The server: the tasks of [World] with the writer of [Mailbox]

    [System] lets anybody answer a task that waits for the snapshot writer.
    Here the writer is there: a task of its own that takes its turns on the
    channel, captures the rooms one by one between the sections of the others,
    and answers the requests; and the shutdown that flushes it.  A task of the
    world is lifted: what its sections do to the writer's channel reaches the
    channel, and where it waits it waits for its own answer.  Every section
    takes a moment. *)
From S2P Require Import Prelude.
From S2P Require Import Protocol.
From S2P Require Import Ids.
From S2P Require Import Room.
From S2P Require Import Snapshot.
From S2P Require Import Writer.
From S2P Require Import Debounce.
From S2P Require Import Mailbox.
From S2P Require Import Threads.
From S2P Require Import World.
From S2P Require Import Registry.
From S2P Require Import System.

(** The shared world, the writer's channel, and the answer that each task waits
    for.  For the statements only: the world at each moment so far, and the task
    that took the section after it. *)
Record Server := {
  sv_world : World;
  sv_mail : @Mailbox (list RoomDto);
  sv_ticket : gmap nat nat;
  sv_next_ticket : nat;
  sv_past : list World;
  sv_by : list nat;
}.

Definition moment (s : Server) : N := N.of_nat (length (sv_past s) - 1).

(** The next moment, after a section of task [t], with this world and this
    mailbox. *)
Definition advance (t : nat) (s : Server) (w : World) (mb : @Mailbox (list RoomDto)) : Server :=
  {| sv_world := w; sv_mail := mb; sv_ticket := sv_ticket s;
     sv_next_ticket := sv_next_ticket s; sv_past := sv_past s ++ [w]; sv_by := sv_by s ++ [t] |}.

(** A request of task [t], sent at moment [n] with a oneshot channel of its
    own. *)
Definition request (n : N) (t : nat) (cmd : nat -> Command) (s : Server) : Server :=
  {| sv_world := sv_world s; sv_mail := (send n (cmd (sv_next_ticket s)) (sv_mail s)).1;
     sv_ticket := <[t := sv_next_ticket s]> (sv_ticket s);
     sv_next_ticket := S (sv_next_ticket s); sv_past := sv_past s; sv_by := sv_by s |}.

(** What an operation on a channel does to the writer's channel. *)
Definition deliver (n : N) (t : nat) (s : Server) (a : Action) : Server :=
  match a with
  | Mutate =>
    {| sv_world := sv_world s; sv_mail := Mailbox.record_mutation n (sv_mail s);
       sv_ticket := sv_ticket s; sv_next_ticket := sv_next_ticket s; sv_past := sv_past s;
       sv_by := sv_by s |}
  | Terminal => request n t CmdTerminal s
  | TrySend _ _ | Cancel _ => s
  end.

(** A section of task [t] on the world. *)
Definition serve {B} (t : nat) (f : World -> option (World * B)) (s : Server)
    : option (Server * B) :=
  match f (sv_world s) with
  | Some (w, b) =>
    Some (foldl (deliver (moment s) t) (advance t s w (sv_mail s))
            (drop (length (w_actions (sv_world s))) (w_actions w)), b)
  | None => None
  end.

(** [reply_rx.await]: whether the answer is [Ok]. *)
Definition await (t : nat) (s : Server) : option (Server * bool) :=
  match sv_ticket s !! t with
  | Some tk =>
    match Mailbox.record_terminal_mutation tk (sv_mail s) with
    | Some res => Some (advance t s (sv_world s) (sv_mail s), is_ok res)
    | None => None
    end
  | None => None
  end.

(** Task [t], with its answers from the writer. *)
Fixpoint lift {A} (t : nat) (p : prog World A) : prog Server A :=
  match p with
  | Ret a => Ret a
  | Sec f k => Sec (serve t f) (fun b => lift t (k b))
  | Ask k => Sec (await t) (fun b => lift t (k b))
  end.

Definition writer_task : nat := 0.

Section writer_task.
Context `{HashIter} `{CryptoLib}.

(** ** The writer: [run] and [persist] *)

(** What the outside decides for a turn: the branch taken when both are ready,
    the clock readings of the capture, and how the write fails if it does. *)
Record WriterFate := {
  wf_timer_first : bool;
  wf_clock : nat -> SystemTime * Instant;
  wf_error : option SnapshotError;
}.

Definition begin_turn_at (s : Server) (turn : Turn) (queue : list (N * Command))
    : Server * option (Turn * bool) :=
  let mb := sv_mail s in
  (advance writer_task s (sv_world s) (begin_turn (moment s) turn queue mb),
   Some (turn, event_writes (mb_writer mb) (turn_event turn (Err (mk_SnapshotError ""))))).

(** [select!], which waits while neither branch is ready; the turn, and whether
    it calls [persist]; nothing once [run] has returned. *)
Definition take_turn (timer_first : bool) (s : Server) : option (Server * option (Turn * bool)) :=
  let mb := sv_mail s in
  let pending := debounce_pending (mb_writer mb) in
  if wr_stopped (mb_writer mb) then Some (advance writer_task s (sv_world s) mb, None)
  else
  match mb_queue mb with
  | (at_, cmd) :: queue =>
    if timer_first && pending then Some (begin_turn_at s TurnTimer (mb_queue mb))
    else Some (begin_turn_at s (TurnCmd at_ cmd) queue)
  | [] => if pending then Some (begin_turn_at s TurnTimer []) else None
  end.

(** The capture is complete, and about to be written. *)
Definition end_capture (turn : Turn) (dtos : list RoomDto) (s : Server)
    : option (Server * (N * list RoomDto)) :=
  Some (advance writer_task s (sv_world s) (capture_done turn dtos (sv_mail s)), (mb_since (sv_mail s), dtos)).

(** The end of the turn, with the answers it gives. *)
Definition end_turn (turn : Turn) (outcome : result (N * list RoomDto) SnapshotError)
    (s : Server) : option (Server * unit) :=
  Some (advance writer_task s (sv_world s) (finish_turn (sv_mail s) turn outcome), tt).

Definition writer_turn (ft : WriterFate) (turn : Turn) (writes : bool) : prog Server unit :=
  if writes then
    let! dtos := lift writer_task (build_snapshot (wf_clock ft)) in
    let! c := sec (end_capture turn dtos) in
    sec (end_turn turn (match wf_error ft with Some e => Err e | None => Ok c end))
  else sec (end_turn turn (Err (mk_SnapshotError ""))).

Fixpoint writer_run (fates : list WriterFate) : prog Server unit :=
  match fates with
  | [] => Ret tt
  | ft :: fates =>
    let! turn := sec (take_turn (wf_timer_first ft)) in
    match turn with
    | None => Ret tt
    | Some (turn, writes) => writer_turn ft turn writes ;! writer_run fates
    end
  end.

(** ** Shutting down *)

(** [flush_and_stop], whose result [main] only logs. *)
Definition send_flush (t : nat) (s : Server) : option (Server * unit) :=
  Some (request (moment s) t CmdFlushAndStop (advance t s (sv_world s) (sv_mail s)), tt).

Definition await_flush (t : nat) (timed_out : bool) (s : Server) : option (Server * bool) :=
  match sv_ticket s !! t with
  | Some tk =>
    match Mailbox.flush_and_stop timed_out tk (sv_mail s) with
    | Some res => Some (advance t s (sv_world s) (sv_mail s), is_ok res)
    | None => None
    end
  | None => None
  end.

Definition shutdown (t : nat) (timed_out : bool) : prog Server bool :=
  sec (send_flush t) ;! sec (await_flush t timed_out).

(** ** The server *)

Variable starts : nat -> prog World unit -> Prop.

(** The tasks of [starts], one writer, and shutdowns. *)
Inductive server_starts (t : nat) : prog Server unit -> Prop :=
| server_task p : t <> writer_task -> starts t p -> server_starts t (lift t p)
| server_writer fates : t = writer_task -> server_starts t (writer_run fates)
| server_shutdown timed_out :
    t <> writer_task -> server_starts t (shutdown t timed_out ;! Ret tt).

(** The server when it starts to serve: [file] is on disk, and [restored] has
    been read from it. *)
Definition boot_server (file : option (list RoomDto)) (restored : list RestoredRoom) : Server :=
  {| sv_world := boot restored; sv_mail := channel file; sv_ticket := ∅; sv_next_ticket := 0;
     sv_past := [boot restored]; sv_by := [] |}.
End writer_task.
