(* ===== verification/ServerThms.v ===== *)
(** * The server refines the interleavings of [System]

    Every run of the server with its writer is, on the world, a run of the
    tasks of [World] with some answers; so what is proved of those holds of the
    server.  And the invariants of the server that its parts add: the writer's
    channel is sound, and no task disturbs the requests of another. *)
From S2P Require Import Prelude.
From S2P Require Import Protocol.
From S2P Require Import Ids.
From S2P Require Import Room.
From S2P Require Import RoomInv.
From S2P Require Import Snapshot.
From S2P Require Import Writer.
From S2P Require Import Debounce.
From S2P Require Import Mailbox.
From S2P Require Import Threads.
From S2P Require Import Simulation.
From S2P Require Import World.
From S2P Require Import Registry.
From S2P Require Import System.
From S2P Require Import Server.

Section refinement.
Context `{HashIter} `{CryptoLib}.

Lemma delivered_world n t l s : sv_world (foldl (deliver n t) s l) = sv_world s.
Proof. revert s. induction l as [|a l IH]; intros s; simpl; [done|]. rewrite IH. by destruct a. Qed.

Lemma serve_world {B} t (f : World -> option (World * B)) s s' b :
  serve t f s = Some (s', b) -> f (sv_world s) = Some (sv_world s', b).
Proof.
  unfold serve. destruct (f (sv_world s)) as [[w b']|]; [|done]. intros [= <- <-].
  by rewrite delivered_world.
Qed.

Lemma await_world t s s' b : await t s = Some (s', b) -> sv_world s' = sv_world s.
Proof. unfold await. repeat case_match; intros; by simplify_eq. Qed.

Abbreviation simulates := (Simulation.simulates sv_world).

Lemma simulates_lift {A} exact t (p : prog World A) : simulates exact (lift t p) p.
Proof.
  induction p as [a|B f k IH|k IH]; simpl; [done|intros s s' b Hf..]; exists (k b); (split; [|apply IH]).
  - apply rtc_once, task_section. by eapply serve_world.
  - rewrite (await_world _ _ _ _ Hf). apply rtc_once. constructor.
Qed.

Lemma take_turn_world first s s' b : take_turn first s = Some (s', b) -> sv_world s' = sv_world s.
Proof. unfold take_turn, begin_turn_at. repeat case_match; intros; by simplify_eq. Qed.

Lemma simulates_writer_turn ft turn writes :
  simulates true (writer_turn ft turn writes)
    (if writes then build_snapshot (wf_clock ft) ;! Ret tt else Ret tt).
Proof.
  assert (Hend : forall outcome, simulates true (sec (end_turn turn outcome)) (Ret tt)).
  { intros outcome. apply simulates_stutter; [by intros s s' b [= <- _]|]. by intros []. }
  destruct writes; [|apply Hend]. unfold writer_turn.
  apply simulates_bind; [apply simulates_lift|]. intros dtos.
  apply simulates_stutter; [by intros s s' b [= <- _]|]. intros c. apply Hend.
Qed.

Lemma simulates_writer fates :
  simulates false (writer_run fates) (capture_run (wf_clock <$> fates)).
Proof.
  induction fates as [|ft fates IH]; [done|].
  cbn [writer_run capture_run fmap list_fmap bind sec ask].
  intros s s' turn Hturn. apply take_turn_world in Hturn. rewrite Hturn.
  destruct turn as [[turn writes]|]; [|by eexists; split; [apply rtc_refl|]].
  eexists. split; [apply rtc_once, (task_answer _ _ writes)|]. cbv beta.
  by apply simulates_bind; [apply simulates_writer_turn|].
Qed.

Lemma shutdown_follows may exact t timed_out :
  may_follow sv_world may exact (shutdown t timed_out ;! Ret tt).
Proof.
  apply may_follow_stutter; [by intros s s' ? [= <- _]|]. intros ?.
  apply may_follow_stutter; [|intros; apply may_follow_ret]. intros s s' b'. unfold await_flush.
  repeat case_match; intros; by simplify_eq.
Qed.

(** ** All tasks together *)

Section pools.
Variable starts : nat -> prog World unit -> Prop.
Hypothesis starts_writer : forall clocks, starts writer_task (capture_run clocks).

Definition ends_alike (t : nat) : bool := negb (t =? writer_task).

Lemma server_follows t q :
  server_starts starts t q -> may_follow sv_world (starts t) (ends_alike t) q.
Proof.
  destruct 1 as [p Hne Hp|fates ->|timed_out Hne].
  - eapply may_follow_start; [exact Hp|apply simulates_lift].
  - eapply may_follow_start; [apply starts_writer|apply simulates_writer].
  - by apply shutdown_follows.
Qed.

Abbreviation matched := (Simulation.matched sv_world starts ends_alike).

Lemma server_matched w0 s0 s ps :
  sv_world s0 = w0 -> pool_reach (server_starts starts) s0 (s, ps) ->
  exists ps', pool_reach starts w0 (sv_world s, ps') /\ matched ps ps'.
Proof. intros <-. apply pool_matched. exact server_follows. Qed.

(** The server refines [System].  In every run of the server, with the
    writer taking its turns and answering, what happens to the world is a run
    of the world's own tasks in which somebody answers those that wait, and the
    writer's captures are one more task; a task that is over in the one is over
    in the other.  So whatever is proved of all interleavings of the world's
    tasks, whoever answers them, is true of the server. *)
Theorem server_refines_system file restored s ps
    (Hreach : pool_reach (server_starts starts) (boot_server file restored) (s, ps)) :
  exists ps', pool_reach starts (boot restored) (sv_world s, ps')
    /\ (forall t p, ps' !! t = Some p -> is_Some (ps !! t))
    /\ (forall t p, t <> writer_task -> ps' !! t = Some p -> ps !! t = Some (Ret tt) -> p = Ret tt).
Proof.
  destruct (server_matched (boot restored) (boot_server file restored) s ps eq_refl Hreach) as (ps' & Hworld & [Hnone Hsome]).
  exists ps'. split_and!; [done| |].
  - intros t p Hp. destruct (ps !! t) as [q|] eqn:Hq; [by eexists|]. by rewrite (Hnone t Hq) in Hp.
  - intros t p Hne Hp Hq. specialize (Hsome t _ Hq). rewrite Hp in Hsome. simpl in Hsome.
    apply Hsome. by apply negb_true_iff, Nat.eqb_neq.
Qed.
End pools.
End refinement.

(** ** What every section of the server keeps *)

(** The past ends in the present, the writer's channel is sound, and tickets
    are new. *)
Record served (s : Server) : Prop := {
  sd_now : last (sv_past s) = Some (sv_world s);
  sd_by : length (sv_past s) = S (length (sv_by s));
  sd_mail : (moment s < u64_modulus)%N -> mailbox_ok (moment s) (sv_mail s);
  sd_fresh : forall tk, is_Some (mb_due (sv_mail s) !! tk) -> tk < sv_next_ticket s;
}.

(** The writer's own part of the mailbox. *)
Record same_writer (mb mb' : @Mailbox (list RoomDto)) : Prop := {
  sw_writer : mb_writer mb' = mb_writer mb;
  sw_turn : mb_turn mb' = mb_turn mb;
  sw_since : mb_since mb' = mb_since mb;
}.

(** What a section of task [t] does to the server's own part. *)
Record server_guar (t : nat) (s s' : Server) : Prop := {
  sg_past : sv_past s' = sv_past s ++ [sv_world s'];
  sg_by : sv_by s' = sv_by s ++ [t];
  sg_ticket : forall t', t' <> t -> sv_ticket s' !! t' = sv_ticket s !! t';
  sg_next : sv_next_ticket s <= sv_next_ticket s';
  sg_due : forall tk, tk < sv_next_ticket s -> mb_due (sv_mail s') !! tk = mb_due (sv_mail s) !! tk;
  sg_writer : t <> writer_task -> same_writer (sv_mail s) (sv_mail s');
  sg_served : served s -> served s'
    /\ ((moment s' < u64_modulus)%N -> (stamp (wr_file (mb_writer (sv_mail s)))
                                        <= stamp (wr_file (mb_writer (sv_mail s'))))%N);
}.

Lemma moment_next s s' w :
  served s -> sv_past s' = sv_past s ++ [w] -> moment s' = (moment s + 1)%N.
Proof.
  intros [Hnow _ _ _] Hpast. unfold moment. rewrite Hpast, length_app. cbn [length].
  destruct (sv_past s); [done|]. cbn [length]. lia.
Qed.

(** Delivering to the writer's channel. *)
Record delivers (n : N) (t : nat) (s s' : Server) : Prop := {
  dl_past : sv_past s' = sv_past s;
  dl_by : sv_by s' = sv_by s;
  dl_world : sv_world s' = sv_world s;
  dl_ticket : forall t', t' <> t -> sv_ticket s' !! t' = sv_ticket s !! t';
  dl_next : sv_next_ticket s <= sv_next_ticket s';
  dl_due : forall tk, tk < sv_next_ticket s -> mb_due (sv_mail s') !! tk = mb_due (sv_mail s) !! tk;
  dl_writer : same_writer (sv_mail s) (sv_mail s');
  dl_fresh : (forall tk, is_Some (mb_due (sv_mail s) !! tk) -> tk < sv_next_ticket s) ->
    (forall tk, is_Some (mb_due (sv_mail s') !! tk) -> tk < sv_next_ticket s')
    /\ (mailbox_ok (n + 1) (sv_mail s) -> mailbox_ok (n + 1) (sv_mail s'));
}.

Lemma send_writer n cmd (mb : @Mailbox (list RoomDto)) : same_writer mb (send n cmd mb).1.
Proof. unfold send. by destruct (wr_stopped _). Qed.

Lemma request_delivers n t cmd s :
  (forall tk, ticket (cmd tk) = Some tk) -> delivers n t s (request n t cmd s).
Proof.
  intros Hcmd.
  assert (Hdue : forall tk, mb_due (send n (cmd (sv_next_ticket s)) (sv_mail s)).1 !! tk
    = mb_due (sv_mail s) !! tk \/ tk = sv_next_ticket s).
  { intros tk. unfold send. destruct (wr_stopped _); [by left|]. cbn [fst mb_due]. rewrite Hcmd.
    destruct (decide (tk = sv_next_ticket s)) as [->|Hne]; [by right|left].
    by rewrite lookup_insert_ne. }
  split; cbn [request sv_past sv_by sv_world sv_ticket sv_mail sv_next_ticket]; [done..| |lia| |apply send_writer|].
  - intros t' Hne. by rewrite lookup_insert_ne.
  - intros tk Htk. destruct (Hdue tk) as [?|?]; [done|lia].
  - intros Hfresh. split.
    + intros tk Htk. destruct (Hdue tk) as [Heq| ->]; [|lia]. rewrite Heq in Htk.
      apply Hfresh in Htk. lia.
    + apply send_ok. rewrite Hcmd. intros tk [= <-]. apply eq_None_not_Some.
      intros Hs. apply Hfresh in Hs. lia.
Qed.

Lemma deliver_delivers n t s a : delivers n t s (deliver n t s a).
Proof.
  destruct a as [tx m|token| |]; try by split.
  - assert (Hdue : mb_due (Mailbox.record_mutation n (sv_mail s)) = mb_due (sv_mail s))
      by (unfold Mailbox.record_mutation, send; by destruct (wr_stopped _)).
    split; cbn [deliver sv_past sv_by sv_world sv_ticket sv_mail sv_next_ticket]; rewrite ?Hdue; try done.
    + apply send_writer.
    + intros Hfresh. split; [done|]. by apply send_ok.
  - by apply request_delivers.
Qed.

Lemma delivers_all n t l s : delivers n t s (foldl (deliver n t) s l).
Proof.
  revert s. induction l as [|a l IH]; intros s; cbn [foldl]; [by split|].
  destruct (deliver_delivers n t s a) as [Hp Hby Hw Ht Hn Hd [Hr1 Hr2 Hr3] Hf].
  destruct (IH (deliver n t s a)) as [Hp' Hby' Hw' Ht' Hn' Hd' [Hr1' Hr2' Hr3'] Hf'].
  split; [congruence..| |lia| |split; congruence|].
  - intros t' Hne. by rewrite Ht', Ht.
  - intros tk Htk. rewrite Hd' by lia. by apply Hd.
  - intros Hfresh. destruct (Hf Hfresh) as [Hfresh1 Hok]. destruct (Hf' Hfresh1). auto.
Qed.

(** The next moment, and what is delivered in it. *)
Lemma advance_guar t s w s' :
  delivers (moment s) t (advance t s w (sv_mail s)) s' ->
  server_guar t s s' /\ same_writer (sv_mail s) (sv_mail s').
Proof.
  intros [Hp Hby Hw Ht Hn Hd Hr Hf]. cbn [advance sv_past sv_by sv_world sv_ticket sv_mail sv_next_ticket] in *.
  split; [|done]. split; [congruence|done..|]. intros Hs.
  pose proof (moment_next s s' w Hs Hp) as Hm. destruct (Hf (sd_fresh _ Hs)) as [Hfresh Hok].
  split; [|destruct Hr as [-> _ _]; lia]. split; [| |intros Hb|done].
  - by rewrite Hp, last_snoc, Hw.
  - rewrite Hp, Hby, !length_app, (sd_by _ Hs). cbn. lia.
  - rewrite Hm in Hb |- *. apply Hok, mailbox_ok_later, (sd_mail _ Hs). lia.
Qed.

Lemma serve_guar {B} t (f : World -> option (World * B)) s s' b :
  serve t f s = Some (s', b) -> server_guar t s s' /\ same_writer (sv_mail s) (sv_mail s').
Proof.
  unfold serve. destruct (f (sv_world s)) as [[w b']|]; [|done]. intros [= <- <-].
  apply (advance_guar t s w), delivers_all.
Qed.

Lemma await_guar t s s' b : await t s = Some (s', b) -> server_guar t s s'.
Proof.
  unfold await. intros Ha. assert (s' = advance t s (sv_world s) (sv_mail s)) as ->
    by (repeat case_match; by simplify_eq).
  by apply (advance_guar t s (sv_world s)).
Qed.

(** A section of the writer. *)
Lemma writer_guar captures s mb' :
  run_step captures (moment s) (sv_mail s) mb' ->
  server_guar writer_task s (advance writer_task s (sv_world s) mb').
Proof.
  intros Hstep. pose proof (run_step_due _ _ _ _ Hstep) as Hdue.
  split; cbn [advance sv_past sv_by sv_world sv_ticket sv_mail sv_next_ticket]; rewrite ?Hdue; [done..|].
  intros Hs.
  assert (Hm : moment (advance writer_task s (sv_world s) mb') = (moment s + 1)%N) by by eapply moment_next.
  rewrite Hm. split; [split|].
  - cbn [advance sv_past sv_world]. by rewrite last_snoc.
  - cbn [advance sv_past sv_by]. rewrite !length_app, (sd_by _ Hs). cbn. lia.
  - rewrite Hm. intros Hn. eapply run_step_ok; [exact Hstep|done|]. apply (sd_mail _ Hs). lia.
  - cbn [advance sv_mail sv_next_ticket]. rewrite Hdue. apply (sd_fresh _ Hs).
  - intros Hn. eapply run_step_stamp; [|exact Hstep]. apply (sd_mail _ Hs). lia.
Qed.

Lemma take_turn_step timer_first s s' turn :
  mb_turn (sv_mail s) = None -> take_turn timer_first s = Some (s', turn) ->
  server_guar writer_task s s'
  /\ match turn with
     | Some (turn, _) => s' = advance writer_task s (sv_world s) (sv_mail s')
         /\ run_step (fun _ => False) (moment s) (sv_mail s) (sv_mail s')
         /\ mb_turn (sv_mail s') = Some (turn, None) /\ mb_since (sv_mail s') = moment s
     | None => s' = advance writer_task s (sv_world s) (sv_mail s)
     end.
Proof.
  intros Hturn. unfold take_turn, begin_turn_at. destruct (wr_stopped _) eqn:Hstop.
  { intros [= <- <-]. split; [|done]. by apply (advance_guar writer_task s (sv_world s)). }
  assert (Hgo : forall t queue writes,
    run_step (fun _ => False) (moment s) (sv_mail s) (begin_turn (moment s) t queue (sv_mail s)) ->
    Some (advance writer_task s (sv_world s) (begin_turn (moment s) t queue (sv_mail s)), Some (t, writes))
      = Some (s', turn) -> server_guar writer_task s s' /\ match turn with
     | Some (turn, _) => s' = advance writer_task s (sv_world s) (sv_mail s')
         /\ run_step (fun _ => False) (moment s) (sv_mail s) (sv_mail s')
         /\ mb_turn (sv_mail s') = Some (turn, None) /\ mb_since (sv_mail s') = moment s
     | None => s' = advance writer_task s (sv_world s) (sv_mail s)
     end).
  { intros t queue writes Hstep [= <- <-]. split; [by eapply writer_guar|by split_and!]. }
  destruct (mb_queue (sv_mail s)) as [|[at_ cmd] queue] eqn:Hq.
  - destruct (debounce_pending _) eqn:Hp; [|done]. apply Hgo. rewrite <- Hq. by apply run_timer.
  - destruct (timer_first && _) eqn:Hp; apply Hgo; [|by apply run_recv].
    rewrite <- Hq. apply andb_true_iff in Hp as [_ Hp]. by apply run_timer.
Qed.

(** Tasks other than the writer. *)
Lemma send_flush_guar t s s' u :
  t <> writer_task -> send_flush t s = Some (s', u) -> server_guar t s s'.
Proof.
  intros Ht [= <- _]. apply (advance_guar t s (sv_world s)). by apply request_delivers.
Qed.

Lemma await_flush_guar t timed_out s s' b :
  await_flush t timed_out s = Some (s', b) -> server_guar t s s'.
Proof.
  unfold await_flush. intros Ha. assert (s' = advance t s (sv_world s) (sv_mail s)) as ->
    by (repeat case_match; by simplify_eq).
  by apply (advance_guar t s (sv_world s)).
Qed.

Lemma boot_served file restored : served (boot_server file restored).
Proof.
  split; cbn [boot_server sv_past sv_by sv_world sv_mail sv_next_ticket]; [done..| |].
  - intros _. apply channel_ok.
  - intros tk [d Hd]. cbn [channel mb_due] in Hd. by rewrite lookup_empty in Hd.
Qed.
