(* ===== verification/StateFile.v ===== *)
(** * What the state file says of the server

    The writer captures one room after the other while the other tasks run, so
    a file is not the server at any one moment.  Each of its entries is the
    picture of an open room at some moment after its turn began, and no room
    that stayed open is left out. *)
From S2P Require Import Prelude.
From S2P Require Import Protocol.
From S2P Require Import Ids.
From S2P Require Import Room.
From S2P Require Import RoomInv.
From S2P Require Import Snapshot.
From S2P Require Import Writer.
From S2P Require Import Mailbox.
From S2P Require Import Durable.
From S2P Require Import Threads.
From S2P Require Import World.
From S2P Require Import Registry.
From S2P Require Import System.
From S2P Require Import Server.
From S2P Require Import ServerThms.

Section pictures.
Context `{HashIter} `{CryptoLib}.

(** ** Pictures *)

(** At moment [j], room [r] is in state [st]. *)
Definition state_at (s : Server) (j r : nat) (st : RoomState) : Prop :=
  exists w, sv_past s !! j = Some w /\ w_heap w !! r = Some st.

Definition at_moment (s : Server) (since : N) (j : nat) (r : nat) (st : RoomState) : Prop :=
  (since < N.of_nat j)%N /\ state_at s j r st.

(** What the capture takes of room [r]: its picture, unless it is closing. *)
Definition shot (s : Server) (since : N) (r : nat) (o : option RoomDto) : Prop :=
  exists j st now inow, at_moment s since j r st /\ o = capture_room true st now inow.

(** A capture under way: of the rooms registered at one moment these are
    left, the others have been taken one after the other. *)
Definition partial (s : Server) (since : N) (left : list nat) (dtos : list RoomDto) : Prop :=
  exists j w taken shots, (since < N.of_nat j)%N /\ sv_past s !! j = Some w
    /\ hm_values (w_rooms w) = taken ++ left /\ Forall2 (shot s since) taken shots
    /\ dtos = omap id shots.

(** A capture of a turn that began at [since] is complete. *)
Definition faithful (s : Server) (since : N) (dtos : list RoomDto) : Prop := partial s since [] dtos.

(** What the file, or a capture that is about to be written, says.  The file
    the server started from has no moment. *)
Definition faithful_file (s : Server) : Prop :=
  forall since dtos, captured (sv_mail s) since dtos -> (0 < since)%N -> faithful s since dtos.

Definition extends (s s' : Server) : Prop := exists w, sv_past s' = sv_past s ++ [w].

Lemma state_at_later s s' j r st : extends s s' -> state_at s j r st -> state_at s' j r st.
Proof.
  intros [w Hp] (w' & Hw' & Hst). exists w'. split; [|done].
  rewrite Hp. by apply lookup_app_l_Some.
Qed.

Lemma at_moment_later s s' since j r st :
  extends s s' -> at_moment s since j r st -> at_moment s' since j r st.
Proof. intros He [? ?]. split; [done|by eapply state_at_later]. Qed.

Lemma shot_later s s' since r o : extends s s' -> shot s since r o -> shot s' since r o.
Proof.
  intros He (j & st & now & inow & Hat & ->). exists j, st, now, inow.
  split; [by eapply at_moment_later|done].
Qed.

Lemma partial_later s s' since left dtos :
  extends s s' -> partial s since left dtos -> partial s' since left dtos.
Proof.
  intros He (j & w & taken & shots & Hj & Hw & Hrooms & Hshots & ->).
  exists j, w, taken, shots. split_and!; [done| |done| |done].
  - destruct He as [w' ->]. by apply lookup_app_l_Some.
  - eapply Forall2_impl; [exact Hshots|]. intros r o. by apply shot_later.
Qed.

(** The next room is captured. *)
Lemma partial_capture s since r left dtos o :
  partial s since (r :: left) dtos -> shot s since r o ->
  partial s since left (match o with Some dto => dtos ++ [dto] | None => dtos end).
Proof.
  intros (j & w & taken & shots & Hj & Hw & Hrooms & Hshots & ->) Ho.
  exists j, w, (taken ++ [r]), (shots ++ [o]). split_and!; [done|done| | |].
  - by rewrite Hrooms, <- app_assoc.
  - apply Forall2_app; [done|by constructor].
  - rewrite omap_app. destruct o; simpl; [done|by rewrite app_nil_r].
Qed.

(** An entry is the picture of an open room. *)
Lemma faithful_pictured s since dtos dto :
  faithful s since dtos -> dto ∈ dtos ->
  exists j r st now inow, at_moment s since j r st /\ closing st = false
    /\ dto = build_room_dto st now inow.
Proof.
  intros (j & w & taken & shots & _ & _ & _ & Hshots & ->) Hdto.
  apply list_elem_of_omap in Hdto as (o & Ho & Hid). simpl in Hid. subst o.
  apply list_elem_of_lookup in Ho as [i Hi].
  destruct (Forall2_lookup_r _ _ _ _ _ Hshots Hi) as (r & _ & j' & st & now & inow & Hat & Heq).
  unfold capture_room in Heq. destruct (closing st) eqn:Hc; [done|]. injection Heq as ->.
  by exists j', r, st, now, inow.
Qed.

(** ** The writer *)

(** What the tasks show at any time. *)
Definition shows (t : nat) (s : Server) : Prop :=
  served s /\ (t = writer_task -> faithful_file s).

Abbreviation keeps_server t L p Q := (keeps (fun _ => True) server_guar shows t L p Q).

(** What the writer knows in its turn. *)
Record writing (turn : option (Turn * option (N * list RoomDto))) (X : N -> Server -> Prop)
    (s : Server) : Prop := {
  wr_served : served s;
  wr_faithful : faithful_file s;
  wr_turn : mb_turn (sv_mail s) = turn;
  wr_extra : X (mb_since (sv_mail s)) s;
}.

Lemma captured_same (mb mb' : @Mailbox (list RoomDto)) since dtos :
  same_writer mb mb' -> captured mb' since dtos -> captured mb since dtos.
Proof. intros [Hw Ht _]. unfold captured, capture_of. by rewrite Hw, Ht. Qed.

Lemma faithful_file_same s s' :
  extends s s' -> same_writer (sv_mail s) (sv_mail s') -> faithful_file s -> faithful_file s'.
Proof.
  intros He Hsame Hf since dtos Hc Hpos. eapply partial_later; [exact He|].
  apply Hf; [|done]. by eapply captured_same.
Qed.

Lemma guar_extends t s s' : server_guar t s s' -> extends s s'.
Proof. intros Hg. exists (sv_world s'). apply Hg. Qed.

Lemma writing_same turn (X : N -> Server -> Prop) s s' t :
  (forall since, X since s -> X since s') ->
  server_guar t s s' -> same_writer (sv_mail s) (sv_mail s') ->
  writing turn X s -> writing turn X s'.
Proof.
  intros HX Hg Hsame [Hs Hf Ht Hx]. pose proof Hsame as [Hw1 Hw2 Hw3]. split.
  - by apply Hg.
  - eapply faithful_file_same; [by eapply guar_extends|done..].
  - congruence.
  - rewrite Hw3. by apply HX.
Qed.

(** Facts that stay true. *)
Definition lasting (X : N -> Server -> Prop) : Prop :=
  forall s s' since, extends s s' -> X since s -> X since s'.

Lemma writing_assertion turn X :
  lasting X -> assertion (fun _ => True) server_guar shows writer_task (writing turn X).
Proof.
  intros HX. split; [|by intros s [? ?]; split]. intros t' s s' Hne Hg _ _.
  eapply writing_same; [|exact Hg|by apply Hg]. intros since. apply HX. by eapply guar_extends.
Qed.

Definition idle : N -> Server -> Prop := fun _ _ => True.
Definition capturing (left : list nat) (dtos : list RoomDto) (since : N) (s : Server) : Prop :=
  (since < moment s)%N /\ partial s since left dtos.
Definition complete (dtos : list RoomDto) (since : N) (s : Server) : Prop := faithful s since dtos.
Definition begun (since : N) (s : Server) : Prop := (since < moment s)%N.

Lemma begun_lasting : lasting begun.
Proof.
  intros s s' since [w Hp]. unfold begun, moment. rewrite Hp, length_app. simpl. lia.
Qed.

Lemma capturing_lasting left dtos : lasting (capturing left dtos).
Proof.
  intros s s' since He [Hb Hpart]. split; [by eapply begun_lasting|by eapply partial_later].
Qed.

Lemma complete_lasting dtos : lasting (complete dtos).
Proof. intros s s' since He. by apply partial_later. Qed.

(** The present world is that of the last moment. *)
Lemma present s : served s -> sv_past s !! (length (sv_past s) - 1) = Some (sv_world s).
Proof. intros [Hnow _ _]. by rewrite last_lookup, <- Nat.sub_1_r in Hnow. Qed.

Lemma present_room s s' since r st :
  served s -> extends s s' -> (since < moment s)%N -> w_heap (sv_world s) !! r = Some st ->
  at_moment s' since (length (sv_past s) - 1) r st.
Proof.
  intros Hs He Hb Hst. split; [exact Hb|]. apply (state_at_later s s' _ _ _ He).
  exists (sv_world s). split; [by apply present|done].
Qed.

(** A section of the capture. *)
Lemma keeps_capture_section {A B} turn X (X' : B -> N -> Server -> Prop)
    (f : World -> option (World * B)) (k : B -> prog World A) Q :
  (forall b, lasting (X' b)) ->
  (forall s s' since b, writing turn X s -> X since s -> extends s s' ->
     f (sv_world s) = Some (sv_world s', b) -> X' b since s') ->
  (forall b, keeps_server writer_task (writing turn (X' b)) (lift writer_task (k b)) Q) ->
  keeps_server writer_task (writing turn X) (lift writer_task (bind (sec f) k)) Q.
Proof.
  intros HX' Hf Hk s s' b _ _ Hw Hserve.
  destruct (serve_guar _ _ _ _ _ Hserve) as [Hg Hsame]. apply serve_world in Hserve.
  split; [done|]. exists (writing turn (X' b)). split_and!; [by apply writing_assertion| |apply Hk].
  pose proof (guar_extends _ _ _ Hg) as He. pose proof Hw as [Hs Hfile Ht Hx].
  split; [by apply Hg|by eapply faithful_file_same|by rewrite (sw_turn _ _ Hsame)|].
  rewrite (sw_since _ _ Hsame). by apply (Hf s s' _ b).
Qed.

Lemma keeps_capture_rooms turn clock left dtos :
  keeps_server writer_task (writing turn (capturing left dtos))
    (lift writer_task (capture_rooms clock left dtos)) (fun dtos => writing turn (complete dtos)).
Proof.
  revert dtos. induction left as [|r left IH]; intros dtos.
  { intros s _ [Hs Hf Ht [_ Hx]]. by split. }
  cbn [capture_rooms].
  apply (keeps_capture_section _ _ (fun d => capturing left
           (match d with Some dto => dtos ++ [dto] | None => dtos end))); [| |intros d; apply IH].
  - intros d. apply capturing_lasting.
  - intros s s' since d Hw [Hb Hpart] He Hf. split; [by eapply begun_lasting|].
    unfold with_room in Hf. destruct (w_heap (sv_world s) !! r) as [st|] eqn:Hst; [|done].
    injection Hf as _ <-. apply partial_capture with (r := r); [by eapply partial_later|].
    exists (length (sv_past s) - 1), st, (clock r).1, (clock r).2.
    split; [by apply (present_room s); [apply Hw|..]|]. unfold capture_room. by destruct (closing st).
Qed.

Lemma keeps_build_snapshot turn clock :
  keeps_server writer_task (writing turn begun) (lift writer_task (build_snapshot clock))
    (fun dtos => writing turn (complete dtos)).
Proof.
  unfold build_snapshot. apply (keeps_capture_section _ _ (fun rooms => capturing rooms []));
    [intros; apply capturing_lasting| |intros rooms; apply keeps_capture_rooms].
  intros s s' since rooms Hw Hb He Hf. split; [by eapply begun_lasting|].
  unfold with_rooms in Hf. destruct (w_writer (sv_world s)); [done|]. injection Hf as Heq <-.
  apply (partial_later s s'); [done|]. exists (length (sv_past s) - 1), (sv_world s), [], [].
  split_and!; [exact Hb|apply present, Hw|done|constructor|done].
Qed.

(** A section of the writer's own. *)
Lemma faithful_file_step captures s mb' :
  run_step captures (moment s) (sv_mail s) mb' ->
  (forall c, captures c -> faithful s (mb_since (sv_mail s)) c) ->
  faithful_file s -> faithful_file (advance writer_task s (sv_world s) mb').
Proof.
  intros Hstep Hcap Hf since dtos Hc Hpos.
  assert (He : extends s (advance writer_task s (sv_world s) mb')) by by eexists.
  apply (partial_later _ _ _ _ _ He).
  destruct (run_step_captured _ _ _ _ _ _ Hstep Hc) as [?|[-> ?]]; [by apply Hf|by apply Hcap].
Qed.

Lemma idle_lasting : lasting idle.
Proof. done. Qed.

Lemma keeps_end_turn turn cap outcome X :
  (forall c, outcome = Ok c -> cap = Some c) ->
  keeps_server writer_task (writing (Some (turn, cap)) X) (sec (end_turn turn outcome))
    (fun _ => writing None idle).
Proof.
  intros Hout. apply keeps_sec; [intros; apply writing_assertion, idle_lasting|].
  intros s s' u _ _ [Hs Hf Ht _] [= <- _].
  assert (Hstep : run_step (fun _ => False) (moment s) (sv_mail s) (finish_turn (sv_mail s) turn outcome)).
  { destruct outcome as [c|e]; [|by eapply run_no_write]. apply run_commit. by rewrite Ht, (Hout c). }
  pose proof (writer_guar _ _ _ Hstep) as Hg. split; [done|]. split; [by apply Hg| | |done].
  - by eapply faithful_file_step.
  - cbn [advance sv_mail]. unfold finish_turn. by destruct (writer_step _ _).
Qed.

Lemma keeps_end_capture turn dtos :
  keeps_server writer_task (writing (Some (turn, None)) (complete dtos)) (sec (end_capture turn dtos))
    (fun c => writing (Some (turn, Some c)) idle).
Proof.
  apply keeps_sec; [intros; apply writing_assertion, idle_lasting|].
  intros s s' c _ _ [Hs Hf Ht Hx] [= <- <-].
  assert (Hstep : run_step (eq dtos) (moment s) (sv_mail s) (capture_done turn dtos (sv_mail s)))
    by by apply run_capture.
  pose proof (writer_guar _ _ _ Hstep) as Hg. split; [done|]. split; [by apply Hg| |done|done].
  eapply faithful_file_step; [exact Hstep| |done]. by intros c <-.
Qed.

Lemma keeps_writer_turn ft turn writes :
  keeps_server writer_task (writing (Some (turn, None)) begun) (writer_turn ft turn writes)
    (fun _ => writing None idle).
Proof.
  unfold writer_turn. destruct writes; [|by apply keeps_end_turn].
  eapply keeps_bind; [apply keeps_build_snapshot|]. intros dtos.
  eapply keeps_bind; [apply keeps_end_capture|]. intros c. apply keeps_end_turn.
  intros c'. destruct (wf_error ft); [done|]. by intros [= <-].
Qed.

Lemma keeps_writer_run fates :
  keeps_server writer_task (writing None idle) (writer_run fates) (fun _ => writing None idle).
Proof.
  induction fates as [|ft fates IH]; [by intros s|]. cbn [writer_run].
  eapply keeps_bind with (Q := fun r => match r with
    | Some (turn, _) => writing (Some (turn, None)) begun
    | None => writing None idle end).
  2: { intros [[turn writes]|]; [|by intros s].
       eapply keeps_bind; [apply keeps_writer_turn|]. by intros ?. }
  apply keeps_sec.
  { intros [[]|]; apply writing_assertion; [apply begun_lasting|apply idle_lasting]. }
  intros s s' r _ _ [Hs Hf Ht _] Hturn.
  destruct (take_turn_step _ _ _ _ Ht Hturn) as [Hg Hr]. split; [done|].
  destruct r as [[turn writes]|].
  - destruct Hr as (Hs' & Hstep & Ht' & Hsince). split; [by apply Hg| |done|].
    + rewrite Hs'. by eapply (faithful_file_step (fun _ => False)).
    + unfold begun. rewrite Hsince, (moment_next _ _ _ Hs (sg_past _ _ _ Hg)). lia.
  - subst s'. split; [by apply Hg| |done|done].
    eapply faithful_file_same; [by eapply guar_extends|by split|done].
Qed.

(** ** The other tasks *)

Section others.
Context (t : nat) (Hother : t <> writer_task).

Lemma served_assertion : assertion (fun _ => True) server_guar shows t served.
Proof using Hother. split; [|by intros s Hs; split]. intros t' s s' _ Hg _ _ Hs. by apply Hg. Qed.

Lemma keeps_served {B} (f : Server -> option (Server * B)) :
  (forall s s' b, f s = Some (s', b) -> server_guar t s s') ->
  keeps_server t served (sec f) (fun _ => served).
Proof.
  intros Hf. apply keeps_sec; [intros; apply served_assertion|].
  intros s s' b _ _ Hs Hfs. pose proof (Hf _ _ _ Hfs) as Hg. split; [done|by apply Hg].
Qed.

Lemma keeps_lifted {A} (p : prog World A) :
  keeps_server t served (lift t p) (fun _ => served).
Proof.
  induction p as [a|B f k IH|k IH]; [by intros s|..]; intros s s' b _ _ Hs Hf.
  - destruct (serve_guar _ _ _ _ _ Hf) as [Hg _]. split; [done|]. exists served.
    split_and!; [apply served_assertion|by apply Hg|apply IH].
  - pose proof (await_guar _ _ _ _ Hf) as Hg. split; [done|]. exists served.
    split_and!; [apply served_assertion|by apply Hg|apply IH].
Qed.

End others.

Definition ready (t : nat) (s : Server) : Prop :=
  served s /\ (t = writer_task -> writing None idle s).

Lemma ready_assertion t : assertion (fun _ => True) server_guar shows t (ready t).
Proof.
  split; [|by intros s [Hs Hw]; split; [|intros ->; by apply Hw]].
  intros t' s s' Hne Hg _ _ [Hs Hw]. split; [by apply Hg|].
  intros ->. destruct (writing_assertion None idle idle_lasting) as [Hst _].
  by eapply Hst; [|exact Hg|..]; auto.
Qed.

Lemma boot_ready file restored t : ready t (boot_server file restored).
Proof.
  pose proof (boot_served file restored) as Hs. split; [done|]. intros _. split; try done.
  intros since dtos Hc Hpos. exfalso. destruct Hc as [Hc|Hc]; [|done].
  cbn [boot_server sv_mail channel mb_writer new_writer wr_file] in Hc.
  destruct file; [|done]. injection Hc as <- _. lia.
Qed.

Variable starts : nat -> prog World unit -> Prop.

Lemma server_keeps t q :
  server_starts starts t q -> keeps_server t (ready t) q (fun _ => ready t).
Proof.
  assert (Hothers : t <> writer_task -> keeps_server t served q (fun _ => served) ->
    keeps_server t (ready t) q (fun _ => ready t)).
  { intros Hne. apply keeps_weaken; [by intros s _ [? _]|by intros ? s _ Hs]. }
  intros Hq. destruct Hq as [p Hne Hp|fates Ht|timed_out Hne].
  - apply Hothers; [done|by apply keeps_lifted].
  - clear Hothers. subst t. eapply keeps_weaken; [| |apply keeps_writer_run]; [by intros s _ [_ Hw]; apply Hw|].
    intros ? s _ Hw. split; [apply Hw|done].
  - apply Hothers; [done|]. eapply keeps_bind with (Q := fun _ => served); [|by intros ? s].
    eapply keeps_bind; [apply keeps_served; [done|]; intros; by eapply send_flush_guar|].
    intros ?. apply keeps_served; [done|]. intros. by eapply await_flush_guar.
Qed.

Lemma server_kept file restored s ps :
  pool_reach (server_starts starts) (boot_server file restored) (s, ps) ->
  served s /\ faithful_file s.
Proof.
  intros Hreach.
  destruct (pool_keeps (server_starts starts) (fun _ => True) server_guar shows ready ready
    ready_assertion server_keeps _ (s, ps) ltac:(done) (boot_ready file restored) Hreach) as [Hthr Hoth].
  assert (Hw : shows writer_task s); [|split; [apply Hw|by apply Hw]].
  destruct (ps !! writer_task) as [q|] eqn:Hq; [|by apply ready_assertion, Hoth].
  destruct (Hthr _ _ Hq) as (L & [_ HL] & Hl & _). by apply HL.
Qed.
End pictures.
