(* ===== verification/ServerLive.v ===== *)
(** * No deadlock with the writer

    A task of the server can be held up by the lock of the room table or by
    the writer, and the writer by the lock.  A task asks the writer nothing
    while it holds the lock, so there is always a task that can move, until
    only the writer is left, waiting for work. *)
From S2P Require Import Prelude.
From S2P Require Import Protocol.
From S2P Require Import Ids.
From S2P Require Import Room.
From S2P Require Import RoomInv.
From S2P Require Import Quotas.
From S2P Require Import Snapshot.
From S2P Require Import Writer.
From S2P Require Import Debounce.
From S2P Require Import Mailbox.
From S2P Require Import Threads.
From S2P Require Import World.
From S2P Require Import Registry.
From S2P Require Import Cleanup.
From S2P Require Import Connection.
From S2P Require Import System.
From S2P Require Import Server.
From S2P Require Import ServerThms.
From S2P Require Import StateFile.

Section live.
Context `{HashIter} `{CryptoLib} `{!CryptoLaws _} `{SnapshotLib}.

(** ** Tasks ask after they have sent *)

(** The section sends the writer a request. *)
Definition sends {B} (f : World -> option (World * B)) : Prop :=
  forall w w' b, f w = Some (w', b) -> Terminal ∈ drop (length (w_actions w)) (w_actions w').

(** [p] waits for an answer only after a request; [sent] if one was sent
    before. *)
Fixpoint asks_after {A} (sent : bool) (p : prog World A) : Prop :=
  match p with
  | Ret _ => True
  | Sec f k => exists r, (r = true -> sent = true \/ sends f) /\ forall b, asks_after r (k b)
  | Ask k => sent = true /\ forall b, asks_after true (k b)
  end.

Lemma asks_sec {B} sent (f : World -> option (World * B)) : asks_after sent (sec f).
Proof. by exists false. Qed.

Lemma asks_mono {A} (p : prog World A) : asks_after false p -> asks_after true p.
Proof.
  destruct p as [a|B f k|k]; simpl; [done| |by intros [? _]].
  intros (r & Hr & Hk). exists r. split; [by left|done].
Qed.

Lemma asks_bind {A B} sent (p : prog World A) (k : A -> prog World B) :
  asks_after sent p -> (forall a, asks_after false (k a)) -> asks_after sent (bind p k).
Proof.
  revert sent. induction p as [a|C f k' IH|k' IH]; intros sent Hp Hk; simpl in *.
  - destruct sent; [by apply asks_mono|apply Hk].
  - destruct Hp as (r & Hr & Hp). exists r. split; [done|]. intros b. by apply IH.
  - destruct Hp as [Hs Hp]. split; [done|]. intros b. by apply IH.
Qed.

Lemma asks_terminal : asks_after false record_terminal_mutation.
Proof.
  exists true. split; [|by split]. intros _. right. intros w w' b [= <- _].
  cbn [set_actions w_actions]. rewrite drop_app_length. left.
Qed.

(** Follows the program. *)
Ltac asks_step :=
  first [done | apply asks_terminal | apply asks_sec | solve [auto with asks nocore]
        | apply asks_bind; [|intros ?]
        | match goal with |- asks_after _ (match ?x with _ => _ end) => destruct x end
        | match goal with |- asks_after _ (if ?x then _ else _) => destruct x end ].
Ltac asks := cbv zeta; repeat asks_step.

Create HintDb asks.

Lemma asks_perform_all l : asks_after false (perform_all l).
Proof. induction l as [|a l IH]; [done|]. apply asks_bind; [apply asks_sec|done]. Qed.
#[local] Hint Resolve asks_perform_all : asks.

Lemma asks_create_fresh sid host v token owner adm now :
  asks_after false (create_fresh sid host v token owner adm now).
Proof. unfold create_fresh, try_claim_room_quota, record_mutation. asks. Qed.
#[local] Hint Resolve asks_create_fresh : asks.

Lemma asks_create t sid host token owner adm now :
  asks_after false (create t sid host token owner adm now).
Proof. unfold create, release_room_quota, record_mutation. asks. Qed.

Lemma asks_end_session r id c token v : asks_after false (end_session r id c token v).
Proof. unfold end_session, release_room_quota. asks. Qed.

Lemma asks_leave r id c token v now : asks_after false (leave r id c token v now).
Proof. unfold leave. asks. Qed.

Lemma asks_remove_if_current r : asks_after false (remove_if_current r).
Proof. unfold remove_if_current, release_room_quota. asks. Qed.

Lemma asks_build_snapshot clock : asks_after false (build_snapshot clock).
Proof.
  unfold build_snapshot, all_rooms. apply asks_bind; [apply asks_sec|]. intros rooms.
  generalize (@nil RoomDto). induction rooms as [|r rooms IH]; intros dtos; cbn [capture_rooms]; [done|].
  apply asks_bind; [apply asks_sec|]. intros ?. apply IH.
Qed.
#[local] Hint Resolve asks_create asks_end_session asks_leave asks_remove_if_current : asks.

Lemma asks_handle_message t tx key ck msg c : asks_after false (handle_message t tx key ck msg c).
Proof.
  unfold handle_message, handle_create, handle_join, in_room, handle_leave, handle_end_session,
    handle_transfer_host, handle_broadcast, handle_send_to, get, apply_effects, refuse. asks.
Qed.

Lemma asks_connection_run t tx key opened arrivals closed :
  asks_after false (connection_run t tx key opened arrivals closed).
Proof.
  unfold connection_run. apply asks_bind; [|intros c; unfold finish_connection, apply_effects; asks].
  generalize (opened + PONG_WAIT)%Z, new_conn.
  generalize (new_bucket PER_CONNECTION_MESSAGE_BURST PER_CONNECTION_MESSAGE_SUSTAINED opened).
  induction arrivals as [|a arrivals IH]; intros bucket deadline c; cbn [read_loop]; [done|].
  apply asks_bind; [apply asks_sec|]. intros cancelled. destruct (_ && _); [done|].
  destruct (ar_frame a) as [len msg| | | | |]; try apply IH; try done.
  destruct (_ <? _)%N; [apply IH|]. destruct (allow_at _ _) as [bucket' allowed].
  destruct (negb allowed); [apply asks_bind; [apply asks_sec|intros ?; apply IH]|].
  destruct msg as [msg|]; (apply asks_bind; [|intros ?; apply IH]);
    [apply asks_handle_message|apply asks_sec].
Qed.

Lemma asks_cleanup_run ticks : asks_after false (cleanup_run ticks).
Proof.
  induction ticks as [|[[now inow] inow_logs] ticks IH]; [done|]. cbn [cleanup_run].
  apply asks_bind; [|done]. unfold sweep, all_rooms. apply asks_bind; [apply asks_sec|]. intros rooms.
  apply asks_bind; [|intros; apply asks_sec].
  induction rooms as [|r rooms IHr]; [done|]. cbn [sweep_rooms].
  apply asks_bind; [|done]. unfold sweep_room, record_mutation. asks.
Qed.

Lemma asks_logs_only {A} (p : prog World A) : logs_only p -> asks_after false p.
Proof.
  induction p as [a|B f k IH|k IH]; simpl; [done| |done]. intros [_ Hk]. exists false. auto.
Qed.
(** ** What holds of the server *)

(** Every request sent is in the writer's books, unless the writer has
    returned. *)
Definition tickets_ok (s : Server) : Prop :=
  forall t tk, sv_ticket s !! t = Some tk ->
    is_Some (mb_due (sv_mail s) !! tk) \/ wr_stopped (mb_writer (sv_mail s)) = true.

Record live (s : Server) : Prop := {
  lv_world : world_wf (sv_world s);
  lv_tickets : tickets_ok s;
}.

Record live_guar (t : nat) (s s' : Server) : Prop := {
  lg_world : guar t (sv_world s) (sv_world s');
  lg_ticket : forall t', t' <> t -> sv_ticket s' !! t' = sv_ticket s !! t';
  lg_turn : t <> writer_task -> mb_turn (sv_mail s') = mb_turn (sv_mail s);
}.

Definition holder (s : Server) : option nat := w_writer (sv_world s).

(** The writer waits for a command and has nothing to write; another task waits
    for its answer. *)
Definition parked (t : nat) (s : Server) : Prop :=
  wr_stopped (mb_writer (sv_mail s)) = false
  /\ if t =? writer_task
     then mb_turn (sv_mail s) = None /\ mb_queue (sv_mail s) = []
          /\ debounce_pending (mb_writer (sv_mail s)) = false
     else exists tk, sv_ticket s !! t = Some tk /\ mb_answers (sv_mail s) !! tk = None.

Lemma live_guar_holder t t' s s' :
  live_guar t s s' -> t <> t' -> (holder s' = Some t' <-> holder s = Some t').
Proof. intros [Hw _ _]. by apply guar_holder. Qed.

Abbreviation ok_live t L p Q := (ok live live_guar holder parked t L p Q).
Abbreviation stable_live t L := (stable live live_guar t L).

(** ** Requests *)

Lemma request_tickets n t cmd s :
  (forall tk, ticket (cmd tk) = Some tk) -> tickets_ok s ->
  tickets_ok (request n t cmd s) /\ is_Some (sv_ticket (request n t cmd s) !! t).
Proof.
  intros Hcmd Hs. cbn [request sv_ticket]. split; [|by rewrite lookup_insert_eq].
  intros t' tk Htk. cbn [request sv_ticket sv_mail] in *. unfold send.
  destruct (wr_stopped (mb_writer (sv_mail s))) eqn:Hstop; [by right|]. left. cbn [fst mb_due].
  rewrite Hcmd. destruct (decide (tk = sv_next_ticket s)) as [->|Hne].
  { rewrite lookup_insert_eq. by eexists. }
  rewrite lookup_insert_ne by done.
  apply lookup_insert_Some in Htk as [[_ ?]|[_ Htk]]; [congruence|].
  destruct (Hs t' tk Htk) as [?|?]; [done|congruence].
Qed.

Lemma deliver_tickets n t s a :
  tickets_ok s ->
  tickets_ok (deliver n t s a)
  /\ (is_Some (sv_ticket s !! t) \/ a = Terminal -> is_Some (sv_ticket (deliver n t s a) !! t)).
Proof.
  intros Hs. destruct a as [tx m|token| |].
  1, 2: split; [done|by intros [?|?]].
  - split; [|by intros [?|?]]. intros t' tk Htk. cbn [deliver sv_ticket sv_mail] in *.
    unfold Mailbox.record_mutation, send. destruct (wr_stopped _) eqn:Hstop; [by right|].
    destruct (Hs t' tk Htk) as [?|?]; [by left|congruence].
  - destruct (request_tickets n t CmdTerminal s ltac:(done) Hs) as [? ?]. by split.
Qed.

Lemma delivered_tickets n t l s :
  tickets_ok s ->
  tickets_ok (foldl (deliver n t) s l)
  /\ (is_Some (sv_ticket s !! t) \/ Terminal ∈ l -> is_Some (sv_ticket (foldl (deliver n t) s l) !! t)).
Proof.
  revert s. induction l as [|a l IH]; intros s Hs; cbn [foldl].
  { split; [done|]. intros [?|Hin]; [done|]. by apply not_elem_of_nil in Hin. }
  destruct (deliver_tickets n t s a Hs) as [Hs1 Ht1]. destruct (IH _ Hs1) as [Hs2 Ht2].
  split; [done|]. intros [Ht|[<-|Hin]%elem_of_cons]; apply Ht2; [left; apply Ht1; by left|
    left; apply Ht1; by right|by right].
Qed.

(** A section of the world, lifted. *)
Lemma serve_live {B} t (f : World -> option (World * B)) s s' b :
  live s ->
  serve t f s = Some (s', b) -> world_wf (sv_world s') -> guar t (sv_world s) (sv_world s') ->
  live s' /\ live_guar t s s'
  /\ (is_Some (sv_ticket s !! t) \/ sends f -> is_Some (sv_ticket s' !! t)).
Proof.
  intros [Hwf Htk] Hserve Hwf' Hg. pose proof (serve_world _ _ _ _ _ Hserve) as Hf.
  destruct (serve_guar _ _ _ _ _ Hserve) as [[_ _ Hoth _ _ _ _] [_ Hturn _]].
  revert Hserve. unfold serve. rewrite Hf. intros [= Hs'].
  destruct (delivered_tickets (moment s) t
    (drop (length (w_actions (sv_world s))) (w_actions (sv_world s')))
    (advance t s (sv_world s') (sv_mail s)) Htk) as [Htk' Hsent].
  rewrite Hs' in Htk', Hsent.
  split; [by split|]. split; [split; [done|done|by intros _]|].
  intros [?|Hsend]; apply Hsent; [by left|right; by eapply Hsend].
Qed.
(** ** Lifted tasks *)

Fixpoint no_ask {A} (p : prog World A) : Prop :=
  match p with
  | Ret _ => True
  | Sec _ k => forall b, no_ask (k b)
  | Ask _ => False
  end.

Lemma no_ask_build_snapshot clock : no_ask (build_snapshot clock).
Proof.
  intros rooms. generalize (@nil RoomDto). simpl.
  induction rooms as [|r rooms IH]; intros dtos; [done|]. intros captured. apply IH.
Qed.

(** What task [t] knows: of the world, and that it has sent a request. *)
Definition knowing (t : nat) (L : World -> Prop) (sent : bool) (s : Server) : Prop :=
  L (sv_world s) /\ (sent = true -> is_Some (sv_ticket s !! t)).

Lemma knowing_stable t L sent : stable world_wf guar t L -> stable_live t (knowing t L sent).
Proof.
  intros HL t' s s' Hne [Hg Htk _] [Hw _] [Hw' _] [Hl Hsent]. split; [by eapply HL|].
  intros Hs. rewrite Htk by done. by apply Hsent.
Qed.

(** A task whose answer is not there is parked. *)
Lemma await_parked t s :
  t <> writer_task -> is_Some (sv_ticket s !! t) -> await t s = None -> parked t s.
Proof.
  intros Hne [tk Htk]. unfold await. rewrite Htk. unfold Mailbox.record_terminal_mutation.
  destruct (mb_answers (sv_mail s) !! tk) as [res|] eqn:Ha; [done|].
  destruct (wr_stopped (mb_writer (sv_mail s))) eqn:Hstop; cbn [negb]; [by case_bool_decide|]. intros _.
  split; [done|]. apply Nat.eqb_neq in Hne. rewrite Hne. by exists tk.
Qed.

Lemma stutter_live t s s' :
  live s -> sv_world s' = sv_world s -> sv_ticket s' = sv_ticket s -> sv_mail s' = sv_mail s ->
  live s' /\ live_guar t s s'.
Proof.
  intros [Hw Htk] Hworld Hticket Hmail. split; [|split].
  - split; [by rewrite Hworld|]. unfold tickets_ok. by rewrite Hticket, Hmail.
  - rewrite Hworld. apply heap_eq_guar; done.
  - intros t' _. by rewrite Hticket.
  - by rewrite Hmail.
Qed.

Lemma await_same t s s' b : await t s = Some (s', b) -> s' = advance t s (sv_world s) (sv_mail s).
Proof. unfold await. repeat case_match; intros; by simplify_eq. Qed.

Lemma ok_lift {A} t L sent (p : prog World A) Q :
  t <> writer_task \/ no_ask p -> stable world_wf guar t L ->
  ok_prog t L p Q -> asks_after sent p ->
  ok_live t (knowing t L sent) (lift t p) (fun a s => Q a (sv_world s)).
Proof.
  revert L sent. induction p as [a|B f k IH|k IH]; intros L sent Hask HL Hok Hp; simpl in *.
  - intros s [Hw _] [Hl _]. by apply Hok.
  - destruct Hp as (r & Hr & Hp). intros s Hs [Hl Hsent]. specialize (Hok _ (lv_world _ Hs) Hl).
    destruct (serve t f s) as [[s' b]|] eqn:Hserve.
    + pose proof (serve_world _ _ _ _ _ Hserve) as Hf. rewrite Hf in Hok.
      destruct Hok as (Hw' & Hg & L' & HL' & Hl' & Hok).
      destruct (serve_live _ _ _ _ _ Hs Hserve Hw' Hg) as (Hs' & Hg' & Htk).
      split_and!; [done..|]. exists (knowing t L' r). split_and!; [by apply knowing_stable| |].
      * split; [done|]. intros Hrt. apply Htk. destruct (Hr Hrt) as [Hst|?]; [left; by apply Hsent|by right].
      * apply IH; [|done..]. destruct Hask as [?|Hno]; [by left|right; apply Hno].
    + unfold serve in Hserve. destruct (f (sv_world s)) as [[w b]|]; [done|].
      destruct Hok as [Hwait|[_ []]]. by left.
  - destruct Hok as [Hu Hok], Hp as [-> Hp], Hask as [Hne|[]]. intros s Hs Hl.
    destruct (await t s) as [[s' b]|] eqn:Ha.
    + pose proof (await_same _ _ _ _ Ha) as ->.
      destruct (stutter_live t s (advance t s (sv_world s) (sv_mail s))) as [Hs' Hg]; [done..|].
      split_and!; [done..|]. exists (knowing t L true). split_and!; [by apply knowing_stable|exact Hl|].
      apply IH; [by left|done..].
    + right. split; [apply Hu; [apply Hs|apply Hl]|]. apply await_parked; [done| |done]. by apply Hl.
Qed.

(** ** The writer *)

(** The writer between its turns. *)
Definition between_turns (s : Server) : Prop :=
  mb_turn (sv_mail s) = None /\ knows writer_task None [] [] (sv_world s).
Definition in_turn (s : Server) : Prop := knows writer_task None [] [] (sv_world s).

Lemma in_turn_stable : stable_live writer_task in_turn.
Proof. intros t' s s' Hne [Hg _ _] [Hw _] [Hw' _]. by eapply knows_stable. Qed.

Lemma between_turns_stable : stable_live writer_task between_turns.
Proof.
  intros t' s s' Hne Hg Hs Hs' [Hturn Hk]. split; [by rewrite (lg_turn _ _ _ Hg)|].
  by eapply in_turn_stable.
Qed.

(** A section of the writer that keeps the books. *)
Lemma writer_live s mb :
  live s -> mb_due mb = mb_due (sv_mail s) ->
  (wr_stopped (mb_writer (sv_mail s)) = true -> wr_stopped (mb_writer mb) = true) ->
  live (advance writer_task s (sv_world s) mb) /\ live_guar writer_task s (advance writer_task s (sv_world s) mb).
Proof.
  intros [Hw Htk] Hdue Hstop. split; [split; [done|]|split].
  - intros t tk Ht. cbn [advance sv_ticket sv_mail] in *. rewrite Hdue.
    destruct (Htk t tk Ht) as [?|?]; [by left|right; by apply Hstop].
  - cbn [advance sv_world]. by apply heap_eq_guar.
  - done.
  - done.
Qed.

Lemma ok_take_turn first :
  ok_live writer_task between_turns (sec (take_turn first))
    (fun turn s => match turn with Some _ => in_turn s | None => between_turns s end).
Proof.
  apply ok_sec_parked; [intros [?|]; [apply in_turn_stable|apply between_turns_stable]|].
  intros s Hs [Hturn Hk]. unfold take_turn, begin_turn_at.
  assert (Hsame : live (advance writer_task s (sv_world s) (sv_mail s))
    /\ live_guar writer_task s (advance writer_task s (sv_world s) (sv_mail s))) by by apply writer_live.
  assert (Hbegin : forall turn queue,
    live (advance writer_task s (sv_world s) (begin_turn (moment s) turn queue (sv_mail s)))
    /\ live_guar writer_task s (advance writer_task s (sv_world s) (begin_turn (moment s) turn queue (sv_mail s))))
    by (intros; by apply writer_live).
  destruct (wr_stopped (mb_writer (sv_mail s))) eqn:Hstop; [by destruct Hsame; split_and!|].
  destruct (mb_queue (sv_mail s)) as [|[at_ cmd] queue] eqn:Hq.
  - destruct (debounce_pending _) eqn:Hp.
    + destruct (Hbegin TurnTimer []). by split_and!.
    + right. split; [apply Hk|]. split; [done|]. by split_and!.
  - destruct (first && _); [destruct (Hbegin TurnTimer ((at_, cmd) :: queue))|
      destruct (Hbegin (TurnCmd at_ cmd) queue)]; by split_and!.
Qed.

Lemma writer_step_stopped {C} (w : @Writer C) ev :
  wr_stopped w = true -> wr_stopped (writer_step w ev).1 = true.
Proof. intros Hs. unfold writer_step. by rewrite Hs. Qed.

Lemma ok_end_turn turn outcome :
  ok_live writer_task in_turn (sec (end_turn turn outcome)) (fun _ => between_turns).
Proof.
  apply ok_sec; [intros; apply between_turns_stable|]. intros s Hs Hk. unfold end_turn.
  destruct (writer_live s (finish_turn (sv_mail s) turn outcome) Hs) as [Hs' Hg].
  - unfold finish_turn. by destruct (writer_step _ _).
  - intros Hstop. unfold finish_turn.
    pose proof (writer_step_stopped (mb_writer (sv_mail s)) (turn_event turn outcome) Hstop) as Hw.
    by destruct (writer_step _ _).
  - split_and!; [done..|]. split; [|done]. cbn [advance sv_mail]. unfold finish_turn.
    by destruct (writer_step _ _).
Qed.

Lemma ok_end_capture turn dtos :
  ok_live writer_task in_turn (sec (end_capture turn dtos)) (fun _ => in_turn).
Proof.
  apply ok_sec; [intros; apply in_turn_stable|]. intros s Hs Hk. unfold end_capture.
  by destruct (writer_live s (capture_done turn dtos (sv_mail s)) Hs).
Qed.

Lemma ok_writer_run fates :
  ok_live writer_task between_turns (writer_run fates) (fun _ => in_turn).
Proof.
  induction fates as [|ft fates IH]; [by intros s _ [_ ?]|]. cbn [writer_run].
  eapply ok_bind; [apply ok_take_turn|]. intros [[turn writes]|]; [|by intros s _ [_ ?]].
  eapply ok_bind; [|intros ?; exact IH]. unfold writer_turn.
  destruct writes; [|apply ok_end_turn].
  eapply ok_bind.
  { eapply ok_weaken; [| |apply (ok_lift writer_task (knows writer_task None [] []) false)].
    - intros s _ Hk. by split.
    - intros dtos s _ Hk. exact Hk.
    - right. apply no_ask_build_snapshot.
    - apply knows_stable.
    - apply ok_build_snapshot.
    - apply asks_build_snapshot. }
  intros dtos. eapply ok_bind; [apply ok_end_capture|]. intros c. apply ok_end_turn.
Qed.

(** ** Shutting down *)

Lemma ok_shutdown t timed_out :
  t <> writer_task ->
  ok_live t (knowing t (knows t None [] []) false) (shutdown t timed_out ;! Ret tt)
    (fun _ => knowing t (knows t None [] []) true).
Proof.
  intros Hne. eapply ok_bind with (Q := fun _ => knowing t (knows t None [] []) true); [|by intros ? s _ Hs].
  eapply ok_bind with (Q := fun _ => knowing t (knows t None [] []) true).
  - apply ok_sec; [intros; apply knowing_stable, knows_stable|]. intros s Hs [Hk _]. unfold send_flush.
    destruct (request_tickets (moment s) t CmdFlushAndStop (advance t s (sv_world s) (sv_mail s)))
      as [Htk Ht]; [done|apply Hs|].
    split_and!; [by split; [apply Hs|]| |by split].
    split; cbn [request advance sv_world sv_ticket sv_mail].
    + by apply heap_eq_guar.
    + intros t' Hne'. by rewrite lookup_insert_ne.
    + intros _. apply (send_writer (moment s)).
  - intros _. apply ok_sec_parked; [intros; apply knowing_stable, knows_stable|].
    intros s Hs [Hk Htk]. specialize (Htk eq_refl). unfold await_flush. destruct Htk as [tk Htk].
    rewrite Htk. unfold Mailbox.flush_and_stop.
    assert (Hsame : live (advance t s (sv_world s) (sv_mail s))
      /\ live_guar t s (advance t s (sv_world s) (sv_mail s))) by by apply stutter_live.
    assert (Hknow : knowing t (knows t None [] []) true (advance t s (sv_world s) (sv_mail s)))
      by (split; [done|by eexists]).
    destruct (mb_answers (sv_mail s) !! tk) as [res|] eqn:Ha; [by destruct Hsame|].
    destruct (wr_stopped (mb_writer (sv_mail s))) eqn:Hstop; [by destruct Hsame|].
    destruct timed_out; [by destruct Hsame|]. right. split; [apply Hk|].
    split; [done|]. apply Nat.eqb_neq in Hne. rewrite Hne. by exists tk.
Qed.
(** ** All tasks *)

(** What runs beside the writer: connections, the cleanup loop, requests that
    use the log store.  (A bare [capture_run] asks what only the writer
    knows.) *)
Inductive client_starts (t : nat) : prog World unit -> Prop :=
| client_connection tx ip_key opened arrivals closed :
    client_starts t (connection_run t tx ip_key opened arrivals closed)
| client_cleanup ticks : client_starts t (cleanup_run ticks)
| client_logs p : logs_only p -> client_starts t p.

Definition ready_task (t : nat) (s : Server) : Prop :=
  knows t None [] [] (sv_world s) /\ (t = writer_task -> mb_turn (sv_mail s) = None).

Lemma ready_task_stable t : stable_live t (ready_task t).
Proof.
  intros t' s s' Hne Hg Hs Hs' [Hk Hturn]. split.
  - destruct Hg as [Hg _ _], Hs as [Hw _], Hs' as [Hw' _]. by eapply knows_stable.
  - intros ->. rewrite (lg_turn _ _ _ Hg) by done. by apply Hturn.
Qed.

Lemma ok_client t p :
  client_starts t p ->
  ok_prog t (knows t None [] []) p (fun _ => knows t None [] []) /\ asks_after false p.
Proof.
  destruct 1; split;
    [apply ok_connection_run|apply asks_connection_run|apply ok_cleanup_run|apply asks_cleanup_run
    |by apply ok_logs_only|by apply asks_logs_only].
Qed.

Lemma server_live t q :
  server_starts client_starts t q ->
  ok_live t (ready_task t) q (fun _ s => knows t None [] [] (sv_world s)).
Proof.
  intros [p Hne Hp|fates ->|timed_out Hne].
  - destruct (ok_client t p Hp) as [Hok Hask].
    eapply ok_weaken; [| |apply (ok_lift t (knows t None [] []) false p (fun _ => knows t None [] []))];
      [|by intros ? s _ Hk|by left|apply knows_stable|exact Hok|exact Hask].
    intros s _ [Hk _]. by split.
  - eapply ok_weaken; [| |apply ok_writer_run]; [|by intros ? s _ Hk].
    intros s _ [Hk Hturn]. split; [by apply Hturn|done].
  - eapply ok_weaken; [| |by apply ok_shutdown]; [|by intros ? s _ [Hk _]].
    intros s _ [Hk _]. by split.
Qed.

(** ** A writer with nothing to do *)

Lemma idle_writer n (mb : @Mailbox (list RoomDto)) :
  mailbox_ok n mb -> wr_stopped (mb_writer mb) = false -> mb_turn mb = None -> mb_queue mb = [] ->
  debounce_pending (mb_writer mb) = false ->
  (forall tk, is_Some (mb_due mb !! tk) -> is_Some (mb_answers mb !! tk))
  /\ (mb_last mb <= stamp (wr_file (mb_writer mb)))%N.
Proof.
  intros Hok Hrun Hturn Hqueue Hsaved.
  assert (Hnone : pending_commands mb = []) by (unfold pending_commands; by rewrite Hturn).
  split.
  - intros tk Hdue. destruct (mb_answers mb !! tk) as [res|] eqn:Ha; [by eexists|].
    destruct (mo_waiting _ _ Hok tk Hdue Ha) as [?|(at_ & cmd & Hin & _)]; [congruence|].
    rewrite Hnone in Hin. by apply not_elem_of_nil in Hin.
  - pose proof (mo_dues _ _ Hok) as Hd. rewrite Hnone in Hd. cbn [dues_ok] in Hd. rewrite <- Hd.
    destruct (mo_tracks _ _ Hok) as (s & Ht & Hu). rewrite <- (tr_file _ _ _ Ht). apply Hu.
    by rewrite (tr_unsaved _ _ _ Ht).
Qed.
End live.
