(* ===== verification/Promises.v ===== *)
(** * What the server promises with [left] and [ended]

    A connection that sends [leave] or [endSession] waits for the writer
    between the two phases of its request, while everybody else goes on.  This
    file follows such a request through the whole server: from the section
    that begins it, over the answer of the writer and the section that
    finishes it, to the sections that send the message. *)
From S2P Require Import Prelude.
From S2P Require Import Protocol.
From S2P Require Import Ids.
From S2P Require Import HostTransfer.
From S2P Require Import Room.
From S2P Require Import RoomInv.
From S2P Require Import RoomThms.
From S2P Require Import RoomLife.
From S2P Require Import Quotas.
From S2P Require Import Snapshot.
From S2P Require Import Writer.
From S2P Require Import Mailbox.
From S2P Require Import Durable.
From S2P Require Import Threads.
From S2P Require Import World.
From S2P Require Import Registry.
From S2P Require Import Cleanup.
From S2P Require Import Connection.
From S2P Require Import System.
From S2P Require Import Wire.
From S2P Require Import ConnTrack.
From S2P Require Import Ownership.
From S2P Require Import Server.
From S2P Require Import ServerThms.
From S2P Require Import StateFile.

Section promises.
Context `{HashIter} `{CryptoLib} `{!CryptoLaws _}.

(** ** The promises *)

(** Moments and connection ids have not wrapped around. *)
Definition small (s : Server) : Prop := (moment s < u64_modulus)%N /\ bounded (sv_world s).

(** The file is younger than moment [b]. *)
Definition durable_since (s : Server) (b : nat) : Prop :=
  (N.of_nat b < stamp (wr_file (mb_writer (sv_mail s))))%N.

(** Task [t] takes the section that leads from moment [j], and the world [w],
    to the next, and [w']. *)
Definition section_at (s : Server) (t j : nat) (w w' : World) : Prop :=
  sv_by s !! j = Some t /\ sv_past s !! j = Some w /\ sv_past s !! S j = Some w'.

(** It sends [m] on channel [tx]. *)
Definition sent_at (s : Server) (t k : nat) (tx : Sender) (m : ServerMessage) : Prop :=
  exists w w' acts, section_at s t k w w' /\ w_actions w' = w_actions w ++ acts
    /\ TrySend tx m ∈ acts.

(** It takes room [r] from [st] to [st']. *)
Definition room_section (s : Server) (t j r : nat) (st st' : RoomState) : Prop :=
  exists w w', section_at s t j w w' /\ w_heap w !! r = Some st
    /\ w_heap w' = <[r := st']> (w_heap w).

(** Between its section at [f] and the one at [k], task [t] does nothing but
    send [m]. *)
Definition only_sends (s : Server) (t f k : nat) (m : ServerMessage) : Prop :=
  f < k /\ forall j, f < j < k -> sv_by s !! j = Some t -> exists tx, sent_at s t j tx m.

(** At [b] task [t] has begun the [leave] of [id], which is connection [c] of
    room [r] and sends to [t]. *)
Definition began_leave (s : Server) (t : nat) (sid id : string) (r : nat) (c : N) (b : nat) : Prop :=
  exists st token v p, room_section s t b r st (begin_leave st id c token v).1
    /\ (begin_leave st id c token v).2 = Ok tt /\ session_id st = sid
    /\ peers st !! id = Some p /\ cp_conn_id p = c /\ cp_tx p = t.

(** At moment [j], [id] is being released in room [r], or the room closes. *)
Definition releasing (s : Server) (sid id : string) (r j : nat) : Prop :=
  exists st, state_at s j r st /\ session_id st = sid /\ (closing st = true \/ pending st id = true).

(** A [leave]: begun at [b], it is finished at [f], which takes the connection
    and its identity out of the room; in between the identity was being
    released; and the file is younger than [b]. *)
Record released (s : Server) (t : nat) (sid id : string) (r : nat) (c : N) (b f : nat) : Prop := {
  rl_began : began_leave s t sid id r c b;
  rl_between : b < f /\ forall j, b < j <= f -> releasing s sid id r j;
  rl_finished : exists st now, room_section s t f r st (finish_leave st id c true now).1
    /\ conn_of st id = Some c /\ pending st id = true
    /\ unnamed id (finish_leave st id c true now).1;
  rl_durable : durable_since s b;
}.

(** At [b] task [t], which is the host of room [r], has begun to end the
    session; [gs] are the channels of the guests at the time. *)
Definition began_end (s : Server) (t : nat) (sid : string) (gs : list Sender) (r b : nat) : Prop :=
  exists st c token v owner p,
    room_section s t b r st (begin_end_session st (host_peer_id st) c token v).1
    /\ (begin_end_session st (host_peer_id st) c token v).2 = Ok (owner, gs) /\ session_id st = sid
    /\ peers st !! host_peer_id st = Some p /\ cp_conn_id p = c /\ cp_tx p = t.

(** An [endSession], begun at [b] and finished at [f]. *)
Record dissolved (s : Server) (t : nat) (sid : string) (gs : list Sender) (r b f : nat) : Prop := {
  ds_began : began_end s t sid gs r b;
  ds_finished : b < f /\ exists st, room_section s t f r st (finish_end_session st gs true).1;
  ds_durable : durable_since s b;
}.

(** What task [t] has done when it sends [m] on [tx] at moment [k]. *)
Record promised (s : Server) (t k : nat) (tx : Sender) (m : ServerMessage) : Prop := {
  pm_left : forall sid id, m = left_reply sid id -> tx = t
    /\ exists r c b f, released s t sid id r c b f /\ only_sends s t f k m;
  pm_ended : forall sid, m = ended_message sid ->
    exists gs r b f, tx ∈ t :: gs /\ dissolved s t sid gs r b f /\ only_sends s t f k m;
}.

(** Rooms neither disappear, nor reopen, nor change their id. *)
Definition heap_le (w w' : World) : Prop :=
  w_next_token w <= w_next_token w'
  /\ forall r st, w_heap w !! r = Some st -> exists st', w_heap w' !! r = Some st'
       /\ session_id st' = session_id st /\ (closing st = true -> closing st' = true).

(** Every sending so far keeps to it, every message was sent at some moment,
    and the past is in order. *)
Record kept (s : Server) : Prop := {
  kp_sent : small s -> forall t k tx m, sent_at s t k tx m -> promised s t k tx m;
  kp_log : forall tx m, TrySend tx m ∈ w_actions (sv_world s) -> exists t k, sent_at s t k tx m;
  kp_past : bounded (sv_world s) -> forall j w w', sv_past s !! j = Some w ->
    sv_past s !! S j = Some w' -> heap_le w w';
}.

(** A message that ends no membership promises nothing. *)
Lemma promised_plain s t k tx m : is_terminal m = false -> promised s t k tx m.
Proof. intros Ht. split; intros; subst; discriminate Ht. Qed.

(** ** Rely and guarantee *)

Definition sound (s : Server) : Prop := served s /\ Forall world_wf (sv_past s).

Lemma sound_now s : sound s -> world_wf (sv_world s).
Proof.
  intros [Hs Hall]. rewrite Forall_lookup in Hall. eapply Hall. by apply present.
Qed.

(** The number of the section that comes next. *)
Definition next_section (s : Server) : nat := length (sv_by s).

Lemma next_now s : sound s -> sv_past s !! next_section s = Some (sv_world s).
Proof.
  intros [Hs _]. rewrite <- (present s Hs). f_equal. unfold next_section. rewrite (sd_by _ Hs). lia.
Qed.

(** A section of task [t]: what it sends is promised. *)
Definition sends_promised (t : nat) (s s' : Server) : Prop :=
  exists acts, w_actions (sv_world s') = w_actions (sv_world s) ++ acts
    /\ (small s' -> forall tx m, TrySend tx m ∈ acts -> promised s' t (next_section s) tx m).

Record step_guar (t : nat) (s s' : Server) : Prop := {
  st_server : server_guar t s s';
  st_world : own_guar t (sv_world s) (sv_world s');
  st_sends : sends_promised t s s';
}.

Lemma bounded_before t w w' : own_guar t w w' -> bounded w' -> bounded w.
Proof. intros Ho Hb. pose proof (og_token _ _ _ Ho). unfold bounded in *. lia. Qed.

Lemma small_before t s s' : sound s -> server_guar t s s' -> own_guar t (sv_world s) (sv_world s') ->
  small s' -> small s.
Proof.
  intros [Hs _] Hg Ho [Hm Hb]. pose proof (moment_next _ _ _ Hs (sg_past _ _ _ Hg)).
  pose proof (og_token _ _ _ Ho). unfold small, bounded in *. lia.
Qed.

(** ** The past stays what it was *)

Lemma durable_later t s s' b :
  sound s -> server_guar t s s' -> (moment s' < u64_modulus)%N -> durable_since s b -> durable_since s' b.
Proof.
  intros [Hs _] Hg Hm Hd. destruct (sg_served _ _ _ Hg Hs) as [_ Hle]. specialize (Hle Hm).
  unfold durable_since in *. lia.
Qed.

Lemma section_later t s s' t0 j w w' :
  server_guar t s s' -> section_at s t0 j w w' -> section_at s' t0 j w w'.
Proof.
  intros Hg (Hby & Hw & Hw'). unfold section_at. rewrite (sg_by _ _ _ Hg), (sg_past _ _ _ Hg).
  split_and!; by apply lookup_app_l_Some.
Qed.

Lemma sent_later t s s' t0 k tx m : server_guar t s s' -> sent_at s t0 k tx m -> sent_at s' t0 k tx m.
Proof.
  intros Hg (w & w' & acts & Hsec & ?). exists w, w', acts. split; [by eapply section_later|done].
Qed.

Lemma room_section_later t s s' t0 j r st st' :
  server_guar t s s' -> room_section s t0 j r st st' -> room_section s' t0 j r st st'.
Proof. intros Hg (w & w' & Hsec & ?). exists w, w'. split; [by eapply section_later|done]. Qed.

(** The section that has just been taken. *)
Lemma section_now t s s' :
  sound s -> server_guar t s s' -> section_at s' t (next_section s) (sv_world s) (sv_world s').
Proof.
  intros Hs Hg. pose proof (sd_by _ (proj1 Hs)) as Hlen. unfold section_at, next_section.
  rewrite (sg_by _ _ _ Hg), (sg_past _ _ _ Hg). split_and!.
  - by apply list_lookup_middle.
  - apply lookup_app_l_Some. by apply next_now.
  - by apply list_lookup_middle.
Qed.

Lemma section_inv t s s' t0 j w w' :
  sound s -> server_guar t s s' -> section_at s' t0 j w w' ->
  section_at s t0 j w w'
  \/ (t0 = t /\ j = next_section s /\ w = sv_world s /\ w' = sv_world s').
Proof.
  intros Hs Hg (Hby & Hw & Hw'). pose proof (sd_by _ (proj1 Hs)) as Hlen.
  destruct (section_now t s s' Hs Hg) as (_ & Hnow & Hnow').
  rewrite (sg_by _ _ _ Hg) in Hby. apply lookup_snoc_Some in Hby as [[Hlt Hby]|[-> <-]].
  - left. rewrite (sg_past _ _ _ Hg), lookup_app_l in Hw, Hw' by lia. done.
  - right. unfold next_section in *. by simplify_eq.
Qed.

Lemma only_sends_later t s s' t0 f k m :
  server_guar t s s' -> k <= next_section s -> only_sends s t0 f k m -> only_sends s' t0 f k m.
Proof.
  intros Hg Hk [Hlt Hall]. split; [done|]. intros j Hj Hby.
  rewrite (sg_by _ _ _ Hg), lookup_app_l in Hby by (unfold next_section in Hk; lia).
  destruct (Hall j Hj Hby) as [tx Hsent]. exists tx. by eapply sent_later.
Qed.

(** One more section, of another task or one that sends [m] too. *)
Lemma only_sends_next t s s' t0 f m :
  server_guar t s s' -> only_sends s t0 f (next_section s) m ->
  (t = t0 -> exists tx, sent_at s' t0 (next_section s) tx m) ->
  only_sends s' t0 f (next_section s') m.
Proof.
  intros Hg Hsends Hnext.
  assert (Hlen : next_section s' = S (next_section s)).
  { unfold next_section. rewrite (sg_by _ _ _ Hg), length_app. simpl. lia. }
  pose proof (only_sends_later t s s' t0 f _ m Hg (le_n _) Hsends) as [Hlt Hall].
  rewrite Hlen. split; [lia|]. intros j Hj Hby. destruct (decide (j = next_section s)) as [->|Hne].
  - apply Hnext. rewrite (sg_by _ _ _ Hg) in Hby. unfold next_section in Hby.
    rewrite list_lookup_middle in Hby by done. congruence.
  - apply Hall; [lia|done].
Qed.

Lemma releasing_later t s s' sid id r j :
  server_guar t s s' -> releasing s sid id r j -> releasing s' sid id r j.
Proof.
  intros Hg (st & Hst & ?). exists st. split; [|done]. eapply state_at_later; [by eapply guar_extends|done].
Qed.

Lemma began_leave_later t s s' t0 sid id r c b :
  server_guar t s s' -> began_leave s t0 sid id r c b -> began_leave s' t0 sid id r c b.
Proof.
  intros Hg (st & token & v & p & Hsec & ?). exists st, token, v, p.
  split; [by eapply room_section_later|done].
Qed.

Lemma released_later t s s' t0 sid id r c b f :
  sound s -> server_guar t s s' -> (moment s' < u64_modulus)%N ->
  released s t0 sid id r c b f -> released s' t0 sid id r c b f.
Proof.
  intros Hs Hg Hm [Hb [Hlt Hall] (st & now & Hsec & ?) Hd]. split.
  - by eapply began_leave_later.
  - split; [done|]. intros j Hj. eapply releasing_later; [done|auto].
  - exists st, now. split; [by eapply room_section_later|done].
  - by eapply durable_later.
Qed.

Lemma began_end_later t s s' t0 sid gs r b :
  server_guar t s s' -> began_end s t0 sid gs r b -> began_end s' t0 sid gs r b.
Proof.
  intros Hg (st & c & token & v & owner & p & Hsec & ?). exists st, c, token, v, owner, p.
  split; [by eapply room_section_later|done].
Qed.

Lemma dissolved_later t s s' t0 sid gs r b f :
  sound s -> server_guar t s s' -> (moment s' < u64_modulus)%N ->
  dissolved s t0 sid gs r b f -> dissolved s' t0 sid gs r b f.
Proof.
  intros Hs Hg Hm [Hb (Hlt & st & Hsec) Hd]. split.
  - by eapply began_end_later.
  - split; [done|]. exists st. by eapply room_section_later.
  - by eapply durable_later.
Qed.

(** A promise keeps, and is still good for the next section of its task. *)
Lemma promised_change t s s' t0 k k' tx m :
  sound s -> server_guar t s s' -> (moment s' < u64_modulus)%N ->
  (forall f, only_sends s t0 f k m -> only_sends s' t0 f k' m) ->
  promised s t0 k tx m -> promised s' t0 k' tx m.
Proof.
  intros Hs Hg Hm Hsends [Hl He]. split.
  - intros sid id Heq. destruct (Hl sid id Heq) as (-> & r & c & b & f & ? & ?). split; [done|].
    exists r, c, b, f. split; [by eapply released_later|auto].
  - intros sid Heq. destruct (He sid Heq) as (gs & r & b & f & ? & ? & ?). exists gs, r, b, f.
    split_and!; [done|by eapply dissolved_later|auto].
Qed.

Lemma promised_later t s s' t0 k tx m :
  sound s -> server_guar t s s' -> (moment s' < u64_modulus)%N -> k <= next_section s ->
  promised s t0 k tx m -> promised s' t0 k tx m.
Proof.
  intros Hs Hg Hm Hk. eapply promised_change; [done..|]. intros f. by eapply only_sends_later.
Qed.

Lemma promised_next t s s' t0 tx m :
  sound s -> server_guar t s s' -> (moment s' < u64_modulus)%N ->
  (t = t0 -> exists tx', sent_at s' t0 (next_section s) tx' m) ->
  promised s t0 (next_section s) tx m -> promised s' t0 (next_section s') tx m.
Proof.
  intros Hs Hg Hm Hnext. eapply promised_change; [done..|]. intros f Hf. by eapply only_sends_next.
Qed.

Lemma kept_step t s s' : sound s -> step_guar t s s' -> kept s -> kept s'.
Proof.
  intros Hs [Hg Ho (acts & Hacts & Hsend)] [Hk Hlog Hpast]. split.
  - intros Hsm t0 k tx m (w & w' & acts' & Hsec & Ha & Hin).
    destruct (section_inv _ _ _ _ _ _ _ Hs Hg Hsec) as [Hold|(-> & -> & -> & ->)].
    + eapply promised_later; [exact Hs|exact Hg|apply Hsm| |].
      * destruct Hold as [Hby _]. apply lookup_lt_Some in Hby. unfold next_section. lia.
      * apply (Hk (small_before _ _ _ Hs Hg Ho Hsm)). by exists w, w', acts'.
    + apply (Hsend Hsm). rewrite Hacts in Ha. by apply app_inv_head in Ha as ->.
  - intros tx m Hin. rewrite Hacts in Hin. apply elem_of_app in Hin as [Hin|Hin].
    + destruct (Hlog tx m Hin) as (t0 & k & Hsent). exists t0, k. by eapply sent_later.
    + exists t, (next_section s), (sv_world s), (sv_world s'), acts.
      split; [by apply section_now|done].
  - intros Hb j w w' Hj Hj'. rewrite (sg_past _ _ _ Hg) in Hj, Hj'.
    apply lookup_snoc_Some in Hj' as [[Hlt Hj']|[Heq <-]].
    + rewrite lookup_app_l in Hj by lia.
      apply (Hpast (bounded_before _ _ _ Ho Hb) j); done.
    + rewrite lookup_app_l in Hj by lia. pose proof (present s (proj1 Hs)) as Hnow.
      rewrite <- Heq in Hnow. replace (S j - 1) with j in Hnow by lia. simplify_eq.
      split; [by apply Ho|]. intros r st Hst.
      destruct (og_rooms _ _ _ Ho Hb r st Hst) as (st' & ? & [? ? _ _]). by exists st'.
Qed.

Abbreviation keeps_step t L p Q := (keeps sound step_guar (fun _ => kept) t L p Q).
Abbreviation keeps_world t L p Q := (keeps world_wf own_guar (one_place (fun _ => false)) t L p Q).

(** What a task knows of the world and of the server. *)
Record state (L : World -> Prop) (X : Server -> Prop) (s : Server) : Prop := {
  ss_kept : kept s;
  ss_world : L (sv_world s);
  ss_extra : X s;
}.

(** The other tasks keep [X], given [L]. *)
Definition kept_by_others (t : nat) (L : World -> Prop) (X : Server -> Prop) : Prop :=
  forall t' s s', t' <> t -> step_guar t' s s' -> sound s -> sound s' ->
    L (sv_world s) -> L (sv_world s') -> X s -> X s'.

Lemma state_assertion t L X :
  stable world_wf own_guar t L -> kept_by_others t L X ->
  assertion sound step_guar (fun _ => kept) t (state L X).
Proof.
  intros HL HX. split; [|by intros s []]. intros t' s s' Hne Hg Hs Hs' [Hk Hl Hx].
  assert (Hl' : L (sv_world s')) by (eapply HL; [done|apply Hg|by apply sound_now..|done]).
  split; [exact (kept_step _ _ _ Hs Hg Hk)|done|by eapply HX].
Qed.

Definition nothing : Server -> Prop := fun _ => True.

Lemma nothing_kept t L : kept_by_others t L nothing.
Proof. done. Qed.

(** ** Programs that end no membership *)

Abbreviation quiet p := (emits (allowed (fun _ _ => True) (fun _ => False)) p (fun _ => True)).

Lemma quiet_sends t w w' s s' :
  appends (allowed (fun _ _ => True) (fun _ => False)) w w' ->
  sv_world s = w -> sv_world s' = w' -> sends_promised t s s'.
Proof.
  intros (acts & Ha & Hall) <- <-. exists acts. split; [done|]. intros _ tx m Hin.
  rewrite Forall_forall in Hall. destruct (Hall _ Hin) as [[_ Hm] _]. apply promised_plain.
  destruct (is_terminal m); [by destruct (Hm eq_refl)|done].
Qed.

(** A section that sends nothing. *)
Lemma silent_sends t s s' : sv_world s' = sv_world s -> sends_promised t s s'.
Proof.
  intros Hw. exists []. rewrite Hw, app_nil_r. split; [done|]. by intros _ tx m ?%not_elem_of_nil.
Qed.

Lemma promises_quiet {A} t (L : World -> Prop) (p : prog World A) Q :
  stable world_wf own_guar t L -> keeps_world t L p Q -> quiet p ->
  keeps_step t (state L nothing) (lift t p) (fun a => state (Q a) nothing).
Proof.
  revert L. induction p as [a|B f k IH|k IH]; intros L HL Hk He; simpl in *.
  - intros s Hs [? Hl ?]. split; [done| |done]. apply Hk; [by apply sound_now|done].
  - intros s s' b Hs Hs' [Hkept Hl _] Hf. destruct (serve_guar _ _ _ _ _ Hf) as [Hg _].
    apply serve_world in Hf.
    destruct (Hk _ _ _ (sound_now _ Hs) (sound_now _ Hs') Hl Hf) as (Ho & L' & [HL' _] & Hl' & Hk').
    destruct (He _ _ _ Hf) as [Hsends He'].
    assert (Hstep : step_guar t s s') by (split; [done|done|by eapply quiet_sends]).
    split; [done|]. exists (state L' nothing).
    split_and!; [by apply state_assertion|split; [exact (kept_step _ _ _ Hs Hstep Hkept)|done..]|by apply IH].
  - intros s s' b Hs Hs' [Hkept Hl _] Ha. pose proof (await_guar _ _ _ _ Ha) as Hg.
    apply await_world in Ha.
    assert (Hstep : step_guar t s s').
    { split; [done|rewrite Ha; by apply heap_same_guar|by apply silent_sends]. }
    split; [done|]. exists (state L nothing).
    split_and!; [by apply state_assertion|split; [exact (kept_step _ _ _ Hs Hstep Hkept)|by rewrite Ha|done]|by apply IH].
Qed.

(** ** Sections of a request *)

Lemma keeps_section {A B} t L X (f : World -> option (World * B)) (k : B -> prog World A)
    (Q : B -> World -> Prop) (X' : B -> Server -> Prop) R :
  keeps_world t L (sec f) Q -> quiet (sec f) ->
  (forall b, stable world_wf own_guar t (Q b)) -> (forall b, kept_by_others t (Q b) (X' b)) ->
  (forall s s' b, sound s -> sound s' -> step_guar t s s' -> L (sv_world s) -> Q b (sv_world s') ->
     X s -> serve t f s = Some (s', b) -> X' b s') ->
  (forall b, keeps_step t (state (Q b) (X' b)) (lift t (k b)) R) ->
  keeps_step t (state L X) (lift t (bind (sec f) k)) R.
Proof.
  intros Hworld Hquiet HQ HX' Hnext Hk s s' b Hs Hs' [Hkept Hl Hx] Hf.
  destruct (serve_guar _ _ _ _ _ Hf) as [Hg _]. apply serve_world in Hf as Hfw.
  destruct (keeps_sec_inv _ _ _ _ _ _ _ _ _ _ Hworld (sound_now _ Hs) (sound_now _ Hs') Hl Hfw)
    as [Ho Hq].
  destruct (Hquiet _ _ _ Hfw) as [Hsends _].
  assert (Hstep : step_guar t s s') by (split; [done|done|by eapply quiet_sends]).
  split; [done|]. exists (state (Q b) (X' b)).
  split_and!; [by apply state_assertion| |apply Hk].
  split; [exact (kept_step _ _ _ Hs Hstep Hkept)|done|apply (Hnext s s' b); assumption].
Qed.

Lemma keeps_answer {A} t L X (k : bool -> prog World A) (X' : bool -> Server -> Prop) R :
  stable world_wf own_guar t L -> (forall b, kept_by_others t L (X' b)) ->
  (forall s s' b, sound s -> sound s' -> step_guar t s s' -> L (sv_world s') -> X s ->
     await t s = Some (s', b) -> X' b s') ->
  (forall b, keeps_step t (state L (X' b)) (lift t (k b)) R) ->
  keeps_step t (state L X) (lift t (Ask k)) R.
Proof.
  intros HL HX' Hnext Hk s s' b Hs Hs' [Hkept Hl Hx] Ha.
  pose proof (await_guar _ _ _ _ Ha) as Hg. apply await_world in Ha as Hw.
  assert (Hstep : step_guar t s s').
  { split; [done|rewrite Hw; by apply heap_same_guar|by apply silent_sends]. }
  split; [done|]. exists (state L (X' b)). split_and!; [by apply state_assertion| |apply Hk].
  rewrite <- Hw in Hl. split; [exact (kept_step _ _ _ Hs Hstep Hkept)|done|].
  apply (Hnext s s' b); assumption.
Qed.

Lemma keeps_return {A} t L X (a : A) (Q : A -> Server -> Prop) :
  (forall s, sound s -> state L X s -> Q a s) -> keeps_step t (state L X) (lift t (Ret a)) Q.
Proof. done. Qed.

(** ** Asking for a durable write *)

(** The request that [t] waits for is due a capture younger than [b]. *)
Definition asked (t b : nat) (s : Server) : Prop :=
  exists tk, sv_ticket s !! t = Some tk /\ tk < sv_next_ticket s
    /\ forall d, mb_due (sv_mail s) !! tk = Some d -> (N.of_nat b < d)%N.

Lemma asked_kept t b t' s s' :
  t' <> t -> server_guar t' s s' -> asked t b s -> asked t b s'.
Proof.
  intros Hne Hg (tk & Htk & Hlt & Hdue). exists tk. split_and!.
  - rewrite (sg_ticket _ _ _ Hg); done.
  - pose proof (sg_next _ _ _ Hg). lia.
  - intros d. rewrite (sg_due _ _ _ Hg) by done. apply Hdue.
Qed.

Lemma terminal_asked t b s s' u :
  served s -> (N.of_nat b <= moment s)%N -> serve t (perform Terminal) s = Some (s', u) ->
  asked t b s'.
Proof.
  intros Hs Hb. unfold serve, perform. cbn [set_actions w_actions].
  rewrite drop_app_length. cbn [foldl deliver]. intros [= <- _].
  exists (sv_next_ticket s). cbn [request advance sv_ticket sv_next_ticket sv_mail].
  rewrite lookup_insert_eq. split_and!; [done|lia|]. intros d. unfold send.
  destruct (wr_stopped _).
  - cbn [fst]. intros Hd. assert (sv_next_ticket s < sv_next_ticket s); [|lia].
    apply (sd_fresh _ Hs). by eexists.
  - cbn [fst mb_due ticket]. rewrite lookup_insert_eq. intros [= <-]. unfold mutation_at. simpl. lia.
Qed.

(** The answer [Ok] says that the capture is in the file. *)
Lemma answered_durable t b s s' :
  served s -> (moment s < u64_modulus)%N -> asked t b s -> await t s = Some (s', true) ->
  durable_since s b /\ sv_mail s' = sv_mail s.
Proof.
  intros Hs Hm (tk & Htk & _ & Hdue). unfold await, Mailbox.record_terminal_mutation.
  rewrite Htk. destruct (mb_answers (sv_mail s) !! tk) as [res|] eqn:Hans.
  2: { repeat case_match; intros; by simplify_eq/=. }
  intros [= <- Hok]. destruct res as [[]|]; [|done]. split; [|done].
  pose proof (sd_mail _ Hs Hm) as Hmail.
  destruct (mo_answers _ _ Hmail tk) as [d Hd]; [by eexists|].
  pose proof (mo_answered _ _ Hmail tk d Hans Hd). specialize (Hdue d Hd).
  unfold durable_since. lia.
Qed.

(** A request that has been answered. *)
Definition answered (b : nat) (ok : bool) (s : Server) : Prop :=
  ok = true -> (moment s < u64_modulus)%N -> durable_since s b.

Lemma answered_kept b ok t s s' :
  sound s -> server_guar t s s' -> answered b ok s -> answered b ok s'.
Proof.
  intros Hs Hg Ha Hok Hm. eapply durable_later; [done|done|done|]. apply Ha; [done|].
  destruct Hs as [Hs _]. pose proof (moment_next _ _ _ Hs (sg_past _ _ _ Hg)). lia.
Qed.

Lemma await_answered t b s s' ok :
  sound s -> server_guar t s s' -> asked t b s -> await t s = Some (s', ok) -> answered b ok s'.
Proof.
  intros Hs Hg Hask Ha -> Hm. pose proof Hs as [Hsd _].
  pose proof (moment_next _ _ _ Hsd (sg_past _ _ _ Hg)).
  destruct (answered_durable t b s s' Hsd ltac:(lia) Hask Ha) as [Hd Hmail].
  unfold durable_since in *. by rewrite Hmail.
Qed.

(** ** The end of a membership *)

(** A [leave] that began at [b]: the connection's entry, as long as it is
    there, has been pending ever since, unless the room has closed. *)
Definition leaving (t r : nat) (id : string) (c : N) (b : nat) (s : Server) : Prop :=
  b < next_section s
  /\ (bounded (sv_world s) -> exists st, w_heap (sv_world s) !! r = Some st
        /\ (c < next_conn_id st)%N /\ began_leave s t (session_id st) id r c b
        /\ forall p, peers st !! id = Some p -> cp_conn_id p = c ->
             forall j, b < j <= next_section s -> releasing s (session_id st) id r j).

Lemma section_length t s s' : server_guar t s s' -> next_section s' = S (next_section s).
Proof. intros Hg. unfold next_section. rewrite (sg_by _ _ _ Hg), length_app. simpl. lia. Qed.

(** The state after a section. *)
Lemma state_next t s s' r st :
  sound s -> server_guar t s s' -> w_heap (sv_world s') !! r = Some st ->
  state_at s' (next_section s') r st.
Proof.
  intros Hs Hg Hst. destruct (section_now t s s' Hs Hg) as (_ & _ & Hnow). exists (sv_world s').
  by rewrite (section_length t s s').
Qed.

Lemma leaving_kept t t' r id c b s s' :
  sound s -> step_guar t' s s' -> owns t false (Some (r, id, c)) true (sv_world s') ->
  leaving t r id c b s -> leaving t r id c b s'.
Proof.
  intros Hs [Hg Ho _] Howns [Hb Hleave]. pose proof (section_length _ _ _ Hg) as Hlen.
  split; [lia|]. intros Hbound. pose proof (bounded_before _ _ _ Ho Hbound) as Hbound0.
  destruct (Hleave Hbound0) as (st & Hst & Hc & Hbegan & Hall).
  destruct (og_rooms _ _ _ Ho Hbound r st Hst) as (st' & Hst' & [Hsid Hclose Hnext Hpeers]).
  exists st'. split_and!; [done|lia|rewrite Hsid; by eapply began_leave_later|]. rewrite Hsid.
  intros p Hp Hconn j Hj. destruct (Hpeers id p Hp) as [[Hp0 _]|[_ Hnew]]; [|lia].
  destruct (decide (j = next_section s')) as [->|Hj'].
  - exists st'. split_and!; [by eapply state_next|done|].
    destruct (closing st') eqn:Hcl; [by left|right].
    destruct (Howns Hbound) as [Hplace _]. destruct (Hplace r st' Hst') as [_ Hmine].
    destruct (Hmine id c eq_refl Hcl) as [_ Hent]. by destruct (Hent id p Hp Hconn) as [_ Hpend]; auto.
  - eapply releasing_later; [exact Hg|]. apply (Hall p); [done..|lia].
Qed.

(** A section on a room, as the past has it. *)
Lemma room_section_now {B} t s s' r (g : RoomState -> RoomState * B) b st :
  sound s -> server_guar t s s' -> w_heap (sv_world s) !! r = Some st ->
  with_room r g (sv_world s) = Some (sv_world s', b) ->
  room_section s' t (next_section s) r st (g st).1 /\ (g st).2 = b
  /\ w_heap (sv_world s') !! r = Some (g st).1.
Proof.
  intros Hs Hg Hst Hf. unfold with_room in Hf. rewrite Hst in Hf. destruct (g st) as [st' b'].
  injection Hf as Hw ->. split_and!; [|done|].
  - exists (sv_world s), (sv_world s'). split_and!; [by apply section_now|done|by rewrite <- Hw].
  - rewrite <- Hw. apply lookup_insert_eq.
Qed.

(** The entry of a connection that knows its place. *)
Lemma own_entry t r id c w st p :
  owns t false (Some (r, id, c)) false w -> bounded w -> w_heap w !! r = Some st ->
  closing st = false -> peers st !! id = Some p -> cp_conn_id p = c -> cp_tx p = t.
Proof.
  intros Howns Hb Hst Hc Hp Hconn. destruct (Howns Hb) as [Hplace _].
  destruct (Hplace r st Hst) as [_ Hmine]. destruct (Hmine id c eq_refl Hc) as [_ Hent].
  by destruct (Hent id p Hp Hconn).
Qed.

Lemma begin_leaving t r id c token v s s' u :
  sound s -> sound s' -> step_guar t s s' -> owns t false (Some (r, id, c)) false (sv_world s) ->
  with_room r (fun st => begin_leave st id c token v) (sv_world s) = Some (sv_world s', Ok u) ->
  leaving t r id c (next_section s) s'.
Proof.
  intros Hs Hs' [Hg Ho _] Howns Hf. pose proof (section_length _ _ _ Hg) as Hlen.
  split; [lia|]. intros Hb. pose proof (bounded_before _ _ _ Ho Hb) as Hb0.
  destruct (w_heap (sv_world s) !! r) as [st|] eqn:Hst; [|unfold with_room in Hf; by rewrite Hst in Hf].
  destruct (room_section_now t s s' r _ _ st Hs Hg Hst Hf) as (Hsec & Hok & Hst'). destruct u.
  pose proof (begin_leave_Ok st id c token v Hok) as (Hc & Hconn & _).
  pose proof (session_id_apply st (EvBeginLeave id c token v)) as Hsid. cbn [room_apply] in Hsid.
  destruct (begin_leave_current st id c token v (begin_leave st id c token v).1) as [Hcur Hpend].
  { by rewrite (surjective_pairing (begin_leave st id c token v)), Hok. }
  destruct (wf_heap _ (sound_now _ Hs') Hb r _ Hst') as [Hwf _].
  apply is_current_conn_of in Hcur. unfold conn_of in Hcur, Hconn.
  destruct (peers st !! id) as [p|] eqn:Hp; [|done]. injection Hconn as Hconn.
  destruct (peers (begin_leave st id c token v).1 !! id) as [q|] eqn:Hq; [|done]. injection Hcur as Hcur.
  eexists. split_and!; [exact Hst'| | |].
  - pose proof (wf_conn_lt _ _ _ _ Hwf id q Hq). lia.
  - exists st, token, v, p. split_and!; try done. by eapply own_entry.
  - intros p' Hp' Hconn' j Hj. assert (j = next_section s') as -> by lia.
    exists (begin_leave st id c token v).1.
    split_and!; [by apply (state_next t s)|done|by right].
Qed.

Lemma finish_unnamed st id c now :
  room_wf st -> conn_of st id = Some c -> pending st id = true ->
  unnamed id (finish_leave st id c true now).1.
Proof.
  intros Hwf Hcur Hp. rewrite finish_leave_current by done. cbn [fst]. unfold unnamed. room_cbn.
  destruct (closing st); [by left|right]. split; [by rewrite lookup_delete_eq|].
  intros <-. by rewrite host_not_pending in Hp.
Qed.

(** ** Sending *)

Definition sends (m : ServerMessage) (txs : list Sender) : list Action :=
  (fun tx => TrySend tx m) <$> txs.

Abbreviation plain := (allowed (fun _ _ => True) (fun _ => False)).

(** What task [t] may send next: one message on some channels, as it is
    promised, and then what promises nothing. *)
Definition sendables (t : nat) (l : list Action) (s : Server) : Prop :=
  small s -> exists m txs rest, l = sends m txs ++ rest /\ Forall plain rest
    /\ forall tx, tx ∈ txs -> promised s t (next_section s) tx m.

Definition sendable (t : nat) (e : Effects) (s : Server) : Prop := sendables t (effect_actions t e) s.

Lemma sendables_kept t t' l s s' :
  t' <> t -> sound s -> step_guar t' s s' -> sendables t l s -> sendables t l s'.
Proof.
  intros Hne Hs [Hg Ho _] Hse Hsm.
  destruct (Hse (small_before _ _ _ Hs Hg Ho Hsm)) as (m & txs & rest & -> & Hrest & Hall).
  exists m, txs, rest. split_and!; [done..|]. intros tx Htx.
  eapply promised_next; [exact Hs|exact Hg|apply Hsm|congruence|auto].
Qed.

Lemma plain_sendable t e s :
  effects_conform (fun _ => True) (fun _ => False) e -> sendable t e s.
Proof.
  intros He _. exists (into_message InvalidMessage ""), [], (effect_actions t e).
  split_and!; [done| |by intros tx ?%not_elem_of_nil]. by eapply allowed_effects.
Qed.

Lemma plain_promised s t k tx m : plain (TrySend tx m) -> promised s t k tx m.
Proof.
  intros [[_ Hm] _]. apply promised_plain. destruct (is_terminal m); [by destruct (Hm eq_refl)|done].
Qed.

Lemma finish_leaving t r id c persisted now b s s' e :
  sound s -> sound s' -> step_guar t s s' -> leaving t r id c b s -> answered b persisted s ->
  with_room r (fun st => finish_leave st id c persisted now) (sv_world s) = Some (sv_world s', e) ->
  sendable t e s'.
Proof.
  intros Hs Hs' [Hg Ho _] [Hb Hleave] Hans Hf Hsm.
  pose proof (small_before _ _ _ Hs Hg Ho Hsm) as [Hm Hbound].
  destruct (Hleave Hbound) as (st & Hst & _ & Hbegan & Hall).
  destruct (room_section_now t s s' r _ _ st Hs Hg Hst Hf) as (Hsec & He & _).
  destruct (decide (persisted = true /\ conn_of st id = Some c /\ pending st id = true)) as [(-> & Hc & Hp)|Hno].
  2: { apply plain_sendable; [|done]. rewrite <- He. unfold finish_leave.
       change (match reservations st !! id with Some r => pr_release_pending r | None => false end)
         with (pending st id).
       destruct (is_current st id c) eqn:Hcur; [|by apply conform_none].
       destruct (pending st id) eqn:Hp; [|by apply conform_none].
       destruct persisted; [|apply conform_error]. by destruct Hno; split_and!; [|apply is_current_conn_of|]. }
  destruct (wf_heap _ (sound_now _ Hs) Hbound r st Hst) as [Hwf _].
  pose proof Hc as Hc'. unfold conn_of in Hc'.
  destruct (peers st !! id) as [p|] eqn:Hpeer; [|done]. injection Hc' as Hconn.
  rewrite finish_leave_current in He by done. cbn [snd] in He. rewrite <- He.
  exists (left_reply (session_id st) id), [t], (effect_actions t (push_broadcast
    {| eff_reply := None; eff_broadcast := []; eff_evict := []; eff_dirty := true;
       eff_assigned_conn_id := None; eff_assigned_cancel := None |} (eff_broadcast e))).
  split_and!; [by rewrite <- He| |].
  - apply (allowed_effects _ _ t (fun _ => True)); [|done]. apply conform_push; [by apply conform_none|].
    rewrite <- He. cbn [eff_broadcast]. apply Forall_app. split.
    + apply Forall_fmap, Forall_true. intros kp. by split; [apply fits_plain|].
    + apply (ec_broadcast (fun _ => True)). apply conform_eligibility. by apply conform_none.
  - intros tx ->%list_elem_of_singleton. split; [|by intros sid [=]]. intros sid id' [= <- <-].
    split; [done|]. exists r, c, b, (next_section s). split.
    + split.
      * by eapply began_leave_later.
      * split; [done|]. intros j Hj. eapply releasing_later; [exact Hg|]. by apply (Hall p).
      * exists st, now. split_and!; [exact Hsec|done|done|].
        by apply finish_unnamed.
      * eapply durable_later; [exact Hs|exact Hg|apply Hsm|by apply Hans].
    + rewrite (section_length _ _ _ Hg). split; [lia|]. intros j Hj. lia.
Qed.

(** ** The programs *)

Lemma keeps_lift_bind {A B} t L (p : prog World A) (k : A -> prog World B) Q R :
  keeps_step t L (lift t p) Q -> (forall a, keeps_step t (Q a) (lift t (k a)) R) ->
  keeps_step t L (lift t (bind p k)) R.
Proof.
  intros Hp Hk. revert L Hp. induction p as [a|C f k' IH|k' IH]; intros L Hp; cbn [bind lift] in *.
  - eapply keeps_weaken; [|done|apply Hk]. intros s Hs Hl. by apply Hp.
  - intros s s' b Hs Hs' Hl Hf. destruct (Hp s s' b Hs Hs' Hl Hf) as (? & L' & ? & ? & ?).
    split; [done|]. exists L'. split_and!; [done..|]. by apply IH.
  - intros s s' b Hs Hs' Hl Hf. destruct (Hp s s' b Hs Hs' Hl Hf) as (? & L' & ? & ? & ?).
    split; [done|]. exists L'. split_and!; [done..|]. by apply IH.
Qed.

Abbreviation owner t m leaving := (owns t false m leaving).

Lemma keeps_perform_all t m l :
  keeps_step t (state (owner t m false) (sendables t l)) (lift t (perform_all l))
    (fun _ => state (owner t m false) nothing).
Proof.
  induction l as [|a l IH]; [by intros s Hs []|].
  intros s s' b Hs Hs' [Hkept Hl Hx] Hf.
  destruct (serve_guar _ _ _ _ _ Hf) as [Hg _]. apply serve_world in Hf.
  destruct (keeps_sec_inv _ _ _ _ _ _ _ _ _ _ (own_perform (fun _ => false) t m false a)
    (sound_now _ Hs) (sound_now _ Hs') Hl Hf) as [Ho Hl'].
  injection Hf as Hw.
  assert (Hacts : w_actions (sv_world s') = w_actions (sv_world s) ++ [a]) by (by rewrite <- Hw).
  assert (Hsend : small s' ->
    (forall tx m', a = TrySend tx m' -> promised s' t (next_section s) tx m')
    /\ exists m' txs rest, l = sends m' txs ++ rest /\ Forall plain rest
         /\ forall tx, tx ∈ txs -> promised s' t (next_section s') tx m').
  { intros Hsm. destruct (Hx (small_before _ _ _ Hs Hg Ho Hsm)) as (m' & [|tx txs] & rest & Hl0 & Hrest & Hall).
    - cbn [sends fmap list_fmap app] in Hl0. subst rest. apply Forall_cons in Hrest as [Ha Hrest].
      split; [intros tx m2 ->; by apply plain_promised|].
      exists m', [], l. split_and!; [done..|]. by intros tx ?%not_elem_of_nil.
    - cbn [sends fmap list_fmap app] in Hl0. injection Hl0 as Ha ->. split.
      + intros tx' m2 Ha'. rewrite Ha in Ha'. injection Ha' as <- <-. eapply promised_later; [exact Hs|exact Hg|apply Hsm|done|].
        apply Hall. by left.
      + exists m', txs, rest. split_and!; [done..|]. intros tx' Htx'.
        eapply promised_next; [exact Hs|exact Hg|apply Hsm| |apply Hall; by right].
        intros _. exists tx, (sv_world s), (sv_world s'), [a].
        split_and!; [by apply section_now|done|]. rewrite Ha. by left. }
  assert (Hstep : step_guar t s s').
  { split; [done..|]. exists [a]. split; [done|]. intros Hsm tx m' Hin%list_elem_of_singleton.
    by apply (Hsend Hsm). }
  split; [done|]. exists (state (owner t m false) (sendables t l)). split_and!; [| |exact IH].
  - apply state_assertion; [apply owns_stable|]. intros t' s1 s2 Hne Hst Hs1 _ _ _.
    by apply (sendables_kept t t').
  - split; [exact (kept_step _ _ _ Hs Hstep Hkept)|done|]. intros Hsm. apply (Hsend Hsm).
Qed.

Abbreviation conn_state t c := (state (owner t (membership c) false) nothing).

Lemma keeps_apply t m e c :
  membership c = m ->
  keeps_step t (state (owner t m false) (sendable t e)) (lift t (apply_effects t e ;! Ret c))
    (fun c => conn_state t c).
Proof.
  intros <-. apply (keeps_lift_bind _ _ _ _ (fun _ => conn_state t c)); [|by intros ? s].
  apply keeps_perform_all.
Qed.

(** Waiting for the writer. *)
Lemma keeps_terminal {A} t L X (k : bool -> prog World A) R :
  keeps_world t L (sec (perform Terminal)) (fun _ => L) -> stable world_wf own_guar t L ->
  (forall b t' s s', step_guar t' s s' -> sound s -> L (sv_world s') -> X b s -> X b s') ->
  (forall b s, X b s -> b < next_section s) ->
  (forall ok, keeps_step t (state L (fun s => exists b, X b s /\ answered b ok s)) (lift t (k ok)) R) ->
  keeps_step t (state L (fun s => exists b, X b s))
    (lift t (bind record_terminal_mutation k)) R.
Proof.
  intros Hworld HL HX Hb Hk.
  change (bind record_terminal_mutation k) with (bind (sec (perform Terminal)) (fun _ => Ask k)).
  apply (keeps_section _ _ _ _ _ (fun _ => L) (fun _ s => exists b, X b s /\ asked t b s));
    [done|by apply emits_perform|done| | |intros _].
  - intros _ t' s s' Hne Hst Hs _ _ Hl' (b & Hx & Ha). exists b.
    split; [exact (HX b _ _ _ Hst Hs Hl' Hx)|]. eapply asked_kept; [exact Hne|apply Hst|done].
  - intros s s' u Hs Hs' Hst Hl Hl' (b & Hx) Hf. exists b. split; [exact (HX b _ _ _ Hst Hs Hl' Hx)|].
    eapply terminal_asked; [apply Hs| |exact Hf]. specialize (Hb b s Hx). unfold next_section in Hb.
    unfold moment. rewrite (sd_by _ (proj1 Hs)). lia.
  - apply (keeps_answer _ _ _ _ (fun ok s => exists b, X b s /\ answered b ok s)); [done| | |exact Hk].
    + intros ok t' s s' Hne Hst Hs _ _ Hl' (b & Hx & Ha). exists b.
      split; [exact (HX b _ _ _ Hst Hs Hl' Hx)|]. eapply answered_kept; [exact Hs|apply Hst|done].
    + intros s s' ok Hs Hs' Hst Hl' (b & Hx & Ha) Hf. exists b. split; [exact (HX b _ _ _ Hst Hs Hl' Hx)|].
      eapply await_answered; [exact Hs|apply Hst|exact Ha|exact Hf].
Qed.

Lemma keeps_leave t r id c token v now :
  keeps_step t (state (owner t (Some (r, id, c)) false) nothing) (lift t (leave r id c token v now))
    (fun e => state (owner t (if failed e then Some (r, id, c) else None) false) (sendable t e)).
Proof.
  unfold leave. apply (keeps_section _ _ _ _ _
    (fun b => owner t (leaving_place r id c b) (is_ok b))
    (fun b s => match b with Ok _ => exists b, leaving t r id c b s | Err e => sendable t e s end)).
  - apply (own_begin_leave (fun _ => false)).
  - by apply emits_room.
  - intros b. apply owns_stable.
  - intros [u|e] t' s s' Hne Hst Hs _ _ Hl'; [intros [b Hb]; exists b|by apply (sendables_kept t t')].
    by eapply leaving_kept.
  - intros s s' [u|e] Hs Hs' Hst Hl _ _ Hf; apply serve_world in Hf.
    + eexists. eapply begin_leaving; [exact Hs|exact Hs'|exact Hst|exact Hl|exact Hf].
    + apply plain_sendable. unfold with_room in Hf. destruct (_ !! r) as [st|]; [|done].
      pose proof (begin_leave_conforms (fun _ => True) (fun _ => False) st id c token v e) as Hc.
      destruct (begin_leave st id c token v) as [st' b']. injection Hf as _ ->. by apply Hc.
  - intros [u|e]; [|by intros s Hs]. cbn [is_ok leaving_place].
    apply (keeps_terminal _ _ (fun b => leaving t r id c b));
      [apply (own_perform (fun _ => false))|apply owns_stable|..].
    + intros b t' s s' Hst Hs Hl'. by eapply leaving_kept.
    + by intros b s [? _].
    + intros ok. change (sec ?f) with (bind (sec f) Ret).
      apply (keeps_section _ _ _ _ _ (fun e => owner t (if failed e then Some (r, id, c) else None) false)
               (sendable t)); [apply (own_finish_leave (fun _ => false))|by apply emits_room| | | |by intros e s Hs].
      * intros e. apply owns_stable.
      * intros e t' s s' Hne Hst Hs _ _ _. by apply (sendables_kept t t').
      * intros s s' e Hs Hs' Hst _ _ (b & Hb & Ha) Hf. apply serve_world in Hf.
        apply (finish_leaving t r id c ok now b s s' e); assumption.
Qed.

(** An [endSession] that began at [b]. *)
Definition ending (t r : nat) (gs : list Sender) (b : nat) (s : Server) : Prop :=
  b < next_section s
  /\ (bounded (sv_world s) -> exists st, w_heap (sv_world s) !! r = Some st
        /\ began_end s t (session_id st) gs r b).

Lemma ending_kept t t' r gs b s s' : step_guar t' s s' -> ending t r gs b s -> ending t r gs b s'.
Proof.
  intros [Hg Ho _] [Hb Hend]. pose proof (section_length _ _ _ Hg). split; [lia|]. intros Hbound.
  destruct (Hend (bounded_before _ _ _ Ho Hbound)) as (st & Hst & Hbegan).
  destruct (og_rooms _ _ _ Ho Hbound r st Hst) as (st' & Hst' & Hrg). exists st'. split; [done|].
  rewrite (rg_session_id _ _ _ Hrg). by eapply began_end_later.
Qed.

Lemma begin_end_Ok st id c token v x :
  (begin_end_session st id c token v).2 = Ok x ->
  closing st = false /\ id = host_peer_id st /\ conn_of st id = Some c.
Proof.
  unfold begin_end_session. destruct (_ || _) eqn:Hg; [done|]. intros _.
  apply orb_false_iff in Hg as [[Hc Hh]%orb_false_iff _]. apply negb_false_iff, andb_true_iff in Hh as [Hid Hcur].
  to_prop. split_and!; [done..|]. by apply is_current_conn_of.
Qed.

Lemma begin_end_closes st id c token v x :
  (begin_end_session st id c token v).2 = Ok x -> closing (begin_end_session st id c token v).1 = true.
Proof. unfold begin_end_session. by repeat case_match. Qed.

Lemma begin_ending t r id c token v s s' owner gs :
  sound s -> step_guar t s s' -> owns t false (Some (r, id, c)) false (sv_world s) ->
  with_room r (fun st => begin_end_session st id c token v) (sv_world s)
    = Some (sv_world s', Ok (owner, gs)) ->
  ending t r gs (next_section s) s'.
Proof.
  intros Hs [Hg Ho _] Howns Hf. pose proof (section_length _ _ _ Hg) as Hlen.
  split; [lia|]. intros Hb. pose proof (bounded_before _ _ _ Ho Hb) as Hb0.
  destruct (w_heap (sv_world s) !! r) as [st|] eqn:Hst; [|unfold with_room in Hf; by rewrite Hst in Hf].
  destruct (room_section_now t s s' r _ _ st Hs Hg Hst Hf) as (Hsec & Hok & Hst').
  destruct (begin_end_Ok _ _ _ _ _ _ Hok) as (Hc & -> & Hconn).
  pose proof (session_id_apply st (EvBeginEnd (host_peer_id st) c token v)) as Hsid. cbn [room_apply] in Hsid.
  unfold conn_of in Hconn. destruct (peers st !! host_peer_id st) as [p|] eqn:Hp; [|done].
  injection Hconn as Hconn. eexists. split; [exact Hst'|].
  exists st, c, token, v, owner, p. split_and!; try done. by eapply own_entry.
Qed.

Lemma finish_ending t r gs persisted b s s' e :
  sound s -> step_guar t s s' -> ending t r gs b s -> answered b persisted s ->
  with_room r (fun st => finish_end_session st gs persisted) (sv_world s) = Some (sv_world s', e) ->
  sendable t e s'.
Proof.
  intros Hs [Hg Ho _] [Hb Hend] Hans Hf Hsm.
  pose proof (small_before _ _ _ Hs Hg Ho Hsm) as [Hm Hbound].
  destruct (Hend Hbound) as (st & Hst & Hbegan).
  destruct (room_section_now t s s' r _ _ st Hs Hg Hst Hf) as (Hsec & He & _).
  destruct persisted.
  2: { apply plain_sendable; [|done]. rewrite <- He. by apply finish_end_conforms. }
  rewrite <- He. unfold finish_end_session. cbn [negb snd].
  exists (ended_message (session_id st)), (t :: gs), (Cancel <$> (cp_cancel <$> hm_values (peers st))).
  split_and!.
  - unfold effect_actions, sends. cbn [eff_reply eff_broadcast eff_evict eff_dirty].
    rewrite app_nil_r, <- !list_fmap_compose. by rewrite app_assoc.
  - apply Forall_fmap, Forall_true. by intros.
  - intros tx Htx. split; [by intros sid id [=]|]. intros sid [= <-].
    exists gs, r, b, (next_section s). split_and!; [done| |].
    + split; [by eapply began_end_later| |eapply durable_later; [exact Hs|exact Hg|apply Hsm|by apply Hans]].
      split; [done|]. by exists st.
    + rewrite (section_length _ _ _ Hg). split; [lia|]. intros j Hj. lia.
Qed.

(** A section that need not be watched. *)
Lemma keeps_unwatched {A B} t L X (f : World -> option (World * B)) (k : B -> prog World A) R :
  keeps_world t L (sec f) (fun _ => L) -> quiet (sec f) -> stable world_wf own_guar t L ->
  (forall t' s s', step_guar t' s s' -> X s -> X s') ->
  (forall b, keeps_step t (state L X) (lift t (k b)) R) ->
  keeps_step t (state L X) (lift t (bind (sec f) k)) R.
Proof.
  intros Hworld Hquiet HL HX Hk.
  apply (keeps_section _ _ _ _ _ (fun _ => L) (fun _ => X)); [done|done|done| | |exact Hk].
  - intros _ t' s s' _ Hst _ _ _ _. by apply (HX t').
  - intros s s' _ _ _ Hst _ _ Hx _. by apply (HX t s).
Qed.

Lemma owner_nowhere t m w : owner t m false w -> owner t None false w.
Proof. intros Hl Hb. destruct (Hl Hb) as [Hall _]. split; [|done]. intros r st Hst. by split. Qed.

Lemma keeps_end_session t r id c token v :
  keeps_step t (state (owner t (Some (r, id, c)) false) nothing) (lift t (end_session r id c token v))
    (fun e => state (owner t None false) (sendable t e)).
Proof.
  assert (Hev : forall {B} ev (g : RoomState -> RoomState * B), quiet_event ev = true ->
    (forall id' c persisted now, ev <> EvFinishLeave id' c persisted now) ->
    (forall st, (g st).1 = room_apply st ev) ->
    keeps_world t (owner t None false) (sec (with_room r g)) (fun _ => owner t None false)).
  { intros B ev g. apply (own_event (fun _ => false)), within_none. }
  assert (Hend : forall gs b t' s s', step_guar t' s s' -> ending t r gs b s -> ending t r gs b s')
    by (intros gs b t' s s'; apply ending_kept).
  unfold end_session. apply (keeps_section _ _ _ _ _ (fun _ => owner t None false)
    (fun b s => match b with Ok (_, gs) => exists b, ending t r gs b s | Err e => sendable t e s end)).
  - eapply keeps_weaken; [intros w _; apply owner_nowhere|intros ? w _ Hw; exact Hw|].
    by apply (Hev _ (EvBeginEnd id c token v)).
  - by apply emits_room.
  - intros b. apply owns_stable.
  - intros [[owner gs]|e] t' s s' Hne Hst Hs _ _ _; [intros [b Hb]; exists b; by eapply Hend|
      by apply (sendables_kept t t')].
  - intros s s' [[owner gs]|e] Hs Hs' Hst Hl _ _ Hf; apply serve_world in Hf.
    + eexists. eapply begin_ending; [exact Hs|exact Hst|exact Hl|exact Hf].
    + apply plain_sendable. unfold with_room in Hf. destruct (_ !! r) as [st|]; [|done].
      pose proof (begin_end_conforms (fun _ => True) (fun _ => False) st id c token v e) as Hc.
      destruct (begin_end_session st id c token v) as [st' b']. injection Hf as _ ->. by apply Hc.
  - intros [[owner gs]|e]; [|by intros s Hs].
    assert (Hex : forall t' s s', step_guar t' s s' ->
      (exists b, ending t r gs b s) -> exists b, ending t r gs b s')
      by (intros t' s s' Hst [b Hb]; exists b; by eapply Hend).
    apply keeps_unwatched; [by apply (own_rooms (fun _ => false)); intros; apply remove_entry_quiet_heap|
      by apply emits_rooms; intros w; rewrite remove_entry_quiet|apply owns_stable|exact Hex|].
    intros _. apply keeps_unwatched; [apply (own_quota (fun _ => false))|apply emits_quota|
      apply owns_stable|exact Hex|]. intros _.
    apply (keeps_terminal _ _ (fun b => ending t r gs b)); [apply (own_perform (fun _ => false))|apply owns_stable| | |].
    + intros b t' s s' Hst _ _. by apply (Hend gs b t').
    + by intros b s [? _].
    + intros ok. change (sec ?f) with (bind (sec f) Ret).
      apply (keeps_section _ _ _ _ _ (fun _ => owns t false None false) (sendable t));
        [by apply (Hev _ (EvFinishEnd gs ok))|by apply emits_room| | | |by intros e s Hs].
      * intros e. apply owns_stable.
      * intros e t' s s' Hne Hst Hs _ _ _. by apply (sendables_kept t t').
      * intros s s' e Hs _ Hst _ _ (b & Hb & Ha) Hf. apply serve_world in Hf.
        apply (finish_ending t r gs ok b s s' e); assumption.
Qed.

(** ** Connections *)

Lemma handle_message_leave t tx ip_key ck msg c :
  cm_msg_type msg = client_type.LEAVE ->
  handle_message t tx ip_key ck msg c = in_room tx c (handle_leave tx ck msg c).
Proof. intros Hty. unfold handle_message. by rewrite Hty. Qed.

Lemma handle_message_end t tx ip_key ck msg c :
  cm_msg_type msg = client_type.END_SESSION ->
  handle_message t tx ip_key ck msg c = in_room tx c (handle_end_session tx msg c).
Proof. intros Hty. unfold handle_message. by rewrite Hty. Qed.

Lemma keeps_refuse t c err text :
  keeps_step t (conn_state t c) (lift t (refuse t c (into_message err text))) (fun c => conn_state t c).
Proof.
  apply promises_quiet; [apply owns_stable|apply (own_refuse (fun _ => false))|apply emits_refuse_error].
Qed.

Lemma keeps_handle_leave t ck msg c room :
  current_room c = Some room ->
  keeps_step t (conn_state t c) (lift t (handle_leave t ck msg c room)) (fun c => conn_state t c).
Proof.
  intros Hroom. unfold handle_leave. unfold membership at 1. rewrite Hroom.
  eapply keeps_lift_bind; [apply keeps_leave|]. intros e. cbv beta zeta.
  change (match eff_reply e with Some reply => bool_decide (is_Some (sm_code reply))
                              | None => false end) with (failed e).
  apply keeps_apply. destruct (failed e); cbn [negb]; [unfold membership; by rewrite Hroom|done].
Qed.

Lemma keeps_handle_end_session t msg c room :
  current_room c = Some room ->
  keeps_step t (conn_state t c) (lift t (handle_end_session t msg c room)) (fun c => conn_state t c).
Proof.
  intros Hroom. unfold handle_end_session. unfold membership at 1. rewrite Hroom.
  eapply keeps_lift_bind; [apply keeps_end_session|]. intros e. cbv beta zeta. by apply keeps_apply.
Qed.

Lemma keeps_handle_message t ip_key ck msg c :
  keeps_step t (conn_state t c) (lift t (handle_message t t ip_key ck msg c)) (fun c => conn_state t c).
Proof.
  destruct (decide (cm_msg_type msg = client_type.LEAVE)) as [Hty|Hleave].
  { rewrite handle_message_leave by done. unfold in_room.
    destruct (current_room c) as [room|] eqn:Hroom; [by apply keeps_handle_leave|apply keeps_refuse]. }
  destruct (decide (cm_msg_type msg = client_type.END_SESSION)) as [Hty|Hend].
  { rewrite handle_message_end by done. unfold in_room.
    destruct (current_room c) as [room|] eqn:Hroom; [by apply keeps_handle_end_session|apply keeps_refuse]. }
  apply promises_quiet; [apply owns_stable|by apply (own_handle_message (fun _ => false))|].
  by apply emits_handle_message; [|intros [?|?]].
Qed.

Lemma keeps_read_loop t ip_key bucket deadline arrivals c :
  keeps_step t (conn_state t c) (lift t (read_loop t t ip_key bucket deadline arrivals c))
    (fun c => conn_state t c).
Proof.
  revert bucket deadline c.
  induction arrivals as [|a arrivals IH]; intros bucket deadline c; cbn [read_loop]; [by intros s|].
  apply (keeps_lift_bind _ _ _ _ (fun _ => conn_state t c)).
  { apply promises_quiet; [apply owns_stable| |apply emits_poll].
    apply (own_quiet (fun _ => false)). by intros w w' b [= <- _]. }
  intros cancelled. destruct (_ && _); [by intros s|].
  destruct (ar_frame a) as [len msg| | | | |]; try apply IH; try by intros s.
  destruct (_ <? _)%N; [apply IH|]. destruct (allow_at _ _) as [bucket' [|]]; cbn [negb].
  - destruct msg as [msg|]; eapply keeps_lift_bind;
      [apply keeps_handle_message|intros c'; apply IH|apply keeps_refuse|intros c'; apply IH].
  - eapply keeps_lift_bind; [apply keeps_refuse|]. intros c'. apply IH.
Qed.

Lemma keeps_finish_connection t ck c :
  keeps_step t (conn_state t c) (lift t (finish_connection t ck c)) (fun _ => kept).
Proof.
  eapply (keeps_weaken _ _ _ _ (conn_state t c) _ _ (fun _ => state (fun _ => True) nothing));
    [done|by intros ? s _ []|].
  apply (promises_quiet _ _ _ (fun _ _ => True)); [apply owns_stable| |].
  - unfold finish_connection. destruct (current_room c) as [room|] eqn:Hroom; [|done].
    destruct (_ == ""); [done|]. unfold membership. rewrite Hroom.
    eapply keeps_bind with (Q := fun _ => owner t None false).
    + apply (own_room (fun _ => false) t _ false room _ (fun _ => None) (fun _ => false));
        [by intros ? ? ? [= <-]|intros; apply within_none|].
      intros st Hwf _ Hplace. exact (disconnect_place (fun _ => false) t _ _ _ _ st _ _ Hwf Hplace).
    + intros e. apply (keeps_weaken _ _ _ _ (owner t None false) _ _ (fun _ => owner t None false));
        [done..|apply (own_perform_all (fun _ => false))].
  - unfold finish_connection. destruct (current_room c) as [r|]; [|done].
    destruct (_ == ""); [done|].
    eapply emits_bind; [apply (emits_room _ _ _ (effects_conform (fun _ => False) (fun _ => False)))|].
    + intros st. apply disconnect_conforms.
    + intros e He. apply emits_perform_all. by eapply allowed_effects.
Qed.

Lemma keeps_connection_run t ip_key opened arrivals closed :
  keeps_step t (state (owner t None false) nothing)
    (lift t (connection_run t t ip_key opened arrivals closed)) (fun _ => kept).
Proof.
  unfold connection_run. eapply keeps_lift_bind; [apply (keeps_read_loop t ip_key _ _ arrivals new_conn)|].
  intros c. apply keeps_finish_connection.
Qed.
End promises.
