(* ===== verification/PromiseThms.v ===== *)
(** * The server keeps its promises

    The tasks of [Promises] put together with the writer and the shutdown: in
    every run, what [left] and [ended] say is true of the state file from then
    on. *)
From S2P Require Import Prelude.
From S2P Require Import Protocol.
From S2P Require Import Ids.
From S2P Require Import HostTransfer.
From S2P Require Import Room.
From S2P Require Import RoomInv.
From S2P Require Import Quotas.
From S2P Require Import Snapshot.
From S2P Require Import Writer.
From S2P Require Import Mailbox.
From S2P Require Import Durable.
From S2P Require Import Threads.
From S2P Require Import World.
From S2P Require Import Registry.
From S2P Require Import Cleanup.
From S2P Require Import Connection.
From S2P Require Import System.
From S2P Require Import Wire.
From S2P Require Import ConnThms.
From S2P Require Import ConnTrack.
From S2P Require Import Ownership.
From S2P Require Import Server.
From S2P Require Import ServerThms.
From S2P Require Import StateFile.
From S2P Require Import Promises.

Section tasks.
Context `{HashIter} `{CryptoLib} `{!CryptoLaws _}.

Abbreviation nobody := (fun _ : nat => false).
Abbreviation owner t m := (owns t false m false).
Abbreviation keeps_step t L p Q := (keeps sound step_guar (fun _ => kept) t L p Q).

(** ** The writer and the world *)

Definition world_guar (t : nat) (s s' : Server) : Prop :=
  own_guar t (sv_world s) (sv_world s') /\ sends_promised t s s'.

Abbreviation keeps_quietly t L p Q := (keeps sound world_guar (fun _ _ => True) t L p Q).

Definition owning (t : nat) (s : Server) : Prop := owner t None (sv_world s).

Lemma owning_assertion t : assertion sound world_guar (fun _ _ => True) t (owning t).
Proof.
  split; [|done]. intros t' s s' Hne [Ho _] Hs Hs' Hl.
  by eapply owns_stable; [exact Hne|exact Ho|apply sound_now..|].
Qed.

Lemma stutter_guar t s s' : sv_world s' = sv_world s -> world_guar t s s'.
Proof.
  intros Hw. split; [rewrite Hw; by apply heap_same_guar|by apply silent_sends].
Qed.

Lemma quietly_stutter {B} t (f : Server -> option (Server * B)) :
  (forall s s' b, f s = Some (s', b) -> sv_world s' = sv_world s) ->
  keeps_quietly t (owning t) (sec f) (fun _ => owning t).
Proof.
  intros Hf. apply keeps_sec; [intros; apply owning_assertion|].
  intros s s' b _ _ Hl Hfs. apply Hf in Hfs. split; [by apply stutter_guar|].
  unfold owning. by rewrite Hfs.
Qed.

(** A quiet program, whatever it knows of the world. *)
Lemma quietly_lift {A} t L (p : prog World A) Q :
  stable world_wf own_guar t L ->
  keeps world_wf own_guar (one_place nobody) t L p Q ->
  emits (allowed (fun _ _ => True) (fun _ => False)) p (fun _ => True) ->
  keeps_quietly t (fun s => L (sv_world s)) (lift t p) (fun a s => Q a (sv_world s)).
Proof.
  assert (Hst : forall L : World -> Prop, stable world_wf own_guar t L ->
    assertion sound world_guar (fun _ _ => True) t (fun s => L (sv_world s))).
  { intros L' HL. split; [|done]. intros t' s s' Hne [Ho _] Hs Hs' Hl.
    eapply HL; [exact Hne|exact Ho|by apply sound_now..|done]. }
  revert L. induction p as [a|B f k IH|k IH]; intros L HL Hk He; simpl in *.
  - intros s Hs Hl. apply Hk; [by apply sound_now|done].
  - intros s s' b Hs Hs' Hl Hf. apply serve_world in Hf.
    destruct (Hk _ _ _ (sound_now _ Hs) (sound_now _ Hs') Hl Hf) as (Ho & L' & [HL' _] & Hl' & Hk').
    destruct (He _ _ _ Hf) as [Hsends He'].
    split; [split; [done|by eapply quiet_sends]|]. exists (fun s => L' (sv_world s)).
    split_and!; [by apply Hst|done|by apply IH].
  - intros s s' b Hs Hs' Hl Ha. apply await_world in Ha. split; [by apply stutter_guar|].
    exists (fun s => L (sv_world s)). split_and!; [by apply Hst|by rewrite Ha|by apply IH].
Qed.

Lemma quietly_writer_run fates :
  keeps_quietly writer_task (owning writer_task) (writer_run fates) (fun _ => owning writer_task).
Proof.
  induction fates as [|ft fates IH]; [by intros s|]. cbn [writer_run].
  eapply keeps_bind; [apply quietly_stutter; intros; by eapply take_turn_world|].
  intros [[turn writes]|]; [|by intros s]. eapply keeps_bind; [|intros ?; exact IH].
  unfold writer_turn. destruct writes.
  2: { apply quietly_stutter. by intros s s' b [= <- _]. }
  eapply keeps_bind.
  { apply (quietly_lift writer_task (owner writer_task None)); [apply owns_stable| |].
    - apply (own_build_snapshot nobody).
    - eapply emits_true, emits_build_snapshot. }
  intros dtos. eapply keeps_bind; [apply quietly_stutter; by intros s s' b [= <- _]|].
  intros c. apply quietly_stutter. by intros s s' b [= <- _].
Qed.

(** Whoever keeps the guarantee keeps the promises. *)
Lemma keeps_kept {A} t L (p : prog Server A) Q :
  keeps sound step_guar (fun _ _ => True) t L p Q ->
  keeps_step t (fun s => L s /\ kept s) p (fun a s => Q a s /\ kept s).
Proof.
  revert L. induction p as [a|B f k IH|k IH]; intros L Hp; simpl in *.
  - intros s Hs [Hl Hk]. auto.
  - intros s s' b Hs Hs' [Hl Hk] Hf. destruct (Hp s s' b Hs Hs' Hl Hf) as (Hg & L' & [HL' _] & Hl' & Hk').
    split; [done|]. exists (fun s => L' s /\ kept s).
    split_and!; [|done|exact (kept_step _ _ _ Hs Hg Hk)|by apply IH].
    split; [|by intros ? [_ ?]]. intros t' s1 s2 Hne Hg1 Hs1 Hs2 [Hl1 Hk1].
    split; [by eapply HL'|exact (kept_step _ _ _ Hs1 Hg1 Hk1)].
  - intros b. by apply IH.
Qed.

Lemma keeps_writer fates :
  keeps_step writer_task (fun s => (writing None idle s /\ owning writer_task s) /\ kept s)
    (writer_run fates) (fun _ => kept).
Proof.
  eapply (keeps_weaken _ _ _ _ _ _ _ _ _ (fun s _ Hs => Hs)); [|apply keeps_kept].
  2: { apply (keeps_both _ (fun _ => True) sound _ server_guar world_guar _ shows (fun _ _ => True));
       [done| | |done|apply keeps_writer_run|apply quietly_writer_run].
       - intros t s s' [? ? ?]. by split.
       - by intros t s s' _ _ Hg [? ?]. }
  by intros ? s _ [_ ?].
Qed.

(** ** All tasks *)

(** A section that leaves the world alone. *)
Lemma keeps_stutter {B} t (f : Server -> option (Server * B)) :
  (forall s s' b, f s = Some (s', b) -> server_guar t s s' /\ sv_world s' = sv_world s) ->
  keeps_step t kept (sec f) (fun _ => kept).
Proof.
  intros Hf. apply keeps_sec.
  - intros _. split; [|done]. intros t' s s' _ Hg Hs _ Hk. exact (kept_step _ _ _ Hs Hg Hk).
  - intros s s' b Hs Hs' Hk Hfs. destruct (Hf _ _ _ Hfs) as [Hg Hw].
    assert (Hstep : step_guar t s s') by (destruct (stutter_guar t s s' Hw); by split).
    split; [done|exact (kept_step _ _ _ Hs Hstep Hk)].
Qed.

Lemma keeps_shutdown t timed_out :
  t <> writer_task -> keeps_step t kept (shutdown t timed_out ;! Ret tt) (fun _ => kept).
Proof.
  intros Hne. eapply keeps_bind with (Q := fun _ => kept); [|by intros ? s].
  eapply keeps_bind.
  - apply keeps_stutter. intros s s' b Hf. split; [by eapply send_flush_guar|by injection Hf as <- _].
  - intros ?. apply keeps_stutter. intros s s' b' Hf. split; [by eapply await_flush_guar|].
    unfold await_flush in Hf. repeat case_match; by simplify_eq.
Qed.

(** The connections, each on a channel of its own, the cleanup loop. *)
Abbreviation tasks := (own_starts nobody).

Definition fresh_task (t : nat) (s : Server) : Prop :=
  kept s /\ owning t s /\ (t = writer_task -> writing None idle s).

Lemma fresh_assertion t : assertion sound step_guar (fun _ => kept) t (fresh_task t).
Proof.
  split; [|by intros s []]. intros t' s s' Hne Hg Hs Hs' (Hk & Ho & Hw). split_and!.
  - exact (kept_step _ _ _ Hs Hg Hk).
  - eapply (proj1 (owning_assertion t)); [exact Hne|split; apply Hg|done..].
  - intros ->. specialize (Hw eq_refl). destruct (writing_assertion None idle idle_lasting) as [Hst _].
    by eapply Hst; [exact Hne|apply Hg|..].
Qed.

Lemma tasks_keep t q :
  server_starts tasks t q -> keeps_step t (fresh_task t) q (fun _ => kept).
Proof.
  intros Hq. destruct Hq as [p Hne Hp|fates Ht|timed_out Hne].
  - assert (Hpre : forall s, sound s -> fresh_task t s -> state (owner t None) nothing s)
      by (intros s _ (? & ? & _); by split).
    assert (Hpost : forall L (u : unit) s, sound s -> state L nothing s -> kept s) by (by intros ? ? s _ []).
    destruct Hp as [ip_key opened arrivals closed _|ticks|clocks|p Hp].
    + eapply keeps_weaken; [exact Hpre|intros ? s _ Hs; exact Hs|apply keeps_connection_run].
    + eapply keeps_weaken; [exact Hpre|intros u; apply (Hpost (owner t None) u)|].
      apply (promises_quiet _ _ _ (fun _ => owner t None)); [apply owns_stable| |apply emits_cleanup_run].
      apply (own_cleanup_run nobody).
    + eapply keeps_weaken; [exact Hpre|intros u; apply (Hpost (owner t None) u)|].
      apply (promises_quiet _ _ _ (fun _ => owner t None)); [apply owns_stable| |apply emits_capture_run].
      apply (own_capture_run nobody).
    + eapply keeps_weaken; [exact Hpre|intros u; apply (Hpost (owner t None) u)|].
      apply (promises_quiet _ _ _ (fun _ => owner t None)); [apply owns_stable| |by apply emits_logs_only].
      by apply own_logs_only.
  - subst t. eapply keeps_weaken; [|intros ? s _ Hs; exact Hs|apply keeps_writer].
    intros s _ (? & ? & Hw). split; [split; [by apply Hw|done]|done].
  - eapply keeps_weaken; [|intros ? s _ Hs; exact Hs|by apply keeps_shutdown]. by intros s _ [? _].
Qed.

(** ** All runs *)

Variable file : option (list RoomDto).
Variable restored : list RestoredRoom.
Hypothesis bootable_restored : bootable restored.

Abbreviation reach := (pool_reach (server_starts tasks) (boot_server file restored)).

Lemma reach_world s ps :
  reach (s, ps) -> exists ps', pool_reach tasks (boot restored) (sv_world s, ps').
Proof.
  intros Hreach.
  destruct (server_matched tasks ltac:(intros; apply own_starts_captures) _ (boot_server file restored)
    s ps eq_refl Hreach) as (ps' & Hw & _). by exists ps'.
Qed.

Lemma reach_wf s ps : reach (s, ps) -> world_wf (sv_world s).
Proof.
  intros Hreach. destruct (reach_world _ _ Hreach) as (ps' & Hw).
  apply (server_ok restored (sv_world s, ps')); [done|].
  eapply pool_reach_mono; [apply (own_starts_starts nobody)|exact Hw].
Qed.

(** Every section is one moment. *)
Lemma section_past t B (f : Server -> option (Server * B)) k s s' b ps :
  reach (s, ps) -> ps !! t = Some (Sec f k) -> f s = Some (s', b) ->
  sv_past s' = sv_past s ++ [sv_world s'].
Proof.
  intros Hreach Ht Hf.
  destruct (pool_keeps (server_starts tasks) (fun _ => True) server_guar shows ready ready
    ready_assertion (server_keeps tasks) _ (s, ps) ltac:(done) (boot_ready file restored) Hreach) as [Hthr _].
  destruct (Hthr t _ Ht) as (L & _ & Hl & Hk). by destruct (Hk s s' b I I Hl Hf) as [[? _ _ _ _ _] _].
Qed.

Lemma reach_sound s ps : reach (s, ps) -> sound s.
Proof.
  intros Hreach. split; [by eapply server_kept|]. remember (s, ps) as c eqn:Hc. revert s ps Hc.
  induction Hreach as [|c c' Hreach IH Hstep]; intros s ps Hc.
  { injection Hc as <- <-. constructor; [|constructor]. by apply boot_wf. }
  destruct c as [s1 ps1]. specialize (IH s1 ps1 eq_refl).
  assert (Hreach' : reach (s, ps)) by (rewrite <- Hc; by eapply pool_reach_step).
  inversion Hstep as [? ? t q Ht Hq|? ? t B f k s' b Ht Hf|? ? t k b Ht]; simplify_eq; [done| |done].
  rewrite (section_past _ _ _ _ _ _ _ _ Hreach Ht Hf). apply Forall_app. split; [done|].
  constructor; [|constructor]. by eapply reach_wf.
Qed.

Lemma boot_fresh t : fresh_task t (boot_server file restored).
Proof.
  pose proof (boot_ready file restored t) as [_ Hw]. split_and!; [|apply (boot_owner nobody)|done].
  split.
  - intros _ t0 k tx m (w & w' & acts & (Hby & _) & _). cbn [boot_server sv_by] in Hby.
    by rewrite lookup_nil in Hby.
  - intros tx m Hin. cbn [boot_server sv_world] in Hin. rewrite boot_actions in Hin. set_solver.
  - by intros _ [|j].
Qed.

Lemma reach_kept s ps : reach (s, ps) -> kept s.
Proof.
  intros Hreach.
  destruct (pool_keeps (server_starts tasks) sound step_guar (fun _ => kept) fresh_task (fun _ => kept)
    fresh_assertion tasks_keep _ (s, ps) ltac:(by intros []; apply reach_sound) boot_fresh Hreach)
    as [Hthr Hoth].
  destruct (ps !! writer_task) as [q|] eqn:Hq; [|by apply (Hoth writer_task Hq)].
  destruct (Hthr _ _ Hq) as (L & [_ HL] & Hl & _). by apply HL.
Qed.

(** ** The past *)

Lemma heap_le_trans w1 w2 w3 : heap_le w1 w2 -> heap_le w2 w3 -> heap_le w1 w3.
Proof.
  intros [? H12] [? H23]. split; [lia|]. intros r st Hst.
  destruct (H12 r st Hst) as (st2 & Hst2 & ? & ?). destruct (H23 r st2 Hst2) as (st3 & ? & ? & ?).
  exists st3. split_and!; [done|congruence|auto].
Qed.

Lemma past_le s j j' w w' :
  kept s -> bounded (sv_world s) -> j <= j' -> sv_past s !! j = Some w -> sv_past s !! j' = Some w' ->
  heap_le w w'.
Proof.
  intros Hk Hb Hle Hj. revert w'. induction Hle as [|j' Hle IH]; intros w' Hj'.
  { simplify_eq. split; [lia|]. by intros r st Hst; exists st. }
  destruct (lookup_lt_is_Some_2 (sv_past s) j') as [w1 Hw1].
  { apply lookup_lt_Some in Hj'. lia. }
  eapply heap_le_trans; [by apply IH|by eapply (kp_past _ Hk Hb j')].
Qed.

Lemma past_now s j w :
  sound s -> kept s -> bounded (sv_world s) -> sv_past s !! j = Some w -> heap_le w (sv_world s).
Proof.
  intros Hs Hk Hb Hw. apply (past_le s j (length (sv_past s) - 1)); [done..| |done|by apply present, Hs].
  apply lookup_lt_Some in Hw. lia.
Qed.

Lemma past_room_wf s j r st :
  sound s -> kept s -> bounded (sv_world s) -> state_at s j r st -> room_wf st.
Proof.
  intros Hs Hk Hb (w & Hw & Hst). destruct (past_now _ _ _ Hs Hk Hb Hw) as [Htok _].
  destruct Hs as [_ Hall]. rewrite Forall_lookup in Hall.
  eapply (wf_heap w (Hall j w Hw)); [|exact Hst]. unfold bounded in Hb. lia.
Qed.

Lemma state_le s j j' r st st' :
  kept s -> bounded (sv_world s) -> j <= j' -> state_at s j r st -> state_at s j' r st' ->
  session_id st' = session_id st /\ (closing st = true -> closing st' = true).
Proof.
  intros Hk Hb Hle (w & Hw & Hst) (w' & Hw' & Hst').
  destruct (proj2 (past_le s j j' w w' Hk Hb Hle Hw Hw') r st Hst) as (st2 & ? & ? & ?). by simplify_eq.
Qed.

Lemma state_at_unique s j r st st' : state_at s j r st -> state_at s j r st' -> st' = st.
Proof. intros (w & Hw & Hst) (w' & Hw' & Hst'). by simplify_eq. Qed.

(** An entry of the file is the picture of an open room. *)
Lemma on_file_pictured s ps since dtos dto b :
  reach (s, ps) -> wr_file (mb_writer (sv_mail s)) = Some (since, dtos) -> dto ∈ dtos ->
  durable_since s b ->
  exists j r st now inow, b < j /\ state_at s j r st /\ closing st = false
    /\ dto = build_room_dto st now inow.
Proof.
  intros Hreach Hfile Hdto Hd. destruct (server_kept tasks file restored s ps Hreach) as [_ Hf].
  unfold durable_since in Hd. rewrite Hfile in Hd. cbn [stamp] in Hd.
  destruct (faithful_pictured s since dtos dto) as (j & r & st & now & inow & [Hj Hat] & Hc & ->);
    [by apply Hf; [left|lia]|done|].
  exists j, r, st, now, inow. split_and!; [lia|done..].
Qed.

(** The session of a room does not change. *)
Lemma session_const s j j' r st st' :
  kept s -> bounded (sv_world s) -> state_at s j r st -> state_at s j' r st' ->
  session_id st' = session_id st.
Proof.
  intros Hk Hb Hst Hst'. destruct (Nat.le_ge_cases j j') as [Hle|Hle].
  - by apply (state_le s j j' r).
  - symmetry. by apply (state_le s j' j r).
Qed.

Lemma sids_sublist (key : nat -> string) taken shots :
  Forall2 (fun r o => forall dto, o = Some dto -> dto_session_id dto = key r) taken shots ->
  (dto_session_id <$> omap id shots) `sublist_of` (key <$> taken).
Proof.
  induction 1 as [|r o taken shots Ho _ IH]; [constructor|]. destruct o as [dto|]; simpl.
  - rewrite (Ho dto eq_refl). by constructor.
  - by constructor.
Qed.

(** What is taken of a room that was registered under [sid]. *)
Lemma registered_shot s since j w sid r o :
  sound s -> kept s -> bounded (sv_world s) -> sv_past s !! j = Some w ->
  w_rooms w !! sid = Some r -> shot s since r o ->
  match o with
  | Some dto => dto_session_id dto = sid
  | None => exists st, w_heap (sv_world s) !! r = Some st /\ closing st = true
  end.
Proof.
  intros Hs Hk Hb Hw Hr (j' & st & now & inow & [_ Hat] & ->).
  assert (Hwf : world_wf w) by (destruct Hs as [_ Hall]; rewrite Forall_lookup in Hall; eauto).
  destruct (wf_table w Hwf sid r Hr) as (st0 & Hst0 & <-). unfold capture_room.
  destruct (closing st) eqn:Hc; simpl.
  - destruct Hat as (w' & Hw' & Hst). destruct (past_now s j' w' Hs Hk Hb Hw') as [_ Hle].
    destruct (Hle r st Hst) as (st' & ? & _ & ?). exists st'. auto.
  - apply (session_const s j j' r); [done|done|by exists w|done].
Qed.

(** Distinct entries of the table are rooms of distinct sessions. *)
Definition session_of (w : World) (r : nat) : string := default "" (session_id <$> w_heap w !! r).

Lemma session_of_entry w sid r : world_wf w -> w_rooms w !! sid = Some r -> session_of w r = sid.
Proof. intros Hw Hr. destruct (wf_table w Hw sid r Hr) as (st & Hst & <-). unfold session_of. by rewrite Hst. Qed.

Lemma sessions_NoDup w : world_wf w -> NoDup (session_of w <$> hm_values (w_rooms w)).
Proof.
  intros Hw. apply NoDup_fmap_2_strong; [|by apply table_refs_NoDup].
  intros r1 r2 (sid1 & Hr1)%elem_of_hm_values (sid2 & Hr2)%elem_of_hm_values.
  rewrite (session_of_entry w sid1 r1), (session_of_entry w sid2 r2) by done. intros ->. congruence.
Qed.

(** C19: the state file is true.  A file that the writer has written is not the
    server at one moment, for the rooms are captured one after the other while
    the other tasks run; but it is true of the server: every entry is the
    picture of a room that was open at a moment after the writer's turn began,
    no session has two entries, and every session that was registered at one
    such moment has its entry, unless its room has closed since. *)
Theorem state_file_faithful s ps since dtos
    (Hreach : reach (s, ps)) (Hbound : bounded (sv_world s))
    (Hfile : wr_file (mb_writer (sv_mail s)) = Some (since, dtos)) (Hpos : (0 < since)%N) :
  (forall dto, dto ∈ dtos -> exists j r st now inow, (since < N.of_nat j)%N
     /\ state_at s j r st /\ closing st = false /\ dto = build_room_dto st now inow)
  /\ NoDup (dto_session_id <$> dtos)
  /\ exists j w, (since < N.of_nat j)%N /\ sv_past s !! j = Some w
       /\ forall sid r, w_rooms w !! sid = Some r ->
            sid ∈ dto_session_id <$> dtos
            \/ exists st, w_heap (sv_world s) !! r = Some st /\ closing st = true.
Proof.
  destruct (server_kept tasks file restored s ps Hreach) as [_ Hf].
  specialize (Hf since dtos ltac:(by left) Hpos).
  pose proof (reach_sound _ _ Hreach) as Hs. pose proof (reach_kept _ _ Hreach) as Hk. split.
  { intros dto Hdto. destruct (faithful_pictured _ _ _ _ Hf Hdto) as (j & r & st & now & inow & [] & ?).
    by exists j, r, st, now, inow. }
  destruct Hf as (j & w & taken & shots & Hj & Hw & Hrooms & Hshots & ->).
  rewrite app_nil_r in Hrooms. subst taken.
  assert (Hwf : world_wf w) by (destruct Hs as [_ Hall]; rewrite Forall_lookup in Hall; eauto).
  pose proof (registered_shot s since j w) as Hreg. split.
  - eapply sublist_NoDup; [by apply (sessions_NoDup w)|]. apply sids_sublist.
    rewrite Forall2_same_length_lookup in *. destruct Hshots as [Hlen Hshots]. split; [done|].
    intros i r o Hi Ho dto ->. specialize (Hshots i r _ Hi Ho).
    apply list_elem_of_lookup_2, elem_of_hm_values in Hi as (sid & Hr).
    rewrite (session_of_entry w sid r) by done. by apply (Hreg sid r _ Hs Hk Hbound Hw Hr Hshots).
  - exists j, w. split_and!; [done..|]. intros sid r Hr.
    assert (Hin : r ∈ hm_values (w_rooms w)) by (apply elem_of_hm_values; by exists sid).
    apply list_elem_of_lookup in Hin as [i Hi].
    destruct (Forall2_lookup_l _ _ _ _ _ Hshots Hi) as (o & Ho & Hshot).
    specialize (Hreg sid r o Hs Hk Hbound Hw Hr Hshot). destruct o as [dto|]; [left|by right].
    rewrite <- Hreg. apply list_elem_of_fmap_2, list_elem_of_omap. exists (Some dto).
    split; [by eapply list_elem_of_lookup_2|done].
Qed.

(** Room [r] did not exist yet at moment [b]. *)
Definition opened_after (s : Server) (b r : nat) : Prop :=
  exists w, sv_past s !! b = Some w /\ w_heap w !! r = None.

(** [id] had a place in an open room of the session: in room [r] after its
    release at [f], or in a room that is younger than [b]. *)
Definition place_after (s : Server) (sid id : string) (r b f : nat) : Prop :=
  exists j r' st, state_at s j r' st /\ session_id st = sid /\ ~ unnamed id st
    /\ ((r' = r /\ S f < j) \/ opened_after s b r').

(** A session has one open room at a time: one that is open after [b] is the
    one that was open at [b], or younger. *)
Lemma other_room s j b r r' w st st' :
  sound s -> kept s -> bounded (sv_world s) -> sv_past s !! b = Some w -> w_heap w !! r = Some st ->
  closing st = false -> b <= j -> state_at s j r' st' -> closing st' = false ->
  session_id st' = session_id st -> r' = r \/ opened_after s b r'.
Proof.
  intros Hs Hk Hb Hw Hst Hc Hj Hat Hc' Hsid.
  destruct (w_heap w !! r') as [st0|] eqn:Hst0; [left|right; by exists w].
  assert (Hwf : world_wf w) by (destruct Hs as [_ Hall]; rewrite Forall_lookup in Hall; eauto).
  destruct (state_le s b j r' st0 st' Hk Hb Hj ltac:(by exists w) Hat) as [Hsid0 Hclose].
  pose proof (wf_open w Hwf r st Hst Hc) as Hr.
  pose proof (wf_open w Hwf r' st0 Hst0 ltac:(destruct (closing st0); [by rewrite Hclose in Hc'|done])) as Hr'.
  congruence.
Qed.

(** What a restart makes of the entry has no place for [id]. *)
Definition forgotten `{SnapshotLib} (id : string) (dto : RoomDto) : Prop :=
  unnamed_dto id dto
  /\ forall now inow rst, load_room now inow dto = Some rst ->
       rst_reservations rst !! id = None /\ rst_host_peer_id rst <> id.

#[local] Instance unnamed_dto_dec id dto : Decision (unnamed_dto id dto).
Proof. unfold unnamed_dto. apply _. Defined.

Lemma unnamed_pictured `{SnapshotLib} id st now inow :
  unnamed id st -> closing st = false -> unnamed_dto id (build_room_dto st now inow).
Proof.
  intros Hu Hc. pose proof (capture_unnamed id true st now inow Hu) as Hcap.
  unfold capture_room in Hcap. by rewrite Hc in Hcap.
Qed.

Lemma pending_pictured `{SnapshotLib} id st now inow :
  room_wf st -> pending st id = true -> closing st = false ->
  unnamed_dto id (build_room_dto st now inow).
Proof.
  intros Hwf Hp Hc. pose proof (capture_pending id true st now inow Hwf Hc Hp) as Hcap.
  unfold capture_room in Hcap. by rewrite Hc in Hcap.
Qed.

Lemma unnamed_dec id st : unnamed id st \/ ~ unnamed id st.
Proof.
  unfold unnamed. destruct (closing st); [by left; left|].
  destruct (reservations st !! id) eqn:?, (decide (host_peer_id st = id)); tauto || (right; naive_solver).
Qed.

Lemma section_state s t j r st st' :
  room_section s t j r st st' -> state_at s j r st /\ state_at s (S j) r st'.
Proof.
  intros (w & w' & (_ & Hw & Hw') & Hst & Hheap). split; [by exists w|].
  exists w'. split; [done|]. rewrite Hheap. apply lookup_insert_eq.
Qed.

Lemma released_pictured `{SnapshotLib} s ps t sid id r c b f since dtos dto :
  reach (s, ps) -> bounded (sv_world s) -> released s t sid id r c b f ->
  wr_file (mb_writer (sv_mail s)) = Some (since, dtos) -> dto ∈ dtos -> dto_session_id dto = sid ->
  forgotten id dto \/ place_after s sid id r b f.
Proof.
  intros Hreach Hb [Hbegan [_ Hbetween] (stf & nowf & Hf & _ & _ & Hunf) Hd] Hfile Hdto Hsid.
  pose proof (reach_sound _ _ Hreach) as Hs. pose proof (reach_kept _ _ Hreach) as Hk.
  destruct (on_file_pictured _ _ _ _ _ _ Hreach Hfile Hdto Hd) as (j & r' & st & now & inow & Hj & Hat & Hc & Heq).
  assert (Hforget : unnamed_dto id dto -> forgotten id dto).
  { intros Hu. split; [done|]. intros now' inow' rst. by apply load_room_unnamed. }
  assert (Hst_sid : session_id st = sid) by (by rewrite <- Hsid, Heq).
  destruct (unnamed_dec id st) as [Hu|Hn]; [left; apply Hforget; rewrite Heq; by apply unnamed_pictured|].
  destruct Hbegan as (stb & token & v & p & (w & w' & (_ & Hw & _) & Hstb & _) & Hok & Hsidb & _).
  destruct (begin_leave_Ok _ _ _ _ _ Hok) as (Hcb & _).
  destruct (other_room s j b r r' w stb st) as [->|Hnew]; try done; [lia|congruence| |].
  2: { right. exists j, r', st. split_and!; [done..|by right]. }
  destruct (decide (j <= f)) as [Hle|Hgt].
  - left. apply Hforget. rewrite Heq. destruct (Hbetween j ltac:(lia)) as (st' & Hat' & _ & Hcase).
    rewrite (state_at_unique _ _ _ _ _ Hat Hat') in *.
    destruct Hcase as [?|Hp]; [congruence|]. apply pending_pictured; [|done..]. by eapply past_room_wf.
  - right. exists j, r, st. split_and!; [done..|]. left. split; [done|].
    destruct (decide (j = S f)) as [->|]; [|lia]. destruct Hn.
    apply section_state in Hf as [_ Hf]. by rewrite (state_at_unique _ _ _ _ _ Hf Hat).
Qed.

(** What it says of the state file that task [t] has sent [left] for [id] on
    [tx] at moment [k].  The message is the answer to a [leave] of the
    connection itself: of the one that [t] finished last, in a room [r] of the
    session; it began at [b] and took [id] out of the room at [f].  An entry of
    the session in the file does not know [id], or [id] has had a place again:
    in that room after [f], or in a younger room of the session. *)
Definition left_holds `{SnapshotLib} (s : Server) (t k : nat) (tx : Sender) (sid id : string) : Prop :=
  tx = t /\ exists r c b f, released s t sid id r c b f /\ only_sends s t f k (left_reply sid id)
    /\ forall since dtos dto, wr_file (mb_writer (sv_mail s)) = Some (since, dtos) ->
         dto ∈ dtos -> dto_session_id dto = sid -> forgotten id dto \/ place_after s sid id r b f.

(** And [ended]: the message is from the [endSession] that [t], the host of a
    room [r] of the session, finished last; [tx] is its own channel or that of
    a guest it had when the room was closed, at [b].  An entry of the session
    in the file is of a younger room. *)
Definition ended_holds `{SnapshotLib} (s : Server) (t k : nat) (tx : Sender) (sid : string) : Prop :=
  exists gs r b f, tx ∈ t :: gs /\ dissolved s t sid gs r b f /\ only_sends s t f k (ended_message sid)
    /\ forall since dtos dto, wr_file (mb_writer (sv_mail s)) = Some (since, dtos) ->
         dto ∈ dtos -> dto_session_id dto = sid ->
         exists j r' st, state_at s j r' st /\ session_id st = sid /\ closing st = false
           /\ opened_after s b r'.

(** What is on file after a room was closed at [b]. *)
Lemma dissolved_pictured `{SnapshotLib} s ps t sid gs r b f since dtos dto :
  reach (s, ps) -> bounded (sv_world s) -> dissolved s t sid gs r b f ->
  wr_file (mb_writer (sv_mail s)) = Some (since, dtos) -> dto ∈ dtos -> dto_session_id dto = sid ->
  exists j r' st, state_at s j r' st /\ session_id st = sid /\ closing st = false
    /\ opened_after s b r'.
Proof.
  intros Hreach Hb [Hbegan _ Hd] Hfile Hdto Hsid.
  pose proof (reach_sound _ _ Hreach) as Hs. pose proof (reach_kept _ _ Hreach) as Hk.
  destruct (on_file_pictured _ _ _ _ _ _ Hreach Hfile Hdto Hd) as (j & r' & st & now & inow & Hj & Hat & Hc & Heq).
  assert (Hst_sid : session_id st = sid) by (by rewrite <- Hsid, Heq).
  destruct Hbegan as (stb & c & token & v & owner & p & Hsec & Hok & Hsidb & _).
  pose proof (begin_end_closes _ _ _ _ _ _ Hok) as Hclosed.
  apply section_state in Hsec as [(w & Hw & Hstb) Hafter].
  destruct (begin_end_Ok _ _ _ _ _ _ Hok) as (Hcb & _).
  exists j, r', st. split_and!; [done..|].
  destruct (other_room s j b r r' w stb st) as [->|Hnew]; try done; [lia|congruence|].
  destruct (state_le s (S b) j r _ st Hk Hb Hj Hafter Hat) as [_ Hclose].
  by rewrite Hclose in Hc.
Qed.

Lemma sent_holds `{SnapshotLib} s ps t k tx m :
  reach (s, ps) -> small s -> sent_at s t k tx m ->
  (forall sid id, m = left_reply sid id -> left_holds s t k tx sid id)
  /\ (forall sid, m = ended_message sid -> ended_holds s t k tx sid).
Proof.
  intros Hreach Hsmall Hsent. pose proof (reach_kept _ _ Hreach) as Hk.
  destruct (kp_sent _ Hk Hsmall t k tx m Hsent) as [Hl He]. split.
  - intros sid id Hm. destruct (Hl sid id Hm) as (-> & r & c & b & f & Hrel & Honly). split; [done|].
    exists r, c, b, f. rewrite <- Hm. split_and!; [done..|]. intros since dtos dto.
    eapply released_pictured; [done|apply Hsmall|done].
  - intros sid Hm. destruct (He sid Hm) as (gs & r & b & f & Htx & Hdis & Honly).
    exists gs, r, b, f. rewrite <- Hm. split_and!; [done..|]. intros since dtos dto.
    eapply dissolved_pictured; [done|apply Hsmall|done].
Qed.

End tasks.
