(* ===== verification/App.v ===== *)
(** * The application: [main.rs], [ws.rs], [lib.rs] and the endpoints of [logs.rs]

    What [main] builds before it serves, and the handlers of its routes as
    tasks beside the cleanup loop, the snapshot writer and the shutdown.  A
    handler works on the application's own state, the limiters and the
    counters, one section for each lock it takes there, and on the [Server] of
    rooms and logs through [within]. *)
From S2P Require Import Prelude.
From stdpp Require Import pretty.
From S2P Require Import Protocol.
From S2P Require Import Ids.
From S2P Require Import Room.
From S2P Require Import NetAddr.
From S2P Require Import ClientIp.
From S2P Require Import Quotas.
From S2P Require Import Logs.
From S2P Require Import Snapshot.
From S2P Require Import Writer.
From S2P Require Import Threads.
From S2P Require Import World.
From S2P Require Import Cleanup.
From S2P Require Import Connection.
From S2P Require Import Server.

(** The values of the header that are text. *)
Definition forwarded_for (headers : list (option string)) : list string := omap id headers.

(** The command line and environment, as clap parses them.  [log_dir] is never
    read. *)
Record Config := {
  cfg_addr : option string;
  cfg_port : N;
  cfg_log_dir : string;
  cfg_state_file : string;
  cfg_trusted_proxy_cidrs : string;
}.

(** [Config::bind_addr]. *)
Definition bind_addr (self : Config) : string :=
  match cfg_addr self with Some addr => addr | None => "0.0.0.0:" +:+ pretty (cfg_port self) end.

(** [RequestBodyLimitLayer] of tower-http: the response it gives instead of
    passing a request with this body on, if it does. *)
Class BodyLimitLib := { limit_body : N -> list byte -> option Response }.

Section app.
Context `{HashIter} `{CryptoLib} `{SnapshotLib} `{IpNetLib} `{GovernorLib} `{BodyLimitLib}.

(** [AppState] with the server behind [registry], [snapshot] and [logs]; the
    limiter of [LogStore] on failed lookups and its semaphore are here.  For
    the statements only: the tasks that own a slot of [connections], and
    those that own a permit. *)
Record AppState := {
  app_server : Server;
  app_client_ip : ClientIpResolver;
  app_connections : ConnectionQuota;
  app_connect_limiter : IpRateLimiter;
  app_failed_lookup_limiter : IpRateLimiter;
  app_lookup_slots : nat;
  app_live : gmap nat IpAddr;
  app_lookups : gset nat;
}.

Definition set_server (a : AppState) (s : Server) : AppState :=
  {| app_server := s; app_client_ip := app_client_ip a; app_connections := app_connections a;
     app_connect_limiter := app_connect_limiter a;
     app_failed_lookup_limiter := app_failed_lookup_limiter a;
     app_lookup_slots := app_lookup_slots a; app_live := app_live a; app_lookups := app_lookups a |}.
Definition set_connections (a : AppState) (q : ConnectionQuota) (live : gmap nat IpAddr) : AppState :=
  {| app_server := app_server a; app_client_ip := app_client_ip a; app_connections := q;
     app_connect_limiter := app_connect_limiter a;
     app_failed_lookup_limiter := app_failed_lookup_limiter a;
     app_lookup_slots := app_lookup_slots a; app_live := live; app_lookups := app_lookups a |}.
Definition set_limiters (a : AppState) (connect failed_lookup : IpRateLimiter) : AppState :=
  {| app_server := app_server a; app_client_ip := app_client_ip a;
     app_connections := app_connections a; app_connect_limiter := connect;
     app_failed_lookup_limiter := failed_lookup;
     app_lookup_slots := app_lookup_slots a; app_live := app_live a; app_lookups := app_lookups a |}.
Definition set_lookups (a : AppState) (slots : nat) (lookups : gset nat) : AppState :=
  {| app_server := app_server a; app_client_ip := app_client_ip a;
     app_connections := app_connections a; app_connect_limiter := app_connect_limiter a;
     app_failed_lookup_limiter := app_failed_lookup_limiter a;
     app_lookup_slots := slots; app_live := app_live a; app_lookups := lookups |}.

(** ** Starting up *)

(** What [main] builds from the configuration and the files it finds; [None] when
    it panics. *)
Definition startup (config : Config) (fs : Files) (now : SystemTime) (inow : Instant)
    : option AppState :=
  let trusted_proxy_cidrs := match parse_trusted_proxy_cidrs (cfg_trusted_proxy_cidrs config) with
                             | Ok cidrs => cidrs
                             | Err _ => []
                             end in
  let state_file := fs !! cfg_state_file config in
  match ip_limiter_new CONNECT_ATTEMPT_BURST CONNECT_ATTEMPT_SUSTAINED,
        ip_limiter_new FAILED_LOG_LOOKUP_BURST FAILED_LOG_LOOKUP_SUSTAINED with
  | Some connect_limiter, Some failed_lookup_limiter =>
    Some {| app_server := boot_server (dto_rooms <$> (state_file ≫= from_slice))
                            (load_snapshot state_file now inow);
            app_client_ip := {| trusted_proxies := trusted_proxy_cidrs |};
            app_connections := default_quota; app_connect_limiter := connect_limiter;
            app_failed_lookup_limiter := failed_lookup_limiter;
            app_lookup_slots := MAX_CONCURRENT_LOOKUPS; app_live := ∅; app_lookups := ∅ |}
  | _, _ => None
  end.

(** ** Sections *)

Definition on_server {B} (f : Server -> option (Server * B)) (a : AppState)
    : option (AppState * B) :=
  match f (app_server a) with
  | Some (s, b) => Some (set_server a s, b)
  | None => None
  end.

(** A task of the server. *)
Fixpoint within {A} (p : prog Server A) : prog AppState A :=
  match p with
  | Ret a => Ret a
  | Sec f k => Sec (on_server f) (fun b => within (k b))
  | Ask k => Ask (fun b => within (k b))
  end.

(** [app.client_ip.resolve(peer.ip(), &forwarded_for(&headers))]. *)
Definition client_address (peer : IpAddr) (headers : list (option string))
    : prog AppState (result IpAddr ClientIpError) :=
  sec (fun a => Some (a, resolve (app_client_ip a) peer (forwarded_for headers))).

Definition allow_connect (ip : IpAddr) (now : Instant) (a : AppState) : option (AppState * bool) :=
  let '(limiter, allowed) := ip_limiter_allow (app_connect_limiter a) ip now in
  Some (set_limiters a limiter (app_failed_lookup_limiter a), allowed).

Definition allow_failed_lookup (ip : IpAddr) (now : Instant) (a : AppState)
    : option (AppState * bool) :=
  let '(limiter, allowed) := ip_limiter_allow (app_failed_lookup_limiter a) ip now in
  Some (set_limiters a (app_connect_limiter a) limiter, allowed).

(** Task [t] takes a slot, and gives it back. *)
Definition open_slot (t : nat) (ip : IpAddr) (a : AppState) : option (AppState * bool) :=
  let '(connections, ok) := try_connect (app_connections a) ip in
  Some (set_connections a connections (if ok then <[t := ip]> (app_live a) else app_live a), ok).

Definition close_slot (t : nat) (ip : IpAddr) (a : AppState) : option (AppState * unit) :=
  Some (set_connections a (Quotas.disconnect (app_connections a) ip) (delete t (app_live a)), tt).

(** [lookup_slots.try_acquire()], and the end of the permit. *)
Definition acquire (t : nat) (a : AppState) : option (AppState * bool) :=
  match app_lookup_slots a with
  | 0 => Some (a, false)
  | S slots => Some (set_lookups a slots ({[t]} ∪ app_lookups a), true)
  end.

Definition release (t : nat) (a : AppState) : option (AppState * unit) :=
  Some (set_lookups a (S (app_lookup_slots a)) (app_lookups a ∖ {[t]}), tt).

(** ** [GET /relay] *)

(** [Ok] is the upgrade, for a connection from this address. *)
Definition ws_handler (t : nat) (peer : IpAddr) (headers : list (option string)) (now : Instant)
    : prog AppState (result IpAddr Response) :=
  let! address := client_address peer headers in
  match address with
  | Err _ => Ret (Err (RText 400 "Invalid client address"))
  | Ok ip =>
    let! allowed := sec (allow_connect ip now) in
    if negb allowed then Ret (Err (RText 429 "Too many connection attempts"))
    else
    let! ok := sec (open_slot t ip) in
    if negb ok then Ret (Err (RText 429 "Too many connections"))
    else Ret (Ok ip)
  end.

(** What happens on the socket of an upgrade: when it is opened, the frames, and
    its end; [None] when the upgrade fails, after which axum drops the closure
    that [on_upgrade] was given. *)
Abbreviation socket := (option (Instant * list Arrival * Clock)).

Definition relay (t : nat) (peer : IpAddr) (headers : list (option string)) (now : Instant)
    (upgraded : socket) : prog AppState unit :=
  let! answer := ws_handler t peer headers now in
  match answer, upgraded with
  | Ok ip, Some (opened, arrivals, closed) =>
    within (lift t (connection_run t t (to_string ip) opened arrivals closed)) ;!
    sec (close_slot t ip)
  | _, _ => Ret tt
  end.

(** ** The logs *)

(** [post_logs] once the address is known. *)
Definition upload (ip : IpAddr) (body : list byte) (inow : Instant) (now : SystemTime)
    (draws : list (list nat)) : prog World (option Response) :=
  let! allowed := sec (with_logs (allow_upload ip inow)) in
  if negb allowed then Ret (Some (RText 429 "Rate limited: 1 upload per minute"))
  else
  match refuse_body body with
  | Some response => Ret (Some response)
  | None => sec (with_logs (store_log body now draws))
  end.

Definition post_logs (t : nat) (peer : IpAddr) (headers : list (option string))
    (body : list byte) (inow : Instant) (now : SystemTime) (draws : list (list nat))
    : prog AppState (option Response) :=
  let! address := client_address peer headers in
  match address with
  | Err _ => Ret (Some (RText 400 "Invalid client address"))
  | Ok ip => within (lift t (upload ip body inow now draws))
  end.

Definition find_log (id : string) : prog World (option (list byte)) :=
  if valid_log_id id then sec (with_logs (fun l => (l, lookup_log id l))) else Ret None.

Definition get_logs (t : nat) (peer : IpAddr) (headers : list (option string)) (id : string)
    (now : Instant) : prog AppState Response :=
  let! address := client_address peer headers in
  match address with
  | Err _ => Ret (RText 400 "Invalid client address")
  | Ok ip =>
    let! permit := sec (acquire t) in
    if negb permit then Ret (RText 429 "Too many concurrent lookups")
    else
    let! found := within (lift t (find_log id)) in
    let! response :=
      match found with
      | None =>
        let! allowed := sec (allow_failed_lookup ip now) in
        Ret (if negb allowed then RText 429 "Too many failed lookups" else RText 404 "Not found")
      | Some data => Ret (RLog data log_headers)
      end in
    sec (release t) ;! Ret response
  end.

(** ** The router *)

Inductive Request :=
| GetRelay (now : Instant) (upgraded : socket)
| PostLogs (body : list byte) (inow : Instant) (now : SystemTime) (draws : list (list nat))
| GetLogs (id : string) (now : Instant)
| GetHealth.

(** The route of each request, with the layer of [/logs]. *)
Definition handle (t : nat) (peer : IpAddr) (headers : list (option string)) (r : Request)
    : prog AppState unit :=
  match r with
  | GetRelay now upgraded => relay t peer headers now upgraded
  | PostLogs body inow now draws =>
    match limit_body MAX_LOG_SIZE body with
    | Some _ => Ret tt
    | None => post_logs t peer headers body inow now draws ;! Ret tt
    end
  | GetLogs id now => get_logs t peer headers id now ;! Ret tt
  | GetHealth => Ret tt
  end.

(** The same requests of a client that goes away while the handler waits for
    the lock of the entries, the one place where a handler waits: the server
    drops the future there, and the permit that it holds with it. *)
Definition abandon (t : nat) (peer : IpAddr) (headers : list (option string)) (r : Request)
    : prog AppState unit :=
  match r with
  | PostLogs body inow now draws =>
    match limit_body MAX_LOG_SIZE body with
    | Some _ => Ret tt
    | None =>
      let! address := client_address peer headers in
      match address with
      | Err _ => Ret tt
      | Ok ip => within (lift t (sec (with_logs (allow_upload ip inow)))) ;! Ret tt
      end
    end
  | GetLogs id now =>
    if negb (valid_log_id id) then handle t peer headers r
    else
    let! address := client_address peer headers in
    match address with
    | Err _ => Ret tt
    | Ok ip =>
      let! permit := sec (acquire t) in
      if negb permit then Ret tt else sec (release t)
    end
  | _ => handle t peer headers r
  end.

(** What a request gets from outside: the wall clock's readings satisfy [clock],
    the random draws are in their range. *)
Definition reads (clock : SystemTime -> Prop) (r : Request) : Prop :=
  match r with
  | PostLogs _ _ now draws => clock now /\ Forall (fun draw => valid_draw draw = true) draws
  | _ => True
  end.

(** The tasks: requests, answered or abandoned, the cleanup loop, the writer, the
    shutdown.  [clock] bounds what the wall clock shows, [fails] the requests whose upgrade
    fails. *)
Inductive app_starts (clock : SystemTime -> Prop) (fails : nat -> bool) (t : nat)
    : prog AppState unit -> Prop :=
| app_request peer headers r :
    t <> writer_task -> reads clock r ->
    (forall now, r = GetRelay now None -> fails t = true) ->
    app_starts clock fails t (handle t peer headers r)
| app_abandoned peer headers r :
    t <> writer_task -> reads clock r ->
    (forall now, r = GetRelay now None -> fails t = true) ->
    app_starts clock fails t (abandon t peer headers r)
| app_cleanup ticks :
    t <> writer_task -> Forall (fun tick => clock tick.1.1) ticks ->
    app_starts clock fails t (within (lift t (cleanup_run ticks)))
| app_writer fates : t = writer_task -> app_starts clock fails t (within (writer_run fates))
| app_shutdown timed_out :
    t <> writer_task -> app_starts clock fails t (within (shutdown t timed_out ;! Ret tt)).
End app.
