(* ===== verification/AppThms.v ===== *)
(** * Starting up, and the layers below the application

    [startup] builds a sound server from any state file; and every run of the
    application is a run of the [Server] of rooms and logs, whatever the
    handlers do with the limiters and counters beside it. *)
From S2P Require Import Prelude.
From S2P Require Import Protocol.
From S2P Require Import Ids.
From S2P Require Import HostTransfer.
From S2P Require Import Room.
From S2P Require Import RoomInv.
From S2P Require Import NetAddr.
From S2P Require Import ClientIp.
From S2P Require Import Quotas.
From S2P Require Import Logs.
From S2P Require Import Snapshot.
From S2P Require Import Writer.
From S2P Require Import Threads.
From S2P Require Import Simulation.
From S2P Require Import World.
From S2P Require Import Registry.
From S2P Require Import Cleanup.
From S2P Require Import Connection.
From S2P Require Import System.
From S2P Require Import RegistryThms.
From S2P Require Import Ownership.
From S2P Require Import Server.
From S2P Require Import ServerThms.
From S2P Require Import App.

Section startup.
Context `{HashIter} `{CryptoLib} `{SnapshotLib} `{IpNetLib} `{GovernorLib}.

(** ** Restored rooms *)

Definition restored_state (r : RestoredRoom) : RoomState :=
  restore (rst_session_id r) (rst_host_peer_id r) (rst_host_verifier r) ""
    (rst_reservations r) (rst_created_at r) (rst_last_activity_at r).

Lemma restore_rooms_table l :
  NoDup (rst_session_id <$> l) ->
  let w := restore_rooms l empty_world in
  w_next_ref w = length l /\ w_writer w = None
  /\ (forall i, w_heap w !! i = restored_state <$> l !! i)
  /\ (forall sid i, w_rooms w !! sid = Some i <-> exists r, l !! i = Some r /\ rst_session_id r = sid).
Proof.
  unfold restore_rooms. induction l as [|x l IH] using rev_ind; intros Hnd.
  { simpl. split_and!; [done..|]. intros sid i. rewrite lookup_empty.
    split; [done|]. by intros (r & Hr & _). }
  rewrite fmap_app, NoDup_app in Hnd. destruct Hnd as (Hnd & Hnew & _).
  specialize (IH Hnd). cbv zeta in IH. rewrite foldl_app. cbn [foldl].
  set (w := foldl restore_room empty_world l) in *.
  destruct IH as (Hnext & Hwr & Hheap & Hrooms). unfold restore_room. cbn [alloc].
  cbn [set_rooms_per_ip set_rooms w_next_ref w_writer w_heap w_rooms]. rewrite Hnext.
  split_and!; [rewrite length_app; simpl; lia|done| |].
  - intros i. destruct (decide (i = length l)) as [->|Hi].
    + by rewrite lookup_insert_eq, list_lookup_middle.
    + rewrite lookup_insert_ne by done. rewrite Hheap. destruct (decide (i < length l)).
      * by rewrite lookup_app_l.
      * rewrite !lookup_ge_None_2; [done| |lia]. rewrite length_app. simpl. lia.
  - intros sid i. destruct (decide (rst_session_id x = sid)) as [<-|Hsid].
    + rewrite lookup_insert_eq. split.
      * intros [= <-]. exists x. by rewrite list_lookup_middle.
      * intros (r & Hr & Heq). apply lookup_snoc_Some in Hr as [[_ Hr]|[<- _]]; [|done].
        destruct (Hnew (rst_session_id x)); [|left].
        apply list_elem_of_fmap. exists r. split; [done|]. by eapply list_elem_of_lookup_2.
    + rewrite lookup_insert_ne by done. rewrite Hrooms. split.
      * intros (r & Hr & Heq). exists r. split; [|done]. by apply lookup_app_l_Some.
      * intros (r & Hr & Heq). exists r. split; [|done].
        by apply lookup_snoc_Some in Hr as [[_ Hr]|[_ <-]].
Qed.

Context `{!CryptoLaws _}.

(** The guests of a room are restored or none is. *)
Lemma load_room_size now inow room r :
  load_room now inow room = Some r -> dom (rst_reservations r) = dom (dto_reservations room).
Proof.
  unfold load_room. destruct (load_header now room) as [v|]; [|done].
  pose proof (load_reservations_spec now inow room) as Hl.
  destruct (load_reservations _ _ _ _ _) as [m|]; [|done]. intros [= <-]. simpl.
  destruct Hl as [Hall Hm]. apply set_eq. intros id. rewrite !elem_of_dom, Hm.
  destruct (dto_reservations room !! id) as [d|] eqn:Hd; simpl; [|done].
  split; [by eexists|]. intros _. destruct (Hall id d Hd) as (_ & _ & Hver).
  unfold load_reservation. by apply fmap_is_Some.
Qed.

Lemma loaded_from now inow dto r :
  r ∈ load_rooms now inow (dto_rooms dto) ∅ ->
  exists room, room ∈ dto_rooms dto /\ load_room now inow room = Some r.
Proof.
  intros Hr. destruct (load_rooms_sublist now inow (dto_rooms dto) ∅) as (Hsub & _).
  by apply list_elem_of_omap, (elem_of_sublist _ _ _ Hr Hsub).
Qed.

(** The guests that a file gives its rooms. *)
Definition at_most_seven (file : option (list byte)) : Prop :=
  forall bytes dto room, file = Some bytes -> from_slice bytes = Some dto ->
    room ∈ dto_rooms dto -> size (dto_reservations room) <= MAX_ROOM_SIZE - 1.

Lemma load_snapshot_bootable file now inow :
  at_most_seven file -> bootable (load_snapshot file now inow).
Proof.
  intros Hseven. unfold load_snapshot. destruct file as [bytes|]; [|split; constructor].
  destruct (from_slice bytes) as [dto|] eqn:Hdto; [|split; constructor].
  destruct (negb _); [split; constructor|].
  split; [apply load_rooms_sublist|]. apply Forall_forall. intros r Hr.
  destruct (loaded_from _ _ _ _ Hr) as (room & Hin & Hload).
  pose proof (load_room_size _ _ _ _ Hload) as Hdom.
  apply load_room_ok in Hload as (_ & _ & _ & _ & _ & Hhost & _). split; [done|].
  rewrite <- size_dom, Hdom, size_dom. by apply (Hseven bytes dto).
Qed.

(** C27: starting up.  Whatever the state file holds, as long as it gives no
    room more than seven guests, the server starts from it, without a panic, in
    a sound state: the table is unlocked, exactly the rooms that passed the checks are
    registered, each under its own id, open, with nobody connected, and well
    formed, and the quota counts them.  A value of the trusted networks that
    cannot be parsed means that no proxy is trusted, and then every request is
    accounted to its own peer. *)
Theorem startup_spec config fs now inow (Hseven : at_most_seven (fs !! cfg_state_file config)) :
  let restored := load_snapshot (fs !! cfg_state_file config) now inow in
  exists app, startup config fs now inow = Some app
  /\ idle_world (sv_world (app_server app))
  /\ (forall sid i, w_rooms (sv_world (app_server app)) !! sid = Some i <->
        exists r, restored !! i = Some r /\ rst_session_id r = sid)
  /\ (forall i, w_heap (sv_world (app_server app)) !! i = restored_state <$> restored !! i)
  /\ (forall i st, w_heap (sv_world (app_server app)) !! i = Some st ->
        room_wf st /\ closing st = false /\ peers st = ∅ /\ owner_ip_key st = "")
  /\ (is_ok (parse_trusted_proxy_cidrs (cfg_trusted_proxy_cidrs config)) = false ->
        forall peer headers, resolve (app_client_ip app) peer headers = Ok (normalize (unmap peer))).
Proof.
  intros restored. pose proof (load_snapshot_bootable _ now inow Hseven) as Hboot.
  destruct (restore_rooms_table _ (proj1 Hboot)) as (_ & _ & Hheap & Hrooms).
  unfold startup.
  destruct (ip_limiter_new_total CONNECT_ATTEMPT_BURST CONNECT_ATTEMPT_SUSTAINED) as [limiter ->].
  destruct (ip_limiter_new_total FAILED_LOG_LOOKUP_BURST FAILED_LOG_LOOKUP_SUSTAINED) as [lookups ->].
  eexists. split; [reflexivity|]. cbn [app_server app_client_ip boot_server sv_world]. split_and!; [|done|done| |].
  - destruct (boot_wf _ Hboot) as [Hw Hwr]. split_and!; [done..|]. by apply boot_accounts.
  - intros i st Hst. rewrite Hheap in Hst.
    destruct (load_snapshot (fs !! cfg_state_file config) now inow !! i) as [r|] eqn:Hr; [|done]. injection Hst as <-.
    destruct Hboot as [_ Hall]. rewrite Forall_lookup in Hall.
    destruct (Hall i r Hr) as [Hhost Hsize]. split_and!; try done. by apply restore_wf.
  - intros Hbad peer headers. by destruct (parse_trusted_proxy_cidrs (cfg_trusted_proxy_cidrs config)).
Qed.
End startup.

Create HintDb app.

Section refinement.
Context `{HashIter} `{CryptoLib} `{IpNetLib} `{GovernorLib} `{BodyLimitLib}.

Abbreviation nobody := (fun _ : nat => false).
Abbreviation tasks := (own_starts nobody).
Abbreviation may_follow t q := (Simulation.may_follow app_server (server_starts tasks t) true q).

Lemma on_server_section {B} (f : Server -> option (Server * B)) a a' b :
  on_server f a = Some (a', b) -> f (app_server a) = Some (app_server a', b).
Proof. unfold on_server. destruct (f _) as [[s b']|]; [|done]. by intros [= <- <-]. Qed.

Lemma simulates_within {A} (p : prog Server A) : simulates app_server true (within p) p.
Proof.
  induction p as [a|B f k IH|k IH]; cbn [within]; [done| |].
  - apply simulates_section; [|done]. intros a a' b. apply on_server_section.
  - intros a b. exists (k b). split; [|done]. apply rtc_once. constructor.
Qed.

(** Sections of the application's own. *)
Lemma app_stutter {A B} (f : AppState -> option (AppState * B)) k (p : prog Server A) :
  (forall a a' b, f a = Some (a', b) -> app_server a' = app_server a) ->
  (forall b, simulates app_server true (k b) p) -> simulates app_server true (Sec f k) p.
Proof. apply simulates_stutter. Qed.

Lemma address_server peer headers a a' b :
  (fun a : AppState => Some (a, resolve (app_client_ip a) peer (forwarded_for headers))) a
  = Some (a', b) -> app_server a' = app_server a.
Proof. by intros [= <- _]. Qed.

Lemma allow_connect_server ip now a a' b :
  allow_connect ip now a = Some (a', b) -> app_server a' = app_server a.
Proof. unfold allow_connect. destruct (ip_limiter_allow _ _ _). by intros [= <- _]. Qed.

Lemma allow_failed_lookup_server ip now a a' b :
  allow_failed_lookup ip now a = Some (a', b) -> app_server a' = app_server a.
Proof. unfold allow_failed_lookup. destruct (ip_limiter_allow _ _ _). by intros [= <- _]. Qed.

Lemma open_slot_server t ip a a' b : open_slot t ip a = Some (a', b) -> app_server a' = app_server a.
Proof. unfold open_slot. destruct (try_connect _ _). by intros [= <- _]. Qed.

Lemma close_slot_server t ip a a' b : close_slot t ip a = Some (a', b) -> app_server a' = app_server a.
Proof. by intros [= <- _]. Qed.

Lemma acquire_server t a a' b : acquire t a = Some (a', b) -> app_server a' = app_server a.
Proof. unfold acquire. destruct (app_lookup_slots a); by intros [= <- _]. Qed.

Lemma release_server t a a' b : release t a = Some (a', b) -> app_server a' = app_server a.
Proof. by intros [= <- _]. Qed.

#[local] Hint Resolve address_server allow_connect_server allow_failed_lookup_server
  open_slot_server close_slot_server acquire_server release_server may_follow_ret : app.

(** One section of the application's own in front. *)
Ltac stutter := apply may_follow_stutter; [intros; eauto with app|intros ?; cbn [bind]; cbv beta].

Lemma relay_follows t peer headers now upgraded :
  t <> writer_task -> may_follow t (relay t peer headers now upgraded).
Proof.
  intros Ht. stutter. destruct b as [ip|]; [|destruct upgraded; eauto with app]. cbn [bind].
  stutter. destruct b; cbn [negb bind]; [|destruct upgraded; eauto with app].
  stutter. destruct b; cbn [negb bind]; [|destruct upgraded; eauto with app].
  destruct upgraded as [[[opened arrivals] closed]|]; [|eauto with app].
  apply (may_follow_start _ _ _ _ (lift t (connection_run t t (to_string ip) opened arrivals closed))).
  - apply server_task; [done|]. by apply own_starts_connection.
  - apply simulates_after; [apply simulates_within|]. intros [].
    apply app_stutter; [intros; eauto with app|]. by intros [].
Qed.

Lemma logs_only_upload ip body inow now draws : logs_only (upload ip body inow now draws).
Proof.
  apply logs_only_bind; [apply logs_only_sec|]. intros allowed. destruct allowed; cbn [negb]; [|done].
  destruct (refuse_body body); [done|]. apply logs_only_sec.
Qed.

Lemma logs_only_find id : logs_only (find_log id).
Proof. unfold find_log. destruct (valid_log_id id); [apply logs_only_sec|done]. Qed.

(** A handler that uses the log store in the middle. *)
Lemma logs_follow {A} t (p : prog World A) (k : A -> prog AppState unit) :
  t <> writer_task -> logs_only p -> (forall a, simulates app_server true (k a) (Ret tt)) ->
  may_follow t (bind (within (lift t p)) k).
Proof.
  intros Ht Hp Hk. apply (may_follow_start _ _ _ _ (lift t (bind p (fun _ => Ret tt)))).
  - apply server_task; [done|]. by apply own_starts_logs, logs_only_bind.
  - clear Hp. induction p as [a|B f k' IH|k' IH]; cbn [lift within bind]; [apply Hk|..].
    + apply simulates_section; [|exact IH]. intros a a' b. apply on_server_section.
    + apply simulates_section; [|exact IH]. intros a a' b. apply on_server_section.
Qed.

Lemma get_logs_follows t peer headers id now :
  t <> writer_task -> may_follow t (get_logs t peer headers id now ;! Ret tt).
Proof.
  intros Ht. stutter. destruct b as [ip|]; cbn [bind]; [|eauto with app].
  stutter. destruct b; cbn [negb bind]; [|eauto with app].
  apply (may_follow_start _ _ _ _ (lift t (bind (find_log id) (fun _ => Ret tt)))).
  { apply server_task; [done|]. apply own_starts_logs, logs_only_bind; [apply logs_only_find|done]. }
  assert (Hrelease : forall (r : Response), simulates app_server true
    (bind (bind (sec (release t)) (fun _ => Ret r)) (fun _ => Ret tt)) (Ret tt)).
  { intros r. apply app_stutter; [intros; eauto with app|done]. }
  assert (Hend : forall found : option (list byte), simulates app_server true
    (bind (bind match found with
      | None => let! allowed := sec (allow_failed_lookup ip now) in
                Ret (if negb allowed then RText 429 "Too many failed lookups" else RText 404 "Not found")
      | Some data => Ret (RLog data log_headers)
      end (fun r => bind (sec (release t)) (fun _ => Ret r))) (fun _ => Ret tt)) (Ret tt)).
  { intros [data|]; [apply Hrelease|]. apply app_stutter; [intros; eauto with app|].
    intros allowed. apply Hrelease. }
  unfold find_log. destruct (valid_log_id id); cbn [bind within lift sec]; [|exact (Hend None)].
  apply simulates_section; [|exact Hend]. intros a a' b. apply on_server_section.
Qed.

Lemma handle_follows t peer headers r : t <> writer_task -> may_follow t (handle t peer headers r).
Proof.
  intros Ht. destruct r as [now upgraded|body inow now draws|id now|]; cbn [handle].
  - by apply relay_follows.
  - destruct (limit_body _ _); [eauto with app|]. stutter.
    destruct b as [ip|]; cbn [bind]; [|eauto with app].
    apply logs_follow; [done|apply logs_only_upload|done].
  - by apply get_logs_follows.
  - eauto with app.
Qed.

Lemma abandon_follows t peer headers r : t <> writer_task -> may_follow t (abandon t peer headers r).
Proof.
  intros Ht. destruct r as [now upgraded|body inow now draws|id now|]; cbn [abandon];
    [by apply handle_follows| | |by apply handle_follows].
  - destruct (limit_body _ _); [eauto with app|]. stutter.
    destruct b as [ip|]; cbn [bind]; [|eauto with app].
    apply logs_follow; [done|apply logs_only_sec|done].
  - destruct (valid_log_id id); cbn [negb]; [|by apply handle_follows]. stutter.
    destruct b as [ip|]; cbn [bind]; [|eauto with app].
    stutter. destruct b; cbn [negb bind]; [|eauto with app]. stutter. destruct b. eauto with app.
Qed.

Lemma app_follows clock fails t q : app_starts clock fails t q -> may_follow t q.
Proof.
  destruct 1 as [peer headers r Ht _ _|peer headers r Ht _ _|ticks Ht _|fates ->|timed_out Ht].
  - by apply handle_follows.
  - by apply abandon_follows.
  - eapply may_follow_start; [|apply simulates_within]. apply server_task; [done|apply own_starts_cleanup].
  - eapply may_follow_start; [|apply simulates_within]. by apply server_writer.
  - eapply may_follow_start; [|apply simulates_within]. by apply server_shutdown.
Qed.

Lemma startup_server `{SnapshotLib} config fs now inow app :
  startup config fs now inow = Some app ->
  app_server app = boot_server (dto_rooms <$> (fs !! cfg_state_file config ≫= from_slice))
                     (load_snapshot (fs !! cfg_state_file config) now inow).
Proof. unfold startup. intros Hs. repeat case_match; by simplify_eq. Qed.

Lemma app_matched `{SnapshotLib} config fs now inow app clock fails a ps :
  startup config fs now inow = Some app -> pool_reach (app_starts clock fails) app (a, ps) ->
  exists ps', pool_reach (server_starts tasks)
      (boot_server (dto_rooms <$> (fs !! cfg_state_file config ≫= from_slice))
         (load_snapshot (fs !! cfg_state_file config) now inow)) (app_server a, ps')
    /\ Simulation.matched app_server (server_starts tasks) (fun _ => true) ps ps'.
Proof.
  intros Hstart Hreach. rewrite <- (startup_server _ _ _ _ _ Hstart).
  exact (pool_matched app_server _ _ _ (app_follows clock fails) app a ps Hreach).
Qed.

(** C3: the application is layered.  In every run of the application, from a
    state that [startup] built, with any requests at any time beside the
    cleanup loop, the writer and the shutdown, what happens to the server is a
    run of the server's own tasks, connections that each use the channel they
    were given, and through it the world's; a task that is over above is over
    below.  So whatever is proved of all runs of the server, and of all
    interleavings of the world's tasks, is true of the application. *)
Theorem app_refines_server `{SnapshotLib} config fs now inow app clock fails a ps
    (Hstart : startup config fs now inow = Some app)
    (Hreach : pool_reach (app_starts clock fails) app (a, ps)) :
  exists ps', pool_reach (server_starts tasks)
      (boot_server (dto_rooms <$> (fs !! cfg_state_file config ≫= from_slice)) (load_snapshot (fs !! cfg_state_file config) now inow))
      (app_server a, ps')
    /\ (forall t p, ps' !! t = Some p -> is_Some (ps !! t))
    /\ (forall t p, ps' !! t = Some p -> ps !! t = Some (Ret tt) -> p = Ret tt)
    /\ exists ps'', pool_reach tasks (boot (load_snapshot (fs !! cfg_state_file config) now inow))
        (sv_world (app_server a), ps'').
Proof.
  destruct (app_matched config fs now inow app clock fails a ps Hstart Hreach)
    as (ps' & Hserver & [Hnone Hsome]).
  exists ps'. split_and!; [done| | |].
  - intros t p Hp. destruct (ps !! t) as [q|] eqn:Hq; [by eexists|]. by rewrite (Hnone t Hq) in Hp.
  - intros t p Hp Hq. specialize (Hsome t _ Hq). rewrite Hp in Hsome. by apply Hsome.
  - destruct (server_matched tasks ltac:(intros; apply own_starts_captures) _ _ _ _ eq_refl Hserver)
      as (ps'' & Hworld & _). by exists ps''.
Qed.
End refinement.
