(* ===== verification/AppSlots.v ===== *)
(** * Slots and permits: admission under every interleaving

    The counters of open connections and the semaphore of lookups say what the
    tasks own, and a task that is over owns nothing. *)
From S2P Require Import Prelude.
From S2P Require Import NetAddr.
From S2P Require Import ClientIp.
From S2P Require Import Quotas.
From S2P Require Import Logs.
From S2P Require Import Ids.
From S2P Require Import Room.
From S2P Require Import Snapshot.
From S2P Require Import Threads.
From S2P Require Import World.
From S2P Require Import Connection.
From S2P Require Import Server.
From S2P Require Import App.

(** ** Counting *)

Lemma conns_of_perm ip l l' : Permutation l l' -> conns_of ip l = conns_of ip l'.
Proof. induction 1; rewrite ?conns_of_cons; lia. Qed.

Lemma counts_perm q l l' : Permutation l l' -> counts q l -> counts q l'.
Proof.
  intros Hp [Hg Hip]. split; [by rewrite <- (Permutation_length Hp)|].
  intros ip. by rewrite <- (conns_of_perm ip l l' Hp).
Qed.

Lemma within_caps_perm l l' : Permutation l l' -> within_caps l -> within_caps l'.
Proof.
  intros Hp [Hg Hip]. split; [by rewrite <- (Permutation_length Hp)|].
  intros ip. by rewrite <- (conns_of_perm ip l l' Hp).
Qed.

Section slots.
Context `{HashIter} `{CryptoLib} `{SnapshotLib} `{IpNetLib} `{GovernorLib} `{BodyLimitLib}.

(** The addresses of the slots taken. *)
Definition live_ips (live : gmap nat IpAddr) : list IpAddr := (map_to_list live).*2.

Lemma live_ips_insert live t ip :
  live !! t = None -> Permutation (ip :: live_ips live) (live_ips (<[t := ip]> live)).
Proof. intros Ht. unfold live_ips. by rewrite map_to_list_insert. Qed.

Lemma live_ips_delete live t ip :
  live !! t = Some ip -> Permutation (live_ips live) (ip :: live_ips (delete t live)).
Proof. intros Ht. unfold live_ips. by rewrite <- (map_to_list_delete live t ip Ht). Qed.

Record slots_ok (a : AppState) : Prop := {
  so_counts : counts (app_connections a) (live_ips (app_live a));
  so_caps : within_caps (live_ips (app_live a));
  so_permits : app_lookup_slots a + size (app_lookups a) = MAX_CONCURRENT_LOOKUPS;
}.

(** A section of task [t] leaves the others' slots and permits alone. *)
Record slot_guar (t : nat) (a a' : AppState) : Prop := {
  sl_live : forall t', t' <> t -> app_live a' !! t' = app_live a !! t';
  sl_lookups : forall t', t' <> t -> t' ∈ app_lookups a' <-> t' ∈ app_lookups a;
  sl_ok : slots_ok a -> slots_ok a';
}.

(** What task [t] owns. *)
Record owns_slots (t : nat) (slot : option IpAddr) (permit : bool) (a : AppState) : Prop := {
  os_ok : slots_ok a;
  os_slot : app_live a !! t = slot;
  os_permit : t ∈ app_lookups a <-> permit = true;
}.

Abbreviation keeps_slots t L p Q := (keeps (fun _ => True) slot_guar (fun _ => slots_ok) t L p Q).

Lemma owns_slots_assertion t slot permit :
  assertion (fun _ => True) slot_guar (fun _ => slots_ok) t (owns_slots t slot permit).
Proof.
  split; [|by intros a []]. intros t' a a' Hne [Hlive Hlook Hok] _ _ [Ha Hs Hp].
  split; [auto|by rewrite Hlive|by rewrite Hlook].
Qed.

(** ** Sections *)

Lemma keeps_own_section {B} t slot permit (f : AppState -> option (AppState * B))
    (slot' : B -> option IpAddr) (permit' : B -> bool) :
  (forall a a' b, owns_slots t slot permit a -> f a = Some (a', b) ->
     slot_guar t a a' /\ owns_slots t (slot' b) (permit' b) a') ->
  keeps_slots t (owns_slots t slot permit) (sec f)
    (fun b => owns_slots t (slot' b) (permit' b)).
Proof.
  intros Hf. apply keeps_sec; [intros; apply owns_slots_assertion|]. intros a a' b _ _. apply Hf.
Qed.

(** A section that touches neither. *)
Definition same_slots (a a' : AppState) : Prop :=
  app_connections a' = app_connections a /\ app_lookup_slots a' = app_lookup_slots a
  /\ app_live a' = app_live a /\ app_lookups a' = app_lookups a.

Lemma keeps_elsewhere {B} t slot permit (f : AppState -> option (AppState * B)) :
  (forall a a' b, f a = Some (a', b) -> same_slots a a') ->
  keeps_slots t (owns_slots t slot permit) (sec f) (fun _ => owns_slots t slot permit).
Proof.
  intros Hf. apply (keeps_own_section t slot permit f (fun _ => slot) (fun _ => permit)).
  intros a a' b [Hok Hs Hp] Hfa. destruct (Hf _ _ _ Hfa) as (Hc & Hn & Hl & Hk).
  assert (Hok' : slots_ok a') by (destruct Hok; split; by rewrite ?Hc, ?Hn, ?Hl, ?Hk).
  split; [split; intros; by rewrite ?Hl, ?Hk|]. split; [done|by rewrite Hl|by rewrite Hk].
Qed.

Lemma keeps_within {A} t slot permit (p : prog Server A) :
  keeps_slots t (owns_slots t slot permit) (within p) (fun _ => owns_slots t slot permit).
Proof.
  induction p as [x|B f k IH|k IH]; cbn [within]; [by intros a _ Hl| |by intros b; apply IH].
  change (keeps_slots t (owns_slots t slot permit) (bind (sec (on_server f)) (fun b => within (k b)))
            (fun _ => owns_slots t slot permit)).
  eapply keeps_bind; [apply keeps_elsewhere|exact IH]. intros a a' b. unfold on_server.
  destruct (f (app_server a)) as [[s b']|]; [|done]. by intros [= <- _].
Qed.

Lemma keeps_open_slot t ip permit :
  keeps_slots t (owns_slots t None permit) (sec (open_slot t ip))
    (fun ok => owns_slots t (if ok then Some ip else None) permit).
Proof.
  apply (keeps_own_section t None permit _ (fun ok : bool => if ok then Some ip else None) (fun _ => permit)).
  intros a a' b [[Hc Hcap Hn] Hs Hp]. unfold open_slot.
  pose proof (quota_step_counts (app_connections a) _ (OpConnect ip) Hc Hcap) as Hstep.
  cbn [quota_step spec_quota_step] in Hstep. destruct (try_connect _ ip) as [q ok].
  intros [= <- <-].
  assert (Hq : (ok = true -> counts q (ip :: live_ips (app_live a)) /\ within_caps (ip :: live_ips (app_live a)))
    /\ (ok = false -> counts q (live_ips (app_live a)))).
  { destruct (_ && _); destruct Hstep as ([= ->] & ? & ?); by split. }
  clear Hstep. pose proof (live_ips_insert (app_live a) t ip Hs) as Hins.
  assert (Hok' : slots_ok (set_connections a q (if ok then <[t:=ip]> (app_live a) else app_live a))).
  { destruct ok; split; cbn [set_connections app_connections app_live app_lookup_slots app_lookups]; try done.
    - eapply counts_perm; [exact Hins|by apply Hq].
    - eapply within_caps_perm; [exact Hins|by apply Hq].
    - by apply Hq. }
  split; [split; cbn [set_connections app_live app_lookups]; [|done|done]|].
  - intros t' Hne. destruct ok; [by rewrite lookup_insert_ne|done].
  - split; [done| |done]. cbn [set_connections app_live]. destruct ok; [by rewrite lookup_insert_eq|done].
Qed.

Lemma keeps_close_slot t ip permit :
  keeps_slots t (owns_slots t (Some ip) permit) (sec (close_slot t ip))
    (fun _ => owns_slots t None permit).
Proof.
  apply (keeps_own_section t (Some ip) permit _ (fun _ => None) (fun _ => permit)).
  intros a a' b [[Hc Hcap Hn] Hs Hp] [= <- _].
  pose proof (live_ips_delete _ _ _ Hs) as Hdel.
  assert (Hok' : slots_ok (set_connections a (Quotas.disconnect (app_connections a) ip) (delete t (app_live a)))).
  { pose proof (quota_step_counts (app_connections a) (ip :: live_ips (delete t (app_live a)))
      (OpDisconnect ip) ltac:(by eapply counts_perm) ltac:(by eapply within_caps_perm)) as (_ & Hc' & Hcap').
    cbn [quota_step spec_quota_step fst] in Hc', Hcap'. cbn [remove_one] in Hc', Hcap'.
    rewrite bool_decide_eq_true_2 in Hc', Hcap' by done.
    split; cbn [set_connections app_connections app_live app_lookup_slots app_lookups]; done. }
  split; [split; cbn [set_connections app_live app_lookups]; [|done|done]|].
  - intros t' Hne. by rewrite lookup_delete_ne.
  - split; [done| |done]. cbn [set_connections app_live]. apply lookup_delete_eq.
Qed.

Lemma keeps_acquire t slot :
  keeps_slots t (owns_slots t slot false) (sec (acquire t)) (fun ok => owns_slots t slot ok).
Proof.
  apply (keeps_own_section t slot false _ (fun _ => slot) (fun ok => ok)).
  intros a a' b [[Hc Hcap Hn] Hs Hp]. unfold acquire.
  destruct (app_lookup_slots a) as [|n] eqn:Hslots; intros [= <- <-].
  { assert (slots_ok a) by (split; by rewrite ?Hslots). by split. }
  assert (Hnot : t ∉ app_lookups a) by (intros Hin; by apply Hp in Hin).
  assert (Hok' : slots_ok (set_lookups a n ({[t]} ∪ app_lookups a))).
  { split; cbn [set_lookups app_connections app_live app_lookup_slots app_lookups]; [done..|].
    rewrite size_union, size_singleton by set_solver. lia. }
  split; [split; cbn [set_lookups app_live app_lookups]; [done| |done]|]; [set_solver|].
  split; [done|done|]. cbn [set_lookups app_lookups]. set_solver.
Qed.

Lemma keeps_release t slot :
  keeps_slots t (owns_slots t slot true) (sec (release t)) (fun _ => owns_slots t slot false).
Proof.
  apply (keeps_own_section t slot true _ (fun _ => slot) (fun _ => false)).
  intros a a' b [[Hc Hcap Hn] Hs Hp] [= <- _].
  assert (Hin : t ∈ app_lookups a) by by apply Hp.
  assert (Hok' : slots_ok (set_lookups a (S (app_lookup_slots a)) (app_lookups a ∖ {[t]}))).
  { split; cbn [set_lookups app_connections app_live app_lookup_slots app_lookups]; [done..|].
    rewrite size_difference, size_singleton by set_solver.
    assert (size (app_lookups a) <> 0) by (intros H0'%size_empty_inv; set_solver). lia. }
  split; [split; cbn [set_lookups app_live app_lookups]; [done| |done]|]; [set_solver|].
  split; [done|done|]. cbn [set_lookups app_lookups]. set_solver.
Qed.

(** ** Tasks *)

(** The limiters and the resolver are elsewhere. *)
Lemma same_slots_address peer headers (a a' : AppState) b :
  Some (a, resolve (app_client_ip a) peer (forwarded_for headers)) = Some (a', b) -> same_slots a a'.
Proof. by intros [= <- _]. Qed.

Lemma same_slots_connect ip now a a' b : allow_connect ip now a = Some (a', b) -> same_slots a a'.
Proof. unfold allow_connect. destruct (ip_limiter_allow _ _ _). by intros [= <- _]. Qed.

Lemma same_slots_lookup ip now a a' b : allow_failed_lookup ip now a = Some (a', b) -> same_slots a a'.
Proof. unfold allow_failed_lookup. destruct (ip_limiter_allow _ _ _). by intros [= <- _]. Qed.

Abbreviation owns_nothing t := (owns_slots t None false).

Lemma keeps_ws_handler t peer headers now :
  keeps_slots t (owns_nothing t) (ws_handler t peer headers now)
    (fun answer => owns_slots t (match answer with Ok ip => Some ip | Err _ => None end) false).
Proof.
  unfold ws_handler. eapply keeps_bind; [apply keeps_elsewhere; intros; by eapply same_slots_address|].
  intros [ip|]; [|by intros a _ Ha].
  eapply keeps_bind; [apply keeps_elsewhere; intros; by eapply same_slots_connect|].
  intros [|]; cbn [negb]; [|by intros a _ Ha].
  eapply keeps_bind; [apply keeps_open_slot|]. intros [|]; by intros a _ Ha.
Qed.

(** What a task leaves behind: a slot, if its upgrade failed. *)
Definition left_over (fails : nat -> bool) (t : nat) (a : AppState) : Prop :=
  slots_ok a /\ (t ∉ app_lookups a) /\ (fails t = false -> app_live a !! t = None).

Lemma owns_nothing_left fails t a : owns_nothing t a -> left_over fails t a.
Proof. intros [Hok Hs Hp]. split_and!; [done| |done]. intros Hin. by apply Hp in Hin. Qed.

Lemma keeps_relay fails t peer headers now upgraded :
  (upgraded = None -> fails t = true) ->
  keeps_slots t (owns_nothing t) (relay t peer headers now upgraded) (fun _ => left_over fails t).
Proof.
  intros Hfails. unfold relay. eapply keeps_bind; [apply keeps_ws_handler|].
  intros [ip|]; [|destruct upgraded; intros a _ Ha; by apply owns_nothing_left].
  destruct upgraded as [[[opened arrivals] closed]|].
  - eapply keeps_bind; [apply keeps_within|]. intros u.
    eapply keeps_weaken; [intros a0 _ Ha; exact Ha| |apply keeps_close_slot].
    intros ? a _. apply owns_nothing_left.
  - intros a _ [Hok Hs Hp]. split_and!; [done|by intros Hin%Hp|]. by rewrite Hfails.
Qed.

Lemma keeps_get_logs t peer headers id now :
  keeps_slots t (owns_nothing t) (get_logs t peer headers id now) (fun _ => owns_nothing t).
Proof.
  unfold get_logs. eapply keeps_bind; [apply keeps_elsewhere; intros; by eapply same_slots_address|].
  intros [ip|]; [|by intros a _ Ha].
  eapply keeps_bind; [apply keeps_acquire|]. intros [|]; cbn [negb]; [|by intros a _ Ha].
  eapply keeps_bind; [apply keeps_within|]. intros found.
  eapply keeps_bind with (Q := fun _ => owns_slots t None true).
  - destruct found as [data|]; [by intros a _ Ha|].
    eapply keeps_bind; [apply keeps_elsewhere; intros; by eapply same_slots_lookup|].
    intros allowed. by intros a _ Ha.
  - intros response. eapply keeps_bind; [apply keeps_release|]. by intros ? a _ Ha.
Qed.

Lemma keeps_post_logs t peer headers body inow now draws :
  keeps_slots t (owns_nothing t) (post_logs t peer headers body inow now draws)
    (fun _ => owns_nothing t).
Proof.
  unfold post_logs. eapply keeps_bind; [apply keeps_elsewhere; intros; by eapply same_slots_address|].
  intros [ip|]; [apply keeps_within|by intros a _ Ha].
Qed.

Lemma keeps_nothing fails t (p : prog AppState unit) :
  keeps_slots t (owns_nothing t) p (fun _ => owns_nothing t) ->
  keeps_slots t (owns_nothing t) p (fun _ => left_over fails t).
Proof. apply keeps_weaken; [by intros a _ Ha|]. intros ? a _. apply owns_nothing_left. Qed.

Lemma keeps_handle fails t peer headers r :
  (forall now, r = GetRelay now None -> fails t = true) ->
  keeps_slots t (owns_nothing t) (handle t peer headers r) (fun _ => left_over fails t).
Proof.
  intros Hf. destruct r as [now upgraded|body inow now draws|id now|]; cbn [handle].
  - apply keeps_relay. intros ->. by apply (Hf now).
  - destruct (limit_body _ _); [by intros a _ Ha; apply owns_nothing_left|].
    apply keeps_nothing. eapply keeps_bind; [apply keeps_post_logs|]. by intros ? a _ Ha.
  - apply keeps_nothing. eapply keeps_bind; [apply keeps_get_logs|]. by intros ? a _ Ha.
  - by intros a _ Ha; apply owns_nothing_left.
Qed.

(** The permit of a request that is dropped comes back. *)
Lemma keeps_abandon fails t peer headers r :
  (forall now, r = GetRelay now None -> fails t = true) ->
  keeps_slots t (owns_nothing t) (abandon t peer headers r) (fun _ => left_over fails t).
Proof.
  intros Hf. destruct r as [now upgraded|body inow now draws|id now|]; cbn [abandon];
    [by apply keeps_handle| | |by apply keeps_handle].
  - destruct (limit_body _ _); [by intros a _ Ha; apply owns_nothing_left|]. apply keeps_nothing.
    eapply keeps_bind; [apply keeps_elsewhere; intros; by eapply same_slots_address|].
    intros [ip|]; [|by intros a _ Ha]. eapply keeps_bind; [apply keeps_within|]. by intros ? a _ Ha.
  - destruct (valid_log_id id); cbn [negb]; [|by apply keeps_handle]. apply keeps_nothing.
    eapply keeps_bind; [apply keeps_elsewhere; intros; by eapply same_slots_address|].
    intros [ip|]; [|by intros a _ Ha].
    eapply keeps_bind; [apply keeps_acquire|]. intros [|]; cbn [negb]; [|by intros a _ Ha].
    apply keeps_release.
Qed.

Lemma app_keeps_slots clock fails t q :
  app_starts clock fails t q ->
  keeps_slots t (owns_nothing t) q (fun _ => left_over fails t).
Proof.
  destruct 1 as [peer headers r Ht _ Hf|peer headers r Ht _ Hf|ticks Ht _|fates ->|timed_out Ht];
    [by apply keeps_handle|by apply keeps_abandon|apply keeps_nothing, keeps_within..].
Qed.

(** ** Admission *)

(** The answer to an attempt, from the list of open connections. *)
Definition admission (a : AppState) (peer : IpAddr) (headers : list (option string)) (now : Instant)
    : result IpAddr Response :=
  match resolve (app_client_ip a) peer (forwarded_for headers) with
  | Err _ => Err (RText 400 "Invalid client address")
  | Ok ip =>
    if negb (ip_limiter_allow (app_connect_limiter a) ip now).2
    then Err (RText 429 "Too many connection attempts")
    else if (length (live_ips (app_live a)) <? MAX_GLOBAL_CONNS)
            && (conns_of ip (live_ips (app_live a)) <? MAX_CONNS_PER_IP)
    then Ok ip
    else Err (RText 429 "Too many connections")
  end.

Lemma run_ws_handler answer t peer headers now a :
  slots_ok a -> app_live a !! t = None ->
  exists a', run answer (ws_handler t peer headers now) a = Some (a', admission a peer headers now)
    /\ app_live a' = match admission a peer headers now with
                     | Ok ip => <[t := ip]> (app_live a)
                     | Err _ => app_live a
                     end.
Proof.
  intros [Hc Hcap _] Ht. unfold ws_handler, client_address, admission. cbn [sec bind run].
  destruct (resolve _ _ _) as [ip|]; [|by exists a]. cbn [bind run].
  unfold allow_connect at 1. destruct (ip_limiter_allow _ _ _) as [limiter [|]]; cbn [snd negb run];
    [|by eexists].
  unfold open_slot at 1. cbn [set_limiters app_connections app_live].
  pose proof (quota_step_counts (app_connections a) _ (OpConnect ip) Hc Hcap) as Hstep.
  cbn [quota_step spec_quota_step] in Hstep. destruct (try_connect _ ip) as [q ok].
  destruct (_ && _); destruct Hstep as ([= ->] & _); cbn [negb run]; by eexists.
Qed.

Lemma startup_owns_nothing config fs now inow app t :
  startup config fs now inow = Some app -> owns_nothing t app.
Proof.
  unfold startup. intros Hs.
  assert (Hfields : app_connections app = default_quota /\ app_live app = ∅ /\ app_lookups app = ∅
    /\ app_lookup_slots app = MAX_CONCURRENT_LOOKUPS) by (repeat case_match; by simplify_eq).
  destruct Hfields as (Hq & Hl & Hk & Hn).
  pose proof (default_quota_counts) as [Hcounts Hcaps].
  split; [split; by rewrite ?Hq, ?Hl, ?Hk, ?Hn|by rewrite Hl|]. rewrite Hk. set_solver.
Qed.

(** C25: admission.  However requests, connections and their ends interleave,
    the counters are exactly the numbers of slots that tasks own, in all and
    for each address, whether requests are answered or dropped; at most 100 are owned, at most 5 for one address, and
    with the lookups in progress the free permits make 32.  A task that is over
    owns no permit and no slot, unless it is an attempt whose upgrade failed.
    At any moment an attempt is answered from the slots: 400 if its address
    cannot be told, 429 if the attempt limiter says so, and else it is let in
    exactly when fewer than 100 slots are taken, fewer than 5 of them for its
    address. *)
Theorem admission_exact clock fails app a ps
    (Hstart : exists config fs now inow, startup config fs now inow = Some app)
    (Hreach : pool_reach (app_starts clock fails) app (a, ps)) :
  slots_ok a
  /\ (forall t, ps !! t = Some (Ret tt) ->
        (t ∉ app_lookups a) /\ (fails t = false -> app_live a !! t = None))
  /\ forall answer t peer headers now, ps !! t = None ->
       exists a', run answer (ws_handler t peer headers now) a = Some (a', admission a peer headers now)
         /\ app_live a' = match admission a peer headers now with
                          | Ok ip => <[t := ip]> (app_live a)
                          | Err _ => app_live a
                          end.
Proof.
  assert (Hinit : forall t, owns_nothing t app).
  { destruct Hstart as (config & fs & now & inow & Hs). intros t. by eapply startup_owns_nothing. }
  destruct (pool_keeps (app_starts clock fails) (fun _ => True) slot_guar (fun _ => slots_ok)
    (fun t => owns_nothing t) (left_over fails) ltac:(intros; apply owns_slots_assertion)
    (app_keeps_slots clock fails) _ (a, ps) ltac:(done) Hinit Hreach) as [Hthr Hoth].
  assert (Hok : slots_ok a).
  { destruct (ps !! 0) as [q|] eqn:Hq; [|by apply (Hoth 0)].
    destruct (Hthr 0 q Hq) as (L & [_ HL] & Hl & _). by apply HL. }
  split_and!; [done| |].
  - intros t Ht. destruct (Hthr t _ Ht) as (L & _ & Hl & Hret). by apply (Hret a I Hl).
  - intros answer t peer headers now Ht. apply run_ws_handler; [done|]. by apply (Hoth t Ht).
Qed.
End slots.
