(* ===== verification/Sections.v ===== *)
(** * What every section of the application does

    To the log store, which nothing but an upload and the cleanup touches, and
    to the record of the operations on channels, which only grows. *)
From S2P Require Import Prelude.
From S2P Require Import Protocol.
From S2P Require Import Ids.
From S2P Require Import Room.
From S2P Require Import NetAddr.
From S2P Require Import ClientIp.
From S2P Require Import Quotas.
From S2P Require Import Logs.
From S2P Require Import Snapshot.
From S2P Require Import Threads.
From S2P Require Import World.
From S2P Require Import Registry.
From S2P Require Import Cleanup.
From S2P Require Import Connection.
From S2P Require Import System.
From S2P Require Import Server.
From S2P Require Import ServerThms.
From S2P Require Import App.
From S2P Require Import AppThms.

Section logs.
Context `{HashIter} `{CryptoLib} `{SnapshotLib} `{IpNetLib} `{GovernorLib} `{BodyLimitLib}.

(** ** Tasks that leave the log store alone *)

(** The logs stay; what was put on channels is never taken back. *)
Definition same_logs (w w' : World) : Prop :=
  w_logs w' = w_logs w /\ w_actions w `prefix_of` w_actions w'.

Abbreviation logs_kept := (each same_logs).

Lemma same_logs_refl w w' : w_logs w' = w_logs w -> w_actions w' = w_actions w -> same_logs w w'.
Proof. intros Hl Ha. split; [done|by rewrite Ha]. Qed.

Lemma kept_room {B} r (g : RoomState -> RoomState * B) : logs_kept (sec (with_room r g)).
Proof.
  apply each_sec. intros w w' b. unfold with_room. destruct (w_heap w !! r) as [st|]; [|done].
  destruct (g st). by intros [= <- _].
Qed.

Lemma kept_room_token {B} r (g : RoomState -> CancellationToken -> RoomState * B) :
  logs_kept (sec (with_room_token r g)).
Proof.
  apply each_sec. intros w w' b. unfold with_room_token, with_room.
  destruct (w_heap _ !! r) as [st|]; [|done]. destruct (g st _). by intros [= <- _].
Qed.

Lemma kept_rooms {B} (g : World -> World * B) :
  (forall w, same_logs w (g w).1) -> logs_kept (sec (with_rooms g)).
Proof.
  intros Hg. apply each_sec. intros w w' b. unfold with_rooms. specialize (Hg w).
  destruct (w_writer w); [done|]. destruct (g w). by intros [= <- _].
Qed.

Lemma kept_lock {B} t (g : gmap string nat -> B) : logs_kept (sec (lock_rooms t g)).
Proof.
  apply each_sec. intros w w' b. unfold lock_rooms. destruct (w_writer w); [done|]. by intros [= <- _].
Qed.

Lemma kept_unlock : logs_kept (sec unlock_rooms).
Proof. apply each_sec. by intros w w' b [= <- _]. Qed.

Lemma kept_locked {B} (g : World -> World * B) :
  (forall w, same_logs w (g w).1) -> logs_kept (sec (locked g)).
Proof.
  intros Hg. apply each_sec. intros w w' b. unfold locked. specialize (Hg w).
  destruct (g w). by intros [= <- _].
Qed.

Lemma kept_quota {B} (g : gmap string nat -> gmap string nat * B) : logs_kept (sec (with_quota g)).
Proof.
  apply each_sec. intros w w' b. unfold with_quota. destruct (g _). by intros [= <- _].
Qed.

Lemma kept_perform a : logs_kept (sec (perform a)).
Proof. apply each_sec. intros w w' b [= <- _]. split; [done|]. by eexists. Qed.

Lemma kept_perform_all l : logs_kept (perform_all l).
Proof. induction l as [|a l IH]; [done|]. apply each_bind; [apply kept_perform|done]. Qed.

Create HintDb kept.
#[local] Hint Resolve kept_room kept_room_token kept_lock kept_unlock kept_quota kept_perform
  kept_perform_all : kept.

(** Follows the program: its sections by the hints, its branches one by one. *)
Ltac kept_step :=
  first [done | solve [auto with kept nocore] | apply kept_rooms; by intros ?; apply same_logs_refl | apply kept_locked; by intros ?; apply same_logs_refl
        | apply each_bind; [|intros ?]
        | match goal with |- each _ (match ?x with _ => _ end) => destruct x end
        | match goal with |- each _ (if ?x then _ else _) => destruct x end ].
Ltac kept := cbv zeta; repeat kept_step.

Lemma kept_remove_entry r : logs_kept (sec (with_rooms (remove_entry_if r))).
Proof. apply kept_rooms. intros w. unfold remove_entry_if. by repeat case_match. Qed.

Lemma kept_insert sid host v token owner adm now :
  logs_kept (sec (locked (insert_new_room sid host v token owner adm now))).
Proof. apply kept_locked. intros w. unfold insert_new_room. by destruct (new_room _ _ _ _ _ _ _ _). Qed.
#[local] Hint Resolve kept_remove_entry kept_insert : kept.

Lemma kept_create_fresh sid host v token owner adm now :
  logs_kept (create_fresh sid host v token owner adm now).
Proof. unfold create_fresh, try_claim_room_quota, record_mutation. kept. Qed.
#[local] Hint Resolve kept_create_fresh : kept.

Lemma kept_create t sid host token owner adm now : logs_kept (create t sid host token owner adm now).
Proof. unfold create, release_room_quota, record_mutation. kept. Qed.

Lemma kept_end_session r id c token v : logs_kept (end_session r id c token v).
Proof. unfold end_session, release_room_quota, record_terminal_mutation. kept. Qed.

Lemma kept_leave r id c token v now : logs_kept (leave r id c token v now).
Proof. unfold leave, record_terminal_mutation. kept. Qed.

Lemma kept_remove_if_current r : logs_kept (remove_if_current r).
Proof. unfold remove_if_current, release_room_quota. kept. Qed.

Lemma kept_build_snapshot clock : logs_kept (build_snapshot clock).
Proof.
  unfold build_snapshot, all_rooms. kept. generalize (@nil RoomDto).
  induction a as [|r rooms IH]; intros dtos; cbn [capture_rooms]; kept.
Qed.
#[local] Hint Resolve kept_create kept_end_session kept_leave kept_remove_if_current : kept.

Lemma kept_handle_message t tx key ck msg c : logs_kept (handle_message t tx key ck msg c).
Proof.
  unfold handle_message, handle_create, handle_join, in_room, handle_leave, handle_end_session,
    handle_transfer_host, handle_broadcast, handle_send_to, get, apply_effects, refuse,
    room_join_or_resume, room_transfer_host, room_broadcast, room_send_to. kept.
Qed.
#[local] Hint Resolve kept_handle_message : kept.

Lemma kept_connection_run t tx key opened arrivals closed :
  logs_kept (connection_run t tx key opened arrivals closed).
Proof.
  unfold connection_run. apply each_bind; [|intros c; unfold finish_connection, room_disconnect, apply_effects; kept].
  generalize (opened + PONG_WAIT)%Z, new_conn.
  generalize (new_bucket PER_CONNECTION_MESSAGE_BURST PER_CONNECTION_MESSAGE_SUSTAINED opened).
  induction arrivals as [|a arrivals IH]; intros bucket deadline c; cbn [read_loop]; [done|].
  apply each_bind; [apply each_sec; by intros w w' b [= <- _]|]. unfold refuse. intros ?. kept.
Qed.
(** ** What every section does to the logs *)

Definition app_logs (a : AppState) : LogStore := w_logs (sv_world (app_server a)).

(** The store stays within its bounds, and keeps what is young by all clocks. *)
Definition evolves (clock : SystemTime -> Prop) (l l' : LogStore) : Prop :=
  (log_store_wf l -> log_store_wf l')
  /\ forall id e, entries l !! id = Some e ->
       (forall now, clock now -> (since now (e_created_at e) < LOG_MAX_AGE)%Z) ->
       entries l' !! id = Some e.

Lemma evolves_refl clock l : evolves clock l l.
Proof. by split. Qed.

Lemma evolves_rtc {S} clock (view : S -> LogStore) s s' :
  rtc (fun s s' => evolves clock (view s) (view s')) s s' -> evolves clock (view s) (view s').
Proof.
  induction 1 as [s|s1 s2 s3 [Hwf Hkeep] _ [Hwf' Hkeep']]; [apply evolves_refl|].
  split; [auto|]. intros id e He Hage. auto.
Qed.

Lemma evolves_entries clock l l' : entries l' = entries l -> evolves clock l l'.
Proof. intros He. unfold evolves, log_store_wf. rewrite He. by split. Qed.

Lemma evolves_upload clock ip inow l : evolves clock l (allow_upload ip inow l).1.
Proof.
  apply evolves_entries. unfold allow_upload. by destruct (allow (upload_limiter l) ip inow).
Qed.

Lemma evolves_store (clock : SystemTime -> Prop) body now draws l :
  clock now -> refuse_body body = None -> Forall (fun draw => valid_draw draw = true) draws ->
  evolves clock l (store_log body now draws l).1.
Proof.
  intros Hnow Hbody Hdraws. split.
  - intros Hwf. pose proof (store_log_spec body now draws l Hwf Hbody Hdraws) as Hspec.
    destruct (store_log body now draws l). apply Hspec.
  - intros id e He Hage. by apply store_log_keeps, Hage.
Qed.

Lemma evolves_cleanup (clock : SystemTime -> Prop) now inow l :
  clock now -> evolves clock l (log_cleanup l now inow).
Proof.
  intros Hnow. split.
  - intros Hwf. pose proof (retain_entries_wf (entries l) (upload_limiter l) now) as Hret.
    apply Hret. by destruct l.
  - intros id e He Hage. by apply log_cleanup_keeps, Hage.
Qed.

Section clocks.
Variable clock : SystemTime -> Prop.

(** A section does both. *)
Definition moves (w w' : World) : Prop :=
  evolves clock (w_logs w) (w_logs w') /\ w_actions w `prefix_of` w_actions w'.

Lemma moves_refl w : moves w w.
Proof. split; [apply evolves_refl|done]. Qed.

Abbreviation evolving := (each moves).
Abbreviation serving := (each (fun s s' => moves (sv_world s) (sv_world s'))).
Abbreviation app_evolving := (each (fun a a' => moves (sv_world (app_server a)) (sv_world (app_server a')))).

Lemma kept_evolving {A} (p : prog World A) : logs_kept p -> evolving p.
Proof. apply each_mono. intros w w' [Heq Hacts]. split; [rewrite Heq; apply evolves_refl|done]. Qed.

Lemma evolving_logs {B} (g : LogStore -> LogStore * B) :
  (forall l, evolves clock l (g l).1) -> evolving (sec (with_logs g)).
Proof.
  intros Hg. apply each_sec. intros w w' b. unfold with_logs. specialize (Hg (w_logs w)).
  destruct (g (w_logs w)). intros [= <- _]. by split.
Qed.

Lemma serving_lift {A} t (p : prog World A) : evolving p -> serving (lift t p).
Proof.
  induction p as [a|B f k IH|k IH]; simpl; [done|intros [Hf Hk]|intros Hk]; (split; [|auto]);
    intros s s' b Hs.
  - apply serve_world in Hs. by eapply Hf.
  - rewrite (await_world _ _ _ _ Hs). apply moves_refl.
Qed.

Lemma serving_stutter {B} (f : Server -> option (Server * B)) :
  (forall s s' b, f s = Some (s', b) -> sv_world s' = sv_world s) -> serving (sec f).
Proof. intros Hf. apply each_sec. intros s s' b Hs. rewrite (Hf _ _ _ Hs). apply moves_refl. Qed.

Lemma serving_writer fates : serving (writer_run fates).
Proof.
  induction fates as [|ft fates IH]; [done|]. cbn [writer_run].
  apply each_bind; [apply serving_stutter, take_turn_world|]. intros [[turn writes]|]; [|done].
  apply each_bind; [|intros; apply IH]. unfold writer_turn.
  destruct writes; [|apply serving_stutter; by intros s s' b [= <- _]].
  apply each_bind; [apply serving_lift, kept_evolving, kept_build_snapshot|]. intros dtos.
  apply each_bind; [apply serving_stutter; by intros s s' b [= <- _]|]. intros c.
  apply serving_stutter. by intros s s' b [= <- _].
Qed.

Lemma serving_shutdown t timed_out : serving (shutdown t timed_out).
Proof.
  apply each_bind; [apply serving_stutter; by intros s s' b [= <- _]|]. intros ?.
  apply serving_stutter. intros s s' b. unfold await_flush. repeat case_match; intros; by simplify_eq.
Qed.

Lemma app_within {A} (p : prog Server A) : serving p -> app_evolving (within p).
Proof.
  induction p as [a|B f k IH|k IH]; simpl; [done|intros [Hf Hk]|auto].
  split; [|auto]. intros a a' b Ha. apply on_server_section in Ha. exact (Hf _ _ _ Ha).
Qed.

Lemma app_stutters {B} (f : AppState -> option (AppState * B)) :
  (forall a a' b, f a = Some (a', b) -> app_server a' = app_server a) -> app_evolving (sec f).
Proof.
  intros Hf. apply each_sec. intros a a' b Ha. rewrite (Hf _ _ _ Ha).
  apply moves_refl.
Qed.

Lemma evolving_upload ip body inow now draws :
  clock now -> Forall (fun draw => valid_draw draw = true) draws ->
  evolving (upload ip body inow now draws).
Proof.
  intros Hnow Hdraws. unfold upload. apply each_bind; [apply evolving_logs; intros; apply evolves_upload|].
  intros [|]; cbn [negb]; [|done]. destruct (refuse_body body) eqn:Hbody; [done|].
  apply evolving_logs. intros l. by apply evolves_store.
Qed.

Lemma evolving_sweep_room now inow r : logs_kept (sweep_room now inow r).
Proof. unfold sweep_room, record_mutation. kept. Qed.

Lemma evolving_cleanup_run ticks :
  Forall (fun tick : SystemTime * (nat -> Instant) * Instant => clock tick.1.1) ticks ->
  evolving (cleanup_run ticks).
Proof.
  induction 1 as [|[[now inow] inow_logs] ticks Hnow _ IH]; [done|]. cbn [cleanup_run].
  apply each_bind; [|done]. unfold sweep. apply each_bind; [apply kept_evolving, kept_rooms; by intros ?; apply same_logs_refl|].
  intros rooms. apply each_bind; [|intros; apply evolving_logs; intros l; by apply evolves_cleanup].
  apply kept_evolving. induction rooms as [|r rooms IHr]; [done|].
  cbn [sweep_rooms]. apply each_bind; [apply evolving_sweep_room|done].
Qed.

Lemma handle_evolves t peer headers r : reads clock r -> app_evolving (handle t peer headers r).
Proof.
  intros Hreads. destruct r as [now upgraded|body inow now draws|id now|]; cbn [handle].
  - unfold relay. apply each_bind.
    + unfold ws_handler. apply each_bind; [apply app_stutters, address_server|]. intros [ip|]; [|done].
      apply each_bind; [apply app_stutters, allow_connect_server|]. intros [|]; [|done].
      apply each_bind; [apply app_stutters, open_slot_server|]. by intros [|].
    + intros [ip|]; [|done]. destruct upgraded as [[[opened arrivals] closed]|]; [|done].
      apply each_bind; [apply app_within, serving_lift, kept_evolving, kept_connection_run|].
      intros ?. apply app_stutters, close_slot_server.
  - destruct (limit_body _ _); [done|]. destruct Hreads as [Hnow Hdraws].
    apply each_bind; [|done]. unfold post_logs.
    apply each_bind; [apply app_stutters, address_server|]. intros [ip|]; [|done].
    by apply app_within, serving_lift, evolving_upload.
  - apply each_bind; [|done]. unfold get_logs.
    apply each_bind; [apply app_stutters, address_server|]. intros [ip|]; [|done].
    apply each_bind; [apply app_stutters, acquire_server|]. intros [|]; [|done].
    apply each_bind.
    { apply app_within, serving_lift. unfold find_log. destruct (valid_log_id id); [|done].
      apply evolving_logs. intros. apply evolves_refl. }
    intros found. apply each_bind.
    { destruct found; [done|].
      apply each_bind; [apply app_stutters, allow_failed_lookup_server|done]. }
    intros response. apply each_bind; [apply app_stutters, release_server|done].
  - done.
Qed.

(** A dropped upload has stored nothing. *)
Lemma abandon_evolves t peer headers r : reads clock r -> app_evolving (abandon t peer headers r).
Proof.
  intros Hreads. destruct r as [now upgraded|body inow now draws|id now|]; cbn [abandon];
    [by apply handle_evolves| | |by apply handle_evolves].
  - destruct (limit_body _ _); [done|]. apply each_bind; [apply app_stutters, address_server|].
    intros [ip|]; [|done]. apply each_bind; [|done]. apply app_within, serving_lift, evolving_logs.
    intros l. by apply evolves_upload.
  - destruct (valid_log_id id); cbn [negb]; [|by apply handle_evolves].
    apply each_bind; [apply app_stutters, address_server|]. intros [ip|]; [|done].
    apply each_bind; [apply app_stutters, acquire_server|]. intros [|]; [|done].
    apply app_stutters, release_server.
Qed.

Lemma app_moves fails t q : app_starts clock fails t q -> app_evolving q.
Proof.
  destruct 1 as [peer headers r Ht Hreads _|peer headers r Ht Hreads _|ticks Ht Hticks|fates ->|timed_out Ht].
  - by apply handle_evolves.
  - by apply abandon_evolves.
  - by apply app_within, serving_lift, evolving_cleanup_run.
  - apply app_within, serving_writer.
  - apply app_within, each_bind; [apply serving_shutdown|done].
Qed.

Lemma app_evolves fails t q :
  app_starts clock fails t q -> each (fun a a' => evolves clock (app_logs a) (app_logs a')) q.
Proof. intros Hq. apply (each_mono _ _ _ (fun a a' => @proj1 _ _) (app_moves fails t q Hq)). Qed.
End clocks.
End logs.
