(* ===== verification/AppLogs.v ===== *)
(** * The life of a log under every interleaving

    Nothing but an upload and the cleanup touches the log store, and neither
    loses a log before its time. *)
From S2P Require Import Prelude.
From S2P Require Import Protocol.
From S2P Require Import Ids.
From S2P Require Import Room.
From S2P Require Import NetAddr.
From S2P Require Import ClientIp.
From S2P Require Import Quotas.
From S2P Require Import Logs.
From S2P Require Import Snapshot.
From S2P Require Import Threads.
From S2P Require Import World.
From S2P Require Import Registry.
From S2P Require Import Cleanup.
From S2P Require Import Connection.
From S2P Require Import System.
From S2P Require Import Server.
From S2P Require Import ServerThms.
From S2P Require Import App.
From S2P Require Import AppThms.
From S2P Require Import Sections.

Section logs.
Context `{HashIter} `{CryptoLib} `{SnapshotLib} `{IpNetLib} `{GovernorLib} `{BodyLimitLib}.

(** ** The endpoints run alone *)

Lemma run_logs {A B} answer t (g : LogStore -> LogStore * A) (k : A -> prog AppState B) a :
  exists a', run answer (bind (within (lift t (sec (with_logs g)))) k) a
             = run answer (k (g (app_logs a)).2) a'
    /\ app_logs a' = (g (app_logs a)).1
    /\ app_failed_lookup_limiter a' = app_failed_lookup_limiter a.
Proof.
  cbn [lift within sec bind run]. unfold on_server, serve, with_logs, app_logs.
  destruct (g (w_logs (sv_world (app_server a)))) as [l b]. eexists. split; [reflexivity|].
  cbn [fst snd set_server app_server app_failed_lookup_limiter]. split; [|done].
  by rewrite delivered_world.
Qed.

(** The answer to an upload, from the store it finds and the one it leaves. *)
Definition uploaded (l : LogStore) (body : list byte) (now : SystemTime) (response : option Response)
    (l' : LogStore) : Prop :=
  match response with
  | Some (RJsonId id) =>
    valid_log_id id = true
    /\ retain_entries (entries l) now !! id = None
    /\ entries l' = <[id := {| e_data := body; e_created_at := now |}]> (retain_entries (entries l) now)
  | Some (RLog _ _) => False
  | Some (RText _ _) | None => entries l' = entries l \/ entries l' = retain_entries (entries l) now
  end.

(** [upload] after the limiter. *)
Definition upload_body (t : nat) (body : list byte) (now : SystemTime) (draws : list (list nat))
    (allowed : bool) : prog AppState (option Response) :=
  if negb allowed then Ret (Some (RText 429 "Rate limited: 1 upload per minute"))
  else
  match refuse_body body with
  | Some response => Ret (Some response)
  | None => within (lift t (sec (with_logs (store_log body now draws))))
  end.

Lemma run_upload answer t ip body inow now draws a :
  exists a1, run answer (within (lift t (upload ip body inow now draws))) a
    = run answer (upload_body t body now draws (allow_upload ip inow (app_logs a)).2) a1
    /\ entries (app_logs a1) = entries (app_logs a).
Proof.
  destruct (run_logs answer t (allow_upload ip inow) (upload_body t body now draws) a)
    as (a1 & Hrun & Hlogs & _).
  exists a1. split.
  - rewrite <- Hrun. unfold upload, upload_body. cbn [lift within sec bind run].
    destruct (on_server _ a) as [[a2 b]|]; [|done]. destruct b; cbn [negb]; [|done].
    by destruct (refuse_body body).
  - rewrite Hlogs. unfold allow_upload. by destruct (allow _ ip inow).
Qed.

Lemma run_store answer t body now draws a l :
  log_store_wf (app_logs a) -> entries (app_logs a) = entries l -> refuse_body body = None ->
  Forall (fun draw => valid_draw draw = true) draws ->
  exists a' response,
    run answer (within (lift t (sec (with_logs (store_log body now draws))))) a = Some (a', response)
    /\ uploaded l body now response (app_logs a')
    /\ (NoDup (generate_log_id <$> draws) -> MAX_LOG_ENTRIES <= length draws -> is_Some response).
Proof.
  intros Hwf Hl Hbody Hdraws.
  destruct (run_logs answer t (store_log body now draws) Ret a) as (a' & Hrun & Hlogs & _).
  change (bind (within (lift t (sec (with_logs (store_log body now draws))))) Ret)
    with (within (lift t (sec (with_logs (store_log body now draws))))) in Hrun.
  exists a', (store_log body now draws (app_logs a)).2. split; [exact Hrun|].
  pose proof (store_log_spec body now draws (app_logs a) Hwf Hbody Hdraws) as Hspec.
  rewrite Hlogs. split; [|intros; by apply store_log_answers].
  destruct (store_log body now draws (app_logs a)) as [l' [[]|]]; cbn [fst snd];
    destruct Hspec as [_ Hspec]; cbn [uploaded]; rewrite <- ?Hl;
    [by right; apply Hspec|done|done|by right].
Qed.

Lemma run_post_logs answer t peer headers body inow now draws a :
  log_store_wf (app_logs a) -> Forall (fun draw => valid_draw draw = true) draws ->
  exists a' response, run answer (post_logs t peer headers body inow now draws) a = Some (a', response)
    /\ uploaded (app_logs a) body now response (app_logs a')
    /\ (NoDup (generate_log_id <$> draws) -> MAX_LOG_ENTRIES <= length draws -> is_Some response).
Proof.
  intros Hwf Hdraws. unfold post_logs, client_address. cbn [sec bind run].
  destruct (resolve _ _ _) as [ip|]; [|do 2 eexists; split_and!; [done|by left|by eexists]].
  destruct (run_upload answer t ip body inow now draws a) as (a1 & -> & Hsame).
  unfold upload_body. destruct (allow_upload ip inow (app_logs a)).2; cbn [negb].
  2: { do 2 eexists. split_and!; [done|by left|by eexists]. }
  destruct (refuse_body body) as [response|] eqn:Hbody.
  - do 2 eexists. split_and!; [done| |by eexists]. unfold refuse_body in Hbody.
    repeat case_match; simplify_eq; by left.
  - apply run_store; [|done..]. unfold log_store_wf. by rewrite Hsame.
Qed.

Lemma run_get_logs answer t peer headers id now a e :
  is_ok (resolve (app_client_ip a) peer (forwarded_for headers)) = true -> app_lookup_slots a <> 0 ->
  valid_log_id id = true -> entries (app_logs a) !! id = Some e ->
  exists a', run answer (get_logs t peer headers id now) a = Some (a', RLog (e_data e) log_headers)
    /\ entries (app_logs a') = entries (app_logs a)
    /\ app_failed_lookup_limiter a' = app_failed_lookup_limiter a.
Proof.
  intros Haddr Hslots Hid He. unfold get_logs, client_address. cbn [sec bind run].
  destruct (resolve _ _ _) as [ip|]; [|done]. cbn [bind run]. unfold acquire at 1.
  destruct (app_lookup_slots a) as [|n]; [done|]. cbn [negb]. unfold find_log. rewrite Hid.
  set (a1 := set_lookups a n ({[t]} ∪ app_lookups a)).
  destruct (run_logs answer t (fun l => (l, lookup_log id l)) (fun found =>
      let! response :=
        match found with
        | None =>
          let! allowed := sec (allow_failed_lookup ip now) in
          Ret (if negb allowed then RText 429 "Too many failed lookups" else RText 404 "Not found")
        | Some data => Ret (RLog data log_headers)
        end in
      sec (release t) ;! Ret response) a1) as (a2 & Hrun & Hlogs & Hlim).
  change (app_logs a1) with (app_logs a) in *. cbn [fst snd] in *.
  unfold lookup_log in Hrun at 2. rewrite Hid, He in Hrun. cbn [fmap option_fmap option_map bind sec run] in Hrun.
  eexists. split; [exact Hrun|]. unfold app_logs in *. cbn [set_lookups app_server app_failed_lookup_limiter].
  by rewrite Hlogs.
Qed.

Lemma restored_logs l w : w_logs (foldl restore_room w l) = w_logs w.
Proof. revert w. induction l as [|r l IH]; intros w; [done|]. cbn [foldl]. by rewrite IH. Qed.

Lemma startup_logs config fs now inow app :
  startup config fs now inow = Some app -> log_store_wf (app_logs app).
Proof.
  intros Hs. assert (Hl : entries (app_logs app) = ∅).
  { unfold app_logs. rewrite (startup_server _ _ _ _ _ Hs). cbn [boot_server sv_world]. unfold boot, restore_rooms.
    by rewrite restored_logs. }
  unfold log_store_wf. rewrite Hl. split; [rewrite map_size_empty; unfold MAX_LOG_ENTRIES; lia|].
  intros id e He. by rewrite lookup_empty in He.
Qed.

(** C40: the life of a log, whatever else the application does.  At any moment
    the store holds at most 500 logs, every one with a valid id, not empty and
    at most 1 MiB.  An upload is answered, as soon as the draws produce 500
    different ids; the id answered is valid and was free, and the new log is
    the only change beside the removal of logs of three days or more; any
    other answer stores nothing.  A log in the store is found byte for byte,
    at no cost to who asks, by every later request that can be told its
    address while a permit is free, as long as no clock read meanwhile makes
    the log three days old. *)
Theorem log_lifetime clock fails app a ps
    (Hstart : exists config fs now inow, startup config fs now inow = Some app)
    (Hreach : pool_reach (app_starts clock fails) app (a, ps)) :
  log_store_wf (app_logs a)
  /\ (forall answer t peer headers body inow now draws,
       Forall (fun draw => valid_draw draw = true) draws ->
       exists a' response,
         run answer (post_logs t peer headers body inow now draws) a = Some (a', response)
         /\ uploaded (app_logs a) body now response (app_logs a')
         /\ (NoDup (generate_log_id <$> draws) -> MAX_LOG_ENTRIES <= length draws -> is_Some response))
  /\ (forall id e a' ps', entries (app_logs a) !! id = Some e ->
       rtc (pool_step (app_starts clock fails)) (a, ps) (a', ps') ->
       (forall now, clock now -> (since now (e_created_at e) < LOG_MAX_AGE)%Z) ->
       forall answer t peer headers now,
       is_ok (resolve (app_client_ip a') peer (forwarded_for headers)) = true ->
       app_lookup_slots a' <> 0 ->
       exists a'', run answer (get_logs t peer headers id now) a' = Some (a'', RLog (e_data e) log_headers)
         /\ entries (app_logs a'') = entries (app_logs a')
         /\ app_failed_lookup_limiter a'' = app_failed_lookup_limiter a').
Proof.
  destruct (reach_each _ _ (app_evolves clock fails) _ _ Hreach) as [Hthr Hrtc].
  assert (Hwf : log_store_wf (app_logs a)).
  { apply (evolves_rtc clock app_logs app a Hrtc).
    destruct Hstart as (config & fs & now & inow & Hs). by eapply startup_logs. }
  split_and!; [done|intros; by apply run_post_logs|].
  intros id e a' ps' He Hsteps Hage answer t peer headers now Haddr Hslots.
  destruct (steps_each _ _ (app_evolves clock fails) _ _ Hthr Hsteps) as [_ Hrtc'].
  destruct (evolves_rtc clock app_logs a a' Hrtc') as [Hwf' Hkeep].
  specialize (Hkeep id e He Hage). apply run_get_logs; [done..| |done].
  by destruct (Hwf' Hwf) as [_ Hent]; destruct (Hent id e Hkeep).
Qed.
End logs.
