(* ===== verification/AppLive.v ===== *)
(** * No deadlock in the application

    The handlers' own sections never block, so the application goes on as long
    as the server does. *)
From S2P Require Import Prelude.
From S2P Require Import Protocol.
From S2P Require Import Ids.
From S2P Require Import Room.
From S2P Require Import NetAddr.
From S2P Require Import ClientIp.
From S2P Require Import Quotas.
From S2P Require Import Logs.
From S2P Require Import Snapshot.
From S2P Require Import Writer.
From S2P Require Import Mailbox.
From S2P Require Import Threads.
From S2P Require Import World.
From S2P Require Import Registry.
From S2P Require Import Cleanup.
From S2P Require Import Connection.
From S2P Require Import System.
From S2P Require Import Server.
From S2P Require Import ServerThms.
From S2P Require Import StateFile.
From S2P Require Import ServerLive.
From S2P Require Import App.
From S2P Require Import AppThms.

Section live.
Context `{HashIter} `{CryptoLib} `{!CryptoLaws _} `{SnapshotLib} `{IpNetLib} `{GovernorLib} `{BodyLimitLib}.

Definition app_upright (a : AppState) : Prop := live (app_server a).
Definition app_guar (t : nat) (a a' : AppState) : Prop := live_guar t (app_server a) (app_server a').
Definition app_holder (a : AppState) : option nat := holder (app_server a).
Definition app_parked (t : nat) (a : AppState) : Prop := parked t (app_server a).

Abbreviation ok_app t L p Q := (ok app_upright app_guar app_holder app_parked t L p Q).

Lemma ok_within {A} t L (p : prog Server A) Q :
  ok live live_guar holder parked t L p Q ->
  ok_app t (fun a => L (app_server a)) (within p) (fun x a => Q x (app_server a)).
Proof.
  revert L. induction p as [x|B f k IH|k IH]; intros L Hok; cbn [within].
  - intros a Ha Hl. by apply Hok.
  - intros a Ha Hl. specialize (Hok (app_server a) Ha Hl). unfold on_server.
    destruct (f (app_server a)) as [[s b]|]; [|exact Hok].
    destruct Hok as (Hs & Hg & L' & HL' & Hl' & Hok). split_and!; [done..|].
    exists (fun a => L' (app_server a)). split_and!; [|done|by apply IH].
    intros t' a1 a2 Hne Hg1 Ha1 Ha2. exact (HL' t' _ _ Hne Hg1 Ha1 Ha2).
  - destruct Hok as [Hu Hok]. split; [|intros b; by apply IH]. intros a Ha Hl. by apply Hu.
Qed.

(** What a handler knows: it does not hold the table's lock. *)
Definition free (t : nat) (a : AppState) : Prop := knows t None [] [] (sv_world (app_server a)).

Lemma free_stable t : stable app_upright app_guar t (free t).
Proof.
  intros t' a a' Hne [Hg _ _] [Hw _] [Hw' _] Hl. by eapply knows_stable.
Qed.

(** A section of the application's own. *)
Lemma ok_own {B} t (f : AppState -> option (AppState * B)) :
  (forall a, is_Some (f a)) ->
  (forall a a' b, f a = Some (a', b) -> app_server a' = app_server a) ->
  ok_app t (free t) (sec f) (fun _ => free t).
Proof.
  intros Htotal Hf. apply ok_sec; [intros; apply free_stable|]. intros a Ha Hl.
  destruct (Htotal a) as [[a' b] Hfa]. rewrite Hfa. pose proof (Hf _ _ _ Hfa) as Hs.
  unfold app_upright, app_guar, free. rewrite Hs.
  destruct (stutter_live t (app_server a) (app_server a)) as [_ Hg]; done.
Qed.

Lemma ok_app_lift {A} t (p : prog World A) :
  t <> writer_task ->
  ok world_wf guar w_writer (fun _ _ => False) t (knows t None [] []) p (fun _ => knows t None [] []) ->
  asks_after false p -> ok_app t (free t) (within (lift t p)) (fun _ => free t).
Proof.
  intros Hne Hok Hask.
  eapply ok_weaken; [| |apply ok_within, (ok_lift t (knows t None [] []) false p (fun _ => knows t None [] []))];
    [|by intros x a _ Ha|by left|apply knows_stable|exact Hok|exact Hask].
  intros a _ Ha. by split.
Qed.

Lemma ok_app_logs {A} t (p : prog World A) :
  t <> writer_task -> logs_only p -> ok_app t (free t) (within (lift t p)) (fun _ => free t).
Proof. intros Hne Hp. apply ok_app_lift; [done|by apply ok_logs_only|by apply asks_logs_only]. Qed.

Lemma ok_address t peer headers :
  ok_app t (free t) (client_address peer headers) (fun _ => free t).
Proof. apply ok_own; [intros a'; by eexists|intros a a' b; apply address_server]. Qed.

Lemma ok_relay t peer headers now upgraded :
  t <> writer_task -> ok_app t (free t) (relay t peer headers now upgraded) (fun _ => free t).
Proof.
  intros Hne. unfold relay. eapply ok_bind with (Q := fun _ => free t).
  - eapply ok_bind; [apply ok_address|]. intros [ip|]; [|by intros a _ Ha].
    eapply ok_bind; [apply ok_own; [|apply allow_connect_server]|].
    { intros a. unfold allow_connect. destruct (ip_limiter_allow _ _ _). by eexists. }
    intros [|]; [|by intros a _ Ha].
    eapply ok_bind; [apply ok_own; [|apply open_slot_server]|].
    { intros a. unfold open_slot. destruct (try_connect _ _). by eexists. }
    intros [|]; by intros a _ Ha.
  - intros [ip|]; [|destruct upgraded; by intros a _ Ha].
    destruct upgraded as [[[opened arrivals] closed]|]; [|by intros a _ Ha].
    eapply ok_bind; [apply ok_app_lift; [done|apply ok_connection_run|apply asks_connection_run]|].
    intros u. apply ok_own; [intros a'; by eexists|apply close_slot_server].
Qed.

Lemma ok_get_logs t peer headers id now :
  t <> writer_task -> ok_app t (free t) (get_logs t peer headers id now) (fun _ => free t).
Proof.
  intros Hne. eapply ok_bind; [apply ok_address|]. intros [ip|]; [|by intros a _ Ha].
  eapply ok_bind; [apply ok_own; [|apply acquire_server]|].
  { intros a. unfold acquire. destruct (app_lookup_slots a); by eexists. }
  intros [|]; [|by intros a _ Ha].
  eapply ok_bind; [apply ok_app_logs; [done|apply logs_only_find]|]. intros found.
  eapply ok_bind with (Q := fun _ => free t).
  - destruct found; [by intros a _ Ha|].
    eapply ok_bind; [apply ok_own; [|apply allow_failed_lookup_server]|by intros allowed a _ Ha].
    intros a. unfold allow_failed_lookup. destruct (ip_limiter_allow _ _ _). by eexists.
  - intros response. eapply ok_bind with (Q := fun _ => free t); [|by intros ? a' _ Ha].
    apply ok_own; [intros a'; by eexists|apply release_server].
Qed.

Lemma ok_handle t peer headers r :
  t <> writer_task -> ok_app t (free t) (handle t peer headers r) (fun _ => free t).
Proof.
  intros Hne. destruct r as [now upgraded|body inow now draws|id now|]; cbn [handle].
  - by apply ok_relay.
  - destruct (limit_body _ _); [by intros a _ Ha|]. eapply ok_bind with (Q := fun _ => free t); [|by intros ? a _ Ha].
    eapply ok_bind; [apply ok_address|]. intros [ip|]; [|by intros a _ Ha].
    apply ok_app_logs; [done|apply logs_only_upload].
  - eapply ok_bind; [by apply ok_get_logs|by intros ? a _ Ha].
  - by intros a _ Ha.
Qed.

Lemma ok_abandon t peer headers r :
  t <> writer_task -> ok_app t (free t) (abandon t peer headers r) (fun _ => free t).
Proof.
  intros Hne. destruct r as [now upgraded|body inow now draws|id now|]; cbn [abandon];
    [by apply ok_handle| | |by apply ok_handle].
  - destruct (limit_body _ _); [by intros a _ Ha|]. eapply ok_bind; [apply ok_address|].
    intros [ip|]; [|by intros a _ Ha]. eapply ok_bind with (Q := fun _ => free t); [|by intros ? a _ Ha].
    apply ok_app_logs; [done|apply logs_only_sec].
  - destruct (valid_log_id id); cbn [negb]; [|by apply ok_handle]. eapply ok_bind; [apply ok_address|].
    intros [ip|]; [|by intros a _ Ha]. eapply ok_bind; [apply ok_own; [|apply acquire_server]|].
    { intros a. unfold acquire. destruct (app_lookup_slots a); by eexists. }
    intros [|]; [|by intros a _ Ha]. apply ok_own; [intros a'; by eexists|apply release_server].
Qed.

Definition app_ready (t : nat) (a : AppState) : Prop := ready_task t (app_server a).

Lemma app_starts_ok clock fails t q :
  app_starts clock fails t q ->
  ok_app t (app_ready t) q (fun _ => unlocked_by app_holder t).
Proof.
  assert (Hfree : forall p : prog AppState unit, ok_app t (free t) p (fun _ => free t) ->
    ok_app t (app_ready t) p (fun _ => unlocked_by app_holder t)).
  { intros p. apply ok_weaken; [by intros a _ [Ha _]|by intros ? a _ []]. }
  destruct 1 as [peer headers r Hne _ _|peer headers r Hne _ _|ticks Hne _|fates ->|timed_out Hne].
  - by apply Hfree, ok_handle.
  - by apply Hfree, ok_abandon.
  - apply Hfree, ok_app_lift; [done|apply ok_cleanup_run|apply asks_cleanup_run].
  - eapply ok_weaken; [| |apply ok_within, ok_writer_run]; [|by intros ? a _ []].
    intros a _ [Hk Hturn]. split; [by apply Hturn|done].
  - eapply ok_weaken; [| |by apply ok_within, ok_shutdown]; [|by intros ? a _ [[] _]].
    intros a _ [Hk _]. by split.
Qed.

Lemma app_ready_stable t : stable app_upright app_guar t (app_ready t).
Proof. intros t' a a' Hne Hg Ha Ha'. exact (ready_task_stable t t' _ _ Hne Hg Ha Ha'). Qed.

Lemma app_ready_unlocked t a : app_ready t a -> unlocked_by app_holder t a.
Proof. by intros [[] _]. Qed.

(** ** All runs *)

Abbreviation app_ok := (pool_ok app_upright app_guar app_holder app_parked app_ready).

Lemma app_reach_ok config fs now inow app clock fails a ps :
  startup config fs now inow = Some app -> at_most_seven (fs !! cfg_state_file config) ->
  pool_reach (app_starts clock fails) app (a, ps) -> app_ok (a, ps).
Proof.
  intros Hstart Hseven. destruct (boot_wf _ (load_snapshot_bootable _ now inow Hseven)) as [Hw Hwr].
  pose proof (startup_server _ _ _ _ _ Hstart) as Hserver.
  apply (pool_reach_ok _ _ _ _ _ _ app_ready_stable (app_starts_ok clock fails)).
  - unfold app_upright. rewrite Hserver. split; [exact Hw|].
    intros t tk Htk. cbn [boot_server sv_ticket] in Htk. by rewrite lookup_empty in Htk.
  - intros t. unfold app_ready. rewrite Hserver. split; [|done].
    cbn [boot_server sv_world]. split; [by rewrite Hwr|constructor..].
Qed.

Lemma app_served config fs now inow app clock fails a ps :
  startup config fs now inow = Some app -> pool_reach (app_starts clock fails) app (a, ps) ->
  served (app_server a).
Proof.
  intros Hstart Hreach. destruct (app_matched _ _ _ _ _ _ _ _ _ Hstart Hreach) as (ps' & Hserver & _).
  by eapply server_kept.
Qed.

(** The writer is at work, or has returned after a flush; only a writer whose
    list of fates has run out is neither. *)
Definition writer_serves (a : AppState) (ps : gmap nat (prog AppState unit)) : Prop :=
  (exists q, ps !! writer_task = Some q /\ ~ finished q)
  \/ wr_stopped (mb_writer (sv_mail (app_server a))) = true.

(** Nobody waits for the writer, and the file holds a capture younger than the
    last mutation. *)
Definition settled (mb : @Mailbox (list RoomDto)) : Prop :=
  mb_queue mb = [] /\ (forall tk, is_Some (mb_due mb !! tk) -> is_Some (mb_answers mb !! tk))
  /\ (mb_last mb <= stamp (wr_file (mb_writer mb)))%N.

Lemma parked_writer a :
  served (app_server a) -> (moment (app_server a) < u64_modulus)%N -> app_parked writer_task a ->
  settled (sv_mail (app_server a)).
Proof.
  intros Hs Hm (Hrun & Hturn & Hq & Hp).
  destruct (idle_writer _ _ (sd_mail _ Hs Hm) Hrun Hturn Hq Hp). by split_and!.
Qed.

Lemma parked_task t a :
  t <> writer_task -> app_upright a -> app_parked t a -> settled (sv_mail (app_server a)) -> False.
Proof.
  intros Hne [_ Htickets] [Hrun Hpark] (_ & Hanswered & _). apply Nat.eqb_neq in Hne.
  rewrite Hne in Hpark. destruct Hpark as (tk & Htk & Hnone).
  destruct (Htickets t tk Htk) as [Hdue|?]; [|congruence].
  destruct (Hanswered tk Hdue) as [res Hres]. congruence.
Qed.

Lemma stuck_settled a ps :
  app_ok (a, ps) -> served (app_server a) -> (moment (app_server a) < u64_modulus)%N ->
  writer_serves a ps -> (forall t p, ps !! t = Some p -> ~ enabled a p) ->
  (forall t q, t <> writer_task -> ps !! t = Some q -> finished q)
  /\ (wr_stopped (mb_writer (sv_mail (app_server a))) = true \/ settled (sv_mail (app_server a))).
Proof.
  intros Hok Hs Hm Hserves Hstuck.
  assert (Hpark : forall t p, ps !! t = Some p -> ~ finished p -> app_parked t a).
  { intros t p Ht Hp. destruct (pool_progress _ _ _ _ _ app_ready_unlocked _ t p Hok Ht Hp)
      as [(t' & p' & Ht' & He)|?]; [by destruct (Hstuck t' p' Ht')|done]. }
  assert (Hsettled : wr_stopped (mb_writer (sv_mail (app_server a))) = true
    \/ settled (sv_mail (app_server a))).
  { destruct Hserves as [(q & Hq & Hun)|?]; [right|by left].
    apply parked_writer; [done..|by apply (Hpark _ q)]. }
  split; [|done]. intros t q Hne Ht. destruct (finished_dec q) as [?|Hun]; [done|].
  pose proof (Hpark t q Ht Hun) as Hp. destruct Hsettled as [Hstop|Hset].
  - destruct Hp as [Hrun _]. congruence.
  - by destruct (parked_task t a Hne (pool_inv _ _ _ _ _ _ Hok) Hp Hset).
Qed.

(** C29: no deadlock, and nothing is left undone.  In every run of the
    application, from a state file that gives no room more than seven guests,
    the tasks that have been started can only take finitely many more steps,
    under any schedule; and as long as the writer serves, some task can move,
    unless every task but the writer is over and either the writer has
    returned, or it waits for work with every request answered and, in the
    file, a capture younger than the last mutation recorded.  In particular no
    [leave] and no [endSession] waits for ever, whatever the writer's writes
    do and whoever holds which lock. *)
Theorem no_deadlock config fs now inow app clock fails a ps
    (Hstart : startup config fs now inow = Some app)
    (Hseven : at_most_seven (fs !! cfg_state_file config))
    (Hreach : pool_reach (app_starts clock fails) app (a, ps))
    (Hsmall : (moment (app_server a) < u64_modulus)%N) (Hserves : writer_serves a ps) :
  Acc (fun c' c => advance_step c c') (a, ps)
  /\ ((exists c, advance_step (a, ps) c)
      \/ (forall t q, t <> writer_task -> ps !! t = Some q -> finished q)
         /\ (wr_stopped (mb_writer (sv_mail (app_server a))) = true
             \/ settled (sv_mail (app_server a)))).
Proof.
  split; [apply advance_wf|]. destruct (moves_or_stuck a ps) as [?|Hstuck]; [by left|right].
  apply stuck_settled; [by eapply app_reach_ok|by eapply app_served|done..].
Qed.
End live.
