(* ===== verification/Sockets.v ===== *)
(** * What a client reads

    The application with the channel and the write task of every connection:
    what the tasks put on a channel goes through its bounded queue to the
    socket, as far as there is room and the task is there to write it. *)
From S2P Require Import Prelude.
From S2P Require Import Protocol.
From S2P Require Import Ids.
From S2P Require Import Room.
From S2P Require Import NetAddr.
From S2P Require Import ClientIp.
From S2P Require Import Quotas.
From S2P Require Import Logs.
From S2P Require Import Snapshot.
From S2P Require Import Writer.
From S2P Require Import Threads.
From S2P Require Import World.
From S2P Require Import Connection.
From S2P Require Import Outbound.
From S2P Require Import System.
From S2P Require Import Wire.
From S2P Require Import Ownership.
From S2P Require Import Races.
From S2P Require Import Server.
From S2P Require Import ServerThms.
From S2P Require Import StateFile.
From S2P Require Import Promises.
From S2P Require Import PromiseThms.
From S2P Require Import App.
From S2P Require Import AppThms.
From S2P Require Import Sections.

Section sockets.
Context `{HashIter} `{CryptoLib} `{!CryptoLaws _} `{SnapshotLib} `{IpNetLib} `{GovernorLib} `{BodyLimitLib}.

(** serde_json on a message. *)
Variable json : ServerMessage -> option string.

Abbreviation Sockets := (gmap nat Outbound.Outbound).

(** The channel of a connection, which is made with the connection. *)
Definition socket (socks : Sockets) (tx : Sender) : Outbound.Outbound := default new_outbound (socks !! tx).

Definition on_socket (op : outbound_op) (tx : Sender) (socks : Sockets) : Sockets :=
  <[tx := outbound_step json (socket socks tx) op]> socks.

(** A [try_send] of the world's, on the channel it is for. *)
Definition put (socks : Sockets) (a : Action) : Sockets :=
  match a with TrySend tx m => on_socket (OpTrySend m) tx socks | _ => socks end.
Definition put_all (acts : list Action) (socks : Sockets) : Sockets := foldl put socks acts.

(** What has been put on channels between two states. *)
Definition performed (a a' : AppState) : list Action :=
  drop (length (w_actions (sv_world (app_server a)))) (w_actions (sv_world (app_server a'))).

(** A step of a task, which reaches the channels at once, or one of a write task,
    with the fate of its write, its end or its [abort]. *)
Inductive net_step (starts : nat -> prog AppState unit -> Prop)
    : (AppState * gmap nat (prog AppState unit)) * Sockets ->
      (AppState * gmap nat (prog AppState unit)) * Sockets -> Prop :=
| net_task c c' socks :
    pool_step starts c c' -> net_step starts (c, socks) (c', put_all (performed c.1 c'.1) socks)
| net_write c socks tx op :
    (forall m, op <> OpTrySend m) -> net_step starts (c, socks) (c, on_socket op tx socks).

Inductive net_reach (starts : nat -> prog AppState unit -> Prop) (app : AppState)
    : (AppState * gmap nat (prog AppState unit)) * Sockets -> Prop :=
| net_reach_start : net_reach starts app ((app, ∅), ∅)
| net_reach_step cs cs' :
    net_reach starts app cs -> net_step starts cs cs' -> net_reach starts app cs'.

(** ** Each channel has a history of its own *)

Definition history (acts : list Action) (tx : Sender) (ob : Outbound.Outbound) : Prop :=
  exists ops, ob = run_outbound json ops new_outbound
    /\ offered ops = omap (fun a => match a with
         | TrySend tx' msg => if decide (tx' = tx) then Some msg else None
         | _ => None end) acts.

Lemma socket_insert socks tx tx' ob :
  socket (<[tx' := ob]> socks) tx = if decide (tx' = tx) then ob else socket socks tx.
Proof.
  unfold socket. destruct (decide (tx' = tx)) as [->|Hne]; [by rewrite lookup_insert_eq|].
  by rewrite lookup_insert_ne.
Qed.

Lemma history_put acts socks a tx :
  history acts tx (socket socks tx) -> history (acts ++ [a]) tx (socket (put socks a) tx).
Proof.
  intros (ops & Hob & Hops). unfold history. rewrite omap_app. destruct a as [tx' m| | |]; cbn [put omap list_omap];
    [|exists ops; by rewrite app_nil_r..].
  unfold on_socket. rewrite socket_insert. destruct (decide (tx' = tx)) as [->|].
  - exists (ops ++ [OpTrySend m]). split; [|unfold offered; rewrite omap_app; by f_equal].
    unfold run_outbound. rewrite foldl_app. cbn [foldl]. unfold run_outbound in Hob. by rewrite <- Hob.
  - exists ops. by rewrite app_nil_r.
Qed.

Lemma history_put_all acts acts' socks tx :
  history acts tx (socket socks tx) -> history (acts ++ acts') tx (socket (put_all acts' socks) tx).
Proof.
  revert acts socks. induction acts' as [|a acts' IH]; intros acts socks Hh; cbn [put_all foldl];
    [by rewrite app_nil_r|].
  rewrite cons_middle, app_assoc. apply IH. by apply history_put.
Qed.

Lemma history_write acts socks tx tx' op :
  (forall m, op <> OpTrySend m) ->
  history acts tx (socket socks tx) -> history acts tx (socket (on_socket op tx' socks) tx).
Proof.
  intros Hop (ops & Hob & Hops). unfold on_socket. rewrite socket_insert.
  destruct (decide (tx' = tx)) as [->|]; [|by exists ops].
  exists (ops ++ [op]). unfold run_outbound in *. rewrite foldl_app, Hob. split; [done|].
  unfold offered. rewrite omap_app. destruct op; try (by rewrite app_nil_r). by destruct (Hop msg).
Qed.

Lemma pool_task {W} (starts : nat -> prog W unit -> Prop) w0 c c' :
  pool_reach starts w0 c -> pool_step starts c c' -> pool_reach starts w0 c'.
Proof. intros. by eapply pool_reach_step. Qed.

(** What was put on channels is never taken back. *)
Lemma performed_app clock fails app c c' :
  pool_reach (app_starts clock fails) app c -> pool_step (app_starts clock fails) c c' ->
  w_actions (sv_world (app_server c'.1)) = w_actions (sv_world (app_server c.1)) ++ performed c.1 c'.1.
Proof.
  intros Hpool Hstep.
  destruct (step_each _ _ (app_moves clock fails) c c') as [_ Hmoves]; [|done|].
  { exact (proj1 (reach_each _ _ (app_moves clock fails) _ _ Hpool)). }
  unfold performed. destruct Hmoves as [->|[_ [acts ->]]]; [by rewrite drop_all, app_nil_r|by rewrite drop_app_length].
Qed.

Lemma net_history clock fails app c socks :
  w_actions (sv_world (app_server app)) = [] ->
  net_reach (app_starts clock fails) app (c, socks) ->
  pool_reach (app_starts clock fails) app c
  /\ forall tx, history (w_actions (sv_world (app_server c.1))) tx (socket socks tx).
Proof.
  intros Hempty Hreach. remember (c, socks) as cs eqn:Hcs. revert c socks Hcs.
  induction Hreach as [|cs cs' _ IH Hstep]; intros c socks Hcs.
  { injection Hcs as <- <-. split; [constructor|]. intros tx. cbn [fst]. rewrite Hempty. by exists []. }
  destruct Hstep as [c0 c1 socks0 Htask|c0 socks0 tx0 op Hop]; injection Hcs as -> <-;
    destruct (IH _ _ eq_refl) as [Hpool Hhist].
  - split; [by eapply pool_task|]. intros tx.
    rewrite (performed_app clock fails app c0 c) by done. by apply history_put_all.
  - split; [done|]. intros tx. by apply history_write.
Qed.

(** A run in which the write tasks have not moved yet. *)
Lemma pool_net clock fails app c :
  w_actions (sv_world (app_server app)) = [] ->
  pool_reach (app_starts clock fails) app c ->
  net_reach (app_starts clock fails) app (c, put_all (w_actions (sv_world (app_server c.1))) ∅).
Proof.
  intros Hempty. induction 1 as [|c c' Hpool IH Hstep].
  { cbn [fst]. rewrite Hempty. constructor. }
  replace (put_all (w_actions (sv_world (app_server c'.1))) ∅)
    with (put_all (performed c.1 c'.1) (put_all (w_actions (sv_world (app_server c.1))) ∅)).
  { by eapply net_reach_step, net_task. }
  unfold put_all. rewrite <- foldl_app. f_equal. symmetry.
  apply (performed_app clock fails app c c'); done.
Qed.

(** ** What is read *)

Lemma omap_prefix {A B} (f : A -> option B) l l1 l2 :
  omap f l = l1 ++ l2 -> exists a b, l = a ++ b /\ omap f a = l1.
Proof.
  revert l1. induction l as [|x l IH]; intros l1 Heq.
  { exists [], []. destruct l1; [done|discriminate Heq]. }
  destruct l1 as [|y l1]; [by exists [], (x :: l)|]. cbn [omap list_omap] in Heq.
  destruct (f x) as [y'|] eqn:Hx.
  - injection Heq as -> Heq. destruct (IH l1 Heq) as (a & b & -> & Ha).
    exists (x :: a), b. split; [done|]. cbn [omap list_omap]. by rewrite Hx, Ha.
  - destruct (IH (y :: l1) Heq) as (a & b & -> & Ha).
    exists (x :: a), b. split; [done|]. cbn [omap list_omap]. by rewrite Hx, Ha.
Qed.

Lemma in_inbox tx w m : m ∈ inbox tx w -> TrySend tx m ∈ w_actions w.
Proof.
  unfold inbox. intros (a & Ha & Hm)%list_elem_of_omap. destruct a as [tx' m'| | |]; try discriminate Hm.
  destruct (decide (tx' = tx)) as [->|]; [|discriminate Hm]. by injection Hm as ->.
Qed.

Lemma starts_conform t p : own_starts (fun _ => false) t p -> starts_presenting (fun _ _ => True) t p.
Proof.
  destruct 1; [apply presenting_connection|apply presenting_cleanup|apply presenting_captures|by apply presenting_logs].
  apply Forall_true. intros a. unfold frame_presents. by repeat case_match.
Qed.

(** A message on channel [tx] conforms, it was sent there at some moment, and
    whenever it was sent there, what it says of the state file holds. *)
Definition true_message (s : Server) (tx : Sender) (m : ServerMessage) : Prop :=
  conforms m = true
  /\ (exists t k, sent_at s t k tx m)
  /\ forall t k, sent_at s t k tx m ->
       (forall sid id, m = left_reply sid id -> left_holds s t k tx sid id)
       /\ (forall sid, m = ended_message sid -> ended_holds s t k tx sid).

Lemma sent_true config fs now inow app clock fails a ps tx m :
  startup config fs now inow = Some app -> at_most_seven (fs !! cfg_state_file config) ->
  pool_reach (app_starts clock fails) app (a, ps) -> small (app_server a) ->
  TrySend tx m ∈ w_actions (sv_world (app_server a)) -> true_message (app_server a) tx m.
Proof.
  intros Hstart Hseven Hreach Hsmall Hsent.
  destruct (app_matched _ _ _ _ _ _ _ _ _ Hstart Hreach) as (ps' & Hserver & _).
  destruct (server_matched (own_starts (fun _ => false)) ltac:(intros; apply own_starts_captures) _ _ _ _ eq_refl Hserver)
    as (ps'' & Hworld & _).
  apply (pool_reach_mono _ (starts_presenting (fun _ _ => True))) in Hworld; [|apply starts_conform].
  destruct (pool_emits (allowed (fun _ _ => True) (fun _ => True)) _ _ _ _
    ltac:(intros; by eapply presenting_emits) Hworld) as [(acts & Hacts & Hall) _].
  cbn [boot_server sv_world] in Hacts. rewrite boot_actions, app_nil_l in Hacts.
  pose proof (load_snapshot_bootable _ now inow Hseven) as Hboot.
  split_and!.
  - rewrite Forall_forall in Hall. rewrite Hacts in Hsent. by destruct (Hall _ Hsent) as [[Hc _] _].
  - by apply (kp_log _ (reach_kept _ _ Hboot _ _ Hserver)).
  - intros t k. by apply (sent_holds _ _ Hboot _ _ _ _ _ _ Hserver Hsmall).
Qed.

(** C9: what a client reads.  In every run of the application and of the
    write tasks of its connections, whatever becomes of their writes and
    whenever they are aborted: the texts on a client's socket are messages
    that the tasks have put on its channel, in that order, none twice; at most
    64 more wait in the channel; and each message that is read has the shape
    the protocol gives its type, was sent at some moment, and if it is [left] or
    [ended], then whenever it was sent on the channel it answered a [leave] or
    an [endSession] that was just finished, and what it says of the state file
    is true ([left_holds], [ended_holds]). *)
Theorem client_reads config fs now inow app clock fails a ps socks tx
    (Hstart : startup config fs now inow = Some app)
    (Hseven : at_most_seven (fs !! cfg_state_file config))
    (Hreach : net_reach (app_starts clock fails) app ((a, ps), socks))
    (Hsmall : small (app_server a)) :
  let ob := socket socks tx in
  length (ob_queue ob) <= OUTBOUND_CHANNEL_CAPACITY
  /\ exists read, texts (ob_wire ob) = omap json read
       /\ read `sublist_of` inbox tx (sv_world (app_server a))
       /\ Forall (true_message (app_server a) tx) read.
Proof.
  intros ob. assert (Hempty : w_actions (sv_world (app_server app)) = []).
  { rewrite (startup_server _ _ _ _ _ Hstart). apply boot_actions. }
  destruct (net_history _ _ _ _ _ Hempty Hreach) as [Hpool Hhist].
  destruct (Hhist tx) as (ops & Hob & Hops). fold ob in Hob.
  destruct (run_outbound_ok json ops new_outbound) as [Hlen _ [rest Hrest]].
  { split; [cbn; lia|done|by exists []]. }
  destruct (run_outbound_accepted json ops new_outbound) as (l & Hl & Hsub & _).
  rewrite <- Hob in Hlen, Hrest, Hl. cbn [new_outbound ob_accepted] in Hl; rewrite app_nil_l in Hl. rewrite Hl in Hrest.
  apply omap_prefix in Hrest as (read & unread & -> & Hread).
  split; [done|]. exists read.
  assert (Hin : read `sublist_of` inbox tx (sv_world (app_server a))).
  { unfold inbox. cbn [fst] in Hops. rewrite <- Hops. etrans; [|exact Hsub]. by apply sublist_inserts_r. }
  split_and!; [done..|]. rewrite Forall_forall. intros m Hm.
  eapply sent_true; [done..|]. apply (in_inbox tx). by eapply elem_of_sublist.
Qed.
End sockets.
