(* ===== verification/ServiceWitness.v ===== *)
(** * The theorems about addresses, limits, logs and snapshots at concrete inputs

    The [ipnet] crate is instantiated by networks given as lists of addresses,
    and serde by a codec that knows one file. *)
From S2P Require Import Prelude.
From S2P Require Import Protocol.
From S2P Require Import Ids.
From S2P Require Import Samples.
From S2P Require Import HostTransfer.
From S2P Require Import Room.
From S2P Require Import RoomSamples.
From S2P Require Import NetAddr.
From S2P Require Import AddrText.
From S2P Require Import ClientIp.
From S2P Require Import OwnerKey.
From S2P Require Import Quotas.
From S2P Require Import Logs.
From S2P Require Import Snapshot.
From S2P Require Import Writer.
From S2P Require Import Persist.

#[local] Existing Instance canonical_order.
#[local] Existing Instance sample_crypto.

(** ** Addresses *)

(** A network is a list of addresses; the parser reads one address. *)
Definition sample_nets : IpNetLib := {|
  IpNet := list IpAddr;
  net_contains := fun net a => bool_decide (a ∈ net);
  parse_net := fun s => (fun a => [a]) <$> parse_ip s;
|}.
#[local] Existing Instance sample_nets.

(** The relay trusts its proxy at 10.0.0.1. *)
Definition proxy : IpAddr := V4 167772161.
Definition behind_proxy : ClientIpResolver := {| trusted_proxies := [[proxy]] |}.

Lemma untrusted_hops_irrelevant_witness :
  resolve behind_proxy proxy ["1.2.3.4, 203.0.113.9"]
  = resolve behind_proxy proxy ["10.0.0.1,9.9.9.9"; "203.0.113.9"].
Proof.
  assert (Hhops1 : hops ["1.2.3.4, 203.0.113.9"] = Some ([V4 3405803785] ++ [V4 16909060]))
    by (vm_compute; reflexivity).
  assert (Hhops2 : hops ["10.0.0.1,9.9.9.9"; "203.0.113.9"]
                   = Some ([V4 3405803785] ++ [V4 151587081; proxy]))
    by (vm_compute; reflexivity).
  destruct (untrusted_hops_irrelevant behind_proxy proxy ["1.2.3.4, 203.0.113.9"]
    ["10.0.0.1,9.9.9.9"; "203.0.113.9"] [V4 3405803785] [V4 16909060] [V4 151587081; proxy]
    (V4 3405803785) (V4 3405803785) Hhops1 Hhops2 ltac:(vm_compute; reflexivity)
    ltac:(vm_compute; reflexivity) ltac:(vm_compute; reflexivity)) as [Heq _].
  vm_compute. reflexivity.
Defined.

(** Two of the proxies' addresses in a row, then a client at 2001:db8::1. *)
Definition client_chain : list IpAddr := [proxy; V6 42540766411282592856903984951653826561].

Example client_chain_header : forwarded client_chain = ["2001:db8::1, 10.0.0.1"].
Proof. vm_compute. reflexivity. Qed.

Lemma owner_key_exact_witness :
  exists ip, resolve behind_proxy proxy ["2001:db8::1, 10.0.0.1"] = Ok ip
    /\ to_string ip = "2001:db8::" /\ parse_ip "2001:db8::" = Some ip
    /\ forall ip', resolve behind_proxy (V6 1) [] = Ok ip' -> ip' <> ip.
Proof.
  destruct (owner_key_exact behind_proxy proxy client_chain ltac:(reflexivity)
    ltac:(repeat constructor) ltac:(apply Nat.leb_le; vm_compute; reflexivity))
    as (ip & Hres & Hip & Hparse & Hkeys).
  assert (Hkey : to_string ip = "2001:db8::") by (rewrite Hip; vm_compute; reflexivity).
  exists ip. split; [rewrite <- client_chain_header; exact Hres|]. split; [exact Hkey|].
  split; [rewrite <- Hkey; exact Hparse|]. intros ip' Hres'.
  assert (Hlocal : to_string ip' = "::").
  { assert (Heq : resolve behind_proxy (V6 1) [] = Ok (V6 0)) by (vm_compute; reflexivity).
    rewrite Heq in Hres'. injection Hres' as <-. vm_compute. reflexivity. }
  rewrite <- (Hkeys (V6 1) [] ip' ltac:(reflexivity) Hres'), Hkey, Hlocal. discriminate.
Defined.

(** ** Limits *)

Definition uploads : list limiter_op :=
  [OpAllow proxy (from_secs 0); OpAllow proxy (from_secs 59); OpCleanup (from_secs 60);
   OpAllow proxy (from_secs 60)].

Lemma upload_limiter_refines_witness :
  (run_ops limiter_step (new_limiter LOG_UPLOAD_INTERVAL) uploads).2
  = [Some true; Some false; None; Some true].
Proof.
  pose proof (upload_limiter_refines LOG_UPLOAD_INTERVAL uploads ltac:(by vm_compute)
    ltac:(repeat constructor; vm_compute; discriminate)) as Hspec.
  destruct (run_ops limiter_step _ uploads) as [self answers].
  destruct (run_ops (spec_limiter_step _) [] uploads) as [accepted expected] eqn:Hexp.
  destruct Hspec as [-> _]. vm_compute in Hexp. injection Hexp as _ <-. reflexivity.
Defined.

Lemma token_bucket_burst_witness :
  (run_ops allow_at
     (new_bucket PER_CONNECTION_MESSAGE_BURST PER_CONNECTION_MESSAGE_SUSTAINED (from_secs 7))
     (replicate 31 (from_secs 7))).2
  = replicate 30 true ++ [false].
Proof.
  destruct token_bucket_burst as [Hburst _].
  rewrite (Hburst (from_secs 7) (replicate 31 (from_secs 7))).
  - reflexivity.
  - apply Forall_replicate. reflexivity.
Defined.

(** ** Logs *)

Lemma empty_store_wf : log_store_wf new_log_store.
Proof.
  split; [vm_compute; lia|]. intros id e He. cbn [new_log_store entries] in He.
  by rewrite lookup_empty in He.
Qed.

(** A limiter that lets the first actions of an address through, up to the
    burst. *)
Definition sample_governor : GovernorLib := {|
  Quota := positive;
  RateLimiter := positive * gmap IpAddr nat;
  per_second := fun sustained => sustained;
  allow_burst := fun _ burst => burst;
  keyed := fun quota => (quota, ∅);
  check_key := fun s ip _ =>
    let n := default 0 (s.2 !! ip) in
    if n <? Pos.to_nat s.1 then ((s.1, <[ip := S n]> s.2), true) else (s, false);
|}.
#[local] Existing Instance sample_governor.

Definition sample_limiter : IpRateLimiter := {| ipl_inner := keyed (allow_burst (per_second 1) 2) |}.

(** ** Snapshots *)

(** The guest of [room_absent] is absent since second 10; the snapshot is
    captured at second 1020 (20 on the monotonic clock). *)
Definition captured_file : StateSnapshotDto :=
  new_snapshot_dto [build_room_dto room_absent (secs 1020) (secs 20)].

Definition sample_codec : SnapshotLib := {|
  to_vec := fun dto => if bool_decide (dto = captured_file) then Some [Byte.x7b] else None;
  from_slice := fun bytes => if bytes == [Byte.x7b] then Some captured_file else None;
  min_instant := 0%Z;
|}.
#[local] Existing Instance sample_codec.

Lemma load_snapshot_spec_witness :
  load_snapshot (Some [Byte.x7b]) (secs 1050) (secs 100)
  = omap (load_room (secs 1050) (secs 100)) (dto_rooms captured_file).
Proof.
  destruct (load_snapshot_spec (Some [Byte.x7b]) (secs 1050) (secs 100)) as (_ & _ & Hspec).
  apply Hspec. constructor; [|constructor]. set_solver.
Defined.

Lemma room_absent_reservations :
  reservations room_absent =
  {[ "g1" := {| pr_verifier := token_verifier Byte.x02; pr_absent_since := Some (secs 10);
                pr_release_pending := false |} ]}.
Proof. vm_compute. reflexivity. Qed.

Lemma room_absent_savable : savable room_absent.
Proof.
  split_and!; [by vm_compute..|].
  intros id r. rewrite room_absent_reservations. intros [<- <-]%lookup_singleton_Some.
  split; by vm_compute.
Qed.

Lemma room_absent_fresh : fresh_at (secs 1020) (secs 1050) (secs 20) (secs 100) room_absent.
Proof.
  do 6 (split; [split_and?; by vm_compute|]).
  intros id r a. rewrite room_absent_reservations. intros [<- <-]%lookup_singleton_Some Ha.
  cbn [pr_absent_since] in Ha. injection Ha as <-. split_and!; by vm_compute.
Qed.

Lemma snapshot_roundtrip_witness :
  Forall2 (restored_from (secs 1020) (secs 1050) (secs 20) (secs 100)) [room_absent]
    (load_snapshot (Some [Byte.x7b]) (secs 1050) (secs 100)).
Proof.
  apply snapshot_roundtrip.
  - reflexivity.
  - constructor; [|constructor]. set_solver.
  - constructor; [exact room_absent_savable|constructor].
  - constructor; [exact room_absent_fresh|constructor].
Defined.

(** ** The writer *)

Definition writer_events : list (writer_event (Capture := nat)) :=
  [EvRecv CmdMutate (Ok 0); EvDebounce (Err (mk_SnapshotError "disk full")); EvRecv (CmdTerminal 7) (Ok 1)].

Lemma writer_refines_witness :
  (run_events writer_step (new_writer None) writer_events).2 = [[]; []; [(7, Ok tt)]].
Proof.
  pose proof (writer_refines None writer_events ltac:(by vm_compute)) as Hspec.
  destruct (run_events writer_step _ writer_events) as [w replies].
  destruct (run_events spec_writer_step _ writer_events) as [s expected] eqn:Hexp.
  destruct Hspec as [-> _]. vm_compute in Hexp. injection Hexp as _ <-. reflexivity.
Defined.

Definition disk_full : IoOutcome :=
  {| io_create_dir := true; io_create := true; io_write := Some 1; io_sync := true;
     io_rename := true |}.

#[local] Instance sample_codec_laws : SnapshotLaws sample_codec.
Proof.
  constructor. intros dto bytes. simpl. case_bool_decide as Hdto; [|done]. intros [= <-].
  by rewrite bool_decide_eq_true_2, Hdto.
Qed.

(** The disk is full: a restart at any point finds the room of the old file. *)
Lemma persist_restart_witness :
  Forall (fun fs' => length (load_snapshot (fs' !! "state.json") (secs 1050) (secs 100)) = 1)
    (persist disk_full "state.json" "state.tmp" [build_room_dto room_absent (secs 1020) (secs 20)]
       {["state.json" := [Byte.x7b]]}).1.
Proof.
  assert (Hsav : Forall savable [room_absent]).
  { constructor; [exact room_absent_savable|constructor]. }
  assert (Hfresh : Forall (fresh_at (secs 1020) (secs 1050) (secs 20) (secs 100)) [room_absent]).
  { constructor; [exact room_absent_fresh|constructor]. }
  assert (Hnd : NoDup (session_id <$> [room_absent])).
  { constructor; [|constructor]. set_solver. }
  pose proof (persist_restart disk_full "state.json" "state.tmp" [room_absent]
    (secs 1020) (secs 20) (secs 1050) (secs 100) {["state.json" := [Byte.x7b]]}
    ltac:(discriminate) Hnd Hsav Hfresh) as Hspec.
  destruct (persist _ _ _ _ _) as [states res]. destruct Hspec as [Hall _].
  eapply Forall_impl; [exact Hall|]. intros fs' [Heq|Hnew]; simpl in *.
  - rewrite Heq. vm_compute. reflexivity.
  - by apply Forall2_length in Hnew.
Defined.
