(* ===== verification/ServerWitness.v ===== *)
(** * The theorems about the whole server in a concrete run

    A host opens a room, a guest joins it and leaves, and the host ends the
    session, while the writer takes its turns. *)
From S2P Require Import Prelude.
From S2P Require Import Protocol.
From S2P Require Import Ids.
From S2P Require Import Samples.
From S2P Require Import Room.
From S2P Require Import RoomSamples.
From S2P Require Import Snapshot.
From S2P Require Import Writer.
From S2P Require Import Mailbox.
From S2P Require Import Durable.
From S2P Require Import Threads.
From S2P Require Import World.
From S2P Require Import Registry.
From S2P Require Import Connection.
From S2P Require Import System.
From S2P Require Import Ownership.
From S2P Require Import Races.
From S2P Require Import Server.
From S2P Require Import ServerThms.
From S2P Require Import StateFile.
From S2P Require Import Promises.
From S2P Require Import PromiseThms.
From S2P Require Import ServiceWitness.

#[local] Existing Instance canonical_order.
#[local] Existing Instance sample_crypto.
#[local] Existing Instance sample_codec.

Definition fate : WriterFate :=
  {| wf_timer_first := false; wf_clock := fun _ => (from_secs 5, from_secs 5); wf_error := None |}.

Definition lifted (tp : nat * prog World unit) : nat * prog Server unit := (tp.1, lift tp.1 tp.2).

(** The guest has been told [left], and the room is on file. *)
Definition leave_run : list (nat * prog Server unit) :=
  [(writer_task, writer_run (replicate 10 fate));
   lifted (client 1 [say (0%Z, Races.request client_type.CREATE "room1" "host1" host_token);
                     say (4%Z, Races.request client_type.END_SESSION "room1" "host1" host_token)] 10);
   lifted (client 2 [say (1%Z, Races.request client_type.JOIN "room1" "g1" guest_token);
                     say (2%Z, Races.request client_type.LEAVE "room1" "g1" guest_token)] 10)].

Definition told_left (s : Server) : bool :=
  existsb (fun a => match a with
                    | TrySend tx m => (tx =? 2) && (m == left_reply "room1" "g1")
                    | _ => false
                    end) (w_actions (sv_world s))
  && match wr_file (mb_writer (sv_mail s)) with
     | Some (since, [dto]) => (0 <? since)%N && (dto_session_id dto == "room1")
     | _ => false
     end
  && (moment s <? u64_modulus)%N && (N.of_nat (w_next_token (sv_world s)) + 2 <? u64_modulus)%N.

Abbreviation tasks := (own_starts (fun _ => false)).

Lemma leave_reach :
  exists s ps, pool_reach (server_starts tasks) (boot_server None []) (s, ps) /\ told_left s = true.
Proof.
  apply (ends_in_reach (server_starts tasks) (boot_server None []) leave_run
    [(1, 10); (2, 9); (0, 11); (2, 3)]).
  - by vm_compute; repeat constructor; set_solver.
  - constructor; [by apply server_writer|]. constructor; [|constructor; [|constructor]];
      (apply server_task; [done|by apply own_starts_connection]).
  - by vm_compute.
Qed.

Record told (s : Server) (since : N) (dto : RoomDto) : Prop := {
  to_left : TrySend 2 (left_reply "room1" "g1") ∈ w_actions (sv_world s);
  to_file : wr_file (mb_writer (sv_mail s)) = Some (since, [dto]);
  to_since : (0 < since)%N;
  to_session : dto_session_id dto = "room1";
  to_small : small s;
}.

Lemma told_left_told s : told_left s = true -> exists since dto, told s since dto.
Proof.
  unfold told_left. rewrite !andb_true_iff. intros (((Hsent & Hfile) & Hm) & Hb).
  apply existsb_exists in Hsent as (a & Ha & Hm'). destruct a as [tx m| | |]; [|discriminate Hm'..].
  apply andb_true_iff in Hm' as [Htx Hm']. apply Nat.eqb_eq in Htx. apply bool_decide_eq_true in Hm'.
  subst. apply list_elem_of_In in Ha. apply N.ltb_lt in Hm, Hb.
  destruct (wr_file _) as [[since [|dto []]]|] eqn:Hf; try discriminate Hfile.
  apply andb_true_iff in Hfile as [Hpos Hsid]. apply N.ltb_lt in Hpos. apply bool_decide_eq_true in Hsid.
  exists since, dto. split; [exact Ha|exact Hf|exact Hpos|exact Hsid|by split].
Qed.

Lemma bootable_nil : bootable [].
Proof. split; constructor. Qed.


Lemma state_file_faithful_witness :
  exists s since dto j r st, told s since dto /\ (since < N.of_nat j)%N /\ state_at s j r st
    /\ closing st = false.
Proof.
  destruct leave_reach as (s & ps & Hreach & Htold).
  destruct (told_left_told s Htold) as (since & dto & Hto).
  destruct (state_file_faithful None [] bootable_nil s ps since [dto] Hreach
    (proj2 (to_small _ _ _ Hto)) (to_file _ _ _ Hto) (to_since _ _ _ Hto)) as [Hall _].
  destruct (Hall dto ltac:(left)) as (j & r & st & now & inow & Hj & Hat & Hc & _).
  exists s, since, dto, j, r, st. exact (conj Hto (conj Hj (conj Hat Hc))).
Defined.

Lemma server_refines_system_witness :
  exists s ps', told_left s = true /\ pool_reach tasks (boot []) (sv_world s, ps').
Proof.
  destruct leave_reach as (s & ps & Hreach & Htold).
  destruct (server_refines_system tasks (fun clocks => own_starts_captures _ _ clocks) None [] s ps Hreach)
    as (ps' & Hworld & _).
  exists s, ps'. exact (conj Htold Hworld).
Defined.
