(* ===== verification/WorldWitness.v ===== *)
(** * The theorems about the server at concrete worlds

    A server booted empty, one in which connection 1 hosts a room, and one
    that a guest has joined. *)
From S2P Require Import Prelude.
From S2P Require Import Protocol.
From S2P Require Import Ids.
From S2P Require Import Samples.
From S2P Require Import HostTransfer.
From S2P Require Import Room.
From S2P Require Import RoomSamples.
From S2P Require Import Snapshot.
From S2P Require Import Threads.
From S2P Require Import World.
From S2P Require Import Registry.
From S2P Require Import Cleanup.
From S2P Require Import Connection.
From S2P Require Import System.
From S2P Require Import RegistryThms.
From S2P Require Import ConnThms.
From S2P Require Import ConnTrack.
From S2P Require Import Ownership.
From S2P Require Import CleanupThms.
From S2P Require Import Races.
From S2P Require Import Wire.
From S2P Require Import Limits.
From S2P Require Import ServiceWitness.

#[local] Existing Instance canonical_order.
#[local] Existing Instance sample_crypto.
#[local] Existing Instance sample_codec.

(** ** Worlds *)

Lemma booted_idle : idle_world (boot []).
Proof.
  assert (Hboot : bootable []) by (split; constructor).
  destruct (boot_wf [] Hboot) as [Hw Hwr]. split; [exact Hw|]. split; [exact Hwr|].
  by apply boot_accounts.
Qed.

(** Where a message that runs alone leaves the server and its connection. *)
Definition after (tx : Sender) (second : Z) (msg : ClientMessage) (wc : World * Conn) : World * Conn :=
  match run true (handle_message tx tx "10.0.0.1" (at_secs second) msg wc.2) wc.1 with
  | Some wc => wc
  | None => wc
  end.

Lemma after_idle tx second msg w c :
  idle_world w -> conn_alive w c ->
  idle_world (after tx second msg (w, c)).1
  /\ conn_alive (after tx second msg (w, c)).1 (after tx second msg (w, c)).2.
Proof.
  intros Hidle Hal.
  destruct (message_idle true tx tx "10.0.0.1" (at_secs second) msg c w Hidle Hal)
    as (w' & c' & Hrun & Hidle' & Hal'). unfold after. cbn [fst snd]. by rewrite Hrun.
Qed.

Definition hosted : World * Conn :=
  after 1 0 (request client_type.CREATE "room1" "host1" host_token) (boot [], new_conn).
Definition joined : World * Conn :=
  after 2 1 (request client_type.JOIN "room1" "g1" guest_token) (hosted.1, new_conn).

Lemma new_conn_alive w : conn_alive w new_conn.
Proof. constructor. Qed.

Lemma hosted_idle : idle_world hosted.1 /\ conn_alive hosted.1 hosted.2.
Proof. apply after_idle; [apply booted_idle|apply new_conn_alive]. Qed.

Lemma joined_idle : idle_world joined.1 /\ conn_alive joined.1 joined.2.
Proof. apply after_idle; [apply hosted_idle|apply new_conn_alive]. Qed.

(** ** The system *)

Lemma booted_reach : pool_reach starts (boot []) (boot [], ∅).
Proof. constructor. Qed.

Lemma reconnect_run :
  exists w ps, pool_reach starts (boot []) (w, ps)
    /\ match w_heap w !! 0 with
       | Some st => bool_decide (w_rooms w !! session_id st <> Some 0)
       | None => false
       end = true.
Proof.
  apply (ends_in_reach starts (boot []) reconnect_against_sweep
    [(1, 10); (3, 1); (2, 2); (3, 1); (2, 5); (3, 100)]).
  - by vm_compute; repeat constructor; set_solver.
  - repeat constructor.
  - by vm_compute.
Qed.

(** At the end of a run in which a sweep and a [create] interleave. *)
Lemma system_invariant_witness :
  exists w ps st, pool_reach starts (boot []) (w, ps)
    /\ w_heap w !! 0 = Some st /\ w_rooms w !! session_id st <> Some 0 /\ closing st = true.
Proof.
  destruct reconnect_run as (w & ps & Hreach & Hend).
  destruct (w_heap w !! 0) as [st|] eqn:Hst; [|discriminate Hend].
  apply bool_decide_eq_true in Hend. exists w, ps, st.
  destruct (system_invariant [] w ps ltac:(split; constructor) Hreach) as (_ & _ & Hclosed).
  exact (conj Hreach (conj Hst (conj Hend (Hclosed 0 st Hst Hend)))).
Defined.

(** A writer that has just been started. *)
Definition starting : prog World unit := capture_run [fun _ => (from_secs 0, from_secs 0)].

Lemma starting_reach : pool_reach starts (boot []) (boot [], {[ 7 := starting ]}).
Proof.
  eapply pool_reach_step; [apply booted_reach|]. apply step_start; [done|]. apply starts_captures.
Qed.

Lemma system_terminates_witness :
  exists w' ps', rtc advance_step (boot [], {[ 7 := starting ]}) (w', ps') /\ all_finished ps'.
Proof.
  apply (system_terminates [] (boot []) {[ 7 := starting ]});
    [split; constructor|apply starting_reach].
Defined.

Lemma quota_exact_serial_witness : accounts None (boot []).
Proof.
  destruct quota_exact_serial as [Hboot _].
  destruct (Hboot [] ltac:(split; constructor)) as (_ & _ & Hac). exact Hac.
Defined.

(** ** Operations *)

Lemma create_spec_witness :
  exists w' room e,
    run true (create 4 "room1" "host1" host_token "10.0.0.1" (sample_admission "host1" 4)
                (from_secs 2)) joined.1 = Some (w', (room, e)) /\ w_writer w' = None.
Proof.
  destruct (create_spec true 4 "room1" "host1" host_token "10.0.0.1" (sample_admission "host1" 4)
    (from_secs 2) joined.1 (proj1 joined_idle)) as (w' & room & e & Hrun & Hwr & _).
  exists w', room, e. exact (conj Hrun Hwr).
Defined.

Lemma handle_message_refusals_witness :
  run true (handle_message 1 1 "10.0.0.1" (at_secs 2)
              (request client_type.JOIN "room1" "g2" guest_token) hosted.2) hosted.1
  = Some (set_actions hosted.1 (w_actions hosted.1 ++
            [TrySend 1 (into_message AlreadyInRoom
               "Leave the current room before creating or joining another")]), hosted.2).
Proof. apply handle_message_refusals. vm_compute. reflexivity. Defined.

Lemma build_snapshot_spec_witness :
  exists dtos, run true (build_snapshot (fun _ => (from_secs 5, from_secs 5))) joined.1
               = Some (joined.1, dtos) /\ NoDup (dto_session_id <$> dtos).
Proof.
  destruct (build_snapshot_spec true (fun _ => (from_secs 5, from_secs 5)) joined.1
    (proj1 (proj1 joined_idle)) ltac:(by vm_compute)) as (dtos & Hrun & Hnd & _).
  exists dtos. exact (conj Hrun Hnd).
Defined.

Lemma sweep_spec_witness :
  exists w', run true (sweep (from_secs 400) (fun _ => from_secs 400) (from_secs 400)) joined.1
             = Some (w', tt).
Proof.
  destruct (sweep_spec true (from_secs 400) (fun _ => from_secs 400) (from_secs 400) joined.1
    (proj1 (proj1 joined_idle)) ltac:(by vm_compute)) as (w' & Hrun & _).
  exists w'. exact Hrun.
Defined.

(** ** Membership *)

Lemma nobody_tracked tx w : (forall r id p, ~ occupies (w_heap w) r id p) -> tracked tx new_conn w.
Proof.
  intros Hnone. split; [intros r id p Ho; by destruct (Hnone r id p)|by intros []].
Qed.

Lemma booted_tracked tx : tracked tx new_conn (boot []).
Proof.
  apply nobody_tracked. intros r id p (st & Hst & _). vm_compute in Hst. by destruct r.
Qed.

Lemma hosted_tracked : tracked 1 hosted.2 hosted.1.
Proof.
  destruct (message_handled true 1 1 "10.0.0.1" (at_secs 0)
    (request client_type.CREATE "room1" "host1" host_token) new_conn (boot []) booted_idle
    (new_conn_alive _) (booted_tracked 1)) as (w' & c' & Hrun & _ & Ht & _); [by intros [=]|].
  unfold hosted, after. cbn [fst snd]. by rewrite Hrun.
Qed.

Lemma membership_tracked_witness :
  exists w' c', run true (handle_message 1 1 "10.0.0.1" (at_secs 3)
      (request client_type.END_SESSION "room1" "host1" host_token) hosted.2) hosted.1
    = Some (w', c') /\ tracked 1 c' w'.
Proof.
  destruct (membership_tracked true 1 1 "10.0.0.1" (at_secs 3) (at_secs 4)
    (request client_type.END_SESSION "room1" "host1" host_token) hosted.2 hosted.1
    (proj1 hosted_idle) (proj2 hosted_idle) hosted_tracked) as (w' & c' & _ & Hrun & Ht & _).
  - intros _ r st Hr Hst. vm_compute in Hr. injection Hr as <-. vm_compute in Hst.
    injection Hst as <-. vm_compute. reflexivity.
  - exists w', c'. exact (conj Hrun Ht).
Defined.

(** The guest, who may not, asks to end the session. *)
Lemma refused_end_session_forgets_room_witness :
  exists w' r st p,
    run true (handle_message 2 2 "10.0.0.1" (at_secs 3)
      (request client_type.END_SESSION "room1" "g1" guest_token) joined.2) joined.1
      = Some (w', leave_room joined.2)
    /\ w_heap w' !! r = Some st /\ closing st = false /\ peers st !! "g1" = Some p /\ cp_tx p = 2.
Proof.
  destruct (w_heap joined.1 !! 0) as [st|] eqn:Hst; [|vm_compute in Hst; discriminate Hst].
  assert (Hstate : w_heap joined.1 !! 0 = Some st) by exact Hst.
  vm_compute in Hst. injection Hst as Heq.
  destruct (refused_end_session_forgets_room true 2 2 "10.0.0.1" (at_secs 3) (at_secs 4)
    (request client_type.END_SESSION "room1" "g1" guest_token) joined.2 joined.1 0 st
    (effects_error PeerIdUnavailable "Unable to end room")
    (proj1 joined_idle) eq_refl ltac:(by vm_compute) Hstate ltac:(rewrite <- Heq; by vm_compute))
    as (w' & Hrun & Hheap & _).
  eexists w', 0, st, _. split; [exact Hrun|]. rewrite Hheap. split; [exact Hstate|].
  rewrite <- Heq. split; [reflexivity|]. split; [vm_compute; reflexivity|reflexivity].
Defined.

(** ** The wire *)

(** The host's token is only presented on connections 1 and 2. *)
Definition host_presents (tx : Sender) (token : string) : Prop :=
  token = host_token /\ (tx = 1 \/ tx = 2).

Definition sent_created (w : World) : bool :=
  existsb (fun a => match a with
                    | TrySend tx m => (tx =? 2) && (sm_reconnect_token m == Some host_token)
                    | _ => false
                    end) (w_actions w).

Lemma created_run :
  exists w ps, pool_reach (starts_presenting host_presents) (boot []) (w, ps)
    /\ sent_created w = true.
Proof.
  apply (ends_in_reach (starts_presenting host_presents) (boot []) reconnect_against_sweep
    [(1, 10); (2, 7)]).
  - by vm_compute; repeat constructor; set_solver.
  - constructor; [|constructor; [|constructor; [|constructor]]].
    + apply presenting_connection. constructor; [|constructor]. by split; [|left].
    + apply presenting_connection. constructor; [|constructor]. by split; [|right].
    + apply presenting_cleanup.
  - by vm_compute.
Qed.

Lemma wire_conformance_witness :
  exists w m, TrySend 2 m ∈ w_actions w /\ conforms m = true /\ host_presents 2 host_token.
Proof.
  destruct created_run as (w & ps & Hreach & Hsent). apply existsb_exists in Hsent as (a & Ha & Hm).
  destruct a as [tx m| | |]; [|discriminate Hm..].
  apply andb_true_iff in Hm as [Htx Hm]. apply Nat.eqb_eq in Htx. subst tx.
  apply bool_decide_eq_true in Hm. apply list_elem_of_In in Ha.
  destruct (wire_conformance host_presents [] w ps 2 m Hreach Ha) as [Hc Ht].
  exists w, m. exact (conj Ha (conj Hc (Ht host_token Hm))).
Defined.

(** ** Membership while everybody runs *)

(** Connections 2 and 3 are guests; 2 is over while its guest is back on 3. *)
Definition two_guests (t : nat) : bool := (t =? 2) || (t =? 3).

Definition room_is_open (w : World) : bool :=
  match w_heap w !! 0 with Some st => negb (closing st) && (size (peers st) =? 2) | None => false end
  && (w_next_token w =? 3).

Lemma guest_run :
  exists w ps, pool_reach (own_starts two_guests) (boot []) (w, ps)
    /\ ps !! 2 = Some (Ret tt) /\ room_is_open w = true.
Proof.
  apply (ends_over_reach (own_starts two_guests) (boot []) resume_against_disconnect
    [(1, 9); (2, 6); (2, 1); (3, 6); (2, 100)]).
  - by vm_compute; repeat constructor; set_solver.
  - constructor; [|constructor; [|constructor; [|constructor]]]; apply own_starts_connection;
      intros Hg; try discriminate Hg; (constructor; [split; discriminate|constructor]).
  - by vm_compute.
Qed.

Lemma guest_membership_witness :
  exists w st, w_heap w !! 0 = Some st /\ closing st = false /\ size (peers st) = 2
    /\ forall id p, peers st !! id = Some p -> cp_tx p <> 2.
Proof.
  destruct guest_run as (w & ps & Hreach & Hover & Hopen). unfold room_is_open in Hopen.
  apply andb_true_iff in Hopen as [Hopen Htok]. apply Nat.eqb_eq in Htok.
  destruct (w_heap w !! 0) as [st|] eqn:Hst; [|discriminate Hopen].
  apply andb_true_iff in Hopen as [Hc Hsize]. apply negb_true_iff in Hc. apply Nat.eqb_eq in Hsize.
  assert (Hbound : bounded w) by (unfold bounded; rewrite Htok; vm_compute; reflexivity).
  destruct (guest_membership two_guests [] w ps 2 ltac:(split; constructor) Hreach Hbound eq_refl)
    as [_ Hgone].
  exists w, st. split_and!; [done..|]. intros id p Hp. exact (Hgone Hover 0 st id p Hst Hc Hp).
Defined.

(** ** The limits at the end of the run in which a sweep and a [create] interleave *)

Lemma limits_hold_witness :
  exists w ps, pool_reach starts (boot []) (w, ps) /\ size (w_rooms w) <= MAX_RETAINED_ROOMS
    /\ forall key n, w_rooms_per_ip w !! key = Some n -> n <= MAX_ROOMS_PER_IP.
Proof.
  destruct reconnect_run as (w & ps & Hreach & _). exists w, ps.
  destruct (limits_hold [] w ps Hreach) as [Hrooms Hcounters].
  split; [exact Hreach|]. split; [exact Hrooms|].
  intros key n Hn. specialize (Hcounters key n Hn). destruct (_ == _); exact Hcounters.
Defined.
