(* ===== verification/AppWitness.v ===== *)
(** * The theorems about the application at concrete requests *)
From S2P Require Import Prelude.
From S2P Require Import Protocol.
From S2P Require Import Ids.
From S2P Require Import Samples.
From S2P Require Import HostTransfer.
From S2P Require Import Room.
From S2P Require Import RoomSamples.
From S2P Require Import NetAddr.
From S2P Require Import ClientIp.
From S2P Require Import Quotas.
From S2P Require Import Logs.
From S2P Require Import Snapshot.
From S2P Require Import Writer.
From S2P Require Import Threads.
From S2P Require Import World.
From S2P Require Import Cleanup.
From S2P Require Import Connection.
From S2P Require Import System.
From S2P Require Import Ownership.
From S2P Require Import RegistryThms.
From S2P Require Import Races.
From S2P Require Import Mailbox.
From S2P Require Import Server.
From S2P Require Import ServerThms.
From S2P Require Import StateFile.
From S2P Require Import ServerLive.
From S2P Require Import App.
From S2P Require Import AppThms.
From S2P Require Import AppSlots.
From S2P Require Import Sections.
From S2P Require Import AppLogs.
From S2P Require Import AppLive.
From S2P Require Import Outbound.
From S2P Require Import Wire.
From S2P Require Import Promises.
From S2P Require Import PromiseThms.
From S2P Require Import Sockets.
From S2P Require Import ServiceWitness.
From S2P Require Import ServerWitness.

#[local] Existing Instance canonical_order.
#[local] Existing Instance sample_crypto.
#[local] Existing Instance sample_codec.
#[local] Existing Instance sample_nets.
#[local] Existing Instance sample_governor.

(** ** Starting up *)

Lemma captured_at_most_seven : at_most_seven (Some [Byte.x7b]).
Proof.
  intros bytes dto room [= <-] [= <-] Hin. apply list_elem_of_singleton in Hin as ->.
  apply Nat.leb_le. vm_compute. reflexivity.
Qed.

Definition with_cidrs (cidrs : string) : Config :=
  {| cfg_addr := None; cfg_port := 8080; cfg_log_dir := "/data/logs";
     cfg_state_file := "/data/rooms.json"; cfg_trusted_proxy_cidrs := cidrs |}.

Example bind_addr_default : bind_addr (with_cidrs "") = "0.0.0.0:8080".
Proof. vm_compute. reflexivity. Qed.

Definition one_file : Files := {["/data/rooms.json" := [Byte.x7b]]}.

Lemma startup_spec_witness :
  exists app, startup (with_cidrs "not a network") one_file (secs 1050) (secs 100) = Some app
  /\ w_rooms (sv_world (app_server app)) !! "room1" = Some 0 /\ idle_world (sv_world (app_server app)).
Proof.
  destruct (startup_spec (with_cidrs "not a network") one_file (secs 1050) (secs 100)
    captured_at_most_seven) as (app & Happ & Hidle & Hrooms & _).
  exists app. split; [exact Happ|]. split; [|exact Hidle].
  apply Hrooms. eexists. split; vm_compute; reflexivity.
Defined.

(** ** A run

    Attempt 1 becomes a connection that ends, the upgrade of attempt 2 fails,
    request 3 uploads a log of one byte, and the client of request 5, which
    looks that log up, goes away. *)

#[local] Instance sample_layer : BodyLimitLib := {|
  limit_body := fun limit body =>
    if (limit <? N.of_nat (length body))%N then Some (RText 413 "length limit exceeded") else None;
|}.

Definition first_app : AppState := {|
  app_server := boot_server None [];
  app_client_ip := {| trusted_proxies := [] |};
  app_connections := default_quota;
  app_connect_limiter := {| ipl_inner := keyed (allow_burst (per_second 1) 5) |};
  app_failed_lookup_limiter := {| ipl_inner := keyed (allow_burst (per_second 1) 10) |};
  app_lookup_slots := MAX_CONCURRENT_LOOKUPS;
  app_live := ∅;
  app_lookups := ∅;
|}.

Lemma first_startup : startup (with_cidrs "") ∅ 0 0 = Some first_app.
Proof. reflexivity. Qed.

Definition requests : list (nat * prog AppState unit) :=
  [(1, handle 1 proxy [] (GetRelay 0 (Some (0%Z, [], at_secs 0))));
   (2, handle 2 proxy [] (GetRelay 0 None));
   (3, handle 3 proxy [] (PostLogs [Byte.x01] 0 0 [[0; 1; 2; 3; 4]]));
   (5, abandon 5 proxy [] (GetLogs "abcde" 0))].

Definition fails (t : nat) : bool := t =? 2.
Definition stopped_clock (now : SystemTime) : Prop := now = 0%Z.

Definition logged (a : AppState) : bool :=
  match entries (app_logs a) !! "abcde" with
  | Some e => bool_decide (e_data e = [Byte.x01]) && bool_decide (e_created_at e = 0%Z)
  | None => false
  end
  && bool_decide (app_live a !! 2 = Some proxy)
  && (app_lookup_slots a =? MAX_CONCURRENT_LOOKUPS)
  && is_ok (resolve (app_client_ip a) proxy []).

Lemma requests_reach :
  exists a ps, pool_reach (app_starts stopped_clock fails) first_app (a, ps)
    /\ ps !! 1 = Some (Ret tt) /\ logged a = true.
Proof.
  apply (ends_over_reach (app_starts stopped_clock fails) first_app requests [(5, 2); (1, 20); (2, 20); (3, 20); (5, 1)]).
  - by vm_compute; repeat constructor; set_solver.
  - do 3 (apply Forall_cons; split; [apply app_request; try done|]).
    { split; [done|]. by repeat constructor. }
    apply Forall_cons. split; [by apply app_abandoned|done].
  - by vm_compute.
Qed.

Lemma app_refines_server_witness :
  exists a ps', logged a = true /\ pool_reach (server_starts (own_starts (fun _ => false)))
    (boot_server None []) (app_server a, ps').
Proof.
  destruct requests_reach as (a & ps & Hreach & _ & Hlogged).
  destruct (app_refines_server (with_cidrs "") ∅ 0 0 first_app stopped_clock fails a ps first_startup Hreach)
    as (ps' & Hserver & _).
  exists a, ps'. exact (conj Hlogged Hserver).
Defined.

Lemma admission_exact_witness :
  exists a, logged a = true /\ slots_ok a /\ app_live a !! 1 = None.
Proof.
  destruct requests_reach as (a & ps & Hreach & Hover & Hlogged).
  destruct (admission_exact stopped_clock fails first_app a ps
    (ex_intro _ (with_cidrs "") (ex_intro _ ∅ (ex_intro _ 0%Z (ex_intro _ 0%Z first_startup)))) Hreach)
    as (Hok & Hends & _).
  destruct (Hends 1 Hover) as [_ Hlive].
  exists a. exact (conj Hlogged (conj Hok (Hlive eq_refl))).
Defined.

Lemma log_lifetime_witness :
  exists a a'', logged a = true
    /\ run true (get_logs 4 proxy [] "abcde" 0) a = Some (a'', RLog [Byte.x01] log_headers).
Proof.
  destruct requests_reach as (a & ps & Hreach & _ & Hlogged).
  destruct (log_lifetime stopped_clock fails first_app a ps
    (ex_intro _ (with_cidrs "") (ex_intro _ ∅ (ex_intro _ 0%Z (ex_intro _ 0%Z first_startup)))) Hreach)
    as (_ & _ & Hfound).
  pose proof Hlogged as Hl. unfold logged in Hl. rewrite !andb_true_iff in Hl.
  destruct Hl as [[[He _] Hslots] Haddr]. apply Nat.eqb_eq in Hslots.
  destruct (entries (app_logs a) !! "abcde") as [e|] eqn:Hentry; [|discriminate He].
  apply andb_true_iff in He as [Hdata Hcreated].
  apply bool_decide_eq_true in Hdata, Hcreated.
  destruct (Hfound "abcde" e a ps Hentry (rtc_refl _ _)
    ltac:(intros now ->; rewrite Hcreated; vm_compute; reflexivity) true 4 proxy [] 0%Z Haddr
    ltac:(rewrite Hslots; discriminate)) as (a'' & Hrun & _).
  rewrite Hdata in Hrun. exists a, a''. exact (conj Hlogged Hrun).
Defined.

(** ** A host that ends its session, with the writer at work *)

Definition hosting : list (nat * prog AppState unit) :=
  [(writer_task, within (writer_run (replicate 10 fate)));
   (1, handle 1 proxy [] (GetRelay 0 (Some (0%Z,
         arrival <$> [say (0%Z, Races.request client_type.CREATE "room1" "host1" host_token);
                      say (4%Z, Races.request client_type.END_SESSION "room1" "host1" host_token)],
         at_secs 10))))].

(** The task is over, or waits. *)
Definition halted (a : AppState) (p : prog AppState unit) : bool :=
  match p with
  | Ret _ => true
  | Sec f _ => match f a with None => true | Some _ => false end
  | Ask _ => false
  end.

Lemma halted_stays a ps :
  forallb (fun tp => halted a tp.2) (map_to_list ps) = true -> ~ exists c, advance_step (a, ps) c.
Proof.
  intros Hall [c Hstep]. rewrite forallb_forall in Hall.
  assert (Hlook : forall t p, ps !! t = Some p -> halted a p = true).
  { intros t p Ht. apply (Hall (t, p)), list_elem_of_In, elem_of_map_to_list, Ht. }
  inversion Hstep as [? ? t B f k a' b Ht Hf|? ? t k b Ht]; subst; apply Hlook in Ht; [|done].
  cbn [halted] in Ht. by rewrite Hf in Ht.
Qed.

(** The request is over, the writer waits, and the file is that of an empty server. *)
Definition quiet (a : AppState) (ps : gmap nat (prog AppState unit)) : bool :=
  over 1 ps && forallb (fun tp => halted a tp.2) (map_to_list ps)
  && match ps !! writer_task with Some (Sec _ _) => true | _ => false end
  && negb (wr_stopped (mb_writer (sv_mail (app_server a))))
  && match wr_file (mb_writer (sv_mail (app_server a))) with
     | Some (since, []) => (0 <? since)%N
     | _ => false
     end
  && (moment (app_server a) <? u64_modulus)%N.

Lemma hosting_reach :
  exists a ps, pool_reach (app_starts stopped_clock fails) first_app (a, ps) /\ quiet a ps = true.
Proof.
  apply (ends_reach (app_starts stopped_clock fails) first_app hosting [(1, 17); (0, 8); (1, 5)] quiet).
  - by vm_compute; repeat constructor; set_solver.
  - constructor; [by apply app_writer|constructor; [by apply app_request|constructor]].
  - by vm_compute.
Qed.

Lemma no_deadlock_witness :
  exists a ps, quiet a ps = true /\ settled (sv_mail (app_server a)).
Proof.
  destruct hosting_reach as (a & ps & Hreach & Hquiet). pose proof Hquiet as Hq.
  unfold quiet in Hq. rewrite !andb_true_iff in Hq. destruct Hq as (((((_ & Hhalt) & Hw) & Hrun) & _) & Hm).
  apply N.ltb_lt in Hm. apply negb_true_iff in Hrun.
  destruct (no_deadlock (with_cidrs "") ∅ 0 0 first_app stopped_clock fails a ps first_startup
    ltac:(intros bytes dto room Hnone; discriminate Hnone) Hreach Hm) as [_ [Hmove|[_ [Hstop|Hset]]]].
  - left. destruct (ps !! writer_task) as [[u|B f k|k]|]; try discriminate Hw.
    exists (Sec f k). split; [reflexivity|intros []].
  - destruct (halted_stays a ps Hhalt Hmove).
  - rewrite Hrun in Hstop. discriminate Hstop.
  - exists a, ps. exact (conj Hquiet Hset).
Defined.

(** ** What the host reads *)

(** A text stands for its message by the type alone. *)
Definition type_text (m : ServerMessage) : option string := Some (sm_msg_type m).

Definition sockets_of (n : nat) (a : AppState) : gmap nat Outbound.Outbound :=
  Nat.iter n (on_socket type_text (OpRecv true) 1)
    (put_all type_text (w_actions (sv_world (app_server a))) ∅).

Definition host_reads (a : AppState) (ps : gmap nat (prog AppState unit)) : bool :=
  bool_decide (texts (ob_wire (socket (sockets_of 2 a) 1)) = ["created"; "ended"])
  && (moment (app_server a) <? u64_modulus)%N
  && (N.of_nat (w_next_token (sv_world (app_server a))) + 2 <? u64_modulus)%N.

Lemma reading_reach :
  exists a ps, net_reach type_text (app_starts stopped_clock fails) first_app ((a, ps), sockets_of 2 a)
    /\ host_reads a ps = true.
Proof.
  destruct (ends_reach (app_starts stopped_clock fails) first_app hosting [(1, 17); (0, 8); (1, 5)] host_reads)
    as (a & ps & Hreach & Hreads).
  - by vm_compute; repeat constructor; set_solver.
  - constructor; [by apply app_writer|constructor; [by apply app_request|constructor]].
  - by vm_compute.
  - exists a, ps. split; [|exact Hreads].
    do 2 (eapply net_reach_step; [|by apply net_write]). exact (pool_net type_text stopped_clock fails first_app (a, ps) eq_refl Hreach).
Qed.

(** What the session's [ended] says is true. *)
Lemma client_reads_witness :
  exists a read, host_reads a ∅ = true /\ omap type_text read = ["created"; "ended"]
    /\ Forall (true_message (app_server a) 1) read.
Proof.
  destruct reading_reach as (a & ps & Hreach & Hreads). pose proof Hreads as Hr.
  unfold host_reads in Hr. rewrite !andb_true_iff in Hr. destruct Hr as [[Htexts Hm] Hb].
  apply bool_decide_eq_true in Htexts. apply N.ltb_lt in Hm, Hb.
  destruct (client_reads type_text (with_cidrs "") ∅ 0 0 first_app stopped_clock fails a ps (sockets_of 2 a) 1
    first_startup ltac:(intros bytes dto room Hnone; discriminate Hnone) Hreach (conj Hm Hb))
    as (_ & read & Hread & _ & Htrue).
  rewrite Htexts in Hread. exists a, read. exact (conj Hreads (conj (eq_sym Hread) Htrue)).
Defined.
